(* ===== verification/_CoqProject ===== *)
-Q . S2P
Prelude.v
Errors.v
Utf8.v
StdIo.v
Buffered.v
HttpApi.v
HttpModel.v
Mpsc.v
ReadQueue.v
QueueLaws.v
HttpBody.v
BytesBody.v
Body.v
BodyLaws.v
Threads.v
Message.v
MessageLaws.v
ChunkedLaws.v
Request.v
RequestLaws.v
Response.v
ResponseLaws.v
Upgrade.v
Tls.v
Connection.v
TlsLaws.v
ConnLaws.v
Server.v
Reference.v
StreamLaws.v
IncomingLaws.v
ServiceLaws.v
ServerLaws.v
Totality.v
AcceptLaws.v
Echo.v
Examples.v
Routes.v
LineProtocol.v
Chat.v
ChatLaws.v
Client.v
ClientLaws.v
RoundTrip.v
HeadModel.v
EndToEnd.v
Pipeline.v
Compress.v
Files.v
WebSocket.v
WsChat.v
WsChatLaws.v
Tunnel.v
TunnelLaws.v
Streaming.v
Witnesses.v
StreamWitnesses.v
Tests.v
ClientTests.v
