(* ===== verification/Prelude.v ===== *)
(** * touche: a verification development of the HTTP/1 library

    touche is a synchronous HTTP/1.0 and HTTP/1.1 server and client. This development
    models its code under src/src/ and proves it correct. This file is the prelude all
    others share; its header describes the whole.

    ** The program and how its parts interact

    A [Server] takes connections from an iterator and runs [serve] on each. [serve] puts
    a [BufReader] of the connection into a [ReadQueue] and takes one [QueuedReader] per
    request from it: the body of a request may still own its handle while the handle for
    the next request exists, and the reader travels from handle to handle through mpsc
    channels when they are dropped. [parse_request] reads a head and makes a [Body] of
    what follows; the service maps the request to a response; [write_response] chooses
    the framing and writes it to a [BufWriter]. Depending on the headers the connection
    is kept, closed, or handed to an upgrade handler. The client does the mirror image
    on a pool of connections.

    ** The model

    A Rust function with [&mut] arguments and the part of the world it can reach becomes
    a computation [ST S E A]: a function from the state [S] to an [outcome], which is
    [Ok] or [Err] with the new state, a panic, a wait for a message that only this thread
    could send ([Block]), or the end of the fuel. Destructors are explicit: [Drop] is a
    class and the places where Rust drops a value call [drop_value]. The class [Fuel]
    bounds the iterations of each loop; the theorems assume that the fuel exceeds the
    length of the input (or the number of chunks or connections) and then prove that a
    result is returned, so that none of them holds because the fuel ran out. [wp m Q R s]
    says that [m] returns from [s], with [Q] after [Ok] and [R] after [Err].

    The world [W] is a parameter with two relations (class [World]): [rstep], what
    reading and closing may change, and [wstep], which contains it. A stream satisfies
    [ReadLaws]/[BufReadLaws] when [holds r w bs fin] says which bytes it still delivers
    and how it ends; [WriteLaws] say which bytes were written so far.

    - Prelude.v: computations, their calculus, bytes, numbers, [Vec] allocation.
    - Errors.v: [io::Error], [ParseError] (src/src/request.rs), [httparse::Error].
    - StdIo.v, Buffered.v, Mpsc.v, Utf8.v: what the code uses of the standard library:
      [Read], [BufRead], [Write], [Take], [Cursor], [io::copy]; [BufReader] and
      [BufWriter]; channels as queues in a store with the liveness of both ends;
      [from_utf8] and [chars].
    - HttpApi.v: the crates http, headers and httparse as a class of operations and a
      class of the documented laws the proofs use; HttpModel.v is an instance of both,
      on which the witnesses evaluate.
    - ReadQueue.v, QueueLaws.v: src/src/read_queue.rs; the hand-off as functions on the
      store, as a transition system for arbitrary interleavings, and as a reader that
      keeps the contract of the reader behind it.
    - HttpBody.v, BytesBody.v, Body.v, BodyLaws.v: src/src/body/http_body.rs and
      src/src/body.rs. The class [HttpBodyLaws] is the contract of a body: the three ways
      to consume it. BytesBody.v has the implementations for [Bytes] and [BytesMut], over
      a class for the buffers of the crate bytes.
    - Message.v, MessageLaws.v, ChunkedLaws.v: what src/src/request.rs and
      src/src/response.rs share: reading a head, building the headers, the chunked
      decoder, writing headers and encoded bodies.
    - Request.v, RequestLaws.v, Response.v, ResponseLaws.v: the four functions of these
      files, [parse_request], [write_request], [parse_response], [write_response].
    - Upgrade.v, Tls.v, TlsLaws.v, Connection.v, ConnLaws.v: src/src/upgrade.rs,
      src/src/tls.rs ([Arc<Mutex<..>>] as a counted cell of the world) and
      src/src/connection.rs; the contract of a connection.
    - Server.v: src/src/server.rs, the loop [serve] and the server around it. Reference.v:
      the reference [serve] refines. StreamLaws.v: bodies that are read from a stream while
      they are written to another; IncomingLaws.v: what a service can do with the body of a
      request (read it whole, drop it, or hand it on as the body of its response);
      ServiceLaws.v: the class [ServiceLaws], the contract of a service; ServerLaws.v: the
      proof for one connection; Totality.v: where the reference is defined; AcceptLaws.v: the
      loops that accept connections.
    - Echo.v: a lawful service and an in-memory connection, on which these theorems are
      applied; Examples.v and Routes.v: services of src/examples/ and their laws.
    - Threads.v: the threads of src/examples/ that send the body of a response through
      [Body::channel] while the connection writes it, beside a scheduler that decides which
      threads run between two calls of the reader; Streaming.v: chunked.rs, trailers.rs and
      sse.rs as services. LineProtocol.v: the upgrade of upgrade.rs.
    - Compress.v, Files.v, WebSocket.v: the body of compress.rs that compresses another, the
      service of file.rs, and the echo of websocket.rs, with gzip, the file system and
      tungstenite as parameters.
    - Chat.v, ChatLaws.v: sse-chat.rs; its map of users, its threads and its closure, and
      the transition system of all that can happen to them. WsChat.v, WsChatLaws.v: the same
      for websocket-chat.rs, with the two threads of each connection.
    - Tunnel.v, TunnelLaws.v: tunnel.rs; the two threads of a tunnel beside its two peers as
      a transition system, and the service that answers CONNECT and hands over the
      connection.
    - Client.v, ClientLaws.v: src/src/client.rs.
    - RoundTrip.v, EndToEnd.v, Pipeline.v: what one side writes is what the other reads; a
      request of the client answered by the server; several requests behind one another
      answered by a service that streams. The class [HttpHeadLaws] adds what the round
      trips need of the head parsers; HeadModel.v shows that the instance has it.
    - Tests.v, ClientTests.v: the unit tests of the crate, evaluated on the model with
      the instance of HttpModel.v.
    - Witnesses.v, StreamWitnesses.v: each theorem with hypotheses applied at a concrete
      input.

    ** What the theorems show

    - Refinement: [serve_refines] (ServerLaws.v): over buffers, hand-off and channels,
      [serve] writes what a reference computes from the bytes of the client, request
      bodies with a length and in chunks included, and the reference says how the
      connection ends: closed, failed, or handed to which upgrade handler with which bytes
      left to read; the handler runs on what the other handles of the reader left alone
      (class [ConnShared]). The reference covers bodies that are malformed or cut off by the
      end of the stream, and [serve_returns] (Totality.v) says that [serve] returns on every
      stream that ends. [upgrade_served] (LineProtocol.v): the whole of upgrade.rs, less at
      most the 8 KiB of the protocol behind it that were read ahead with the request.
      [request_answered] (EndToEnd.v): a request that the client writes reaches the service,
      and what [serve] writes is read as the response of the service. [echo_pipeline] (Pipeline.v): requests sent behind
      one another are answered in order, although a response is written while its request
      is still being read. [streamed_response_read] (Streaming.v): what another
      thread sends as the body of a response is written, its trailers included, and a client
      reads the data, in every interleaving of the two.
    - Functional behaviour of parsing and writing on every branch, errors included:
      [parse_request_takes], [parse_response_takes], [write_request_output],
      [write_response_output], [write_response_mismatch], [connection_closed_iff].
    - Round trips: [chunked_round_trip], [response_round_trip], [request_round_trip],
      [compressed_round_trip]; the headers announce the encoding that is used
      ([response_framing_sound], [request_framing_sound]).
    - The hand-off of the reader: order, exclusion, no panic, nothing lost
      ([queued_read_waits_for_earlier], [queued_read_exclusive], [queued_never_panics],
      [drop_hands_over], [handle_reads_through]).
    - Bodies: the views agree (into_chunks if nothing follows the body on its stream),
      dropping skips, channels stream, abort and closing are reported ([body_views_agree], [body_drop_skips], [channel_streams], ..).
    - Client: [send_request_exchange], [client_reuses], [client_connects].
    - Connections and the server around [serve]: shared handles of a TLS stream behave like
      the stream with one owner ([tls_shared_as_owned]); [tls_strong_count], [downcast_stream],
      [http10_response_closes], [single_thread_serves_all],
      [threads_serve_all], [make_service_serves_all]; a service of src/examples/ behind the
      server: [upload_refused], [routes_reverse].
    - Liveness and termination beside other threads: [streamed_into_bytes]; the chat: what
      a user gets, in order ([chat_in_order]), completely ([chat_delivers]), and who stays in
      the map ([chat_removes_gone]); the chat over WebSockets: order and completeness
      ([ws_chat_in_order]), and users that stay after their client has gone
      ([ws_gone_user_lingers]); a tunnel: each peer gets what the other sent, in order
      ([tunnel_in_order]), its threads end after a bounded number of calls in every
      interleaving ([tunnel_ends]), and a client that ends its own direction can lose the
      response ([tunnel_half_close]); what a client gets whose target cannot be reached, and
      that its connection is closed ([tunnel_unreachable]).
    - The unit tests pass on the model: [unit_tests_pass], [client_tests_pass].
    - Behaviour that is likely not meant: [default_body_panics],
      [channel_abort_unnoticed], [huge_chunk_panics], [truncated_upload_answered],
      [malformed_chunk_ends_body], [accept_error_ends_server], [http10_request_keeps_chunked],
      [small_body_unanswered], [chunks_overrun], [chat_forgery], [upgrade_loses_buffered].

    ** Bounds

    Integers are [N] with the wrap-around of [u64]/[usize] written out ([wrap64]; 64-bit
    targets) and the limit [isize::MAX] of allocations ([alloc_vec]). Lengths of byte
    lists are [nat].

    ** Not modelled

    The internals of http, headers, httparse, rustls, bytes, threadpool and of the
    operating system's sockets (parameters with laws); [Debug] implementations;
    src/src/lib.rs (re-exports); the [main]s of src/examples/, which pass a closure to a
    server, and websocket-tokio.rs (an asynchronous runtime). The threads of one program
    interleave at the calls that they share: sends, receives, the closing of channels and the
    lock of a map. The thread of the pool that runs a job is not scheduled:
    [threads_serve_all] says which jobs the pool is given. The sockets of a tunnel take what
    is written at any time ([sys_wrote]): a write that waits for its peer is a thread that is
    not scheduled, so [tunnel_ends] bounds the calls of a thread, not the time of a write.

    The reference of [serve_refines] is undefined ([Beyond]) for requests that announce more
    than can be allocated ([beyond_overlong]) and for streamed bodies during which the
    connection fails, and a lawful service reads the body of a request whole, drops it, or
    hands it on as the body of its response; a service that reads a part of it is not
    covered. *)
From stdpp Require Import base list gmap strings.
From Stdlib Require Import Strings.Byte NArith Lia.

Declare Scope touche_scope.
Delimit Scope touche_scope with touche.
#[global] Open Scope touche_scope.

(** ** Computations

    A computation that works on a state [S] (the [&mut] arguments of the Rust
    function together with the part of the world it can reach) and whose Rust
    result type is [Result<A, E>]. Besides the two constructors of [Result]
    it can panic ([unwrap] on [None] or [Err], [unreachable!]), wait for a
    message that this thread itself would have to send ([Block]), or run out of
    the fuel that stands for the iterations of a Rust [loop]. *)
Inductive outcome (S E A : Type) : Type :=
| Ok (a : A) (s : S)
| Err (e : E) (s : S)
| Panic
| Block
| NoFuel.
Arguments Ok {S E A} a s.
Arguments Err {S E A} e s.
Arguments Panic {S E A}.
Arguments Block {S E A}.
Arguments NoFuel {S E A}.

Definition ST (S E A : Type) : Type := S -> outcome S E A.

Definition ret {S E A} (a : A) : ST S E A := fun s => Ok a s.
Definition fail {S E A} (e : E) : ST S E A := fun s => Err e s.
Definition panic {S E A} : ST S E A := fun _ => Panic.
Definition block {S E A} : ST S E A := fun _ => Block.
Definition no_fuel {S E A} : ST S E A := fun _ => NoFuel.
Definition get_state {S E} : ST S E S := fun s => Ok s s.
Definition put_state {S E} (s : S) : ST S E unit := fun _ => Ok tt s.
Definition modify {S E} (f : S -> S) : ST S E unit := fun s => Ok tt (f s).

(** [bind] is the [?] operator: an [Err] leaves the function. *)
Definition bind {S E A B} (m : ST S E A) (k : A -> ST S E B) : ST S E B :=
  fun s =>
    match m s with
    | Ok a s' => k a s'
    | Err e s' => Err e s'
    | Panic => Panic
    | Block => Block
    | NoFuel => NoFuel
    end.

Notation "'let!' x ':=' m 'in' k" := (bind m (fun x => k))
  (at level 10, x pattern, m at level 100, k at level 200) : touche_scope.
Notation "m ;;; k" := (bind m (fun _ => k))
  (at level 199, right associativity) : touche_scope.

(** [m.map_err(f)], and the conversion that [?] inserts with [From]. *)
Definition map_err {S E F A} (f : E -> F) (m : ST S E A) : ST S F A :=
  fun s =>
    match m s with
    | Ok a s' => Ok a s'
    | Err e s' => Err (f e) s'
    | Panic => Panic
    | Block => Block
    | NoFuel => NoFuel
    end.

(** The [Result] of a computation as a value, for code that matches on it. *)
Definition attempt {S E F A} (m : ST S E A) : ST S F (A + E) :=
  fun s =>
    match m s with
    | Ok a s' => Ok (inl a) s'
    | Err e s' => Ok (inr e) s'
    | Panic => Panic
    | Block => Block
    | NoFuel => NoFuel
    end.

(** [m.ok()]: an error becomes [None]. *)
Definition result_ok {S E F A} (m : ST S E A) : ST S F (option A) :=
  let! r := attempt m in
  ret (match r with inl a => Some a | inr _ => None end).

(** Run [m]; when [m] leaves with an error, run the destructors [d] of the
    values that are still alive first, as leaving a Rust scope does. *)
Definition cleanup {S E A} (d : ST S E unit) (m : ST S E A) : ST S E A :=
  fun s =>
    match m s with
    | Err e s' => bind d (fun _ => fail e) s'
    | o => o
    end.

(** Work on one component of the state. *)
Definition zoom_l {S T E A} (m : ST S E A) : ST (S * T) E A :=
  fun st =>
    match m st.1 with
    | Ok a s' => Ok a (s', st.2)
    | Err e s' => Err e (s', st.2)
    | Panic => Panic
    | Block => Block
    | NoFuel => NoFuel
    end.

Definition zoom_r {S T E A} (m : ST T E A) : ST (S * T) E A :=
  fun st =>
    match m st.2 with
    | Ok a t' => Ok a (st.1, t')
    | Err e t' => Err e (st.1, t')
    | Panic => Panic
    | Block => Block
    | NoFuel => NoFuel
    end.

Definition zoom {S T E A} (get : S -> T) (put : T -> S -> S) (m : ST T E A) : ST S E A :=
  fun s =>
    match m (get s) with
    | Ok a t => Ok a (put t s)
    | Err e t => Err e (put t s)
    | Panic => Panic
    | Block => Block
    | NoFuel => NoFuel
    end.

(** Call a method with [&mut r] on an owned local [r]: the caller gets the
    updated value back. When the call fails with [?] the local is dropped. *)
Class Drop (W R : Type) := drop_value : forall {E}, R -> ST W E unit.
Arguments drop_value {W R _ E} r.
#[export] Hint Mode Drop ! ! : typeclass_instances.

Definition borrow {W R E A} `{Drop W R} (m : ST (R * W) E A) (r : R)
  : ST W E (A * R) :=
  fun w =>
    match m (r, w) with
    | Ok a (r', w') => Ok (a, r') w'
    | Err e (r', w') => bind (drop_value r') (fun _ => fail e) w'
    | Panic => Panic
    | Block => Block
    | NoFuel => NoFuel
    end.

(** ** Total-correctness predicate transformer

    [wp m Q R s]: from [s] the computation [m] ends, without a panic, a
    deadlock or missing fuel, either in [Ok] with [Q] or in [Err] with [R]. *)
Definition wp {S E A} (m : ST S E A) (Q : A -> S -> Prop) (R : E -> S -> Prop)
  (s : S) : Prop :=
  match m s with
  | Ok a s' => Q a s'
  | Err e s' => R e s'
  | _ => False
  end.

(** The error postcondition of a computation that does not fail. *)
Definition never {S E : Type} : E -> S -> Prop := fun _ _ => False.

Section wp_rules.
Context {S E A : Type}.
Implicit Types (Q : A -> S -> Prop) (R : E -> S -> Prop) (s : S).

Lemma wp_ret a Q R s : Q a s -> wp (ret a) Q R s.
Proof. done. Qed.

Lemma wp_fail e Q R s : R e s -> wp (fail e) Q R s.
Proof. done. Qed.

Lemma wp_bind {B} (m : ST S E B) (k : B -> ST S E A) Q R s :
  wp m (fun b => wp (k b) Q R) R s -> wp (bind m k) Q R s.
Proof. unfold wp, bind. by destruct (m s). Qed.

Lemma wp_bind_inv {B} (m : ST S E B) (k : B -> ST S E A) Q R s :
  wp (bind m k) Q R s -> wp m (fun b => wp (k b) Q R) R s.
Proof. unfold wp, bind. by destruct (m s). Qed.

Lemma wp_mono (m : ST S E A) Q Q' R R' s :
  wp m Q R s ->
  (forall a s', Q a s' -> Q' a s') ->
  (forall e s', R e s' -> R' e s') ->
  wp m Q' R' s.
Proof. unfold wp. destruct (m s); naive_solver. Qed.

(** What two specifications say of a computation that does not fail *)
Lemma wp_both (m : ST S E A) Q Q' s :
  wp m Q never s -> wp m Q' never s -> wp m (fun a s' => Q a s' /\ Q' a s') never s.
Proof. unfold wp. by destruct (m s). Qed.

Lemma wp_never_mono (m : ST S E A) Q Q' R s :
  wp m Q never s -> (forall a s', Q a s' -> Q' a s') -> wp m Q' R s.
Proof. unfold wp, never. destruct (m s); naive_solver. Qed.

Lemma wp_map_err {F} (f : F -> E) (m : ST S F A) Q R s :
  wp m Q (fun e => R (f e)) s -> wp (map_err f m) Q R s.
Proof. unfold wp, map_err. by destruct (m s). Qed.

Lemma wp_cleanup (d : ST S E unit) (m : ST S E A) Q R s :
  wp m Q (fun e => wp d (fun _ => R e) R) s -> wp (cleanup d m) Q R s.
Proof.
  unfold wp, cleanup, bind, fail.
  destruct (m s) as [|e s'| | |]; try done. by destruct (d s').
Qed.

Lemma wp_ok_inv (m : ST S E A) Q s :
  wp m Q never s -> exists a s', m s = Ok a s' /\ Q a s'.
Proof. unfold wp, never. destruct (m s); naive_solver. Qed.

Lemma wp_ok_intro (m : ST S E A) Q R s a s' :
  m s = Ok a s' -> Q a s' -> wp m Q R s.
Proof. unfold wp. by intros ->. Qed.

Lemma wp_err_intro (m : ST S E A) Q R s e s' :
  m s = Err e s' -> R e s' -> wp m Q R s.
Proof. unfold wp. by intros ->. Qed.
End wp_rules.

Lemma bind_Ok {S E A B} (m : ST S E A) (k : A -> ST S E B) s a s' :
  m s = Ok a s' -> bind m k s = k a s'.
Proof. unfold bind. by intros ->. Qed.

Lemma bind_Panic {S E A B} (m : ST S E A) (k : A -> ST S E B) s :
  m s = Panic -> bind m k s = Panic.
Proof. unfold bind. by intros ->. Qed.

Lemma wp_attempt {S E F A} (m : ST S E A) (Q : A + E -> S -> Prop)
    (R : F -> S -> Prop) s :
  wp m (fun a => Q (inl a)) (fun e => Q (inr e)) s -> wp (attempt m) Q R s.
Proof. unfold wp, attempt. by destruct (m s). Qed.

Lemma wp_result_ok {S E F A} (m : ST S E A) (Q : option A -> S -> Prop)
    (R : F -> S -> Prop) s :
  wp m (fun a => Q (Some a)) (fun _ => Q None) s -> wp (result_ok m) Q R s.
Proof. intros H. by apply wp_bind, wp_attempt. Qed.

Lemma wp_borrow {W R E A} `{Drop W R} (m : ST (R * W) E A) (r : R)
    (Q : A * R -> W -> Prop) (X : E -> W -> Prop) w :
  wp m (fun a s => Q (a, s.1) s.2)
       (fun e s => wp (drop_value s.1) (fun _ => X e) X s.2) (r, w) ->
  wp (borrow m r) Q X w.
Proof.
  unfold wp, borrow, bind, fail.
  destruct (m (r, w)) as [a [r' w']|e [r' w']| | |]; try done; simpl.
  by destruct (drop_value r' w').
Qed.

Lemma wp_zoom_l {S T E A} (m : ST S E A) (Q : A -> S * T -> Prop)
    (R : E -> S * T -> Prop) s t :
  wp m (fun a s' => Q a (s', t)) (fun e s' => R e (s', t)) s ->
  wp (zoom_l m) Q R (s, t).
Proof. unfold wp, zoom_l. simpl. by destruct (m s). Qed.

Lemma wp_zoom_r {S T E A} (m : ST T E A) (Q : A -> S * T -> Prop)
    (R : E -> S * T -> Prop) s t :
  wp m (fun a t' => Q a (s, t')) (fun e t' => R e (s, t')) t ->
  wp (zoom_r m) Q R (s, t).
Proof. unfold wp, zoom_r. simpl. by destruct (m t). Qed.

Lemma wp_zoom {S T E A} (get : S -> T) (put : T -> S -> S) (m : ST T E A)
    (Q : A -> S -> Prop) (R : E -> S -> Prop) s :
  wp m (fun a t => Q a (put t s)) (fun e t => R e (put t s)) (get s) ->
  wp (zoom get put m) Q R s.
Proof. unfold wp, zoom. by destruct (m (get s)). Qed.

Lemma wp_get_state {S E} (Q : S -> S -> Prop) (R : E -> S -> Prop) s :
  Q s s -> wp get_state Q R s.
Proof. done. Qed.

Lemma wp_put_state {S E} (s' : S) (Q : unit -> S -> Prop) (R : E -> S -> Prop) s :
  Q tt s' -> wp (put_state s') Q R s.
Proof. done. Qed.

Lemma wp_modify {S E} (f : S -> S) (Q : unit -> S -> Prop) (R : E -> S -> Prop) s :
  Q tt (f s) -> wp (modify f) Q R s.
Proof. done. Qed.

Arguments wp {S E A} m Q R s : simpl never.
Arguments ret {S E A} a _ : simpl never.
Arguments fail {S E A} e _ : simpl never.
Arguments bind {S E A B} m k _ : simpl never.
Arguments attempt {S E F A} m _ : simpl never.
Arguments map_err {S E F A} f m _ : simpl never.
Arguments cleanup {S E A} d m _ : simpl never.
Arguments borrow {W R E A _} m r _ : simpl never.
Arguments zoom_l {S T E A} m _ : simpl never.
Arguments zoom_r {S T E A} m _ : simpl never.
Arguments zoom {S T E A} get put m _ : simpl never.

Create HintDb wp discriminated.
#[export] Hint Resolve wp_ret wp_fail : wp.

(** Take a computation apart: one rule for the combinator at its head. *)
Ltac wp_step :=
  lazymatch goal with
  | |- wp (bind _ _) _ _ _ => apply wp_bind
  | |- wp (ret _) _ _ _ => apply wp_ret
  | |- wp (fail _) _ _ _ => apply wp_fail
  | |- wp get_state _ _ _ => apply wp_get_state
  | |- wp (put_state _) _ _ _ => apply wp_put_state
  | |- wp (modify _) _ _ _ => apply wp_modify
  | |- wp (map_err _ _) _ _ _ => apply wp_map_err
  | |- wp (cleanup _ _) _ _ _ => apply wp_cleanup
  | |- wp (attempt _) _ _ _ => apply wp_attempt
  | |- wp (result_ok _) _ _ _ => apply wp_result_ok
  | |- wp (borrow _ _) _ _ _ => apply wp_borrow
  | |- wp (zoom_l _) _ _ (_, _) => apply wp_zoom_l
  | |- wp (zoom_r _) _ _ (_, _) => apply wp_zoom_r
  | |- wp (zoom _ _ _) _ _ _ => apply wp_zoom
  end.
Ltac wp_steps := repeat wp_step.

(** ** Invariants of the state

    [m] keeps [I], whatever it returns. *)
Definition preserves {S E A} (I : S -> Prop) (m : ST S E A) : Prop :=
  forall s, I s -> match m s with Ok _ s' | Err _ s' => I s' | _ => True end.

Section preserves.
Context {S E : Type}.
Implicit Types (I : S -> Prop).

Lemma preserves_ret {A} I (a : A) : preserves I (ret (E := E) a).
Proof. by intros s. Qed.

Lemma preserves_fail {A} I (e : E) : preserves I (fail (A := A) e).
Proof. by intros s. Qed.

Lemma preserves_get_state I : preserves I (get_state (E := E)).
Proof. by intros s. Qed.

Lemma preserves_stuck {A} I :
  preserves I (no_fuel (E := E) (A := A)) /\ preserves I (panic (E := E) (A := A)).
Proof. by split. Qed.

Lemma preserves_bind {A B} I (m : ST S E A) (k : A -> ST S E B) :
  preserves I m -> (forall a, preserves I (k a)) -> preserves I (bind m k).
Proof.
  intros Hm Hk s Hs. specialize (Hm s Hs). unfold bind.
  destruct (m s) as [a s'|e s'| | |]; try done. by apply Hk.
Qed.

Lemma preserves_attempt {F A} I (m : ST S E A) :
  preserves I m -> preserves I (attempt (F := F) m).
Proof. intros Hm s Hs. specialize (Hm s Hs). unfold attempt. by destruct (m s). Qed.

Lemma preserves_map_err {F A} I (f : E -> F) (m : ST S E A) :
  preserves I m -> preserves I (map_err f m).
Proof. intros Hm s Hs. specialize (Hm s Hs). unfold map_err. by destruct (m s). Qed.

Lemma preserves_cleanup {A} I (d : ST S E unit) (m : ST S E A) :
  preserves I d -> preserves I m -> preserves I (cleanup d m).
Proof.
  intros Hd Hm s Hs. specialize (Hm s Hs). unfold cleanup.
  destruct (m s) as [a s'|e s'| | |]; try done. specialize (Hd s' Hm).
  unfold bind, fail. by destruct (d s').
Qed.

Lemma preserves_zoom_r {T A} (I : T -> Prop) (m : ST S E A) :
  preserves (fun st : T * S => I st.1) (zoom_r m).
Proof. intros [t s] Hs. unfold zoom_r. cbn in *. by destruct (m s). Qed.

Lemma wp_preserves {A} I (m : ST S E A) Q R s :
  preserves I m -> I s -> wp m Q R s ->
  wp m (fun a s' => I s' /\ Q a s') (fun e s' => I s' /\ R e s') s.
Proof. intros Hm Hs. specialize (Hm s Hs). unfold wp. by destruct (m s). Qed.
End preserves.

Create HintDb preserves discriminated.
#[export] Hint Resolve preserves_ret preserves_fail preserves_get_state preserves_attempt
  preserves_map_err preserves_cleanup preserves_zoom_r : preserves.
#[export] Hint Extern 1 (preserves _ (bind _ _)) => apply preserves_bind; [|intros] : preserves.
#[export] Hint Extern 1 (preserves _ no_fuel) => by apply preserves_stuck : preserves.

(** ** Bytes *)
Abbreviation bytes := (list byte).

#[export] Instance byte_eq_dec : EqDecision byte := Byte.byte_eq_dec.

#[export, refine] Instance byte_countable : Countable byte :=
  inj_countable Byte.to_N Byte.of_N _.
Proof. intros x. apply Byte.of_to_N. Defined.

Definition b (s : string) : bytes := String.list_byte_of_string s.
Definition CR : byte := x0d.
Definition LF : byte := x0a.
Definition CRLF : bytes := [CR; LF].

(** ** Numerals

    [digits base n] is the numeral of [n] without leading zeros: [{}] with base
    10 and [{:x}] with base 16 of Rust's [format!]. *)
Definition digit_byte (d : N) : byte :=
  default x30 (Byte.of_N (if (d <? 10)%N then 48 + d else 87 + d)%N).

Definition digit_value (c : byte) : option N :=
  let n := Byte.to_N c in
  if ((48 <=? n) && (n <=? 57))%N then Some (n - 48)%N
  else if ((97 <=? n) && (n <=? 102))%N then Some (n - 87)%N
  else if ((65 <=? n) && (n <=? 70))%N then Some (n - 55)%N
  else None.

Fixpoint digits_aux (base : N) (fuel : nat) (n : N) (acc : bytes) : bytes :=
  match fuel with
  | O => acc
  | S fuel =>
      let acc := digit_byte (n mod base) :: acc in
      if (n / base =? 0)%N then acc else digits_aux base fuel (n / base) acc
  end.

Definition digits (base n : N) : bytes :=
  digits_aux base (S (N.to_nat (N.size n))) n [].

Definition hex (n : N) : bytes := digits 16 n.
Definition dec (n : N) : bytes := digits 10 n.

(** The value of a numeral, most significant digit first. *)
Fixpoint read_digits (base : N) (l : bytes) (acc : N) : option N :=
  match l with
  | [] => Some acc
  | c :: l =>
      match digit_value c with
      | Some d => if (d <? base)%N then read_digits base l (acc * base + d)%N else None
      | None => None
      end
  end.

Lemma digit_byte_cases (P : N -> byte -> Prop) :
  P 0%N x30 -> P 1%N x31 -> P 2%N x32 -> P 3%N x33 -> P 4%N x34 -> P 5%N x35 ->
  P 6%N x36 -> P 7%N x37 -> P 8%N x38 -> P 9%N x39 -> P 10%N x61 -> P 11%N x62 ->
  P 12%N x63 -> P 13%N x64 -> P 14%N x65 -> P 15%N x66 ->
  forall d, (d < 16)%N -> P d (digit_byte d).
Proof.
  intros ???????????????? d Hd.
  assert (Hin : d ∈ [0; 1; 2; 3; 4; 5; 6; 7; 8; 9; 10; 11; 12; 13; 14; 15]%N).
  { apply list_elem_of_In. simpl. lia. }
  apply list_elem_of_In in Hin. simpl in Hin.
  repeat destruct Hin as [<-|Hin]; try assumption. done.
Qed.

Lemma digit_value_byte d : (d < 16)%N -> digit_value (digit_byte d) = Some d.
Proof.
  apply (digit_byte_cases (fun d c => digit_value c = Some d)); reflexivity.
Qed.


Lemma read_digits_aux base fuel n acc :
  (1 < base <= 16)%N -> (n < 2 ^ N.of_nat fuel)%N ->
  read_digits base (digits_aux base fuel n acc) 0 =
  (if decide (fuel = 0) then read_digits base acc 0 else read_digits base acc n).
Proof.
  intros Hb. revert n acc.
  induction fuel as [|fuel IH]; intros n acc Hn; [done|].
  assert (Hm : (n mod base < base)%N) by (apply N.mod_lt; lia).
  assert (Hstep : forall v, read_digits base (digit_byte (n mod base) :: acc) v =
                  read_digits base acc (v * base + n mod base)%N).
  { intros v. simpl. rewrite digit_value_byte by lia.
    by destruct (N.ltb_spec (n mod base) base); [|lia]. }
  pose proof (N.div_mod n base ltac:(lia)) as Hdm.
  cbn [digits_aux]. cbv zeta. rewrite decide_False by done.
  destruct (N.eqb_spec (n / base) 0) as [H0|H0].
  - rewrite Hstep. f_equal. nia.
  - assert (Hlt : (n / base < 2 ^ N.of_nat fuel)%N).
    { rewrite Nat2N.inj_succ, N.pow_succ_r' in Hn.
      apply N.Div0.div_lt_upper_bound. eapply N.lt_le_trans; [exact Hn|].
      apply N.mul_le_mono_r. lia. }
    rewrite IH by done. destruct fuel as [|fuel]; [by apply N.lt_1_r in Hlt|].
    rewrite decide_False by done. rewrite Hstep. f_equal. nia.
Qed.

(** Reading a numeral back gives the number that was printed. *)
Lemma read_digits_digits base n :
  (1 < base <= 16)%N -> read_digits base (digits base n) 0 = Some n.
Proof.
  intros Hb. unfold digits. rewrite read_digits_aux; [done|done|].
  rewrite Nat2N.inj_succ, N2Nat.id, N.pow_succ_r'. pose proof (N.size_gt n). lia.
Qed.

(** A property of the sixteen digit characters holds of a whole numeral. *)
Lemma digits_Forall (P : byte -> Prop) base n :
  (1 < base <= 16)%N -> (forall d, (d < 16)%N -> P (digit_byte d)) ->
  Forall P (digits base n).
Proof.
  intros Hb HP. unfold digits.
  generalize (S (N.to_nat (N.size n))) as fuel. intros fuel.
  assert (Forall P []) as Hacc by constructor. revert Hacc n.
  generalize (@nil byte) as acc. induction fuel as [|fuel IH]; intros acc Hacc n; [done|].
  simpl. assert (Forall P (digit_byte (n mod base) :: acc)).
  { constructor; [|done]. apply HP.
    assert (n mod base < base)%N by (apply N.mod_lt; lia). lia. }
  destruct (n / base =? 0)%N; auto.
Qed.

Lemma digits_aux_not_nil base fuel n acc :
  acc <> [] -> digits_aux base fuel n acc <> [].
Proof.
  revert n acc. induction fuel as [|fuel IH]; intros n acc Hacc; [done|].
  cbn [digits_aux]. cbv zeta.
  destruct (n / base =? 0)%N; [done|by apply IH].
Qed.

Lemma digits_not_nil base n : digits base n <> [].
Proof.
  unfold digits. cbn [digits_aux]. cbv zeta.
  destruct (n / base =? 0)%N; [done|by apply digits_aux_not_nil].
Qed.

(** A numeral has at most one digit more than its number has bits. *)
Lemma length_digits base n : length (digits base n) <= S (N.to_nat (N.size n)).
Proof.
  unfold digits. generalize (S (N.to_nat (N.size n))) as fuel.
  assert (H : forall fuel n acc, length (digits_aux base fuel n acc) <= fuel + length acc).
  { induction fuel as [|fuel IH]; intros m acc; [done|]. cbn [digits_aux]. cbv zeta.
    destruct (m / base =? 0)%N; [simpl; lia|]. etrans; [apply IH|]. simpl. lia. }
  intros fuel. specialize (H fuel n []). simpl in H. lia.
Qed.

(** ** Lists *)

(** [memchr(c, l)]: the index of the first [c]. *)
Fixpoint memchr (c : byte) (l : bytes) : option nat :=
  match l with
  | [] => None
  | x :: l => if bool_decide (x = c) then Some 0 else S <$> memchr c l
  end.

Lemma memchr_None c l : memchr c l = None <-> c ∉ l.
Proof.
  induction l as [|x l IH]; simpl; [set_solver|].
  case_bool_decide as Hx; [set_solver|].
  rewrite fmap_None, IH. set_solver.
Qed.

Lemma memchr_Some c l i :
  memchr c l = Some i ->
  exists l1 l2, l = l1 ++ c :: l2 /\ c ∉ l1 /\ length l1 = i.
Proof.
  revert i. induction l as [|x l IH]; intros i; simpl; [done|].
  case_bool_decide as Hx; [subst|].
  - intros [= <-]. exists [], l. split_and!; [done|set_solver|done].
  - intros (j & Hj & ->)%fmap_Some. apply IH in Hj as (l1 & l2 & -> & ? & <-).
    exists (x :: l1), l2. split_and!; [done|set_solver|done].
Qed.

Lemma memchr_app c l1 l2 : c ∉ l1 -> memchr c (l1 ++ c :: l2) = Some (length l1).
Proof.
  induction l1 as [|x l1 IH]; intros Hc; simpl.
  - by rewrite bool_decide_true.
  - rewrite bool_decide_false by set_solver. rewrite IH by set_solver. done.
Qed.

(** The suffix test that slice patterns such as [[.., b'\n']] make. *)
Definition ends_with (suffix l : bytes) : bool :=
  bool_decide (suffix `suffix_of` l).

Lemma ends_with_spec suffix l :
  ends_with suffix l = true <-> exists p, l = p ++ suffix.
Proof. unfold ends_with. by rewrite bool_decide_eq_true. Qed.

(** [usize] and [u64] are both 64 bits wide on the targets considered, so the
    casts between them wrap at [2^64]. *)
Definition wrap64 (n : N) : N := (n mod 2 ^ 64)%N.

Lemma wrap64_id n : (n < 2 ^ 64)%N -> wrap64 n = n.
Proof. apply N.mod_small. Qed.

(** The number of iterations a Rust [loop] may make in the model; the theorems
    say how much is enough. *)
Class Fuel := fuel : nat.
Arguments fuel {Fuel} : simpl never.

(** [Vec::with_capacity(n)] and [vec![0; n]] panic when [n] exceeds
    [isize::MAX]. *)
Definition isize_max : N := (2 ^ 63 - 1)%N.
Definition alloc_vec {S E} (n : N) : ST S E unit :=
  if (n <=? isize_max)%N then ret tt else panic.

Lemma wp_alloc_vec {S E} n (Q : unit -> S -> Prop) (X : E -> S -> Prop) s :
  (n <= isize_max)%N -> Q tt s -> wp (alloc_vec n) Q X s.
Proof.
  intros Hn HQ. unfold alloc_vec, wp. by destruct (N.leb_spec n isize_max); [|lia].
Qed.
