(* ===== verification/Errors.v ===== *)
(** * Errors: [std::io::Error] and the parse errors of src/src/request.rs

    [io::Error::new(kind, err)] boxes an arbitrary error; the boxes the crate
    creates hold a message, a [ParseError] or an error of the application. *)
From stdpp Require Import base strings.
From S2P Require Import Prelude.

(** The [io::ErrorKind]s the crate or the standard library functions it calls
    distinguish; [OsError] stands for those that only come from the system. *)
Inductive ErrorKind :=
| Other
| UnexpectedEof
| Interrupted
| InvalidData
| WriteZero
| OsError (code : N).

(** Errors of the [httparse] crate, carried but never inspected. *)
Inductive HttparseError :=
| HpHeaderName | HpHeaderValue | HpNewLine | HpStatus | HpToken
| HpTooManyHeaders | HpVersion.

(** [enum ParseError], with the errors it can hold and that can hold it *)
Inductive ParseError :=
| ConnectionClosed
| Io (err : io_error)
| Invalid (err : HttparseError)
| IncompleteRequest
| UnsupportedHttpVersion (version : N)
| InvalidTransferEncoding
| InvalidHeader
| Unknown
with io_error :=
| IoError (kind : ErrorKind) (inner : boxed_error)
with boxed_error :=
| Simple
| Message (msg : string)
| BoxedParse (err : ParseError)
| BoxedIo (err : io_error)
| BoxedApp (msg : string).

Definition error_kind (e : io_error) : ErrorKind :=
  match e with IoError kind _ => kind end.

Definition is_interrupted (e : io_error) : bool :=
  match error_kind e with Interrupted => true | _ => false end.

(** [io::Error::new(io::ErrorKind::Other, msg)] *)
Definition io_other (msg : string) : io_error := IoError Other (Message msg).
