(* ===== verification/Utf8.v ===== *)
(** * Utf8: [str::from_utf8] and [str::chars] of the standard library

    The validation of UTF-8, the characters of a valid string as the bytes of each, and
    the message of [Utf8Error]. src/examples/routes.rs reverses a text with them. *)
From stdpp Require Import base list strings.
From Stdlib Require Import Strings.Byte NArith Lia.
From S2P Require Import Prelude.

(** ** Validation *)

Definition code (c : byte) : N := Byte.to_N c.
Definition in_range (lo hi : N) (c : byte) : bool := (lo <=? code c)%N && (code c <=? hi)%N.

(** A continuation byte: as an [i8] it is below -64. *)
Definition is_continuation : byte -> bool := in_range 128 191.

(** [utf8_char_width] *)
Definition utf8_char_width (first : byte) : N :=
  if in_range 0 127 first then 1 else
  if in_range 194 223 first then 2 else
  if in_range 224 239 first then 3 else
  if in_range 240 244 first then 4 else 0.

(** The second byte of a character of three or four bytes *)
Definition second_of_three (first second : byte) : bool :=
  (code first =? 224)%N && in_range 160 191 second ||
  in_range 225 236 first && in_range 128 191 second ||
  (code first =? 237)%N && in_range 128 159 second ||
  in_range 238 239 first && in_range 128 191 second.
Definition second_of_four (first second : byte) : bool :=
  (code first =? 240)%N && in_range 144 191 second ||
  in_range 241 243 first && in_range 128 191 second ||
  (code first =? 244)%N && in_range 128 143 second.

(** [Utf8Error]: the [error_len] is [None] when the text ends within a character. *)
Record Utf8Error := { valid_up_to : N; error_len : option N }.

(** The rest of a character after [first], or the [error_len]. *)
Definition utf8_next (first : byte) (bs : bytes) : (bytes * bytes) + option N :=
  match utf8_char_width first, bs with
  | 1%N, _ => inl ([], bs)
  | 2%N, [] => inr None
  | 2%N, c1 :: bs => if is_continuation c1 then inl ([c1], bs) else inr (Some 1%N)
  | 3%N, [] => inr None
  | 3%N, c1 :: bs =>
      if second_of_three first c1 then
        match bs with
        | [] => inr None
        | c2 :: bs => if is_continuation c2 then inl ([c1; c2], bs) else inr (Some 2%N)
        end
      else inr (Some 1%N)
  | 4%N, [] => inr None
  | 4%N, c1 :: bs =>
      if second_of_four first c1 then
        match bs with
        | [] => inr None
        | c2 :: bs =>
            if is_continuation c2 then
              match bs with
              | [] => inr None
              | c3 :: bs => if is_continuation c3 then inl ([c1; c2; c3], bs) else inr (Some 3%N)
              end
            else inr (Some 2%N)
        end
      else inr (Some 1%N)
  | _, _ => inr (Some 1%N)
  end.

(** [from_utf8] and [chars]: the characters, by their bytes. *)
Fixpoint utf8_loop (n : nat) (index : N) (bs : bytes) : list bytes + Utf8Error :=
  match n, bs with
  | S n, first :: bs =>
      match utf8_next first bs with
      | inr len => inr {| valid_up_to := index; error_len := len |}
      | inl (tail, rest) =>
          match utf8_loop n (index + N.of_nat (S (length tail))) rest with
          | inl chars => inl ((first :: tail) :: chars)
          | inr e => inr e
          end
      end
  | _, _ => inl []
  end.

Definition from_utf8 (bs : bytes) : list bytes + Utf8Error := utf8_loop (length bs) 0 bs.

(** [impl Display for Utf8Error] *)
Definition Utf8Error_display (e : Utf8Error) : bytes :=
  match error_len e with
  | Some len => b "invalid utf-8 sequence of " ++ dec len ++ b " bytes from index " ++ dec (valid_up_to e)
  | None => b "incomplete utf-8 byte sequence from index " ++ dec (valid_up_to e)
  end.

(** [chars().rev().collect::<String>()] *)
Definition reverse_chars (chars : list bytes) : bytes := concat (rev chars).

(** ** What it does *)

(** A character, whatever follows it *)
Lemma utf8_next_char first bs tail rest :
  utf8_next first bs = inl (tail, rest) ->
  bs = tail ++ rest /\ forall rest', utf8_next first (tail ++ rest') = inl (tail, rest').
Proof.
  unfold utf8_next. destruct (utf8_char_width first) as [|[[|[]|]|[|[]|]|]]; try done.
  all: repeat (match goal with
    | |- context [match ?l with _ => _ end] =>
        first [is_var l; destruct l|destruct l eqn:?]
    end; try done); intros [= <- <-]; split; try done; intros rest'; cbn;
    repeat match goal with H : _ = true |- _ => rewrite H; clear H end; done.
Qed.

Definition is_char (c : bytes) : Prop :=
  exists first tail, c = first :: tail /\
    forall rest, utf8_next first (tail ++ rest) = inl (tail, rest).

Lemma utf8_loop_inl n index bs chars :
  utf8_loop n index bs = inl chars -> length bs <= n -> concat chars = bs /\ Forall is_char chars.
Proof.
  revert index bs chars. induction n as [|n IH]; intros index [|first bs] chars; cbn [utf8_loop];
    try (by intros [= <-]); [by cbn; lia|].
  destruct (utf8_next first bs) as [[tail rest]|len] eqn:Hn; [|done].
  apply utf8_next_char in Hn as [-> Hn].
  destruct (utf8_loop n _ rest) as [chars'|e] eqn:Hl; [|done]. intros [= <-] Hlen.
  cbn [length] in Hlen. rewrite length_app in Hlen.
  destruct (IH _ _ _ Hl ltac:(lia)) as [<- Hall]. split; [done|].
  constructor; [|done]. by exists first, tail.
Qed.

Lemma utf8_loop_chars n index chars :
  Forall is_char chars -> length (concat chars) <= n -> utf8_loop n index (concat chars) = inl chars.
Proof.
  intros Hall. revert n index. induction Hall as [|c chars (first & tail & -> & Hn) _ IH];
    intros [|n] index; try done; [cbn; lia|].
  cbn [concat app length]. rewrite length_app. intros Hlen. cbn [utf8_loop].
  rewrite Hn, IH by lia. done.
Qed.

Lemma utf8_loop_inr n index bs e :
  utf8_loop n index bs = inr e ->
  (valid_up_to e <= index + N.of_nat (length bs))%N /\
  match error_len e with Some len => (1 <= len <= 3)%N | None => True end.
Proof.
  revert index bs. induction n as [|n IH]; intros index [|first bs]; cbn [utf8_loop]; try done.
  destruct (utf8_next first bs) as [[tail rest]|len] eqn:Hn.
  - apply utf8_next_char in Hn as [-> _].
    destruct (utf8_loop n _ rest) as [chars'|e'] eqn:Hl; [done|]. intros [= <-].
    destruct (IH _ _ Hl) as [Hv Hlen]. split; [|done]. cbn [length]. rewrite length_app. lia.
  - intros [= <-]. cbn [valid_up_to error_len]. split; [lia|].
    destruct len as [len|]; [|done]. revert Hn. unfold utf8_next.
    destruct (utf8_char_width first) as [|[[|[]|]|[|[]|]|]];
      repeat match goal with
      | |- context [match ?l with _ => _ end] => destruct l
      end; intros Hn; try discriminate Hn; injection Hn as <-; lia.
Qed.

(** The message of an error is short. *)
Lemma Utf8Error_display_length n bs e :
  utf8_loop n 0 bs = inr e -> (N.of_nat (length bs) < 2 ^ 63)%N ->
  length (Utf8Error_display e) <= 120.
Proof.
  intros [Hv Hlen]%utf8_loop_inr Hb. unfold Utf8Error_display.
  assert (Hdec : forall m, (m < 2 ^ 63)%N -> length (dec m) <= 64).
  { intros m Hm. etrans; [apply length_digits|]. assert (N.size m <= 63)%N; [|lia].
    destruct (decide (m = 0%N)) as [->|Hm0]; [done|]. rewrite N.size_log2 by done.
    apply N.log2_lt_pow2 in Hm; lia. }
  pose proof (Hdec (valid_up_to e) ltac:(lia)).
  destruct (error_len e) as [len|]; rewrite !length_app.
  - assert (length (dec len) <= 3).
    { etrans; [apply length_digits|]. assert (N.size len <= 2)%N; [|lia].
      by assert (len = 1 \/ len = 2 \/ len = 3)%N as [->|[->| ->]] by lia. }
    change (length (b "invalid utf-8 sequence of ")) with 26.
    change (length (b " bytes from index ")) with 18. lia.
  - change (length (b "incomplete utf-8 byte sequence from index ")) with 42. lia.
Qed.

Lemma reverse_chars_length chars : length (reverse_chars chars) = length (concat chars).
Proof.
  unfold reverse_chars. induction chars as [|c chars IH]; [done|]. cbn [rev concat].
  rewrite concat_app, !length_app, IH. cbn. rewrite app_nil_r. lia.
Qed.

(** ** Properties *)

(** The characters of a text are all of it, and reversing them gives valid UTF-8 with
    the same characters in the opposite order: reversing a text twice gives it back. *)
Theorem reverse_chars_twice bs chars :
  from_utf8 bs = inl chars ->
  concat chars = bs /\ from_utf8 (reverse_chars chars) = inl (rev chars) /\
  reverse_chars (rev chars) = bs.
Proof.
  intros Hu. destruct (utf8_loop_inl _ _ _ _ Hu ltac:(done)) as [Hc Hall].
  split; [done|]. split.
  - apply utf8_loop_chars; [|done]. by apply Forall_rev.
  - unfold reverse_chars. by rewrite rev_involutive.
Qed.
