(* ===== verification/StdIo.v ===== *)
(** * StdIo: the parts of [std::io] the crate is written against

    The traits [Read], [BufRead] and [Write] are type classes; their provided
    methods and the adapters of the standard library that the crate calls
    ([read_until], [read_exact], [read_to_end], [io::copy], [Take], [Cursor],
    [BufReader], [BufWriter]) are defined from them as the standard library
    documents them. The classes ending in [Laws] state what an implementation
    promises to its clients. *)
From stdpp Require Import base list gmap strings.
From Stdlib Require Import Strings.Byte NArith Lia.
From S2P Require Import Prelude Errors.

(** ** Worlds

    A value that a Rust function owns is passed by value. What several owners
    reach (the socket behind two clones of a connection, a channel) is the world
    [W]. [rstep] relates worlds between which only input was consumed, [wstep]
    worlds between which only output was produced. *)
Class World (W : Type) := {
  rstep : W -> W -> Prop;
  wstep : W -> W -> Prop;
  rstep_preorder :: PreOrder rstep;
  wstep_preorder :: PreOrder wstep;
}.
#[export] Hint Mode World ! : typeclass_instances.

(** Any sequence of such steps. *)
Definition iostep `{World W} : relation W := rtc (fun w w' => rstep w w' \/ wstep w w').

#[export] Instance iostep_preorder `{World W} : PreOrder (iostep (W := W)).
Proof. apply _. Qed.

Lemma rstep_io `{World W} (w w' : W) : rstep w w' -> iostep w w'.
Proof. intros Hw. apply rtc_once. by left. Qed.
Lemma wstep_io `{World W} (w w' : W) : wstep w w' -> iostep w w'.
Proof. intros Hw. apply rtc_once. by right. Qed.
#[export] Hint Resolve rstep_io wstep_io : core.

(** The same world for code whose reading changes no more than [rs]. *)
#[refine] Definition reading_world {W} `{!World W} (rs : relation W) `{!PreOrder rs} : World W :=
  {| rstep := rs; wstep := wstep |}.
Proof. all: apply _. Defined.

#[export] Instance unit_world : World unit.
Proof.
  refine {| rstep := fun _ _ => True; wstep := fun _ _ => True |};
    abstract (split; repeat intro; exact I).
Defined.

(** Reaching a reader while a writer is part of the state. *)
Definition zoom_rw {R S W E A} (m : ST (R * W) E A) : ST (R * (S * W)) E A :=
  fun st =>
    match m (st.1, st.2.2) with
    | Ok a (r, w) => Ok a (r, (st.2.1, w))
    | Err e (r, w) => Err e (r, (st.2.1, w))
    | Panic => Panic
    | Block => Block
    | NoFuel => NoFuel
    end.

Lemma wp_zoom_rw {R S W E A} (m : ST (R * W) E A) (Q : A -> R * (S * W) -> Prop)
    (X : E -> R * (S * W) -> Prop) r s w :
  wp m (fun a st => Q a (st.1, (s, st.2))) (fun e st => X e (st.1, (s, st.2))) (r, w) ->
  wp (zoom_rw m) Q X (r, (s, w)).
Proof.
  unfold wp, zoom_rw. simpl. by destruct (m (r, w)) as [a [??]|e [??]| | |].
Qed.

(** ** Readers

    [read n] is [Read::read] with a buffer of [n] bytes: it returns the bytes
    that were put into the buffer, none at the end of the stream. *)
Class Read (W R : Type) := read : nat -> ST (R * W) io_error bytes.
#[export] Hint Mode Read ! ! : typeclass_instances.

Class BufRead (W R : Type) := {
  bufread_read :: Read W R;
  fill_buf : ST (R * W) io_error bytes;
  consume : nat -> ST (R * W) io_error unit;
}.
#[export] Hint Mode BufRead ! ! : typeclass_instances.

Section provided.
Context {W R : Type}.

(** [BufRead::read_until]: the bytes appended to the caller's buffer, so the
    returned count is their length. *)
Fixpoint read_until_loop `{BufRead W R} (fuel : nat) (delim : byte) (acc : bytes)
  : ST (R * W) io_error bytes :=
  match fuel with
  | O => no_fuel
  | S fuel =>
      let! r := attempt fill_buf in
      match r with
      | inr e =>
          if is_interrupted e then read_until_loop fuel delim acc else fail e
      | inl available =>
          let '(done, used) := match memchr delim available with
                               | Some i => (true, S i)
                               | None => (false, length available)
                               end in
          consume used;;;
          if done || (used =? 0)
          then ret (acc ++ take used available)
          else read_until_loop fuel delim (acc ++ take used available)
      end
  end.

Definition read_until `{BufRead W R} (fuel : nat) (delim : byte)
  : ST (R * W) io_error bytes :=
  read_until_loop fuel delim [].

(** [Read::read_exact] with a buffer of [n] bytes. *)
Fixpoint read_exact_loop `{Read W R} (fuel n : nat) (acc : bytes)
  : ST (R * W) io_error bytes :=
  match n with
  | O => ret acc
  | _ =>
      match fuel with
      | O => no_fuel
      | S fuel =>
          let! r := attempt (read n) in
          match r with
          | inl [] => fail (IoError UnexpectedEof (Message "failed to fill whole buffer"))
          | inl got => read_exact_loop fuel (n - length got) (acc ++ got)
          | inr e => if is_interrupted e then read_exact_loop fuel n acc else fail e
          end
      end
  end.

Definition read_exact `{Read W R} (fuel n : nat) : ST (R * W) io_error bytes :=
  read_exact_loop fuel n [].

(** The size of the buffer [io::copy] and the readers of bodies work with. *)
Definition DEFAULT_BUF_SIZE : nat := 8 * 1024.

(** [Read::read_to_end]. The standard library grows the buffer as it likes; the
    bytes read do not depend on the size of the single reads. *)
Fixpoint read_to_end_loop `{Read W R} (fuel : nat) (acc : bytes)
  : ST (R * W) io_error bytes :=
  match fuel with
  | O => no_fuel
  | S fuel =>
      let! r := attempt (read DEFAULT_BUF_SIZE) in
      match r with
      | inl [] => ret acc
      | inl got => read_to_end_loop fuel (acc ++ got)
      | inr e => if is_interrupted e then read_to_end_loop fuel acc else fail e
      end
  end.

Definition read_to_end `{Read W R} (fuel : nat) : ST (R * W) io_error bytes :=
  read_to_end_loop fuel [].
End provided.

(** ** Writers

    [write_all bs] and [flush] are the methods of [Write] the crate calls. *)
Class Write (W S : Type) := {
  write_all : bytes -> ST (S * W) io_error unit;
  flush : ST (S * W) io_error unit;
}.
#[export] Hint Mode Write ! ! : typeclass_instances.

(** [io::copy(&mut reader, writer)]: the number of bytes copied. *)
Fixpoint io_copy {W R S} `{Read W R, Write W S} (fuel : nat) (copied : N)
  : ST (R * (S * W)) io_error N :=
  match fuel with
  | O => no_fuel
  | S fuel =>
      let! r := attempt (zoom_rw (read DEFAULT_BUF_SIZE)) in
      match r with
      | inl [] => ret copied
      | inl got =>
          zoom_r (write_all got);;;
          io_copy fuel (copied + N.of_nat (length got))
      | inr e => if is_interrupted e then io_copy fuel copied else fail e
      end
  end.

(** ** Adapters *)

(** [io::Cursor<Vec<u8>>] over the unread part of the vector. *)
Record Cursor := { cursor_rest : bytes }.
Definition Cursor_new (v : bytes) : Cursor := {| cursor_rest := v |}.

#[export] Instance Cursor_read {W} : Read W Cursor :=
  fun n st => Ok (take n (cursor_rest st.1))
                 ({| cursor_rest := drop n (cursor_rest st.1) |}, st.2).

#[export] Instance Cursor_bufread {W} : BufRead W Cursor := {|
  bufread_read := Cursor_read;
  fill_buf := fun st => Ok (cursor_rest st.1) st;
  consume n := fun st => Ok tt ({| cursor_rest := drop n (cursor_rest st.1) |}, st.2);
|}.

#[export] Instance Cursor_drop {W} : Drop W Cursor := fun E _ => ret tt.

(** [io::Take<R>], and the plain reader when [limit] is [None]: the two readers
    that [Body] boxes as [dyn Read]. *)
Record Take (R : Type) := { take_inner : R; take_limit : option N }.
Arguments take_inner {R} t.
Arguments take_limit {R} t.
Arguments Build_Take {R} take_inner take_limit.

#[export] Instance Take_read {W R} `{Read W R} : Read W (Take R) :=
  fun n st =>
    let '(t, w) := st in
    match take_limit t with
    | None =>
        match read n (take_inner t, w) with
        | Ok got (r, w) => Ok got ({| take_inner := r; take_limit := None |}, w)
        | Err e (r, w) => Err e ({| take_inner := r; take_limit := None |}, w)
        | Panic => Panic | Block => Block | NoFuel => NoFuel
        end
    | Some 0%N => Ok [] (t, w)
    | Some limit =>
        match read (N.to_nat (N.min (N.of_nat n) limit)) (take_inner t, w) with
        | Ok got (r, w) =>
            Ok got ({| take_inner := r;
                       take_limit := Some (limit - N.of_nat (length got))%N |}, w)
        | Err e (r, w) => Err e ({| take_inner := r; take_limit := Some limit |}, w)
        | Panic => Panic | Block => Block | NoFuel => NoFuel
        end
    end.

#[export] Instance Take_drop {W R} `{Drop W R} : Drop W (Take R) :=
  fun E t => drop_value (take_inner t).

(** ** The contracts of readers and writers

    [holds r w bs fin]: in world [w] the reader [r] is going to deliver [bs] and
    then the end of the stream ([fin = None]) or the error [e] ([fin = Some e]).
    How the bytes are split over the calls of [read] is left open, except that
    a non-empty buffer gets at least one byte while there are any. Nothing is
    promised for an empty buffer.

    [passed w bs fin]: a reader was dropped while [bs] was unread. For the
    handles of the read queue it says that the next handle will deliver [bs];
    readers that own their stream promise nothing. *)
Class ReadLaws (W R : Type) {HW : World W} {HR : Read W R} {HD : Drop W R} := {
  holds : R -> W -> bytes -> option io_error -> Prop;
  alive : R -> W -> Prop;
  holds_alive (r : R) (w : W) bs fin : holds r w bs fin -> alive r w;
  alive_wstep (r : R) (w w' : W) : alive r w -> wstep w w' -> alive r w';
  drop_alive E (r : R) (w : W) :
    alive r w -> wp (drop_value (E := E) r) (fun _ w' => rstep w w') never w;
  passed : W -> bytes -> option io_error -> Prop;
  passed_wstep (w w' : W) bs fin : passed w bs fin -> wstep w w' -> passed w' bs fin;
  drop_holds E (r : R) (w : W) bs fin :
    holds r w bs fin ->
    wp (drop_value (E := E) r) (fun _ w' => rstep w w' /\ passed w' bs fin) never w;
  holds_wstep (r : R) (w w' : W) bs fin : holds r w bs fin -> wstep w w' -> holds r w' bs fin;
  fin_not_interrupted (r : R) (w : W) bs e :
    holds r w bs (Some e) -> is_interrupted e = false;
  read_holds (r : R) (w : W) bs fin n :
    n <> 0 -> holds r w bs fin ->
    wp (read n)
       (fun got '(r', w') =>
          rstep w w' /\ exists rest,
          bs = got ++ rest /\ length got <= n /\ holds r' w' rest fin /\
          (got = [] -> bs = [] /\ fin = None))
       (fun e '(r', w') => rstep w w' /\ bs = [] /\ fin = Some e /\ alive r' w')
       (r, w);
}.

#[export] Hint Mode ReadLaws ! ! - - - : typeclass_instances.
Arguments passed {W} R {HW HR HD ReadLaws} w bs fin.

Class BufReadLaws (W R : Type) {HW : World W} {HB : BufRead W R} {HD : Drop W R} := {
  bufread_read_laws :: ReadLaws W R;
  fill_buf_holds (r : R) (w : W) bs fin :
    holds r w bs fin ->
    wp fill_buf
       (fun avail '(r', w') =>
          rstep w w' /\ (exists rest, bs = avail ++ rest) /\
          (avail = [] -> bs = [] /\ fin = None) /\
          forall k, k <= length avail ->
            wp (consume k)
               (fun _ '(r'', w'') => rstep w' w'' /\ holds r'' w'' (drop k bs) fin)
               never (r', w'))
       (fun e '(r', w') => rstep w w' /\ bs = [] /\ fin = Some e /\ alive r' w')
       (r, w);
}.

#[export] Hint Mode BufReadLaws ! ! - - - : typeclass_instances.

(** [written s w]: everything handed to the writer; [sent s w]: the part of it
    that has left its buffers. A failed write accepts a prefix. A writer for which
    [can_fail] is [False] never fails. *)
Class WriteLaws (W S : Type) {HW : World W} {HS : Write W S} := {
  can_fail : Prop;
  written : S -> W -> bytes;
  sent : S -> W -> bytes;
  written_rstep (s : S) (w w' : W) : rstep w w' -> written s w' = written s w;
  sent_rstep (s : S) (w w' : W) : rstep w w' -> sent s w' = sent s w;
  write_all_spec (s : S) (w : W) bs :
    wp (write_all bs)
       (fun _ '(s', w') => wstep w w' /\ written s' w' = written s w ++ bs)
       (fun _ '(s', w') => can_fail /\ wstep w w' /\
          exists p, p `prefix_of` bs /\ written s' w' = written s w ++ p)
       (s, w);
  flush_spec (s : S) (w : W) :
    wp flush
       (fun _ '(s', w') => wstep w w' /\ written s' w' = written s w /\
                           sent s' w' = written s' w')
       (fun _ '(s', w') => can_fail /\ wstep w w' /\ written s' w' = written s w)
       (s, w);
}.
#[export] Hint Mode WriteLaws ! ! - - : typeclass_instances.
Arguments can_fail W S {HW HS WriteLaws}.

(** ** What the provided methods do on lawful readers *)

(** The first line of [bs], with its delimiter, and what follows it. *)
Definition line_of (delim : byte) (bs : bytes) : bytes :=
  match memchr delim bs with Some i => take (S i) bs | None => bs end.
Definition after_line (delim : byte) (bs : bytes) : bytes :=
  match memchr delim bs with Some i => drop (S i) bs | None => [] end.

Lemma line_after delim bs : line_of delim bs ++ after_line delim bs = bs.
Proof.
  unfold line_of, after_line. destruct (memchr delim bs).
  - apply take_drop.
  - apply app_nil_r.
Qed.

Lemma line_of_app delim l rest :
  delim ∉ l -> line_of delim (l ++ delim :: rest) = l ++ [delim].
Proof.
  intros Hl. unfold line_of. rewrite memchr_app by done.
  rewrite cons_middle, app_assoc, take_app_le by (rewrite length_app; simpl; lia).
  apply take_ge. rewrite length_app. simpl. lia.
Qed.

Lemma after_line_app delim l rest :
  delim ∉ l -> after_line delim (l ++ delim :: rest) = rest.
Proof.
  intros Hl. unfold after_line. rewrite memchr_app by done.
  rewrite cons_middle, app_assoc, drop_app_ge by (rewrite length_app; simpl; lia).
  rewrite length_app. simpl. replace (_ - _) with 0 by lia. done.
Qed.

Lemma line_of_skip delim l rest :
  delim ∉ l -> line_of delim (l ++ rest) = l ++ line_of delim rest /\
               after_line delim (l ++ rest) = after_line delim rest.
Proof.
  intros Hl. unfold line_of, after_line.
  assert (memchr delim (l ++ rest) = (fun i => length l + i) <$> memchr delim rest) as ->.
  { induction l as [|x l IH]; simpl.
    - by destruct (memchr delim rest).
    - rewrite bool_decide_false by set_solver. rewrite IH by set_solver.
      by destruct (memchr delim rest). }
  destruct (memchr delim rest) as [i|]; simpl; [|done].
  replace (S (length l + i)) with (length l + S i) by lia.
  by rewrite take_app_add, drop_app_add.
Qed.

(** Consequence of [read_holds] / [fill_buf_holds] with the continuation in
    place: the shape in which the loops use them. *)
Section reader_rules.
Context {W R : Type} `{!World W} `{!Read W R} `{!Drop W R} `{!ReadLaws W R}.
Implicit Types (r : R) (w : W).

(** A read with a non-empty buffer: progress, the end, or the error. *)
Lemma wp_read_attempt n r w bs fin (Q : bytes + io_error -> R * W -> Prop)
    (X : io_error -> R * W -> Prop) :
  n <> 0 -> holds r w bs fin ->
  (forall got rest r' w', bs = got ++ rest -> got <> [] -> length got <= n ->
     rstep w w' -> holds r' w' rest fin -> Q (inl got) (r', w')) ->
  (forall r' w', bs = [] -> fin = None -> rstep w w' -> holds r' w' [] None ->
     Q (inl []) (r', w')) ->
  (forall e r' w', bs = [] -> fin = Some e -> is_interrupted e = false ->
     rstep w w' -> alive r' w' -> Q (inr e) (r', w')) ->
  wp (attempt (read n)) Q X (r, w).
Proof.
  intros Hn Hr Hdata Heof Herr. apply wp_attempt.
  eapply wp_mono; [by apply (read_holds r w bs fin n)| |].
  - intros got [r' w'] (Hw & rest & -> & Hlen & Hr' & Hnil).
    destruct got as [|c got].
    + destruct (Hnil eq_refl) as [??]. simpl in *. subst. by apply Heof.
    + by apply (Hdata _ rest).
  - intros e [r' w'] (Hw & -> & -> & Hal). apply Herr; try done.
    by eapply fin_not_interrupted.
Qed.

Lemma read_exact_loop_spec fuel n acc r w bs fin :
  holds r w bs fin -> n <= fuel \/ length bs < fuel ->
  wp (read_exact_loop fuel n acc)
     (fun got '(r', w') => rstep w w' /\ n <= length bs /\
        got = acc ++ take n bs /\ holds r' w' (drop n bs) fin)
     (fun e '(r', w') => rstep w w' /\ alive r' w' /\ length bs < n /\
        e = default (IoError UnexpectedEof (Message "failed to fill whole buffer")) fin /\
        (fin = None -> holds r' w' [] None))
     (r, w).
Proof.
  revert n acc r w bs. induction fuel as [|fuel IH]; intros n acc r w bs Hr Hn.
  { assert (n = 0) as -> by lia. apply wp_ret. split_and!; [done|lia|by rewrite app_nil_r|done]. }
  destruct n as [|n]; [apply wp_ret; split_and!; [done|lia|by rewrite app_nil_r|done]|].
  cbn [read_exact_loop]. wp_step.
  eapply (wp_read_attempt (S n)); [done|exact Hr| | |].
  - intros got rest r' w' -> Hgot Hlen Hw Hr'.
    destruct got as [|c got]; [done|].
    eapply wp_mono; [apply (IH (S n - length (c :: got)) _ _ _ rest);
      [done|rewrite length_app in Hn; simpl in *; lia]| |].
    + intros got' [r'' w''] (? & ? & -> & ?).
      split_and!; [by etrans|rewrite length_app; simpl in *; lia| |].
      * rewrite <-app_assoc. f_equal. rewrite (take_app_ge (c :: got)) by done. done.
      * by rewrite drop_app_ge.
    + intros e [r'' w''] (? & ? & ? & -> & ?).
      split_and!; [by etrans|done|rewrite length_app; simpl in *; lia|done|done].
  - intros r' w' -> -> Hw Hr'. apply wp_fail.
    split_and!; [done|by eapply holds_alive|simpl; lia|done|done].
  - intros e r' w' -> -> Hint Hw ?. cbn. rewrite Hint. apply wp_fail.
    split_and!; [done|done|simpl; lia|done|done].
Qed.

(** [read_exact] either delivers exactly [n] bytes or fails, at the end of the stream
    after having read all of it. *)
Lemma read_exact_spec fuel n r w bs fin :
  holds r w bs fin -> n <= fuel \/ length bs < fuel ->
  wp (read_exact fuel n)
     (fun got '(r', w') => rstep w w' /\ n <= length bs /\
        got = take n bs /\ holds r' w' (drop n bs) fin)
     (fun e '(r', w') => rstep w w' /\ alive r' w' /\ length bs < n /\
        e = default (IoError UnexpectedEof (Message "failed to fill whole buffer")) fin /\
        (fin = None -> holds r' w' [] None))
     (r, w).
Proof. apply (read_exact_loop_spec fuel n []). Qed.

Lemma read_to_end_loop_spec fuel acc r w bs fin :
  holds r w bs fin -> length bs < fuel ->
  wp (read_to_end_loop fuel acc)
     (fun got '(r', w') => rstep w w' /\ fin = None /\ got = acc ++ bs /\
        holds r' w' [] None)
     (fun e '(r', w') => rstep w w' /\ alive r' w' /\ fin = Some e)
     (r, w).
Proof.
  revert acc r w bs. induction fuel as [|fuel IH]; intros acc r w bs Hr Hn; [lia|].
  cbn [read_to_end_loop]. wp_step.
  eapply (wp_read_attempt DEFAULT_BUF_SIZE); [done|exact Hr| | |].
  - intros got rest r' w' -> Hgot Hlen Hw Hr'. destruct got as [|c got]; [done|].
    rewrite length_app in Hn. simpl in Hn.
    eapply wp_mono; [apply (IH _ _ _ rest); [done|lia]| |].
    + intros got' [r'' w''] (? & ? & -> & ?).
      split_and!; [by etrans|done|by rewrite <-app_assoc|done].
    + intros e [r'' w''] (? & ? & ?). split_and!; [by etrans|done|done].
  - intros r' w' -> -> Hw Hr'. apply wp_ret.
    split_and!; [done|done|by rewrite app_nil_r|done].
  - intros e r' w' -> -> Hint Hw ?. cbn. rewrite Hint. by apply wp_fail.
Qed.

Lemma read_to_end_spec fuel r w bs fin :
  holds r w bs fin -> length bs < fuel ->
  wp (read_to_end fuel)
     (fun got '(r', w') => rstep w w' /\ fin = None /\ got = bs /\ holds r' w' [] None)
     (fun e '(r', w') => rstep w w' /\ alive r' w' /\ fin = Some e)
     (r, w).
Proof. apply (read_to_end_loop_spec fuel []). Qed.
End reader_rules.

Section bufreader_rules.
Context {W R : Type} `{!World W} `{!BufRead W R} `{!Drop W R} `{!BufReadLaws W R}.
Implicit Types (r : R) (w : W).

Lemma read_until_loop_spec fuel delim acc r w bs fin :
  holds r w bs fin -> length bs < fuel ->
  wp (read_until_loop fuel delim acc)
     (fun got '(r', w') => rstep w w' /\ got = acc ++ line_of delim bs /\
        holds r' w' (after_line delim bs) fin /\ (delim ∈ bs \/ fin = None))
     (fun e '(r', w') => rstep w w' /\ alive r' w' /\ delim ∉ bs /\ fin = Some e)
     (r, w).
Proof.
  revert acc r w bs. induction fuel as [|fuel IH]; intros acc r w bs Hr Hn; [lia|].
  cbn [read_until_loop]. wp_step. apply wp_attempt.
  eapply wp_mono; [by apply (fill_buf_holds r w bs fin)| |].
  2: { intros e [r' w'] (Hw & -> & -> & Hal). cbn.
       rewrite (fin_not_interrupted _ _ _ _ Hr). apply wp_fail. set_solver. }
  intros avail [r' w'] (Hw & [rest ->] & Hnil & Hcons). cbn.
  destruct (memchr delim avail) as [i|] eqn:Hmem.
  - apply memchr_Some in Hmem as (l1 & l2 & -> & Hl1 & <-).
    wp_step. eapply wp_never_mono.
    { apply Hcons. rewrite length_app. simpl. lia. }
    intros [] [r'' w''] [Hw' Hr']. cbn. apply wp_ret.
    rewrite <-app_assoc in *. cbn [app] in *.
    rewrite line_of_app, after_line_app by done.
    split_and!; [by etrans| | |set_solver].
    + f_equal. rewrite cons_middle, app_assoc, take_app_le by (rewrite length_app; simpl; lia).
      apply take_ge. rewrite length_app. simpl. lia.
    + rewrite cons_middle, app_assoc, drop_app_ge in Hr' by (rewrite length_app; simpl; lia).
      rewrite length_app in Hr'. simpl in Hr'.
      replace (_ - _) with 0 in Hr' by lia. done.
  - apply memchr_None in Hmem.
    wp_step. eapply wp_never_mono; [by apply Hcons|].
    intros [] [r'' w''] [Hw' Hr']. cbn.
    rewrite drop_app_length in Hr'. rewrite (take_ge avail) by lia.
    destruct (line_of_skip delim avail rest Hmem) as [-> ->].
    destruct avail as [|c avail].
    + destruct Hnil as [Hnil ->]; [done|]. simpl in *. subst rest. apply wp_ret.
      unfold line_of, after_line. simpl.
      split_and!; [by etrans|done|done|by right].
    + cbn [length Nat.eqb]. eapply wp_mono; [apply (IH _ _ _ rest); [done|]| |].
      { rewrite length_app in Hn. simpl in Hn. lia. }
      * intros got [r3 w3] (? & -> & ? & Hd).
        split_and!; [by etrans; [|etrans]|by rewrite app_assoc|done|set_solver].
      * intros e [r3 w3] (? & ? & ? & ?).
        split_and!; [by etrans; [|etrans]|done|set_solver|done].
Qed.

(** [read_until] returns the first line and leaves the rest. *)
Lemma read_until_spec fuel delim r w bs fin :
  holds r w bs fin -> length bs < fuel ->
  wp (read_until fuel delim)
     (fun got '(r', w') => rstep w w' /\ got = line_of delim bs /\
        holds r' w' (after_line delim bs) fin /\ (delim ∈ bs \/ fin = None))
     (fun e '(r', w') => rstep w w' /\ alive r' w' /\ delim ∉ bs /\ fin = Some e)
     (r, w).
Proof. apply (read_until_loop_spec fuel delim []). Qed.
End bufreader_rules.

Section copy_rules.
Context {W R S : Type} `{!World W} `{!Read W R} `{!Drop W R} `{!ReadLaws W R}
  `{!Write W S} `{!WriteLaws W S}.
Implicit Types (r : R) (s : S) (w : W).

(** [io::copy] moves everything the reader delivers to the writer. The error
    comes from the reader or from the writer, and then only a prefix was
    written. *)
Lemma io_copy_io_spec fuel copied r s w bs fin :
  holds r w bs fin -> length bs < fuel ->
  wp (io_copy fuel copied)
     (fun n '(r', (s', w')) => iostep w w' /\ fin = None /\
        n = (copied + N.of_nat (length bs))%N /\
        written s' w' = written s w ++ bs /\ holds r' w' [] None)
     (fun e '(r', (s', w')) => (fin = Some e \/ can_fail W S) /\ iostep w w' /\ alive r' w' /\
        exists p, p `prefix_of` bs /\ written s' w' = written s w ++ p)
     (r, (s, w)).
Proof.
  revert copied r s w bs. induction fuel as [|fuel IH]; intros copied r s w bs Hr Hn; [lia|].
  cbn [io_copy]. wp_step. apply wp_attempt, wp_zoom_rw.
  eapply wp_mono; [by apply (read_holds r w bs fin DEFAULT_BUF_SIZE)| |].
  2: { intros e [r' w'] (Hw & -> & -> & Hal). cbn.
       rewrite (fin_not_interrupted _ _ _ _ Hr). apply wp_fail.
       split_and!; [by left|by auto|done|]. exists [].
       rewrite app_nil_r. split; [done|]. by apply written_rstep. }
  intros got [r' w'] (Hw & rest & -> & Hlen & Hr' & Hnil). cbn.
  destruct got as [|c got].
  - destruct (Hnil eq_refl) as [Hrest ->]. simpl in Hrest. subst rest.
    apply wp_ret. split_and!; [by auto|done|simpl; lia| |done].
    rewrite app_nil_r. by apply written_rstep.
  - wp_step. apply wp_zoom_r.
    eapply wp_mono; [apply write_all_spec| |].
    + intros [] [s' w''] [Hw' Hwr].
      assert (Hio : iostep w w'') by (etrans; eauto).
      eapply wp_mono; [apply (IH _ _ _ _ rest)| |].
      * by eapply holds_wstep.
      * rewrite length_app in Hn. simpl in Hn. lia.
      * intros n [r3 [s3 w3]] (? & -> & -> & -> & ?).
        split_and!; [by etrans|done| | |done].
        -- rewrite length_app. simpl. lia.
        -- rewrite Hwr, (written_rstep s w w') by done. by rewrite app_assoc.
      * intros e [r3 [s3 w3]] (? & ? & ? & p & Hp & ->). split_and!; [done|by etrans|done|].
        exists ((c :: got) ++ p). split; [by apply prefix_app|].
        rewrite Hwr, (written_rstep s w w') by done. by rewrite app_assoc.
    + intros e [s' w''] (Hcf & Hw' & p & Hp & ->). split_and!; [by right|etrans; eauto| |].
      { eapply alive_wstep; [by eapply holds_alive|done]. }
      exists p. split.
      * etrans; [exact Hp|]. by apply prefix_app_r.
      * by rewrite (written_rstep s w w').
Qed.
End copy_rules.

(** ** Lawful adapters *)

#[export, refine] Instance Cursor_read_laws {W} `{World W} : ReadLaws W Cursor := {|
  holds c _ bs fin := cursor_rest c = bs /\ fin = None;
  alive _ _ := True;
  passed _ _ _ := True;
|}.
Proof.
  - done.
  - done.
  - intros E r w _. by apply wp_ret.
  - done.
  - intros. by apply wp_ret.
  - by intros r w w' bs fin ? _.
  - by intros r w bs e [_ ?].
  - intros r w bs fin n Hn [<- ->]. split; [done|].
    exists (drop n (cursor_rest r)). split_and!; simpl.
    + by rewrite take_drop.
    + rewrite length_take. lia.
    + done.
    + done.
    + intros Hnil. split; [|done]. destruct n as [|n]; [done|].
      by destruct (cursor_rest r).
Defined.

#[export, refine] Instance Cursor_bufread_laws {W} `{World W} :
    BufReadLaws W Cursor (HB := Cursor_bufread) := {|
  bufread_read_laws := Cursor_read_laws : ReadLaws W Cursor (HR := bufread_read);
|}.
Proof.
  intros r w bs fin [<- ->]. split; [done|]. split_and!.
  - exists []. by rewrite app_nil_r.
  - done.
  - intros k Hk. by repeat split.
Defined.

(** A [Take] delivers at most [limit] bytes, and does not look further. *)
Definition take_holds {W R} `{World W} `{!Read W R} `{!Drop W R} `{!ReadLaws W R}
    (t : Take R) (w : W) (bs : bytes) (fin : option io_error) : Prop :=
  match take_limit t with
  | None => holds (take_inner t) w bs fin
  | Some limit => exists all fin0,
      holds (take_inner t) w all fin0 /\ bs = take (N.to_nat limit) all /\
      fin = (if (limit <=? N.of_nat (length all))%N then None else fin0)
  end.

Lemma take_read_holds {W R} `{World W} `{!Read W R} `{!Drop W R} `{!ReadLaws W R}
    (t : Take R) (w : W) bs fin n :
  n <> 0 -> take_holds t w bs fin ->
  wp (read n)
     (fun got '(t', w') =>
        rstep w w' /\ exists rest,
        bs = got ++ rest /\ length got <= n /\ take_holds t' w' rest fin /\
        (got = [] -> bs = [] /\ fin = None))
     (fun e '(t', w') => rstep w w' /\ bs = [] /\ fin = Some e /\
        alive (take_inner t') w')
     (t, w).
Proof.
  intros Hn. destruct t as [r [limit|]]; unfold take_holds; cbn [take_limit take_inner].
  - intros (all & fin0 & Hr & -> & ->). unfold wp, read, Take_read.
    cbn [take_limit take_inner]. destruct limit as [|p].
    { split; [done|]. exists []. split_and!; [done|simpl; lia| |].
      - by exists all, fin0.
      - intros _. split; [done|]. by destruct (N.of_nat (length all)). }
    set (limit := N.pos p). set (m := N.to_nat (N.min (N.of_nat n) limit)).
    pose proof (read_holds r w all fin0 m ltac:(lia) Hr) as Hwp. unfold wp in Hwp.
    destruct (read m (r, w)) as [got [r' w']|e [r' w']| | |]; try done.
    + destruct Hwp as (Hw & rest & -> & Hlen & Hr' & Hnil). split; [done|].
      assert (m <= N.to_nat limit) by lia.
      exists (take (N.to_nat limit - length got) rest).
      split_and!; [by rewrite take_app_ge by lia|lia| |].
      * exists rest, fin0. cbn. split_and!; [done|f_equal; lia|].
        rewrite length_app. destruct (N.leb_spec limit (N.of_nat (length got + length rest))),
          (N.leb_spec (limit - N.of_nat (length got)) (N.of_nat (length rest))); try done; lia.
      * intros ->. destruct (Hnil eq_refl) as [Hrest ->].
        simpl in Hrest. subst rest. split; [by rewrite app_nil_r, take_nil|].
        by destruct (limit <=? _)%N.
    + destruct Hwp as (Hw & -> & -> & ?). rewrite take_nil. simpl. done.
  - intros Hr. unfold wp, read, Take_read. cbn [take_limit take_inner].
    pose proof (read_holds r w bs fin n Hn Hr) as Hwp. unfold wp in Hwp.
    by destruct (read n (r, w)) as [got [r' w']|e [r' w']| | |].
Qed.

#[export, refine] Instance Take_read_laws {W R} `{World W} `{!Read W R} `{!Drop W R}
    `{!ReadLaws W R} : ReadLaws W (Take R) := {|
  holds := take_holds;
  alive t := alive (take_inner t);
  passed _ _ _ := True;
|}.
Proof.
  - intros [r [limit|]] w bs fin; unfold take_holds; simpl.
    + intros (all & fin0 & ? & _). by eapply holds_alive.
    + apply holds_alive.
  - intros r w w'. apply alive_wstep.
  - intros E r w. apply (drop_alive E (take_inner r)).
  - done.
  - intros E [r [limit|]] w bs fin; unfold take_holds; simpl.
    + intros (all & fin0 & Hr & _). eapply wp_never_mono; [by apply (drop_holds E r)|].
      by intros [] w' [? _].
    + intros Hr. eapply wp_never_mono; [by apply (drop_holds E r)|]. by intros [] w' [? _].
  - intros [r [limit|]] w w' bs fin; unfold take_holds; simpl.
    + intros (all & fin0 & ? & ?) ?. exists all, fin0.
      split; [by eapply holds_wstep|done].
    + apply holds_wstep.
  - intros [r [limit|]] w bs e; unfold take_holds; simpl.
    + intros (all & fin0 & ? & -> & Hfin).
      destruct (limit <=? _)%N; [done|]. subst. by eapply fin_not_interrupted.
    + apply fin_not_interrupted.
  - apply take_read_holds.
Defined.

(** A second contract for [Take], which keeps track of what the inner reader still
    holds behind the limit: [tail], then [fin0]. *)
Section take_tail.
Context {W R : Type} `{!World W} `{!Read W R} `{!Drop W R} `{!ReadLaws W R}.
Variables (tail : bytes) (fin0 : option io_error).

Definition tail_holds (t : Take R) (w : W) (bs : bytes) (fin : option io_error) : Prop :=
  fin = None /\ holds (take_inner t) w (bs ++ tail) fin0 /\
  exists limit, take_limit t = Some limit /\ length bs <= N.to_nat limit /\
                (length bs = N.to_nat limit \/ (tail = [] /\ fin0 = None)).

Lemma tail_read_holds (t : Take R) (w : W) bs fin n :
  n <> 0 -> tail_holds t w bs fin ->
  wp (read n)
     (fun got '(t', w') =>
        rstep w w' /\ exists rest,
        bs = got ++ rest /\ length got <= n /\ tail_holds t' w' rest fin /\
        (got = [] -> bs = [] /\ fin = None))
     (fun e '(t', w') => rstep w w' /\ bs = [] /\ fin = Some e /\
        alive (take_inner t') w')
     (t, w).
Proof.
  intros Hn. destruct t as [r limit]. unfold tail_holds. cbn [take_limit take_inner].
  intros (-> & Hr & limit' & -> & Hle & Hor). unfold wp, read, Take_read.
  cbn [take_limit take_inner]. destruct limit' as [|p].
  { split; [done|]. exists []. destruct bs; [|simpl in Hle; lia].
    split_and!; [done|simpl; lia|done|done|by exists 0%N|done]. }
  set (limit := N.pos p) in *. set (m := N.to_nat (N.min (N.of_nat n) limit)).
  pose proof (read_holds r w _ fin0 m ltac:(lia) Hr) as Hwp. unfold wp in Hwp.
  destruct (read m (r, w)) as [got [r' w']|e [r' w']| | |]; try done.
  - destruct Hwp as (Hw & rest & Heq & Hlen & Hr' & Hnil). split; [done|].
    assert (length got <= length bs) as Hgot.
    { destruct Hor as [Hor|[-> ->]]; [lia|].
      rewrite app_nil_r in Heq. rewrite Heq, length_app. lia. }
    assert (got = take (length got) bs) as Hpre.
    { rewrite <-(take_app_le bs tail) by lia. by rewrite Heq, take_app_length. }
    exists (drop (length got) bs).
    assert (rest = drop (length got) bs ++ tail) as Hrest.
    { rewrite <-drop_app_le by lia. by rewrite Heq, drop_app_length. }
    split_and!.
    + rewrite Hpre at 1. by rewrite take_drop.
    + lia.
    + done.
    + cbn. by rewrite <-Hrest.
    + cbn. eexists. split; [done|].
      rewrite length_drop. split; [lia|]. destruct Hor as [Hor|Hor]; [left; lia|by right].
    + intros ->. destruct (Hnil eq_refl) as [Hnil' _].
      by apply app_eq_nil in Hnil' as [-> _].
  - destruct Hwp as (Hw & Heq & Hfin & Hal). apply app_eq_nil in Heq as [-> ->].
    destruct Hor as [Hor|[_ ->]]; [simpl in *; lia|done].
Qed.

Definition Take_tail_laws : ReadLaws W (Take R).
Proof.
  refine {| holds := tail_holds; alive t := alive (take_inner t);
            passed w bs _ := passed R w (bs ++ tail) fin0 |}.
  - intros r w bs fin (_ & Hr & _). by eapply holds_alive.
  - intros r w w'. apply alive_wstep.
  - intros E r w. apply (drop_alive E (take_inner r)).
  - intros w w' bs fin. apply passed_wstep.
  - intros E r w bs fin (_ & Hr & _). by apply (drop_holds E (take_inner r)).
  - intros r w w' bs fin (-> & Hr & Hl) Hw. split_and!; [done| |done].
    by eapply holds_wstep.
  - by intros r w bs e (? & _).
  - apply tail_read_holds.
Defined.

(** A limit within the stream, or at a stream that ends without an error. *)
Lemma tail_holds_intro (r : R) (w : W) limit all :
  holds r w all fin0 -> tail = drop (N.to_nat limit) all ->
  (N.to_nat limit <= length all \/ fin0 = None) ->
  tail_holds (Build_Take r (Some limit)) w (take (N.to_nat limit) all) None.
Proof.
  intros Hr Htail Hl. split_and!; [done| |].
  - by rewrite Htail, take_drop.
  - exists limit. split; [done|]. rewrite length_take. split; [lia|].
    destruct (decide (N.to_nat limit <= length all)); [left; lia|right].
    destruct Hl as [Hl|Hl]; [lia|]. split; [|done]. rewrite Htail. apply drop_ge. lia.
Qed.
End take_tail.
