(* ===== verification/Buffered.v ===== *)
(** * Buffered: [io::BufReader] and [io::BufWriter] over a stream *)
From stdpp Require Import base list gmap strings.
From Stdlib Require Import Strings.Byte NArith Lia.
From S2P Require Import Prelude Errors StdIo.

(** ** Raw streams

    [write] and [flush] of an unbuffered stream: [write] says how many bytes it
    took. *)
Class RawWrite (W T : Type) := {
  raw_write : bytes -> ST (T * W) io_error nat;
  raw_flush : ST (T * W) io_error unit;
}.
#[export] Hint Mode RawWrite ! ! : typeclass_instances.

Definition write_zero : io_error :=
  IoError WriteZero (Message "failed to write the buffered data").

(** The loop of [Write::write_all] and of [BufWriter::flush_buf]: [n] bounds the
    calls. The bytes that were not written come back with an error. *)
Fixpoint write_loop {W T} `{!RawWrite W T} (n : nat) (bs : bytes)
  : ST (T * W) (io_error * bytes) unit :=
  match bs with
  | [] => ret tt
  | _ =>
      match n with
      | O => no_fuel
      | S n =>
          let! r := attempt (raw_write bs) in
          match r with
          | inl O => fail (write_zero, bs)
          | inl k => write_loop n (drop k bs)
          | inr e => if is_interrupted e then write_loop n bs else fail (e, bs)
          end
      end
  end.

(** ** [BufReader] *)
Record BufReader (T : Type) := { br_buf : bytes; br_inner : T }.
Arguments br_buf {T} b.
Arguments br_inner {T} b.
Arguments Build_BufReader {T} br_buf br_inner.
Definition BufReader_new {T} (inner : T) : BufReader T := Build_BufReader [] inner.

Section buf_reader.
Context {W T : Type} `{!Read W T}.

(** Reading from the stream inside the reader. *)
Definition read_inner (n : nat) : ST (BufReader T * W) io_error bytes :=
  fun st =>
    match read n (br_inner st.1, st.2) with
    | Ok got (t, w) => Ok got (Build_BufReader (br_buf st.1) t, w)
    | Err e (t, w) => Err e (Build_BufReader (br_buf st.1) t, w)
    | Panic => Panic | Block => Block | NoFuel => NoFuel
    end.

Definition buf_fill : ST (BufReader T * W) io_error bytes :=
  fun st =>
    match br_buf st.1 with
    | [] =>
        match read_inner DEFAULT_BUF_SIZE st with
        | Ok got (r, w) => Ok got (Build_BufReader got (br_inner r), w)
        | o => o
        end
    | buf => Ok buf st
    end.

Definition buf_consume (n : nat) : ST (BufReader T * W) io_error unit :=
  fun st => Ok tt (Build_BufReader (drop n (br_buf st.1)) (br_inner st.1), st.2).

Definition buf_read_buffered (n : nat) : ST (BufReader T * W) io_error bytes :=
  let! avail := buf_fill in
  buf_consume (length (take n avail));;;
  ret (take n avail).

(** A read at least as large as the buffer goes to the stream when nothing is
    buffered. *)
#[export] Instance BufReader_read : Read W (BufReader T) := fun n =>
  let! st := get_state in
  if bool_decide (br_buf st.1 = []) && (DEFAULT_BUF_SIZE <=? n)
  then read_inner n
  else buf_read_buffered n.

#[export] Instance BufReader_bufread : BufRead W (BufReader T) := {|
  bufread_read := BufReader_read;
  fill_buf := buf_fill;
  consume := buf_consume;
|}.
End buf_reader.

#[export] Instance BufReader_drop {W T} `{!Drop W T} : Drop W (BufReader T) :=
  fun E r => drop_value (br_inner r).

(** ** [BufWriter] *)
Record BufWriter (T : Type) := { bw_buf : bytes; bw_inner : T }.
Arguments bw_buf {T} b.
Arguments bw_inner {T} b.
Arguments Build_BufWriter {T} bw_buf bw_inner.
Definition BufWriter_new {T} (inner : T) : BufWriter T := Build_BufWriter [] inner.

Section buf_writer.
Context `{!Fuel} {W T : Type} `{!RawWrite W T}.

(** [flush_buf]: on an error the unwritten rest stays in the buffer. *)
Definition flush_buf : ST (BufWriter T * W) io_error unit :=
  fun st =>
    let '(bw, w) := st in
    match write_loop (S (fuel + length (bw_buf bw))) (bw_buf bw) (bw_inner bw, w) with
    | Ok _ (t, w) => Ok tt (Build_BufWriter [] t, w)
    | Err (e, rest) (t, w) => Err e (Build_BufWriter rest t, w)
    | Panic => Panic | Block => Block | NoFuel => NoFuel
    end.

(** [inner.write_all(bs)] *)
Definition write_through (bs : bytes) : ST (BufWriter T * W) io_error unit :=
  fun st =>
    let '(bw, w) := st in
    match write_loop (S (fuel + length bs)) bs (bw_inner bw, w) with
    | Ok _ (t, w) => Ok tt (Build_BufWriter (bw_buf bw) t, w)
    | Err (e, _) (t, w) => Err e (Build_BufWriter (bw_buf bw) t, w)
    | Panic => Panic | Block => Block | NoFuel => NoFuel
    end.

Definition push_buf (bs : bytes) : ST (BufWriter T * W) io_error unit :=
  modify (fun st => (Build_BufWriter (bw_buf st.1 ++ bs) (bw_inner st.1), st.2)).

Definition buf_write_all (bs : bytes) : ST (BufWriter T * W) io_error unit :=
  let! st := get_state in
  let room := DEFAULT_BUF_SIZE - length (bw_buf st.1) in
  if length bs <? room then push_buf bs
  else
    (if room <? length bs then flush_buf else ret tt);;;
    if DEFAULT_BUF_SIZE <=? length bs then write_through bs else push_buf bs.

Definition flush_inner : ST (BufWriter T * W) io_error unit :=
  fun st =>
    match raw_flush (bw_inner st.1, st.2) with
    | Ok _ (t, w) => Ok tt (Build_BufWriter (bw_buf st.1) t, w)
    | Err e (t, w) => Err e (Build_BufWriter (bw_buf st.1) t, w)
    | Panic => Panic | Block => Block | NoFuel => NoFuel
    end.

#[export] Instance BufWriter_write : Write W (BufWriter T) := {|
  write_all := buf_write_all;
  flush := flush_buf;;; flush_inner;
|}.

(** Dropping a [BufWriter] flushes its buffer and ignores the result. *)
#[export] Instance BufWriter_drop `{!Drop W T} : Drop W (BufWriter T) := fun E bw w =>
  match flush_buf (bw, w) with
  | Ok _ (bw, w) => drop_value (bw_inner bw) w
  | Err _ (bw, w) => drop_value (bw_inner bw) w
  | Panic => Panic | Block => Block | NoFuel => NoFuel
  end.

(** [BufWriter::into_inner]; with [?] a failing writer is dropped, which flushes
    again. *)
Definition into_inner `{!Drop W T} (bw : BufWriter T) : ST W io_error T :=
  fun w =>
    match flush_buf (bw, w) with
    | Ok _ (bw, w) => Ok (bw_inner bw) w
    | Err e (bw, w) => bind (drop_value bw) (fun _ => fail e) w
    | Panic => Panic | Block => Block | NoFuel => NoFuel
    end.
End buf_writer.

(** ** Contracts

    A raw writer takes a prefix of what it is given, or nothing and an error; one
    for which [raw_can_fail] is [False] has no errors and always takes something. *)
Class RawWriteLaws (W T : Type) {HW : World W} {HT : RawWrite W T} := {
  raw_can_fail : Prop;
  accepted : T -> W -> bytes;
  accepted_rstep (t : T) (w w' : W) : rstep w w' -> accepted t w' = accepted t w;
  raw_write_spec (t : T) (w : W) bs :
    wp (raw_write bs)
       (fun n '(t', w') => wstep w w' /\ n <= length bs /\
          (n = 0 -> bs = [] \/ raw_can_fail) /\
          accepted t' w' = accepted t w ++ take n bs)
       (fun e '(t', w') => raw_can_fail /\ wstep w w' /\ is_interrupted e = false /\
          accepted t' w' = accepted t w)
       (t, w);
  raw_flush_spec (t : T) (w : W) :
    wp raw_flush
       (fun _ '(t', w') => wstep w w' /\ accepted t' w' = accepted t w)
       (fun _ '(t', w') => raw_can_fail /\ wstep w w' /\ accepted t' w' = accepted t w)
       (t, w);
}.
Arguments raw_can_fail W T {HW HT RawWriteLaws}.
#[export] Hint Mode RawWriteLaws ! ! - - : typeclass_instances.

(** ** [BufReader] is a lawful [BufRead] *)
Section buf_reader_laws.
Context {W T : Type} `{!World W} `{!Read W T} `{!Drop W T} `{!ReadLaws W T}.

(** What is buffered comes first; it is no more than the buffer holds. *)
Definition buf_holds (r : BufReader T) (w : W) (bs : bytes) (fin : option io_error) : Prop :=
  exists rest, bs = br_buf r ++ rest /\ length (br_buf r) <= DEFAULT_BUF_SIZE /\
    holds (br_inner r) w rest fin.

Lemma buf_holds_new (t : T) (w : W) bs fin : holds t w bs fin -> buf_holds (BufReader_new t) w bs fin.
Proof. intros Ht. exists bs. split_and!; [done|apply Nat.le_0_l|done]. Qed.

Lemma read_inner_holds r w bs fin n :
  n <> 0 -> br_buf r = [] -> buf_holds r w bs fin ->
  wp (read_inner n)
     (fun got '(r', w') => rstep w w' /\ br_buf r' = [] /\ length got <= n /\
        (exists rest, bs = got ++ rest /\ holds (br_inner r') w' rest fin) /\
        (got = [] -> bs = [] /\ fin = None))
     (fun e '(r', w') => rstep w w' /\ bs = [] /\ fin = Some e /\ alive (br_inner r') w')
     (r, w).
Proof.
  intros Hn Hbuf (rest & -> & _ & Ht). rewrite Hbuf. cbn [app].
  pose proof (read_holds _ _ _ _ n Hn Ht) as Hwp.
  unfold wp, read_inner in *. cbn [fst snd].
  destruct (read n (br_inner r, w)) as [got [t w']|e [t w']| | |]; [|done..].
  destruct Hwp as (Hw & rest' & -> & Hlen & Ht' & Hnil).
  split_and!; [done|done|done| |done]. by exists rest'.
Qed.

Lemma buf_fill_holds r w bs fin :
  buf_holds r w bs fin ->
  wp buf_fill
     (fun avail '(r', w') =>
        rstep w w' /\ br_buf r' = avail /\ buf_holds r' w' bs fin /\
        (avail = [] -> bs = [] /\ fin = None))
     (fun e '(r', w') => rstep w w' /\ bs = [] /\ fin = Some e /\ alive (br_inner r') w')
     (r, w).
Proof.
  intros Hr. destruct (br_buf r) as [|c buf] eqn:Hbuf.
  - pose proof (read_inner_holds r w bs fin DEFAULT_BUF_SIZE ltac:(done) Hbuf Hr) as Hwp.
    unfold wp, buf_fill in *. cbn [fst]. rewrite Hbuf.
    destruct (read_inner _ (r, w)) as [got [r' w']|e [r' w']| | |]; [|done..].
    destruct Hwp as (Hw & _ & Hl & (rest & -> & Ht) & Hnil).
    split_and!; [done|done| |done]. by exists rest.
  - unfold wp, buf_fill. cbn [fst]. rewrite Hbuf. split_and!; done.
Qed.

Lemma buf_read_buffered_holds r w bs fin n :
  n <> 0 -> buf_holds r w bs fin ->
  wp (buf_read_buffered n)
     (fun got '(r', w') =>
        rstep w w' /\ exists rest,
        bs = got ++ rest /\ length got <= n /\ buf_holds r' w' rest fin /\
        (got = [] -> bs = [] /\ fin = None))
     (fun e '(r', w') => rstep w w' /\ bs = [] /\ fin = Some e /\ alive (br_inner r') w')
     (r, w).
Proof.
  intros Hn Hr. unfold buf_read_buffered. wp_step.
  eapply wp_mono; [by apply (buf_fill_holds r w bs fin)| |done].
  intros avail [r' w'] (Hw & Hb & (rest & -> & Hl & Ht) & Hnil).
  wp_step. unfold wp, buf_consume, ret. cbn [fst snd]. rewrite Hb in *.
  split; [done|]. exists (drop n avail ++ rest). split_and!.
  - by rewrite app_assoc, take_drop.
  - rewrite length_take. lia.
  - exists rest. cbn [br_buf br_inner]. rewrite length_take.
    split_and!; [f_equal|rewrite length_drop; lia|done].
    destruct (decide (n <= length avail)); [f_equal; lia|].
    rewrite !drop_ge by lia. done.
  - intros Ht'. apply Hnil. destruct n; [done|]. by destruct avail.
Qed.

Lemma buf_read_holds r w bs fin n :
  n <> 0 -> buf_holds r w bs fin ->
  wp (read n)
     (fun got '(r', w') =>
        rstep w w' /\ exists rest,
        bs = got ++ rest /\ length got <= n /\ buf_holds r' w' rest fin /\
        (got = [] -> bs = [] /\ fin = None))
     (fun e '(r', w') => rstep w w' /\ bs = [] /\ fin = Some e /\ alive (br_inner r') w')
     (r, w).
Proof.
  intros Hn Hr. unfold read, BufReader_read. wp_step. unfold wp at 1. cbn [get_state].
  case_bool_decide as Hbuf; cbn [fst] in Hbuf; cbn [andb];
    [destruct (DEFAULT_BUF_SIZE <=? n)|]; [|by apply buf_read_buffered_holds..].
  eapply wp_mono; [by apply (read_inner_holds r w bs fin n)| |done].
  intros got [r' w'] (Hw & Hb & Hlen & (rest & -> & Ht) & Hnil).
  split; [done|]. exists rest. split_and!; [done|done| |done].
  exists rest. rewrite Hb. split_and!; [done|apply Nat.le_0_l|done].
Qed.

#[export, refine] Instance BufReader_read_laws :
  ReadLaws W (BufReader T) (HR := BufReader_read) := {|
  holds := buf_holds;
  alive r w := alive (br_inner r) w;
  passed _ _ _ := True;
|}.
Proof.
  - intros r w bs fin (rest & _ & _ & Ht). by eapply holds_alive.
  - intros r w w'. apply alive_wstep.
  - intros E r w. apply (drop_alive E (br_inner r)).
  - done.
  - intros E r w bs fin (rest & _ & _ & Ht).
    eapply wp_never_mono; [by apply (drop_holds E (br_inner r))|]. by intros [] w' [? _].
  - intros r w w' bs fin (rest & -> & Hl & Ht) Hw. exists rest.
    split_and!; [done|done|]. by eapply holds_wstep.
  - intros r w bs e (rest & _ & _ & Ht). by eapply fin_not_interrupted.
  - apply buf_read_holds.
Defined.

#[export] Instance BufReader_bufread_laws : BufReadLaws W (BufReader T).
Proof.
  refine (Build_BufReadLaws W (BufReader T) _ BufReader_bufread _ BufReader_read_laws _).
  intros r w bs fin Hr. cbn [fill_buf BufReader_bufread].
  eapply wp_mono; [by apply (buf_fill_holds r w bs fin)| |done].
  intros avail [r' w'] (Hw & Hb & Hr' & Hnil). destruct Hr' as (rest & -> & Hl & Ht).
  rewrite Hb in *. split_and!; [done|by exists rest|done|].
  intros k Hk. unfold wp, buf_consume. split; [done|]. exists rest. cbn [br_buf br_inner fst snd].
  rewrite Hb. split_and!; [by rewrite drop_app_le|rewrite length_drop; lia|done].
Defined.
End buf_reader_laws.

(** ** [BufWriter] is a lawful [Write] *)
Section buf_writer_laws.
Context `{!Fuel} {W T : Type} `{!World W} `{!RawWrite W T} `{!RawWriteLaws W T}.
Implicit Types (t : T) (w : W) (bw : BufWriter T).

Lemma write_loop_spec n bs t w :
  length bs < n ->
  wp (write_loop n bs)
     (fun _ '(t', w') => wstep w w' /\ accepted t' w' = accepted t w ++ bs)
     (fun '(_, rest) '(t', w') => raw_can_fail W T /\ wstep w w' /\
        exists p, bs = p ++ rest /\ accepted t' w' = accepted t w ++ p)
     (t, w).
Proof.
  revert bs t w. induction n as [|n IH]; intros bs t w Hn; [lia|].
  destruct bs as [|c bs]; [apply wp_ret; split; [done|by rewrite app_nil_r]|].
  cbn [write_loop]. wp_step. apply wp_attempt.
  eapply wp_mono; [apply raw_write_spec| |].
  - intros [|k] [t' w'] (Hw & Hk & Hz & Hacc).
    + apply wp_fail. split_and!; [by destruct (Hz eq_refl)|done|]. exists []. done.
    + eapply wp_mono; [apply (IH (drop (S k) (c :: bs)))| |].
      * rewrite length_drop. simpl in *. lia.
      * intros [] [t'' w''] [Hw' ->]. split; [by etrans|].
        by rewrite Hacc, <-app_assoc, take_drop.
      * intros [e rest] [t'' w''] (? & Hw' & p & Hp & ->). split_and!; [done|by etrans|].
        exists (take (S k) (c :: bs) ++ p).
        by rewrite Hacc, <-!app_assoc, <-Hp, take_drop.
  - intros e [t' w'] (? & Hw & -> & Hacc). apply wp_fail. split_and!; [done|done|].
    exists []. rewrite app_nil_r. done.
Qed.

Definition buf_written (bw : BufWriter T) (w : W) : bytes :=
  accepted (bw_inner bw) w ++ bw_buf bw.

Lemma flush_buf_spec bw w :
  wp flush_buf
     (fun _ '(bw', w') => wstep w w' /\ bw_buf bw' = [] /\
        accepted (bw_inner bw') w' = buf_written bw w)
     (fun _ '(bw', w') => raw_can_fail W T /\ wstep w w' /\ buf_written bw' w' = buf_written bw w)
     (bw, w).
Proof.
  pose proof (write_loop_spec (S (fuel + length (bw_buf bw))) (bw_buf bw) (bw_inner bw) w
    ltac:(lia)) as Hwp.
  unfold wp, flush_buf in *.
  destruct (write_loop _ _ (bw_inner bw, w)) as [[] [t w']|[e rest] [t w']| | |]; [| |done..].
  { by destruct Hwp. }
  destruct Hwp as (? & Hw & p & Hp & Hacc). split_and!; [done|done|].
  unfold buf_written. cbn. by rewrite Hacc, <-app_assoc, <-Hp.
Qed.

Lemma write_through_spec bs bw w :
  bw_buf bw = [] ->
  wp (write_through bs)
     (fun _ '(bw', w') => wstep w w' /\ buf_written bw' w' = buf_written bw w ++ bs)
     (fun _ '(bw', w') => raw_can_fail W T /\ wstep w w' /\
        exists p, p `prefix_of` bs /\ buf_written bw' w' = buf_written bw w ++ p)
     (bw, w).
Proof.
  intros Hb.
  pose proof (write_loop_spec (S (fuel + length bs)) bs (bw_inner bw) w ltac:(lia)) as Hwp.
  unfold wp, write_through, buf_written in *. rewrite Hb.
  destruct (write_loop _ _ (bw_inner bw, w)) as [[] [t w']|[e rest] [t w']| | |]; [| |done..]; cbn.
  - by rewrite !app_nil_r.
  - destruct Hwp as (? & Hw & p & Hp & Hacc). split_and!; [done|done|]. exists p.
    rewrite !app_nil_r. split; [by exists rest|done].
Qed.

Lemma buf_write_all_spec bs bw w :
  wp (buf_write_all bs)
     (fun _ '(bw', w') => wstep w w' /\ buf_written bw' w' = buf_written bw w ++ bs)
     (fun _ '(bw', w') => raw_can_fail W T /\ wstep w w' /\
        exists p, p `prefix_of` bs /\ buf_written bw' w' = buf_written bw w ++ p)
     (bw, w).
Proof.
  unfold buf_write_all. wp_step. unfold wp at 1. cbn [get_state fst].
  assert (Hpush : forall bw w R, wp (push_buf bs) (fun _ '(bw', w') => wstep w w' /\
      buf_written bw' w' = buf_written bw w ++ bs) R (bw, w)).
  { intros. unfold wp, push_buf, modify, buf_written. cbn. split; [done|].
    by rewrite app_assoc. }
  destruct (length bs <? _); [apply Hpush|].
  set (room := DEFAULT_BUF_SIZE - length (bw_buf bw)).
  wp_step. destruct (Nat.ltb_spec room (length bs)).
  - eapply wp_mono; [apply flush_buf_spec| |].
    + intros [] [bw' w'] (Hw & Hb & Hacc).
      assert (Hwr : buf_written bw' w' = buf_written bw w).
      { unfold buf_written at 1. by rewrite Hb, app_nil_r. }
      rewrite <-Hwr. destruct (DEFAULT_BUF_SIZE <=? _).
      * eapply wp_mono; [by apply write_through_spec| |].
        -- intros [] [bw'' w''] []. split; [by etrans|done].
        -- intros e [bw'' w''] (? & ? & ?). split_and!; [done|by etrans|done].
      * eapply wp_never_mono; [apply Hpush|].
        intros [] [bw'' w''] []. split; [by etrans|done].
    + intros e [bw' w'] (? & Hw & Hwr). split_and!; [done|done|]. exists [].
      rewrite app_nil_r. split; [apply prefix_nil|done].
  - wp_step. destruct (Nat.leb_spec DEFAULT_BUF_SIZE (length bs)); [|apply Hpush].
    apply write_through_spec. destruct (bw_buf bw) as [|c l] eqn:Hb; [done|].
    subst room. cbn [length] in *. assert (DEFAULT_BUF_SIZE <> 0) by done. lia.
Qed.

(** Everything handed to the writer is in the buffer or accepted by the stream;
    after a successful [flush] it is all accepted. *)
#[export, refine] Instance BufWriter_laws : WriteLaws W (BufWriter T) := {|
  can_fail := raw_can_fail W T;
  written := buf_written;
  sent bw w := accepted (bw_inner bw) w;
|}.
Proof.
  - intros bw w w' Hw. unfold buf_written. by rewrite (accepted_rstep _ w w').
  - intros bw w w' Hw. by apply accepted_rstep.
  - intros. apply buf_write_all_spec.
  - intros bw w. cbn [flush BufWriter_write]. wp_step.
    eapply wp_mono; [apply flush_buf_spec| |done].
    intros [] [bw' w'] (Hw & Hb & Hacc).
    pose proof (raw_flush_spec (bw_inner bw') w') as Hwp.
    unfold wp, flush_inner, buf_written in *. cbn [fst snd]. rewrite Hb.
    destruct (raw_flush (bw_inner bw', w')) as [[] [t w'']|e [t w'']| | |]; [| |done..];
      [destruct Hwp as [Hw' Hacc']|destruct Hwp as (? & Hw' & Hacc')];
      cbn; rewrite app_nil_r, Hacc', Hacc; split_and!; try done; by etrans.
Defined.
End buf_writer_laws.
