(* ===== verification/HttpApi.v ===== *)
(** * HttpApi: the third-party crates [http], [headers] and [httparse]

    The crate is written against these libraries; their code is not part of the
    repository. Their operations are the fields of the class [HttpApi], an
    argument of every definition that uses them, and [HttpApiLaws] lists the
    documented behaviour the theorems rely on. Only the public constants of
    [http::Version] and [http::Method] are spelled out, because the source
    matches on them. *)
From stdpp Require Import base list strings.
From Stdlib Require Import Strings.Byte NArith.
From S2P Require Import Prelude Errors.

Inductive Version := HTTP_09 | HTTP_10 | HTTP_11 | HTTP_2 | HTTP_3.
#[export] Instance Version_eq_dec : EqDecision Version.
Proof. solve_decision. Defined.

Inductive Method :=
| OPTIONS | GET | POST | PUT | DELETE | HEAD | TRACE | CONNECT | PATCH
| Extension (name : bytes).
#[export] Instance Method_eq_dec : EqDecision Method.
Proof. solve_decision. Defined.

(** What [httparse::Request::parse] and [httparse::Response::parse] leave behind:
    the fields they filled and the array of header slots; slots that were not
    filled are [EMPTY_HEADER], whose name and value are empty. *)
Record ParsedHead := {
  hp_method : option bytes;
  hp_path : option bytes;
  hp_version : option N;
  hp_code : option N;
  hp_headers : list (bytes * bytes);
}.

(** [httparse::parse_chunk_size]: [Ok(Complete((pos, size)))], [Ok(Partial)] or
    [Err(InvalidChunkSize)]. *)
Inductive ChunkSize :=
| Complete (pos : nat) (size : N)
| Partial
| InvalidChunkSize.

Class HttpApi := {
  (** [http::HeaderMap] *)
  HeaderMap : Type;
  hm_new : HeaderMap;
  hm_iter : HeaderMap -> list (bytes * bytes);
  hm_get : HeaderMap -> bytes -> option bytes;
  hm_insert : bytes -> bytes -> HeaderMap -> HeaderMap;
  hm_remove : bytes -> HeaderMap -> HeaderMap;
  hm_extend : HeaderMap -> HeaderMap -> HeaderMap;
  (** [Builder::header(name, value)] on the builder's map; [None] when the name
      or the value is rejected. *)
  hm_try_append : HeaderMap -> bytes -> bytes -> option HeaderMap;

  (** [headers::TransferEncoding] *)
  TransferEncoding : Type;
  te_try_get : HeaderMap -> option TransferEncoding + unit;
  te_get : HeaderMap -> option TransferEncoding;
  te_is_chunked : TransferEncoding -> bool;
  te_insert_chunked : HeaderMap -> HeaderMap;
  (** [headers::ContentLength], a public wrapper of a [u64] *)
  cl_try_get : HeaderMap -> option N + unit;
  cl_get : HeaderMap -> option N;
  cl_insert : N -> HeaderMap -> HeaderMap;
  (** [headers::Connection] *)
  ConnectionHeader : Type;
  conn_get : HeaderMap -> option ConnectionHeader;
  conn_contains : ConnectionHeader -> string -> bool;
  conn_insert_close : HeaderMap -> HeaderMap;
  (** [typed_get::<headers::Expect>() == Some(Expect::CONTINUE)] *)
  expect_is_continue : HeaderMap -> bool;
  (** [typed_get::<headers::Date>().is_some()], and inserting a time, in seconds *)
  date_is_set : HeaderMap -> bool;
  date_insert : N -> HeaderMap -> HeaderMap;

  (** [http::StatusCode], [http::Uri], and the [Display]s used in messages *)
  status_from_u16 : N -> option N;
  status_is_success : N -> bool;
  status_display : N -> bytes;
  version_debug : Version -> bytes;
  method_from_bytes : bytes -> option Method;
  method_display : Method -> bytes;
  Uri : Type;
  uri_parse : bytes -> option Uri;
  uri_display : Uri -> bytes;
  Authority : Type;
  uri_path : Uri -> bytes;
  uri_authority : Uri -> option Authority;
  authority_host : Authority -> bytes;
  authority_port_u16 : Authority -> option N;
  (** what [Eq] and [Hash] of [Authority] compare *)
  authority_key : Authority -> bytes;
  (** [HeaderValue::try_from(&str).is_ok()], and [HeaderValue::to_str] *)
  header_value_ok : bytes -> bool;
  header_to_str : bytes -> option bytes;

  (** [httparse] *)
  httparse_request : bytes -> ParsedHead + HttparseError;
  httparse_response : bytes -> ParsedHead + HttparseError;
  parse_chunk_size : bytes -> ChunkSize;
}.

Definition hp_is_empty_header (h : bytes * bytes) : bool :=
  bool_decide (h.1 = [] /\ h.2 = []).

Section derived.
Context `{HttpApi}.

(** [headers.typed_get::<TransferEncoding>().filter(|te| te.is_chunked()).is_some()] *)
Definition has_chunked (h : HeaderMap) : bool :=
  match te_get h with Some te => te_is_chunked te | None => false end.

(** [headers.typed_get::<Connection>().filter(|c| c.contains(token)).is_some()] *)
Definition connection_has (token : string) (h : HeaderMap) : bool :=
  match conn_get h with Some c => conn_contains c token | None => false end.
End derived.

(** Documented behaviour of the three crates. *)
Class HttpApiLaws `{HttpApi} := {
  hm_iter_new : hm_iter hm_new = [];
  hm_new_framing : te_try_get hm_new = inl None /\ cl_try_get hm_new = inl None;
  hm_new_conn : conn_get hm_new = None;
  (** [typed_get] is [typed_try_get] without the error *)
  te_get_try h : te_get h = match te_try_get h with inl o => o | inr _ => None end;
  cl_get_try h : cl_get h = match cl_try_get h with inl o => o | inr _ => None end;
  (** a [ContentLength] is a [u64] *)
  cl_bound h n : cl_try_get h = inl (Some n) -> (n < 2 ^ 64)%N;
  (** typed inserts are read back, removed headers are gone ... *)
  te_insert_get h :
    exists te, te_try_get (te_insert_chunked h) = inl (Some te) /\ te_is_chunked te = true;
  te_remove_get h : te_try_get (hm_remove (b "transfer-encoding") h) = inl None;
  cl_insert_get n h : (n < 2 ^ 64)%N -> cl_try_get (cl_insert n h) = inl (Some n);
  conn_insert_get h : connection_has "close" (conn_insert_close h) = true;
  conn_insert_value_get h :
    connection_has "close" (hm_insert (b "connection") (b "close") h) = true;
  date_insert_get n h : date_is_set (date_insert n h) = true;
  (** ... and the other headers are left alone *)
  te_insert_others h :
    cl_try_get (te_insert_chunked h) = cl_try_get h /\
    conn_get (te_insert_chunked h) = conn_get h;
  te_remove_others h :
    cl_try_get (hm_remove (b "transfer-encoding") h) = cl_try_get h /\
    conn_get (hm_remove (b "transfer-encoding") h) = conn_get h;
  cl_insert_others n h :
    te_try_get (cl_insert n h) = te_try_get h /\ conn_get (cl_insert n h) = conn_get h;
  conn_insert_others h :
    te_try_get (conn_insert_close h) = te_try_get h /\
    cl_try_get (conn_insert_close h) = cl_try_get h;
  date_insert_others n h :
    te_try_get (date_insert n h) = te_try_get h /\
    cl_try_get (date_insert n h) = cl_try_get h /\
    conn_get (date_insert n h) = conn_get h;
  hm_insert_others name v h :
    (name <> b "transfer-encoding" -> te_try_get (hm_insert name v h) = te_try_get h) /\
    (name <> b "content-length" -> cl_try_get (hm_insert name v h) = cl_try_get h) /\
    (name <> b "connection" -> conn_get (hm_insert name v h) = conn_get h);
  (** a chunk size line: the position after it and the number *)
  parse_chunk_size_hex n :
    (n < 2 ^ 64)%N ->
    parse_chunk_size (hex n ++ CRLF) = Complete (length (hex n ++ CRLF)) n;
}.

Section laws.
Context `{HttpApiLaws}.

Lemma has_chunked_try h :
  has_chunked h = match te_try_get h with inl (Some te) => te_is_chunked te | _ => false end.
Proof. unfold has_chunked. rewrite te_get_try. by destruct (te_try_get h) as [[te|]|]. Qed.

Lemma has_chunked_insert h : has_chunked (te_insert_chunked h) = true.
Proof. rewrite has_chunked_try. by destruct (te_insert_get h) as (te & -> & ->). Qed.

Lemma has_chunked_remove h : has_chunked (hm_remove (b "transfer-encoding") h) = false.
Proof. by rewrite has_chunked_try, te_remove_get. Qed.

Lemma conn_insert_value_others h :
  te_try_get (hm_insert (b "connection") (b "close") h) = te_try_get h /\
  cl_try_get (hm_insert (b "connection") (b "close") h) = cl_try_get h.
Proof. destruct (hm_insert_others (b "connection") (b "close") h) as (Hte & Hcl & _). auto. Qed.

Lemma connection_has_get token h h' :
  conn_get h = conn_get h' -> connection_has token h = connection_has token h'.
Proof. unfold connection_has. by intros ->. Qed.
End laws.
