(* ===== verification/HttpModel.v ===== *)
(** * HttpModel: a small instance of [HttpApi]

    A header map is a list of lower-case names and values; the parsers accept the
    plain messages the tests of the crate use. It shows that the hypotheses of
    [HttpApiLaws] hold together, and the witnesses are evaluated with it. No
    theorem about the crate is proved for this instance only. *)
From stdpp Require Import base list gmap strings.
From Stdlib Require Import Strings.Byte NArith Lia.
From S2P Require Import Prelude Errors HttpApi.

(** ** Text *)
Definition lower_byte (c : byte) : byte :=
  let n := Byte.to_N c in
  if ((65 <=? n) && (n <=? 90))%N then default c (Byte.of_N (n + 32)) else c.
Definition lower (l : bytes) : bytes := lower_byte <$> l.

Definition SP : byte := x20.

Fixpoint trim_left (l : bytes) : bytes :=
  match l with
  | c :: l' => if bool_decide (c = SP) then trim_left l' else l
  | [] => []
  end.
Definition trim (l : bytes) : bytes := rev (trim_left (rev (trim_left l))).

(** The part before the first [c] and the part after it. *)
Definition cut (c : byte) (l : bytes) : bytes * option bytes :=
  match memchr c l with
  | Some i => (take i l, Some (drop (S i) l))
  | None => (l, None)
  end.

Fixpoint split_on (n : nat) (c : byte) (l : bytes) : list bytes :=
  match n with
  | O => [l]
  | S n => match cut c l with
           | (h, Some t) => h :: split_on n c t
           | (h, None) => [h]
           end
  end.

Definition strip_cr (l : bytes) : bytes :=
  match rev l with
  | c :: r => if bool_decide (c = CR) then rev r else l
  | [] => []
  end.

(** ** Header maps *)
Abbreviation headers_list := (list (bytes * bytes)).

Definition m_get (name : bytes) (h : headers_list) : option bytes :=
  snd <$> find (fun kv => bool_decide (kv.1 = name)) h.
Definition m_remove (name : bytes) (h : headers_list) : headers_list :=
  filter (fun kv => kv.1 <> name) h.
Definition m_insert (name value : bytes) (h : headers_list) : headers_list :=
  m_remove name h ++ [(name, value)].

Lemma m_get_remove_eq name h : m_get name (m_remove name h) = None.
Proof.
  unfold m_get, m_remove. induction h as [|[k v] h IH]; [done|].
  rewrite filter_cons. case_decide as Hk; simpl in *; [|done].
  by rewrite bool_decide_false.
Qed.

Lemma m_get_remove_ne name name' h :
  name <> name' -> m_get name (m_remove name' h) = m_get name h.
Proof.
  intros Hne. unfold m_get, m_remove. induction h as [|[k v] h IH]; [done|].
  rewrite filter_cons. simpl. case_decide as Hk; simpl in *.
  - by case_bool_decide.
  - rewrite bool_decide_false by naive_solver. done.
Qed.

Lemma m_get_app name h k v :
  m_get name (h ++ [(k, v)]) =
  match m_get name h with
  | Some x => Some x
  | None => if bool_decide (k = name) then Some v else None
  end.
Proof.
  unfold m_get. induction h as [|[k' v'] h IH]; cbn [app find fst snd].
  - by case_bool_decide.
  - by destruct (bool_decide (k' = name)).
Qed.

Lemma m_get_insert_eq name v h : m_get name (m_insert name v h) = Some v.
Proof. unfold m_insert. by rewrite m_get_app, m_get_remove_eq, bool_decide_true. Qed.

Lemma m_get_insert_ne name name' v h :
  name <> name' -> m_get name (m_insert name' v h) = m_get name h.
Proof.
  intros. unfold m_insert. rewrite m_get_app, m_get_remove_ne by done.
  rewrite bool_decide_false by done. by destruct (m_get name h).
Qed.

(** ** Typed headers *)
Definition m_last_is_chunked (value : bytes) : bool :=
  match rev (split_on (length value) x2c value) with
  | c :: _ => bool_decide (lower (trim c) = b "chunked")
  | [] => false
  end.
Definition m_contains (value : bytes) (token : string) : bool :=
  existsb (fun t => bool_decide (lower (trim t) = b token))
          (split_on (length value) x2c value).

Definition m_content_length (h : headers_list) : option N + unit :=
  match m_get (b "content-length") h with
  | None => inl None
  | Some [] => inr tt
  | Some v => match read_digits 10 v 0 with
              | Some n => if (n <? 2 ^ 64)%N then inl (Some n) else inr tt
              | None => inr tt
              end
  end.

(** ** Request and response heads *)
Definition m_version (l : bytes) : option N :=
  if bool_decide (l = b "HTTP/1.0") then Some 0%N
  else if bool_decide (l = b "HTTP/1.1") then Some 1%N else None.

Definition m_header_line (l : bytes) : option (bytes * bytes) :=
  match cut x3a l with
  | (name, Some value) => Some (lower name, trim value)
  | _ => None
  end.

Definition m_lines (buf : bytes) : list bytes :=
  filter (fun l => l <> []) (strip_cr <$> split_on (length buf) LF buf).

Definition m_headers (ls : list bytes) : option headers_list := mapM m_header_line ls.

Definition m_request (buf : bytes) : ParsedHead + HttparseError :=
  match m_lines buf with
  | [] => inl (Build_ParsedHead None None None None [])
  | first :: rest =>
      match cut SP first with
      | (m, Some after) =>
          match cut SP after with
          | (p, Some v) =>
              match m_version v, m_headers rest with
              | Some ver, Some hs => inl (Build_ParsedHead (Some m) (Some p) (Some ver) None hs)
              | None, _ => inr HpVersion
              | _, None => inr HpHeaderName
              end
          | (_, None) => inl (Build_ParsedHead (Some m) None None None [])
          end
      | (_, None) => inl (Build_ParsedHead None None None None [])
      end
  end.

Definition m_response (buf : bytes) : ParsedHead + HttparseError :=
  match m_lines buf with
  | [] => inl (Build_ParsedHead None None None None [])
  | first :: rest =>
      match split_on 2 SP first with
      | v :: code :: _ =>
          match m_version v, read_digits 10 code 0, m_headers rest with
          | Some ver, Some c, Some hs => inl (Build_ParsedHead None None (Some ver) (Some c) hs)
          | None, _, _ => inr HpVersion
          | _, None, _ => inr HpStatus
          | _, _, None => inr HpHeaderName
          end
      | _ => inl (Build_ParsedHead None None None None [])
      end
  end.

(** A chunk size line, possibly with an extension after a [;]. *)
Definition m_chunk_size (buf : bytes) : ChunkSize :=
  match memchr LF buf with
  | None => Partial
  | Some i =>
      match (cut x3b (strip_cr (take i buf))).1 with
      | [] => InvalidChunkSize
      | ds => match read_digits 16 ds 0 with
              | Some n => if (n <? 2 ^ 64)%N then Complete (S i) n else InvalidChunkSize
              | None => InvalidChunkSize
              end
      end
  end.

Definition m_reason (code : N) : bytes :=
  b match code with
    | 100 => "Continue" | 101 => "Switching Protocols" | 200 => "OK"
    | 404 => "Not Found" | 407 => "Proxy Authentication Required"
    | 417 => "Expectation Failed"
    | _ => "<unknown status code>"
    end%N.

Definition m_method (l : bytes) : option Method :=
  match l with
  | [] => None
  | _ =>
    if bool_decide (l = b "GET") then Some GET
    else if bool_decide (l = b "POST") then Some POST
    else if bool_decide (l = b "HEAD") then Some HEAD
    else if bool_decide (l = b "PUT") then Some PUT
    else if bool_decide (l = b "CONNECT") then Some CONNECT
    else Some (Extension l)
  end.

Definition m_method_display (m : Method) : bytes :=
  match m with
  | OPTIONS => b "OPTIONS" | GET => b "GET" | POST => b "POST" | PUT => b "PUT"
  | DELETE => b "DELETE" | HEAD => b "HEAD" | TRACE => b "TRACE"
  | CONNECT => b "CONNECT" | PATCH => b "PATCH" | Extension name => name
  end.

(** [http://host:port/...] *)
Definition m_authority (uri : bytes) : option bytes :=
  if bool_decide (take 7 uri = b "http://")
  then Some (cut x2f (drop 7 uri)).1 else None.

(** The path of a URI without an authority, up to its query *)
Definition m_path (uri : bytes) : bytes := (cut x3f uri).1.

#[export] Instance model_api : HttpApi := {|
  HeaderMap := headers_list;
  hm_new := [];
  hm_iter h := h;
  hm_get h name := m_get name h;
  hm_insert := m_insert;
  hm_remove := m_remove;
  hm_extend h h' := h ++ h';
  hm_try_append h k v := if bool_decide (k = []) then None else Some (h ++ [(lower k, v)]);
  TransferEncoding := bytes;
  te_try_get h := inl (m_get (b "transfer-encoding") h);
  te_get h := m_get (b "transfer-encoding") h;
  te_is_chunked := m_last_is_chunked;
  te_insert_chunked := m_insert (b "transfer-encoding") (b "chunked");
  cl_try_get := m_content_length;
  cl_get h := match m_content_length h with inl o => o | inr _ => None end;
  cl_insert n := m_insert (b "content-length") (dec n);
  ConnectionHeader := bytes;
  conn_get h := m_get (b "connection") h;
  conn_contains := m_contains;
  conn_insert_close := m_insert (b "connection") (b "close");
  expect_is_continue h := bool_decide (m_get (b "expect") h = Some (b "100-continue"));
  date_is_set h := bool_decide (is_Some (m_get (b "date") h));
  date_insert n := m_insert (b "date") (dec n);
  status_from_u16 n := if ((100 <=? n) && (n <? 1000))%N then Some n else None;
  status_is_success n := ((200 <=? n) && (n <? 300))%N;
  status_display n := dec n ++ [SP] ++ m_reason n;
  version_debug v := b match v with
                       | HTTP_09 => "HTTP/0.9" | HTTP_10 => "HTTP/1.0" | HTTP_11 => "HTTP/1.1"
                       | HTTP_2 => "HTTP/2.0" | HTTP_3 => "HTTP/3.0"
                       end;
  method_from_bytes := m_method;
  method_display := m_method_display;
  Uri := bytes;
  uri_parse u := if bool_decide (u = []) then None else Some u;
  uri_display u := u;
  Authority := bytes;
  uri_path := m_path;
  uri_authority := m_authority;
  authority_host a := (cut x3a a).1;
  authority_port_u16 a := match (cut x3a a).2 with Some p => read_digits 10 p 0 | None => None end;
  authority_key a := lower a;
  header_value_ok v := bool_decide (Forall (fun c => (32 <= Byte.to_N c)%N) v);
  header_to_str v :=
    if bool_decide (Forall (fun c => 32 <= Byte.to_N c < 127 \/ Byte.to_N c = 9)%N v)
    then Some v else None;
  httparse_request := m_request;
  httparse_response := m_response;
  parse_chunk_size := m_chunk_size;
|}.

Lemma m_get_remove_te name h :
  name <> b "transfer-encoding" ->
  m_get name (m_remove (b "transfer-encoding") h) = m_get name h.
Proof. apply m_get_remove_ne. Qed.

(** A printed number is not empty and has no byte outside the digits. *)
Lemma digits_cons base n : exists c l, digits base n = c :: l.
Proof.
  pose proof (digits_not_nil base n). destruct (digits base n) as [|c l]; [done|]. eauto.
Qed.

Lemma not_in_digits base n c :
  (1 < base <= 16)%N -> digit_value c = None -> c ∉ digits base n.
Proof.
  intros Hb Hc Hin.
  assert (Forall (fun x => x <> c) (digits base n)) as Hall.
  { apply digits_Forall; [done|]. intros d Hd Heq.
    by rewrite <-Heq, digit_value_byte in Hc. }
  rewrite Forall_forall in Hall. by apply (Hall c).
Qed.

Lemma strip_cr_app l : strip_cr (l ++ [CR]) = l.
Proof. unfold strip_cr. rewrite rev_app_distr. simpl. by rewrite rev_involutive. Qed.

Lemma m_content_length_dec h n :
  (n < 2 ^ 64)%N -> m_get (b "content-length") h = Some (dec n) ->
  m_content_length h = inl (Some n).
Proof.
  intros Hn Hget. unfold m_content_length. rewrite Hget. unfold dec.
  pose proof (read_digits_digits 10 n ltac:(lia)) as Hd.
  destruct (digits_cons 10 n) as (c & l & Heq).
    rewrite Heq in Hd |- *. cbv beta iota. rewrite Hd.
  by destruct (N.ltb_spec n (2 ^ 64)); [|lia].
Qed.

Lemma m_chunk_size_hex n :
  (n < 2 ^ 64)%N -> m_chunk_size (hex n ++ CRLF) = Complete (length (hex n ++ CRLF)) n.
Proof.
  intros Hn. unfold m_chunk_size, CRLF, hex.
  assert (LF ∉ digits 16 n) as Hlf by (apply not_in_digits; [lia|done]).
  change [CR; LF] with ([CR] ++ [LF]). rewrite app_assoc.
  rewrite memchr_app by set_solver. cbn [app].
  rewrite take_app_length, strip_cr_app.
  unfold cut. rewrite (proj2 (memchr_None x3b (digits 16 n))); cbn [fst].
  - pose proof (read_digits_digits 16 n ltac:(lia)) as Hd.
    destruct (digits_cons 16 n) as (c & l & Heq).
    rewrite Heq in Hd |- *. cbv beta iota. rewrite Hd.
    destruct (N.ltb_spec n (2 ^ 64)); [|lia].
    f_equal. rewrite !length_app. simpl. lia.
  - apply not_in_digits; [lia|done].
Qed.

Lemma m_content_length_get h h' :
  m_get (b "content-length") h = m_get (b "content-length") h' ->
  m_content_length h = m_content_length h'.
Proof. unfold m_content_length. by intros ->. Qed.

#[export] Instance model_api_laws : HttpApiLaws (H := model_api).
Proof.
  split; cbn -[m_insert m_remove m_get dec b N.pow].
  - done.
  - done.
  - done.
  - done.
  - done.
  - intros h n. unfold m_content_length.
    destruct (m_get _ h) as [[|c l]|]; try done.
    destruct (read_digits 10 (c :: l) 0) as [m|]; [|done].
    destruct (N.ltb_spec m (2 ^ 64)); [|done]. by intros [= <-].
  - intros h. exists (b "chunked"). by rewrite m_get_insert_eq.
  - intros h. by rewrite m_get_remove_eq.
  - intros n h Hn. rewrite (m_content_length_dec _ n); [done|done|].
    apply m_get_insert_eq.
  - intros h. unfold connection_has. cbn -[m_insert m_get]. by rewrite m_get_insert_eq.
  - intros h. unfold connection_has. cbn -[m_insert m_get]. by rewrite m_get_insert_eq.
  - intros n h. rewrite m_get_insert_eq. by apply bool_decide_true.
  - intros h. by rewrite (m_content_length_get _ h) by (by apply m_get_insert_ne); rewrite m_get_insert_ne.
  - intros h. by rewrite (m_content_length_get _ h) by (by apply m_get_remove_ne); rewrite m_get_remove_ne.
  - intros n h. by rewrite !m_get_insert_ne.
  - intros h. by rewrite (m_content_length_get _ h) by (by apply m_get_insert_ne); rewrite m_get_insert_ne.
  - intros n h. by rewrite (m_content_length_get _ h) by (by apply m_get_insert_ne); rewrite !m_get_insert_ne.
  - intros name v h. split_and!; intros Hne.
    + by rewrite m_get_insert_ne.
    + by rewrite (m_content_length_get _ h) by (by apply m_get_insert_ne).
    + by rewrite m_get_insert_ne.
  - apply m_chunk_size_hex.
Qed.
