(* ===== verification/Mpsc.v ===== *)
(** * Mpsc: [std::sync::mpsc::channel]

    The channels of the program live in a store that both ends reach. A channel
    has one sender here: neither [BodyChannel] nor [QueuedReader] clones its
    [Sender]. *)
From stdpp Require Import base list gmap.
From S2P Require Import Prelude Errors.

Record chan (T : Type) := {
  queue : list T;
  sender_alive : bool;
  receiver_alive : bool;
}.
Arguments queue {T} c.
Arguments sender_alive {T} c.
Arguments receiver_alive {T} c.
Arguments Build_chan {T} queue sender_alive receiver_alive.

Record store (T : Type) := {
  next_chan : nat;
  chans : gmap nat (chan T);
}.
Arguments next_chan {T} s.
Arguments chans {T} s.
Arguments Build_store {T} next_chan chans.

(** The store is a part of the world. *)
Class HasStore (W T : Type) := {
  get_store : W -> store T;
  set_store : store T -> W -> W;
}.
#[export] Hint Mode HasStore ! ! : typeclass_instances.

#[export] Instance store_has_store T : HasStore (store T) T := {|
  get_store s := s;
  set_store s _ := s;
|}.

Record Sender (T : Type) := { tx : nat }.
Record Receiver (T : Type) := { rx : nat }.
Arguments tx {T} s.
Arguments rx {T} r.
Arguments Build_Sender {T} tx.
Arguments Build_Receiver {T} rx.

Section ops.
Context {W T : Type} `{!HasStore W T}.

Definition the_store (w : W) : store T := get_store w.

Definition update_chan (id : nat) (c : chan T) (w : W) : W :=
  set_store (Build_store (next_chan (the_store w)) (<[id := c]> (chans (the_store w)))) w.

(** [mpsc::channel()] *)
Definition channel {E} : ST W E (Sender T * Receiver T) :=
  fun w =>
    let s := the_store w in
    let id := next_chan s in
    Ok (Build_Sender id, Build_Receiver id)
       (set_store (Build_store (S id) (<[id := Build_chan [] true true]> (chans s))) w).

(** [Sender::send]: the value comes back when the receiver is gone. *)
Definition send {E} (s : Sender T) (v : T) : ST W E (unit + T) :=
  fun w =>
    match chans (the_store w) !! tx s with
    | Some c =>
        if receiver_alive c
        then Ok (inl tt)
                (update_chan (tx s)
                   (Build_chan (queue c ++ [v]) (sender_alive c) (receiver_alive c)) w)
        else Ok (inr v) w
    | None => Ok (inr v) w
    end.

(** [Receiver::recv]: the oldest message; waits while the queue is empty and
    the sender lives; [None] is [RecvError]. *)
Definition recv {E} (r : Receiver T) : ST W E (option T) :=
  fun w =>
    match chans (the_store w) !! rx r with
    | Some c =>
        match queue c with
        | v :: q => Ok (Some v) (update_chan (rx r) (Build_chan q (sender_alive c) (receiver_alive c)) w)
        | [] => if sender_alive c then Block else Ok None w
        end
    | None => Ok None w
    end.

(** The destructors of the two ends. *)
Definition drop_sender {E} (s : Sender T) : ST W E unit :=
  fun w =>
    match chans (the_store w) !! tx s with
    | Some c => Ok tt (update_chan (tx s) (Build_chan (queue c) false (receiver_alive c)) w)
    | None => Ok tt w
    end.

(** The messages nobody received are dropped with the receiver. *)
Fixpoint drop_all `{!Drop W T} {E} (vs : list T) : ST W E unit :=
  match vs with
  | [] => ret tt
  | v :: vs => drop_value v;;; drop_all vs
  end.

Definition drop_receiver `{!Drop W T} {E} (r : Receiver T) : ST W E unit :=
  fun w =>
    match chans (the_store w) !! rx r with
    | Some c =>
        drop_all (queue c) (update_chan (rx r) (Build_chan [] (sender_alive c) false) w)
    | None => Ok tt w
    end.
End ops.
