(* ===== verification/ReadQueue.v ===== *)
(** * ReadQueue: the reader hand-off of src/src/read_queue.rs

    The queue hands out one [QueuedReader] per request of a connection. Each
    holds the reader itself or the receiving end of the channel on which the
    previous one passes it on when it is dropped. *)
From stdpp Require Import base list gmap strings.
From Stdlib Require Import Strings.Byte NArith Lia.
From S2P Require Import Prelude Errors StdIo Mpsc.

(** [enum ReadQueue<R>] *)
Inductive ReadQueue (R : Type) :=
| Head (reader : R)
| Next (rx : Receiver R).
Arguments Head {R} reader.
Arguments Next {R} rx.

(** [enum QueuedReaderInner<R>], [struct QueuedReader<R>] *)
Inductive QueuedReaderInner (R : Type) :=
| Current (reader : R)
| Waiting (rx : Receiver R).
Arguments Current {R} reader.
Arguments Waiting {R} rx.

Record QueuedReader (R : Type) := {
  qr_reader : option (QueuedReaderInner R);
  qr_next : Sender R;
}.
Arguments qr_reader {R} q.
Arguments qr_next {R} q.
Arguments Build_QueuedReader {R} qr_reader qr_next.

Definition ReadQueue_new {R} (reader : R) : ReadQueue R := Head reader.

Section read_queue.
Context {W R : Type} `{!HasStore W R} `{!Drop W R}.

(** [ReadQueue::enqueue] *)
Definition enqueue {E} : ST (ReadQueue R * W) E (QueuedReader R) :=
  let! (tx, rx) := zoom_r channel in
  let! st := get_state in
  zoom_l (put_state (Next rx));;;
  match st.1 with
  | Head reader => ret (Build_QueuedReader (Some (Current reader)) tx)
  | Next previous => ret (Build_QueuedReader (Some (Waiting previous)) tx)
  end.

(** [rx.recv().unwrap()] *)
Definition recv_unwrap {E} (rx : Receiver R) : ST W E R :=
  let! r := recv rx in
  match r with Some reader => ret reader | None => panic end.

(** [self.reader = Some(Current(reader))]: the receiver it replaces is dropped. *)
Definition settle {E} (reader : R) (rx : Receiver R) : ST (QueuedReader R * W) E unit :=
  zoom_l (modify (fun q => Build_QueuedReader (Some (Current reader)) (qr_next q)));;;
  zoom_r (drop_receiver rx).

(** A method of the reader held by the handle. *)
Definition on_current {E A} (m : ST (R * W) E A) (reader : R)
  : ST (QueuedReader R * W) E A :=
  fun st =>
    let '(q, w) := st in
    match m (reader, w) with
    | Ok a (reader, w) =>
        Ok a (Build_QueuedReader (Some (Current reader)) (qr_next q), w)
    | Err e (reader, w) =>
        Err e (Build_QueuedReader (Some (Current reader)) (qr_next q), w)
    | Panic => Panic | Block => Block | NoFuel => NoFuel
    end.

(** [Read::read] *)
#[export] Instance QueuedReader_read `{!Read W R} : Read W (QueuedReader R) := fun n =>
  let! st := get_state in
  match qr_reader st.1 with
  | Some (Current reader) => on_current (read n) reader
  | Some (Waiting rx) =>
      let! reader := zoom_r (recv_unwrap rx) in
      let! result := attempt (on_current (read n) reader) in
      zoom_r (drop_receiver rx);;;
      match result with inl got => ret got | inr e => fail e end
  | None => panic
  end.

(** [BufRead::fill_buf] and [BufRead::consume] *)
Definition queued_fill_buf `{!BufRead W R} : ST (QueuedReader R * W) io_error bytes :=
  let! st := get_state in
  match qr_reader st.1 with
  | Some (Current reader) => on_current fill_buf reader
  | Some (Waiting rx) =>
      let! reader := zoom_r (recv_unwrap rx) in
      settle reader rx;;;
      on_current fill_buf reader
  | None => panic
  end.

Definition queued_consume `{!BufRead W R} (amt : nat) : ST (QueuedReader R * W) io_error unit :=
  let! st := get_state in
  match qr_reader st.1 with
  | Some (Current reader) => on_current (consume amt) reader
  | Some (Waiting rx) =>
      let! reader := zoom_r (recv_unwrap rx) in
      settle reader rx;;;
      on_current (consume amt) reader
  | None => panic
  end.

#[export] Instance QueuedReader_bufread `{!BufRead W R} : BufRead W (QueuedReader R) := {|
  fill_buf := queued_fill_buf;
  consume := queued_consume;
|}.

(** [self.next.send(reader)]: a reader nobody will receive is dropped. *)
Definition pass_on {E} (next : Sender R) (reader : R) : ST W E unit :=
  let! r := send next reader in
  match r with
  | inl _ => ret tt
  | inr reader => drop_value reader
  end.

(** [Drop::drop] followed by the destructors of the fields. *)
#[export] Instance QueuedReader_drop : Drop W (QueuedReader R) := fun E q =>
  match qr_reader q with
  | Some (Current reader) => pass_on (qr_next q) reader
  | Some (Waiting rx) =>
      let! reader := recv_unwrap rx in
      pass_on (qr_next q) reader;;;
      drop_receiver rx
  | None => ret tt
  end;;;
  drop_sender (qr_next q).

#[export] Instance ReadQueue_drop : Drop W (ReadQueue R) := fun E q =>
  match q with
  | Head reader => drop_value reader
  | Next rx => drop_receiver rx
  end.
End read_queue.

(** ** The queue and its handles as a transition system

    Any thread may hold any handle: the steps of the handles, of the queue and
    their order are arbitrary. [None] is a handle that was dropped. *)
Section system.
Context {R : Type} `{!Read (store R) R} `{!Drop (store R) R}.

Record system := {
  sys_queue : option (ReadQueue R);
  sys_handles : list (option (QueuedReader R));
  sys_store : store R;
}.

Definition system_init (r : R) : system := {|
  sys_queue := Some (ReadQueue_new r);
  sys_handles := [];
  sys_store := Build_store 0 ∅;
|}.

Inductive step : system -> system -> Prop :=
| step_enqueue q hs w h q' w' :
    enqueue (E := io_error) (q, w) = Ok h (q', w') ->
    step {| sys_queue := Some q; sys_handles := hs; sys_store := w |}
         {| sys_queue := Some q'; sys_handles := hs ++ [Some h]; sys_store := w' |}
| step_read q hs w i n h got h' w' :
    hs !! i = Some (Some h) -> read n (h, w) = Ok got (h', w') ->
    step {| sys_queue := q; sys_handles := hs; sys_store := w |}
         {| sys_queue := q; sys_handles := <[i := Some h']> hs; sys_store := w' |}
| step_read_error q hs w i n h e h' w' :
    hs !! i = Some (Some h) -> read n (h, w) = Err e (h', w') ->
    step {| sys_queue := q; sys_handles := hs; sys_store := w |}
         {| sys_queue := q; sys_handles := <[i := Some h']> hs; sys_store := w' |}
| step_drop q hs w i h w' :
    hs !! i = Some (Some h) -> drop_value (E := io_error) h w = Ok tt w' ->
    step {| sys_queue := q; sys_handles := hs; sys_store := w |}
         {| sys_queue := q; sys_handles := <[i := None]> hs; sys_store := w' |}
| step_drop_queue q hs w w' :
    drop_value (E := io_error) q w = Ok tt w' ->
    step {| sys_queue := Some q; sys_handles := hs; sys_store := w |}
         {| sys_queue := None; sys_handles := hs; sys_store := w' |}.

Definition reachable (r : R) (s : system) : Prop := rtc step (system_init r) s.

(** The reader in a handle can be used now. *)
Definition ready (h : QueuedReader R) (w : store R) (r : R) : Prop :=
  match qr_reader h with
  | Some (Current r') => r' = r
  | Some (Waiting c) => exists alive, chans w !! rx c = Some (Build_chan [r] alive true)
  | None => False
  end.

(** Readers that do not touch the store of channels and always answer. *)
Class LocalReader := {
  read_local n (r : R) (w : store R) :
    (exists got r', read n (r, w) = Ok got (r', w)) \/
    (exists e r', read n (r, w) = Err e (r', w));
  drop_local E (r : R) (w : store R) : drop_value (E := E) r w = Ok tt w;
}.

(** Handle [t] has the reader, or it is back at the queue when [t] is the number
    of handles; the handles before it are gone, those after it wait in order. *)
Record token_at (s : system) (t : nat) (r : R) : Prop := {
  token_le : t <= length (sys_handles s);
  token_next_chan : next_chan (sys_store s) = length (sys_handles s);
  token_before i : i < t -> sys_handles s !! i = Some None;
  token_after i :
    t < S i < length (sys_handles s) ->
    sys_handles s !! S i =
      Some (Some (Build_QueuedReader (Some (Waiting (Build_Receiver i))) (Build_Sender (S i))));
  token_chans i :
    t <= i < length (sys_handles s) ->
    exists alive, chans (sys_store s) !! i = Some (Build_chan [] true alive) /\
                  (S i < length (sys_handles s) \/ is_Some (sys_queue s) -> alive = true);
  token_holder :
    t < length (sys_handles s) ->
    exists h, sys_handles s !! t = Some (Some h) /\ qr_next h = Build_Sender t /\
              (forall c, qr_reader h = Some (Waiting c) -> S (rx c) = t) /\
              ready h (sys_store s) r;
  token_queue :
    match sys_queue s with
    | Some (Head r') => length (sys_handles s) = 0 /\ r' = r
    | Some (Next c) =>
        length (sys_handles s) = S (rx c) /\
        (t = length (sys_handles s) ->
         exists alive, chans (sys_store s) !! rx c = Some (Build_chan [r] alive true))
    | None => True
    end;
}.

Definition inv (s : system) : Prop := exists t r, token_at s t r.

(** *** What the operations do to the store *)
Implicit Types (w : store R) (h : QueuedReader R) (r : R).

(** The channels other than the one the handle waits on are untouched. *)
Definition chans_kept (h : QueuedReader R) (w w' : store R) : Prop :=
  next_chan w' = next_chan w /\
  forall i, (forall c, qr_reader h = Some (Waiting c) -> i <> rx c) ->
            chans w' !! i = chans w !! i.

Ltac store_ops :=
  unfold read, QueuedReader_read, drop_value, QueuedReader_drop, recv_unwrap, recv, pass_on,
    send, drop_receiver, drop_all, drop_sender, update_chan, the_store, bind, ret, get_state,
    zoom_l, zoom_r, attempt, on_current, enqueue, channel, put_state;
  cbn [get_store set_store store_has_store fst snd].

Lemma read_ready `{!LocalReader} n h w r :
  ready h w r ->
  exists r' w', chans_kept h w w' /\
    ((exists got, read n (h, w) = Ok got (Build_QueuedReader (Some (Current r')) (qr_next h), w')) \/
     (exists e, read n (h, w) = Err e (Build_QueuedReader (Some (Current r')) (qr_next h), w'))).
Proof.
  unfold ready, chans_kept. intros Hr. store_ops.
  destruct (qr_reader h) as [[r'|c]|]; [subst r'| |done].
  - destruct (read_local n r w) as [(got & r' & Hrd)|(e & r' & Hrd)];
      rewrite Hrd; exists r', w; eauto.
  - destruct Hr as [a Hc]. cbn [fst snd]. rewrite Hc. cbn.
    match goal with |- context [read n (r, ?w1)] => set (w1' := w1) end.
    assert (Hin : chans w1' !! rx c = Some (Build_chan [] a true)) by apply lookup_insert_eq.
    assert (Hout : forall i, i <> rx c -> chans w1' !! i = chans w !! i).
    { intros i Hi. by apply lookup_insert_ne. }
    assert (Hnc : next_chan w1' = next_chan w) by done.
    clearbody w1'.
    destruct (read_local n r w1') as [(got & r' & Hrd)|(e & r' & Hrd)];
      rewrite Hrd; cbn; rewrite Hin; cbn.
    all: eexists r', _; split; [|by eauto].
    all: split; [done|]; intros i Hi; cbn; specialize (Hi c eq_refl).
    all: rewrite lookup_insert_ne by done; by apply Hout.
Qed.

Lemma waits_blocks n h w c alive :
  qr_reader h = Some (Waiting c) ->
  chans w !! rx c = Some (Build_chan [] true alive) ->
  read n (h, w) = Block /\ drop_value (E := io_error) h w = Block.
Proof. intros Hh Hc. store_ops. rewrite Hh. cbn [fst snd]. by rewrite Hc. Qed.

Lemma drop_ready `{!LocalReader} h w r alive :
  ready h w r ->
  chans w !! tx (qr_next h) = Some (Build_chan [] true alive) ->
  (forall c, qr_reader h = Some (Waiting c) -> rx c <> tx (qr_next h)) ->
  exists w', drop_value (E := io_error) h w = Ok tt w' /\ next_chan w' = next_chan w /\
    chans w' !! tx (qr_next h) =
      Some (Build_chan (if alive : bool then [r] else []) false alive) /\
    forall i, i <> tx (qr_next h) ->
              (forall c, qr_reader h = Some (Waiting c) -> i <> rx c) ->
              chans w' !! i = chans w !! i.
Proof.
  unfold ready. intros Hr Hn Hne. store_ops.
  destruct (qr_reader h) as [[r'|c]|]; [subst r'| |done].
  - rewrite Hn. cbn. destruct alive; cbn.
    + rewrite lookup_insert_eq. cbn. eexists. split_and!; [done|done| |].
      * cbn. by rewrite lookup_insert_eq.
      * intros i Hi _. cbn. by rewrite !lookup_insert_ne.
    + rewrite drop_local, Hn. cbn. eexists. split_and!; [done|done| |].
      * cbn. by rewrite lookup_insert_eq.
      * intros i Hi _. cbn. by rewrite !lookup_insert_ne.
  - specialize (Hne c eq_refl). destruct Hr as [a Hc]. cbn [fst snd]. rewrite Hc. cbn.
    rewrite lookup_insert_ne, Hn by done. cbn. destruct alive; cbn.
    + rewrite lookup_insert_ne, lookup_insert_eq by done. cbn.
      rewrite lookup_insert_ne, lookup_insert_eq by done. cbn.
      eexists. split_and!; [done|done| |].
      * cbn. by rewrite lookup_insert_eq.
      * intros i Hi Hi'. cbn. specialize (Hi' c eq_refl). by rewrite !lookup_insert_ne.
    + rewrite drop_local. cbn.
      rewrite lookup_insert_eq. cbn. rewrite !lookup_insert_ne, Hn by done. cbn.
      eexists. split_and!; [done|done| |].
      * cbn. by rewrite lookup_insert_eq.
      * intros i Hi Hi'. cbn. specialize (Hi' c eq_refl). by rewrite !lookup_insert_ne.
Qed.

(** *** Every step keeps the token *)
Lemma token_init r : token_at (system_init r) 0 r.
Proof. split; cbn; try lia; done. Qed.

Lemma enqueue_eq (q : ReadQueue R) w :
  enqueue (E := io_error) (q, w) =
  Ok (Build_QueuedReader
        (Some (match q with Head reader => Current reader | Next c => Waiting c end))
        (Build_Sender (next_chan w)))
     (Next (Build_Receiver (next_chan w)),
      Build_store (S (next_chan w)) (<[next_chan w := Build_chan [] true true]> (chans w))).
Proof. store_ops. by destruct q. Qed.

Lemma token_enqueue q hs w h q' w' t r :
  token_at {| sys_queue := Some q; sys_handles := hs; sys_store := w |} t r ->
  enqueue (E := io_error) (q, w) = Ok h (q', w') ->
  token_at {| sys_queue := Some q'; sys_handles := hs ++ [Some h]; sys_store := w' |} t r.
Proof.
  intros [Hle Hnc Hbefore Hafter Hchans Hholder Hqueue] Henq.
  rewrite enqueue_eq in Henq. injection Henq as <- <- <-. cbn in *.
  split; cbn; rewrite ?length_app; cbn [length].
  - lia.
  - lia.
  - intros i Hi. rewrite lookup_app_l by lia. auto.
  - intros i Hi. destruct (decide (S i < length hs)).
    { rewrite lookup_app_l by lia. apply Hafter. lia. }
    rewrite list_lookup_middle by lia. rewrite Hnc.
    destruct q as [r'|[c]]; cbn in *; [lia|].
    destruct Hqueue as [Hc _]. assert (c = i) as -> by lia.
    by assert (length hs = S i) as -> by lia.
  - intros i Hi. rewrite Hnc. destruct (decide (i = length hs)) as [->|].
    { exists true. by rewrite lookup_insert_eq. }
    rewrite lookup_insert_ne by done.
    destruct (Hchans i ltac:(lia)) as (alive & Hi' & Halive). exists alive.
    split; [done|]. intros _. apply Halive. right. by eexists.
  - intros Hi. destruct (decide (t < length hs)) as [Ht|Ht].
    + destruct (Hholder Ht) as (h & Hh & Hn & Hc & Hr). exists h.
      rewrite lookup_app_l by lia. split_and!; try done.
      unfold ready in *. destruct (qr_reader h) as [[|c]|]; try done.
      destruct Hr as [a Ha]. exists a. cbn. specialize (Hc c eq_refl).
      by rewrite lookup_insert_ne by lia.
    + assert (t = length hs) as -> by lia. rewrite list_lookup_middle by done.
      eexists. split; [done|]. cbn. rewrite Hnc. split; [done|].
      destruct q as [r'|c]; cbn in *.
      * destruct Hqueue as [_ ->]. split; [done|]. done.
      * destruct Hqueue as [Hc Htok]. split; [by intros c' [= <-]|].
        destruct (Htok eq_refl) as [a Ha]. exists a. cbn.
        by rewrite lookup_insert_ne by lia.
  - split; [lia|]. intros ->. lia.
Qed.

(** A handle that is not dropped is the holder or waits for an earlier one. *)
Lemma token_live s t r i h :
  token_at s t r -> sys_handles s !! i = Some (Some h) ->
  (i = t /\ ready h (sys_store s) r /\ qr_next h = Build_Sender t /\
   (forall c, qr_reader h = Some (Waiting c) -> S (rx c) = t)) \/
  (t < i /\ exists j alive, i = S j /\ qr_reader h = Some (Waiting (Build_Receiver j)) /\
   chans (sys_store s) !! j = Some (Build_chan [] true alive)).
Proof.
  intros [Hle Hnc Hbefore Hafter Hchans Hholder Hqueue] Hi.
  assert (i < length (sys_handles s)) by (by eapply lookup_lt_Some).
  destruct (lt_eq_lt_dec i t) as [[Hlt| ->]|Hgt].
  - rewrite Hbefore in Hi by done. done.
  - left. destruct (Hholder ltac:(done)) as (h' & Hh & Hn & Hc & Hr).
    rewrite Hi in Hh. injection Hh as <-. done.
  - right. split; [done|]. destruct i as [|j]; [lia|].
    rewrite Hafter in Hi by lia. injection Hi as <-.
    destruct (Hchans j ltac:(lia)) as (alive & Hj & _). by exists j, alive.
Qed.

Lemma token_used q hs w i h w' r' t r :
  token_at {| sys_queue := q; sys_handles := hs; sys_store := w |} t r ->
  hs !! i = Some (Some h) -> t = i ->
  (forall c, qr_reader h = Some (Waiting c) -> S (rx c) = t) ->
  chans_kept h w w' ->
  token_at {| sys_queue := q;
              sys_handles :=
                <[i := Some (Build_QueuedReader (Some (Current r')) (qr_next h))]> hs;
              sys_store := w' |} t r'.
Proof.
  intros [Hle Hnc Hbefore Hafter Hchans Hholder Hqueue] Hi -> Hc [Hnc' Hkept]. cbn in *.
  assert (i < length hs) by (by eapply lookup_lt_Some).
  split; cbn; rewrite ?length_insert.
  - done.
  - lia.
  - intros j Hj. rewrite list_lookup_insert_ne by lia. auto.
  - intros j Hj. rewrite list_lookup_insert_ne by lia. auto.
  - intros j Hj. rewrite Hkept; [auto|]. intros c Hrc. specialize (Hc c Hrc). lia.
  - intros _. eexists. rewrite list_lookup_insert_eq by done. split; [done|]. cbn.
    destruct (Hholder ltac:(done)) as (h' & Hh & Hn & _ & _).
    rewrite Hi in Hh. injection Hh as <-. by rewrite Hn.
  - destruct q as [[r0|c]|]; [lia| |done].
    destruct Hqueue as [? _]. split; [done|lia].
Qed.

Lemma token_read `{!LocalReader} q hs w i n h h' w' t r :
  token_at {| sys_queue := q; sys_handles := hs; sys_store := w |} t r ->
  hs !! i = Some (Some h) ->
  (exists got, read n (h, w) = Ok got (h', w')) \/ (exists e, read n (h, w) = Err e (h', w')) ->
  exists r', token_at {| sys_queue := q; sys_handles := <[i := Some h']> hs;
                         sys_store := w' |} t r'.
Proof.
  intros Htok Hi Hrd.
  destruct (token_live _ _ _ _ _ Htok Hi) as
    [(-> & Hr & Hn & Hc)|(Ht & j & alive & -> & Hh & Hj)]; cbn in *.
  - destruct (read_ready n h w r Hr) as (r' & w'' & Hkept & Hres).
    exists r'. assert (h' = Build_QueuedReader (Some (Current r')) (qr_next h) /\ w' = w'')
      as [-> ->] by naive_solver congruence.
    by eapply token_used.
  - destruct (waits_blocks n h w _ alive Hh Hj) as [Hb _]. naive_solver congruence.
Qed.

Lemma token_drop `{!LocalReader} q hs w i h w' t r :
  token_at {| sys_queue := q; sys_handles := hs; sys_store := w |} t r ->
  hs !! i = Some (Some h) ->
  drop_value (E := io_error) h w = Ok tt w' ->
  token_at {| sys_queue := q; sys_handles := <[i := None]> hs; sys_store := w' |} (S t) r.
Proof.
  intros Htok Hi Hd.
  destruct (token_live _ _ _ _ _ Htok Hi) as
    [(-> & Hr & Hn & Hc)|(Ht & j & alive & -> & Hh & Hj)]; cbn in *.
  2: { destruct (waits_blocks 0 h w _ alive Hh Hj) as [_ Hb]. congruence. }
  destruct Htok as [Hle Hnc Hbefore Hafter Hchans Hholder Hqueue]; cbn in *.
  assert (Hlt : t < length hs) by (by eapply lookup_lt_Some).
  destruct (Hchans t ltac:(lia)) as (alive & Hch & Halive).
  destruct (drop_ready h w r alive Hr) as (w'' & Hd' & Hnc' & Hch' & Hkept).
  { by rewrite Hn. }
  { intros c Hw. rewrite Hn. cbn. specialize (Hc c Hw). lia. }
  rewrite Hn in Hch', Hkept. cbn in Hch', Hkept.
  assert (w'' = w') as -> by congruence.
  assert (Hsame : forall j, t < j -> chans w' !! j = chans w !! j).
  { intros j Hj. apply Hkept; [lia|]. intros c Hw. specialize (Hc c Hw). lia. }
  split; cbn; rewrite ?length_insert.
  - lia.
  - lia.
  - intros j Hj. destruct (decide (j = t)) as [->|].
    + by rewrite list_lookup_insert_eq.
    + rewrite list_lookup_insert_ne by done. apply Hbefore. lia.
  - intros j Hj. rewrite list_lookup_insert_ne by lia. apply Hafter. lia.
  - intros j Hj. rewrite Hsame by lia. apply Hchans. lia.
  - intros Hj. eexists. rewrite list_lookup_insert_ne by lia. split; [apply Hafter; lia|].
    cbn. split_and!; [done|by intros c [= <-]|].
    exists false. cbn. rewrite Hch'. rewrite Halive by (left; lia). done.
  - destruct q as [[r0|c]|]; [lia| |done].
    destruct Hqueue as [Hlen _]. split; [done|]. intros Ht'.
    exists false. assert (rx c = t) as -> by lia. rewrite Hch'.
    rewrite Halive by (right; by eexists). done.
Qed.

Lemma drop_all_local `{!LocalReader} {E} (rs : list R) w : drop_all (E := E) rs w = Ok tt w.
Proof.
  induction rs as [|r rs IH]; [done|]. cbn [drop_all]. unfold bind. by rewrite drop_local.
Qed.

Lemma token_drop_queue `{!LocalReader} (q : ReadQueue R) hs w w' t r :
  token_at {| sys_queue := Some q; sys_handles := hs; sys_store := w |} t r ->
  drop_value (E := io_error) q w = Ok tt w' ->
  token_at {| sys_queue := None; sys_handles := hs; sys_store := w' |} t r.
Proof.
  intros [Hle Hnc Hbefore Hafter Hchans Hholder Hqueue] Hd. cbn in *.
  unfold drop_value, ReadQueue_drop in Hd. destruct q as [r0|[c]]; cbn in *.
  - rewrite drop_local in Hd. injection Hd as <-. destruct Hqueue as [Hlen _].
    split; cbn; try done; intros; lia.
  - destruct Hqueue as [Hlen Htok]. unfold drop_receiver in Hd.
    assert (exists ch, chans w !! c = Some ch) as [ch Hch].
    { destruct (decide (t = length hs)) as [He|].
      - destruct (Htok He) as [a Ha]. eauto.
      - destruct (Hchans c ltac:(lia)) as (a & Ha & _). eauto. }
    unfold the_store, update_chan in Hd. cbn in Hd. rewrite Hch, drop_all_local in Hd.
    injection Hd as <-.
    split; cbn; try done.
    + intros i Hi. destruct (decide (i = c)) as [->|].
      * rewrite lookup_insert_eq. destruct (Hchans c Hi) as (a & Ha & _).
        rewrite Hch in Ha. injection Ha as ->. exists false. cbn. split; [done|].
        intros [?|[? ?]]; [lia|done].
      * rewrite lookup_insert_ne by done. destruct (Hchans i Hi) as (a & Ha & Halive).
        exists a. split; [done|]. intros [?|[? ?]]; [auto|done].
    + intros Ht. destruct (Hholder Ht) as (h & Hh & Hn & Hc & Hr). exists h.
      split_and!; try done. unfold ready in *.
      destruct (qr_reader h) as [[|c']|]; try done. destruct Hr as [a Ha]. exists a. cbn.
      specialize (Hc c' eq_refl). by rewrite lookup_insert_ne by lia.
Qed.

(** The invariant of the hand-off: in every reachable state exactly one place
    has the reader. *)
Lemma inv_reachable `{!LocalReader} r s : reachable r s -> inv s.
Proof.
  unfold reachable. assert (Hinv : inv (system_init r)) by (exists 0, r; apply token_init).
  revert Hinv. generalize (system_init r) as s0. intros s0 Hinv Hr.
  induction Hr as [|x1 x2 x3 Hstep _ IH]; [exact Hinv|].
  apply IH. destruct Hinv as (t & r' & Htok).
  destruct Hstep as [q hs w h q' w' He|q hs w i n h got h' w' Hi Hrd
                    |q hs w i n h e h' w' Hi Hrd|q hs w i h w' Hi Hd|q hs w w' Hd].
  - exists t, r'. by eapply token_enqueue.
  - destruct (token_read q hs w i n h h' w' t r' Htok Hi) as [r'' ?]; [eauto|].
    by exists t, r''.
  - destruct (token_read q hs w i n h h' w' t r' Htok Hi) as [r'' ?]; [eauto|].
    by exists t, r''.
  - exists (S t), r'. by eapply token_drop.
  - exists t, r'. by eapply token_drop_queue.
Qed.
End system.

(** ** The properties of the hand-off *)
Section handoff.
Context {R : Type} `{!Read (store R) R} `{!Drop (store R) R} `{!LocalReader (R := R)}.
Implicit Types (s : system (R := R)).

(** C21. for any interleaving of the steps of the queue and of its handles, a
    read (and likewise a drop) of handle [i] waits exactly while some earlier
    handle has not been dropped. *)
Theorem queued_read_waits_for_earlier r s i h n :
  reachable r s -> sys_handles s !! i = Some (Some h) ->
  (read n (h, sys_store s) = Block <->
   exists j h', j < i /\ sys_handles s !! j = Some (Some h')).
Proof.
  intros Hr Hi. destruct (inv_reachable r s Hr) as (t & r' & Htok).
  destruct (token_live s t r' i h Htok Hi) as
    [(-> & Hrd & _)|(Ht & j & alive & -> & Hh & Hj)].
  - split.
    + intros Hb. destruct (read_ready n h _ r' Hrd) as (? & ? & _ & [[? ?]|[? ?]]); congruence.
    + intros (j & h' & Hj & Hh'). by rewrite (token_before _ _ _ Htok) in Hh'.
  - split; [|intros _; by eapply waits_blocks].
    intros _. assert (S j < length (sys_handles s)) by (by eapply lookup_lt_Some).
    destruct (token_holder _ _ _ Htok ltac:(lia)) as (h' & Hh' & _). by exists t, h'.
Qed.

(** C22. at most one handle can read at any time. *)
Theorem queued_read_exclusive r s i j h h' n m :
  reachable r s ->
  sys_handles s !! i = Some (Some h) -> sys_handles s !! j = Some (Some h') ->
  read n (h, sys_store s) <> Block -> read m (h', sys_store s) <> Block ->
  i = j.
Proof.
  intros Hr Hi Hj Hni Hnj. destruct (inv_reachable r s Hr) as (t & r' & Htok).
  destruct (token_live s t r' i h Htok Hi) as [[-> _]|(_ & k & a & _ & Hh & Hk)].
  - destruct (token_live s t r' j h' Htok Hj) as [[-> _]|(_ & k & a & _ & Hh & Hk)]; [done|].
    by destruct (waits_blocks m h' _ _ a Hh Hk).
  - by destruct (waits_blocks n h _ _ a Hh Hk).
Qed.

(** C23. the [unwrap]s of the hand-off never fail, whatever the interleaving:
    a live handle can always be read and dropped, or waits. *)
Theorem queued_never_panics r s i h n :
  reachable r s -> sys_handles s !! i = Some (Some h) ->
  read n (h, sys_store s) <> Panic /\
  drop_value (E := io_error) h (sys_store s) <> Panic.
Proof.
  intros Hr Hi. destruct (inv_reachable r s Hr) as (t & r' & Htok).
  destruct (token_live s t r' i h Htok Hi) as
    [(-> & Hrd & Hn & Hc)|(Ht & j & alive & -> & Hh & Hj)].
  - assert (Hlt : t < length (sys_handles s)) by (by eapply lookup_lt_Some).
    destruct (token_chans _ _ _ Htok t ltac:(lia)) as (alive & Hch & _).
    split.
    + destruct (read_ready n h _ r' Hrd) as (? & ? & _ & [[? ?]|[? ?]]); congruence.
    + destruct (drop_ready h (sys_store s) r' alive Hrd) as (w' & Hd & _); [by rewrite Hn| |congruence].
      intros c Hw. rewrite Hn. cbn. specialize (Hc c Hw). lia.
  - destruct (waits_blocks n h _ _ alive Hh Hj) as [-> ->]. done.
Qed.
End handoff.
