(* ===== verification/QueueLaws.v ===== *)
(** * QueueLaws: a handle of the read queue is a lawful reader

    As long as it has the reader, or the reader is on its way to it, a
    [QueuedReader] delivers what the reader would; dropping it passes the reader on
    to the next handle at the position it has reached. *)
From stdpp Require Import base list gmap strings.
From Stdlib Require Import Strings.Byte NArith Lia.
From S2P Require Import Prelude Errors StdIo Mpsc ReadQueue.

(** A world with a store of channels for readers of type [R]: using the channels
    is not output, and output does not touch them. *)
Class StoreWorld (W R : Type) `{!World W} `{!HasStore W R} := {
  get_set (s : store R) (w : W) : get_store (set_store s w) = s;
  set_store_rstep (s : store R) (w : W) : rstep w (set_store s w);
  wstep_store (w w' : W) : wstep w w' -> get_store (T := R) w' = get_store w;
}.
#[export] Hint Mode StoreWorld ! ! - - : typeclass_instances.

(** The computation leaves the channels alone. *)
Definition keeps_store {W R A E} `{!HasStore W R} (m : ST (R * W) E A) : Prop :=
  forall r w, match m (r, w) with
              | Ok _ (_, w') | Err _ (_, w') => get_store (T := R) w' = get_store w
              | _ => True
              end.

(** Readers that have nothing to do with the channels. *)
Class StoreFree (W R : Type) `{!World W} `{!HasStore W R} `{!BufRead W R} `{!Drop W R}
    `{!BufReadLaws W R} := {
  holds_store (r : R) (w : W) (s : store R) bs fin : holds r w bs fin -> holds r (set_store s w) bs fin;
  alive_store (r : R) (w : W) (s : store R) : alive r w -> alive r (set_store s w);
  read_keeps n : keeps_store (read (W := W) (R := R) n);
  fill_buf_keeps : keeps_store (fill_buf (W := W) (R := R));
  consume_keeps n : keeps_store (consume (W := W) (R := R) n);
}.
#[export] Hint Mode StoreFree ! ! - - - - - : typeclass_instances.

Section queue_laws.
Context {W R : Type} `{!World W} `{!HasStore W R} `{!StoreWorld W R} `{!BufRead W R} `{!Drop W R}
  `{!BufReadLaws W R} `{!StoreFree W R}.
Implicit Types (r : R) (w : W) (q : QueuedReader R).

Definition chan_at (w : W) (i : nat) : option (chan R) := chans (the_store w) !! i.
Definition chan_count (w : W) : nat := next_chan (the_store (T := R) w).

(** What the handle whose own channel is [k] may do: read, and use the channels up
    to [k]. *)
Definition hstep (k : nat) (w w' : W) : Prop :=
  rstep w w' /\ (forall i, k < i -> chan_at w' i = chan_at w i) /\
  chan_count w' = chan_count w.

#[export] Instance hstep_preorder k : PreOrder (hstep k).
Proof.
  split; [by intros w|]. intros w1 w2 w3 (H1 & H2 & H3) (H1' & H2' & H3').
  split_and!; [by etrans|intros i Hi; by rewrite H2', H2|by rewrite H3'].
Qed.

Lemma hstep_store k w w' : rstep w w' -> get_store (T := R) w' = get_store w -> hstep k w w'.
Proof. unfold hstep, chan_at, chan_count, the_store. by intros Hw ->. Qed.

(** The world as this handle sees it. *)
Definition handle_world (k : nat) : World W := reading_world (hstep k).

(** What the hand-off changes for the handle whose own channel is [k]: nothing
    about that channel and about readers. *)
Definition frame (k : nat) (w w' : W) : Prop :=
  hstep k w w' /\ chan_at w' k = chan_at w k /\
  (forall r bs fin, holds r w bs fin -> holds r w' bs fin) /\
  (forall r, alive r w -> alive r w').

Lemma frame_refl k w : frame k w w.
Proof. by split_and!. Qed.

Lemma frame_trans k w1 w2 w3 : frame k w1 w2 -> frame k w2 w3 -> frame k w1 w3.
Proof.
  intros (H1 & H2 & H3 & H4) (H1' & H2' & H3' & H4').
  split_and!; [by etrans|by rewrite H2'|auto|auto].
Qed.

Lemma chan_at_update c (x : chan R) w i :
  chan_at (update_chan c x w) i = if decide (i = c) then Some x else chan_at w i.
Proof.
  unfold chan_at, update_chan, the_store. rewrite get_set. cbn.
  case_decide; [subst; apply lookup_insert_eq|by apply lookup_insert_ne].
Qed.

Lemma hstep_update k c (x : chan R) w : c <= k -> hstep k w (update_chan c x w).
Proof.
  intros Hle. split_and!; [apply set_store_rstep| |].
  - intros i Hi. rewrite chan_at_update, decide_False by lia. done.
  - unfold chan_count, update_chan, the_store. by rewrite get_set.
Qed.

Lemma frame_update k c (x : chan R) w : c < k -> frame k w (update_chan c x w).
Proof.
  intros Hlt. split_and!.
  - apply hstep_update. lia.
  - rewrite chan_at_update. by rewrite decide_False by lia.
  - intros. by apply holds_store.
  - intros. by apply alive_store.
Qed.

(** The reader of the handle: here, or on its way. *)
Definition with_reader (k : nat) q w (P : R -> Prop) : Prop :=
  match qr_reader q with
  | Some (Current r) => P r
  | Some (Waiting c) =>
      rx c < k /\ exists r a, chan_at w (rx c) = Some (Build_chan [r] a true) /\ P r
  | None => False
  end.

Lemma with_reader_mono k q w w' (P P' : R -> Prop) :
  with_reader k q w P -> get_store (T := R) w' = get_store w ->
  (forall r, P r -> P' r) -> with_reader k q w' P'.
Proof.
  unfold with_reader, chan_at, the_store. intros Hq -> HP.
  destruct (qr_reader q) as [[r|c]|]; [auto| |done].
  destruct Hq as (? & r & a & ? & ?). split; [done|]. exists r, a. auto.
Qed.

(** The handle whose own channel is [k], with a living next handle. *)
Definition owns (k : nat) (q : QueuedReader R) (w : W) : Prop :=
  qr_next q = Build_Sender k /\ chan_at w k = Some (Build_chan [] true true).

Definition q_holds (k : nat) q w bs fin : Prop :=
  owns k q w /\ with_reader k q w (fun r => holds r w bs fin).
Definition q_alive (k : nat) q w : Prop :=
  owns k q w /\ with_reader k q w (fun r => alive r w).
Definition q_passed (k : nat) w bs fin : Prop :=
  exists r, chan_at w k = Some (Build_chan [r] false true) /\ holds r w bs fin.

Lemma obtain k c w r a :
  rx c < k -> chan_at w (rx c) = Some (Build_chan [r] a true) ->
  exists w', (forall E, recv_unwrap (E := E) c w = Ok r w') /\ frame k w w' /\
             chan_at w' (rx c) = Some (Build_chan [] a true) /\
             forall i, i <> rx c -> chan_at w' i = chan_at w i.
Proof.
  intros Hne Hc. eexists. split_and!.
  - intros E. unfold recv_unwrap, bind, recv. unfold chan_at in Hc. rewrite Hc. cbn. reflexivity.
  - by apply frame_update.
  - rewrite chan_at_update. by rewrite decide_True.
  - intros i Hi. rewrite chan_at_update. by rewrite decide_False.
Qed.

Lemma drop_receiver_spec {E} k (c : Receiver R) w a a' :
  rx c < k -> chan_at w (rx c) = Some (Build_chan [] a a') ->
  wp (drop_receiver (E := E) c)
     (fun _ w' => frame k w w' /\ forall i, i <> rx c -> chan_at w' i = chan_at w i) never w.
Proof.
  intros Hne Hc. unfold wp, drop_receiver. unfold chan_at in Hc. rewrite Hc.
  cbn [queue drop_all sender_alive]. unfold ret. split; [by apply frame_update|]. intros i Hi. rewrite chan_at_update. by rewrite decide_False.
Qed.

Lemma drop_receiver_frame {E} k (c : Receiver R) w a a' :
  rx c < k -> chan_at w (rx c) = Some (Build_chan [] a a') ->
  wp (drop_receiver (E := E) c) (fun _ w' => frame k w w') never w.
Proof.
  intros Hne Hc. eapply wp_never_mono; [by eapply (drop_receiver_spec k c w)|].
  by intros [] w' [? _].
Qed.

Lemma on_current_spec {A} (m : ST (R * W) io_error A) q r w
    (Q : A -> R -> W -> Prop) (X : io_error -> R -> W -> Prop) :
  keeps_store m ->
  wp m (fun a '(r', w') => Q a r' w') (fun e '(r', w') => X e r' w') (r, w) ->
  wp (on_current m r)
     (fun a '(q', w') => exists r', q' = Build_QueuedReader (Some (Current r')) (qr_next q) /\
        Q a r' w' /\ get_store (T := R) w' = get_store w)
     (fun e '(q', w') => exists r', q' = Build_QueuedReader (Some (Current r')) (qr_next q) /\
        X e r' w' /\ get_store (T := R) w' = get_store w) (q, w).
Proof.
  intros Hk Hm. specialize (Hk r w). unfold wp, on_current in *.
  destruct (m (r, w)) as [a [r' w']|e [r' w']| | |]; try done.
  all: by exists r'.
Qed.

Lemma owns_store k q w w' r :
  owns k q w -> get_store (T := R) w' = get_store w ->
  owns k (Build_QueuedReader (Some (Current r)) (qr_next q)) w'.
Proof. unfold owns, chan_at, the_store. by intros [? ?] ->. Qed.

Lemma owns_frame k q w w' : owns k q w -> frame k w w' -> owns k q w'.
Proof. intros [Hn Hc] (_ & Hk & _). split; [done|]. by rewrite Hk. Qed.

(** *** Reading *)
Section handle.
Context (k : nat).

Lemma q_read_holds n q w bs fin :
  n <> 0 -> q_holds k q w bs fin ->
  wp (QueuedReader_read n)
     (fun got '(q', w') =>
        hstep k w w' /\ exists rest,
        bs = got ++ rest /\ length got <= n /\ q_holds k q' w' rest fin /\
        (got = [] -> bs = [] /\ fin = None))
     (fun e '(q', w') => hstep k w w' /\ bs = [] /\ fin = Some e /\ q_alive k q' w') (q, w).
Proof.
  intros Hn [Hown Hrd]. unfold QueuedReader_read. wp_step. wp_step. cbn [fst].
  unfold with_reader in Hrd. destruct (qr_reader q) as [[r|c]|] eqn:Hq; [| |done].
  - eapply wp_mono; [eapply on_current_spec; [apply read_keeps|by apply read_holds]| |].
    + intros got [q' w'] (r' & -> & (Hw & rest & -> & Hl & Hr' & Hnil) & Hst).
      split; [by apply hstep_store|]. exists rest. split_and!; [done|done| |done].
      split; [by eapply owns_store|done].
    + intros e [q' w'] (r' & -> & (Hw & -> & -> & Hal) & Hst).
      split_and!; [by apply hstep_store|done|done|]. split; [by eapply owns_store|done].
  - destruct Hrd as (Hne & r & a & Hc & Hr).
    destruct (obtain k c w r a Hne Hc) as (w1 & Hob & Hfr & Hc1 & Hi1).
    wp_step. apply wp_zoom_r. eapply wp_ok_intro; [apply Hob|].
    pose proof Hfr as (Hw1 & Hk1 & Hh1 & Ha1).
    assert (Hown1 : owns k q w1) by (by eapply owns_frame).
    wp_step. apply wp_attempt.
    assert (Hdrop : forall w2, get_store (T := R) w2 = get_store w1 ->
      wp (E := io_error) (drop_receiver c) (fun _ w' => frame k w2 w') never w2).
    { intros w2 Hst. apply (drop_receiver_frame k c w2 a true); [done|].
      unfold chan_at, the_store in *. by rewrite Hst. }
    eapply wp_mono; [eapply on_current_spec;
      [apply read_keeps|by apply read_holds, Hh1]| |].
    + intros got [q' w2] (r' & -> & (Hw & rest & -> & Hl & Hr' & Hnil) & Hst).
      wp_step. apply wp_zoom_r. eapply wp_never_mono; [by apply Hdrop|].
      intros [] w3 Hfr3. pose proof Hfr3 as (Hw3 & _ & Hh3 & _). apply wp_ret.
      split; [etrans; [exact Hw1|etrans; [by apply hstep_store|exact Hw3]]|]. exists rest. split_and!; [done|done| |done].
      split; [|by apply Hh3]. eapply owns_frame; [|done]. by eapply owns_store.
    + intros e [q' w2] (r' & -> & (Hw & -> & -> & Hal) & Hst).
      wp_step. apply wp_zoom_r. eapply wp_never_mono; [by apply Hdrop|].
      intros [] w3 Hfr3. pose proof Hfr3 as (Hw3 & _ & _ & Ha3). apply wp_fail.
      split_and!; [etrans; [exact Hw1|etrans; [by apply hstep_store|exact Hw3]]|done|done|].
      split; [|by apply Ha3]. eapply owns_frame; [|done]. by eapply owns_store.
Qed.

(** Taking the reader out of the channel, for [fill_buf] and [consume]. *)
Lemma settle_spec {A} (m : ST (R * W) io_error A) (c : Receiver R) q w r a
    (Q : A -> QueuedReader R * W -> Prop) (X : io_error -> QueuedReader R * W -> Prop) :
  owns k q w -> rx c < k -> chan_at w (rx c) = Some (Build_chan [r] a true) ->
  (forall w', frame k w w' ->
     wp (on_current m r) Q X (Build_QueuedReader (Some (Current r)) (qr_next q), w')) ->
  wp (let! reader := zoom_r (recv_unwrap c) in settle reader c;;; on_current m reader) Q X (q, w).
Proof.
  intros Hown Hne Hc Hm. destruct (obtain k c w r a Hne Hc) as (w1 & Hob & Hfr & Hc1 & Hi1).
  wp_step. apply wp_zoom_r. eapply wp_ok_intro; [apply Hob|].
  unfold settle. wp_step. wp_step. apply wp_zoom_l. wp_step.
  apply wp_zoom_r. eapply wp_never_mono; [by eapply (drop_receiver_frame k c w1)|].
  intros [] w2 Hfr2. apply Hm. by eapply frame_trans.
Qed.

Lemma q_alive_current r q w :
  owns k q w -> alive r w -> q_alive k (Build_QueuedReader (Some (Current r)) (qr_next q)) w.
Proof. intros [? ?] Ha. split; [by split|done]. Qed.

Lemma q_fill_buf_holds q w bs fin :
  q_holds k q w bs fin ->
  wp queued_fill_buf
     (fun avail '(q', w') =>
        hstep k w w' /\ (exists rest, bs = avail ++ rest) /\
        (avail = [] -> bs = [] /\ fin = None) /\
        forall n, n <= length avail ->
          wp (queued_consume n)
             (fun _ '(q'', w'') => hstep k w' w'' /\ q_holds k q'' w'' (drop n bs) fin)
             never (q', w'))
     (fun e '(q', w') => hstep k w w' /\ bs = [] /\ fin = Some e /\ q_alive k q' w') (q, w).
Proof.
  intros [Hown Hrd].
  assert (Hcur : forall r q w', owns k q w' -> holds r w' bs fin -> hstep k w w' ->
    wp (on_current fill_buf r)
     (fun avail '(q', w'') =>
        hstep k w w'' /\ (exists rest, bs = avail ++ rest) /\
        (avail = [] -> bs = [] /\ fin = None) /\
        forall n, n <= length avail ->
          wp (queued_consume n)
             (fun _ '(q'', w3) => hstep k w'' w3 /\ q_holds k q'' w3 (drop n bs) fin)
             never (q', w''))
     (fun e '(q', w'') => hstep k w w'' /\ bs = [] /\ fin = Some e /\ q_alive k q' w'')
     (q, w')).
  { clear q Hown Hrd. intros r q w1 Hown Hr Hw1.
    eapply wp_mono; [eapply on_current_spec;
      [apply fill_buf_keeps|by apply fill_buf_holds]| |].
    - intros avail [q' w2] (r' & -> & (Hw2 & Hpre & Hnil & Hcons) & Hst).
      split_and!; [by etrans; [|apply hstep_store]|done|done|]. intros n Hn.
      unfold queued_consume. wp_step. wp_step. cbn [fst qr_reader].
      set (q2 := Build_QueuedReader _ _).
      eapply wp_mono; [apply (on_current_spec (consume n) q2 r' w2
        (fun _ r3 w3 => rstep w2 w3 /\ holds r3 w3 (drop n bs) fin) (fun _ _ _ => False)
        (consume_keeps n))| |].
      + eapply wp_mono; [by apply Hcons|done|by intros e [? ?] []].
      + intros [] [q3 w3] (r3 & -> & (Hw3 & Hr3) & Hst3).
        split; [by apply hstep_store|].
        split; [|done]. eapply owns_store; [|done]. by eapply owns_store.
      + by intros e [q3 w3] (r3 & _ & [] & _).
    - intros e [q' w2] (r' & -> & (Hw2 & -> & -> & Hal) & Hst).
      split_and!; [by etrans; [|apply hstep_store]|done|done|].
      split; [by eapply owns_store|done]. }
  unfold queued_fill_buf. wp_step. wp_step. cbn [fst].
  unfold with_reader in Hrd. destruct (qr_reader q) as [[r|c]|] eqn:Hq; [| |done].
  - by apply Hcur.
  - destruct Hrd as (Hne & r & a & Hc & Hr). eapply settle_spec; [done|done|done|].
    intros w' (Hw' & Hk & Hh & _). apply Hcur; [|by apply Hh|done].
    destruct Hown as [? ?]. split; [done|]. by rewrite Hk.
Qed.

(** *** Dropping *)

(** The reader is sent to the next handle, then the channel is closed. *)
Lemma pass_on_spec {E} r w bs fin :
  chan_at w k = Some (Build_chan [] true true) ->
  wp (E := E) (pass_on (Build_Sender k) r)
     (fun _ w' => hstep k w w' /\ chan_at w' k = Some (Build_chan [r] true true) /\
        (holds r w bs fin -> holds r w' bs fin) /\
        forall c, c <> k -> chan_at w' c = chan_at w c)
     never w.
Proof.
  intros Hk. unfold pass_on, send, wp, bind. unfold chan_at in Hk. cbn [tx]. rewrite Hk.
  cbn. split_and!.
  - by apply hstep_update.
  - rewrite chan_at_update. by rewrite decide_True.
  - intros. by apply holds_store.
  - intros c Hne. rewrite chan_at_update. by rewrite decide_False.
Qed.

Lemma drop_sender_spec {E} r w bs fin :
  chan_at w k = Some (Build_chan [r] true true) ->
  wp (E := E) (drop_sender (T := R) (Build_Sender k))
     (fun _ w' => hstep k w w' /\ chan_at w' k = Some (Build_chan [r] false true) /\
        (holds r w bs fin -> holds r w' bs fin) /\
        forall c, c <> k -> chan_at w' c = chan_at w c) never w.
Proof.
  intros Hk. unfold drop_sender, wp. unfold chan_at in Hk. cbn [tx]. rewrite Hk.
  split_and!.
  - by apply hstep_update.
  - rewrite chan_at_update. by rewrite decide_True.
  - intros. by apply holds_store.
  - intros c Hne. rewrite chan_at_update. by rewrite decide_False.
Qed.

Lemma q_drop_spec {E} q w bs fin (P : R -> Prop) :
  owns k q w -> with_reader k q w P ->
  wp (drop_value (E := E) q)
     (fun _ w' => hstep k w w' /\ exists r, P r /\
        chan_at w' k = Some (Build_chan [r] false true) /\
        (holds r w bs fin -> holds r w' bs fin)) never w.
Proof.
  intros [Hn Hk] Hrd. unfold drop_value, QueuedReader_drop. rewrite Hn.
  unfold with_reader in Hrd. destruct (qr_reader q) as [[r|c]|]; [| |done].
  - wp_step. eapply wp_never_mono; [by apply (pass_on_spec r w bs fin)|].
    intros [] w1 (Hw1 & Hk1 & Hh1 & Hi1).
    eapply wp_never_mono; [by apply (drop_sender_spec r w1 bs fin)|].
    intros [] w2 (Hw2 & Hk2 & Hh2 & Hi2). split; [by etrans|]. exists r.
    split_and!; [done|done|auto].
  - destruct Hrd as (Hne & r & a & Hc & Hr).
    destruct (obtain k c w r a Hne Hc) as (w1 & Hob & Hfr & Hc1 & Hi1).
    pose proof Hfr as (Hw1 & Hk1 & Hh1 & _).
    wp_step. wp_step. eapply wp_ok_intro; [apply Hob|].
    wp_step. eapply wp_never_mono; [by apply (pass_on_spec r w1 bs fin); rewrite Hk1|].
    intros [] w2 (Hw2 & Hk2 & Hh2 & Hi2).
    eapply wp_never_mono; [eapply (drop_receiver_spec k c w2); [done|by rewrite Hi2 by lia]|].
    intros [] w3 ((Hw3 & Hk3 & Hh3 & _) & Hi3).
    eapply wp_never_mono; [apply (drop_sender_spec r w3 bs fin); by rewrite Hk3|].
    intros [] w4 (Hw4 & Hk4 & Hh4 & Hi4). split; [by do 3 (etrans; [eassumption|])|].
    exists r. split_and!; [done|done|auto].
Qed.

(** The contract of the handle whose own channel is [k]: [passed] is what the next
    handle finds. *)
Definition queued_read_laws :
  ReadLaws W (QueuedReader R) (HW := handle_world k) (HR := bufread_read).
Proof.
  refine (Build_ReadLaws W (QueuedReader R) (handle_world k) bufread_read _
    (q_holds k) (q_alive k) _ _ _ (q_passed k) _ _ _ _ _).
  - intros q w bs fin [Hown Hrd]. split; [done|].
    eapply with_reader_mono; [exact Hrd|done|]. intros r. apply holds_alive.
  - intros q w w' [[Hn Hk] Hrd] Hw. split.
    + split; [done|]. unfold chan_at, the_store in *. by rewrite (wstep_store w w').
    + eapply with_reader_mono; [exact Hrd|by apply wstep_store|]. intros r Hr.
      by apply (alive_wstep r w w').
  - intros E q w [Hown Hrd].
    eapply wp_never_mono; [by apply (q_drop_spec q w [] None (fun r => alive r w))|].
    by intros [] w' [? _].
  - intros w w' bs fin (r & Hk & Hr) Hw. exists r.
    split; [|by eapply holds_wstep]. unfold chan_at, the_store in *. by rewrite (wstep_store w w').
  - intros E q w bs fin [Hown Hrd].
    eapply wp_never_mono; [by apply (q_drop_spec q w bs fin (fun r => holds r w bs fin))|].
    intros [] w' (Hw & r & Hr & Hk & Hh). split; [done|]. exists r. auto.
  - intros q w w' bs fin [[Hn Hk] Hrd] Hw. split.
    + split; [done|]. unfold chan_at, the_store in *. by rewrite (wstep_store w w').
    + eapply with_reader_mono; [exact Hrd|by apply wstep_store|]. intros r Hr.
      by apply (holds_wstep r w w').
  - intros q w bs e [_ Hrd]. unfold with_reader in Hrd.
    destruct (qr_reader q) as [[r|c]|]; [by eapply fin_not_interrupted| |done].
    destruct Hrd as (_ & r & a & _ & Hr). by eapply fin_not_interrupted.
  - intros q w bs fin n. apply q_read_holds.
Defined.

Definition queued_bufread_laws :
  BufReadLaws W (QueuedReader R) (HW := handle_world k) (HB := QueuedReader_bufread).
Proof.
  refine (Build_BufReadLaws W (QueuedReader R) (handle_world k) QueuedReader_bufread _ queued_read_laws _).
  apply q_fill_buf_holds.
Defined.
End handle.

(** ** Properties *)

(** C20. Dropping a handle of the read queue hands the reader over where it stands:
    the next handle, which waited, delivers exactly the bytes the dropped handle had
    left unread. *)
Theorem drop_hands_over k k' q w bs fin :
  k < k' ->
  q_holds k q w bs fin ->
  chan_at w k' = Some (Build_chan [] true true) ->
  wp (drop_value (E := io_error) q)
     (fun _ w' => q_holds k'
        (Build_QueuedReader (Some (Waiting (Build_Receiver k))) (Build_Sender k')) w' bs fin)
     never w.
Proof.
  intros Hlt [Hown Hrd] Hk'.
  eapply wp_never_mono; [by apply (q_drop_spec k q w bs fin (fun r => holds r w bs fin))|].
  intros [] w' ((_ & Hi & _) & r & Hr & Hk & Hh). split.
  - split; [done|]. by rewrite Hi.
  - split; [done|]. exists r, false. auto.
Qed.

(** A handle delivers what the reader behind it would, whether it has the reader
    or receives it first: reading to the end yields exactly the bytes to come. *)
Theorem handle_reads_through k q w bs n :
  q_holds k q w bs None -> length bs < n ->
  wp (read_to_end n) (fun got '(q', w') => got = bs /\ q_holds k q' w' [] None) never (q, w).
Proof.
  intros Hq Hn.
  eapply wp_mono; [by apply (read_to_end_spec (ReadLaws0 := queued_read_laws k) n q w bs None)| |].
  - by intros got [q' w'] (_ & _ & -> & ?).
  - by intros e [q' w'] (_ & _ & ?).
Qed.
End queue_laws.
