(* ===== verification/HttpBody.v ===== *)
(** * HttpBody: the trait [HttpBody] of src/src/body/http_body.rs and its
    implementations for [()], [String], [&str], [&'static [u8]] and [Vec<u8>] *)
From stdpp Require Import base list strings.
From Stdlib Require Import Strings.Byte NArith Lia.
From S2P Require Import Prelude Errors StdIo HttpApi.

Section http_body.
Context `{!HttpApi} `{!Fuel}.

(** [enum Chunk] *)
Inductive Chunk :=
| Data (data : bytes)
| Trailers (te : HeaderMap).

(** [impl From<T: Into<Vec<u8>>> for Chunk] *)
Definition Chunk_from (chunk : bytes) : Chunk := Data chunk.

(** [Iterator<Item = io::Result<Chunk>>] *)
Class ChunkIter (W I : Type) := {
  next : ST (I * W) io_error (option (Chunk + io_error));
  chunk_iter_drop :: Drop W I;
}.

(** [trait HttpBody] *)
Class HttpBody (W B : Type) := {
  BReader : Type;
  BChunks : Type;
  reader_read :: Read W BReader;
  reader_drop :: Drop W BReader;
  chunks_iter :: ChunkIter W BChunks;
  body_drop :: Drop W B;
  len : B -> option N;
  into_reader : B -> ST W io_error BReader;
  into_chunks : B -> ST W io_error BChunks;
  into_bytes : B -> ST W io_error bytes;
}.

(** [HttpBody::is_empty] *)
Definition is_empty {W B} `{!HttpBody W B} (body : B) : bool :=
  bool_decide (len body = Some 0%N).

(** [self.into_reader().read_to_end(&mut buf)?]: the reader is a temporary, which
    is dropped when the call returns. *)
Definition read_all {W B} `{!HttpBody W B} (body : B) : ST W io_error bytes :=
  let! reader := into_reader body in
  let! (buf, reader) := borrow (read_to_end fuel) reader in
  drop_value reader;;;
  ret buf.

(** The provided [HttpBody::into_bytes] *)
Definition default_into_bytes {W B} `{!HttpBody W B} (body : B) : ST W io_error bytes :=
  alloc_vec (wrap64 (default 1024%N (len body)));;;
  read_all body.

(** [usize::try_into::<u64>().ok()] *)
Definition u64_try_from (n : nat) : option N :=
  if (N.of_nat n <? 2 ^ 64)%N then Some (N.of_nat n) else None.

(** ** The contracts of chunk iterators and bodies

    [produces it w P]: [it] is going to return, one by one and then [None], some
    sequence of items that satisfies [P]. A set of sequences, because how a
    stream splits into chunks is up to the stream. After [None] an iterator is
    only dropped: nothing says that it goes on returning [None]. *)
Class ChunkIterLaws (W I : Type) {HW : World W} {HI : ChunkIter W I} := {
  produces : I -> W -> (list (Chunk + io_error) -> Prop) -> Prop;
  produces_inhabited (it : I) (w : W) P : produces it w P -> exists items, P items;
  produces_mono (it : I) (w : W) (P Q : list (Chunk + io_error) -> Prop) :
    produces it w P -> (forall items, P items -> Q items) -> produces it w Q;
  produces_wstep (it : I) (w w' : W) P :
    produces it w P -> wstep w w' -> produces it w' P;
  iter_alive : I -> W -> Prop;
  produces_alive (it : I) (w : W) P : produces it w P -> iter_alive it w;
  iter_alive_wstep (it : I) (w w' : W) : iter_alive it w -> wstep w w' -> iter_alive it w';
  iter_alive_drop E (it : I) (w : W) :
    iter_alive it w -> wp (drop_value (E := E) it) (fun _ w' => rstep w w') never w;
  next_produces (it : I) (w : W) P :
    produces it w P ->
    wp next
       (fun o '(it', w') => rstep w w' /\
          match o with
          | None => P [] /\ iter_alive it' w'
          | Some item => produces it' w' (fun items => P (item :: items))
          end)
       never (it, w);
}.

Lemma produces_drop {W It} `{!World W} `{!ChunkIter W It} `{!ChunkIterLaws W It}
    E (it : It) (w : W) P :
  produces it w P -> wp (drop_value (E := E) it) (fun _ w' => rstep w w') never w.
Proof. intros Hit. by eapply iter_alive_drop, produces_alive. Qed.

(** [bytes_of], [reader_of] and [chunks_of] say what the three ways to consume
    the body produce. *)
Class HttpBodyLaws (W B : Type) {HW : World W} {HB : HttpBody W B} := {
  reader_laws :: ReadLaws W BReader;
  chunks_laws :: ChunkIterLaws W BChunks;
  bytes_of : B -> W -> bytes -> Prop;
  reader_of : B -> W -> bytes -> Prop;
  chunks_of : B -> W -> (list (Chunk + io_error) -> Prop) -> Prop;
  bytes_of_wstep (body : B) (w w' : W) bs :
    bytes_of body w bs -> wstep w w' -> bytes_of body w' bs;
  reader_of_wstep (body : B) (w w' : W) bs :
    reader_of body w bs -> wstep w w' -> reader_of body w' bs;
  chunks_of_wstep (body : B) (w w' : W) P :
    chunks_of body w P -> wstep w w' -> chunks_of body w' P;
  into_bytes_spec (body : B) (w : W) bs :
    bytes_of body w bs ->
    wp (into_bytes body) (fun got w' => rstep w w' /\ got = bs) never w;
  into_reader_spec (body : B) (w : W) bs :
    reader_of body w bs ->
    wp (into_reader body) (fun rd w' => rstep w w' /\ holds rd w' bs None) never w;
  into_chunks_spec (body : B) (w : W) P :
    chunks_of body w P ->
    wp (into_chunks body) (fun it w' => rstep w w' /\ produces it w' P) never w;
}.

Lemma chunks_inhabited {W B} `{!World W} `{!HttpBody W B} `{!HttpBodyLaws W B}
    (body : B) (w : W) P : chunks_of body w P -> exists items, P items.
Proof.
  intros Hc. pose proof (into_chunks_spec body w P Hc) as Hwp. unfold wp in Hwp.
  destruct (into_chunks body w) as [it w'|e w'| | |]; try done.
  destruct Hwp as [_ Hit]. by eapply produces_inhabited.
Qed.

(** The payload of a sequence of items: the bytes of its data chunks. *)
Definition item_data (item : Chunk + io_error) : bytes :=
  match item with inl (Data d) => d | _ => [] end.
Definition payload (items : list (Chunk + io_error)) : bytes :=
  concat (item_data <$> items).
(** ** [io::Empty], [iter::Empty] and [iter::Once] *)
Inductive IoEmpty := io_empty.
#[export] Instance IoEmpty_read {W} : Read W IoEmpty := fun _ st => Ok [] st.
#[export] Instance IoEmpty_drop {W} : Drop W IoEmpty := fun E _ => ret tt.

Inductive IterEmpty := iter_empty.
#[export] Instance IterEmpty_drop {W} : Drop W IterEmpty := fun E _ => ret tt.
#[export] Instance IterEmpty_iter {W} : ChunkIter W IterEmpty := {|
  next := fun st => Ok None st;
|}.

Record IterOnce := { once_item : option (Chunk + io_error) }.
#[export] Instance IterOnce_drop {W} : Drop W IterOnce := fun E _ => ret tt.
#[export] Instance IterOnce_iter {W} : ChunkIter W IterOnce := {|
  next := fun st => Ok (once_item st.1) ({| once_item := None |}, st.2);
|}.
Definition iter_once (item : Chunk + io_error) : IterOnce := {| once_item := Some item |}.

(** [std::vec::IntoIter] over the items, as [Body::from_iter] boxes it. *)
Abbreviation IterVec := (list (Chunk + io_error)).
#[export] Instance IterVec_drop {W} : Drop W IterVec := fun E _ => ret tt.
#[export] Instance IterVec_iter {W} : ChunkIter W IterVec := {|
  next := fun st => match st.1 with
                    | [] => Ok None st
                    | item :: l => Ok (Some item) (l, st.2)
                    end;
|}.

(** ** [impl HttpBody for ()] *)
#[export] Instance unit_drop {W} : Drop W () := fun E _ => ret tt.
Definition unit_len (_ : ()) : option N := Some 0%N.
Definition unit_into_reader {W} (_ : ()) : ST W io_error IoEmpty := ret io_empty.
Definition unit_into_bytes {W} (_ : ()) : ST W io_error bytes := ret [].
Definition unit_into_chunks {W} (_ : ()) : ST W io_error IterEmpty := ret iter_empty.
#[export] Instance unit_http_body {W} : HttpBody W () := {|
  len := unit_len;
  into_reader := unit_into_reader;
  into_bytes := unit_into_bytes;
  into_chunks := unit_into_chunks;
|}.

(** ** [impl HttpBody for String]: the [String] by its UTF-8 bytes *)
Record RString := { string_utf8 : bytes }.
#[export] Instance RString_drop {W} : Drop W RString := fun E _ => ret tt.
Definition string_len (s : RString) : option N := u64_try_from (length (string_utf8 s)).
Definition string_into_reader {W} (s : RString) : ST W io_error Cursor :=
  ret (Cursor_new (string_utf8 s)).
Definition string_into_bytes {W} (s : RString) : ST W io_error bytes := ret (string_utf8 s).
Definition string_into_chunks {W} (s : RString) : ST W io_error IterOnce :=
  ret (iter_once (inl (Chunk_from (string_utf8 s)))).
#[export] Instance string_http_body {W} : HttpBody W RString := {|
  len := string_len;
  into_reader := string_into_reader;
  into_bytes := string_into_bytes;
  into_chunks := string_into_chunks;
|}.

(** ** [impl HttpBody for &str] *)
Record Str := { str_bytes : bytes }.
#[export] Instance Str_drop {W} : Drop W Str := fun E _ => ret tt.
Definition str_len (s : Str) : option N := u64_try_from (length (str_bytes s)).
Definition str_into_reader {W} (s : Str) : ST W io_error Cursor :=
  ret (Cursor_new (str_bytes s)).
Definition str_into_bytes {W} (s : Str) : ST W io_error bytes := ret (str_bytes s).
Definition str_into_chunks {W} (s : Str) : ST W io_error IterOnce :=
  ret (iter_once (inl (Data (str_bytes s)))).
#[export] Instance str_http_body {W} : HttpBody W Str := {|
  len := str_len;
  into_reader := str_into_reader;
  into_bytes := str_into_bytes;
  into_chunks := str_into_chunks;
|}.

(** ** [impl HttpBody for &'static [u8]]: reading a slice advances it, as a
    [Cursor] does *)
Record Slice := { slice_bytes : bytes }.
#[export] Instance Slice_drop {W} : Drop W Slice := fun E _ => ret tt.
Definition slice_len (s : Slice) : option N := u64_try_from (length (slice_bytes s)).
Definition slice_into_reader {W} (s : Slice) : ST W io_error Cursor :=
  ret (Cursor_new (slice_bytes s)).
Definition slice_into_bytes {W} (s : Slice) : ST W io_error bytes := ret (slice_bytes s).
Definition slice_into_chunks {W} (s : Slice) : ST W io_error IterOnce :=
  ret (iter_once (inl (Chunk_from (slice_bytes s)))).
#[export] Instance slice_http_body {W} : HttpBody W Slice := {|
  len := slice_len;
  into_reader := slice_into_reader;
  into_bytes := slice_into_bytes;
  into_chunks := slice_into_chunks;
|}.

(** ** [impl HttpBody for Vec<u8>] *)
Record VecU8 := { vec_bytes : bytes }.
#[export] Instance VecU8_drop {W} : Drop W VecU8 := fun E _ => ret tt.
Definition vec_len (v : VecU8) : option N := u64_try_from (length (vec_bytes v)).
Definition vec_into_reader {W} (v : VecU8) : ST W io_error Cursor :=
  ret (Cursor_new (vec_bytes v)).
Definition vec_into_bytes {W} (v : VecU8) : ST W io_error bytes := ret (vec_bytes v).
Definition vec_into_chunks {W} (v : VecU8) : ST W io_error IterOnce :=
  ret (iter_once (inl (Chunk_from (vec_bytes v)))).
#[export] Instance vec_http_body {W} : HttpBody W VecU8 := {|
  len := vec_len;
  into_reader := vec_into_reader;
  into_bytes := vec_into_bytes;
  into_chunks := vec_into_chunks;
|}.

(** ** The implementations keep the contract *)
Section instances.
Context {W : Type} `{!World W}.

#[export, refine] Instance IoEmpty_laws : ReadLaws W IoEmpty := {|
  holds _ _ bs fin := bs = [] /\ fin = None;
  alive _ _ := True;
  passed _ _ _ := True;
|}.
Proof.
  all: try done.
  - intros. by apply wp_ret.
  - by intros r w bs e [_ ?].
  - intros r w bs fin n Hn [-> ->]. split; [done|]. exists [].
    split_and!; [done|simpl; lia|done|done|done].
Defined.

#[export, refine] Instance IterEmpty_laws : ChunkIterLaws W IterEmpty := {|
  produces _ _ P := P [];
  iter_alive _ _ := True;
|}.
Proof.
  all: first
    [ by eauto
    | intros; by apply wp_ret
    | intros it w P HP; unfold wp; simpl; by split_and! ].
Defined.

#[export, refine] Instance IterOnce_laws : ChunkIterLaws W IterOnce := {|
  produces it _ P := P (option_list (once_item it));
  iter_alive _ _ := True;
|}.
Proof.
  all: first
    [ by eauto
    | intros; by apply wp_ret
    | intros [[item|]] w P HP; unfold wp; simpl; by split_and! ].
Defined.

#[export, refine] Instance IterVec_laws : ChunkIterLaws W IterVec := {|
  produces it _ P := P it;
  iter_alive _ _ := True;
|}.
Proof.
  all: first
    [ by eauto
    | intros; by apply wp_ret
    | intros [|item it] w P HP; unfold wp; simpl; by split_and! ].
Defined.

(** All five bodies own their bytes and deliver them in one item, [()] in
    none. *)
Ltac owned_body_laws :=
  try done; intros; subst; apply wp_ret; split; (reflexivity || by split).

#[export] Instance unit_body_laws : HttpBodyLaws W ().
Proof.
  refine (Build_HttpBodyLaws W () _ unit_http_body IoEmpty_laws IterEmpty_laws
    (fun _ _ bs => bs = []) (fun _ _ bs => bs = []) (fun _ _ P => P [])
    _ _ _ _ _ _).
  all: owned_body_laws.
Defined.

#[export] Instance string_body_laws : HttpBodyLaws W RString.
Proof.
  refine (Build_HttpBodyLaws W RString _ string_http_body Cursor_read_laws IterOnce_laws
    (fun v _ bs => bs = string_utf8 v) (fun v _ bs => bs = string_utf8 v)
    (fun v _ P => P [inl (Data (string_utf8 v))]) _ _ _ _ _ _).
  all: owned_body_laws.
Defined.

#[export] Instance str_body_laws : HttpBodyLaws W Str.
Proof.
  refine (Build_HttpBodyLaws W Str _ str_http_body Cursor_read_laws IterOnce_laws
    (fun v _ bs => bs = str_bytes v) (fun v _ bs => bs = str_bytes v)
    (fun v _ P => P [inl (Data (str_bytes v))]) _ _ _ _ _ _).
  all: owned_body_laws.
Defined.

#[export] Instance slice_body_laws : HttpBodyLaws W Slice.
Proof.
  refine (Build_HttpBodyLaws W Slice _ slice_http_body Cursor_read_laws IterOnce_laws
    (fun v _ bs => bs = slice_bytes v) (fun v _ bs => bs = slice_bytes v)
    (fun v _ P => P [inl (Data (slice_bytes v))]) _ _ _ _ _ _).
  all: owned_body_laws.
Defined.

#[export] Instance vec_body_laws : HttpBodyLaws W VecU8.
Proof.
  refine (Build_HttpBodyLaws W VecU8 _ vec_http_body Cursor_read_laws IterOnce_laws
    (fun v _ bs => bs = vec_bytes v) (fun v _ bs => bs = vec_bytes v)
    (fun v _ P => P [inl (Data (vec_bytes v))]) _ _ _ _ _ _).
  all: owned_body_laws.
Defined.
End instances.
End http_body.

#[export] Hint Mode ChunkIter - ! ! : typeclass_instances.
#[export] Hint Mode HttpBody - ! ! : typeclass_instances.
#[export] Hint Mode ChunkIterLaws - ! ! - - : typeclass_instances.
#[export] Hint Mode HttpBodyLaws - ! ! - - : typeclass_instances.

(** The vector iterator of [Body::from_iter], for clients. *)
Abbreviation IterVec := (list (Chunk + io_error)).
