(* ===== verification/BytesBody.v ===== *)
(** * BytesBody: [HttpBody] for [Bytes] and [BytesMut] of src/src/body/http_body.rs

    The two buffers are types of the crate bytes; what the implementations use of
    them is the class [BytesBuf]. *)
From stdpp Require Import base list strings.
From Stdlib Require Import Strings.Byte NArith Lia.
From S2P Require Import Prelude Errors StdIo HttpApi HttpBody.

(** [len], [to_vec], [reader] and the conversion into [Vec<u8>] of a buffer [T] *)
Class BytesBuf (T : Type) := {
  BufReaderOf : Type;
  buf_read {W} :: Read W BufReaderOf;
  buf_reader_drop {W} :: Drop W BufReaderOf;
  buf_drop {W} :: Drop W T;
  buf_len : T -> nat;
  buf_to_vec : T -> bytes;
  buf_reader : T -> BufReaderOf;
  buf_into_vec : T -> bytes;
}.
#[export] Hint Mode BytesBuf ! : typeclass_instances.

(** A buffer is its bytes: its length is theirs, both conversions copy them, and its
    reader reads them and ends. *)
Class BytesBufLaws (W T : Type) {HW : World W} {HT : BytesBuf T} := {
  buf_read_laws :: ReadLaws W BufReaderOf;
  buf_len_to_vec (t : T) : buf_len t = length (buf_to_vec t);
  buf_into_vec_to_vec (t : T) : buf_into_vec t = buf_to_vec t;
  buf_reader_holds (t : T) (w : W) : holds (buf_reader t) w (buf_to_vec t) None;
}.

Section bytes_body.
Context `{!HttpApi} `{!Fuel} {W Bytes BytesMut : Type}.
Context `{!BytesBuf Bytes} `{!BytesBuf BytesMut}.

(** ** [impl HttpBody for Bytes] *)
Definition bytes_len (t : Bytes) : option N := u64_try_from (buf_len t).
Definition bytes_into_reader (t : Bytes) : ST W io_error (BufReaderOf (T := Bytes)) :=
  ret (buf_reader t).
Definition bytes_into_bytes (t : Bytes) : ST W io_error bytes := ret (buf_to_vec t).
Definition bytes_into_chunks (t : Bytes) : ST W io_error IterOnce :=
  ret (iter_once (inl (Chunk_from (buf_into_vec t)))).
#[export] Instance bytes_http_body : HttpBody W Bytes := {|
  len := bytes_len;
  into_reader := bytes_into_reader;
  into_bytes := bytes_into_bytes;
  into_chunks := bytes_into_chunks;
|}.

(** ** [impl HttpBody for BytesMut] *)
Definition bytes_mut_len (t : BytesMut) : option N := u64_try_from (buf_len t).
Definition bytes_mut_into_reader (t : BytesMut)
  : ST W io_error (BufReaderOf (T := BytesMut)) := ret (buf_reader t).
Definition bytes_mut_into_bytes (t : BytesMut) : ST W io_error bytes := ret (buf_to_vec t).
Definition bytes_mut_into_chunks (t : BytesMut) : ST W io_error IterOnce :=
  ret (iter_once (inl (Chunk_from (buf_into_vec t)))).
Definition bytes_mut_http_body : HttpBody W BytesMut := {|
  len := bytes_mut_len;
  into_reader := bytes_mut_into_reader;
  into_bytes := bytes_mut_into_bytes;
  into_chunks := bytes_mut_into_chunks;
|}.
End bytes_body.

(** ** Both keep the contract of a body *)
Section laws.
Context `{!HttpApi} `{!Fuel} {W T : Type} `{!World W} `{!BytesBuf T} `{!BytesBufLaws W T}.

Lemma bytes_len_spec (t : T) : bytes_len t = u64_try_from (length (buf_to_vec t)).
Proof. unfold bytes_len. by rewrite (buf_len_to_vec (W := W)). Qed.

#[export] Instance bytes_body_laws : HttpBodyLaws W T (HB := bytes_http_body).
Proof.
  refine (Build_HttpBodyLaws W T _ bytes_http_body buf_read_laws IterOnce_laws
    (fun t _ bs => bs = buf_to_vec t) (fun t _ bs => bs = buf_to_vec t)
    (fun t _ P => P [inl (Data (buf_to_vec t))]) _ _ _ _ _ _).
  all: try done; intros t w.
  - intros bs ->. split; [done|apply buf_reader_holds].
  - intros P HP. split; [done|]. cbn. by rewrite (buf_into_vec_to_vec (W := W)).
Defined.
End laws.
