(* ===== verification/Body.v ===== *)
(** * Body: the streaming bodies of src/src/body.rs

    [Body I R] is [Body] with the boxed iterator of type [I] and the boxed reader
    of type [R]. *)
From stdpp Require Import base list gmap strings.
From Stdlib Require Import Strings.Byte NArith Lia.
From S2P Require Import Prelude Errors StdIo HttpApi Mpsc HttpBody.

(** [enum BodyInner], [struct Body] *)
Inductive BodyInner (I R : Type) :=
| Empty
| Buffered (buf : bytes)
| Iter (chunks : I)
| Reader (stream : R) (length : option N).
Arguments Empty {I R}.
Arguments Buffered {I R} buf.
Arguments Iter {I R} chunks.
Arguments Reader {I R} stream length.

Record Body (I R : Type) := MkBody { body_0 : option (BodyInner I R) }.
Arguments MkBody {I R} body_0.
Arguments body_0 {I R} b.

(** [enum BodyReaderInner] *)
Inductive BodyReader (I R : Type) :=
| BRBuffered (cursor : Cursor)
| BRIter (iter : I) (leftover : option Cursor)
| BRReader (reader : Take R).
Arguments BRBuffered {I R} cursor.
Arguments BRIter {I R} iter leftover.
Arguments BRReader {I R} reader.

(** [enum ChunkIteratorInner], [struct ChunkIterator] *)
Inductive ChunkIteratorInner (I R : Type) :=
| CISingle (buf : bytes)
| CIIter (iter : I)
| CIReader (reader : R) (length : option N).
Arguments CISingle {I R} buf.
Arguments CIIter {I R} iter.
Arguments CIReader {I R} reader length.

Record ChunkIterator (I R : Type) := MkChunkIterator {
  chunk_iterator_0 : option (ChunkIteratorInner I R)
}.
Arguments MkChunkIterator {I R} chunk_iterator_0.
Arguments chunk_iterator_0 {I R} c.

(** [io::sink()] *)
Inductive Sink := io_sink.
#[export] Instance Sink_write {W} : Write W Sink := {|
  write_all _ := ret tt;
  flush := ret tt;
|}.

Section body.
Context `{!HttpApi} `{!Fuel} {W I R : Type}.
Context `{!ChunkIter W I} `{!Read W R} `{!Drop W R}.

(** ** Constructors *)
Definition Body_default : Body I R := MkBody None.
Definition Body_empty : Body I R := MkBody (Some Empty).
Definition Body_from_iter (chunks : I) : Body I R := MkBody (Some (Iter chunks)).
Definition Body_from_reader (reader : R) (length : option N) : Body I R :=
  MkBody (Some (Reader reader length)).
(** [From<Vec<u8>>], [From<&[u8]>], [From<&str>], [From<String>] *)
Definition Body_from_vec (body : bytes) : Body I R := MkBody (Some (Buffered body)).

(** [TryFrom<File>]: [meta] is what [file.metadata()] returns, [is_file] and the
    length. *)
Definition Body_try_from_file (file : R) (meta : (bool * N) + io_error)
  : Body I R + io_error :=
  match meta with
  | inl (true, len) => inl (Body_from_reader file (Some (wrap64 len)))
  | inl (false, _) => inr (io_other "not a file")
  | inr err => inr err
  end.

(** [TryFrom<PathBuf>]: [opened] is what [File::open(path)] returns, with the
    metadata of the file. *)
Definition Body_try_from_path (opened : (R * ((bool * N) + io_error)) + io_error)
  : Body I R + io_error :=
  match opened with
  | inl (file, meta) => Body_try_from_file file meta
  | inr err => inr err
  end.

(** ** [impl HttpBody for Body] *)
Definition body_len (body : Body I R) : option N :=
  match body_0 body with
  | Some Empty => Some 0%N
  | Some (Buffered bs) => Some (wrap64 (N.of_nat (length bs)))
  | Some (Iter _) => None
  | Some (Reader _ (Some len)) => Some (wrap64 len)
  | Some (Reader _ None) => None
  | None => None
  end.

(** [take().unwrap()] *)
Definition unwrap_inner (body : Body I R) : ST W io_error (BodyInner I R) :=
  match body_0 body with Some inner => ret inner | None => panic end.

(** [next] of [chunks.filter_map(..)]: data chunks and errors pass, trailers are
    skipped. *)
Fixpoint data_next_loop (n : nat) : ST (I * W) io_error (option (bytes + io_error)) :=
  match n with
  | O => no_fuel
  | S n =>
      let! chunk := next in
      match chunk with
      | Some (inl (Data data)) => ret (Some (inl data))
      | Some (inl (Trailers _)) => data_next_loop n
      | Some (inr err) => ret (Some (inr err))
      | None => ret None
      end
  end.
Definition data_next : ST (I * W) io_error (option (bytes + io_error)) :=
  data_next_loop fuel.

Definition body_into_reader (body : Body I R) : ST W io_error (BodyReader I R) :=
  let! inner := unwrap_inner body in
  match inner with
  | Empty => ret (BRBuffered (Cursor_new []))
  | Buffered bs => ret (BRBuffered (Cursor_new bs))
  | Iter chunks =>
      let! (first, chunks) := borrow data_next chunks in
      let cursor :=
        (fun chunk : bytes + io_error =>
           Cursor_new (match chunk with inl data => data | inr _ => [] end)) <$> first in
      ret (BRIter chunks cursor)
  | Reader stream (Some len) => ret (BRReader (Build_Take stream (Some (wrap64 len))))
  | Reader stream None => ret (BRReader (Build_Take stream None))
  end.

(** [collect::<io::Result<Vec<_>>>()] of the filtered chunks *)
Fixpoint collect_data (n : nat) : ST (I * W) io_error (list bytes) :=
  match n with
  | O => no_fuel
  | S n =>
      let! chunk := data_next in
      match chunk with
      | Some (inl data) => let! rest := collect_data n in ret (data :: rest)
      | Some (inr err) => fail err
      | None => ret []
      end
  end.

Definition body_into_bytes (body : Body I R) : ST W io_error bytes :=
  let! inner := unwrap_inner body in
  match inner with
  | Empty => ret []
  | Buffered bs => ret bs
  | Iter chunks =>
      let! (all, chunks) := borrow (collect_data fuel) chunks in
      drop_value chunks;;;
      ret (concat all)
  | Reader stream (Some len) =>
      alloc_vec len;;;
      let! (buf, take) :=
        borrow (read_to_end fuel) (Build_Take stream (Some (wrap64 len))) in
      drop_value take;;;
      ret buf
  | Reader stream None =>
      let! (buf, take) := borrow (read_to_end fuel) (Build_Take stream None) in
      drop_value take;;;
      ret buf
  end.

Definition body_into_chunks (body : Body I R) : ST W io_error (ChunkIterator I R) :=
  let! inner := unwrap_inner body in
  match inner with
  | Empty => ret (MkChunkIterator None)
  | Buffered bs => ret (MkChunkIterator (Some (CISingle bs)))
  | Iter chunks => ret (MkChunkIterator (Some (CIIter chunks)))
  | Reader reader len => ret (MkChunkIterator (Some (CIReader reader len)))
  end.

(** ** [impl Drop for Body]

    A body that was not consumed reads its stream to the end of the body, then
    lets go of the stream. The result of [io::copy] is ignored. *)
Definition drain_and_drop {E} (take : Take R) : ST W E unit :=
  fun w =>
    match io_copy fuel 0 (take, (io_sink, w)) with
    | Ok _ (take, (_, w)) => drop_value take w
    | Err _ (take, (_, w)) => drop_value take w
    | Panic => Panic | Block => Block | NoFuel => NoFuel
    end.

Definition body_drop_impl {E} (body : Body I R) : ST W E unit :=
  match body_0 body with
  | Some (Reader stream (Some len)) =>
      drain_and_drop (Build_Take stream (Some (wrap64 len)))
  | Some (Reader stream None) => drain_and_drop (Build_Take stream None)
  | Some (Iter chunks) => drop_value chunks
  | Some Empty | Some (Buffered _) | None => ret tt
  end.

#[export] Instance Body_drop : Drop W (Body I R) := fun E => body_drop_impl.

(** ** [impl Read for BodyReader] *)

(** [BodyReader::from_reader], [BodyReader::from_iter] and [From<Vec<u8>>] *)
Definition BodyReader_from_iter (iter : list bytes) : BodyReader (list (Chunk + io_error)) R :=
  match iter with
  | [] => BRIter [] None
  | first :: iter => BRIter ((fun data => inl (Data data)) <$> iter) (Some (Cursor_new first))
  end.
Definition BodyReader_from_reader (reader : R) : BodyReader I R :=
  BRReader (Build_Take reader None).
Definition BodyReader_from_vec (buf : bytes) : BodyReader I R :=
  BRBuffered (Cursor_new buf).

(** [impl From<Body> for BodyReader] *)
Definition BodyReader_from_body (body : Body I R) : ST W io_error (BodyReader I R) :=
  let! inner := unwrap_inner body in
  match inner with
  | Empty => ret (BodyReader_from_vec [])
  | Buffered bs => ret (BodyReader_from_vec bs)
  | Iter chunks =>
      let! (first, chunks) := borrow data_next chunks in
      let cursor :=
        (fun chunk : bytes + io_error =>
           Cursor_new (match chunk with inl data => data | inr _ => [] end)) <$> first in
      ret (BRIter chunks cursor)
  | Reader stream (Some len) => ret (BRReader (Build_Take stream (Some (wrap64 len))))
  | Reader stream None => ret (BRReader (Build_Take stream None))
  end.

(** The loop of [BodyReader::read] on an iterator: [n] bytes are asked for. *)
Fixpoint iter_read_loop (k n : nat) (leftover : option Cursor)
  : ST (I * W) io_error (bytes * option Cursor) :=
  match k with
  | O => no_fuel
  | S k =>
      match leftover with
      | None => ret ([], None)
      | Some cursor =>
          let got := take n (cursor_rest cursor) in
          let cursor := {| cursor_rest := drop n (cursor_rest cursor) |} in
          match got with
          | _ :: _ => ret (got, Some cursor)
          | [] =>
              let! chunk := data_next in
              iter_read_loop k n
                (match chunk with
                 | Some (inl data) => Some (Cursor_new data)
                 | Some (inr _) | None => None
                 end)
          end
      end
  end.

#[export] Instance BodyReader_read : Read W (BodyReader I R) :=
  fun n st =>
    let '(rd, w) := st in
    match rd with
    | BRBuffered cursor =>
        match read n (cursor, w) with
        | Ok got (cursor, w) => Ok got (BRBuffered cursor, w)
        | Err e (cursor, w) => Err e (BRBuffered cursor, w)
        | Panic => Panic | Block => Block | NoFuel => NoFuel
        end
    | BRReader take =>
        match read n (take, w) with
        | Ok got (take, w) => Ok got (BRReader take, w)
        | Err e (take, w) => Err e (BRReader take, w)
        | Panic => Panic | Block => Block | NoFuel => NoFuel
        end
    | BRIter iter leftover =>
        match iter_read_loop fuel n leftover (iter, w) with
        | Ok (got, leftover) (iter, w) => Ok got (BRIter iter leftover, w)
        | Err e (iter, w) => Err e (BRIter iter leftover, w)
        | Panic => Panic | Block => Block | NoFuel => NoFuel
        end
    end.

#[export] Instance BodyReader_drop : Drop W (BodyReader I R) := fun E rd =>
  match rd with
  | BRBuffered _ => ret tt
  | BRIter iter _ => drop_value iter
  | BRReader take => drop_value take
  end.

(** ** [impl Iterator for ChunkIterator] *)
Definition ChunkIterator_from_reader (reader : R) (length : option N)
  : ChunkIterator I R :=
  MkChunkIterator (Some (CIReader reader length)).

(** [usize::checked_sub] *)
Definition checked_sub (n m : N) : option N :=
  if (m <=? n)%N then Some (n - m)%N else None.

(** [self.0.take()] leaves [None]: the source is dropped unless it is put back. *)
Definition chunk_iterator_next
  : ST (ChunkIterator I R * W) io_error (option (Chunk + io_error)) :=
  fun st =>
    let '(self, w) := st in
    match chunk_iterator_0 self with
    | None => Ok None (self, w)
    | Some (CISingle bs) => Ok (Some (inl (Chunk_from bs))) (MkChunkIterator None, w)
    | Some (CIIter iter) =>
        match next (iter, w) with
        | Ok (Some (inl item)) (iter, w) =>
            Ok (Some (inl item)) (MkChunkIterator (Some (CIIter iter)), w)
        | Ok (Some (inr _)) (iter, w) | Ok None (iter, w) | Err _ (iter, w) =>
            zoom_r (drop_value iter;;; ret None) (MkChunkIterator None, w)
        | Panic => Panic | Block => Block | NoFuel => NoFuel
        end
    | Some (CIReader reader (Some len)) =>
        match read DEFAULT_BUF_SIZE (reader, w) with
        | Ok [] (reader, w) => zoom_r (drop_value reader;;; ret None) (MkChunkIterator None, w)
        | Ok got (reader, w) =>
            let item := Some (inl (Chunk_from got)) in
            match checked_sub len (N.of_nat (length got)) with
            | Some (N.pos rem) =>
                Ok item (MkChunkIterator (Some (CIReader reader (Some (N.pos rem)))), w)
            | _ => zoom_r (drop_value reader;;; ret item) (MkChunkIterator None, w)
            end
        | Err err (reader, w) =>
            zoom_r (drop_value reader;;; ret (Some (inr err))) (MkChunkIterator None, w)
        | Panic => Panic | Block => Block | NoFuel => NoFuel
        end
    | Some (CIReader reader None) =>
        match read DEFAULT_BUF_SIZE (reader, w) with
        | Ok [] (reader, w) => zoom_r (drop_value reader;;; ret None) (MkChunkIterator None, w)
        | Ok got (reader, w) =>
            Ok (Some (inl (Chunk_from got))) (MkChunkIterator (Some (CIReader reader None)), w)
        | Err err (reader, w) =>
            zoom_r (drop_value reader;;; ret (Some (inr err))) (MkChunkIterator None, w)
        | Panic => Panic | Block => Block | NoFuel => NoFuel
        end
    end.

#[export] Instance ChunkIterator_drop : Drop W (ChunkIterator I R) := fun E it =>
  match chunk_iterator_0 it with
  | None | Some (CISingle _) => ret tt
  | Some (CIIter iter) => drop_value iter
  | Some (CIReader reader _) => drop_value reader
  end.

#[export] Instance ChunkIterator_iter : ChunkIter W (ChunkIterator I R) := {|
  next := chunk_iterator_next;
|}.

#[export] Instance Body_http_body : HttpBody W (Body I R) := {|
  BReader := BodyReader I R;
  BChunks := ChunkIterator I R;
  len := body_len;
  into_reader := body_into_reader;
  into_bytes := body_into_bytes;
  into_chunks := body_into_chunks;
|}.
End body.

(** ** [BodyChannel] *)
Section channel.
Context `{!HttpApi} {W : Type} `{!HasStore W (Chunk + io_error)}.

(** The receiving end boxed by [Body::channel]: an iterator that waits for the
    next message. *)
Abbreviation BodyReceiver := (Receiver (Chunk + io_error)).

#[export] Instance item_drop : Drop W (Chunk + io_error) := fun E _ => ret tt.
#[export] Instance BodyReceiver_drop : Drop W BodyReceiver := fun E r => drop_receiver r.
#[export] Instance BodyReceiver_iter : ChunkIter W BodyReceiver := {|
  next := fun st => zoom_r (recv st.1) st;
|}.

Record BodyChannel := { body_channel_0 : Sender (Chunk + io_error) }.

Definition Body_channel {E} {R : Type} : ST W E (BodyChannel * Body BodyReceiver R) :=
  let! (tx, rx) := channel in
  ret ({| body_channel_0 := tx |}, MkBody (Some (Iter rx))).

Definition send_item (self : BodyChannel) (item : Chunk + io_error) : ST W io_error unit :=
  let! r := send (body_channel_0 self) item in
  match r with
  | inl _ => ret tt
  | inr _ => fail (io_other "body closed")
  end.

(** [BodyChannel::send] *)
Definition channel_send (self : BodyChannel) (data : bytes) : ST W io_error unit :=
  send_item self (inl (Chunk_from data)).

(** [BodyChannel::send_trailers] *)
Definition channel_send_trailers (self : BodyChannel) (trailers : HeaderMap)
  : ST W io_error unit :=
  send_item self (inl (Trailers trailers)).

(** [BodyChannel::send_trailer]: [header] and [value] are the results of the two
    [try_into]s. *)
Definition channel_send_trailer (self : BodyChannel) (header value : bytes + boxed_error)
  : ST W boxed_error unit :=
  match header, value with
  | inr err, _ => fail err
  | inl _, inr err => fail err
  | inl header, inl value =>
      let trailers := hm_insert header value hm_new in
      map_err BoxedIo (channel_send_trailers self trailers)
  end.

(** [BodyChannel::abort] consumes the sender: it is dropped at the end. *)
Definition channel_abort {E} (self : BodyChannel) : ST W E unit :=
  let! _ := result_ok (send_item self (inr (io_other "aborted"))) in
  drop_sender (body_channel_0 self).

(** Dropping the channel closes the body. *)
Definition channel_drop {E} (self : BodyChannel) : ST W E unit :=
  drop_sender (body_channel_0 self).
End channel.
