(* ===== verification/BodyLaws.v ===== *)
(** * BodyLaws: the contracts of [Body], [BodyReader] and [ChunkIterator]

    The three ways to consume a [Body] keep the contract of [HttpBody]; dropping a
    [Body] leaves its stream behind the body. *)
From stdpp Require Import base list gmap strings.
From Stdlib Require Import Strings.Byte NArith Lia.
From S2P Require Import Prelude Errors StdIo HttpApi Mpsc HttpBody Body.

(** ** Items *)
Section items.
Context `{!HttpApi}.
Abbreviation item := (Chunk + io_error)%type.

Definition is_ok (i : item) : bool := match i with inl _ => true | inr _ => false end.

(** The items before the first error. *)
Fixpoint ok_prefix (items : list item) : list item :=
  match items with
  | inl c :: items => inl c :: ok_prefix items
  | _ => []
  end.

Lemma ok_prefix_all items : Forall (fun i => is_ok i = true) items -> ok_prefix items = items.
Proof. induction 1 as [|[c|e] items Hi _ IH]; [done| |done]. simpl. by rewrite IH. Qed.

Lemma payload_cons i items : payload (i :: items) = item_data i ++ payload items.
Proof. done. Qed.

(** What [ChunkIterator] makes of a stream with [bs] to come: non-empty chunks,
    until the announced length is reached or the stream ends. *)
Inductive reader_items : option N -> bytes -> option io_error -> list item -> Prop :=
| ri_end len : reader_items len [] None []
| ri_error len e : reader_items len [] (Some e) [inr e]
| ri_more len bs rest fin items :
    bs <> [] ->
    match len with Some l => (N.of_nat (length bs) < l)%N | None => True end ->
    reader_items ((fun l => l - N.of_nat (length bs))%N <$> len) rest fin items ->
    reader_items len (bs ++ rest) fin (inl (Data bs) :: items)
| ri_last l bs rest fin :
    bs <> [] -> (l <= N.of_nat (length bs))%N ->
    reader_items (Some l) (bs ++ rest) fin [inl (Data bs)].

Lemma reader_items_inhabited len bs fin : exists items, reader_items len bs fin items.
Proof.
  assert (Hend : forall len, exists items, reader_items len [] fin items).
  { intros len'. destruct fin as [e|]; eexists; constructor. }
  destruct (decide (bs = [])) as [->|Hbs]; [apply Hend|].
  destruct len as [l|]; [destruct (N.leb_spec l (N.of_nat (length bs)))|].
  - pose proof (ri_last l bs [] fin) as Hi. rewrite app_nil_r in Hi. eauto.
  - destruct (Hend (Some (l - N.of_nat (length bs)))%N) as [items Hit].
    pose proof (ri_more (Some l) bs [] fin items) as Hi. rewrite app_nil_r in Hi. eauto.
  - destruct (Hend None) as [items Hit].
    pose proof (ri_more None bs [] fin items) as Hi. rewrite app_nil_r in Hi. eauto.
Qed.

(** Without a length, or when the stream ends at the length, the chunks are
    exactly the bytes of the stream. *)
Lemma reader_items_payload len bs items :
  reader_items len bs None items ->
  match len with Some l => (N.of_nat (length bs) <= l)%N | None => True end ->
  payload items = bs.
Proof.
  intros Hi. remember None as fin eqn:Hfin. induction Hi as
    [len|len e|len bs rest fin items Hbs Hl Hi IH|l bs rest fin Hbs Hl]; intros Hlen.
  - done.
  - done.
  - rewrite payload_cons. simpl. f_equal. apply IH; [done|].
    destruct len as [l|]; [|done]. simpl. rewrite length_app in Hlen. lia.
  - rewrite length_app in Hlen. assert (rest = []) as ->.
    { destruct rest; [done|]. simpl in *. lia. }
    done.
Qed.

Lemma reader_items_data len bs fin items :
  reader_items len bs fin items ->
  Forall (fun i => match i with inl (Data d) => d <> [] | _ => True end) items /\
  length items <= S (length bs).
Proof.
  induction 1 as [len|len e|len bs rest fin items Hbs Hl Hi [IH IHl]|l bs rest fin Hbs Hl].
  - split; [constructor|simpl; lia].
  - split; [repeat constructor|simpl; lia].
  - split; [by constructor|]. rewrite length_app. destruct bs; [done|]. simpl. lia.
  - split; [by repeat constructor|]. rewrite length_app. destruct bs; [done|]. simpl. lia.
Qed.
End items.

(** ** [ChunkIterator] *)
Section chunk_iterator.
Context `{!HttpApi} `{!Fuel} {W I R : Type} `{!World W}.
Context `{!ChunkIter W I} `{!ChunkIterLaws W I}.
Context `{!Read W R} `{!Drop W R} `{!ReadLaws W R}.
Abbreviation item := (Chunk + io_error)%type.
Implicit Types (w : W) (P : list item -> Prop).

Definition ci_produces (it : ChunkIterator I R) (w : W) (P : list item -> Prop) : Prop :=
  match chunk_iterator_0 it with
  | None => P []
  | Some (CISingle bs) => P [inl (Data bs)]
  | Some (CIIter iter) =>
      exists Q, produces iter w Q /\ forall items, Q items -> P (ok_prefix items)
  | Some (CIReader reader len) =>
      exists bs fin, holds reader w bs fin /\
                     forall items, reader_items len bs fin items -> P items
  end.

Definition ci_alive (it : ChunkIterator I R) (w : W) : Prop :=
  match chunk_iterator_0 it with
  | None | Some (CISingle _) => True
  | Some (CIIter iter) => iter_alive iter w
  | Some (CIReader reader _) => alive reader w
  end.

(** Ending the iteration: the source is dropped. *)
Lemma ci_finish {T} `{!Drop W T} (t : T) (o : option item) w0 w P :
  rstep w0 w ->
  wp (drop_value (E := io_error) t) (fun _ w' => rstep w w') never w ->
  (match o with None => P [] | Some i => P [i] end) ->
  wp (E := io_error) (zoom_r (drop_value t;;; ret o))
     (fun o '(it', w') => rstep w0 w' /\
        match o with
        | None => P [] /\ ci_alive it' w'
        | Some item => ci_produces it' w' (fun items => P (item :: items))
        end) never (MkChunkIterator (I := I) (R := R) None, w).
Proof.
  intros Hw Hd HP. wp_steps. eapply wp_never_mono; [exact Hd|].
  intros [] w' Hw'. apply wp_ret. split; [by etrans|]. by destruct o.
Qed.

Lemma ci_next_iter (iter : I) w P :
  ci_produces (MkChunkIterator (Some (CIIter iter))) w P ->
  wp chunk_iterator_next
     (fun o '(it', w') => rstep w w' /\
        match o with
        | None => P [] /\ ci_alive it' w'
        | Some item => ci_produces it' w' (fun items => P (item :: items))
        end)
     never (MkChunkIterator (R := R) (Some (CIIter iter)), w).
Proof.
  intros (Q & Hit & HQ). cbn in Hit.
  pose proof (next_produces _ _ _ Hit) as Hn. unfold wp at 1 in Hn.
  unfold chunk_iterator_next, wp at 1. cbn [chunk_iterator_0].
  destruct (next (iter, w)) as [o [it' w']|e [it' w']| | |]; [|done..].
  destruct Hn as [Hw Hn]. destruct o as [[c|e]|].
  - split; [done|]. exists (fun items => Q (inl c :: items)). split; [done|].
    intros items Hi. apply (HQ _ Hi).
  - apply (ci_finish it' None w w'); [done|by eapply produces_drop|].
    destruct (produces_inhabited _ _ _ Hn) as [items Hi]. apply (HQ _ Hi).
  - destruct Hn as [HQ0 Hn]. apply (ci_finish it' None w w'); [done|by apply iter_alive_drop|].
    apply (HQ _ HQ0).
Qed.

Lemma ci_next_reader (reader : R) len w P :
  ci_produces (MkChunkIterator (Some (CIReader reader len))) w P ->
  wp chunk_iterator_next
     (fun o '(it', w') => rstep w w' /\
        match o with
        | None => P [] /\ ci_alive it' w'
        | Some item => ci_produces it' w' (fun items => P (item :: items))
        end)
     never (MkChunkIterator (I := I) (Some (CIReader reader len)), w).
Proof.
  intros (bs & fin & Hr & HP). cbn in Hr.
  pose proof (read_holds reader w bs fin DEFAULT_BUF_SIZE ltac:(done) Hr) as Hrd.
  unfold wp at 1 in Hrd. unfold chunk_iterator_next, wp at 1. cbn [chunk_iterator_0].
  destruct len as [l|];
    destruct (read DEFAULT_BUF_SIZE (reader, w)) as [got [r' w']|e [r' w']| | |]; try done.
  all: try (destruct Hrd as (Hw & rest & -> & _ & Hr' & Hnil)).
  all: try (destruct got as [|c got];
    [destruct (Hnil eq_refl) as [Hrest ->]; simpl in Hrest; subst rest;
     apply (ci_finish r' None w w');
       [done|by eapply drop_alive, holds_alive|by apply HP; constructor]|]).
  - unfold checked_sub. destruct (N.leb_spec (N.of_nat (length (c :: got))) l) as [Hle|Hgt].
    + destruct (l - N.of_nat (length (c :: got)))%N as [|p] eqn:Hl.
      * apply (ci_finish r' (Some (inl (Data (c :: got)))) w w');
          [done|by eapply drop_alive, holds_alive|].
        apply HP. apply ri_last; [done|lia].
      * split; [done|]. exists rest, fin. split; [done|]. intros items Hi. apply HP.
        constructor; [done|lia|]. cbn [fmap option_fmap option_map].
        by rewrite Hl.
    + apply (ci_finish r' (Some (inl (Data (c :: got)))) w w');
          [done|by eapply drop_alive, holds_alive|].
      apply HP. apply ri_last; [done|lia].
  - destruct Hrd as (Hw & -> & -> & Hal).
    apply (ci_finish r' (Some (inr e)) w w'); [done|by apply drop_alive|].
    apply HP. constructor.
  - split; [done|]. exists rest, fin. split; [done|]. intros items Hi. apply HP.
    by constructor.
  - destruct Hrd as (Hw & -> & -> & Hal).
    apply (ci_finish r' (Some (inr e)) w w'); [done|by apply drop_alive|].
    apply HP. constructor.
Qed.

#[export, refine] Instance ChunkIterator_laws : ChunkIterLaws W (ChunkIterator I R) := {|
  produces := ci_produces;
  iter_alive := ci_alive;
|}.
Proof.
  - intros [[[bs|iter|reader len]|]] w P; unfold ci_produces; cbn; eauto.
    + intros (Q & Hit & HQ). destruct (produces_inhabited _ _ _ Hit) as [items Hi]. eauto.
    + intros (bs & fin & _ & HP). destruct (reader_items_inhabited len bs fin). eauto.
  - intros [[[bs|iter|reader len]|]] w P Q; unfold ci_produces; cbn; eauto.
    + intros (Q' & Hit & HQ) HPQ. exists Q'. eauto.
    + intros (bs & fin & Hr & HP) HPQ. exists bs, fin. eauto.
  - intros [[[bs|iter|reader len]|]] w w' P; unfold ci_produces; cbn; eauto.
    + intros (Q & Hit & HQ) Hw. exists Q. split; [by eapply produces_wstep|done].
    + intros (bs & fin & Hr & HP) Hw. exists bs, fin. split; [by eapply holds_wstep|done].
  - intros [[[bs|iter|reader len]|]] w P; unfold ci_produces, ci_alive; cbn; try done.
    + intros (Q & Hit & _). by eapply produces_alive.
    + intros (bs & fin & Hr & _). by eapply holds_alive.
  - intros [[[bs|iter|reader len]|]] w w'; unfold ci_alive; cbn; try done.
    + apply iter_alive_wstep.
    + apply alive_wstep.
  - intros E [[[bs|iter|reader len]|]] w; unfold ci_alive; cbn; intros Ha.
    + by apply wp_ret.
    + by apply (iter_alive_drop E iter w).
    + by apply (drop_alive E reader w).
    + by apply wp_ret.
  - intros [[[bs|iter|reader len]|]] w P HP.
    + done.
    + by apply ci_next_iter.
    + by apply ci_next_reader.
    + by split_and!.
Defined.
End chunk_iterator.

(** ** [BodyReader] *)
Section body_reader.
Context `{!HttpApi} `{!Fuel} {W I R : Type} `{!World W}.
Context `{!ChunkIter W I} `{!ChunkIterLaws W I}.
Context `{!Read W R} `{!Drop W R} `{!ReadLaws W R}.
Abbreviation item := (Chunk + io_error)%type.
Implicit Types (w : W) (P : list item -> Prop).

(** The items that the readers skip. *)
Definition is_trailers (i : item) : Prop :=
  match i with inl (Trailers _) => True | _ => False end.

Lemma ok_prefix_trailers ts items :
  Forall is_trailers ts ->
  payload (ok_prefix (ts ++ items)) = payload (ok_prefix items) /\
  payload (ts ++ items) = payload items.
Proof.
  induction 1 as [|[[d|t]|e] ts Hi _ [IH1 IH2]]; [done|done| |done].
  cbn [app ok_prefix]. by rewrite !payload_cons, IH1, IH2.
Qed.

(** The next data chunk or error, after some trailers. *)
Lemma data_next_loop_spec n (it : I) w P :
  produces it w P -> (forall items, P items -> length items < n) ->
  wp (data_next_loop n)
     (fun o '(it', w') => rstep w w' /\ exists ts, Forall is_trailers ts /\
        match o with
        | None => P ts /\ iter_alive it' w'
        | Some (inl d) => produces it' w' (fun items => P (ts ++ inl (Data d) :: items))
        | Some (inr e) => produces it' w' (fun items => P (ts ++ inr e :: items))
        end)
     never (it, w).
Proof.
  revert it w P. induction n as [|n IH]; intros it w P Hit Hlen.
  { destruct (produces_inhabited _ _ _ Hit) as [items Hi]. specialize (Hlen _ Hi). lia. }
  cbn [data_next_loop]. wp_step. eapply wp_never_mono; [by apply next_produces|].
  intros [[[d|t]|e]|] [it' w']; [intros [Hw Hit']..|intros (Hw & HP & Hit')].
  - apply wp_ret. split; [done|]. exists []. by split; [constructor|].
  - eapply wp_never_mono.
    { apply (IH _ _ _ Hit'). intros items Hi. specialize (Hlen _ Hi). simpl in Hlen. lia. }
    intros o [it'' w''] (Hw' & ts & Hts & Ho). split; [by etrans|].
    exists (inl (Trailers t) :: ts). split; [by constructor|done].
  - apply wp_ret. split; [done|]. exists []. by split; [constructor|].
  - apply wp_ret. split; [done|]. exists []. by split; [constructor|].
Qed.

Definition br_holds (rd : BodyReader I R) (w : W) (bs : bytes) (fin : option io_error) : Prop :=
  match rd with
  | BRBuffered cursor => cursor_rest cursor = bs /\ fin = None
  | BRIter iter leftover =>
      fin = None /\
      match leftover with
      | None => bs = [] /\ iter_alive iter w /\ fuel <> 0
      | Some cursor =>
          exists P, produces iter w P /\ (forall items, P items -> S (length items) < fuel) /\
            forall items, P items -> bs = cursor_rest cursor ++ payload (ok_prefix items)
      end
  | BRReader take => holds take w bs fin
  end.

Definition br_alive (rd : BodyReader I R) (w : W) : Prop :=
  match rd with
  | BRBuffered _ => True
  | BRIter iter _ => iter_alive iter w
  | BRReader take => alive take w
  end.

(** The loop of [BodyReader::read] on an iterator. *)
Lemma iter_read_loop_spec k n (it : I) cursor w P bs :
  n <> 0 -> produces it w P -> (forall items, P items -> S (length items) < k) -> k <= fuel ->
  (forall items, P items -> bs = cursor_rest cursor ++ payload (ok_prefix items)) ->
  wp (iter_read_loop k n (Some cursor))
     (fun got '(it', w') => rstep w w' /\ exists rest,
        bs = got.1 ++ rest /\ length got.1 <= n /\
        br_holds (BRIter it' got.2) w' rest None /\ (got.1 = [] -> bs = []))
     never (it, w).
Proof.
  intros Hn. revert it w P cursor. induction k as [|k IH]; intros it w P cursor Hit Hlen Hk Hbs.
  { destruct (produces_inhabited _ _ _ Hit) as [items Hi]. specialize (Hlen _ Hi). lia. }
  assert (Hfuel : forall items, P items -> S (length items) < fuel).
  { intros items Hi. specialize (Hlen _ Hi). lia. }
  cbn [iter_read_loop].
  destruct (take n (cursor_rest cursor)) as [|c got] eqn:Hgot.
  - assert (Hcur : cursor_rest cursor = []).
    { destruct n; [done|]. by destruct (cursor_rest cursor). }
    rewrite Hcur in Hbs. cbn [app] in Hbs.
    wp_step. eapply wp_never_mono.
    { apply (data_next_loop_spec fuel it w P Hit). intros items Hi. specialize (Hfuel _ Hi). lia. }
    intros o [it' w'] (Hw & ts & Hts & Ho).
    assert (Hend : iter_alive it' w' -> k <> 0 -> bs = [] ->
      wp (iter_read_loop k n None)
        (fun got '(it', w') => rstep w w' /\ exists rest,
           bs = got.1 ++ rest /\ length got.1 <= n /\
           br_holds (BRIter it' got.2) w' rest None /\ (got.1 = [] -> bs = []))
        never (it', w')).
    { intros Hal Hk0 ->. destruct k as [|k']; [done|]. apply wp_ret. split; [done|].
      exists []. split_and!; cbn; [done|lia| |done]. split_and!; [done|done|done|lia]. }
    destruct o as [[d|e]|].
    + eapply wp_never_mono.
      { apply (IH it' w' _ (Cursor_new d) Ho); [|lia|].
        - intros items Hi. specialize (Hlen _ Hi). rewrite length_app in Hlen. simpl in Hlen. lia.
        - intros items Hi. rewrite (Hbs _ Hi).
          by destruct (ok_prefix_trailers ts (inl (Data d) :: items) Hts) as [-> _]. }
      intros got [it'' w''] [Hw' Hrest]. split; [by etrans|done].
    + destruct (produces_inhabited _ _ _ Ho) as [items Hi].
      apply Hend; [by eapply produces_alive| |].
      * specialize (Hlen _ Hi). rewrite length_app in Hlen. simpl in Hlen. lia.
      * rewrite (Hbs _ Hi). by destruct (ok_prefix_trailers ts (inr e :: items) Hts) as [-> _].
    + destruct Ho as [HP Ho]. apply Hend; [done| |].
      * specialize (Hlen _ HP). lia.
      * rewrite (Hbs _ HP). destruct (ok_prefix_trailers ts [] Hts) as [Hp _].
        by rewrite app_nil_r in Hp.
  - apply wp_ret. split; [done|].
    exists (drop n (cursor_rest cursor) ++ drop (length (cursor_rest cursor)) bs).
    destruct (produces_inhabited _ _ _ Hit) as [items0 Hi0].
    pose proof (Hbs _ Hi0) as Hbs0.
    split_and!; [| |split; [done|]; exists P; split_and!; [done|done|]|done].
    + cbn [fst]. rewrite <-Hgot, app_assoc, take_drop. rewrite Hbs0 at 2.
      by rewrite drop_app_length.
    + cbn [fst]. rewrite <-Hgot, length_take. lia.
    + intros items Hi. cbn. rewrite (Hbs _ Hi) at 1. by rewrite drop_app_length.
Qed.

#[export, refine] Instance BodyReader_laws : ReadLaws W (BodyReader I R) := {|
  holds := br_holds;
  alive := br_alive;
  passed _ _ _ := True;
|}.
Proof.
  - intros [cursor|iter leftover|tk] w bs fin; cbn [br_holds br_alive]; [done| |apply holds_alive].
    destruct leftover; [|by intros (_ & _ & ? & _)].
    intros (_ & P & ? & _). by eapply produces_alive.
  - intros [cursor|iter leftover|tk] w w'; cbn [br_alive]; [done| |apply alive_wstep].
    apply iter_alive_wstep.
  - intros E [cursor|iter leftover|tk] w; cbn [br_alive].
    + intros _. by apply wp_ret.
    + apply (iter_alive_drop E iter w).
    + apply (drop_alive E tk w).
  - done.
  - intros E [cursor|iter leftover|tk] w bs fin; cbn [br_holds].
    + intros _. by apply wp_ret.
    + intros [_ Hl]. eapply wp_never_mono; [eapply (iter_alive_drop E iter w)|done].
      destruct leftover; [|apply Hl].
      destruct Hl as (P & Hit & _). by eapply produces_alive.
    + intros Ht. eapply wp_never_mono; [by eapply (drop_alive E tk w), holds_alive|]. done.
  - intros [cursor|iter leftover|tk] w w' bs fin; cbn [br_holds]; [done| |apply holds_wstep].
    intros [? Hl] Hw. split; [done|]. destruct leftover.
    + destruct Hl as (P & ? & ?). exists P. split; [by eapply produces_wstep|done].
    + destruct Hl as (? & ? & ?). split_and!; [done|by eapply iter_alive_wstep|done].
  - intros [cursor|iter leftover|tk] w bs e; cbn [br_holds];
      [by intros [_ ?]|by intros [? _]|apply fin_not_interrupted].
  - intros [cursor|iter leftover|tk] w bs fin n Hn; cbn [br_holds].
    + intros Hc. pose proof (read_holds cursor w bs fin n Hn Hc) as Hrd.
      unfold read in *. unfold wp, BodyReader_read in *.
      unfold read in *. by destruct (Cursor_read n (cursor, w)) as [got [c' w']|e [c' w']| | |].
    + intros [-> Hl]. destruct leftover as [cursor|].
      * destruct Hl as (P & Hit & Hlen & Hbs).
        pose proof (iter_read_loop_spec fuel n iter cursor w P bs Hn Hit Hlen ltac:(lia) Hbs) as Hrd.
        unfold wp, read, BodyReader_read in *.
        destruct (iter_read_loop fuel n (Some cursor) (iter, w))
          as [[got l'] [it' w']|e [it' w']| | |]; [|done..].
        destruct Hrd as (Hw & rest & -> & Hlg & Hr & Hnil). split; [done|].
        exists rest. split_and!; [done|done|done|]. intros Hg. by split; [apply Hnil|].
      * destruct Hl as (-> & Hal & Hf). unfold wp, read, BodyReader_read.
        assert (Hloop : iter_read_loop fuel n None (iter, w) = Ok ([], None) (iter, w)).
        { by destruct fuel. }
        rewrite Hloop. split; [done|]. exists [].
        split_and!; cbn; [done|lia| |done]. by split_and!.
    + intros Ht. pose proof (read_holds tk w bs fin n Hn Ht) as Hrd.
      unfold read in *. unfold wp, BodyReader_read in *.
      unfold read in *. by destruct (Take_read n (tk, w)) as [got [c' w']|e [c' w']| | |].
Defined.
End body_reader.

(** ** [Body] *)
Section body_laws.
Context `{!HttpApi} `{!Fuel} {W I R : Type} `{!World W}.
Context `{!ChunkIter W I} `{!ChunkIterLaws W I}.
Context `{!Read W R} `{!Drop W R} `{!ReadLaws W R}.
Abbreviation item := (Chunk + io_error)%type.
Implicit Types (w : W) (P : list item -> Prop).

Fixpoint first_error (items : list item) : option io_error :=
  match items with
  | [] => None
  | inl _ :: items => first_error items
  | inr e :: _ => Some e
  end.

Lemma first_error_trailers ts items :
  Forall is_trailers ts -> first_error (ts ++ items) = first_error items.
Proof. induction 1 as [|[[d|t]|e] ts Hi _ IH]; done. Qed.

Lemma first_error_None items : first_error items = None -> ok_prefix items = items.
Proof. induction items as [|[c|e] items IH]; [done| |done]. cbn. intros He. by rewrite IH. Qed.

(** [into_bytes] of an iterator: all the data, or the first error. *)
Lemma collect_data_spec n (it : I) w P bs err :
  produces it w P -> n <= fuel ->
  (forall items, P items -> length items < n /\ payload (ok_prefix items) = bs /\
                            first_error items = err) ->
  wp (collect_data n)
     (fun all '(it', w') => rstep w w' /\ err = None /\ concat all = bs /\ iter_alive it' w')
     (fun e '(it', w') => rstep w w' /\ err = Some e /\ iter_alive it' w')
     (it, w).
Proof.
  revert it w P bs. induction n as [|n IH]; intros it w P bs Hit Hn HP.
  { destruct (produces_inhabited _ _ _ Hit) as [items Hi]. destruct (HP _ Hi). lia. }
  cbn [collect_data]. wp_step. eapply wp_never_mono.
  { apply (data_next_loop_spec fuel it w P Hit). intros items Hi. destruct (HP _ Hi). lia. }
  intros o [it' w'] (Hw & ts & Hts & Ho). destruct o as [[d|e]|].
  - wp_step. destruct (produces_inhabited _ _ _ Ho) as [items0 Hi0].
    eapply wp_mono; [apply (IH _ _ _ (drop (length d) bs) Ho); [lia|]| |].
    + intros items Hi. destruct (HP _ Hi) as (Hl & Hp & He).
      destruct (ok_prefix_trailers ts (inl (Data d) :: items) Hts) as [Hp' _].
      rewrite Hp' in Hp. rewrite first_error_trailers in He by done.
      rewrite length_app in Hl. cbn [length] in Hl. split_and!; [lia| |done].
      rewrite <-Hp. cbn [ok_prefix]. by rewrite payload_cons, drop_app_length.
    + intros all [it'' w''] (Hw' & Herr & Hall & Hit'). apply wp_ret.
      split_and!; [by etrans|done| |done]. simpl. rewrite Hall.
      destruct (HP _ Hi0) as (_ & Hp & _).
      destruct (ok_prefix_trailers ts (inl (Data d) :: items0) Hts) as [Hp' _].
      rewrite Hp' in Hp. rewrite <-Hp. cbn [ok_prefix].
      rewrite payload_cons. cbn [item_data]. by rewrite drop_app_length.
    + intros e [it'' w''] (Hw' & Herr & Hit'). split; [by etrans|done].
  - apply wp_fail. destruct (produces_inhabited _ _ _ Ho) as [items Hi].
    destruct (HP _ Hi) as (_ & _ & He). rewrite first_error_trailers in He by done.
    split_and!; [done|done|]. by eapply produces_alive.
  - destruct Ho as [HP0 Ho]. apply wp_ret. destruct (HP _ HP0) as (_ & Hp & He).
    pose proof (first_error_trailers ts [] Hts) as He'. rewrite app_nil_r in He'.
    destruct (ok_prefix_trailers ts [] Hts) as [Hp' _]. rewrite app_nil_r in Hp'.
    split_and!; [done|by rewrite <-He, He'|by rewrite <-Hp, Hp'|done].
Qed.

(** [into_reader] of an iterator drops an error that comes before any data; later
    ones end the stream. *)
Fixpoint skip_first_error (items : list item) : list item :=
  match items with
  | inl (Trailers _) :: items => skip_first_error items
  | inr _ :: items => items
  | _ => items
  end.

Lemma skip_first_error_trailers ts items :
  Forall is_trailers ts -> skip_first_error (ts ++ items) = skip_first_error items.
Proof. induction 1 as [|[[d|t]|e] ts Hi _ IH]; done. Qed.

Definition body_bytes_of (body : Body I R) (w : W) (bs : bytes) : Prop :=
  match body_0 body with
  | Some Empty => bs = []
  | Some (Buffered v) => bs = v
  | Some (Iter it) =>
      exists P, produces it w P /\
        forall items, P items -> length items < fuel /\
          payload (ok_prefix items) = bs /\ first_error items = None
  | Some (Reader r len) =>
      holds (Build_Take r (wrap64 <$> len)) w bs None /\ length bs < fuel /\
      match len with Some len => (len <= isize_max)%N | None => True end
  | None => False
  end.

Definition body_reader_of (body : Body I R) (w : W) (bs : bytes) : Prop :=
  match body_0 body with
  | Some Empty => bs = []
  | Some (Buffered v) => bs = v
  | Some (Iter it) =>
      exists P, produces it w P /\
        forall items, P items -> S (length items) < fuel /\
          bs = payload (ok_prefix (skip_first_error items))
  | Some (Reader r len) => holds (Build_Take r (wrap64 <$> len)) w bs None
  | None => False
  end.

Definition body_chunks_of (body : Body I R) (w : W) (P : list item -> Prop) : Prop :=
  match body_0 body with
  | Some Empty => P []
  | Some (Buffered bs) => P [inl (Data bs)]
  | Some (Iter it) => ci_produces (R := R) (MkChunkIterator (Some (CIIter it))) w P
  | Some (Reader r len) => ci_produces (I := I) (MkChunkIterator (Some (CIReader r len))) w P
  | None => False
  end.

Lemma body_into_bytes_iter_spec (it : I) w P bs err :
  produces it w P ->
  (forall items, P items -> length items < fuel /\ payload (ok_prefix items) = bs /\
                            first_error items = err) ->
  wp (body_into_bytes (R := R) (MkBody (Some (Iter it))))
     (fun got w' => rstep w w' /\ err = None /\ got = bs)
     (fun e w' => rstep w w' /\ err = Some e) w.
Proof.
  intros Hit HP. unfold body_into_bytes, unwrap_inner. cbn. wp_steps.
  eapply wp_mono; [by apply (collect_data_spec fuel it w P bs err)| |].
  - intros all [it' w'] (Hw & Herr & Hall & Hit'). wp_step. cbn.
    eapply wp_never_mono; [by apply (iter_alive_drop _ it' w')|].
    intros [] w'' Hw'. apply wp_ret. split_and!; [by etrans|done|done].
  - intros e [it' w'] (Hw & Herr & Hit'). cbn.
    eapply wp_never_mono; [by apply (iter_alive_drop _ it' w')|].
    intros [] w'' Hw'. split; [by etrans|done].
Qed.

Lemma body_into_bytes_spec (body : Body I R) w bs :
  body_bytes_of body w bs ->
  wp (body_into_bytes body) (fun got w' => rstep w w' /\ got = bs) never w.
Proof.
  destruct body as [[[|v|it|r len]|]]; cbn [body_bytes_of body_0].
  - intros ->. by apply wp_ret.
  - intros ->. by apply wp_ret.
  - intros (P & Hit & HP). eapply wp_mono; [by apply (body_into_bytes_iter_spec it w P bs None)| |].
    + by intros got w' (? & _ & ?).
    + by intros e w' [_ ?].
  - intros (Ht & Hf & Hl). unfold body_into_bytes, unwrap_inner. wp_steps. cbn [body_0].
    assert (Htail : wp (let! (buf, take) :=
                          borrow (read_to_end fuel) (Build_Take r (wrap64 <$> len)) in
                        drop_value take;;; ret buf)
                       (fun got w' => rstep w w' /\ got = bs) never w).
    { wp_steps. eapply wp_mono; [by apply (read_to_end_spec fuel _ w bs None)| |].
      - intros got [tk w'] (Hw & _ & -> & Htk). wp_step.
        eapply wp_never_mono; [by eapply (drop_alive _ tk w'), holds_alive|].
        intros [] w'' Hw'. apply wp_ret. split; [by etrans|done].
      - by intros e [tk w'] (_ & _ & ?). }
    destruct len as [l|]; [|exact Htail].
    wp_steps. by apply wp_alloc_vec.
  - done.
Qed.

Lemma body_into_reader_spec (body : Body I R) w bs :
  body_reader_of body w bs ->
  wp (body_into_reader body) (fun rd w' => rstep w w' /\ br_holds rd w' bs None) never w.
Proof.
  destruct body as [[[|v|it|r len]|]]; cbn [body_reader_of body_0].
  - intros ->. by apply wp_ret.
  - intros ->. by apply wp_ret.
  - intros (P & Hit & HP). unfold body_into_reader, unwrap_inner. cbn [body_0]. wp_steps.
    eapply wp_never_mono.
    { apply (data_next_loop_spec fuel it w P Hit). intros items Hi. destruct (HP _ Hi). lia. }
    intros o [it' w'] (Hw & ts & Hts & Ho). apply wp_ret. split; [done|].
    destruct o as [[d|e]|]; cbn [fmap option_fmap option_map fst snd br_holds].
    1, 2: split; [done|]; eexists; split_and!; [exact Ho| |];
      intros items Hi; destruct (HP _ Hi) as [Hl Heq];
      [rewrite length_app in Hl; simpl in Hl; lia|].
    + by rewrite Heq, skip_first_error_trailers.
    + by rewrite Heq, skip_first_error_trailers.
    + destruct Ho as [HP0 Ho]. destruct (HP _ HP0) as [Hl ->].
      pose proof (skip_first_error_trailers ts [] Hts) as Hs.
      rewrite app_nil_r in Hs. rewrite Hs. split_and!; [done|done|done|lia].
  - intros Ht. destruct len as [l|]; by apply wp_ret.
  - done.
Qed.

Lemma body_into_chunks_spec (body : Body I R) w P :
  body_chunks_of body w P ->
  wp (body_into_chunks body) (fun it w' => rstep w w' /\ ci_produces it w' P) never w.
Proof.
  by destruct body as [[[|v|it|r len]|]]; cbn [body_chunks_of body_0]; intros HP;
    try (apply wp_ret).
Qed.

#[export] Instance Body_laws : HttpBodyLaws W (Body I R).
Proof.
  refine (Build_HttpBodyLaws W (Body I R) _ Body_http_body BodyReader_laws ChunkIterator_laws
    body_bytes_of body_reader_of body_chunks_of _ _ _
    body_into_bytes_spec body_into_reader_spec body_into_chunks_spec).
  - intros [[[|v|it|r len]|]] w w' bs; cbn [body_bytes_of body_0]; try done.
    + intros (P & Hit & HP) Hw. exists P. split; [by eapply produces_wstep|done].
    + intros (Ht & HP) Hw. split; [by eapply holds_wstep|done].
  - intros [[[|v|it|r len]|]] w w' bs; cbn [body_reader_of body_0]; try done.
    + intros (P & Hit & HP) Hw. exists P. split; [by eapply produces_wstep|done].
    + apply holds_wstep.
  - intros [[[|v|it|r len]|]] w w' P; cbn [body_chunks_of body_0]; try done.
    + intros HP Hw.
      exact (produces_wstep (I := ChunkIterator I R) (MkChunkIterator _) w w' P HP Hw).
    + intros HP Hw.
      exact (produces_wstep (I := ChunkIterator I R) (MkChunkIterator _) w w' P HP Hw).
Defined.
End body_laws.

(** ** [Drop for Body] *)
Section body_drop_laws.
Context `{!HttpApi} `{!Fuel} {W : Type} `{!World W}.

(** [io::copy] into the sink reads its source to the end. *)
Lemma sink_copy_spec {R} `{!Read W R} `{!Drop W R} `{!ReadLaws W R} k copied (r : R) (w : W) bs fin :
  holds r w bs fin -> length bs < k ->
  wp (io_copy k copied)
     (fun _ '(r', (s', w')) => rstep w w' /\ fin = None /\ holds r' w' [] None)
     (fun e '(r', (s', w')) => rstep w w' /\ fin = Some e /\ alive r' w')
     (r, (io_sink, w)).
Proof.
  revert copied r w bs. induction k as [|k IH]; intros copied r w bs Hr Hn; [lia|].
  cbn [io_copy]. wp_step. apply wp_attempt, wp_zoom_rw.
  eapply wp_mono; [by apply (read_holds r w bs fin DEFAULT_BUF_SIZE)| |].
  2: { intros e [r' w'] (Hw & -> & -> & Hal). cbn.
       rewrite (fin_not_interrupted _ _ _ _ Hr). by apply wp_fail. }
  intros got [r' w'] (Hw & rest & -> & _ & Hr' & Hnil). cbn.
  destruct got as [|c got].
  - destruct (Hnil eq_refl) as [Hrest ->]. simpl in Hrest. subst. by apply wp_ret.
  - wp_step. apply wp_zoom_r, wp_ret.
    eapply wp_mono; [apply (IH _ r' w' rest Hr')| |].
    + rewrite length_app in Hn. simpl in Hn. lia.
    + intros _ [r2 [s2 w2]] (? & ? & ?). split; [by etrans|done].
    + intros e [r2 [s2 w2]] (? & ? & ?). split; [by etrans|done].
Qed.

Lemma drain_and_drop_spec {R} `{!Read W R} `{!Drop W R} (L : ReadLaws W (Take R)) E
    (tk : Take R) (w : W) bs :
  holds (ReadLaws := L) tk w bs None -> length bs < fuel ->
  wp (drain_and_drop (E := E) tk) (fun _ w' => rstep w w' /\ passed (Take R) (ReadLaws := L) w' [] None)
     never w.
Proof.
  intros Ht Hf. pose proof (sink_copy_spec fuel 0 tk w bs None Ht Hf) as Hc.
  unfold wp at 1 in Hc. unfold drain_and_drop, wp at 1.
  destruct (io_copy fuel 0 (tk, (io_sink, w))) as [n [tk' [s' w']]|e [tk' [s' w']]| | |]; try done.
  - destruct Hc as (Hw & _ & Hr).
    eapply (wp_never_mono (drop_value tk')); [by apply (drop_holds E tk' w' [] None)|].
    intros [] w'' [Hw' Hp]. split; [by etrans|done].
  - by destruct Hc as (_ & ? & _).
Qed.

(** Dropping an unread streaming body of a known length leaves the stream right
    behind the body. *)
Lemma body_drop_reader_spec {I R} `{!ChunkIter W I} `{!Read W R} `{!Drop W R} `{!ReadLaws W R}
    E (stream : R) len (w : W) all fin :
  holds stream w all fin -> (len < 2 ^ 64)%N ->
  (N.to_nat len <= length all \/ fin = None) -> length all < fuel ->
  wp (drop_value (E := E) (Body_from_reader (I := I) stream (Some len)))
     (fun _ w' => rstep w w' /\ passed R w' (drop (N.to_nat len) all) fin) never w.
Proof.
  intros Hs Hlen Hl Hf. unfold drop_value, Body_drop, body_drop_impl. cbn.
  rewrite wrap64_id by done.
  eapply wp_never_mono.
  { apply (drain_and_drop_spec (Take_tail_laws (drop (N.to_nat len) all) fin) E _ w
             (take (N.to_nat len) all)).
    - by apply tail_holds_intro.
    - rewrite length_take. lia. }
  done.
Qed.
End body_drop_laws.

(** ** The receiving end of [Body::channel] *)
Section channel_laws.
Context `{!HttpApi} `{!Fuel}.
Abbreviation item := (Chunk + io_error)%type.

(** The world is the store of channels; receiving changes it, nothing is written. *)
#[export, refine] Instance store_world {T} : World (store T) :=
  {| rstep _ _ := True; wstep := eq |}.
Proof. all: split; repeat intro; first [exact I | congruence]. Defined.

Lemma drop_all_items {W E} (items : list item) (w : W) : drop_all (E := E) items w = Ok tt w.
Proof. induction items as [|i items IH]; [done|]. cbn [drop_all]. unfold bind. cbn. done. Qed.

#[export, refine] Instance BodyReceiver_laws :
    ChunkIterLaws (store item) (Receiver item) := {|
  produces r w P := exists c, chans w !! rx r = Some c /\ sender_alive c = false /\ P (queue c);
  iter_alive _ _ := True;
|}.
Proof.
  - intros r w P (c & _ & _ & HP). eauto.
  - intros r w P Q (c & ? & ? & HP) HPQ. eauto.
  - by intros r w w' P HP <-.
  - done.
  - done.
  - intros E r w _. change (wp (drop_receiver (E := E) r) (fun _ _ => True) never w).
    unfold wp, drop_receiver. destruct (chans _ !! rx r); [by rewrite drop_all_items|done].
  - intros r w P (c & Hc & Hs & HP). unfold wp, next, BodyReceiver_iter, zoom_r, recv, the_store.
    cbn. rewrite Hc. destruct (queue c) as [|i q]; [by rewrite Hs|]. split; [done|].
    eexists. cbn. by rewrite lookup_insert_eq.
Defined.

(** Sending chunks one after the other *)
Fixpoint send_all (channel : BodyChannel) (ds : list bytes) : ST (store item) io_error unit :=
  match ds with
  | [] => ret tt
  | d :: ds => channel_send channel d;;; send_all channel ds
  end.

Lemma send_item_open (channel : BodyChannel) i (w : store item) q alive :
  chans w !! tx (body_channel_0 channel) = Some (Build_chan q alive true) ->
  wp (send_item channel i)
     (fun _ w' => chans w' !! tx (body_channel_0 channel) = Some (Build_chan (q ++ [i]) alive true))
     never w.
Proof.
  intros Hc. unfold send_item, send, wp, bind, ret, the_store. cbn. rewrite Hc. cbn.
  by rewrite lookup_insert_eq.
Qed.

Lemma send_all_open (channel : BodyChannel) ds (w : store item) q alive :
  chans w !! tx (body_channel_0 channel) = Some (Build_chan q alive true) ->
  wp (send_all channel ds)
     (fun _ w' => chans w' !! tx (body_channel_0 channel) =
                  Some (Build_chan (q ++ ((fun d => inl (Data d)) <$> ds)) alive true))
     never w.
Proof.
  revert w q. induction ds as [|d ds IH]; intros w q Hc.
  { apply wp_ret. by rewrite app_nil_r. }
  cbn [send_all]. wp_step. eapply wp_never_mono; [by eapply send_item_open|].
  intros [] w1 Hc1. eapply wp_never_mono; [by apply (IH w1)|].
  intros [] w2 ->. by rewrite <-app_assoc.
Qed.

Lemma Body_channel_open {R} (w : store item) :
  wp (Body_channel (E := io_error) (R := R))
     (fun cb w' => body_0 cb.2 = Some (Iter (Build_Receiver (tx (body_channel_0 cb.1)))) /\
        chans w' !! tx (body_channel_0 cb.1) = Some (Build_chan [] true true))
     never w.
Proof.
  unfold Body_channel, channel, wp, bind, ret. cbn. by rewrite lookup_insert_eq.
Qed.

Lemma items_data (ds : list bytes) :
  payload (ok_prefix ((fun d => inl (Data d)) <$> ds)) = concat ds /\
  first_error ((fun d => inl (Data d)) <$> ds) = None.
Proof.
  unfold payload. induction ds as [|d ds [IH1 IH2]]; [done|]. cbn. by rewrite <-IH1.
Qed.

Lemma items_data_error (ds : list bytes) e :
  payload (ok_prefix (((fun d => inl (Data d)) <$> ds) ++ [inr e])) = concat ds /\
  first_error (((fun d => inl (Data d)) <$> ds) ++ [inr e]) = Some e.
Proof.
  unfold payload. induction ds as [|d ds [IH1 IH2]]; [done|]. cbn. by rewrite <-IH1.
Qed.

Lemma ok_prefix_data_error (ds : list bytes) (e : io_error) :
  ok_prefix (((fun d => inl (Data d)) <$> ds) ++ [inr e]) = (fun d => inl (Data d)) <$> ds.
Proof. induction ds as [|d ds IH]; [done|]. cbn. by f_equal. Qed.

(** A channel that is closed behind [items], and its body *)
Lemma closed_channel_produces (r : Receiver item) (w : store item) items alive :
  chans w !! rx r = Some (Build_chan items false alive) -> produces r w (eq items).
Proof. intros Hc. by exists (Build_chan items false alive). Qed.

Lemma drop_receiver_closes {E} (r : Receiver item) (w : store item) c :
  chans w !! rx r = Some c ->
  wp (drop_receiver (E := E) r)
     (fun _ w' => chans w' !! rx r = Some (Build_chan [] (sender_alive c) false)) never w.
Proof.
  intros Hc. unfold wp, drop_receiver. cbn [the_store get_store store_has_store].
  unfold the_store. cbn. rewrite Hc, drop_all_items. cbn. by rewrite lookup_insert_eq.
Qed.

Lemma drop_sender_closes {E} (s : Sender item) (w : store item) q alive ralive :
  chans w !! tx s = Some (Build_chan q alive ralive) ->
  wp (drop_sender (E := E) s)
     (fun _ w' => chans w' !! tx s = Some (Build_chan q false ralive)) never w.
Proof.
  intros Hc. unfold wp, drop_sender, the_store. cbn. rewrite Hc. cbn.
  by rewrite lookup_insert_eq.
Qed.
End channel_laws.

(** ** Properties *)
Section properties.
Context `{!HttpApi} `{!Fuel} {W I R : Type} `{!World W}.
Context `{!ChunkIter W I} `{!ChunkIterLaws W I}.
Context `{!Read W R} `{!Drop W R} `{!ReadLaws W R}.
Implicit Types (w : W).

(** The condition of the property below, not a definition of the code: the body is [bs].
    Its chunks have no error. A stream of announced length holds [bs] and [more] behind it,
    and ends with [fin]: there is something behind [bs] only if [bs] has that length. *)
Definition contains (body : Body I R) (w : W) (bs more : bytes) (fin : option io_error) : Prop :=
  match body_0 body with
  | Some Empty => bs = [] /\ more = [] /\ fin = None
  | Some (Buffered v) => bs = v /\ more = [] /\ fin = None
  | Some (Iter it) =>
      more = [] /\ fin = None /\
      exists P, produces it w P /\
        forall items, P items -> S (length items) < fuel /\
          payload items = bs /\ first_error items = None
  | Some (Reader r len) =>
      holds r w (bs ++ more) fin /\ S (length bs) < fuel /\
      match len with
      | Some l => (N.of_nat (length bs) <= l)%N /\ (l <= isize_max)%N /\
                  (more = [] /\ fin = None \/ N.of_nat (length bs) = l)
      | None => more = [] /\ fin = None
      end
  | None => False
  end.

Lemma skip_first_error_None items :
  first_error items = None ->
  payload (ok_prefix (skip_first_error items)) = payload items.
Proof.
  induction items as [|[[d|t]|e] items IH]; [done| | |done]; intros He; cbn in He.
  - cbn [skip_first_error]. by rewrite first_error_None.
  - by apply IH.
Qed.

Lemma reader_items_no_error len bs items :
  reader_items len bs None items -> first_error items = None.
Proof.
  intros Hi. remember None as fin eqn:Hfin. induction Hi; [done|done|by apply IHHi|done].
Qed.

Lemma take_holds (r : R) (w : W) bs more fin len :
  holds r w (bs ++ more) fin ->
  match len with
  | Some l => (N.of_nat (length bs) <= l)%N /\ (l <= isize_max)%N /\
              (more = [] /\ fin = None \/ N.of_nat (length bs) = l)
  | None => more = [] /\ fin = None
  end ->
  holds (Build_Take r (wrap64 <$> len)) w bs None.
Proof.
  intros Hr Hl. destruct len as [l|]; [|by destruct Hl as [-> ->]; rewrite app_nil_r in Hr].
  destruct Hl as (Hl & Hm & Hmore). unfold isize_max in Hm.
  exists (bs ++ more), fin. cbn. rewrite wrap64_id by lia. rewrite length_app. split_and!; [done|..].
  - destruct Hmore as [[-> _]|<-]; [by rewrite app_nil_r, take_ge by lia|].
    by rewrite Nat2N.id, take_app_length.
  - destruct (N.leb_spec l (N.of_nat (length bs + length more))); [done|].
    destruct Hmore as [[_ ->]|]; [done|lia].
Qed.

Lemma contains_bytes (body : Body I R) w bs more fin :
  contains body w bs more fin -> body_bytes_of body w bs.
Proof.
  unfold contains, body_bytes_of. destruct (body_0 body) as [[|v|it|r len]|]; [tauto..| | |done].
  - intros (_ & _ & P & Hit & HP). exists P. split; [done|]. intros items Hi.
    destruct (HP _ Hi) as (Hl & <- & He). rewrite first_error_None by done.
    split_and!; [lia|done|done].
  - intros (Hr & Hf & Hl). split_and!; [by eapply take_holds|lia|]. destruct len; [apply Hl|done].
Qed.

Lemma contains_reader (body : Body I R) w bs more fin :
  contains body w bs more fin -> body_reader_of body w bs.
Proof.
  unfold contains, body_reader_of. destruct (body_0 body) as [[|v|it|r len]|]; [tauto..| | |done].
  - intros (_ & _ & P & Hit & HP). exists P. split; [done|]. intros items Hi.
    destruct (HP _ Hi) as (Hl & <- & He). by rewrite skip_first_error_None.
  - intros (Hr & Hf & Hl). by eapply take_holds.
Qed.

Lemma contains_chunks (body : Body I R) w bs :
  1 < fuel -> contains body w bs [] None ->
  body_chunks_of body w (fun items => length items < fuel /\ payload items = bs /\
                                      first_error items = None).
Proof.
  intros Hf. unfold contains, body_chunks_of. destruct (body_0 body) as [[|v|it|r len]|]; try done.
  - intros [-> _]. split_and!; [simpl; lia|done|done].
  - intros [-> _]. split_and!; [simpl; lia| |done]. apply app_nil_r.
  - intros (_ & _ & P & Hit & HP). exists P. split; [done|]. intros items Hi.
    destruct (HP _ Hi) as (Hl & Hp & He). rewrite first_error_None by done.
    split_and!; [lia|done|done].
  - rewrite app_nil_r. intros (Hr & Hfb & Hl). exists bs, None. split; [done|]. intros items Hi.
    destruct (reader_items_data _ _ _ _ Hi) as [_ Hlen].
    split_and!; [lia| |by eapply reader_items_no_error].
    eapply reader_items_payload; [done|]. destruct len; [by destruct Hl|done].
Qed.

(** Taking the data of all the chunks of a body *)
Definition all_chunks (body : Body I R) : ST W io_error bytes :=
  let! it := into_chunks body in
  let! (ds, it) := borrow (collect_data fuel) it in
  drop_value it;;;
  ret (concat ds).

(** C28. The ways to consume a body agree, for every kind of body whose chunks have no error.
    [into_bytes] and reading what [into_reader] returns to its end give the same bytes; those
    of a stream of known length end at this length, whatever follows there and however the
    stream ends. The data of the chunks of [into_chunks] are these bytes too, provided that
    nothing follows on the stream and it ends without an error: a body that is shorter than
    its stream is different, there ([chunks_overrun]). *)
Theorem body_views_agree (body : Body I R) w bs more fin :
  1 < fuel -> length bs < fuel -> contains body w bs more fin ->
  wp (into_bytes body) (fun got _ => got = bs) never w /\
  wp (read_all body) (fun got _ => got = bs) never w /\
  (more = [] -> fin = None -> wp (all_chunks body) (fun got _ => got = bs) never w).
Proof.
  intros Hf Hlen Hb. split_and!.
  - eapply wp_never_mono; [by eapply body_into_bytes_spec, contains_bytes|].
    by intros got w' [_ ->].
  - unfold read_all. wp_step.
    eapply wp_never_mono; [by eapply body_into_reader_spec, contains_reader|].
    intros rd w1 [_ Hrd]. wp_steps.
    eapply wp_mono; [by apply (read_to_end_spec fuel rd w1 bs None)| |].
    + intros got [rd' w2] (_ & _ & -> & Hrd'). wp_steps.
      eapply wp_never_mono; [by eapply (drop_holds _ rd' w2)|].
      intros [] w3 _. by apply wp_ret.
    + by intros e [rd' w2] (_ & _ & ?).
  - intros -> ->. unfold all_chunks. wp_step.
    eapply wp_never_mono; [by apply body_into_chunks_spec, contains_chunks|].
    intros it w1 [_ Hit]. wp_steps.
    change (produces (it : ChunkIterator I R) w1 (fun items => length items < fuel /\
              payload items = bs /\ first_error items = None)) in Hit.
    eapply wp_mono.
    { apply (collect_data_spec fuel (it : ChunkIterator I R) w1 _ bs None Hit); [lia|].
      intros items (Hl & Hp & He). by rewrite first_error_None. }
    + intros ds [it' w2] (_ & _ & Hds & Hal). wp_steps.
      eapply wp_never_mono; [by eapply (iter_alive_drop _ it' w2)|].
      intros [] w3 _. by apply wp_ret.
    + by intros e [it' w2] (_ & ? & _).
Qed.

(** [into_bytes] of a body of chunks returns all the data when no chunk is an
    error, and otherwise the first error. *)
Theorem body_into_bytes_first_error (it : I) w P bs err :
  produces it w P ->
  (forall items, P items -> length items < fuel /\ payload (ok_prefix items) = bs /\
                            first_error items = err) ->
  wp (into_bytes (MkBody (R := R) (Some (Iter it))))
     (fun got _ => err = None /\ got = bs) (fun e _ => err = Some e) w.
Proof.
  intros Hit HP. eapply wp_mono; [by apply (body_into_bytes_iter_spec it w P bs err)| |].
  - by intros got w' [_ ?].
  - by intros e w' [_ ?].
Qed.

(** [Drop for Body] skips what was not read: a stream of which the body is the
    first [len] bytes is let go of right behind the body. *)
Theorem body_drop_skips (stream : R) len w all fin :
  holds stream w all fin -> (len < 2 ^ 64)%N ->
  (N.to_nat len <= length all \/ fin = None) -> length all < fuel ->
  wp (body_drop_impl (E := io_error) (Body_from_reader (I := I) stream (Some len)))
     (fun _ w' => passed R w' (drop (N.to_nat len) all) fin) never w.
Proof.
  intros Hs Hlen Hl Hf. eapply wp_never_mono; [by apply (body_drop_reader_spec _ stream len w all fin)|].
  by intros [] w' [_ ?].
Qed.

(** A body that [Default] makes cannot be consumed at all. *)
Theorem default_body_panics w :
  into_bytes (Body_default (I := I) (R := R)) w = Panic /\
  into_reader (Body_default (I := I) (R := R)) w = Panic /\
  into_chunks (Body_default (I := I) (R := R)) w = Panic.
Proof. done. Qed.
End properties.

(** A stream in memory, longer than the body *)
Section overrun.
Context `{!HttpApi} `{!Fuel} {W I : Type} `{!World W} `{!ChunkIter W I}.
Implicit Types (w : W).

(** The first chunk of a stream in memory is all of it. *)
Lemma overrun_next w bs len :
  (0 < len < N.of_nat (length bs))%N -> length bs <= DEFAULT_BUF_SIZE ->
  chunk_iterator_next (I := I) (MkChunkIterator (Some (CIReader (Cursor_new bs) (Some len))), w) =
  Ok (Some (inl (Data bs))) (MkChunkIterator None, w).
Proof.
  intros Hlen Hbuf. unfold chunk_iterator_next. cbn -[DEFAULT_BUF_SIZE].
  rewrite take_ge by done. destruct bs as [|c bs]; [cbn in Hlen; lia|].
  unfold checked_sub. by rewrite (proj2 (N.leb_gt _ _)) by apply Hlen.
Qed.

Lemma overrun_collect w bs len :
  (0 < len < N.of_nat (length bs))%N -> length bs <= DEFAULT_BUF_SIZE -> 1 < fuel ->
  collect_data (I := ChunkIterator I Cursor) fuel
    (MkChunkIterator (Some (CIReader (Cursor_new bs) (Some len))), w) =
  Ok [bs] (MkChunkIterator None, w).
Proof.
  intros Hlen Hbuf Hf.
  assert (data_next (I := ChunkIterator I Cursor)
      (MkChunkIterator (Some (CIReader (Cursor_new bs) (Some len))), w) =
    Ok (Some (inl bs)) (MkChunkIterator None, w)) as H1.
  { unfold data_next. destruct fuel; [lia|]. cbn [data_next_loop]. unfold bind. cbn [next ChunkIterator_iter].
    by rewrite (overrun_next w bs len Hlen Hbuf). }
  assert (data_next (I := ChunkIterator I Cursor) (MkChunkIterator (R := Cursor) None, w) =
    Ok None (MkChunkIterator None, w)) as H2 by (unfold data_next; by destruct fuel; [lia|]).
  destruct fuel as [|[|f]]; [lia..|]. cbn [collect_data]. unfold bind. by rewrite H1, H2.
Qed.

(** C38. A body of a known length that is read from a stream ends at its length for
    [into_bytes], but not for [into_chunks]: the chunks take along what follows it. *)
Theorem chunks_overrun w bs len :
  (0 < len < N.of_nat (length bs))%N -> length bs <= DEFAULT_BUF_SIZE -> length bs < fuel ->
  let body := Body_from_reader (I := I) (Cursor_new bs) (Some len) in
  wp (body_into_bytes body) (fun got _ => got = take (N.to_nat len) bs) never w /\
  wp (all_chunks body) (fun got _ => got = bs) never w.
Proof.
  intros Hlen Hbuf Hf body. unfold DEFAULT_BUF_SIZE in Hbuf. split.
  - subst body. unfold body_into_bytes, unwrap_inner, Body_from_reader. cbn [body_0]. wp_steps.
    apply wp_alloc_vec; [unfold isize_max; lia|]. wp_steps. rewrite wrap64_id by lia.
    pose (L := Take_tail_laws (W := W) (R := Cursor) (drop (N.to_nat len) bs) None).
    eapply wp_mono.
    + apply (read_to_end_spec (ReadLaws0 := L) fuel _ w (take (N.to_nat len) bs) None);
        [|rewrite length_take; lia].
      by apply tail_holds_intro; [split|done|left; lia].
    + intros got [[c l] w1] (_ & _ & -> & _). wp_step. by apply wp_ret, wp_ret.
    + by intros e [tk w1] (_ & _ & ?).
  - subst body. unfold all_chunks. wp_step. apply wp_ret. wp_step.
    unfold borrow, wp. rewrite overrun_collect by (done || lia). cbn. by rewrite app_nil_r.
Qed.
End overrun.

Section channel_properties.
Context `{!HttpApi} `{!Fuel} {R : Type} `{!Read (store (Chunk + io_error)) R}
  `{!Drop (store (Chunk + io_error)) R} `{!ReadLaws (store (Chunk + io_error)) R}.
Implicit Types (w : store (Chunk + io_error)).

(** What is sent through a [BodyChannel] before it is closed is what
    [into_bytes] returns: all of it, in order. *)
Theorem channel_streams ds w :
  length ds < fuel ->
  wp (let! (channel, body) := Body_channel in
      send_all channel ds;;;
      channel_drop channel;;;
      body_into_bytes (R := R) body)
     (fun got _ => got = concat ds) never w.
Proof.
  intros Hf. wp_step. eapply wp_never_mono; [apply Body_channel_open|].
  intros [channel [body]] w1 [Hb Hc]. cbn [fst snd body_0] in *. subst body.
  wp_step. eapply wp_never_mono; [by eapply send_all_open|]. intros [] w2 Hc2.
  wp_step. eapply wp_never_mono; [by eapply drop_sender_closes|]. intros [] w3 Hc3.
  eapply wp_mono; [eapply (body_into_bytes_iter_spec _ w3 _ (concat ds) None)| |].
  - by eapply closed_channel_produces.
  - intros items <-. cbn [app]. destruct (items_data ds) as [-> ->]. by rewrite length_fmap.
  - by intros got w' (_ & _ & ->).
  - by intros e w' [_ ?].
Qed.

(** [into_bytes] of a body whose channel was aborted fails with the error that
    [abort] sent. *)
Theorem channel_abort_fails ds w :
  S (length ds) < fuel ->
  wp (let! (channel, body) := Body_channel in
      send_all channel ds;;;
      channel_abort channel;;;
      body_into_bytes (R := R) body)
     (fun _ _ => False) (fun e _ => e = io_other "aborted") w.
Proof.
  intros Hf. wp_step. eapply wp_never_mono; [apply Body_channel_open|].
  intros [channel [body]] w1 [Hb Hc]. cbn [fst snd body_0] in *. subst body.
  wp_step. eapply wp_never_mono; [by eapply send_all_open|]. intros [] w2 Hc2.
  wp_step. unfold channel_abort. wp_step. apply wp_result_ok.
  eapply wp_never_mono; [by eapply send_item_open|]. intros [] w3 Hc3.
  eapply wp_never_mono; [by eapply drop_sender_closes|]. intros [] w4 Hc4.
  eapply wp_mono; [eapply (body_into_bytes_iter_spec _ w4 _ (concat ds) (Some (io_other "aborted")))| |].
  - by eapply closed_channel_produces.
  - intros items <-. cbn [app]. destruct (items_data_error ds (io_other "aborted")) as [-> ->].
    rewrite length_app, length_fmap. simpl. split_and!; [lia|done|done].
  - by intros got w' (_ & ? & _).
  - intros e w' [_ He]. by injection He.
Qed.

(** The chunks of an aborted body end as if it had been complete: the error
    that [abort] sent does not reach the consumer of [into_chunks]. *)
Theorem channel_abort_unnoticed ds w :
  wp (let! (channel, body) := Body_channel in
      send_all channel ds;;;
      channel_abort channel;;;
      body_into_chunks (R := R) body)
     (fun it w' => produces it w' (eq ((fun d => inl (Data d)) <$> ds))) never w.
Proof.
  wp_step. eapply wp_never_mono; [apply Body_channel_open|].
  intros [channel [body]] w1 [Hb Hc]. cbn [fst snd body_0] in *. subst body.
  wp_step. eapply wp_never_mono; [by eapply send_all_open|]. intros [] w2 Hc2.
  wp_step. unfold channel_abort. wp_step. apply wp_result_ok.
  eapply wp_never_mono; [by eapply send_item_open|]. intros [] w3 Hc3.
  eapply wp_never_mono; [by eapply drop_sender_closes|]. intros [] w4 Hc4.
  apply wp_ret. eexists. split; [by eapply closed_channel_produces|].
  intros items <-. cbn [app]. by rewrite ok_prefix_data_error.
Qed.

(** Once the body is dropped, every way to send through its channel fails with
    "body closed". *)
Theorem channel_closed_body (channel : BodyChannel) d w c :
  chans w !! tx (body_channel_0 channel) = Some c ->
  wp (body_drop_impl (E := io_error) (R := R)
        (MkBody (Some (Iter (Build_Receiver (tx (body_channel_0 channel))))));;;
      channel_send channel d)
     (fun _ _ => False) (fun e _ => e = io_other "body closed") w.
Proof.
  intros Hc. wp_step. eapply wp_never_mono; [exact (drop_receiver_closes (Build_Receiver _) w c Hc)|].
  intros [] w1 Hc1. cbn [rx] in Hc1. unfold channel_send, send_item, wp, bind, send, the_store.
  cbn. by rewrite Hc1.
Qed.
End channel_properties.
