(* ===== verification/Threads.v ===== *)
(** * Threads: bodies that another thread streams

    The closures of src/examples/chunked.rs, trailers.rs and sse.rs make a body with
    [Body::channel] and spawn a thread that sends its chunks, while the connection writes
    the response. Here are the threads, their interleaving with the thread that reads the
    body, and what that thread gets in every interleaving. *)
From stdpp Require Import base list gmap strings.
From Stdlib Require Import Strings.Byte NArith Lia.
From S2P Require Import Prelude Errors StdIo HttpApi Mpsc HttpBody Body BodyLaws.

(** ** Threads

    What a thread does to its channel, call by call. Each call ends with [?]: the thread
    ends with the first that fails, and its channel is dropped when it ends. *)
Inductive channel_call :=
| CallSend (data : bytes)
| CallTrailer (header value : bytes + boxed_error)
| CallSleep (secs : N).

Section threads.
Context `{!HttpApi}.
Abbreviation item := (Chunk + io_error)%type.

(** The channels of the bodies, the threads that are running, by the channel each of them
    owns, and the scheduler: which threads make a step before the next time a channel is
    read or closed. *)
Record streams := {
  st_chans : store item;
  st_running : gmap nat (list channel_call);
  st_schedule : list (list nat);
}.

Class HasStreams (W : Type) := {
  get_streams : W -> streams;
  set_streams : streams -> W -> W;
}.

Context {W : Type} `{!HasStreams W}.

#[export] Instance streams_store : HasStore W item := {|
  get_store w := st_chans (get_streams w);
  set_store s w := set_streams (Build_streams s (st_running (get_streams w))
                                              (st_schedule (get_streams w))) w;
|}.

Definition set_running {E} (running : gmap nat (list channel_call)) : ST W E unit := fun w =>
  Ok tt (set_streams (Build_streams (st_chans (get_streams w)) running
                                    (st_schedule (get_streams w))) w).

(** [thread::spawn(move || ..)]: the thread owns the channel. *)
Definition spawn {E} (channel : BodyChannel) (calls : list channel_call) : ST W E unit :=
  let! w := get_state in
  set_running (<[tx (body_channel_0 channel) := calls]> (st_running (get_streams w))).

Definition thread_call (channel : BodyChannel) (c : channel_call) : ST W boxed_error unit :=
  match c with
  | CallSend data => map_err BoxedIo (channel_send channel data)
  | CallTrailer header value => channel_send_trailer channel header value
  | CallSleep _ => ret tt
  end.

(** The thread ends: its result is discarded, its channel dropped. *)
Definition thread_end {E} (id : nat) : ST W E unit :=
  channel_drop {| body_channel_0 := Build_Sender id |};;;
  let! w := get_state in
  set_running (delete id (st_running (get_streams w))).

(** One step of the thread that owns the channel [id] *)
Definition thread_step {E} (id : nat) : ST W E unit :=
  let! w := get_state in
  match st_running (get_streams w) !! id with
  | None => ret tt
  | Some [] => thread_end id
  | Some (c :: calls) =>
      let! r := attempt (thread_call {| body_channel_0 := Build_Sender id |} c) in
      match r with
      | inl _ =>
          let! w := get_state in
          set_running (<[id := calls]> (st_running (get_streams w)))
      | inr _ => thread_end id
      end
  end.

Fixpoint threads_step {E} (ids : list nat) : ST W E unit :=
  match ids with
  | [] => ret tt
  | id :: ids => thread_step id;;; threads_step ids
  end.

(** The others run as the scheduler has it. *)
Definition run_others {E} : ST W E unit :=
  let! w := get_state in
  match st_schedule (get_streams w) with
  | [] => ret tt
  | ids :: schedule =>
      (fun w => Ok tt (set_streams (Build_streams (st_chans (get_streams w))
                                      (st_running (get_streams w)) schedule) w));;;
      threads_step ids
  end.

(** [recv] that waits: until something was sent or the channel is closed, the thread at
    the other end runs. It waits forever when that thread has ended without closing. *)
Fixpoint recv_waiting {E} (n : nat) (r : Receiver item) : ST W E (option item) := fun w =>
  match recv r w with
  | Block => match n with
             | O => Block
             | S n => (thread_step (rx r);;; recv_waiting n r) w
             end
  | other => other
  end.

Definition thread_recv {E} (r : Receiver item) : ST W E (option item) :=
  run_others;;;
  let! w := get_state in
  recv_waiting (S (length (default [] (st_running (get_streams w) !! rx r)))) r.

(** ** The receiving end of [Body::channel] beside such threads *)
Record ThreadReceiver := { thread_rx : Receiver item }.

#[export] Instance ThreadReceiver_drop : Drop W ThreadReceiver := fun E r =>
  run_others;;; drop_receiver (thread_rx r).
#[export] Instance ThreadReceiver_iter : ChunkIter W ThreadReceiver := {|
  next := fun st => zoom_r (thread_recv (thread_rx st.1)) st;
|}.

(** [let (channel, body) = Body::channel(); thread::spawn(move || ..)]: the body *)
Definition streamed_body {E R} (calls : list channel_call) : ST W E (Body ThreadReceiver R) :=
  let! (tx, rx) := channel in
  spawn {| body_channel_0 := tx |} calls;;;
  ret (MkBody (Some (Iter {| thread_rx := rx |}))).

(** What a thread sends unless its channel is closed by the other end *)
Fixpoint thread_items (calls : list channel_call) : list item :=
  match calls with
  | [] => []
  | CallSend data :: calls => inl (Data data) :: thread_items calls
  | CallTrailer (inl header) (inl value) :: calls =>
      inl (Trailers (hm_insert header value hm_new)) :: thread_items calls
  | CallTrailer _ _ :: _ => []
  | CallSleep _ :: calls => thread_items calls
  end.
End threads.
Arguments streams {_}.
Arguments HasStreams {_} W.
#[export] Hint Mode HasStreams - ! : typeclass_instances.

(** ** Laws

    The threads are a part of the world of their own: using the channels of bodies is not
    output, and output does not touch them. *)
Class StreamWorld `{!HttpApi} (W : Type) `{!World W} `{!HasStreams W} := {
  get_set_streams (s : streams) (w : W) : get_streams (set_streams s w) = s;
  set_set_streams (s s' : streams) (w : W) : set_streams s (set_streams s' w) = set_streams s w;
  set_get_streams (w : W) : set_streams (get_streams w) w = w;
  set_streams_rstep (s : streams) (w : W) : rstep w (set_streams s w);
  wstep_streams (w w' : W) : wstep w w' -> get_streams w' = get_streams w;
}.
#[export] Hint Mode StreamWorld - ! - - : typeclass_instances.

Section laws.
Context `{!HttpApi} {W : Type} `{!World W} `{!HasStreams W} `{!StreamWorld W}.
Abbreviation item := (Chunk + io_error)%type.
Implicit Types (w : W) (s : streams).

(** Only the channels of bodies and the threads were used. *)
Definition aside w w' : Prop := exists s, w' = set_streams s w.

#[export] Instance aside_preorder : PreOrder aside.
Proof.
  split.
  - intros w. exists (get_streams w). by rewrite set_get_streams.
  - intros w1 w2 w3 [s ->] [s' ->]. exists s'. by rewrite set_set_streams.
Qed.

Lemma aside_rstep w w' : aside w w' -> rstep w w'.
Proof. intros [s ->]. apply set_streams_rstep. Qed.

(** The receiver of the channel [id] is going to get [items]: what is queued, then what
    the thread at the other end, if it is still running, sends. *)
Definition stream_at (id : nat) s (items : list item) : Prop :=
  exists q, match st_running s !! id with
    | Some calls => chans (st_chans s) !! id = Some (Build_chan q true true) /\
                    items = q ++ thread_items calls
    | None => chans (st_chans s) !! id = Some (Build_chan q false true) /\ items = q
    end.

(** What a thread has left to do *)
Definition left_of (id : nat) s : nat := length (default [] (st_running s !! id)).

(** *** One step of a thread

    It keeps what every receiver is going to get, and leaves the other threads alone. *)
Definition stepped (id : nat) s s' : Prop :=
  (forall id' items, stream_at id' s items -> stream_at id' s' items) /\
  (forall id', id' <> id -> st_running s' !! id' = st_running s !! id') /\
  (is_Some (st_running s !! id) ->
     st_running s' !! id = None \/ left_of id s' < left_of id s).

(** The channel [id] and the thread that owns it change, in a way that [id] keeps. *)
Lemma stepped_at id s c calls running' :
  is_Some (st_running s !! id) ->
  (forall id', id' <> id -> running' !! id' = st_running s !! id') ->
  running' !! id = calls -> (calls = None \/ length (default [] calls) < left_of id s) ->
  (forall items, stream_at id s items ->
     exists q, match calls with
       | Some calls => c = Some (Build_chan q true true) /\ items = q ++ thread_items calls
       | None => c = Some (Build_chan q false true) /\ items = q
       end) ->
  forall store', chans store' !! id = c ->
  (forall id', id' <> id -> chans store' !! id' = chans (st_chans s) !! id') ->
  stepped id s (Build_streams store' running' (st_schedule s)).
Proof.
  intros Hrun Hothers Hid Hleft Hkeep store' Hc Hcs. split_and!; [|done|].
  - intros id' items Hs. destruct (decide (id' = id)) as [->|Hne].
    + destruct (Hkeep items Hs) as [q Hq]. exists q. cbn. rewrite Hid, Hc. by destruct calls.
    + unfold stream_at in *. cbn. by rewrite Hothers, Hcs.
  - intros _. cbn. unfold left_of. cbn. rewrite Hid. destruct Hleft; auto.
Qed.

Definition closed (id : nat) (st : store item) : store item :=
  match chans st !! id with
  | Some c => Build_store (next_chan st)
                (<[id := Build_chan (queue c) false (receiver_alive c)]> (chans st))
  | None => st
  end.

Lemma closed_at id st :
  chans (closed id st) !! id =
  (fun c => Build_chan (queue c) false (receiver_alive c)) <$> chans st !! id.
Proof.
  unfold closed. destruct (chans st !! id) as [c|] eqn:Hc; [|by rewrite Hc].
  cbn [chans]. by rewrite lookup_insert_eq.
Qed.

Lemma closed_others id id' st : id' <> id -> chans (closed id st) !! id' = chans st !! id'.
Proof.
  intros Hne. unfold closed. destruct (chans st !! id); [|done].
  cbn [chans]. by rewrite lookup_insert_ne.
Qed.

Lemma thread_end_eq E id w :
  thread_end (E := E) id w =
  Ok tt (set_streams (Build_streams (closed id (st_chans (get_streams w)))
           (delete id (st_running (get_streams w))) (st_schedule (get_streams w))) w).
Proof.
  unfold thread_end, channel_drop, drop_sender, bind, get_state, set_running, closed, the_store.
  cbn [get_store streams_store tx body_channel_0].
  destruct (chans (st_chans (get_streams w)) !! id) as [c|]; [|done].
  unfold update_chan, the_store. cbn [get_store set_store streams_store].
  by rewrite get_set_streams, set_set_streams.
Qed.

Lemma send_item_streams id (i : item) w :
  match send_item {| body_channel_0 := Build_Sender id |} i w with
  | Ok _ w' => exists c, chans (st_chans (get_streams w)) !! id = Some c /\
      w' = set_streams (Build_streams
             (Build_store (next_chan (st_chans (get_streams w)))
                (<[id := Build_chan (queue c ++ [i]) (sender_alive c) (receiver_alive c)]>
                   (chans (st_chans (get_streams w)))))
             (st_running (get_streams w)) (st_schedule (get_streams w))) w
  | Err _ w' => w' = w /\
      forall q a, chans (st_chans (get_streams w)) !! id <> Some (Build_chan q a true)
  | _ => False
  end.
Proof.
  unfold send_item, send, bind, the_store, update_chan, the_store.
  cbn [get_store set_store streams_store tx body_channel_0].
  destruct (chans (st_chans (get_streams w)) !! id) as [[q a []]|]; cbn.
  - by eexists.
  - by split.
  - by split.
Qed.

(** A call that succeeds moves its item to the queue; one that fails leaves everything. *)
Lemma thread_call_spec id c w :
  match thread_call {| body_channel_0 := Build_Sender id |} c w with
  | Ok _ w' => exists st,
      w' = set_streams (Build_streams st (st_running (get_streams w)) (st_schedule (get_streams w))) w /\
      (forall id', id' <> id -> chans st !! id' = chans (st_chans (get_streams w)) !! id') /\
      (forall q, chans (st_chans (get_streams w)) !! id = Some (Build_chan q true true) ->
         exists q', chans st !! id = Some (Build_chan q' true true) /\
           forall calls, q ++ thread_items (c :: calls) = q' ++ thread_items calls)
  | Err _ w' => w' = w /\
      (forall q, chans (st_chans (get_streams w)) !! id = Some (Build_chan q true true) ->
         forall calls, thread_items (c :: calls) = [])
  | _ => False
  end.
Proof.
  assert (Hsend : forall i,
    (forall calls, thread_items (c :: calls) = i :: thread_items calls) ->
    match send_item {| body_channel_0 := Build_Sender id |} i w with
    | Ok _ w' => exists st,
        w' = set_streams (Build_streams st (st_running (get_streams w)) (st_schedule (get_streams w))) w /\
        (forall id', id' <> id -> chans st !! id' = chans (st_chans (get_streams w)) !! id') /\
        (forall q, chans (st_chans (get_streams w)) !! id = Some (Build_chan q true true) ->
           exists q', chans st !! id = Some (Build_chan q' true true) /\
             forall calls, q ++ thread_items (c :: calls) = q' ++ thread_items calls)
    | Err _ w' => w' = w /\
        (forall q, chans (st_chans (get_streams w)) !! id = Some (Build_chan q true true) ->
           forall calls, thread_items (c :: calls) = [])
    | _ => False
    end).
  { intros i Hi. pose proof (send_item_streams id i w) as Hs.
    destruct (send_item _ i w) as [[] w'|e w'| | |]; [|destruct Hs as [-> Hno]|done..].
    - destruct Hs as (ch & Hc & ->). eexists. split; [done|]. cbn [chans]. split.
      + intros id' Hne. by rewrite lookup_insert_ne.
      + intros q Hq. rewrite Hc in Hq. injection Hq as ->. rewrite lookup_insert_eq. cbn [queue].
        exists (q ++ [i]). split; [done|]. intros calls. by rewrite Hi, <-app_assoc.
    - split; [done|]. intros q Hq. by destruct (Hno q true). }
  destruct c as [d|[h|e] [v|e']|n]; unfold thread_call, channel_send_trailer, channel_send,
    channel_send_trailers, map_err.
  - specialize (Hsend (inl (Chunk_from d)) ltac:(done)). by destruct (send_item _ _ w).
  - specialize (Hsend (inl (Trailers (hm_insert h v hm_new))) ltac:(done)).
    by destruct (send_item _ _ w).
  - by split.
  - by split.
  - by split.
  - exists (st_chans (get_streams w)). split_and!; [|done|eauto].
  rewrite <-(set_get_streams w) at 1. by destruct (get_streams w).
Qed.

Lemma thread_step_spec E id w :
  exists s, thread_step (E := E) id w = Ok tt (set_streams s w) /\ stepped id (get_streams w) s.
Proof.
  unfold thread_step, bind, get_state.
  destruct (st_running (get_streams w) !! id) as [[|c calls]|] eqn:Hrun.
  - rewrite thread_end_eq. eexists. split; [done|].
    apply (stepped_at id (get_streams w) (chans (closed id (st_chans (get_streams w))) !! id) None);
      [by rewrite Hrun|intros; by rewrite lookup_delete_ne|by rewrite lookup_delete_eq|by left| |done|].
    + intros items (q & Hq). rewrite Hrun in Hq. destruct Hq as [Hq ->]. exists q.
      rewrite closed_at, Hq. split; [done|]. by rewrite app_nil_r.
    + intros id' Hne. by apply closed_others.
  - unfold attempt. pose proof (thread_call_spec id c w) as Hc.
    destruct (thread_call _ c w) as [[] w'|e w'| | |]; [| |done..].
    + destruct Hc as (st & -> & Hothers & Hq). unfold set_running. rewrite get_set_streams. cbn.
      rewrite set_set_streams. eexists. split; [done|].
      apply (stepped_at id (get_streams w) (chans st !! id) (Some calls));
        [by rewrite Hrun|intros; by rewrite lookup_insert_ne|by rewrite lookup_insert_eq| | |done|done].
      * right. unfold left_of. rewrite Hrun. cbn. lia.
      * intros items (q & Hs). rewrite Hrun in Hs. destruct Hs as [Hs ->].
        destruct (Hq q Hs) as (q' & -> & Heq). by exists q'.
    + destruct Hc as [-> Hno]. rewrite thread_end_eq. eexists. split; [done|].
      apply (stepped_at id (get_streams w) (chans (closed id (st_chans (get_streams w))) !! id) None);
        [by rewrite Hrun|intros; by rewrite lookup_delete_ne|by rewrite lookup_delete_eq|by left| |done|].
      * intros items (q & Hs). rewrite Hrun in Hs. destruct Hs as [Hs ->]. exists q.
        by rewrite (Hno q Hs), app_nil_r, closed_at, Hs.
      * intros id' Hne. by apply closed_others.
  - exists (get_streams w). rewrite set_get_streams. split; [done|]. split_and!; [done|done|].
    rewrite Hrun. by intros [? ?].
Qed.

(** *** Many steps *)
Definition keeps_streams s s' : Prop :=
  forall id items, stream_at id s items -> stream_at id s' items.

Lemma threads_step_spec E ids w :
  exists s, threads_step (E := E) ids w = Ok tt (set_streams s w) /\ keeps_streams (get_streams w) s.
Proof.
  revert w. induction ids as [|id ids IH]; intros w.
  { exists (get_streams w). rewrite set_get_streams. split; [done|by intros id items]. }
  cbn [threads_step]. unfold bind. destruct (thread_step_spec E id w) as (s & -> & Hs & _).
  destruct (IH (set_streams s w)) as (s' & -> & Hs'). rewrite get_set_streams in Hs'.
  exists s'. rewrite set_set_streams. split; [done|]. intros id' items Hi. by apply Hs', Hs.
Qed.

Lemma run_others_spec E w :
  exists s, run_others (E := E) w = Ok tt (set_streams s w) /\ keeps_streams (get_streams w) s.
Proof.
  unfold run_others, bind, get_state. destruct (st_schedule (get_streams w)) as [|ids schedule].
  { exists (get_streams w). rewrite set_get_streams. split; [done|by intros id items]. }
  match goal with |- context [threads_step ids (set_streams ?s0 w)] => set (s1 := s0) end.
  destruct (threads_step_spec E ids (set_streams s1 w)) as (s & -> & Hs).
  rewrite get_set_streams in Hs. exists s. by rewrite set_set_streams.
Qed.

(** *** What a receiver gets *)
Definition received (id : nat) (items : list item) (o : option item) s : Prop :=
  match items with
  | [] => o = None
  | i :: items => o = Some i /\ stream_at id s items
  end.

Lemma recv_waiting_spec E n (r : Receiver item) w items :
  stream_at (rx r) (get_streams w) items ->
  st_running (get_streams w) !! rx r = None \/ left_of (rx r) (get_streams w) < n ->
  exists o s, recv_waiting (E := E) n r w = Ok o (set_streams s w) /\ received (rx r) items o s.
Proof.
  revert w. induction n as [n IH] using lt_wf_ind. intros w Hs Hn.
  pose proof Hs as (q & Hq).
  destruct q as [|i q]; [destruct (st_running (get_streams w) !! rx r) as [calls|] eqn:Hrun|].
  - destruct Hq as [Hc ->]. destruct Hn as [Hn|Hn]; [done|]. destruct n as [|n]; [lia|].
    cbn [recv_waiting]. unfold recv, the_store. cbn [get_store streams_store]. rewrite Hc. cbn [queue].
    cbn [sender_alive]. unfold bind at 1.
    destruct (thread_step_spec E (rx r) w) as (s & -> & Hkeep & _ & Hprog).
    destruct (IH n ltac:(lia) (set_streams s w)) as (o & s' & Hr & Ho).
    + rewrite get_set_streams. by apply Hkeep.
    + rewrite get_set_streams. destruct Hprog as [Hnone|Hlt]; [by rewrite Hrun|by left|right; lia].
    + exists o, s'. by rewrite Hr, set_set_streams.
  - destruct Hq as [Hc ->]. exists None, (get_streams w). rewrite set_get_streams. split; [|done].
    destruct n; cbn [recv_waiting]; unfold recv, the_store; cbn [get_store streams_store];
      by rewrite Hc.
  - assert (exists a, chans (st_chans (get_streams w)) !! rx r = Some (Build_chan (i :: q) a true) /\
      exists items', items = i :: items' /\
        match st_running (get_streams w) !! rx r with
        | Some calls => a = true /\ items' = q ++ thread_items calls
        | None => a = false /\ items' = q
        end) as (a & Hc & items' & -> & Ha).
    { destruct (st_running (get_streams w) !! rx r); destruct Hq as [Hc ->]; eexists; eauto. }
    do 2 eexists. split.
    + destruct n; cbn [recv_waiting]; unfold recv, the_store; cbn [get_store streams_store];
        rewrite Hc; cbn [queue]; reflexivity.
    + split; [done|]. exists q. cbn. rewrite lookup_insert_eq.
      destruct (st_running (get_streams w) !! rx r); by destruct Ha as [-> ->].
Qed.

(** The receiver gets the next item, or the end of the channel, in every interleaving. *)
Lemma thread_recv_spec E (r : Receiver item) w items :
  stream_at (rx r) (get_streams w) items ->
  exists o s, thread_recv (E := E) r w = Ok o (set_streams s w) /\ received (rx r) items o s.
Proof.
  intros Hs. unfold thread_recv. unfold bind at 1.
  destruct (run_others_spec E w) as (s & -> & Hkeep). unfold bind, get_state.
  rewrite get_set_streams.
  destruct (recv_waiting_spec E (S (length (default [] (st_running s !! rx r)))) r (set_streams s w) items)
    as (o & s' & -> & Ho).
  - rewrite get_set_streams. by apply Hkeep.
  - rewrite get_set_streams. right. unfold left_of. lia.
  - exists o, s'. by rewrite set_set_streams.
Qed.

Lemma thread_drop_spec E (r : ThreadReceiver) w :
  wp (drop_value (E := E) r) (fun _ w' => aside w w') never w.
Proof.
  unfold drop_value, ThreadReceiver_drop, wp, bind.
  destruct (run_others_spec E w) as (s & -> & _). unfold drop_receiver.
  destruct (_ !! _) as [c|]; [rewrite drop_all_items|by exists s].
  eexists. unfold update_chan. cbn [set_store streams_store]. by rewrite set_set_streams.
Qed.

(** ** It is a lawful iterator

    [None] is returned at the end of the channel, and every item before that in order. *)
#[export, refine] Instance ThreadReceiver_laws :
    ChunkIterLaws W ThreadReceiver (HW := reading_world aside) := {|
  produces r w P := exists items, stream_at (rx (thread_rx r)) (get_streams w) items /\ P items;
  iter_alive _ _ := True;
|}.
Proof.
  - intros r w P (items & _ & HP). eauto.
  - intros r w P Q (items & Hs & HP) HPQ. eauto.
  - intros r w w' P (items & Hs & HP) Hw. exists items. by rewrite (wstep_streams (World0 := World0) w w' Hw).
  - done.
  - done.
  - intros E r w _. apply thread_drop_spec.
  - intros r w P (items & Hs & HP). unfold wp, next, ThreadReceiver_iter, zoom_r. cbn [fst snd].
    destruct (thread_recv_spec io_error (thread_rx r) w items Hs) as (o & s & -> & Ho).
    split; [by exists s|]. destruct items as [|i items]; cbn in Ho.
    + subst o. done.
    + destruct Ho as [-> Ho]. exists items. rewrite get_set_streams. by split.
Defined.

(** *** The body of [Body::channel] whose other end was given to a thread *)
Lemma streamed_body_spec {E R} calls w :
  wp (streamed_body (E := E) (R := R) calls)
     (fun body w' => aside w w' /\ exists r, body = MkBody (Some (Iter r)) /\
        stream_at (rx (thread_rx r)) (get_streams w') (thread_items calls)) never w.
Proof.
  unfold streamed_body, channel, spawn, set_running, wp, bind, get_state, ret, the_store.
  cbn [get_store set_store streams_store tx body_channel_0]. rewrite ?get_set_streams.
  rewrite set_set_streams, ?get_set_streams. split; [by eexists|]. eexists. split; [done|].
  exists []. cbn. by rewrite !lookup_insert_eq.
Qed.

(** What a thread sends has no errors. *)
Lemma thread_items_ok calls :
  ok_prefix (thread_items calls) = thread_items calls /\ first_error (thread_items calls) = None.
Proof.
  induction calls as [|[d|[h|e] [v|e']|n] calls [IH1 IH2]]; try done.
  all: cbn; by rewrite IH1.
Qed.

(** C7. Whatever the scheduler does, a thread that reads a body to the end while another
    thread sends it never waits for a message that does not come: [into_bytes] returns, with
    all that the other thread sends. *)
Theorem streamed_into_bytes `{!Fuel} {R} `{!Read W R} `{!Drop W R} calls w :
  length (thread_items calls) < fuel ->
  wp (let! body := streamed_body calls in body_into_bytes (R := R) body)
     (fun got _ => got = payload (thread_items calls)) never w.
Proof.
  intros Hf. wp_step. eapply wp_never_mono; [apply streamed_body_spec|].
  intros body w1 (_ & r & -> & Hr). destruct (thread_items_ok calls) as [Hok He].
  eapply wp_mono.
  - apply (body_into_bytes_iter_spec (World0 := reading_world aside) r w1 (eq (thread_items calls))
      (payload (thread_items calls)) None); [by eexists|].
    intros items <-. by rewrite Hok.
  - by intros got w' (_ & _ & ->).
  - by intros e w' [_ ?].
Qed.

(** *** When nobody receives *)

(** The calls that do not use the channel, in front of the first that does *)
Fixpoint sleeping (calls : list channel_call) : nat :=
  match calls with CallSleep _ :: calls => S (sleeping calls) | _ => 0 end.

(** The receiver was dropped. *)
Definition abandoned (id : nat) s : Prop :=
  exists q a, chans (st_chans s) !! id = Some (Build_chan q a false).

Lemma thread_call_abandoned id c w :
  abandoned id (get_streams w) ->
  match c with
  | CallSleep _ => thread_call {| body_channel_0 := Build_Sender id |} c w = Ok tt w
  | _ => exists e, thread_call {| body_channel_0 := Build_Sender id |} c w = Err e w
  end.
Proof.
  intros (q & a & Hc).
  assert (Hsend : forall i, send_item {| body_channel_0 := Build_Sender id |} i w = Err (io_other "body closed") w).
  { intros i. unfold send_item, send, bind, the_store. cbn [get_store streams_store tx body_channel_0].
    by rewrite Hc. }
  destruct c as [d|[h|e] [v|e']|n]; unfold thread_call, channel_send, channel_send_trailer,
    channel_send_trailers, map_err; rewrite ?Hsend; by eexists.
Qed.

Lemma ended_steps E id n w :
  st_running (get_streams w) !! id = None -> threads_step (E := E) (repeat id n) w = Ok tt w.
Proof.
  intros Hrun. induction n as [|n IH]; [done|]. cbn [repeat threads_step].
  unfold bind at 1, thread_step, bind, get_state. by rewrite Hrun.
Qed.

(** The thread has ended, and nothing is received. *)
Definition gone (id : nat) s : Prop := st_running s !! id = None /\ abandoned id s.

Lemma abandoned_end E id n w :
  abandoned id (get_streams w) ->
  exists s, (thread_end (E := E) id;;; threads_step (repeat id n)) w = Ok tt (set_streams s w) /\ gone id s.
Proof.
  intros (q & a & Hc). unfold bind at 1. rewrite thread_end_eq, ended_steps.
  - eexists. split; [done|]. split; [by apply lookup_delete_eq|]. exists q, false.
    cbn [st_chans]. by rewrite closed_at, Hc.
  - rewrite get_set_streams. apply lookup_delete_eq.
Qed.

(** When the body was dropped, because the connection failed or the response has no
    body, the thread that sends it ends with its next send. *)
Theorem abandoned_thread_ends {E} id n calls w :
  abandoned id (get_streams w) -> st_running (get_streams w) !! id = Some calls ->
  sleeping calls < n ->
  exists s, threads_step (E := E) (repeat id n) w = Ok tt (set_streams s w) /\ gone id s.
Proof.
  revert calls w. induction n as [|n IH]; intros calls w Hab Hrun Hn; [lia|].
  cbn [repeat threads_step]. unfold bind at 1, thread_step, bind at 1, get_state. rewrite Hrun.
  destruct (abandoned_end E id n w Hab) as (s & Hend & Hgone). unfold bind in Hend.
  destruct calls as [|c calls]; [by exists s|].
  pose proof (thread_call_abandoned id c w Hab) as Hc. unfold bind at 1, attempt.
  destruct c as [d|h v|secs]; [destruct Hc as [e ->]; by exists s..|]. rewrite Hc.
  unfold bind, get_state, set_running.
  match goal with |- context [threads_step _ (set_streams ?s1 w)] => set (s1' := s1) end.
  destruct (IH calls (set_streams s1' w)) as (s2 & Hs2 & Hg); [| |cbn in Hn; lia|].
  - rewrite get_set_streams. exact Hab.
  - rewrite get_set_streams. apply lookup_insert_eq.
  - exists s2. rewrite Hs2. by rewrite set_set_streams.
Qed.
End laws.
