(* ===== verification/Message.v ===== *)
(** * Message: requests, responses and what reading and writing them share

    [http::Request] and [http::Response] by their parts; the encodings of
    src/src/response.rs; the code that src/src/request.rs and src/src/response.rs
    have in common: reading a head, building the headers, writing headers and an
    encoded body. *)
From stdpp Require Import base list gmap strings.
From Stdlib Require Import Strings.Byte NArith Lia.
From S2P Require Import Prelude Errors StdIo HttpApi Mpsc HttpBody Body.

(** [enum Encoding] *)
Inductive Encoding :=
| FixedLength (len : N)
| Chunked
| CloseDelimited.
#[export] Instance Encoding_eq_dec : EqDecision Encoding.
Proof. solve_decision. Defined.

(** [http::Extensions] holds at most one value per type; these are the two types
    the crate stores: its [UpgradeExtension] and an upgraded [Connection]. *)
Record Extensions (U C : Type) := {
  ext_upgrade : option U;
  ext_connection : option C;
}.
Arguments ext_upgrade {U C} e.
Arguments ext_connection {U C} e.
Arguments Build_Extensions {U C} ext_upgrade ext_connection.
Definition no_extensions {U C} : Extensions U C := Build_Extensions None None.

Section messages.
Context `{!HttpApi}.

Record Request (B : Type) := {
  req_method : Method;
  req_uri : Uri;
  req_version : Version;
  req_headers : HeaderMap;
  req_body : B;
}.

Record Response (U C B : Type) := {
  res_status : N;
  res_version : Version;
  res_headers : HeaderMap;
  res_extensions : Extensions U C;
  res_body : B;
}.
End messages.
Arguments req_method {_ B} r.
Arguments req_uri {_ B} r.
Arguments req_version {_ B} r.
Arguments req_headers {_ B} r.
Arguments req_body {_ B} r.
Arguments Build_Request {_ B}.
Arguments res_status {_ U C B} r.
Arguments res_version {_ U C B} r.
Arguments res_headers {_ U C B} r.
Arguments res_extensions {_ U C B} r.
Arguments res_body {_ U C B} r.
Arguments Build_Response {_ U C B}.

(** ** Reading *)
Section reading.
Context `{!HttpApi} `{!Fuel} {W R : Type} `{!BufRead W R} `{!Drop W R}.

(** The end of a head: [[.., b'\r', b'\n', b'\r', b'\n']] or
    [[.., b'\n', b'\n']]. *)
Definition head_complete (buf : bytes) : bool :=
  ends_with (CRLF ++ CRLF) buf || ends_with [LF; LF] buf.

(** The first loop of [parse_request] and [parse_response]. *)
Fixpoint read_head_loop (n : nat) (buf : bytes) : ST (R * W) ParseError bytes :=
  match n with
  | O => no_fuel
  | S n =>
      let! line := map_err Io (read_until fuel LF) in
      let buf := buf ++ line in
      if length line =? 0 then ret buf
      else if head_complete buf then ret buf
      else read_head_loop n buf
  end.
Definition read_head : ST (R * W) ParseError bytes := read_head_loop fuel [].

(** [headers.into_iter().take_while(|header| *header != EMPTY_HEADER)] *)
Fixpoint filled_headers (hs : list (bytes * bytes)) : list (bytes * bytes) :=
  match hs with
  | [] => []
  | h :: hs => if hp_is_empty_header h then [] else h :: filled_headers hs
  end.

(** [.fold(builder, |builder, (name, value)| builder.header(name, value))]: the
    builder remembers the first error. *)
Definition fold_headers (hs : list (bytes * bytes)) (builder : option HeaderMap)
  : option HeaderMap :=
  fold_left (fun acc kv => h ← acc; hm_try_append h kv.1 kv.2) hs builder.

(** [match version { 0 => HTTP_10, 1 => HTTP_11, v => return Err(..) }] *)
Definition convert_version (version : N) : Version + ParseError :=
  match version with
  | 0%N => inl HTTP_10
  | 1%N => inl HTTP_11
  | v => inr (UnsupportedHttpVersion v)
  end.

(** Leaving the function with an error: the stream it owns is dropped. *)
Definition fail_dropping {A} (stream : R) (e : ParseError) : ST W ParseError A :=
  drop_value stream;;; fail e.

(** [option.ok_or(e)?] and [result?] while [stream] is owned. *)
Definition ok_or {A} (stream : R) (o : option A) (e : ParseError) : ST W ParseError A :=
  match o with Some a => ret a | None => fail_dropping stream e end.
Definition question {A} (stream : R) (r : A + ParseError) : ST W ParseError A :=
  match r with inl a => ret a | inr e => fail_dropping stream e end.
End reading.

(** [request::ChunkedReader] *)
Record ChunkedReader (R : Type) := MkChunkedReader { chunked_reader_0 : R }.
Arguments MkChunkedReader {R} chunked_reader_0.
Arguments chunked_reader_0 {R} c.

Section chunked_reader.
Context `{!HttpApi} `{!Fuel} {W R : Type} `{!BufRead W R} `{!Drop W R}.

(** [ChunkedReader::next]: the size line, the data, and the line end after it.
    Every [.ok()?] ends the iteration. *)
Fixpoint chunked_next_loop (n : nat) (buf : bytes)
  : ST (R * W) io_error (option bytes) :=
  match n with
  | O => no_fuel
  | S n =>
      let! r := result_ok (read_until fuel LF) in
      match r with
      | None | Some [] => ret None
      | Some line =>
          let buf := buf ++ line in
          match parse_chunk_size buf with
          | Complete _ 0%N => ret None
          | Complete _ size =>
              alloc_vec (wrap64 size);;;
              let! r := result_ok (read_exact fuel (N.to_nat (wrap64 size))) in
              match r with
              | None => ret None
              | Some chunk =>
                  let! r := result_ok (read_until fuel LF) in
                  match r with
                  | None => ret None
                  | Some _ => ret (Some chunk)
                  end
              end
          | Partial => chunked_next_loop n buf
          | InvalidChunkSize => ret None
          end
      end
  end.
Definition chunked_next : ST (R * W) io_error (option bytes) := chunked_next_loop fuel [].

#[export] Instance ChunkedReader_drop : Drop W (ChunkedReader R) :=
  fun E c => drop_value (chunked_reader_0 c).

(** The iterator [Body::from_iter] boxes: every chunk mapped to [Ok(chunk.into())]. *)
#[export] Instance ChunkedReader_iter : ChunkIter W (ChunkedReader R) := {|
  next := fun st =>
    match chunked_next (chunked_reader_0 st.1, st.2) with
    | Ok o (r, w) => Ok ((fun c => inl (Chunk_from c)) <$> o) (MkChunkedReader r, w)
    | Err e (r, w) => Err e (MkChunkedReader r, w)
    | Panic => Panic | Block => Block | NoFuel => NoFuel
    end;
|}.
End chunked_reader.

(** ** Writing *)
Section writing.
Context `{!HttpApi} `{!Fuel} {W S : Type} `{!Write W S}.

(** [borrow] for a value of the world [W] next to the stream [S]. *)
Definition borrow_beside {T E A} `{!Drop W T} (m : ST (T * (S * W)) E A) (t : T)
  : ST (S * W) E (A * T) :=
  @borrow (S * W) T E A (fun E t => zoom_r (drop_value t)) m t.

(** [[format!("{name}: ").as_bytes(), val.as_bytes(), b"\r\n"].concat()] *)
Definition header_line (kv : bytes * bytes) : bytes :=
  kv.1 ++ b ": " ++ kv.2 ++ CRLF.

Fixpoint write_headers (hs : list (bytes * bytes)) : ST (S * W) io_error unit :=
  match hs with
  | [] => ret tt
  | kv :: hs => write_all (header_line kv);;; write_headers hs
  end.

(** [format!("{:x}\r\n", chunk.len())] *)
Definition chunk_header (chunk : bytes) : bytes := hex (N.of_nat (length chunk)) ++ CRLF.

(** [for chunk in body.into_chunks()] *)
Fixpoint write_chunks {It} `{!ChunkIter W It} (n : nat) (it : It) (trailers : HeaderMap)
  : ST (S * W) io_error HeaderMap :=
  match n with
  | O => no_fuel
  | Datatypes.S n =>
      let! (chunk, it) := zoom_r (borrow next it) in
      match chunk with
      | None => zoom_r (drop_value it);;; ret trailers
      | Some (inr e) => zoom_r (drop_value it);;; fail e
      | Some (inl (Data chunk)) =>
          cleanup (zoom_r (drop_value it))
            (write_all (chunk_header chunk);;;
             write_all chunk;;;
             write_all CRLF;;;
             flush);;;
          write_chunks n it trailers
      | Some (inl (Trailers te)) => write_chunks n it (hm_extend trailers te)
      end
  end.

(** [match encoding { .. }] of [write_response] and [write_request] *)
Definition write_body {B} `{!HttpBody W B} (encoding : Encoding) (body : B)
  : ST (S * W) io_error unit :=
  let copy_body :=
    let! reader := zoom_r (into_reader body) in
    let! (_, reader) := borrow_beside (io_copy fuel 0) reader in
    zoom_r (drop_value reader) in
  match encoding with
  | FixedLength len =>
      if (len <? 1024)%N
      then
        let! bs := zoom_r (into_bytes body) in
        write_all bs
      else copy_body
  | CloseDelimited => copy_body
  | Chunked =>
      let! it := zoom_r (into_chunks body) in
      let! trailers := write_chunks fuel it hm_new in
      write_all (b "0" ++ CRLF);;;
      write_headers (hm_iter trailers);;;
      write_all CRLF
  end.
End writing.
