(* ===== verification/MessageLaws.v ===== *)
(** * MessageLaws: what writing headers, chunks and bodies puts on the stream *)
From stdpp Require Import base list gmap strings.
From Stdlib Require Import Strings.Byte NArith Lia.
From S2P Require Import Prelude Errors StdIo HttpApi Mpsc HttpBody Body BodyLaws Message.

(** ** The text *)
Section text.
Context `{!HttpApi}.
Abbreviation item := (Chunk + io_error)%type.

Definition headers_text (hs : list (bytes * bytes)) : bytes := concat (header_line <$> hs).

Definition chunk_text (i : item) : bytes :=
  match i with
  | inl (Data d) => chunk_header d ++ d ++ CRLF
  | _ => []
  end.

Definition item_trailers (trailers : HeaderMap) (i : item) : HeaderMap :=
  match i with inl (Trailers te) => hm_extend trailers te | _ => trailers end.

(** The chunked encoding of a sequence of items without errors. *)
Definition encode_chunks (items : list item) : bytes :=
  concat (chunk_text <$> items) ++ b "0" ++ CRLF ++
  headers_text (hm_iter (fold_left item_trailers items hm_new)) ++ CRLF.
End text.

(** ** Writing *)
Section writing.
Context `{!HttpApi} `{!Fuel} {W S : Type} `{!World W} `{!Write W S} `{!WriteLaws W S}.
Abbreviation item := (Chunk + io_error)%type.
Implicit Types (w : W) (s : S).

(** [out] was appended to what [s] had been given ([appended]), or the stream
    failed behind a prefix of it ([cut_short]); [rel] relates the worlds before and after: [wstep] for
    code that only writes, [iostep] for code that also reads. *)
Definition appended (rel : relation W) (s : S) (w : W) (out : bytes) (s' : S) (w' : W) : Prop :=
  rel w w' /\ written s' w' = written s w ++ out.
Definition cut_short (rel : relation W) (s : S) (w : W) (out : bytes) (s' : S) (w' : W) : Prop :=
  can_fail W S /\ rel w w' /\ exists p, p `prefix_of` out /\ written s' w' = written s w ++ p.

Section rel.
Context (rel : relation W) `{!PreOrder rel}.

Lemma appended_nil s w : appended rel s w [] s w.
Proof. split; [done|]. by rewrite app_nil_r. Qed.

Lemma appended_trans s w out s' w' out' s'' w'' :
  appended rel s w out s' w' -> appended rel s' w' out' s'' w'' ->
  appended rel s w (out ++ out') s'' w''.
Proof.
  intros [Hw Ho] [Hw' Ho']. split; [by etrans|]. by rewrite Ho', Ho, app_assoc.
Qed.

Lemma cut_short_app s w out s' w' out' :
  cut_short rel s w out s' w' -> cut_short rel s w (out ++ out') s' w'.
Proof.
  intros (Hc & Hw & p & Hp & Ho). split_and!; [done|done|]. exists p.
  split; [|done]. by apply prefix_app_r.
Qed.

Lemma appended_cut_short s w out s' w' out' s'' w'' :
  appended rel s w out s' w' -> cut_short rel s' w' out' s'' w'' ->
  cut_short rel s w (out ++ out') s'' w''.
Proof.
  intros [Hw Ho] (Hc & Hw' & p & Hp & Ho'). split_and!; [done|by etrans|]. exists (out ++ p).
  split; [by apply prefix_app|]. by rewrite Ho', Ho, app_assoc.
Qed.

(** The rule for a sequence of writes. *)
Lemma wp_write_seq {T} (m : ST (S * W) io_error unit) (k : ST (S * W) io_error T)
    s w out out' (Q : T -> S -> W -> Prop) :
  wp m (fun _ '(s', w') => appended rel s w out s' w')
       (fun _ '(s', w') => cut_short rel s w out s' w') (s, w) ->
  (forall s' w', appended rel s w out s' w' ->
     wp k (fun t '(s'', w'') => appended rel s' w' out' s'' w'' /\ Q t s'' w'')
          (fun _ '(s'', w'') => cut_short rel s' w' out' s'' w'') (s', w')) ->
  wp (m;;; k) (fun t '(s', w') => appended rel s w (out ++ out') s' w' /\ Q t s' w')
              (fun _ '(s', w') => cut_short rel s w (out ++ out') s' w') (s, w).
Proof.
  intros Hm Hk. wp_step. eapply wp_mono; [exact Hm| |].
  - intros [] [s' w'] Ha. eapply wp_mono; [by apply Hk| |].
    + intros t [s'' w''] [Ha' HQ]. split; [by eapply appended_trans|done].
    + intros e [s'' w''] Hc. by eapply appended_cut_short.
  - intros e [s' w'] Hc. by apply cut_short_app.
Qed.

Lemma wp_write_seq_unit (m k : ST (S * W) io_error unit) s w out out' :
  wp m (fun _ '(s', w') => appended rel s w out s' w')
       (fun _ '(s', w') => cut_short rel s w out s' w') (s, w) ->
  (forall s' w', appended rel s w out s' w' ->
     wp k (fun _ '(s'', w'') => appended rel s' w' out' s'' w'')
          (fun _ '(s'', w'') => cut_short rel s' w' out' s'' w'') (s', w')) ->
  wp (m;;; k) (fun _ '(s', w') => appended rel s w (out ++ out') s' w')
              (fun _ '(s', w') => cut_short rel s w (out ++ out') s' w') (s, w).
Proof.
  intros Hm Hk. eapply wp_mono; [apply (wp_write_seq m k s w out out' (fun _ _ _ => True))| |].
  - exact Hm.
  - intros s' w' Ha. eapply wp_mono; [by apply Hk| |done]. by intros [] [s'' w''].
  - by intros [] [s' w'] [Ha _].
  - done.
Qed.
End rel.

Lemma appended_io s w out s' w' :
  appended wstep s w out s' w' -> appended iostep s w out s' w'.
Proof. intros [Hw Ho]. split; [by auto|done]. Qed.
Lemma cut_short_io s w out s' w' :
  cut_short wstep s w out s' w' -> cut_short iostep s w out s' w'.
Proof. intros (Hc & Hw & Ho). split_and!; [done|by auto|done]. Qed.

Lemma appended_rstep s w w' : rstep w w' -> appended iostep s w [] s w'.
Proof. intros Hw. split; [by auto|]. rewrite app_nil_r. by apply written_rstep. Qed.

Lemma cut_short_rstep s w out s' w' w'' :
  cut_short iostep s w out s' w' -> rstep w' w'' -> cut_short iostep s w out s' w''.
Proof.
  intros (Hc & Hw & p & Hp & Ho) Hw'. split_and!; [done|etrans; eauto|]. exists p.
  split; [done|]. by rewrite (written_rstep s' w' w'').
Qed.

Lemma write_all_appends s w out :
  wp (write_all out)
     (fun _ '(s', w') => appended wstep s w out s' w')
     (fun _ '(s', w') => cut_short wstep s w out s' w') (s, w).
Proof. apply write_all_spec. Qed.

Lemma flush_appends s w :
  wp flush
     (fun _ '(s', w') => appended wstep s w [] s' w')
     (fun _ '(s', w') => cut_short wstep s w [] s' w') (s, w).
Proof.
  eapply wp_mono; [apply flush_spec| |].
  - intros [] [s' w'] (Hw & Ho & Hs). split; [done|]. by rewrite app_nil_r.
  - intros e [s' w'] (Hc & Hw & Ho). split_and!; [done|done|]. exists [].
    split; [done|]. by rewrite app_nil_r.
Qed.

Lemma write_headers_spec hs s w :
  wp (write_headers hs)
     (fun _ '(s', w') => appended wstep s w (headers_text hs) s' w')
     (fun _ '(s', w') => cut_short wstep s w (headers_text hs) s' w') (s, w).
Proof.
  revert s w. induction hs as [|kv hs IH]; intros s w.
  { apply wp_ret. by apply appended_nil; try apply _. }
  cbn [write_headers]. apply wp_write_seq_unit; [apply _|apply write_all_appends|].
  intros s' w' _. apply IH.
Qed.

(** *** Chunks *)
Definition chunks_text (items : list item) : bytes := concat (chunk_text <$> items).

(** One data chunk: the size line, the data, the line end and a flush. *)
Lemma write_chunk_spec d s w :
  wp (write_all (chunk_header d);;; write_all d;;; write_all CRLF;;; flush)
     (fun _ '(s', w') => appended wstep s w (chunk_text (inl (Data d))) s' w')
     (fun _ '(s', w') => cut_short wstep s w (chunk_text (inl (Data d))) s' w') (s, w).
Proof.
  cbn [chunk_text]. rewrite <-(app_nil_r CRLF).
  repeat (apply wp_write_seq_unit; [apply _|apply write_all_appends|intros ?? _]).
  apply flush_appends.
Qed.

(** The loop over the chunks writes every item before the first error; it
    succeeds only on a sequence without errors, and fails with the error of an item
    or of the stream. *)
Lemma write_chunks_spec {It} `{!ChunkIter W It} `{!ChunkIterLaws W It} n (it : It)
    trailers s w P :
  produces it w P -> (forall items, P items -> length items < n) ->
  wp (write_chunks n it trailers)
     (fun tr '(s', w') => exists items, P items /\ first_error items = None /\
        appended iostep s w (chunks_text items) s' w' /\
        tr = fold_left item_trailers items trailers)
     (fun e '(s', w') => exists items, P items /\
        ((first_error items = Some e /\
          appended iostep s w (chunks_text (ok_prefix items)) s' w') \/
         cut_short iostep s w (chunks_text (ok_prefix items)) s' w')) (s, w).
Proof.
  revert it trailers s w P. induction n as [|n IH]; intros it trailers s w P Hit Hlen.
  { destruct (produces_inhabited _ _ _ Hit) as [items Hi]. specialize (Hlen _ Hi). lia. }
  cbn [write_chunks]. wp_steps. eapply wp_never_mono; [by apply next_produces|].
  intros o [it1 w1] [Hw1 Ho]. cbn [fst snd].
  pose proof (appended_rstep s w w1 Hw1) as Ha1.
  destruct o as [[[d|te]|e]|].
  - destruct (produces_inhabited _ _ _ Ho) as [items0 Hi0].
    wp_step. wp_step. eapply wp_mono; [apply write_chunk_spec| |].
    + intros [] [s2 w2] Ha2.
      pose proof (appended_trans iostep _ _ _ _ _ _ _ _ Ha1 (appended_io _ _ _ _ _ Ha2)) as Ha.
      eapply wp_mono; [eapply (IH it1 trailers s2 w2)| |].
      * eapply produces_wstep; [exact Ho|]. apply Ha2.
      * intros items Hi. specialize (Hlen _ Hi). simpl in Hlen. lia.
      * intros tr [s3 w3] (items & Hi & He & Ha3 & ->).
        exists (inl (Data d) :: items). split_and!; [done|done| |done].
        by eapply (appended_trans iostep _ _ _ _ _ _ _ _ Ha).
      * intros e [s3 w3] (items & Hi & Hc). exists (inl (Data d) :: items). split; [done|].
        destruct Hc as [[He Ha3]|Hc]; [left; split; [done|]|right].
        -- by eapply (appended_trans iostep _ _ _ _ _ _ _ _ Ha).
        -- by eapply (appended_cut_short iostep _ _ _ _ _ _ _ _ Ha).
    + intros e [s2 w2] Hc. wp_steps. pose proof Hc as (_ & Hw2 & _).
      eapply wp_never_mono.
      { eapply produces_drop. eapply produces_wstep; [exact Ho|exact Hw2]. }
      intros [] w3 Hw3. exists (inl (Data d) :: items0). split; [done|]. right.
      eapply cut_short_rstep; [|exact Hw3]. apply cut_short_app.
      by eapply (appended_cut_short iostep _ _ [] _ _ _ _ _ Ha1), cut_short_io.
  - eapply wp_mono; [apply (IH it1 _ s w1 _ Ho)| |].
    + intros items Hi. specialize (Hlen _ Hi). simpl in Hlen. lia.
    + intros tr [s3 w3] (items & Hi & He & Ha3 & ->).
      exists (inl (Trailers te) :: items). split_and!; [done|done| |done].
      by eapply (appended_trans iostep _ _ [] _ _ _ _ _ Ha1).
    + intros e [s3 w3] (items & Hi & Hc). exists (inl (Trailers te) :: items). split; [done|].
      destruct Hc as [[He Ha3]|Hc]; [left; split; [done|]|right].
      * by eapply (appended_trans iostep _ _ [] _ _ _ _ _ Ha1).
      * by eapply (appended_cut_short iostep _ _ [] _ _ _ _ _ Ha1).
  - destruct (produces_inhabited _ _ _ Ho) as [items0 Hi0].
    wp_steps. eapply wp_never_mono; [by eapply produces_drop|].
    intros [] w2 Hw2. apply wp_fail. exists (inr e :: items0). split; [done|]. left.
    split; [done|]. by apply appended_rstep; etrans.
  - destruct Ho as [HP0 Ho]. wp_steps. eapply wp_never_mono; [by apply iter_alive_drop|].
    intros [] w2 Hw2. apply wp_ret. exists []. split_and!; [done|done| |done].
    by apply appended_rstep; etrans.
Qed.

(** *** Bodies

    [sends encoding body w O]: in world [w] the body is going to be written, with
    that encoding, as one of the byte strings in [O]. *)
Definition sends {B} `{!HttpBody W B} `{!HttpBodyLaws W B} (encoding : Encoding) (body : B)
    (w : W) (O : bytes -> Prop) : Prop :=
  match encoding with
  | FixedLength len =>
      if (len <? 1024)%N then exists bs, bytes_of body w bs /\ O bs
      else exists bs, reader_of body w bs /\ length bs < fuel /\ O bs
  | CloseDelimited => exists bs, reader_of body w bs /\ length bs < fuel /\ O bs
  | Chunked =>
      exists P, chunks_of body w P /\
        forall items, P items -> length items < fuel /\ first_error items = None /\
                      O (encode_chunks items)
  end.

Lemma sends_wstep {B} `{!HttpBody W B} `{!HttpBodyLaws W B} encoding (body : B) w w' O :
  sends encoding body w O -> wstep w w' -> sends encoding body w' O.
Proof.
  intros Hs Hw. destruct encoding as [len| |]; cbn in *.
  - destruct (len <? 1024)%N; destruct Hs as (bs & Hb & HO); exists bs; split; try done.
    + by eapply bytes_of_wstep.
    + by eapply reader_of_wstep.
  - destruct Hs as (P & HP & HO). exists P. split; [by eapply chunks_of_wstep|done].
  - destruct Hs as (bs & Hb & HO). exists bs. split; [by eapply reader_of_wstep|done].
Qed.

Lemma cut_short_prefix rel s w out out' s' w' :
  cut_short rel s w out s' w' -> out `prefix_of` out' -> cut_short rel s w out' s' w'.
Proof.
  intros (Hc & Hw & p & Hp & Ho) Hpre. split_and!; [done|done|]. exists p.
  split; [by etrans|done].
Qed.

(** [io::copy(&mut body.into_reader(), stream)] *)
Lemma copy_body_spec {B} `{!HttpBody W B} `{!HttpBodyLaws W B} (body : B) s w bs :
  reader_of body w bs -> length bs < fuel ->
  wp (let! reader := zoom_r (into_reader body) in
      let! (_, reader) := borrow_beside (io_copy fuel 0) reader in
      zoom_r (drop_value reader))
     (fun _ '(s', w') => appended iostep s w bs s' w')
     (fun _ '(s', w') => cut_short iostep s w bs s' w') (s, w).
Proof.
  intros Hb Hf. wp_steps. eapply wp_never_mono; [by apply into_reader_spec|].
  intros rd w1 [Hw1 Hrd]. unfold borrow_beside. wp_steps.
  eapply wp_mono; [apply (io_copy_io_spec fuel 0 rd s w1 bs None Hrd Hf)| |].
  - intros n [rd' [s' w']] (Hw' & _ & _ & Ho & Hrd'). cbn [fst snd].
    apply wp_zoom_r. eapply wp_never_mono; [by eapply drop_alive, holds_alive|].
    intros [] w2 Hw2. split.
    + etrans; [by apply rstep_io|]. etrans; [done|]. by apply rstep_io.
    + rewrite (written_rstep s' w' w2) by done. rewrite Ho.
      by rewrite (written_rstep s w w1).
  - intros e [rd' [s' w']] (Hcf & Hw' & Hal & p & Hp & Ho). cbn [fst snd].
    apply wp_zoom_r. eapply wp_never_mono; [by apply drop_alive|].
    intros [] w2 Hw2. apply (cut_short_rstep s w bs s' w' w2); [|done]. split_and!.
    + by destruct Hcf.
    + etrans; [by apply rstep_io|]. done.
    + exists p. split; [done|]. rewrite Ho. by rewrite (written_rstep s w w1).
Qed.

(** The size line of the last chunk, the trailers and the empty line *)
Definition end_text (trailers : HeaderMap) : bytes :=
  (b "0" ++ CRLF) ++ headers_text (hm_iter trailers) ++ CRLF.

Lemma encode_chunks_end items :
  encode_chunks items = chunks_text items ++ end_text (fold_left item_trailers items hm_new).
Proof. unfold encode_chunks, end_text, chunks_text. by rewrite <-!app_assoc. Qed.

Lemma write_end_spec trailers s w :
  wp (write_all (b "0" ++ CRLF);;; write_headers (hm_iter trailers);;; write_all CRLF)
     (fun _ '(s', w') => appended wstep s w (end_text trailers) s' w')
     (fun _ '(s', w') => cut_short wstep s w (end_text trailers) s' w') (s, w).
Proof.
  apply wp_write_seq_unit; [apply _|apply write_all_appends|]. intros ?? _.
  apply wp_write_seq_unit; [apply _|apply write_headers_spec|]. intros ?? _.
  apply write_all_appends.
Qed.

(** Bytes that were read before are written. *)
Lemma write_read_bytes bs s w w1 :
  rstep w w1 ->
  wp (write_all bs)
     (fun _ '(s', w') => appended iostep s w bs s' w' /\ wstep w1 w')
     (fun _ '(s', w') => cut_short iostep s w bs s' w' /\ wstep w1 w') (s, w1).
Proof.
  intros Hw1. pose proof (appended_rstep s w w1 Hw1) as Ha1.
  eapply wp_mono; [apply write_all_appends| |].
  - intros [] [s2 w2] Ha2. split; [|apply Ha2].
    by eapply (appended_trans iostep _ _ [] _ _ _ _ _ Ha1), appended_io.
  - intros e [s2 w2] Hc2. split; [|apply Hc2].
    by eapply (appended_cut_short iostep _ _ [] _ _ _ _ _ Ha1), cut_short_io.
Qed.

(** The body by its chunks *)
Lemma write_chunked_spec {B} `{!HttpBody W B} `{!HttpBodyLaws W B} (body : B) s w P
    (O : bytes -> Prop) :
  chunks_of body w P ->
  (forall items, P items ->
     length items < fuel /\ first_error items = None /\ O (encode_chunks items)) ->
  wp (write_body Chunked body)
     (fun _ '(s', w') => exists out, O out /\ appended iostep s w out s' w')
     (fun _ '(s', w') => exists out, O out /\ cut_short iostep s w out s' w') (s, w).
Proof.
  intros HP HO. unfold write_body. wp_step. apply wp_zoom_r.
  eapply wp_never_mono; [by apply into_chunks_spec|].
  intros it w1 [Hw1 Hit]. pose proof (appended_rstep s w w1 Hw1) as Ha1. wp_step. eapply wp_mono.
  { apply (write_chunks_spec fuel it hm_new s w1 P Hit). intros items Hi. by apply HO. }
  - intros tr [s2 w2] (items & Hi & He & Ha2 & ->).
    pose proof (appended_trans iostep _ _ [] _ _ _ _ _ Ha1 Ha2) as Ha.
    eapply wp_mono; [apply write_end_spec| |].
    + intros [] [s3 w3] Ha3. exists (encode_chunks items). split; [by apply HO|].
      rewrite encode_chunks_end. by eapply (appended_trans iostep _ _ _ _ _ _ _ _ Ha), appended_io.
    + intros e [s3 w3] Hc3. exists (encode_chunks items). split; [by apply HO|].
      rewrite encode_chunks_end.
      by eapply (appended_cut_short iostep _ _ _ _ _ _ _ _ Ha), cut_short_io.
  - intros e [s2 w2] (items & Hi & Hc). destruct (HO _ Hi) as (_ & Hno & HOo).
    destruct Hc as [[He _]|Hc]; [congruence|]. rewrite (first_error_None _ Hno) in Hc.
    exists (encode_chunks items). split; [done|]. rewrite encode_chunks_end.
    eapply cut_short_app, (appended_cut_short iostep _ _ [] _ _ _ _ _ Ha1), Hc.
Qed.

Lemma write_body_spec {B} `{!HttpBody W B} `{!HttpBodyLaws W B} encoding (body : B) s w O :
  sends encoding body w O ->
  wp (write_body encoding body)
     (fun _ '(s', w') => exists out, O out /\ appended iostep s w out s' w')
     (fun _ '(s', w') => exists out, O out /\ cut_short iostep s w out s' w') (s, w).
Proof.
  intros Hs.
  assert (Hcopy : forall bs, reader_of body w bs -> length bs < fuel -> O bs ->
    wp (let! reader := zoom_r (into_reader body) in
        let! (_, reader) := borrow_beside (io_copy fuel 0) reader in
        zoom_r (drop_value reader))
       (fun _ '(s', w') => exists out, O out /\ appended iostep s w out s' w')
       (fun _ '(s', w') => exists out, O out /\ cut_short iostep s w out s' w') (s, w)).
  { intros bs Hb Hf HO. eapply wp_mono; [by apply copy_body_spec| |].
    - intros [] [s' w'] Ha. by exists bs.
    - intros e [s' w'] Hc. by exists bs. }
  destruct encoding as [len| |]; cbn [sends] in Hs; unfold write_body.
  - destruct (len <? 1024)%N.
    + destruct Hs as (bs & Hb & HO). wp_steps.
      eapply wp_never_mono; [by apply into_bytes_spec|]. intros got w1 [Hw1 ->].
      eapply wp_mono; [by apply (write_read_bytes bs s w w1)| |].
      * intros [] [s2 w2] [Ha _]. by exists bs.
      * intros e [s2 w2] [Hc _]. by exists bs.
    + destruct Hs as (bs & Hb & Hf & HO). by apply Hcopy with bs.
  - destruct Hs as (P & HP & HO). by apply (write_chunked_spec body s w P O).
  - destruct Hs as (bs & Hb & Hf & HO). by apply Hcopy with bs.
Qed.

(** *** Heads *)
Definition message_head (start : bytes) (hs : list (bytes * bytes)) : bytes :=
  start ++ headers_text hs ++ CRLF.

Lemma write_head_spec start hs s w :
  wp (write_all start;;; write_headers hs;;; write_all CRLF)
     (fun _ '(s', w') => appended wstep s w (message_head start hs) s' w')
     (fun _ '(s', w') => cut_short wstep s w (message_head start hs) s' w') (s, w).
Proof.
  unfold message_head.
  apply wp_write_seq_unit; [apply _|apply write_all_appends|]. intros ?? _.
  apply wp_write_seq_unit; [apply _|apply write_headers_spec|]. intros ?? _.
  apply write_all_appends.
Qed.

(** The body can be dropped, now and after more output. *)
Definition droppable {B} `{!Drop W B} (body : B) (w : W) : Prop :=
  forall E w', wstep w w' ->
    wp (drop_value (E := E) body) (fun _ w'' => rstep w' w'') never w'.

(** Dropping it then leaves a world with [Y]. *)
Definition drops_with {B} `{!Drop W B} (body : B) (w : W) (Y : W -> Prop) : Prop :=
  forall E w', wstep w w' ->
    wp (drop_value (E := E) body) (fun _ w'' => rstep w' w'' /\ Y w'') never w'.

Lemma droppable_with {B} `{!Drop W B} (body : B) w :
  droppable body w -> drops_with body w (fun _ => True).
Proof. intros Hd E w' Hw. eapply wp_never_mono; [by apply Hd|]. done. Qed.

(** The head, then [k]; the body is dropped when writing the head fails. *)
Lemma write_message_spec {A B} `{!Drop W B} start hs (body : B)
    (k : ST (S * W) io_error A) s w (O : bytes -> Prop) (Q : A -> S -> W -> Prop)
    (Y : W -> Prop) :
  drops_with body w Y -> (exists out, O out) ->
  (forall s' w', wstep w w' ->
     wp k (fun a '(s'', w'') => (exists out, O out /\ appended iostep s' w' out s'' w'') /\ Q a s'' w'')
          (fun _ '(s'', w'') => (exists out, O out /\ cut_short iostep s' w' out s'' w'') /\ Y w'')
          (s', w')) ->
  wp (cleanup (zoom_r (drop_value body))
        (write_all start;;; write_headers hs;;; write_all CRLF);;; k)
     (fun a '(s', w') => (exists out, O out /\
        appended iostep s w (message_head start hs ++ out) s' w') /\ Q a s' w')
     (fun _ '(s', w') => (exists out, O out /\
        cut_short iostep s w (message_head start hs ++ out) s' w') /\ Y w') (s, w).
Proof.
  intros Hd [out0 HO0] Hk. wp_step. wp_step. eapply wp_mono; [apply write_head_spec| |].
  - intros [] [s1 w1] Ha. eapply wp_mono; [apply (Hk s1 w1), Ha| |].
    + intros a [s2 w2] [(out & HO & Ha2) HQ]. split; [|done]. exists out. split; [done|].
      by eapply (appended_trans iostep _ _ _ _ _ _ _ _ (appended_io _ _ _ _ _ Ha)).
    + intros e [s2 w2] [(out & HO & Hc2) HY]. split; [|done]. exists out. split; [done|].
      by eapply (appended_cut_short iostep _ _ _ _ _ _ _ _ (appended_io _ _ _ _ _ Ha)).
  - intros e [s1 w1] Hc. wp_steps. pose proof Hc as (_ & Hw1 & _).
    eapply wp_never_mono; [by apply Hd|].
    intros [] w2 [Hw2 HY]. split; [|done]. exists out0. split; [done|].
    eapply cut_short_app, cut_short_rstep; [by apply cut_short_io|done].
Qed.

Lemma sends_inhabited {B} `{!HttpBody W B} `{!HttpBodyLaws W B} encoding (body : B) w O :
  sends encoding body w O -> exists out, O out.
Proof.
  destruct encoding as [len| |]; cbn.
  - destruct (len <? 1024)%N.
    + intros (bs & _ & HO). eauto.
    + intros (bs & _ & _ & HO). eauto.
  - intros (P & HP & HO).
    destruct (chunks_inhabited _ _ _ HP) as [items Hi].
    destruct (HO _ Hi) as (_ & _ & ?). eauto.
  - intros (bs & _ & _ & HO). eauto.
Qed.
End writing.

(** ** What the writing of messages does not change

    A property of the stream that its own methods keep holds throughout. *)
Section writing_keeps.
Context `{!HttpApi} `{!Fuel} {W S : Type} `{!Write W S}.
Variable (P : S -> Prop).
Hypothesis (write_all_keeps : forall bs, preserves (fun st => P st.1) (write_all (W := W) (S := S) bs)).
Hypothesis (flush_keeps : preserves (fun st => P st.1) (flush (W := W) (S := S))).
#[local] Hint Resolve write_all_keeps flush_keeps : preserves.

Lemma borrow_beside_keeps {T E A} `{!Drop W T} (m : ST (T * (S * W)) E A) (t : T) :
  preserves (fun st => P st.2.1) m -> preserves (fun st => P st.1) (borrow_beside m t).
Proof.
  intros Hm [s w] Hs. specialize (Hm (t, (s, w)) Hs). unfold borrow_beside, borrow.
  destruct (m (t, (s, w))) as [a [t' [s' w']]|e [t' [s' w']]| | |]; try done.
  pose proof (preserves_zoom_r P (drop_value (W := W) (E := E) t') (s', w') Hm) as Hd.
  unfold bind, drop_value in *. by destruct (zoom_r _ (s', w')).
Qed.

Lemma io_copy_keeps {R} `{!Read W R} n copied :
  preserves (fun st : R * (S * W) => P st.2.1) (io_copy n copied).
Proof.
  revert copied. induction n as [|n IH]; intros copied; [by intros s|]. cbn [io_copy].
  apply preserves_bind.
  - apply preserves_attempt. intros [r [s w]] Hs. unfold zoom_rw. cbn [fst snd] in *.
    by destruct (read DEFAULT_BUF_SIZE (r, w)) as [? [??]|? [??]| | |].
  - intros [[|c got]|e]; [apply preserves_ret| |].
    + apply preserves_bind; [|intros _; apply IH]. intros [r [s w]] Hs. unfold zoom_r. cbn in *.
      pose proof (write_all_keeps (c :: got) (s, w) Hs).
      by destruct (write_all (c :: got) (s, w)) as [? [??]|? [??]| | |].
    + destruct (is_interrupted e); [apply IH|apply preserves_fail].
Qed.

Lemma write_headers_keeps hs : preserves (fun st => P st.1) (write_headers (W := W) hs).
Proof. induction hs; cbn [write_headers]; auto with preserves. Qed.

Lemma write_chunks_keeps {It} `{!ChunkIter W It} n (it : It) trailers :
  preserves (fun st => P st.1) (write_chunks (W := W) n it trailers).
Proof.
  revert it trailers. induction n as [|n IH]; intros it trailers; [by intros s|].
  cbn [write_chunks]. apply preserves_bind; [apply preserves_zoom_r|].
  intros [[[[d|te]|e]|] it']; [|apply IH|auto with preserves..].
  apply preserves_bind; [|intros _; apply IH]. auto 8 with preserves.
Qed.

Lemma write_body_keeps {B} `{!HttpBody W B} encoding (body : B) :
  preserves (fun st => P st.1) (write_body (W := W) encoding body).
Proof.
  assert (Hcopy : preserves (fun st : S * W => P st.1)
    (let! reader := zoom_r (into_reader body) in
     let! (_, reader) := borrow_beside (io_copy fuel 0) reader in zoom_r (drop_value reader))).
  { apply preserves_bind; [apply preserves_zoom_r|]. intros reader.
    apply preserves_bind; [apply borrow_beside_keeps, io_copy_keeps|].
    intros [? ?]. apply preserves_zoom_r. }
  unfold write_body. destruct encoding as [len| |]; [destruct (len <? 1024)%N| |]; try done.
  - auto with preserves.
  - apply preserves_bind; [apply preserves_zoom_r|]. intros it.
    apply preserves_bind; [apply write_chunks_keeps|]. intros tr.
    apply preserves_bind; [done|]. intros _.
    apply preserves_bind; [apply write_headers_keeps|done].
Qed.

End writing_keeps.
