(* ===== verification/ChunkedLaws.v ===== *)
(** * ChunkedLaws: the chunked decoder of src/src/request.rs

    [dechunks] says on bytes what [ChunkedReader] does on a stream; it undoes
    [encode_chunks], the output of the writers. *)
From stdpp Require Import base list gmap strings.
From Stdlib Require Import Strings.Byte NArith Lia.
From S2P Require Import Prelude Errors StdIo HttpApi Mpsc HttpBody Body BodyLaws Message.
From S2P Require Import MessageLaws.

(** ** Decoding bytes *)
Section decode.
Context `{!HttpApi} `{!Fuel}.

(** The next line of a stream that delivers [bs] and then ends with [fin]; [None]
    when the stream fails before the line is complete. *)
Definition next_line (bs : bytes) (fin : option io_error) : option (bytes * bytes) :=
  match memchr LF bs, fin with
  | None, Some _ => None
  | _, _ => Some (line_of LF bs, after_line LF bs)
  end.

(** The next chunk and what follows it; [Some None] at the end; [None] when a
    chunk claims more than [isize::MAX] bytes, on which the decoder panics. *)
Fixpoint dechunk_next (n : nat) (buf bs : bytes) (fin : option io_error)
  : option (option (bytes * bytes)) :=
  match n with
  | O => None
  | S n =>
      match next_line bs fin with
      | None | Some ([], _) => Some None
      | Some (line, rest) =>
          match parse_chunk_size (buf ++ line) with
          | Complete _ 0%N => Some None
          | Complete _ size =>
              if (isize_max <? wrap64 size)%N then None
              else if (N.of_nat (length rest) <? wrap64 size)%N then Some None
              else
                match next_line (drop (N.to_nat (wrap64 size)) rest) fin with
                | None => Some None
                | Some (_, rest') => Some (Some (take (N.to_nat (wrap64 size)) rest, rest'))
                end
          | Partial => dechunk_next n (buf ++ line) rest fin
          | InvalidChunkSize => Some None
          end
      end
  end.

Inductive dechunks (fin : option io_error) : bytes -> list bytes -> Prop :=
| dechunks_end bs : dechunk_next fuel [] bs fin = Some None -> dechunks fin bs []
| dechunks_more bs c rest cs :
    dechunk_next fuel [] bs fin = Some (Some (c, rest)) ->
    dechunks fin rest cs -> dechunks fin bs (c :: cs).

Lemma next_line_length bs fin line rest :
  next_line bs fin = Some (line, rest) -> length line + length rest = length bs.
Proof.
  intros Hl. rewrite <-(line_after LF bs), length_app. unfold next_line in Hl.
  by destruct (memchr LF bs), fin; simplify_eq.
Qed.

Lemma dechunk_next_length n buf bs fin c rest :
  dechunk_next n buf bs fin = Some (Some (c, rest)) -> length c + length rest < length bs.
Proof.
  revert buf bs. induction n as [|n IH]; intros buf bs; [done|]. cbn [dechunk_next].
  destruct (next_line bs fin) as [[[|x line] r1]|] eqn:Hl; [done| |done].
  apply next_line_length in Hl. cbn [length] in Hl.
  destruct (parse_chunk_size _) as [pos [|p]| |]; try done.
  - destruct (isize_max <? _)%N; [done|]. destruct (_ <? _)%N; [done|].
    destruct (next_line (drop _ r1) fin) as [[l3 r3]|] eqn:Hl3; [|done]. intros [= <- <-].
    apply next_line_length in Hl3. rewrite length_drop in Hl3. rewrite length_take. lia.
  - intros Hd%IH. lia.
Qed.

(** Where the decoder stands when it stops: behind the size line of the last chunk, behind
    a line that is no size, or at the end of the stream when that cuts a chunk off. *)
Fixpoint chunks_end (n : nat) (buf bs : bytes) (fin : option io_error) : option bytes :=
  match n with
  | O => None
  | S n =>
      match next_line bs fin with
      | None => None
      | Some ([], rest) => Some rest
      | Some (line, rest) =>
          match parse_chunk_size (buf ++ line) with
          | Complete _ 0%N => Some rest
          | Complete _ size =>
              if (isize_max <? wrap64 size)%N then None
              else if (N.of_nat (length rest) <? wrap64 size)%N
              then match fin with None => Some [] | Some _ => None end
              else None
          | Partial => chunks_end n (buf ++ line) rest fin
          | InvalidChunkSize => Some rest
          end
      end
  end.

(** A chunked body: the chunks that the decoder returns and where it stands then. *)
Fixpoint dechunk_all (n : nat) (bs : bytes) (fin : option io_error)
  : option (list bytes * bytes) :=
  match n with
  | O => None
  | S n =>
      match chunks_end fuel [] bs fin, dechunk_next fuel [] bs fin with
      | Some rest, _ => Some ([], rest)
      | None, Some (Some (c, rest)) =>
          '(cs, end_) ← dechunk_all n rest fin; Some (c :: cs, end_)
      | None, _ => None
      end
  end.

Lemma chunks_end_length n buf bs fin rest :
  chunks_end n buf bs fin = Some rest -> length rest <= length bs.
Proof.
  revert buf bs. induction n as [|n IH]; intros buf bs; [done|]. cbn [chunks_end].
  destruct (next_line bs fin) as [[[|x line] rest']|] eqn:Hl; [| |done];
    apply next_line_length in Hl; [intros [= <-]; lia|].
  destruct (parse_chunk_size _) as [pos [|p]| |].
  - intros [= <-]. lia.
  - destruct (_ <? _)%N; [done|]. destruct (_ <? _)%N; [|done]. destruct fin; [done|].
    intros [= <-]. cbn. lia.
  - intros Hr%IH. lia.
  - intros [= <-]. lia.
Qed.

Lemma dechunk_all_length n bs fin cs rest :
  dechunk_all n bs fin = Some (cs, rest) ->
  length (concat cs) + length rest <= length bs /\ length cs <= length bs.
Proof.
  revert bs cs. induction n as [|n IH]; intros bs cs; [done|]. cbn [dechunk_all].
  destruct (chunks_end fuel [] bs fin) as [r|] eqn:Hl.
  - intros [= <- <-]. cbn. apply chunks_end_length in Hl. lia.
  - destruct (dechunk_next fuel [] bs fin) as [[[c rest1]|]|] eqn:Hn; [|done..].
    destruct (dechunk_all n rest1 fin) as [[cs' e]|] eqn:Hd; [|done].
    intros [= <- <-]. apply IH in Hd. apply dechunk_next_length in Hn.
    cbn. rewrite length_app. lia.
Qed.
End decode.

(** ** [ChunkedReader] *)
Section chunked_reader_laws.
Context `{!HttpApi} `{!Fuel} {W R : Type} `{!World W} `{!BufRead W R} `{!Drop W R}
  `{!BufReadLaws W R}.
Implicit Types (r : R) (w : W).

(** [reader.read_until(b'\n', ..).ok()] *)
Lemma next_line_spec r w bs fin :
  holds r w bs fin -> length bs < fuel ->
  wp (E := io_error) (result_ok (read_until (W := W) (R := R) fuel LF))
     (fun o '(r', w') => rstep w w' /\
        match next_line bs fin with
        | None => o = None /\ alive r' w'
        | Some (line, rest) => o = Some line /\ holds r' w' rest fin
        end) never (r, w).
Proof.
  intros Hr Hf. apply wp_result_ok.
  eapply wp_mono; [by apply (read_until_spec fuel LF r w bs fin)| |].
  - intros got [r' w'] (Hw & -> & Hr' & Hor). split; [done|]. unfold next_line.
    destruct (memchr LF bs) eqn:Hm; [done|]. destruct fin; [|done].
    apply memchr_None in Hm. by destruct Hor.
  - intros e [r' w'] (Hw & Hal & Hnot & ->). split; [done|]. unfold next_line.
    by rewrite (proj2 (memchr_None _ _) Hnot).
Qed.

Lemma chunked_next_loop_spec n buf r w bs fin o :
  holds r w bs fin -> length bs < fuel ->
  dechunk_next n buf bs fin = Some o ->
  wp (chunked_next_loop n buf)
     (fun got '(r', w') => rstep w w' /\
        match o with
        | None => got = None /\ alive r' w'
        | Some (c, rest) => got = Some c /\ holds r' w' rest fin
        end) never (r, w).
Proof.
  revert buf r w bs. induction n as [|n IH]; intros buf r w bs Hr Hf Hd; [done|].
  cbn [dechunk_next] in Hd. cbn [chunked_next_loop]. wp_step.
  eapply wp_never_mono; [by apply next_line_spec|]. intros got [r1 w1] [Hw1 Hline].
  destruct (next_line bs fin) as [[line rest]|] eqn:Hnl.
  2: { destruct Hline as [-> Hal]. injection Hd as <-. by apply wp_ret. }
  destruct Hline as [-> Hr1]. destruct line as [|x line].
  { injection Hd as <-. apply wp_ret. split_and!; [done|done|by eapply holds_alive]. }
  pose proof (next_line_length _ _ _ _ Hnl) as Hrest.
  cbv zeta. destruct (parse_chunk_size (buf ++ x :: line)) as [pos [|p]| |].
  - injection Hd as <-. apply wp_ret. split_and!; [done|done|by eapply holds_alive].
  - destruct (N.ltb_spec isize_max (wrap64 (N.pos p))) as [|Hmax]; [done|].
    wp_step. apply wp_alloc_vec; [done|].
    wp_step. apply wp_result_ok.
    eapply wp_mono; [apply (read_exact_spec fuel _ r1 w1 rest fin Hr1); right; lia| |].
    + intros chunk [r2 w2] (Hw2 & Hle & -> & Hr2).
      destruct (N.ltb_spec (N.of_nat (length rest)) (wrap64 (N.pos p))) as [|_]; [lia|].
      wp_step. eapply wp_never_mono.
      { apply (next_line_spec r2 w2 _ fin Hr2). rewrite length_drop. lia. }
      intros got [r3 w3] [Hw3 Hline3].
      destruct (next_line (drop _ rest) fin) as [[line3 rest3]|];
        injection Hd as <-; destruct Hline3 as [-> H3]; apply wp_ret.
      * split_and!; [by etrans; [|etrans]|done|done].
      * split_and!; [by etrans; [|etrans]|done|done].
    + intros e [r2 w2] (Hw2 & Hal & Hlt & _ & _).
      destruct (N.ltb_spec (N.of_nat (length rest)) (wrap64 (N.pos p))) as [_|]; [|lia].
      injection Hd as <-. apply wp_ret. split_and!; [by etrans|done|done].
  - eapply wp_never_mono; [apply (IH _ r1 w1 rest); [done|lia|done]|].
    intros got [r2 w2] [Hw2 Ho]. split; [by etrans|done].
  - injection Hd as <-. apply wp_ret. split_and!; [done|done|by eapply holds_alive].
Qed.

(** The iteration stops there. *)
Lemma chunks_end_spec n buf r w bs fin rest :
  holds r w bs fin -> length bs < fuel -> chunks_end n buf bs fin = Some rest ->
  wp (chunked_next_loop n buf)
     (fun got '(r', w') => rstep w w' /\ got = None /\ holds r' w' rest fin) never (r, w).
Proof.
  revert buf r w bs. induction n as [|n IH]; intros buf r w bs Hr Hf Hd; [done|].
  cbn [chunks_end] in Hd. cbn [chunked_next_loop]. wp_step.
  eapply wp_never_mono; [by apply next_line_spec|]. intros got [r1 w1] [Hw1 Hline].
  destruct (next_line bs fin) as [[line rest1]|] eqn:Hnl; [|done].
  destruct Hline as [-> Hr1]. destruct line as [|x line].
  { injection Hd as <-. by apply wp_ret. }
  pose proof (next_line_length _ _ _ _ Hnl) as Hrest. cbv zeta.
  destruct (parse_chunk_size (buf ++ x :: line)) as [pos [|p]| |].
  - injection Hd as <-. by apply wp_ret.
  - destruct (N.ltb_spec isize_max (wrap64 (N.pos p))) as [|Hmax]; [done|].
    destruct (N.ltb_spec (N.of_nat (length rest1)) (wrap64 (N.pos p))) as [Hcut|]; [|done].
    destruct fin; [done|]. injection Hd as <-.
    wp_step. apply wp_alloc_vec; [done|]. wp_step. apply wp_result_ok.
    eapply wp_mono; [apply (read_exact_spec fuel _ r1 w1 rest1 None Hr1); right; lia| |].
    + intros chunk [r2 w2] (_ & Hle & _). lia.
    + intros e [r2 w2] (Hw2 & _ & _ & _ & Hr2). apply wp_ret. split_and!; [by etrans|done|auto].
  - eapply wp_never_mono; [apply (IH _ r1 w1 rest1); [done|lia|done]|].
    intros got [r2 w2] [Hw2 Ho]. split; [by etrans|done].
  - injection Hd as <-. by apply wp_ret.
Qed.

(** *** The chunks that are left on the stream, in front of [rest] *)
Section chunks_left.
Variables (rest : bytes) (fin : option io_error).
Implicit Types (it : ChunkedReader R).

(** [cs] are the chunks that [it] is going to return, in front of [rest]. *)
Definition chunks_left it w (cs : list bytes) : Prop :=
  exists n all, holds (chunked_reader_0 it) w all fin /\ length all < fuel /\
    dechunk_all n all fin = Some (cs, rest).

(** It returned all of them. *)
Definition chunks_done it w : Prop := holds (chunked_reader_0 it) w rest fin.

Lemma chunks_left_wstep it w w' cs : chunks_left it w cs -> wstep w w' -> chunks_left it w' cs.
Proof.
  intros (n & all & Hr & Hrest) Hw. exists n, all. split; [by eapply holds_wstep|done].
Qed.

Lemma next_left it w cs :
  chunks_left it w cs ->
  wp (next (I := ChunkedReader R))
     (fun o '(it', w') => rstep w w' /\
        match cs with
        | [] => o = None /\ chunks_done it' w'
        | c :: cs => o = Some (inl (Data c)) /\ chunks_left it' w' cs
        end) never (it, w).
Proof.
  destruct it as [r]. intros (n & all & Hr & Hf & Hd). destruct n as [|n]; [done|].
  cbn [dechunk_all chunked_reader_0] in *. unfold wp, next, ChunkedReader_iter, chunked_next.
  cbn [fst snd chunked_reader_0]. destruct (chunks_end fuel [] all fin) as [rest'|] eqn:Hl.
  - injection Hd as <- ->. pose proof (chunks_end_spec fuel [] r w all fin rest Hr Hf Hl) as Hwp.
    unfold wp in Hwp. destruct (chunked_next_loop _ _ _) as [got [r' w']|e [r' w']| | |]; [|done..].
    by destruct Hwp as (Hw & -> & Hr').
  - destruct (dechunk_next fuel [] all fin) as [[[c rest1]|]|] eqn:Hn; [|done..].
    destruct (dechunk_all n rest1 fin) as [[cs' e]|] eqn:Hd'; [|done]. injection Hd as <- ->.
    pose proof (chunked_next_loop_spec fuel [] r w all fin _ Hr Hf Hn) as Hwp.
    unfold wp in Hwp. destruct (chunked_next_loop _ _ _) as [got [r' w']|e [r' w']| | |]; [|done..].
    destruct Hwp as (Hw & -> & Hr'). split; [done|]. split; [done|]. exists n, rest1.
    apply dechunk_next_length in Hn. split_and!; [done|lia|done].
Qed.

Lemma data_next_left it w cs :
  chunks_left it w cs ->
  wp (data_next (I := ChunkedReader R))
     (fun o '(it', w') => rstep w w' /\
        match cs with
        | [] => o = None /\ chunks_done it' w'
        | c :: cs => o = Some (inl c) /\ chunks_left it' w' cs
        end) never (it, w).
Proof.
  intros Hit. unfold data_next. pose proof Hit as (_ & all & _ & Hf & _).
  destruct fuel as [|f] eqn:Hfu; [lia|]. cbn [data_next_loop]. wp_step.
  eapply wp_never_mono; [by apply next_left|]. intros o [it1 w1] [Hw1 Ho].
  destruct cs as [|c cs]; destruct Ho as [-> Hit1]; by apply wp_ret.
Qed.

(** Collecting them leaves the stream where the decoder stops. *)
Lemma collect_left m it w cs :
  chunks_left it w cs -> length cs < m ->
  wp (collect_data (I := ChunkedReader R) m)
     (fun ds '(it', w') => rstep w w' /\ ds = cs /\ chunks_done it' w') never (it, w).
Proof.
  revert it w cs. induction m as [|m IH]; intros it w cs Hit Hm; [lia|].
  cbn [collect_data]. wp_step. eapply wp_never_mono; [by apply data_next_left|].
  intros o [it1 w1] [Hw1 Ho]. destruct cs as [|c cs]; destruct Ho as [-> Hit1]; [by apply wp_ret|].
  cbn [length] in Hm. wp_step. eapply wp_never_mono; [apply (IH it1 w1 cs Hit1); lia|].
  intros ds [it2 w2] (Hw2 & -> & Hit2). apply wp_ret. by split; [etrans|].
Qed.

Lemma chunked_body_passes r w bs cs n :
  holds r w bs fin -> length bs < fuel -> dechunk_all n bs fin = Some (cs, rest) ->
  wp (body_into_bytes (R := R) (Body_from_iter (MkChunkedReader r)))
     (fun got w' => rstep w w' /\ got = concat cs /\ passed R w' rest fin) never w.
Proof.
  intros Hr Hf Hd. unfold body_into_bytes, unwrap_inner, Body_from_iter. cbn [body_0]. wp_steps.
  pose proof (dechunk_all_length _ _ _ _ _ Hd).
  eapply wp_mono; [apply (collect_left fuel (MkChunkedReader r) w cs); [by exists n, bs|lia]| |done].
  intros ds [[r1] w1] (Hw1 & -> & Hr1). cbn [fst snd]. wp_steps.
  eapply wp_never_mono; [exact (drop_holds _ r1 w1 rest fin Hr1)|].
  intros [] w2 [Hw2 Hp]. apply wp_ret. by split; [etrans|].
Qed.
End chunks_left.

Definition cr_produces (it : ChunkedReader R) (w : W) (P : list (Chunk + io_error) -> Prop)
  : Prop :=
  exists bs fin cs, holds (chunked_reader_0 it) w bs fin /\ length bs < fuel /\
    dechunks fin bs cs /\ P ((fun c => inl (Data c)) <$> cs).

#[export, refine] Instance ChunkedReader_laws : ChunkIterLaws W (ChunkedReader R) := {|
  produces := cr_produces;
  iter_alive it := alive (chunked_reader_0 it);
|}.
Proof.
  - intros it w P (bs & fin & cs & _ & _ & _ & HP). eauto.
  - intros it w P Q (bs & fin & cs & ? & ? & ? & HP) HPQ. exists bs, fin, cs. eauto.
  - intros it w w' P (bs & fin & cs & Hr & ?) Hw. exists bs, fin, cs.
    split; [by eapply holds_wstep|done].
  - intros it w P (bs & fin & cs & Hr & _). by eapply holds_alive.
  - intros it w w'. apply alive_wstep.
  - intros E [r] w. apply (drop_alive E r).
  - intros [r] w P (bs & fin & cs & Hr & Hf & Hd & HP). cbn [chunked_reader_0] in *.
    assert (exists o, dechunk_next fuel [] bs fin = Some o /\
              match o with None => cs = [] | Some (c, rest) =>
                exists cs', cs = c :: cs' /\ dechunks fin rest cs' end) as (o & Ho & Hcs).
    { inversion Hd; subst; eexists; split; try done. by eexists. }
    pose proof (chunked_next_loop_spec fuel [] r w bs fin o Hr Hf Ho) as Hn.
    unfold wp, next, ChunkedReader_iter, chunked_next in *. cbn [fst snd chunked_reader_0].
    destruct (chunked_next_loop fuel [] (r, w)) as [got [r' w']|e [r' w']| | |]; [|done..].
    destruct Hn as [Hw Hn]. split; [done|]. destruct o as [[c rest]|].
    + destruct Hn as [-> Hr']. destruct Hcs as (cs' & -> & Hd').
      cbn. exists rest, fin, cs'. split_and!; [done| |done|done].
      apply dechunk_next_length in Ho. lia.
    + destruct Hn as [-> Hal]. subst cs. cbn. done.
Defined.
End chunked_reader_laws.

(** ** Decoding what was encoded *)
Section round_trip.
Context `{!HttpApi} `{!HttpApiLaws} `{!Fuel}.
Abbreviation item := (Chunk + io_error)%type.

(** The data chunks of a sequence of items. *)
Definition data_chunks (items : list item) : list bytes :=
  omap (fun i : item => match i with inl (Data d) => Some d | _ => None end) items.

Lemma concat_data_chunks items : concat (data_chunks items) = payload items.
Proof.
  unfold payload, data_chunks.
  induction items as [|[[d|t]|e] items IH]; cbn; [done| |done|done]. by f_equal.
Qed.

Lemma length_data_chunks items : length (data_chunks items) <= length items.
Proof. unfold data_chunks. induction items as [|[[d|t]|e] items IH]; cbn; lia. Qed.

Lemma not_LF_hex n : LF ∉ hex n ++ [CR].
Proof.
  rewrite not_elem_of_app. split; [|set_solver].
  assert (Forall (fun c => c <> LF) (hex n)) as Hall.
  { apply digits_Forall; [lia|]. apply (digit_byte_cases (fun _ c => c <> LF)); done. }
  intros Hin. by eapply Forall_forall in Hall.
Qed.

Lemma next_line_app line rest fin :
  LF ∉ line -> next_line (line ++ LF :: rest) fin = Some (line ++ [LF], rest).
Proof.
  intros Hl. unfold next_line.
  by rewrite memchr_app, line_of_app, after_line_app.
Qed.

Lemma next_line_hex n rest fin :
  next_line (hex n ++ CRLF ++ rest) fin = Some (hex n ++ CRLF, rest).
Proof.
  pose proof (next_line_app (hex n ++ [CR]) rest fin (not_LF_hex n)) as Hl.
  by rewrite <-!app_assoc in Hl.
Qed.

Lemma next_line_CRLF rest fin : next_line (CRLF ++ rest) fin = Some (CRLF, rest).
Proof. apply (next_line_app [CR] rest fin). set_solver. Qed.

Lemma hex_CRLF_cons n : exists x l, hex n ++ CRLF = x :: l.
Proof. destruct (hex n) as [|x l]; eauto. Qed.

Lemma dechunk_data n d rest fin :
  d <> [] -> (N.of_nat (length d) <= isize_max)%N ->
  dechunk_next (S n) [] (chunk_text (inl (Data d)) ++ rest) fin = Some (Some (d, rest)).
Proof.
  intros Hd Hlen. unfold isize_max in Hlen. cbn [chunk_text dechunk_next].
  unfold chunk_header. rewrite <-!app_assoc, next_line_hex.
  destruct (hex_CRLF_cons (N.of_nat (length d))) as (x & l & Heq). rewrite Heq, <-Heq.
  cbn [app]. rewrite parse_chunk_size_hex by lia.
  assert (Hpos : exists p, N.of_nat (length d) = N.pos p).
  { destruct d; [done|]. cbn [length]. by eexists. }
  destruct Hpos as [p Hp]. rewrite Hp.
  rewrite wrap64_id by lia. rewrite <-Hp.
  destruct (N.ltb_spec isize_max (N.of_nat (length d))) as [Hlt|_]; [unfold isize_max in Hlt; lia|].
  destruct (N.ltb_spec (N.of_nat (length (d ++ CRLF ++ rest))) (N.of_nat (length d))) as [Hlt|_].
  { rewrite length_app in Hlt. lia. }
  rewrite Nat2N.id, drop_app_length, next_line_CRLF, take_app_length. done.
Qed.

Lemma dechunk_last n rest fin :
  dechunk_next (S n) [] (b "0" ++ CRLF ++ rest) fin = Some None.
Proof.
  change (b "0") with (hex 0). cbn [dechunk_next]. rewrite next_line_hex.
  destruct (hex_CRLF_cons 0) as (x & l & Heq). rewrite Heq, <-Heq. cbn [app].
  by rewrite parse_chunk_size_hex by lia.
Qed.

(** A chunk that the decoder takes for a chunk. *)
Definition sound_item (i : item) : Prop :=
  match i with
  | inl (Data d) => d <> [] /\ (N.of_nat (length d) <= isize_max)%N
  | inl (Trailers _) => True
  | inr _ => False
  end.

Lemma dechunks_encode items rest fin :
  fuel <> 0 -> Forall sound_item items ->
  dechunks fin (encode_chunks items ++ rest) (data_chunks items).
Proof.
  intros Hf. unfold encode_chunks.
  generalize (headers_text (hm_iter (fold_left item_trailers items hm_new)) ++ CRLF) as tail.
  intros tail. rewrite <-!app_assoc.
  induction 1 as [|[[d|te]|e] items Hi _ IH]; [| | |done].
  - constructor. destruct fuel as [|n]; [done|]. apply dechunk_last.
  - cbn [fmap list_fmap concat]. rewrite <-app_assoc.
    destruct Hi as [Hd Hlen]. eapply dechunks_more; [|exact IH].
    destruct fuel as [|n]; [done|]. by apply dechunk_data.
  - exact IH.
Qed.

(** The trailers and the empty line after them are not read. *)
Lemma chunks_end_zero rest fin :
  fuel <> 0 -> chunks_end fuel [] (b "0" ++ CRLF ++ rest) fin = Some rest.
Proof.
  intros Hf. change (b "0") with (hex 0). destruct fuel as [|n]; [done|]. cbn [chunks_end].
  rewrite next_line_hex. destruct (hex_CRLF_cons 0) as (x & l & Heq). rewrite Heq, <-Heq.
  cbn [app]. by rewrite parse_chunk_size_hex by lia.
Qed.

Lemma chunks_end_data d rest fin :
  fuel <> 0 -> d <> [] -> (N.of_nat (length d) <= isize_max)%N ->
  chunks_end fuel [] (chunk_text (inl (Data d)) ++ rest) fin = None.
Proof.
  intros Hf Hd Hlen. unfold isize_max in Hlen. destruct fuel as [|n]; [done|].
  cbn [chunks_end chunk_text]. unfold chunk_header. rewrite <-!app_assoc, next_line_hex.
  destruct (hex_CRLF_cons (N.of_nat (length d))) as (x & l & Heq). rewrite Heq, <-Heq. cbn [app].
  rewrite parse_chunk_size_hex by lia.
  destruct (N.of_nat (length d)) as [|p] eqn:Hp; [by destruct d|]. rewrite wrap64_id by lia.
  destruct (N.ltb_spec isize_max (N.pos p)) as [Hlt|_]; [unfold isize_max in Hlt; lia|].
  rewrite length_app. by destruct (N.ltb_spec (N.of_nat (length d + length (CRLF ++ rest))) (N.pos p)); [lia|].
Qed.

(** The chunks of [items], in front of something at which the decoder stops *)
Lemma dechunk_all_items n items tail rest fin :
  fuel <> 0 -> Forall sound_item items -> length items < n ->
  chunks_end fuel [] tail fin = Some rest ->
  dechunk_all n (concat (chunk_text <$> items) ++ tail) fin = Some (data_chunks items, rest).
Proof.
  intros Hf Hi Hn Hend. revert n Hn.
  induction Hi as [|[[d|te]|e] items Hi _ IH]; intros n Hn; [| | |done];
    destruct n as [|n]; try (cbn in Hn; lia).
  - cbn [fmap list_fmap concat app dechunk_all]. by rewrite Hend.
  - cbn [fmap list_fmap concat dechunk_all]. rewrite <-app_assoc. destruct Hi as [Hd Hlen].
    rewrite chunks_end_data by done.
    replace (dechunk_next fuel [] _ fin) with (Some (Some (d, concat (chunk_text <$> items) ++ tail))).
    + rewrite IH by (cbn in Hn; lia). done.
    + destruct fuel as [|f]; [done|]. symmetry. by apply dechunk_data.
  - apply (IH (S n)). cbn in Hn. lia.
Qed.

Lemma dechunk_all_encode n items rest fin :
  fuel <> 0 -> Forall sound_item items -> length items < n ->
  dechunk_all n (encode_chunks items ++ rest) fin =
    Some (data_chunks items,
          headers_text (hm_iter (fold_left item_trailers items hm_new)) ++ CRLF ++ rest).
Proof.
  intros Hf Hi Hn. unfold encode_chunks. rewrite <-!app_assoc.
  apply dechunk_all_items; [done..|]. by apply chunks_end_zero.
Qed.

(** A line that is no chunk size *)
Lemma chunks_end_malformed line rest fin :
  fuel <> 0 -> LF ∉ line -> parse_chunk_size (line ++ [LF]) = InvalidChunkSize ->
  chunks_end fuel [] (line ++ LF :: rest) fin = Some rest.
Proof.
  intros Hf Hl Hp. destruct fuel as [|n]; [done|]. cbn [chunks_end]. rewrite next_line_app by done.
  cbn [app]. rewrite Hp. by destruct (line ++ [LF]).
Qed.

Lemma payload_data cs : payload ((fun c => inl (Data c)) <$> cs) = concat cs.
Proof. unfold payload. induction cs as [|c cs IH]; [done|]. cbn. by rewrite <-IH. Qed.
Lemma ok_prefix_data (cs : list bytes) :
  ok_prefix ((fun c => inl (Data c)) <$> cs) = (fun c => inl (Data c)) <$> cs.
Proof. induction cs as [|c cs IH]; [done|]. cbn. by f_equal. Qed.
Lemma first_error_data (cs : list bytes) :
  first_error ((fun c => inl (Data c)) <$> cs) = None.
Proof. by induction cs. Qed.


(** A chunk without data looks like the last one to the decoder. *)
Lemma dechunks_encode_empty items items' rest fin :
  fuel <> 0 -> Forall sound_item items ->
  dechunks fin (encode_chunks (items ++ inl (Data []) :: items') ++ rest) (data_chunks items).
Proof.
  intros Hf. unfold encode_chunks.
  generalize (headers_text (hm_iter (fold_left item_trailers
    (items ++ inl (Data []) :: items') hm_new)) ++ CRLF) as tail.
  intros tail. rewrite <-!app_assoc.
  induction 1 as [|[[d|te]|e] items Hi _ IH]; [| | |done].
  - constructor. destruct fuel as [|n]; [done|]. apply dechunk_last.
  - cbn [app fmap list_fmap concat]. rewrite <-app_assoc.
    destruct Hi as [Hd Hlen]. eapply dechunks_more; [|exact IH].
    destruct fuel as [|n]; [done|]. by apply dechunk_data.
  - exact IH.
Qed.
End round_trip.

(** ** The body [parse_request] and [parse_response] make of a chunked stream *)
Section chunked_body.
Context `{!HttpApi} `{!HttpApiLaws} `{!Fuel} {W R : Type} `{!World W} `{!BufRead W R}
  `{!Drop W R} `{!BufReadLaws W R}.
Implicit Types (r : R) (w : W).

Lemma chunked_body_of r w bs fin cs :
  holds r w bs fin -> length bs < fuel -> dechunks fin bs cs -> length cs < fuel ->
  body_bytes_of (R := R) (Body_from_iter (MkChunkedReader r)) w (concat cs).
Proof.
  intros Hr Hf Hd Hl. exists (eq ((fun c => inl (Data c)) <$> cs)). split.
  - by exists bs, fin, cs.
  - intros items' <-. rewrite ok_prefix_data, payload_data, first_error_data.
    by rewrite length_fmap.
Qed.

Lemma chunked_body_bytes r w items rest fin :
  holds r w (encode_chunks items ++ rest) fin ->
  length (encode_chunks items ++ rest) < fuel -> length items < fuel ->
  Forall sound_item items ->
  body_bytes_of (R := R) (Body_from_iter (MkChunkedReader r)) w (payload items).
Proof.
  intros Hr Hf Hl Hi. rewrite <-concat_data_chunks.
  eapply chunked_body_of; [exact Hr|done| |].
  - apply dechunks_encode; [lia|done].
  - pose proof (length_data_chunks items). lia.
Qed.

(** C18. Chunked encoding and decoding: the body made of a stream that carries the
    chunks of [items], any of them with trailers in between, has exactly their
    bytes, wherever the stream is split and whatever follows it; the stream is let
    go of in front of the trailers and the empty line that ends the message. *)
Theorem chunked_round_trip r w items rest fin :
  Forall sound_item items ->
  holds r w (encode_chunks items ++ rest) fin ->
  length (encode_chunks items ++ rest) < fuel -> length items < fuel ->
  wp (body_into_bytes (R := R) (Body_from_iter (MkChunkedReader r)))
     (fun got w' => got = payload items /\
        passed R w' (headers_text (hm_iter (fold_left item_trailers items hm_new)) ++
                     CRLF ++ rest) fin) never w.
Proof.
  intros Hi Hr Hf Hl. eapply wp_never_mono.
  { eapply (chunked_body_passes _ _ r w); [exact Hr|done|]. by apply (dechunk_all_encode fuel); [lia| |lia]. }
  intros got w' (_ & -> & Hp). by rewrite concat_data_chunks.
Qed.

(** C36. Where a chunk size should be and is not, the body ends as if it was complete: the
    malformed line makes no error, the chunks in front of it are the body, and what stands
    behind it is left on the stream as if it was the next message. *)
Theorem malformed_chunk_ends_body r w items line rest fin :
  Forall sound_item items -> LF ∉ line -> parse_chunk_size (line ++ [LF]) = InvalidChunkSize ->
  let text := concat (chunk_text <$> items) ++ line ++ LF :: rest in
  holds r w text fin -> length text < fuel -> length items < fuel ->
  wp (body_into_bytes (R := R) (Body_from_iter (MkChunkedReader r)))
     (fun got w' => got = payload items /\ passed R w' rest fin) never w.
Proof.
  intros Hi Hl Hp text Hr Hf Hn. eapply wp_never_mono.
  { eapply (chunked_body_passes _ _ r w); [exact Hr|done|].
    apply (dechunk_all_items fuel); [lia|done|lia|]. apply chunks_end_malformed; [lia|done|done]. }
  intros got w' (_ & -> & Hpa). by rewrite concat_data_chunks.
Qed.

(** A data chunk without bytes is written as the end of the body: a reader sees
    only what came before it. *)
Theorem empty_chunk_truncates r w items items' rest fin :
  Forall sound_item items ->
  let out := encode_chunks (items ++ inl (Data []) :: items') ++ rest in
  holds r w out fin -> length out < fuel -> length items < fuel ->
  wp (body_into_bytes (R := R) (Body_from_iter (MkChunkedReader r)))
     (fun got _ => got = payload items) never w.
Proof.
  intros Hi out Hr Hf Hl. eapply wp_never_mono.
  { apply (body_into_bytes_spec _ w (payload items)). rewrite <-concat_data_chunks.
    eapply chunked_body_of; [exact Hr|done| |].
    - apply dechunks_encode_empty; [lia|done].
    - pose proof (length_data_chunks items). lia. }
  by intros got w' [_ ->].
Qed.

(** The decoder ends on every stream, malformed ones included: unless a chunk
    claims more than [isize::MAX] bytes, [next] returns a chunk or [None], without
    a panic and without waiting for more than the stream has. *)
Theorem chunked_next_total r w bs fin o :
  holds r w bs fin -> length bs < fuel -> dechunk_next fuel [] bs fin = Some o ->
  wp chunked_next (fun got '(r', w') =>
      match o with
      | None => got = None
      | Some (c, rest) => got = Some c /\ holds r' w' rest fin
      end) never (r, w).
Proof.
  intros Hr Hf Hd. eapply wp_never_mono; [by apply (chunked_next_loop_spec fuel [] r w bs fin o)|].
  intros got [r' w'] [_ Ho]. destruct o as [[c rest]|]; [done|]. by destruct Ho.
Qed.

(** A chunk size above [isize::MAX] makes the decoder panic: the buffer for the
    chunk is allocated before any of its bytes is read. *)
Theorem huge_chunk_panics r w n rest fin :
  (isize_max < n < 2 ^ 64)%N ->
  holds r w (hex n ++ CRLF ++ rest) fin -> length (hex n ++ CRLF ++ rest) < fuel ->
  chunked_next (r, w) = Panic.
Proof.
  intros Hn Hr Hf. assert (exists k, fuel = S k) as [k Hk] by (destruct fuel; [lia|eauto]).
  unfold chunked_next. rewrite Hk. cbn [chunked_next_loop].
  pose proof (next_line_spec r w _ fin Hr Hf) as Hl. rewrite next_line_hex in Hl.
  apply wp_ok_inv in Hl as (o & [r' w'] & Heq & _ & -> & _). rewrite (bind_Ok _ _ _ _ _ Heq).
  clear Heq. destruct (hex_CRLF_cons n) as (x & l & Heq).
  rewrite Heq, <-Heq. cbv zeta. cbn [app]. rewrite parse_chunk_size_hex by lia.
  destruct n as [|p]; [lia|]. apply bind_Panic. unfold alloc_vec.
  rewrite wrap64_id by lia. by destruct (N.leb_spec (N.pos p) isize_max); [lia|].
Qed.
End chunked_body.
