(* ===== verification/Request.v ===== *)
(** * Request: [parse_request] and [write_request] of src/src/request.rs *)
From stdpp Require Import base list gmap strings.
From Stdlib Require Import Strings.Byte NArith Lia.
From S2P Require Import Prelude Errors StdIo HttpApi Mpsc HttpBody Body Message.

Section parse_request.
Context `{!HttpApi} `{!Fuel} {W R : Type} `{!BufRead W R} `{!Drop W R}.

Abbreviation IncomingBody := (Body (ChunkedReader R) R).

(** The body of the message, chosen by its headers; it takes the stream over or
    the stream is dropped. *)
Definition request_body (headers : HeaderMap) (stream : R)
  : ST W ParseError IncomingBody :=
  match te_try_get headers with
  | inr _ => fail_dropping stream InvalidHeader
  | inl (Some encoding) =>
      if negb (te_is_chunked encoding)
      then fail_dropping stream InvalidTransferEncoding
      else ret (Body_from_iter (MkChunkedReader stream))
  | inl None =>
      match cl_try_get headers with
      | inr _ => fail_dropping stream InvalidHeader
      | inl (Some len) =>
          if (len <? 1024)%N
          then
            let! (buf, stream) :=
              borrow (map_err Io (read_exact fuel (N.to_nat (wrap64 len)))) stream in
            drop_value stream;;;
            ret (Body_from_vec buf)
          else ret (Body_from_reader stream (Some (wrap64 len)))
      | inl None =>
          drop_value stream;;;
          ret Body_empty
      end
  end.

Definition parse_request (stream : R) : ST W ParseError (Request IncomingBody) :=
  let! (buf, stream) := borrow read_head stream in
  if bool_decide (buf = []) then fail_dropping stream ConnectionClosed else
  match httparse_request buf with
  | inr e => fail_dropping stream (Invalid e)
  | inl req =>
      let! method := ok_or stream (hp_method req) IncompleteRequest in
      let! path := ok_or stream (hp_path req) IncompleteRequest in
      let! version := ok_or stream (hp_version req) IncompleteRequest in
      let! version := question stream (convert_version version) in
      let! method := ok_or stream (method_from_bytes method) IncompleteRequest in
      let uri := uri_parse path in
      let request := fold_headers (filled_headers (hp_headers req))
                                  (uri ≫= fun _ => Some hm_new) in
      match uri, request with
      | Some uri, Some headers =>
          let! body := request_body headers stream in
          ret (Build_Request method uri version headers body)
      | _, _ => fail_dropping stream Unknown
      end
  end.
End parse_request.

Section write_request.
Context `{!HttpApi} `{!Fuel} {W S B : Type} `{!Write W S} `{!HttpBody W B}.

Definition length_mismatch : io_error :=
  io_other "content-length doesn't match body length".
Definition unknown_size : io_error :=
  io_other "could not determine the size of the body".
Definition unsupported_version : io_error := io_other "unsupported http version".

(** The choice of the encoding, with the headers it adds. *)
Definition request_encoding (method : Method) (version : Version)
    (headers : HeaderMap) (body_len : option N) : (Encoding * HeaderMap) + io_error :=
  let has_chunked_encoding := has_chunked headers in
  let content_length := cl_get headers in
  if has_chunked_encoding && bool_decide (version = HTTP_11)
  then inl (Chunked, headers)
  else
    match content_length, body_len with
    | Some len, Some body_len =>
        if (len =? body_len)%N then inl (FixedLength len, headers)
        else inr length_mismatch
    | Some len, None => inl (FixedLength len, headers)
    | None, Some len => inl (FixedLength len, cl_insert len headers)
    | None, None =>
        if bool_decide (method <> GET) && bool_decide (method <> HEAD)
           && bool_decide (version = HTTP_11)
        then inl (Chunked, te_insert_chunked headers)
        else inr unknown_size
    end.

Definition version_text (version : Version) : option bytes :=
  match version with
  | HTTP_11 => Some (b "HTTP/1.1")
  | HTTP_10 => Some (b "HTTP/1.0")
  | _ => None
  end.

Definition request_line (method : Method) (uri : Uri) (version : bytes) : bytes :=
  method_display method ++ b " " ++ uri_display uri ++ b " " ++ version ++ CRLF.

Definition write_request (req : Request B) : ST (S * W) io_error unit :=
  let body := req_body req in
  let drop_body := zoom_r (drop_value body) in
  match request_encoding (req_method req) (req_version req) (req_headers req) (len (W:=W) body) with
  | inr e => drop_body;;; fail e
  | inl (encoding, headers) =>
      match version_text (req_version req) with
      | None => drop_body;;; fail unsupported_version
      | Some version =>
          cleanup drop_body
            (write_all (request_line (req_method req) (req_uri req) version);;;
             write_headers (hm_iter headers);;;
             write_all CRLF);;;
          write_body encoding body
      end
  end.
End write_request.
