(* ===== verification/RequestLaws.v ===== *)
(** * RequestLaws: reading heads, and what [parse_request] takes from the stream

    [split_head] and [request_head] say on bytes what the reader of heads and the
    interpretation of a head do; [parse_request_spec] states that [parse_request]
    takes exactly the head, and the body when it is small, from the stream. *)
From stdpp Require Import base list gmap strings.
From Stdlib Require Import Strings.Byte NArith Lia.
From S2P Require Import Prelude Errors StdIo HttpApi Mpsc HttpBody Body BodyLaws Message.
From S2P Require Import MessageLaws ChunkedLaws Request.

(** ** Heads *)

(** The lines up to an empty one, and what follows; the error of a stream that
    fails first. *)
Fixpoint split_head (n : nat) (acc bs : bytes) (fin : option io_error)
  : (bytes * bytes) + io_error :=
  match n with
  | O => inl (acc, bs)
  | S n =>
      match memchr LF bs, fin with
      | None, Some e => inr e
      | _, _ =>
          let line := line_of LF bs in
          if (length line =? 0) || head_complete (acc ++ line)
          then inl (acc ++ line, after_line LF bs)
          else split_head n (acc ++ line) (after_line LF bs) fin
      end
  end.

Lemma line_length bs : length (line_of LF bs) + length (after_line LF bs) = length bs.
Proof. by rewrite <-length_app, line_after. Qed.

Lemma split_head_length n acc bs fin head rest :
  split_head n acc bs fin = inl (head, rest) -> length rest <= length bs.
Proof.
  revert acc bs. induction n as [|n IH]; intros acc bs; cbn [split_head].
  { by intros [= _ <-]. }
  pose proof (line_length bs) as Hl.
  assert (Hgo : (if (length (line_of LF bs) =? 0) || head_complete (acc ++ line_of LF bs)
                 then inl (acc ++ line_of LF bs, after_line LF bs)
                 else split_head n (acc ++ line_of LF bs) (after_line LF bs) fin) =
                inl (head, rest) -> length rest <= length bs).
  { destruct (_ || _); [intros [= _ <-]; lia|]. intros Hs%IH. lia. }
  by destruct (memchr LF bs), fin.
Qed.

Lemma split_head_prefix n acc bs fin head rest :
  split_head n acc bs fin = inl (head, rest) -> acc `prefix_of` head.
Proof.
  revert acc bs. induction n as [|n IH]; intros acc bs; cbn [split_head].
  { by intros [= <- _]. }
  assert (Hgo : (if (length (line_of LF bs) =? 0) || head_complete (acc ++ line_of LF bs)
                 then inl (acc ++ line_of LF bs, after_line LF bs)
                 else split_head n (acc ++ line_of LF bs) (after_line LF bs) fin) =
                inl (head, rest) -> acc `prefix_of` head).
  { destruct (_ || _).
    - intros [= <- _]. by apply prefix_app_r.
    - intros Hs%IH. etrans; [|exact Hs]. by apply prefix_app_r. }
  by destruct (memchr LF bs), fin.
Qed.

Lemma line_of_nil bs : line_of LF bs = [] -> bs = [].
Proof. unfold line_of. destruct (memchr LF bs); [|done]. by destruct bs. Qed.

Lemma split_head_nil n bs fin rest :
  split_head n [] bs fin = inl ([], rest) -> n <> 0 -> bs = [] /\ fin = None.
Proof.
  destruct n as [|n]; [done|]. intros Hs _. cbn [split_head app] in Hs.
  assert (Hbs : bs = []).
  { apply line_of_nil.
    assert (Hgo : (if (length (line_of LF bs) =? 0) || head_complete (line_of LF bs)
                 then inl (line_of LF bs, after_line LF bs)
                 else split_head n (line_of LF bs) (after_line LF bs) fin) =
                inl ([], rest) -> line_of LF bs = []).
    { destruct (_ || _); [by intros [= -> _]|]. intros Hp%split_head_prefix.
      by apply prefix_nil_inv in Hp. }
    by destruct (memchr LF bs), fin; auto. }
  subst. split; [done|]. by destruct fin.
Qed.

(** A head that is written line by line is read back whole: no line holds a line
    feed, and only the last one is empty. *)
Definition head_text (lines : list bytes) : bytes :=
  concat ((fun l => l ++ CRLF) <$> lines) ++ CRLF.

Lemma head_text_lines lines : length lines <= length (head_text lines).
Proof.
  unfold head_text. rewrite length_app. induction lines as [|l lines IH]; cbn; [lia|].
  rewrite !length_app. cbn in *. lia.
Qed.

Lemma ends_with_rev suffix l :
  ends_with suffix l = bool_decide (reverse suffix `prefix_of` reverse l).
Proof. unfold ends_with. apply bool_decide_ext, suffix_prefix_reverse. Qed.

Lemma head_not_complete acc l :
  LF ∉ l -> l <> [] -> head_complete (acc ++ l ++ CRLF) = false.
Proof.
  intros Hl Hne. destruct (exists_last Hne) as (l' & c & ->).
  assert (Hc : c <> LF) by set_solver.
  unfold head_complete. rewrite !ends_with_rev, !reverse_app. cbn.
  rewrite orb_false_iff, !bool_decide_eq_false. split; intros [k Hk]; cbn in Hk.
  - by injection Hk.
  - done.
Qed.

Lemma head_complete_CRLF acc :
  ends_with CRLF acc = true -> head_complete (acc ++ CRLF) = true.
Proof.
  intros [p ->]%ends_with_spec. unfold head_complete. apply orb_true_iff. left.
  apply ends_with_spec. exists p. by rewrite <-app_assoc.
Qed.

Lemma split_head_text n acc lines rest fin :
  length lines < n -> Forall (fun l => LF ∉ l /\ l <> []) lines ->
  lines <> [] \/ ends_with CRLF acc = true ->
  split_head n acc (head_text lines ++ rest) fin = inl (acc ++ head_text lines, rest).
Proof.
  intros Hn Hall. revert n acc Hn. unfold head_text.
  assert (Hline : forall l tail, LF ∉ l -> memchr LF ((l ++ CRLF) ++ tail) = Some (S (length l)) /\
      line_of LF ((l ++ CRLF) ++ tail) = l ++ CRLF /\ after_line LF ((l ++ CRLF) ++ tail) = tail).
  { intros l tail Hl. assert (Hl' : LF ∉ l ++ [CR]) by set_solver.
    change CRLF with ([CR] ++ [LF]). rewrite !app_assoc, <-(app_assoc (l ++ [CR])). cbn [app].
    rewrite memchr_app, line_of_app, after_line_app by done.
    rewrite length_app. split_and!; [f_equal; simpl; lia|done|done]. }
  induction Hall as [|l lines [Hl Hne] Hall IH]; intros n acc Hn Hor; destruct n as [|n];
    try (simpl in Hn; lia).
  - destruct Hor as [|Hacc]; [done|]. cbn [fmap list_fmap concat app split_head].
    destruct (Hline [] rest ltac:(set_solver)) as (Hm & Hlo & Hal). cbn [app] in *.
    rewrite Hm, Hlo, Hal. rewrite head_complete_CRLF by done. by rewrite orb_true_r.
  - cbn [fmap list_fmap concat split_head]. rewrite <-!app_assoc, (app_assoc l).
    destruct (Hline l (concat ((fun l => l ++ CRLF) <$> lines) ++ CRLF ++ rest) Hl)
      as (-> & -> & ->).
    rewrite head_not_complete by done.
    destruct (length (l ++ CRLF) =? 0) eqn:Hz.
    { apply Nat.eqb_eq in Hz. rewrite length_app in Hz. simpl in Hz. lia. }
    cbn [orb]. rewrite (app_assoc _ CRLF rest). rewrite IH; [|simpl in Hn; lia|].
    + by rewrite <-!app_assoc.
    + right. apply ends_with_spec. exists (acc ++ l). by rewrite <-app_assoc.
Qed.

(** ** Reading a head *)
Section read_head.
Context `{!HttpApi} `{!Fuel} {W R : Type} `{!World W} `{!BufRead W R} `{!Drop W R}
  `{!BufReadLaws W R}.
Implicit Types (r : R) (w : W).

Lemma read_head_loop_spec n acc r w bs fin :
  holds r w bs fin -> length bs < n -> n <= fuel ->
  wp (read_head_loop n acc)
     (fun head '(r', w') => rstep w w' /\ exists rest,
        split_head n acc bs fin = inl (head, rest) /\ holds r' w' rest fin)
     (fun err '(r', w') => rstep w w' /\ alive r' w' /\ exists e,
        err = Io e /\ split_head n acc bs fin = inr e) (r, w).
Proof.
  revert acc r w bs. induction n as [|n IH]; intros acc r w bs Hr Hn Hf; [lia|].
  cbn [read_head_loop split_head]. wp_steps.
  eapply wp_mono; [apply (read_until_spec fuel LF r w bs fin Hr); lia| |].
  - intros line [r1 w1] (Hw1 & -> & Hr1 & Hor). cbv zeta.
    assert (Hsplit : forall X : (bytes * bytes) + io_error,
      match memchr LF bs, fin with None, Some e => inr e | _, _ => X end = X).
    { intros X. destruct (memchr LF bs) eqn:Hm; [done|]. apply memchr_None in Hm.
      destruct fin; [|done]. by destruct Hor. }
    rewrite Hsplit. pose proof (line_length bs) as Hlen.
    destruct (length (line_of LF bs) =? 0) eqn:Hz; cbn [orb].
    { apply wp_ret. split; [done|]. eauto. }
    destruct (head_complete (acc ++ line_of LF bs)).
    { apply wp_ret. split; [done|]. eauto. }
    apply Nat.eqb_neq in Hz.
    eapply wp_mono; [apply (IH _ r1 w1 (after_line LF bs) Hr1); lia| |].
    + intros head [r2 w2] (Hw2 & Hrest). split; [by etrans|done].
    + intros err [r2 w2] (Hw2 & Hrest). split; [by etrans|done].
  - intros e [r1 w1] (Hw1 & Hal & Hnot & ->).
    rewrite (proj2 (memchr_None _ _) Hnot). split_and!; [done|done|]. eauto.
Qed.

Lemma read_head_spec r w bs fin :
  holds r w bs fin -> length bs < fuel ->
  wp read_head
     (fun head '(r', w') => rstep w w' /\ exists rest,
        split_head fuel [] bs fin = inl (head, rest) /\ holds r' w' rest fin)
     (fun err '(r', w') => rstep w w' /\ alive r' w' /\ exists e,
        err = Io e /\ split_head fuel [] bs fin = inr e) (r, w).
Proof. intros Hr Hf. by apply read_head_loop_spec. Qed.
End read_head.

(** ** What the head says *)
Section request_head.
Context `{!HttpApi}.

(** How the body of a message is delimited. *)
Inductive body_plan :=
| PlanChunked
| PlanBuffered (len : N)
| PlanStreamed (len : N)
| PlanUntilClose
| PlanEmpty.

Definition request_plan (headers : HeaderMap) : body_plan + ParseError :=
  match te_try_get headers with
  | inr _ => inr InvalidHeader
  | inl (Some te) => if te_is_chunked te then inl PlanChunked else inr InvalidTransferEncoding
  | inl None =>
      match cl_try_get headers with
      | inr _ => inr InvalidHeader
      | inl (Some len) => inl (if (len <? 1024)%N then PlanBuffered len else PlanStreamed len)
      | inl None => inl PlanEmpty
      end
  end.

(** The request line and the headers, or the error of the head. *)
Definition request_head (head : bytes) : (Method * Uri * Version * HeaderMap) + ParseError :=
  if bool_decide (head = []) then inr ConnectionClosed else
  match httparse_request head with
  | inr e => inr (Invalid e)
  | inl req =>
      match hp_method req, hp_path req, hp_version req with
      | Some method, Some path, Some version =>
          match convert_version version with
          | inr e => inr e
          | inl version =>
              match method_from_bytes method with
              | None => inr IncompleteRequest
              | Some method =>
                  match uri_parse path with
                  | None => inr Unknown
                  | Some uri =>
                      match fold_headers (filled_headers (hp_headers req)) (Some hm_new) with
                      | None => inr Unknown
                      | Some headers => inl (method, uri, version, headers)
                      end
                  end
              end
          end
      | _, _, _ => inr IncompleteRequest
      end
  end.

Lemma fold_headers_None hs : fold_headers hs None = None.
Proof. unfold fold_headers. by induction hs. Qed.
End request_head.

(** ** [parse_request] *)
Section parse_request.
Context `{!HttpApi} `{!Fuel} {W R : Type} `{!World W} `{!BufRead W R} `{!Drop W R}
  `{!BufReadLaws W R}.
Implicit Types (r : R) (w : W).

(** The body that is made of a stream with [bs] to come, and where the stream is
    then: handed over unread ([holds]) or let go of behind the body ([passed]). *)
Definition body_made (plan : body_plan) (body : Body (ChunkedReader R) R) (w : W)
    (bs : bytes) (fin : option io_error) : Prop :=
  match plan with
  | PlanChunked => exists r, body = Body_from_iter (MkChunkedReader r) /\ holds r w bs fin
  | PlanBuffered len =>
      (len <= N.of_nat (length bs))%N /\ body = Body_from_vec (take (N.to_nat len) bs) /\
      passed R w (drop (N.to_nat len) bs) fin
  | PlanStreamed len => exists r, body = Body_from_reader r (Some len) /\ holds r w bs fin
  | PlanUntilClose => exists r, body = Body_from_reader r None /\ holds r w bs fin
  | PlanEmpty => body = Body_empty /\ passed R w bs fin
  end.

Lemma fail_dropping_spec {A} r w w0 bs fin e (Q : A -> W -> Prop) :
  rstep w0 w -> holds r w bs fin ->
  wp (fail_dropping (A := A) r e) Q
     (fun err w' => rstep w0 w' /\ err = e /\ passed R w' bs fin) w.
Proof.
  intros Hw Hr. unfold fail_dropping. wp_step.
  eapply wp_never_mono; [by apply (drop_holds _ r w bs fin)|].
  intros [] w' [Hw' Hp]. apply wp_fail. split_and!; [by etrans|done|done].
Qed.

Lemma wrap_small len : (len <? 1024)%N = true -> wrap64 len = len.
Proof. intros Hl%N.ltb_lt. apply wrap64_id. lia. Qed.

(** The body that is announced is cut off by the end of the stream. *)
Definition short_body (bs : bytes) (fin : option io_error) (len : N) (e : ParseError) : Prop :=
  (N.of_nat (length bs) < len)%N /\
  e = Io (default (IoError UnexpectedEof (Message "failed to fill whole buffer")) fin).

Lemma buffered_body_spec r w bs fin len :
  holds r w bs fin -> length bs < fuel -> (len <? 1024)%N = true ->
  wp (let! (buf, stream) :=
        borrow (map_err Io (read_exact fuel (N.to_nat (wrap64 len)))) r in
      drop_value stream;;;
      ret (Body_from_vec (I := ChunkedReader R) (R := R) buf))
     (fun body w' => rstep w w' /\ body_made (PlanBuffered len) body w' bs fin)
     (fun e w' => rstep w w' /\ short_body bs fin len e) w.
Proof.
  intros Hr Hf Hlen. rewrite wrap_small by done. wp_steps.
  eapply wp_mono; [apply (read_exact_spec fuel _ r w bs fin Hr); by right| |].
  - intros got [r1 w1] (Hw1 & Hle & -> & Hr1). cbn [fst snd]. wp_steps.
    eapply wp_never_mono; [by eapply (drop_holds _ r1 w1)|].
    intros [] w2 [Hw2 Hp]. apply wp_ret. split; [by etrans|]. cbn.
    split_and!; [lia|done|done].
  - intros e [r1 w1] (Hw1 & Hal & Hlt & -> & _). cbn [fst snd].
    eapply wp_never_mono; [by apply (drop_alive _ r1 w1)|].
    intros [] w2 Hw2. split; [by etrans|]. split; [lia|done].
Qed.

Lemma request_body_spec `{!HttpApiLaws} headers r w bs fin :
  holds r w bs fin -> length bs < fuel ->
  wp (request_body headers r)
     (fun body w' => rstep w w' /\ exists plan,
        request_plan headers = inl plan /\ body_made plan body w' bs fin)
     (fun e w' => rstep w w' /\
        ((request_plan headers = inr e /\ passed R w' bs fin) \/
         exists len, request_plan headers = inl (PlanBuffered len) /\ short_body bs fin len e)) w.
Proof.
  intros Hr Hf. unfold request_body, request_plan.
  assert (Hfail : forall e, wp (fail_dropping (A := Body (ChunkedReader R) R) r e)
     (fun body w' => rstep w w' /\ exists plan,
        @inr body_plan ParseError e = inl plan /\ body_made plan body w' bs fin)
     (fun e' w' => rstep w w' /\
        ((@inr body_plan ParseError e = inr e' /\ passed R w' bs fin) \/
         exists len, @inr body_plan ParseError e = inl (PlanBuffered len) /\
                     short_body bs fin len e')) w).
  { intros e. eapply wp_mono; [by apply (fail_dropping_spec r w w bs fin e (fun _ _ => False))|done|].
    intros e' w' (Hw & -> & Hp). eauto. }
  destruct (te_try_get headers) as [[te|]|[]]; [| |apply Hfail].
  - destruct (te_is_chunked te); cbn [negb]; [|apply Hfail].
    apply wp_ret. split; [done|]. exists PlanChunked. cbn. eauto.
  - destruct (cl_try_get headers) as [[len|]|[]] eqn:Hcl; [| |apply Hfail].
    + destruct (len <? 1024)%N eqn:Hlen.
      * eapply wp_mono; [by apply (buffered_body_spec r w bs fin len)| |].
        -- intros body w' [Hw Hb]. eauto.
        -- intros e w' [Hw He]. eauto.
      * apply wp_ret. split; [done|]. exists (PlanStreamed len). split; [done|].
        exists r. split; [|done]. rewrite wrap64_id; [done|].
        eapply cl_bound, Hcl.
    + wp_step. eapply wp_never_mono; [by apply (drop_holds _ r w bs fin)|].
      intros [] w' [Hw Hp]. apply wp_ret. split; [done|]. exists PlanEmpty. by cbn.
Qed.

(** What [parse_request] does to a stream with [bs] to come. *)
Definition request_taken (bs : bytes) (fin : option io_error)
    (req : Request (Body (ChunkedReader R) R)) (w' : W) : Prop :=
  exists head rest plan,
    split_head fuel [] bs fin = inl (head, rest) /\
    request_head head = inl (req_method req, req_uri req, req_version req, req_headers req) /\
    request_plan (req_headers req) = inl plan /\
    body_made plan (req_body req) w' rest fin.

Definition request_refused (bs : bytes) (fin : option io_error) (e : ParseError) (w' : W)
  : Prop :=
  match split_head fuel [] bs fin with
  | inr e' => e = Io e'
  | inl (head, rest) =>
      match request_head head with
      | inr e' => e = e' /\ passed R w' rest fin
      | inl (_, _, _, headers) =>
          match request_plan headers with
          | inr e' => e = e' /\ passed R w' rest fin
          | inl (PlanBuffered len) => short_body rest fin len e
          | inl _ => False
          end
      end
  end.

Lemma parse_request_on `{!HttpApiLaws} r w bs fin :
  holds r w bs fin -> length bs < fuel ->
  wp (parse_request r)
     (fun req w' => rstep w w' /\ request_taken bs fin req w')
     (fun e w' => rstep w w' /\ request_refused bs fin e w') w.
Proof.
  intros Hr Hf. unfold parse_request, request_taken, request_refused. wp_steps.
  eapply wp_mono; [by apply (read_head_spec r w bs fin)| |].
  2: { intros err [r1 w1] (Hw1 & Hal & e & -> & Hs). cbn [fst snd].
       eapply wp_never_mono; [by apply (drop_alive _ r1 w1)|].
       intros [] w2 Hw2. split; [by etrans|]. by rewrite Hs. }
  intros head [r1 w1] (Hw1 & rest & Hs & Hr1). cbn [fst snd]. rewrite Hs.
  assert (Hrest : length rest < fuel).
  { eapply Nat.le_lt_trans; [eapply split_head_length, Hs|done]. }
  unfold request_head.
  assert (Hfail : forall A e (Q : A -> W -> Prop),
    wp (fail_dropping (A := A) r1 e) Q
       (fun e' w' => rstep w w' /\ e' = e /\ passed R w' rest fin) w1).
  { intros. by apply fail_dropping_spec. }
  case_bool_decide; [by eapply Hfail|].
  destruct (httparse_request head) as [req|e] eqn:Hp; [|by eapply Hfail].
  unfold ok_or, question.
  wp_step. destruct (hp_method req) as [method|] eqn:Hme; [|by eapply Hfail]. apply wp_ret.
  wp_step. destruct (hp_path req) as [path|] eqn:Hpa; [|by eapply Hfail]. apply wp_ret.
  wp_step. destruct (hp_version req) as [version|] eqn:Hve; [|by eapply Hfail]. apply wp_ret.
  wp_step. destruct (convert_version version) as [v|e] eqn:Hco; [|by eapply Hfail]. apply wp_ret.
  wp_step. destruct (method_from_bytes method) as [m|] eqn:Hm; [|by eapply Hfail].
  apply wp_ret.
  cbv zeta. destruct (uri_parse path) as [uri|] eqn:Hu; cbn [mbind option_bind];
    [|by eapply Hfail].
  destruct (fold_headers (filled_headers (hp_headers req)) (Some hm_new)) as [headers|] eqn:Hh;
    [|by eapply Hfail].
  wp_steps. eapply wp_mono; [by apply (request_body_spec headers r1 w1 rest fin)| |].
  - intros body w2 (Hw2 & plan & Hplan & Hbody). apply wp_ret. split; [by etrans|].
    exists head, rest, plan. cbn. split_and!; try done.
    rewrite bool_decide_false by done.
    by rewrite Hp, Hme, Hpa, Hve, Hco, Hm, Hu, Hh.
  - intros e w2 (Hw2 & Hor). split; [by etrans|].
    destruct Hor as [[-> Hpass]|(len & -> & He)]; done.
Qed.
End parse_request.

(** ** Properties *)
Section properties.
Context `{!HttpApi} `{!HttpApiLaws} `{!Fuel} {W R : Type} `{!World W} `{!BufRead W R}
  `{!Drop W R} `{!BufReadLaws W R}.
Implicit Types (r : R) (w : W).

(** C16. [parse_request] ends on every stream. It takes exactly the lines up to the
    first empty one and, when the announced length is below 1024, that many bytes;
    the request has the method, target, version and headers of these lines and a
    body delimited as the headers say. On an error nothing behind the head has
    been read, unless the stream ended within a short body. *)
Theorem parse_request_takes r w bs fin :
  holds r w bs fin -> length bs < fuel ->
  wp (parse_request r)
     (fun req w' => request_taken bs fin req w')
     (fun e w' => request_refused (R := R) bs fin e w') w.
Proof.
  intros Hr Hf. eapply wp_mono; [by apply (parse_request_on r w bs fin)| |].
  - by intros req w' [_ ?].
  - by intros e w' [_ ?].
Qed.

(** The reader of heads stops right behind a head that was written line by
    line, however the stream splits it into reads. *)
Theorem read_head_stops r w lines rest fin :
  Forall (fun l => LF ∉ l /\ l <> []) lines -> lines <> [] ->
  holds r w (head_text lines ++ rest) fin -> length (head_text lines ++ rest) < fuel ->
  wp read_head (fun head '(r', w') => head = head_text lines /\ holds r' w' rest fin)
     never (r, w).
Proof.
  intros Hl Hne Hr Hf.
  assert (Hs : split_head fuel [] (head_text lines ++ rest) fin = inl (head_text lines, rest)).
  { apply split_head_text; [|done|by left].
    eapply Nat.le_lt_trans; [|exact Hf]. rewrite length_app.
    pose proof (head_text_lines lines). lia. }
  eapply wp_mono; [by apply read_head_spec| |].
  - intros head [r' w'] (_ & rest' & Heq & Hr'). rewrite Hs in Heq.
    by injection Heq as <- <-.
  - intros err [r' w'] (_ & _ & e & _ & Heq). by rewrite Hs in Heq.
Qed.

(** A connection that is closed between two requests ends with
    [ConnectionClosed], and nothing else does. *)
Theorem connection_closed_iff r w bs fin :
  holds r w bs fin -> length bs < fuel ->
  wp (parse_request r) (fun _ _ => bs <> [])
     (fun e _ => e = ConnectionClosed <-> bs = [] /\ fin = None) w.
Proof.
  intros Hr Hf. assert (Hf0 : fuel <> 0) by lia.
  eapply wp_mono; [by apply (parse_request_on r w bs fin)| |].
  - intros req w' (_ & head & rest & plan & Hs & Hh & _) ->.
    destruct fuel as [|n]; [done|]. cbn in Hs. destruct fin; [done|].
    injection Hs as <- <-. unfold request_head in Hh. by rewrite bool_decide_true in Hh.
  - intros e w' (_ & He). unfold request_refused in He. split.
    + intros ->. destruct (split_head fuel [] bs fin) as [[head rest]|e] eqn:Hs in He; [|done].
      destruct (decide (head = [])) as [->|Hne]; [by eapply split_head_nil|].
      unfold request_head in He. rewrite bool_decide_false in He by done.
      repeat case_match; simplify_eq/=; try naive_solver.
      all: unfold convert_version, request_plan, short_body in *.
      all: repeat case_match; naive_solver.
    + intros [-> ->]. destruct fuel as [|n]; [done|]. cbn in He.
      by destruct He.
Qed.
End properties.
