(* ===== verification/Response.v ===== *)
(** * Response: [parse_response] and [write_response] of src/src/response.rs *)
From stdpp Require Import base list gmap strings.
From Stdlib Require Import Strings.Byte NArith Lia.
From S2P Require Import Prelude Errors StdIo HttpApi Mpsc HttpBody Body Message Request.

(** [enum Outcome] *)
Inductive Outcome (U : Type) :=
| Close
| KeepAlive
| Upgrade (upgrade : U).
Arguments Close {U}.
Arguments KeepAlive {U}.
Arguments Upgrade {U} upgrade.

Section parse_response.
Context `{!HttpApi} `{!Fuel} {W R U C : Type} `{!BufRead W R} `{!Drop W R}.

Definition response_body (headers : HeaderMap) (stream : R)
  : ST W ParseError (Body (ChunkedReader R) R) :=
  match te_try_get headers with
  | inr _ => fail_dropping stream InvalidHeader
  | inl (Some encoding) =>
      if negb (te_is_chunked encoding)
      then fail_dropping stream InvalidTransferEncoding
      else ret (Body_from_iter (MkChunkedReader stream))
  | inl None =>
      match cl_try_get headers with
      | inr _ => fail_dropping stream InvalidHeader
      | inl (Some len) =>
          if (len <? 1024)%N
          then
            let! (buf, stream) :=
              borrow (map_err Io (read_exact fuel (N.to_nat (wrap64 len)))) stream in
            drop_value stream;;;
            ret (Body_from_vec buf)
          else ret (Body_from_reader stream (Some (wrap64 len)))
      | inl None =>
          if connection_has "close" headers
          then ret (Body_from_reader stream None)
          else
            drop_value stream;;;
            ret Body_empty
      end
  end.

Definition parse_response (stream : R)
  : ST W ParseError (Response U C (Body (ChunkedReader R) R)) :=
  let! (buf, stream) := borrow read_head stream in
  if bool_decide (buf = []) then fail_dropping stream IncompleteRequest else
  match httparse_response buf with
  | inr e => fail_dropping stream (Invalid e)
  | inl res =>
      let! status := ok_or stream (hp_code res ≫= status_from_u16) IncompleteRequest in
      let! version := ok_or stream (hp_version res) IncompleteRequest in
      let! version := question stream (convert_version version) in
      match fold_headers (filled_headers (hp_headers res)) (Some hm_new) with
      | Some headers =>
          let! body := response_body headers stream in
          ret (Build_Response status version headers no_extensions body)
      | None => fail_dropping stream Unknown
      end
  end.
End parse_response.

Section write_response.
Context `{!HttpApi} `{!Fuel} {W S B U C : Type} `{!Write W S} `{!HttpBody W B}.

(** The choice of the encoding, with the headers it adds. *)
Definition response_encoding (version : Version) (headers : HeaderMap)
    (body_len : option N) : (Encoding * HeaderMap) + io_error :=
  let has_chunked_encoding := has_chunked headers in
  let has_connection_close := connection_has "close" headers in
  let content_length := cl_get headers in
  if has_chunked_encoding && bool_decide (version = HTTP_11)
  then inl (Chunked, headers)
  else
    match content_length, body_len with
    | Some len, Some body_len =>
        if (len =? body_len)%N then inl (FixedLength len, headers)
        else inr length_mismatch
    | Some len, None => inl (FixedLength len, headers)
    | None, Some len => inl (FixedLength len, cl_insert len headers)
    | None, None =>
        if negb has_connection_close && bool_decide (version = HTTP_11)
        then inl (Chunked, te_insert_chunked headers)
        else inl (CloseDelimited,
                  if has_connection_close then headers else conn_insert_close headers)
    end.

(** [if version == HTTP_10 && has_chunked_encoding { headers.remove(..) }] *)
Definition strip_transfer_encoding (version : Version) (has_chunked_encoding : bool)
    (headers : HeaderMap) : HeaderMap :=
  if bool_decide (version = HTTP_10) && has_chunked_encoding
  then hm_remove (b "transfer-encoding") headers else headers.

Definition status_line (version : Version) (status : N) : bytes :=
  version_debug version ++ b " " ++ status_display status ++ CRLF.

Definition response_outcome (extensions : Extensions U C) (encoding : Encoding)
    (headers : HeaderMap) : Outcome U :=
  match ext_upgrade extensions with
  | Some upgrade => Upgrade upgrade
  | None =>
      if bool_decide (encoding = CloseDelimited) || connection_has "close" headers
      then Close else KeepAlive
  end.

Definition write_response (res : Response U C B) (write_body_flag : bool)
  : ST (S * W) io_error (Outcome U) :=
  let body := res_body res in
  let drop_body := zoom_r (drop_value body) in
  let version := res_version res in
  match response_encoding version (res_headers res) (len (W:=W) body) with
  | inr e => drop_body;;; fail e
  | inl (encoding, headers) =>
      let headers := strip_transfer_encoding version (has_chunked (res_headers res)) headers in
      cleanup drop_body
        (write_all (status_line version (res_status res));;;
         write_headers (hm_iter headers);;;
         write_all CRLF);;;
      (if write_body_flag then write_body encoding body else drop_body);;;
      ret (response_outcome (res_extensions res) encoding headers)
  end.
End write_response.
