(* ===== verification/ResponseLaws.v ===== *)
(** * ResponseLaws: the framing of responses

    What [write_response] puts on the stream, how the headers announce it, and
    that [parse_response] finds the body that was written. *)
From stdpp Require Import base list gmap strings.
From Stdlib Require Import Strings.Byte NArith Lia.
From S2P Require Import Prelude Errors StdIo HttpApi Mpsc HttpBody Body BodyLaws Message.
From S2P Require Import MessageLaws ChunkedLaws Request RequestLaws Response.

(** ** The framing announced by the headers *)
Section framing.
Context `{!HttpApi}.

(** The headers as [write_response] sends them, with the encoding. *)
Definition response_framing (version : Version) (headers : HeaderMap) (body_len : option N)
  : (Encoding * HeaderMap) + io_error :=
  match response_encoding version headers body_len with
  | inr e => inr e
  | inl (encoding, headers') =>
      inl (encoding, strip_transfer_encoding version (has_chunked headers) headers')
  end.

(** The headers tell a reader how the body is delimited. *)
Definition announced (encoding : Encoding) (headers : HeaderMap) : Prop :=
  match encoding with
  | Chunked => has_chunked headers = true
  | FixedLength n => te_try_get headers = inl None /\ cl_try_get headers = inl (Some n)
  | CloseDelimited =>
      te_try_get headers = inl None /\ cl_try_get headers = inl None /\
      connection_has "close" headers = true
  end.

(** The framing headers an application sets can be parsed: no encoding but
    [chunked], and no malformed length. *)
Definition plain_framing (headers : HeaderMap) : Prop :=
  (te_try_get headers = inl None \/ has_chunked headers = true) /\
  cl_try_get headers = inl (cl_get headers).

Context `{!HttpApiLaws}.

Lemma strip_announced version headers headers' :
  version = HTTP_10 \/ version = HTTP_11 ->
  plain_framing headers ->
  has_chunked headers && bool_decide (version = HTTP_11) = false ->
  te_try_get headers' = te_try_get headers ->
  let stripped := strip_transfer_encoding version (has_chunked headers) headers' in
  te_try_get stripped = inl None /\ cl_try_get stripped = cl_try_get headers' /\
  conn_get stripped = conn_get headers'.
Proof.
  intros Hv [Hte _] Hch Hsame. unfold strip_transfer_encoding. cbv zeta.
  destruct (has_chunked headers) eqn:Hhc.
  - destruct Hv as [->| ->]; [|done]. rewrite bool_decide_true by done. cbn [andb].
    destruct (te_remove_others headers') as [-> ->]. by rewrite te_remove_get.
  - rewrite andb_false_r. rewrite Hsame. by destruct Hte.
Qed.

Lemma response_framing_announced version headers body_len encoding headers' :
  version = HTTP_10 \/ version = HTTP_11 -> plain_framing headers ->
  (forall n, body_len = Some n -> (n < 2 ^ 64)%N) ->
  response_framing version headers body_len = inl (encoding, headers') ->
  announced encoding headers'.
Proof.
  intros Hv Hplain Hlen. pose proof Hplain as [Hte Hcl].
  unfold response_framing, response_encoding. cbv zeta.
  destruct (has_chunked headers && bool_decide (version = HTTP_11)) eqn:Hch.
  { apply andb_true_iff in Hch as [Hc Hv'%bool_decide_eq_true]. subst version.
    intros [= <- <-]. unfold strip_transfer_encoding. by rewrite bool_decide_false. }
  pose proof (strip_announced version headers) as Hstrip. cbv zeta in Hstrip.
  destruct (cl_get headers) as [len|] eqn:Hcg; destruct body_len as [bl|].
  - destruct (N.eqb_spec len bl) as [->|]; [|done]. intros [= <- <-]. cbn.
    destruct (Hstrip headers Hv Hplain Hch eq_refl) as (-> & -> & _). by rewrite Hcl.
  - intros [= <- <-]. cbn.
    destruct (Hstrip headers Hv Hplain Hch eq_refl) as (-> & -> & _). by rewrite Hcl.
  - intros [= <- <-]. cbn. destruct (cl_insert_others bl headers) as [Hti _].
    destruct (Hstrip _ Hv Hplain Hch Hti) as (-> & -> & _).
    by rewrite cl_insert_get by auto.
  - destruct (negb (connection_has "close" headers) && bool_decide (version = HTTP_11)) eqn:Hcv.
    + apply andb_true_iff in Hcv as [_ Hv'%bool_decide_eq_true]. subst version.
      intros [= <- <-]. unfold strip_transfer_encoding. rewrite bool_decide_false by done.
      cbn. apply has_chunked_insert.
    + intros [= <- <-]. cbn.
      destruct (connection_has "close" headers) eqn:Hclose.
      * destruct (Hstrip headers Hv Hplain Hch eq_refl) as (-> & -> & Hconn).
        rewrite Hcl. split_and!; [done|done|]. by rewrite (connection_has_get _ _ headers).
      * destruct (conn_insert_others headers) as [Hti Hci].
        destruct (Hstrip _ Hv Hplain Hch Hti) as (-> & -> & Hconn).
        rewrite Hci, Hcl. split_and!; [done|done|].
        rewrite (connection_has_get _ _ _ Hconn). apply conn_insert_get.
Qed.
End framing.

(** ** [write_response] *)
Section write_response_laws.
Context `{!HttpApi} `{!Fuel} {W S B U C : Type} `{!World W} `{!Write W S} `{!WriteLaws W S}
  `{!HttpBody W B} `{!HttpBodyLaws W B}.
Implicit Types (res : Response U C B) (s : S) (w : W).

Lemma write_response_refused res flag s w e (Y : W -> Prop) :
  drops_with (res_body res) w Y ->
  response_framing (res_version res) (res_headers res) (len (W := W) (res_body res)) = inr e ->
  wp (write_response res flag) (fun _ _ => False)
     (fun e' '(s', w') => e' = e /\ s' = s /\ rstep w w' /\ Y w') (s, w).
Proof.
  intros Hd He. unfold response_framing in He. unfold write_response. cbv zeta.
  destruct (response_encoding _ _ _) as [[enc h]|e']; [done|]. injection He as ->. wp_steps.
  eapply wp_never_mono; [apply (Hd io_error w); reflexivity|].
  intros [] w' [Hw' HY]. by apply wp_fail.
Qed.

(** The head, and the body by what writing it does: [Z] holds when it was written or,
    without [flag], dropped, and [Y] when it was dropped on an error. *)
Lemma write_response_with res flag s w encoding headers (O : bytes -> Prop) (Z Y : W -> Prop) :
  response_framing (res_version res) (res_headers res) (len (W := W) (res_body res)) =
    inl (encoding, headers) ->
  drops_with (res_body res) w (fun w' => Y w' /\ (flag = false -> Z w')) ->
  (exists out, O out) ->
  (if flag : bool then
     forall s' w', wstep w w' ->
       wp (write_body encoding (res_body res))
          (fun _ '(s'', w'') => (exists out, O out /\ appended iostep s' w' out s'' w'') /\ Z w'')
          (fun _ '(s'', w'') => (exists out, O out /\ cut_short iostep s' w' out s'' w'') /\ Y w'')
          (s', w')
   else O []) ->
  wp (write_response res flag)
     (fun outcome '(s', w') =>
        (exists out, O out /\
           appended iostep s w
             (message_head (status_line (res_version res) (res_status res)) (hm_iter headers) ++ out)
             s' w') /\
        outcome = response_outcome (res_extensions res) encoding headers /\ Z w')
     (fun _ '(s', w') => (exists out, O out /\
        cut_short iostep s w
          (message_head (status_line (res_version res) (res_status res)) (hm_iter headers) ++ out)
          s' w') /\ Y w') (s, w).
Proof.
  unfold response_framing, write_response. cbv zeta. intros Hf Hd Ho Hs.
  destruct (response_encoding _ _ _) as [[enc h]|e]; [|done]. injection Hf as -> <-.
  apply (write_message_spec _ _ _ _ s w O (fun outcome _ w' =>
    outcome = response_outcome (res_extensions res) encoding _ /\ Z w')); [|done|].
  { intros E w' Hw. eapply wp_never_mono; [by apply Hd|]. by intros [] w'' (? & ? & _). }
  intros s1 w1 Hw1. wp_step. destruct flag.
  - eapply wp_mono; [by apply Hs| |done]. intros [] [s2 w2] [Ha HZ]. by apply wp_ret.
  - wp_steps. eapply wp_never_mono; [by apply Hd|].
    intros [] w2 (Hw2 & _ & HZ). apply wp_ret. split; [|by auto]. exists []. split; [done|].
    by apply appended_rstep.
Qed.

Lemma write_response_on res flag s w encoding headers (O : bytes -> Prop) :
  response_framing (res_version res) (res_headers res) (len (W := W) (res_body res)) =
    inl (encoding, headers) ->
  droppable (res_body res) w ->
  (if flag : bool then sends encoding (res_body res) w O else O []) ->
  wp (write_response res flag)
     (fun outcome '(s', w') =>
        (exists out, O out /\
           appended iostep s w
             (message_head (status_line (res_version res) (res_status res)) (hm_iter headers) ++ out)
             s' w') /\
        outcome = response_outcome (res_extensions res) encoding headers)
     (fun _ '(s', w') => exists out, O out /\
        cut_short iostep s w
          (message_head (status_line (res_version res) (res_status res)) (hm_iter headers) ++ out)
          s' w') (s, w).
Proof.
  intros Hf Hd Hs.
  eapply wp_mono; [apply (write_response_with res flag s w encoding headers O
                            (fun _ => True) (fun _ => True) Hf)| |].
  - intros E w' Hw. eapply wp_never_mono; [by apply Hd|]. done.
  - destruct flag; [by eapply sends_inhabited|by exists []].
  - destruct flag; [|done]. intros s' w' Hw.
    eapply wp_mono; [by eapply (write_body_spec encoding), sends_wstep| |].
    + by intros [] [s2 w2] Ha.
    + by intros e [s2 w2] Ha.
  - by intros o [s' w'] (Ha & -> & _).
  - by intros e [s' w'] [Ha _].
Qed.
End write_response_laws.

(** [write_response] keeps what the methods of its stream keep. *)
Lemma write_response_keeps `{!HttpApi} `{!Fuel} {W S B U C : Type} `{!Write W S}
    `{!HttpBody W B} (P : S -> Prop) (res : Response U C B) flag :
  (forall bs, preserves (fun st => P st.1) (write_all (W := W) (S := S) bs)) ->
  preserves (fun st => P st.1) (flush (W := W) (S := S)) ->
  preserves (fun st => P st.1) (write_response (W := W) res flag).
Proof.
  intros Hw Hf. unfold write_response. destruct (response_encoding _ _ _) as [[enc h]|e].
  - apply preserves_bind; [|intros _; apply preserves_bind; [|by auto with preserves]].
    + apply preserves_cleanup; [apply preserves_zoom_r|].
      apply preserves_bind; [done|]. intros _.
      apply preserves_bind; [by apply write_headers_keeps|done].
    + destruct flag; [by apply write_body_keeps|apply preserves_zoom_r].
  - apply preserves_bind; [apply preserves_zoom_r|]. intros _. apply preserves_fail.
Qed.

(** ** The body of a response is found again *)
Section round_trip.
Context `{!HttpApi} `{!HttpApiLaws} `{!Fuel} {W R : Type} `{!World W} `{!BufRead W R}
  `{!Drop W R} `{!BufReadLaws W R}.
Implicit Types (r : R) (w : W).

(** The bytes [out] are the body [bs] in this encoding. *)
Definition encoded (encoding : Encoding) (bs out : bytes) : Prop :=
  match encoding with
  | FixedLength n => out = bs /\ N.of_nat (length bs) = n
  | CloseDelimited => out = bs
  | Chunked => exists items, Forall sound_item items /\ length items < fuel /\
                             out = encode_chunks items /\ payload items = bs
  end.

Lemma take_whole_holds r w bs rest fin n :
  holds r w (bs ++ rest) fin -> N.of_nat (length bs) = n ->
  holds (Build_Take r (Some n)) w bs None.
Proof.
  intros Hr Hn. cbn. exists (bs ++ rest), fin. split_and!; [done| |].
  - rewrite take_app_le by lia. by rewrite take_ge by lia.
  - rewrite length_app. by destruct (N.leb_spec n (N.of_nat (length bs + length rest))); [|lia].
Qed.

Lemma streamed_body_bytes r w bs rest fin n :
  holds r w (bs ++ rest) fin -> length bs < fuel ->
  N.of_nat (length bs) = n -> (n <= isize_max)%N ->
  body_bytes_of (I := ChunkedReader R) (Body_from_reader r (Some n)) w bs.
Proof.
  intros Hr Hf Hn Hmax. unfold isize_max in Hmax. split_and!; [|done|done].
  cbn [fmap option_fmap option_map]. rewrite wrap64_id by lia. by eapply take_whole_holds.
Qed.
End round_trip.

(** ** [parse_response] *)
Section parse_response_laws.
Context `{!HttpApi} `{!HttpApiLaws} `{!Fuel} {W R U C : Type} `{!World W} `{!BufRead W R}
  `{!Drop W R} `{!BufReadLaws W R}.
Implicit Types (r : R) (w : W).

Definition response_plan (headers : HeaderMap) : body_plan + ParseError :=
  match request_plan headers with
  | inl PlanEmpty =>
      inl (if connection_has "close" headers then PlanUntilClose else PlanEmpty)
  | plan => plan
  end.

(** The status line and the headers, or the error of the head. *)
Definition response_head (head : bytes) : (N * Version * HeaderMap) + ParseError :=
  if bool_decide (head = []) then inr IncompleteRequest else
  match httparse_response head with
  | inr e => inr (Invalid e)
  | inl res =>
      match hp_code res ≫= status_from_u16, hp_version res with
      | Some status, Some version =>
          match convert_version version with
          | inr e => inr e
          | inl version =>
              match fold_headers (filled_headers (hp_headers res)) (Some hm_new) with
              | None => inr Unknown
              | Some headers => inl (status, version, headers)
              end
          end
      | _, _ => inr IncompleteRequest
      end
  end.

Lemma response_body_spec headers r w bs fin :
  holds r w bs fin -> length bs < fuel ->
  wp (response_body headers r)
     (fun body w' => rstep w w' /\ exists plan,
        response_plan headers = inl plan /\ body_made plan body w' bs fin)
     (fun e w' => rstep w w' /\
        ((response_plan headers = inr e /\ passed R w' bs fin) \/
         exists len, response_plan headers = inl (PlanBuffered len) /\ short_body bs fin len e)) w.
Proof.
  intros Hr Hf. pose proof (request_body_spec headers r w bs fin Hr Hf) as Hreq.
  unfold response_body, response_plan, request_plan, request_body in *.
  destruct (te_try_get headers) as [[te|]|[]]; [| |].
  - by destruct (te_is_chunked te).
  - destruct (cl_try_get headers) as [[len|]|[]]; [by destruct (len <? 1024)%N| |done].
    destruct (connection_has "close" headers); [|done].
    apply wp_ret. split; [done|]. exists PlanUntilClose. split; [done|]. by exists r.
  - done.
Qed.

(** What [parse_response] does to a stream with [bs] to come. *)
Definition response_taken (bs : bytes) (fin : option io_error)
    (res : Response U C (Body (ChunkedReader R) R)) (w' : W) : Prop :=
  exists head rest plan,
    split_head fuel [] bs fin = inl (head, rest) /\
    response_head head = inl (res_status res, res_version res, res_headers res) /\
    response_plan (res_headers res) = inl plan /\
    body_made plan (res_body res) w' rest fin.

Definition response_refused (bs : bytes) (fin : option io_error) (e : ParseError) (w' : W)
  : Prop :=
  match split_head fuel [] bs fin with
  | inr e' => e = Io e'
  | inl (head, rest) =>
      match response_head head with
      | inr e' => e = e' /\ passed R w' rest fin
      | inl (_, _, headers) =>
          match response_plan headers with
          | inr e' => e = e' /\ passed R w' rest fin
          | inl (PlanBuffered len) => short_body rest fin len e
          | inl _ => False
          end
      end
  end.

Lemma parse_response_on r w bs fin :
  holds r w bs fin -> length bs < fuel ->
  wp (parse_response r)
     (fun res w' => rstep w w' /\ response_taken bs fin res w')
     (fun e w' => rstep w w' /\ response_refused bs fin e w') w.
Proof.
  intros Hr Hf. unfold parse_response, response_taken, response_refused. wp_steps.
  eapply wp_mono; [by apply (read_head_spec r w bs fin)| |].
  2: { intros err [r1 w1] (Hw1 & Hal & e & -> & Hs). cbn [fst snd].
       eapply wp_never_mono; [by apply (drop_alive _ r1 w1)|].
       intros [] w2 Hw2. split; [by etrans|]. by rewrite Hs. }
  intros head [r1 w1] (Hw1 & rest & Hs & Hr1). cbn [fst snd]. rewrite Hs.
  assert (Hrest : length rest < fuel).
  { eapply Nat.le_lt_trans; [eapply split_head_length, Hs|done]. }
  unfold response_head.
  assert (Hfail : forall A e (Q : A -> W -> Prop),
    wp (fail_dropping (A := A) r1 e) Q
       (fun e' w' => rstep w w' /\ e' = e /\ passed R w' rest fin) w1).
  { intros. by apply fail_dropping_spec. }
  case_bool_decide; [by eapply Hfail|].
  destruct (httparse_response head) as [res|e] eqn:Hp; [|by eapply Hfail].
  unfold ok_or, question.
  wp_step. destruct (hp_code res ≫= status_from_u16) as [status|] eqn:Hst; [|by eapply Hfail].
  apply wp_ret.
  wp_step. destruct (hp_version res) as [version|] eqn:Hve; [|by eapply Hfail]. apply wp_ret.
  wp_step. destruct (convert_version version) as [v|e] eqn:Hco; [|by eapply Hfail]. apply wp_ret.
  destruct (fold_headers (filled_headers (hp_headers res)) (Some hm_new)) as [headers|] eqn:Hh;
    [|by eapply Hfail].
  wp_steps. eapply wp_mono; [by apply (response_body_spec headers r1 w1 rest fin)| |].
  - intros body w2 (Hw2 & plan & Hplan & Hbody). apply wp_ret. split; [by etrans|].
    exists head, rest, plan. cbn. split_and!; try done.
    rewrite bool_decide_false by done. by rewrite Hp, Hst, Hve, Hco, Hh.
  - intros e w2 (Hw2 & Hor). split; [by etrans|].
    destruct Hor as [[-> Hpass]|(len & -> & He)]; done.
Qed.
End parse_response_laws.

(** ** Properties *)
Section properties.
Context `{!HttpApi} `{!HttpApiLaws} `{!Fuel} {W S B U C : Type} `{!World W} `{!Write W S}
  `{!WriteLaws W S} `{!HttpBody W B} `{!HttpBodyLaws W B}.
Implicit Types (res : Response U C B) (s : S) (w : W).

(** C17. [write_response] hands exactly the status line, the headers with the
    framing they need, an empty line and the encoded body to the stream, in this
    order, and reports how the connection goes on; it only fails when the stream
    does, and then what it was handed is a prefix of this. *)
Theorem write_response_output res flag s w encoding headers (O : bytes -> Prop) :
  response_framing (res_version res) (res_headers res) (len (W := W) (res_body res)) =
    inl (encoding, headers) ->
  droppable (res_body res) w ->
  (if flag : bool then sends encoding (res_body res) w O else O []) ->
  wp (write_response res flag)
     (fun outcome '(s', w') =>
        outcome = response_outcome (res_extensions res) encoding headers /\
        exists out, O out /\ written s' w' = written s w ++
          status_line (res_version res) (res_status res) ++ headers_text (hm_iter headers) ++
          CRLF ++ out)
     (fun _ '(s', w') => can_fail W S /\ exists out p, O out /\
        written s' w' = written s w ++ p /\
        p `prefix_of` status_line (res_version res) (res_status res) ++
          headers_text (hm_iter headers) ++ CRLF ++ out) (s, w).
Proof.
  intros Hf Hd Hs. eapply wp_mono; [by apply write_response_on| |].
  - intros o [s' w'] ((out & HO & _ & Hw) & ->). split; [done|]. exists out. split; [done|].
    rewrite Hw. unfold message_head. by rewrite <-!app_assoc.
  - intros e [s' w'] (out & HO & Hcf & _ & p & Hp & Hw). split; [done|].
    exists out, p. split_and!; [done|done|].
    unfold message_head in Hp. by rewrite <-!app_assoc in Hp.
Qed.

(** A response whose [content-length] contradicts the length of its body is
    refused before a byte of it is written. *)
Theorem write_response_mismatch res flag s w n m :
  has_chunked (res_headers res) && bool_decide (res_version res = HTTP_11) = false ->
  cl_get (res_headers res) = Some n -> len (W := W) (res_body res) = Some m -> n <> m ->
  droppable (res_body res) w ->
  wp (write_response res flag) (fun _ _ => False)
     (fun e '(s', w') => e = length_mismatch /\ s' = s /\ written s' w' = written s w) (s, w).
Proof.
  intros Hc Hn Hm Hne Hd.
  eapply wp_mono; [apply (write_response_refused res flag s w length_mismatch (fun _ => True)
                            (droppable_with _ _ Hd))| |].
  - unfold response_framing, response_encoding. cbv zeta. rewrite Hc, Hn, Hm.
    by destruct (N.eqb_spec n m).
  - done.
  - intros e [s' w'] (-> & -> & Hw & _). split_and!; [done|done|]. by apply written_rstep.
Qed.

(** C24. For HTTP/1.0 and HTTP/1.1 the headers that are sent announce the encoding
    of the body that is sent: [transfer-encoding: chunked] for chunks,
    [content-length] alone for a body of known length, and otherwise neither of
    them but [connection: close]. *)
Theorem response_framing_sound res encoding headers :
  res_version res = HTTP_10 \/ res_version res = HTTP_11 ->
  plain_framing (res_headers res) ->
  (forall n, len (W := W) (res_body res) = Some n -> (n < 2 ^ 64)%N) ->
  response_framing (res_version res) (res_headers res) (len (W := W) (res_body res)) =
    inl (encoding, headers) ->
  announced encoding headers /\ (encoding = Chunked -> res_version res = HTTP_11).
Proof.
  intros Hv Hp Hl Hf. split; [by eapply response_framing_announced|].
  intros ->. unfold response_framing, response_encoding in Hf. cbv zeta in Hf.
  destruct (bool_decide_reflect (res_version res = HTTP_11)) as [|Hne]; [done|].
  rewrite !andb_false_r in Hf.
  destruct (cl_get _) as [n|], (len (res_body res)) as [m|]; try done.
  by destruct (n =? m)%N.
Qed.

(** [KeepAlive] is reported only when the client can tell where the body ends
    and was not told that the connection closes. *)
Theorem keep_alive_delimited res encoding headers :
  res_version res = HTTP_10 \/ res_version res = HTTP_11 ->
  plain_framing (res_headers res) ->
  (forall n, len (W := W) (res_body res) = Some n -> (n < 2 ^ 64)%N) ->
  response_framing (res_version res) (res_headers res) (len (W := W) (res_body res)) =
    inl (encoding, headers) ->
  response_outcome (res_extensions res) encoding headers = KeepAlive ->
  connection_has "close" headers = false /\
  (has_chunked headers = true \/ exists n, cl_try_get headers = inl (Some n)).
Proof.
  intros Hv Hp Hl Hf Ho.
  assert (Ha : announced encoding headers) by (by eapply response_framing_announced).
  unfold response_outcome in Ho. destruct (ext_upgrade _); [done|].
  destruct (bool_decide_reflect (encoding = CloseDelimited)) as [|Hnc]; [done|].
  destruct (connection_has "close" headers); [done|]. split; [done|].
  destruct encoding as [m| |]; cbn in Ha; [right|by left|done].
  exists m. by destruct Ha.
Qed.
End properties.

Section round_trip_property.
Context `{!HttpApi} `{!HttpApiLaws} `{!Fuel} {W R : Type} `{!World W} `{!BufRead W R}
  `{!Drop W R} `{!BufReadLaws W R}.

(** C32. [parse_response] takes from the stream exactly the head, and the body when
    it is shorter than 1024 bytes; the body of the response is delimited as the
    headers say. On an error nothing behind the head has been read, unless the
    stream ended within a short body. *)
Theorem parse_response_takes {U C} (r : R) (w : W) bs fin :
  holds r w bs fin -> length bs < fuel ->
  wp (parse_response (U := U) (C := C) r)
     (fun res w' => response_taken bs fin res w')
     (fun e w' => response_refused (R := R) bs fin e w') w.
Proof.
  intros Hr Hf. eapply wp_mono; [by apply (parse_response_on r w bs fin)| |].
  - by intros res w' [_ ?].
  - by intros e w' [_ ?].
Qed.
End round_trip_property.
