(* ===== verification/Upgrade.v ===== *)
(** * Upgrade: src/src/upgrade.rs

    [H] is the type of upgrade handlers, [C] the type of connections. *)
From stdpp Require Import base list gmap strings.
From S2P Require Import Prelude Errors HttpApi Message.

(** [trait UpgradeHandler] *)
Class UpgradeHandler (W H C : Type) := handle : forall {E}, H -> C -> ST W E unit.
#[export] Hint Mode UpgradeHandler ! ! - : typeclass_instances.

(** [impl<F: Fn(Connection)> UpgradeHandler for F] *)
#[export] Instance fn_upgrade_handler {W C} :
    UpgradeHandler W (forall E, C -> ST W E unit) C :=
  fun E f stream => f E stream.

(** [struct UpgradeExtension] *)
Record UpgradeExtension (H : Type) := MkUpgradeExtension { handler : H }.
Arguments handler {H} u.
Arguments MkUpgradeExtension {H} handler.

(** [enum ClientUpgradeError] *)
Inductive ClientUpgradeError := ConnectionNotUpgradable.

Section upgrade.
Context `{!HttpApi} {Hd C B : Type}.

(** [Upgrade::upgrade] for [Response<T>] *)
Definition upgrade (res : Response (UpgradeExtension Hd) C B) (handle : Hd)
  : Response (UpgradeExtension Hd) C B :=
  Build_Response (res_status res) (res_version res) (res_headers res)
    (Build_Extensions (Some (MkUpgradeExtension handle))
                      (ext_connection (res_extensions res)))
    (res_body res).

(** [Upgrade::upgrade] for [http::response::Builder], by the extensions it has
    collected; a builder that already failed keeps its error. *)
Definition upgrade_builder {Err} (builder : Extensions (UpgradeExtension Hd) C + Err)
    (handle : Hd) : Extensions (UpgradeExtension Hd) C + Err :=
  match builder with
  | inl e => inl (Build_Extensions (Some (MkUpgradeExtension handle)) (ext_connection e))
  | inr err => inr err
  end.

(** [ClientUpgrade::into_upgraded]: the rest of the response is dropped. *)
Definition into_upgraded {W U E} `{!Drop W B} (res : Response U C B)
  : ST W E (C + ClientUpgradeError) :=
  drop_value (res_body res);;;
  ret (match ext_connection (res_extensions res) with
       | Some conn => inl conn
       | None => inr ConnectionNotUpgradable
       end).
End upgrade.
