(* ===== verification/Tls.v ===== *)
(** * Tls: the shared TLS stream of src/src/tls.rs

    [RustlsConnection] is an [Arc<Mutex<StreamOwned<..>>>]: a handle on a cell of
    the world with a strong count, the poison flag of the mutex and the stream.
    The stream is a type [T] of the [rustls] crate; its operations and those of
    the socket inside it are the fields of the classes below. *)
From stdpp Require Import base list gmap strings.
From Stdlib Require Import NArith.
From S2P Require Import Prelude Errors StdIo Buffered.

(** Socket addresses, by their text. *)
Abbreviation SocketAddr := bytes.

(** A stream a connection can be made of. *)
Class NetStream (W T : Type) := {
  stream_read :: Read W T;
  stream_write :: RawWrite W T;
  stream_drop :: Drop W T;
  stream_try_clone : T -> ST W io_error T;
  stream_set_read_timeout : option N -> T -> ST W io_error unit;
}.
#[export] Hint Mode NetStream ! ! : typeclass_instances.

(** What the crate calls on a [TcpStream] in addition; for the TLS stream these
    are the methods of [get_ref()] and [sock]. *)
Class TcpSocket (W T : Type) := {
  tcp_stream :: NetStream W T;
  tcp_set_nodelay : bool -> T -> ST W io_error unit;
  tcp_peer_addr : T -> ST W io_error SocketAddr;
  tcp_local_addr : T -> ST W io_error SocketAddr;
}.
#[export] Hint Mode TcpSocket ! ! : typeclass_instances.

(** ** [Arc<Mutex<T>>] *)
Record arc (T : Type) := { strong : nat; poisoned : bool; inner : T }.
Arguments strong {T} a.
Arguments poisoned {T} a.
Arguments inner {T} a.
Arguments Build_arc {T} strong poisoned inner.

Record arcs (T : Type) := { next_arc : nat; cells : gmap nat (arc T) }.
Arguments next_arc {T} a.
Arguments cells {T} a.
Arguments Build_arcs {T} next_arc cells.

Class HasArcs (W T : Type) := {
  get_arcs : W -> arcs T;
  set_arcs : arcs T -> W -> W;
}.
#[export] Hint Mode HasArcs ! ! : typeclass_instances.

(** [struct RustlsConnection]: the handle *)
Record RustlsConnection (T : Type) := MkRustls { arc_id : nat }.
Arguments arc_id {T} r.
Arguments MkRustls {T} arc_id.

Section tls.
Context {W T : Type} `{!HasArcs W T}.

Definition the_arcs (w : W) : arcs T := get_arcs w.

Definition set_cell (id : nat) (a : arc T) (w : W) : W :=
  set_arcs (Build_arcs (next_arc (the_arcs w)) (<[id := a]> (cells (the_arcs w)))) w.
Definition free_cell (id : nat) (w : W) : W :=
  set_arcs (Build_arcs (next_arc (the_arcs w)) (delete id (cells (the_arcs w)))) w.

Definition cell {E} (self : RustlsConnection T) : ST W E (arc T) :=
  fun w => match cells (the_arcs w) !! arc_id self with
           | Some a => Ok a w
           | None => Panic
           end.

(** Running a method of the stream while the lock is held. *)
Definition with_stream {E A} (self : RustlsConnection T) (a : arc T) (m : ST (T * W) E A)
  : ST W E A :=
  fun w =>
    match m (inner a, w) with
    | Ok x (t, w) => Ok x (set_cell (arc_id self) (Build_arc (strong a) (poisoned a) t) w)
    | Err e (t, w) => Err e (set_cell (arc_id self) (Build_arc (strong a) (poisoned a) t) w)
    | Panic => Panic | Block => Block | NoFuel => NoFuel
    end.

(** [self.0.lock().map_err(|_err| ..)?] *)
Definition lock_or_error {A} (self : RustlsConnection T) (m : ST (T * W) io_error A)
  : ST W io_error A :=
  let! a := cell self in
  if poisoned a then fail (io_other "Failed to aquire lock") else with_stream self a m.

(** [self.0.lock().unwrap()] *)
Definition lock_unwrap {A} (self : RustlsConnection T) (m : ST (T * W) io_error A)
  : ST W io_error A :=
  let! a := cell self in
  if poisoned a then panic else with_stream self a m.

(** A method with [&self] of the stream. *)
Definition by_ref {E A} (f : T -> ST W E A) : ST (T * W) E A :=
  fun st => zoom_r (f st.1) st.

(** [From<StreamOwned<..>>] *)
Definition rustls_from {E} (tls : T) : ST W E (RustlsConnection T) :=
  fun w =>
    let id := next_arc (the_arcs w) in
    Ok (MkRustls id)
       (set_arcs (Build_arcs (S id) (<[id := Build_arc 1 false tls]> (cells (the_arcs w)))) w).

Definition rustls_set_read_timeout `{!NetStream W T} (timeout : option N)
    (self : RustlsConnection T) : ST W io_error unit :=
  lock_unwrap self (by_ref (stream_set_read_timeout timeout)).

Definition rustls_set_nodelay `{!TcpSocket W T} (nodelay : bool)
    (self : RustlsConnection T) : ST W io_error unit :=
  lock_unwrap self (by_ref (tcp_set_nodelay nodelay)).

Definition rustls_peer_addr `{!TcpSocket W T} (self : RustlsConnection T)
  : ST W io_error SocketAddr :=
  lock_or_error self (by_ref tcp_peer_addr).

Definition rustls_local_addr `{!TcpSocket W T} (self : RustlsConnection T)
  : ST W io_error SocketAddr :=
  lock_or_error self (by_ref tcp_local_addr).

(** [into_inner]: [Arc::try_unwrap] succeeds for the only handle;
    [Mutex::into_inner().unwrap()] panics when the mutex is poisoned. *)
Definition rustls_into_inner {E} (self : RustlsConnection T)
  : ST W E (T + RustlsConnection T) :=
  let! a := cell self in
  if strong a =? 1
  then
    modify (free_cell (arc_id self));;;
    if poisoned a then panic else ret (inl (inner a))
  else ret (inr self).

(** [#[derive(Clone)]]: another strong reference *)
Definition rustls_clone {E} (self : RustlsConnection T) : ST W E (RustlsConnection T) :=
  let! a := cell self in
  modify (set_cell (arc_id self) (Build_arc (S (strong a)) (poisoned a) (inner a)));;;
  ret self.

#[export] Instance Rustls_read `{!Read W T} : Read W (RustlsConnection T) :=
  fun n st => zoom_r (lock_or_error st.1 (read n)) st.

#[export] Instance Rustls_write `{!RawWrite W T} : RawWrite W (RustlsConnection T) := {|
  raw_write buf := fun st => zoom_r (lock_or_error st.1 (raw_write buf)) st;
  raw_flush := fun st => zoom_r (lock_or_error st.1 raw_flush) st;
|}.

(** The last handle drops the stream. *)
#[export] Instance Rustls_drop `{!Drop W T} : Drop W (RustlsConnection T) := fun E self =>
  let! a := cell self in
  if strong a =? 1
  then modify (free_cell (arc_id self));;; drop_value (inner a)
  else modify (set_cell (arc_id self)
                 (Build_arc (pred (strong a)) (poisoned a) (inner a))).
End tls.
