(* ===== verification/Connection.v ===== *)
(** * Connection: the stream of src/src/connection.rs

    [Tcp], [Unix] and [Tls] are the stream types of the standard library and of
    [rustls], used through the classes of Tls.v; all features are enabled. *)
From stdpp Require Import base list gmap strings.
From Stdlib Require Import NArith.
From S2P Require Import Prelude Errors StdIo Buffered Tls.

(** What the server and the client use of a connection. *)
Class Conn (W C : Type) := {
  conn_read :: Read W C;
  conn_write :: RawWrite W C;
  conn_drop :: Drop W C;
  clone : forall {E}, C -> ST W E C;
  conn_set_read_timeout : option N -> C -> ST W io_error unit;
  conn_set_nodelay : bool -> C -> ST W io_error unit;
}.
#[export] Hint Mode Conn ! ! : typeclass_instances.

Section connection.
Context {W Tcp Unix Tls : Type}.

(** [enum ConnectionInner], [struct Connection] *)
Inductive ConnectionInner :=
| TcpConn (tcp : Tcp)
| UnixConn (unix : Unix)
| RustlsConn (tls : RustlsConnection Tls).

Record Connection := MkConnection { connection_0 : ConnectionInner }.

Context `{!TcpSocket W Tcp} `{!NetStream W Unix} `{!TcpSocket W Tls} `{!HasArcs W Tls}.

Definition peer_addr {E} (self : Connection) : ST W E (option SocketAddr) :=
  match connection_0 self with
  | TcpConn tcp => result_ok (tcp_peer_addr tcp)
  | UnixConn _ => ret None
  | RustlsConn tls => result_ok (rustls_peer_addr tls)
  end.

Definition local_addr {E} (self : Connection) : ST W E (option SocketAddr) :=
  match connection_0 self with
  | TcpConn tcp => result_ok (tcp_local_addr tcp)
  | UnixConn _ => ret None
  | RustlsConn tls => result_ok (rustls_local_addr tls)
  end.

Definition set_read_timeout (timeout : option N) (self : Connection) : ST W io_error unit :=
  match connection_0 self with
  | TcpConn tcp => stream_set_read_timeout timeout tcp
  | UnixConn unix => stream_set_read_timeout timeout unix
  | RustlsConn tls => rustls_set_read_timeout timeout tls
  end.

Definition set_nodelay (nodelay : bool) (self : Connection) : ST W io_error unit :=
  match connection_0 self with
  | TcpConn tcp => tcp_set_nodelay nodelay tcp
  | UnixConn _ => ret tt
  | RustlsConn tls => rustls_set_nodelay nodelay tls
  end.

(** ** [downcast]

    The type parameter [T: Any], as far as [TypeId] tells it from the types of the
    three streams; a value of any other type cannot come out. *)
Inductive stream_type := OfTcp | OfUnix | OfTls | OfOther.
Definition stream_value (t : stream_type) : Type :=
  match t with OfTcp => Tcp | OfUnix => Unix | OfTls => Tls | OfOther => Empty_set end.

Definition downcast_tls {E} (t : stream_type) (tls : RustlsConnection Tls)
  : ST W E (stream_value t + Connection) :=
  let! r := rustls_into_inner tls in
  match r with
  | inl tls =>
      match t return ST W E (stream_value t + Connection) with
      | OfTls => ret (inl tls)
      | _ => let! tls := rustls_from tls in ret (inr (MkConnection (RustlsConn tls)))
      end
  | inr tls => ret (inr (MkConnection (RustlsConn tls)))
  end.

Definition downcast {E} (t : stream_type) (self : Connection)
  : ST W E (stream_value t + Connection) :=
  match connection_0 self with
  | TcpConn tcp =>
      match t return ST W E (stream_value t + Connection) with
      | OfTcp => ret (inl tcp)
      | _ => ret (inr self)
      end
  | UnixConn unix =>
      match t return ST W E (stream_value t + Connection) with
      | OfUnix => ret (inl unix)
      | _ => ret (inr self)
      end
  | RustlsConn tls => downcast_tls t tls
  end.

(** ** [Read], [Write], [Clone] and the destructor

    A method of the stream inside: the updated stream is put back. *)
Definition inside {T E A} (wrap : T -> ConnectionInner) (t : T) (m : ST (T * W) E A)
  : ST (Connection * W) E A :=
  fun st =>
    match m (t, st.2) with
    | Ok a (t, w) => Ok a (MkConnection (wrap t), w)
    | Err e (t, w) => Err e (MkConnection (wrap t), w)
    | Panic => Panic | Block => Block | NoFuel => NoFuel
    end.

#[export] Instance Connection_read : Read W Connection := fun n st =>
  match connection_0 st.1 with
  | TcpConn tcp => inside TcpConn tcp (read n) st
  | UnixConn unix => inside UnixConn unix (read n) st
  | RustlsConn tls => inside RustlsConn tls (read n) st
  end.

Definition connection_write (buf : bytes) : ST (Connection * W) io_error nat := fun st =>
  match connection_0 st.1 with
  | TcpConn tcp => inside TcpConn tcp (raw_write buf) st
  | UnixConn unix => inside UnixConn unix (raw_write buf) st
  | RustlsConn tls => inside RustlsConn tls (raw_write buf) st
  end.

Definition connection_flush : ST (Connection * W) io_error unit := fun st =>
  match connection_0 st.1 with
  | TcpConn tcp => inside TcpConn tcp raw_flush st
  | UnixConn unix => inside UnixConn unix raw_flush st
  | RustlsConn tls => inside RustlsConn tls raw_flush st
  end.

#[export] Instance Connection_write : RawWrite W Connection := {|
  raw_write := connection_write;
  raw_flush := connection_flush;
|}.

(** [tcp.try_clone().unwrap()] *)
Definition unwrap_result {E A} (m : ST W io_error A) : ST W E A :=
  let! r := attempt m in
  match r with inl a => ret a | inr _ => panic end.

Definition connection_clone {E} (self : Connection) : ST W E Connection :=
  match connection_0 self with
  | TcpConn tcp =>
      let! tcp := unwrap_result (stream_try_clone tcp) in
      ret (MkConnection (TcpConn tcp))
  | UnixConn unix =>
      let! unix := unwrap_result (stream_try_clone unix) in
      ret (MkConnection (UnixConn unix))
  | RustlsConn tls =>
      let! tls := rustls_clone tls in
      ret (MkConnection (RustlsConn tls))
  end.

#[export] Instance Connection_drop : Drop W Connection := fun E self =>
  match connection_0 self with
  | TcpConn tcp => drop_value tcp
  | UnixConn unix => drop_value unix
  | RustlsConn tls => drop_value tls
  end.

(** ** [From] *)
Definition from_tcp (conn : Tcp) : Connection := MkConnection (TcpConn conn).
Definition from_accepted (conn : Tcp * SocketAddr) : Connection :=
  MkConnection (TcpConn conn.1).
Definition from_unix (unix : Unix) : Connection := MkConnection (UnixConn unix).
Definition from_tls {E} (tls : Tls) : ST W E Connection :=
  let! tls := rustls_from tls in ret (MkConnection (RustlsConn tls)).

#[export] Instance Connection_conn : Conn W Connection := {|
  clone := @connection_clone;
  conn_set_read_timeout := set_read_timeout;
  conn_set_nodelay := set_nodelay;
|}.

(** *** A connection of one kind

    What a server of a [TcpListener] works on: the variant [TcpConn] with these operations. *)
Definition tcp_conn : Conn W Tcp := {|
  conn_read := stream_read;
  conn_write := stream_write;
  conn_drop := stream_drop;
  clone := fun E tcp => unwrap_result (stream_try_clone tcp);
  conn_set_read_timeout := stream_set_read_timeout;
  conn_set_nodelay := tcp_set_nodelay;
|}.

Lemma tcp_connection (tcp : Tcp) (w : W) :
  (forall n, read n (from_tcp tcp, w) = inside TcpConn tcp (read n) (from_tcp tcp, w)) /\
  (forall buf, raw_write buf (from_tcp tcp, w) = inside TcpConn tcp (raw_write buf) (from_tcp tcp, w)) /\
  (forall E, clone (E := E) (from_tcp tcp) w =
     (let! tcp := clone (Conn := tcp_conn) tcp in ret (from_tcp tcp)) w) /\
  (forall E, drop_value (E := E) (from_tcp tcp) w = drop_value tcp w) /\
  (forall timeout, conn_set_read_timeout timeout (from_tcp tcp) w = stream_set_read_timeout timeout tcp w) /\
  (forall nodelay, conn_set_nodelay nodelay (from_tcp tcp) w = tcp_set_nodelay nodelay tcp w).
Proof. by split_and!. Qed.
End connection.
Arguments ConnectionInner : clear implicits.
Arguments Connection : clear implicits.
