(* ===== verification/TlsLaws.v ===== *)
(** * TlsLaws: who owns a TLS stream, and what [downcast] gives back

    The handles of the shared TLS streams as a transition system: the strong count
    of every cell is the number of its handles. The methods of tls.rs on shared handles
    against those of a stream that has one owner. *)
From stdpp Require Import base list gmap strings.
From Stdlib Require Import Strings.Byte NArith Lia.
From S2P Require Import Prelude Errors StdIo Buffered Tls Connection.

(** A world with cells of streams of type [T], which the stream's own methods leave
    alone. *)
Class ArcsWorld (W T : Type) `{!HasArcs W T} `{!Drop W T} := {
  get_set_arcs (a : arcs T) (w : W) : get_arcs (set_arcs a w) = a;
  drop_keeps_arcs E (t : T) (w : W) :
    match drop_value (E := E) t w with
    | Ok _ w' | Err _ w' => get_arcs (T := T) w' = get_arcs w
    | _ => True
    end;
}.
#[export] Hint Mode ArcsWorld ! ! - - : typeclass_instances.

Section handles.
Context {W T : Type} `{!HasArcs W T} `{!Drop W T} `{!ArcsWorld W T}.
Abbreviation handle := (RustlsConnection T).
Implicit Types (w : W) (hs : list handle) (h : handle).

Definition keeps_arcs {E A} (m : ST (T * W) E A) : Prop :=
  forall t w, match m (t, w) with
              | Ok _ (_, w') | Err _ (_, w') => get_arcs (T := T) w' = get_arcs w
              | _ => True
              end.

(** ** The steps

    [hs] are the handles that exist, whoever holds them. *)
Inductive tls_step : list handle * W -> list handle * W -> Prop :=
| step_from t hs w h w' :
    rustls_from (E := io_error) t w = Ok h w' -> tls_step (hs, w) (h :: hs, w')
| step_clone hs h w h' w' :
    h ∈ hs -> rustls_clone (E := io_error) h w = Ok h' w' -> tls_step (hs, w) (h' :: hs, w')
| step_drop hs hs' h w w' :
    hs ≡ₚ h :: hs' -> drop_value (E := io_error) h w = Ok tt w' -> tls_step (hs, w) (hs', w')
| step_unwrapped hs hs' h w t w' :
    hs ≡ₚ h :: hs' -> rustls_into_inner (E := io_error) h w = Ok (inl t) w' ->
    tls_step (hs, w) (hs', w')
| step_shared hs hs' h w h' w' :
    hs ≡ₚ h :: hs' -> rustls_into_inner (E := io_error) h w = Ok (inr h') w' ->
    tls_step (hs, w) (h' :: hs', w')
| step_use {A} (m : ST (T * W) io_error A) hs h w a w' :
    h ∈ hs -> keeps_arcs m -> lock_or_error h m w = Ok a w' -> tls_step (hs, w) (hs, w')
| step_failed {A} (m : ST (T * W) io_error A) hs h w e w' :
    h ∈ hs -> keeps_arcs m -> lock_or_error h m w = Err e w' -> tls_step (hs, w) (hs, w').

(** ** The invariant *)
Definition handles_of (id : nat) hs : nat := length (filter (fun h => arc_id h = id) hs).

#[local] Arguments handles_of : simpl never.

Definition counted (st : list handle * W) : Prop :=
  (forall id, match cells (the_arcs (T := T) st.2) !! id with
              | Some a => strong a = handles_of id st.1 /\ 1 <= strong a /\ poisoned a = false
              | None => handles_of id st.1 = 0
              end) /\
  forall id, next_arc (the_arcs (T := T) st.2) <= id -> cells (the_arcs (T := T) st.2) !! id = None.

Lemma handles_of_cons id h hs :
  handles_of id (h :: hs) = (if decide (arc_id h = id) then 1 else 0) + handles_of id hs.
Proof. unfold handles_of. rewrite filter_cons. by case_decide. Qed.

Lemma handles_of_perm id hs hs' : hs ≡ₚ hs' -> handles_of id hs = handles_of id hs'.
Proof. unfold handles_of. by intros ->. Qed.

Lemma counted_cell hs w h :
  counted (hs, w) -> h ∈ hs -> exists a, cells (the_arcs (T := T) w) !! arc_id h = Some a /\
    strong a = handles_of (arc_id h) hs /\ poisoned a = false.
Proof.
  intros [Hc _] Hin. specialize (Hc (arc_id h)). cbn in Hc.
  destruct (cells _ !! arc_id h) as [a|]; [naive_solver|].
  apply length_zero_iff_nil in Hc.
  assert (Hf : h ∈ filter (fun h' => arc_id h' = arc_id h) hs) by by apply list_elem_of_filter.
  rewrite Hc in Hf. by apply not_elem_of_nil in Hf.
Qed.

(** Replacing one cell, when the handles of the other cells stay. *)
Lemma counted_set hs hs' w w' id a :
  counted (hs, w) -> id < next_arc (the_arcs (T := T) w) ->
  get_arcs w' = Build_arcs (next_arc (the_arcs (T := T) w)) (<[id := a]> (cells (the_arcs (T := T) w))) ->
  strong a = handles_of id hs' -> 1 <= strong a -> poisoned a = false ->
  (forall id', id' <> id -> handles_of id' hs' = handles_of id' hs) ->
  counted (hs', w').
Proof.
  intros [Hc Hn] Hid Hw Hs H1 Hp Hot. unfold counted, the_arcs in *. cbn in *. rewrite Hw. cbn.
  split.
  - intros id'. destruct (decide (id' = id)) as [->|Hne].
    + by rewrite lookup_insert_eq.
    + rewrite lookup_insert_ne, Hot by done. apply Hc.
  - intros id' Hle. rewrite lookup_insert_ne by lia. by apply Hn.
Qed.

Lemma counted_free hs hs' w w' id :
  counted (hs, w) ->
  get_arcs w' = Build_arcs (next_arc (the_arcs (T := T) w)) (delete id (cells (the_arcs (T := T) w))) ->
  handles_of id hs' = 0 -> (forall id', id' <> id -> handles_of id' hs' = handles_of id' hs) ->
  counted (hs', w').
Proof.
  intros [Hc Hn] Hw H0 Hot. unfold counted, the_arcs in *. cbn in *. rewrite Hw. cbn. split.
  - intros id'. destruct (decide (id' = id)) as [->|Hne].
    + by rewrite lookup_delete_eq.
    + rewrite lookup_delete_ne, Hot by done. apply Hc.
  - intros id' Hle. destruct (decide (id' = id)) as [->|Hne]; [by rewrite lookup_delete_eq|].
    rewrite lookup_delete_ne by done. by apply Hn.
Qed.

Lemma cell_below hs w id a :
  counted (hs, w) -> cells (the_arcs (T := T) w) !! id = Some a -> id < next_arc (the_arcs (T := T) w).
Proof.
  intros [_ Hn] Ha. destruct (decide (id < next_arc (the_arcs (T := T) w))); [done|].
  cbn in Hn. by rewrite Hn in Ha by lia.
Qed.

Lemma counted_from t hs w h w' :
  counted (hs, w) -> rustls_from (E := io_error) t w = Ok h w' -> counted (h :: hs, w').
Proof.
  intros [Hc Hn] [= <- <-]. unfold counted, the_arcs in *. cbn in *. rewrite get_set_arcs. cbn.
  assert (H0 : handles_of (next_arc (get_arcs (T := T) w)) hs = 0).
  { specialize (Hc (next_arc (get_arcs (T := T) w))). by rewrite Hn in Hc by lia. }
  split.
  - intros id. rewrite handles_of_cons. cbn.
    destruct (decide (id = next_arc (get_arcs (T := T) w))) as [->|Hne].
    + rewrite lookup_insert_eq, decide_True by done. cbn. lia.
    + rewrite lookup_insert_ne, decide_False by done. apply Hc.
  - intros id Hle. rewrite lookup_insert_ne by lia. apply Hn. lia.
Qed.

Lemma counted_clone hs h w h' w' :
  counted (hs, w) -> h ∈ hs -> rustls_clone (E := io_error) h w = Ok h' w' ->
  counted (h' :: hs, w').
Proof.
  intros Hc Hin. destruct (counted_cell hs w h Hc Hin) as (a & Ha & Hs & Hp).
  unfold rustls_clone, bind, cell. rewrite Ha. cbn. intros [= <- <-].
  eapply (counted_set hs (h :: hs) w _ (arc_id h)); [done|by eapply cell_below| | | | |].
  - unfold set_cell. apply get_set_arcs.
  - rewrite handles_of_cons, decide_True by done. cbn. by rewrite Hs.
  - cbn. lia.
  - done.
  - intros id' Hne. by rewrite handles_of_cons, decide_False.
Qed.

Lemma counted_use {A} (m : ST (T * W) io_error A) hs h w :
  counted (hs, w) -> h ∈ hs -> keeps_arcs m ->
  match lock_or_error h m w with
  | Ok _ w' | Err _ w' => counted (hs, w')
  | _ => True
  end.
Proof.
  intros Hc Hin Hm. destruct (counted_cell hs w h Hc Hin) as (a & Ha & Hs & Hp).
  unfold lock_or_error, bind, cell. rewrite Ha. cbn. rewrite Hp. unfold with_stream.
  specialize (Hm (inner a) w). pose proof Hc as [Hcell _]. specialize (Hcell (arc_id h)).
  cbn in Hcell. rewrite Ha in Hcell. destruct Hcell as (_ & Hpos & _).
  destruct (m (inner a, w)) as [x [t w1]|e [t w1]| | |]; try done.
  all: apply (counted_set hs hs w _ (arc_id h) (Build_arc (strong a) (poisoned a) t));
    [done|by eapply cell_below|unfold set_cell, the_arcs; by rewrite get_set_arcs, Hm|done..].
Qed.

Lemma counted_drop hs hs' h w w' :
  counted (hs, w) -> hs ≡ₚ h :: hs' -> drop_value (E := io_error) h w = Ok tt w' ->
  counted (hs', w').
Proof.
  intros Hc Hp. assert (Hin : h ∈ hs) by (rewrite Hp; by left).
  destruct (counted_cell hs w h Hc Hin) as (a & Ha & Hs & _).
  rewrite (handles_of_perm _ _ _ Hp), handles_of_cons, decide_True in Hs by done.
  assert (Hot : forall id', id' <> arc_id h -> handles_of id' hs' = handles_of id' hs).
  { intros id' Hne. by rewrite (handles_of_perm _ _ _ Hp), handles_of_cons, decide_False. }
  unfold drop_value, Rustls_drop, bind, cell. rewrite Ha. cbn [strong].
  destruct (Nat.eqb_spec (strong a) 1) as [H1|H1]; unfold modify.
  - intros Hd. pose proof (drop_keeps_arcs io_error (inner a) (free_cell (T := T) (arc_id h) w)) as Hk.
    unfold drop_value in *. rewrite Hd in Hk.
    apply (counted_free hs hs' w w' (arc_id h)); [done| |lia|done].
    rewrite Hk. unfold free_cell. apply get_set_arcs.
  - intros [= <-]. eapply (counted_set hs hs' w _ (arc_id h)); [done|by eapply cell_below| | | | |done].
    + unfold set_cell. apply get_set_arcs.
    + cbn. lia.
    + cbn. destruct Hc as [Hc _]. specialize (Hc (arc_id h)). cbn in Hc. rewrite Ha in Hc. lia.
    + cbn. destruct Hc as [Hc _]. specialize (Hc (arc_id h)). cbn in Hc. rewrite Ha in Hc. tauto.
Qed.

Lemma counted_into_inner hs hs' h w :
  counted (hs, w) -> hs ≡ₚ h :: hs' ->
  match rustls_into_inner (E := io_error) h w with
  | Ok (inl _) w' => handles_of (arc_id h) hs' = 0 /\ counted (hs', w')
  | Ok (inr h') w' => handles_of (arc_id h) hs' <> 0 /\ h' = h /\ w' = w
  | _ => False
  end.
Proof.
  intros Hc Hp. assert (Hin : h ∈ hs) by (rewrite Hp; by left).
  destruct (counted_cell hs w h Hc Hin) as (a & Ha & Hs & Hpo).
  rewrite (handles_of_perm _ _ _ Hp), handles_of_cons, decide_True in Hs by done.
  unfold rustls_into_inner, bind, cell. rewrite Ha. cbn [strong].
  destruct (Nat.eqb_spec (strong a) 1) as [H1|H1]; unfold modify; rewrite ?Hpo.
  - split; [lia|]. apply (counted_free hs hs' w _ (arc_id h)); [done| |lia|].
    + unfold free_cell. apply get_set_arcs.
    + intros id' Hne. by rewrite (handles_of_perm _ _ _ Hp), handles_of_cons, decide_False.
  - split_and!; [lia|done|done].
Qed.

Lemma counted_step st st' : tls_step st st' -> counted st -> counted st'.
Proof.
  intros Hst Hc. destruct Hst as [t hs w h w' Hf|hs h w h' w' Hin Hcl|hs hs' h w w' Hp Hd
    |hs hs' h w t w' Hp Hi|hs hs' h w h' w' Hp Hi|A m hs h w a w' Hin Hm Hu|A m hs h w e w' Hin Hm Hu].
  - by eapply counted_from.
  - by eapply counted_clone.
  - by eapply counted_drop.
  - pose proof (counted_into_inner hs hs' h w Hc Hp) as Hx. rewrite Hi in Hx. apply Hx.
  - pose proof (counted_into_inner hs hs' h w Hc Hp) as Hx. rewrite Hi in Hx.
    destruct Hx as (_ & -> & ->). destruct Hc as [Hc Hn]. split; [|done]. intros id.
    specialize (Hc id). cbn in *. rewrite (handles_of_perm _ _ _ Hp) in Hc. done.
  - pose proof (counted_use m hs h w Hc Hin Hm) as Hx. by rewrite Hu in Hx.
  - pose proof (counted_use m hs h w Hc Hin Hm) as Hx. by rewrite Hu in Hx.
Qed.

(** ** Properties *)

(** However the handles of TLS streams are made, cloned, used, unwrapped and
    dropped: every cell has as many strong references as there are handles of it, and
    a handle never dangles. *)
Theorem tls_strong_count hs w0 w :
  cells (the_arcs (T := T) w0) = ∅ -> rtc tls_step ([], w0) (hs, w) ->
  counted (hs, w) /\ forall h, h ∈ hs -> is_Some (cells (the_arcs (T := T) w) !! arc_id h).
Proof.
  intros H0 Hst. assert (Hc : counted (hs, w)).
  { revert Hst. assert (Hi : counted ([], w0)).
    { split; [intros id|intros id _]; cbn; by rewrite H0, lookup_empty. }
    revert Hi. generalize ([] : list handle, w0) as st0. intros st0 Hi Hst.
    induction Hst as [|st1 st2 st3 Hs _ IH]; [done|]. by apply IH, (counted_step st1). }
  split; [done|]. intros h Hin. destruct (counted_cell hs w h Hc Hin) as (a & -> & _). eauto.
Qed.

End handles.

(** ** The handles of a stream against the stream

    The methods that tls.rs has for its handles are methods of the stream, too. *)
Inductive tls_call :=
| CallRead (n : nat)
| CallWrite (buf : bytes)
| CallFlush
| CallPeerAddr
| CallLocalAddr
| CallSetNodelay (nodelay : bool)
| CallSetReadTimeout (timeout : option N).

Inductive tls_reply :=
| GotBytes (bs : bytes)
| TookBytes (n : nat)
| GotAddr (addr : SocketAddr)
| GotUnit.

Section calls.
Context {W X : Type} `{!Read W X} `{!RawWrite W X}.
Context (peer_addr local_addr : X -> ST W io_error SocketAddr).
Context (set_nodelay : bool -> X -> ST W io_error unit).
Context (set_read_timeout : option N -> X -> ST W io_error unit).

Definition do_call (c : tls_call) : ST (X * W) io_error tls_reply :=
  match c with
  | CallRead n => let! got := read n in ret (GotBytes got)
  | CallWrite buf => let! n := raw_write buf in ret (TookBytes n)
  | CallFlush => raw_flush;;; ret GotUnit
  | CallPeerAddr => let! addr := by_ref peer_addr in ret (GotAddr addr)
  | CallLocalAddr => let! addr := by_ref local_addr in ret (GotAddr addr)
  | CallSetNodelay nodelay => by_ref (set_nodelay nodelay);;; ret GotUnit
  | CallSetReadTimeout timeout => by_ref (set_read_timeout timeout);;; ret GotUnit
  end.
End calls.

(** What the holders of handles do, each by the index of its handle *)
Inductive tls_event :=
| Calls (i : nat) (c : tls_call)
| Clones (i : nat)
| Drops (i : nat).

(** How many handles are left of [k], unless the last one is dropped. *)
Fixpoint handles_left (es : list tls_event) (k : nat) : option nat :=
  match es with
  | [] => Some k
  | Calls _ _ :: es => handles_left es k
  | Clones i :: es => handles_left es (if i <? k then S k else k)
  | Drops i :: es =>
      if i <? k then if k =? 1 then None else handles_left es (pred k) else handles_left es k
  end.

Section shared.
Context {V T : Type} `{!TcpSocket V T}.
Implicit Types (t : T) (v : V).

(** The world of the stream, and the cells beside it *)
Abbreviation world := (arcs T * V)%type.
#[local] Instance cells_beside : HasArcs world T := {|
  get_arcs := fst;
  set_arcs a w := (a, w.2);
|}.
#[local] Instance socket_beside : TcpSocket world T := {|
  tcp_stream := {|
    stream_read := fun n => zoom_rw (read n);
    stream_write := {| raw_write buf := zoom_rw (raw_write buf); raw_flush := zoom_rw raw_flush |};
    stream_drop := fun E t => zoom_r (drop_value t);
    stream_try_clone t := zoom_r (stream_try_clone t);
    stream_set_read_timeout timeout t := zoom_r (stream_set_read_timeout timeout t);
  |};
  tcp_set_nodelay nodelay t := zoom_r (tcp_set_nodelay nodelay t);
  tcp_peer_addr t := zoom_r (tcp_peer_addr t);
  tcp_local_addr t := zoom_r (tcp_local_addr t);
|}.

(** A call on the stream, and one on a handle *)
Definition stream_call : tls_call -> ST (T * V) io_error tls_reply :=
  do_call tcp_peer_addr tcp_local_addr tcp_set_nodelay stream_set_read_timeout.
Definition handle_call : tls_call -> ST (RustlsConnection T * world) io_error tls_reply :=
  do_call rustls_peer_addr rustls_local_addr rustls_set_nodelay rustls_set_read_timeout.

(** The replies of the stream to the calls, with one owner *)
Fixpoint owned_run {E} (es : list tls_event) (k : nat) : ST (T * V) E (list (tls_reply + io_error)) :=
  match es with
  | [] => ret []
  | Calls i c :: es =>
      if i <? k
      then
        let! r := attempt (stream_call c) in
        let! rs := owned_run es k in
        ret (r :: rs)
      else owned_run es k
  | Clones i :: es => owned_run es (if i <? k then S k else k)
  | Drops i :: es => owned_run es (if i <? k then pred k else k)
  end.

(** The replies to the calls on the handles [hs], and the handles that are left. There is no
    event at an index without a handle. *)
Fixpoint shared_run {E} (es : list tls_event) (hs : list (RustlsConnection T))
  : ST world E (list (tls_reply + io_error) * list (RustlsConnection T)) :=
  match es with
  | [] => ret ([], hs)
  | Calls i c :: es =>
      match hs !! i with
      | Some h =>
          let! (r, h) := borrow (attempt (handle_call c)) h in
          let! (rs, hs) := shared_run es (<[i := h]> hs) in
          ret (r :: rs, hs)
      | None => shared_run es hs
      end
  | Clones i :: es =>
      match hs !! i with
      | Some h => let! h' := rustls_clone h in shared_run es (hs ++ [h'])
      | None => shared_run es hs
      end
  | Drops i :: es =>
      match hs !! i with
      | Some h => drop_value h;;; shared_run es (delete i hs)
      | None => shared_run es hs
      end
  end.

(** [From], the events, and [into_inner] on the first handle that is left *)
Definition tls_session {E} (es : list tls_event) (t : T)
  : ST world E (list (tls_reply + io_error) * (T + RustlsConnection T)) :=
  let! h := rustls_from t in
  let! (rs, hs) := shared_run es [h] in
  match hs with
  | h :: _ => let! r := rustls_into_inner h in ret (rs, r)
  | [] => panic
  end.

(** *** One call *)
Definition holds_cell (id k : nat) (t : T) (a : arcs T) : Prop :=
  cells a !! id = Some (Build_arc k false t).

Lemma handle_call_stream {E} c id k t v a :
  holds_cell id k t a ->
  match attempt (E := io_error) (F := E) (stream_call c) (t, v),
        attempt (E := io_error) (F := E) (handle_call c) (MkRustls id, (a, v)) with
  | Ok r (t', v'), Ok r' (h, (a', v'')) =>
      r' = r /\ v'' = v' /\ h = MkRustls id /\ holds_cell id k t' a'
  | Panic, Panic | Block, Block | NoFuel, NoFuel => True
  | _, _ => False
  end.
Proof.
  intros Ha. unfold holds_cell in *.
  destruct c; unfold handle_call, stream_call, do_call, by_ref, read, Rustls_read, Rustls_write,
    rustls_peer_addr, rustls_local_addr, rustls_set_nodelay, rustls_set_read_timeout,
    lock_or_error, lock_unwrap, cell, the_arcs, attempt, bind, zoom_r, ret; cbn; rewrite ?Ha; cbn.
  all: unfold with_stream, zoom_rw, read, by_ref, zoom_r; cbn.
  all: match goal with |- context [match ?m with Ok _ _ => _ | _ => _ end] =>
         lazymatch m with
         | context [match _ with _ => _ end] => fail
         | stream_read _ _ => destruct m as [? [??]|? [??]| | |]
         | raw_write _ _ => destruct m as [? [??]|? [??]| | |]
         | raw_flush _ => destruct m as [? [??]|? [??]| | |]
         | _ => destruct m
         end
       end; cbn; try done; split_and!; try done; apply lookup_insert_eq.
Qed.

(** *** All events *)
Abbreviation handles k id := (replicate k (MkRustls (T := T) id)).

Lemma handles_clone k id : handles k id ++ [MkRustls id] = handles (S k) id.
Proof. by rewrite replicate_S_end. Qed.

Lemma handles_delete k id i : i < k -> delete i (handles k id) = handles (pred k) id.
Proof.
  intros Hi. rewrite delete_take_drop, take_replicate, drop_replicate, <-replicate_add. f_equal. lia.
Qed.

Lemma clone_step {E} k id t v a :
  holds_cell id k t a ->
  exists a', rustls_clone (E := E) (MkRustls (T := T) id) (a, v) = Ok (MkRustls id) (a', v) /\ holds_cell id (S k) t a'.
Proof.
  intros Ha. unfold rustls_clone, bind, cell, the_arcs. cbn. rewrite Ha. eexists. split; [done|].
  apply lookup_insert_eq.
Qed.

Lemma drop_step {E} k id t v a :
  holds_cell id (S (S k)) t a ->
  exists a', drop_value (E := E) (MkRustls (T := T) id) (a, v) = Ok tt (a', v) /\ holds_cell id (S k) t a'.
Proof.
  intros Ha. unfold drop_value, Rustls_drop, bind, cell, the_arcs. cbn. rewrite Ha. eexists. split; [done|].
  apply lookup_insert_eq.
Qed.

Lemma into_inner_step {E} k id t v a :
  holds_cell id (S k) t a ->
  exists a', rustls_into_inner (E := E) (MkRustls (T := T) id) (a, v) =
    Ok (if k =? 0 then inl t else inr (MkRustls id)) (a', v).
Proof.
  intros Ha. unfold rustls_into_inner, bind, cell, the_arcs. cbn. rewrite Ha. cbn.
  by destruct k; eexists.
Qed.

Lemma shared_run_owned {E} es : forall k n id t v a,
  handles_left es k = Some n -> holds_cell id k t a ->
  match owned_run (E := E) es k (t, v), shared_run (E := E) es (handles k id) (a, v) with
  | Ok rs (t', v'), Ok (rs', hs') (a', v'') =>
      rs' = rs /\ v'' = v' /\ hs' = handles n id /\ holds_cell id n t' a'
  | Panic, Panic | Block, Block | NoFuel, NoFuel => True
  | _, _ => False
  end.
Proof.
  induction es as [|e es IH]; intros k n id t v a Hn Ha; [by injection Hn as <-|].
  assert (Hlook : forall i, handles k id !! i = if i <? k then Some (MkRustls id) else None).
  { intros i. destruct (Nat.ltb_spec i k); [by apply lookup_replicate_2|by apply lookup_replicate_None]. }
  destruct e as [i c|i|i]; cbn [handles_left owned_run shared_run] in *; rewrite Hlook;
    destruct (Nat.ltb_spec i k) as [Hi|Hi]; try by eapply IH.
  - unfold bind, borrow. pose proof (handle_call_stream (E := E) c id k t v a Ha) as Hc.
    destruct (attempt (F := E) (stream_call c) (t, v)) as [r [t1 v1]|e [t1 v1]| | |];
      destruct (attempt (F := E) (handle_call c) (MkRustls id, (a, v))) as [r' [h [a1 v2]]|e' [h [a1 v2]]| | |]; try done.
    destruct Hc as (-> & -> & -> & Ha1). rewrite insert_replicate.
    specialize (IH k n id t1 v1 a1 Hn Ha1).
    destruct (owned_run (E := E) es k (t1, v1)) as [rs [t3 v3]|e [t3 v3]| | |];
      destruct (shared_run (E := E) es (handles k id) (a1, v1)) as [[rs' hs'] [a3 v4]|e' [a3 v4]| | |]; try done.
    by destruct IH as (-> & IH).
  - unfold bind. destruct (clone_step (E := E) k id t v a Ha) as (a1 & -> & Ha1).
    rewrite handles_clone. by apply IH.
  - destruct k as [|[|k]]; [lia|done|]. cbn [Nat.eqb pred] in *.
    unfold bind. destruct (drop_step (E := E) k id t v a Ha) as (a1 & -> & Ha1).
    rewrite handles_delete by done. by apply IH.
Qed.

Lemma handles_left_pos es : forall k n, handles_left es k = Some n -> 0 < k -> 0 < n.
Proof.
  induction es as [|[i c|i|i] es IH]; cbn [handles_left]; intros k n Hn Hk; [by injection Hn as <-|by eapply IH| |].
  - eapply IH; [exact Hn|]. destruct (i <? k); lia.
  - destruct (i <? k); [|by eapply IH]. destruct (Nat.eqb_spec k 1); [done|]. eapply IH; [exact Hn|lia].
Qed.

(** C29. The methods of tls.rs on handles that are cloned, shared and dropped at will are
    those of the stream itself: each call, on whichever handle, has the reply that the stream
    gives with one owner after the same calls, and what it did is seen by the calls on all
    other handles; a run ends only where the stream itself panics or waits. [into_inner]
    gives out the stream as the calls have left it when its handle is the only one, and
    otherwise the handle back. *)
Theorem tls_shared_as_owned {E} es n t v a :
  handles_left es 1 = Some n ->
  match owned_run (E := E) es 1 (t, v), tls_session (E := E) es t (a, v) with
  | Ok rs (t', v'), Ok (rs', r) (_, v'') =>
      rs' = rs /\ v'' = v' /\ r = if n =? 1 then inl t' else inr (MkRustls (next_arc a))
  | Panic, Panic | Block, Block | NoFuel, NoFuel => True
  | _, _ => False
  end.
Proof.
  intros Hn. set (a1 := Build_arcs (S (next_arc a)) (<[next_arc a := Build_arc 1 false t]> (cells a))).
  change (tls_session es t (a, v)) with
    ((let! (rs, hs) := shared_run es [MkRustls (next_arc a)] in
      match hs with
      | h :: _ => let! r := rustls_into_inner (E := E) h in ret (rs, r)
      | [] => panic
      end) (a1, v)).
  assert (Ha : holds_cell (next_arc a) 1 t a1) by apply lookup_insert_eq.
  pose proof (shared_run_owned (E := E) es 1 n (next_arc a) t v a1 Hn Ha) as Hr. unfold bind.
  change (handles 1 ?id) with [MkRustls (T := T) id] in Hr.
  destruct (owned_run (E := E) es 1 (t, v)) as [rs [t3 v3]|e [t3 v3]| | |];
    destruct (shared_run (E := E) es [MkRustls (next_arc a)] (a1, v)) as [[rs' hs'] [a3 v4]|e' [a3 v4]| | |]; try done.
  destruct Hr as (-> & -> & -> & Ha3). apply handles_left_pos in Hn; [|lia].
  destruct n as [|n]; [lia|]. cbn [replicate].
  by destruct (into_inner_step (E := E) n (next_arc a) t3 v3 a3 Ha3) as (a4 & ->).
Qed.
End shared.

(** ** [Connection::downcast] *)
Section downcast.
Context {W Tcp Unix T : Type} `{!HasArcs W T} `{!Drop W T} `{!ArcsWorld W T}.

(** The type of the stream inside. *)
Definition stream_kind (c : Connection Tcp Unix T) : stream_type :=
  match connection_0 c with
  | TcpConn _ => OfTcp
  | UnixConn _ => OfUnix
  | RustlsConn _ => OfTls
  end.

(** The stream inside, for TLS by way of its cell. *)
Definition stream_in (c : Connection Tcp Unix T) (w : W) : option (Tcp + Unix + T) :=
  match connection_0 c with
  | TcpConn tcp => Some (inl (inl tcp))
  | UnixConn unix => Some (inl (inr unix))
  | RustlsConn h => (fun a => inr (inner a)) <$> cells (the_arcs (T := T) w) !! arc_id h
  end.

Definition as_stream {t : stream_type} : stream_value (Tcp := Tcp) (Unix := Unix) (Tls := T) t ->
    Tcp + Unix + T :=
  match t return stream_value t -> Tcp + Unix + T with
  | OfTcp => fun tcp => inl (inl tcp)
  | OfUnix => fun unix => inl (inr unix)
  | OfTls => inr
  | OfOther => fun x => match x with end
  end.

(** [downcast] gives out the stream when it has the type asked for and, for TLS, no
    other handle of it exists; otherwise it gives a connection back that has the same
    stream inside. *)
Theorem downcast_stream t (c : Connection Tcp Unix T) hs hs' w :
  (forall h, connection_0 c = RustlsConn h -> counted (hs, w) /\ hs ≡ₚ h :: hs') ->
  wp (downcast (E := io_error) t c)
     (fun r w' =>
        match r with
        | inl s => t = stream_kind c /\ Some (as_stream s) = stream_in c w /\
            forall h, connection_0 c = RustlsConn h -> handles_of (arc_id h) hs' = 0
        | inr c' => stream_kind c' = stream_kind c /\ stream_in c' w' = stream_in c w /\
            (t = stream_kind c -> exists h, connection_0 c = RustlsConn h /\
                                           handles_of (arc_id h) hs' <> 0)
        end) never w.
Proof.
  destruct c as [[tcp|unix|h]]; intros Htls; unfold downcast; cbn [connection_0].
  - destruct t; apply wp_ret; by split_and!.
  - destruct t; apply wp_ret; by split_and!.
  - destruct (Htls h eq_refl) as [Hc Hp].
    assert (Hin : h ∈ hs) by (rewrite Hp; by left).
    destruct (counted_cell hs w h Hc Hin) as (a & Ha & _ & Hpo).
    unfold downcast_tls. wp_step.
    pose proof (counted_into_inner hs hs' h w Hc Hp) as Hx.
    assert (Hinner : forall s w', rustls_into_inner (E := io_error) h w = Ok (inl s) w' -> s = inner a).
    { intros s w'. unfold rustls_into_inner, bind, cell. rewrite Ha. cbn [strong]. rewrite Hpo.
      by destruct (strong a =? 1); [intros [= <- _]|]. }
    unfold wp at 1. destruct (rustls_into_inner h w) as [[s|h'] w'|e w'| | |] eqn:Hi; try done.
    + specialize (Hinner s w' eq_refl) as ->. unfold stream_in. cbn [connection_0]. rewrite Ha.
      destruct t; [| |apply wp_ret; split_and!; [done|done|intros h' [= <-]; apply Hx]|].
      all: wp_step; unfold wp at 1, rustls_from, the_arcs; apply wp_ret; cbn;
        unfold stream_in, the_arcs; cbn; rewrite get_set_arcs; cbn; rewrite lookup_insert_eq;
        by split_and!.
    + destruct Hx as (Hne & -> & ->). apply wp_ret. split_and!; [done|done|]. intros _.
      by exists h.
Qed.
End downcast.
