(* ===== verification/ConnLaws.v ===== *)
(** * ConnLaws: what a connection promises, and the buffers around it

    The contract of the connections that the server and the client work on, the
    hand-off of buffered readers over it, and the end of a [BufWriter]. *)
From stdpp Require Import base list gmap strings.
From Stdlib Require Import Strings.Byte NArith Lia.
From S2P Require Import Prelude Errors StdIo Buffered Mpsc ReadQueue QueueLaws Tls Connection.

(** A connection is a lawful stream in both directions; the value is a handle that
    reading and writing do not change, and dropping a handle always works. *)
Class ConnLaws (W C : Type) `{!World W} `{!Conn W C} := {
  conn_read_laws :: ReadLaws W C;
  conn_write_laws :: RawWriteLaws W C;
  conn_write_same (c : C) (w : W) bs :
    match raw_write bs (c, w) with Ok _ (c', _) | Err _ (c', _) => c' = c | _ => True end;
  conn_flush_same (c : C) (w : W) :
    match raw_flush (c, w) with Ok _ (c', _) | Err _ (c', _) => c' = c | _ => True end;
  conn_clone E (c : C) (w : W) bs fin :
    holds c w bs fin ->
    wp (clone (E := E) c) (fun c' w' => rstep w w' /\ holds c' w' bs fin) never w;
  conn_drop_any E (c : C) (w : W) :
    wp (drop_value (E := E) c) (fun _ w' => rstep w w') never w;
}.
#[export] Hint Mode ConnLaws ! ! - - : typeclass_instances.

(** Connections have nothing to do with the channels of the read queues. *)
Class ConnStore (W C : Type) `{!World W} `{!Conn W C} `{!ConnLaws W C}
    `{!HasStore W (BufReader C)} := {
  conn_holds_store (c : C) (w : W) (s : store (BufReader C)) bs fin :
    holds c w bs fin -> holds c (set_store s w) bs fin;
  conn_alive_store (c : C) (w : W) (s : store (BufReader C)) :
    alive c w -> alive c (set_store s w);
  conn_read_keeps n (c : C) (w : W) :
    match read n (c, w) with
    | Ok _ (_, w') | Err _ (_, w') => get_store (T := BufReader C) w' = get_store w
    | _ => True
    end;
  conn_drop_keeps E (c : C) (w : W) :
    match drop_value (E := E) c w with
    | Ok _ w' | Err _ w' => get_store (T := BufReader C) w' = get_store w
    | _ => True
    end;
}.
#[export] Hint Mode ConnStore ! ! - - - - : typeclass_instances.

Section buf_reader.
Context {W C : Type} `{!World W} `{!Conn W C} `{!ConnLaws W C} `{!HasStore W (BufReader C)}
  `{!StoreWorld W (BufReader C)} `{!ConnStore W C}.

Lemma buf_fill_keeps : keeps_store (W := W) (R := BufReader C) buf_fill.
Proof.
  intros r w. unfold buf_fill. cbn [fst]. destruct (br_buf r); [|done].
  pose proof (conn_read_keeps DEFAULT_BUF_SIZE (br_inner r) w) as Hk.
  unfold read_inner. cbn [fst snd].
  by destruct (read DEFAULT_BUF_SIZE (br_inner r, w)) as [got [c w']|e [c w']| | |].
Qed.

Lemma buf_read_keeps n : keeps_store (W := W) (R := BufReader C) (BufReader_read n).
Proof.
  intros r w. unfold BufReader_read, bind, get_state. cbn [fst].
  destruct (bool_decide _ && _).
  - pose proof (conn_read_keeps n (br_inner r) w) as Hk. unfold read_inner. cbn [fst snd].
    by destruct (read n (br_inner r, w)) as [got [c w']|e [c w']| | |].
  - unfold buf_read_buffered, bind. pose proof (buf_fill_keeps r w) as Hk.
    by destruct (buf_fill (r, w)) as [got [c w']|e [c w']| | |].
Qed.

#[export] Instance BufReader_store_free :
  StoreFree W (BufReader C) (BufRead0 := BufReader_bufread) (BufReadLaws0 := BufReader_bufread_laws).
Proof.
  split.
  - intros r w s bs fin (rest & -> & Hl & Hr). exists rest.
    split_and!; [done|done|]. by apply conn_holds_store.
  - intros r w s. apply conn_alive_store.
  - apply buf_read_keeps.
  - apply buf_fill_keeps.
  - by intros n r w.
Qed.
End buf_reader.

Section buf_writer.
Context `{!Fuel} {W C : Type} `{!World W} `{!Conn W C} `{!ConnLaws W C}.
Implicit Types (bw : BufWriter C) (w : W).

Lemma write_loop_same n bs (c : C) w :
  match write_loop n bs (c, w) with Ok _ (c', _) | Err _ (c', _) => c' = c | _ => True end.
Proof.
  revert bs w. induction n as [|n IH]; intros [|x bs] w; try done.
  cbn [write_loop]. unfold bind, attempt. pose proof (conn_write_same c w (x :: bs)) as Hs.
  destruct (raw_write (x :: bs) (c, w)) as [[|k] [c' w']|e [c' w']| | |]; try done; subst c'.
  - apply IH.
  - destruct (is_interrupted e); [apply IH|done].
Qed.

(** The writer stays around the same connection. *)
Lemma flush_buf_inner bw w :
  match flush_buf (bw, w) with
  | Ok _ (bw', _) | Err _ (bw', _) => bw_inner bw' = bw_inner bw
  | _ => True
  end.
Proof.
  unfold flush_buf. pose proof (write_loop_same (S (fuel + length (bw_buf bw))) (bw_buf bw)
    (bw_inner bw) w) as Hs.
  by destruct (write_loop _ _ (bw_inner bw, w)) as [[] [c w']|[e rest] [c w']| | |].
Qed.

(** *** Nothing that is written through the writer exchanges its connection *)
Definition inner_is (c : C) (st : BufWriter C * W) : Prop := bw_inner st.1 = c.

Lemma flush_buf_keeps c : preserves (inner_is c) flush_buf.
Proof.
  intros [bw w] <-. pose proof (flush_buf_inner bw w).
  by destruct (flush_buf (bw, w)) as [? [??]|? [??]| | |].
Qed.

Lemma write_through_keeps bs c : preserves (inner_is c) (write_through bs).
Proof.
  intros [bw w] <-. unfold write_through, inner_is.
  pose proof (write_loop_same (S (fuel + length bs)) bs (bw_inner bw) w) as Hs.
  by destruct (write_loop _ _ (bw_inner bw, w)) as [[] [c w']|[e rest] [c w']| | |].
Qed.

Lemma push_buf_keeps bs c : preserves (inner_is c) (push_buf bs).
Proof. by intros [bw w] <-. Qed.

Lemma write_all_keeps bs c : preserves (inner_is c) (write_all (W := W) bs).
Proof.
  cbn. unfold buf_write_all. apply preserves_bind; [by intros ?|]. intros st.
  destruct (_ <? _); [apply push_buf_keeps|]. apply preserves_bind.
  - destruct (_ <? _); [apply flush_buf_keeps|apply preserves_ret].
  - intros _. destruct (_ <=? _); [apply write_through_keeps|apply push_buf_keeps].
Qed.

Lemma flush_keeps c : preserves (inner_is c) (flush (W := W)).
Proof.
  cbn. apply preserves_bind; [apply flush_buf_keeps|]. intros _ [bw w] <-.
  unfold flush_inner, inner_is. cbn. pose proof (conn_flush_same (bw_inner bw) w).
  by destruct (raw_flush (bw_inner bw, w)) as [? [??]|? [??]| | |].
Qed.

(** Where the bytes of a writer end up when it is dropped: on the connection, all of
    them unless it fails. *)
Definition drained (c : C) (out : bytes) (w : W) : Prop :=
  accepted c w `prefix_of` out /\ (accepted c w = out \/ raw_can_fail W C).

Lemma drained_rstep c out w w' : drained c out w -> rstep w w' -> drained c out w'.
Proof. intros [Hp Ho] Hw. unfold drained. by rewrite (accepted_rstep c w w'). Qed.

Lemma writer_drop_spec E bw w :
  wp (drop_value (E := E) bw)
     (fun _ w' => exists w1, wstep w w1 /\ drop_value (E := E) (bw_inner bw) w1 = Ok tt w' /\
                             rstep w1 w' /\ drained (bw_inner bw) (buf_written bw w) w') never w.
Proof.
  pose proof (flush_buf_spec bw w) as Hf. pose proof (flush_buf_inner bw w) as Hs.
  unfold wp at 1 in Hf. unfold drop_value, BufWriter_drop, wp.
  destruct (flush_buf (bw, w)) as [[] [bw' w1]|e [bw' w1]| | |]; try done; rewrite Hs in *.
  - destruct Hf as (Hw & _ & Hacc).
    pose proof (conn_drop_any E (bw_inner bw) w1) as Hd. unfold wp, drop_value in *.
    destruct (conn_drop E (bw_inner bw) w1) as [[] w2|e' w2| | |] eqn:Hdr; try done.
    exists w1. split_and!; [done..|]. unfold drained. rewrite (accepted_rstep _ w1 w2) by done.
    rewrite Hacc. by split; [|left].
  - destruct Hf as (Hcf & Hw & Hacc).
    pose proof (conn_drop_any E (bw_inner bw) w1) as Hd. unfold wp, drop_value in *.
    destruct (conn_drop E (bw_inner bw) w1) as [[] w2|e' w2| | |] eqn:Hdr; try done.
    exists w1. split_and!; [done..|]. unfold drained. rewrite (accepted_rstep _ w1 w2) by done.
    rewrite <-Hacc. unfold buf_written. rewrite Hs. split; [by apply prefix_app_r|by right].
Qed.
End buf_writer.
