(* ===== verification/Server.v ===== *)
(** * Server: src/src/server.rs

    The loop [serve] that answers the requests of one connection, and the server
    that feeds it with connections. [C] is the type of connections, [A] of
    services, [Hd] of upgrade handlers, [W] the world. *)
From stdpp Require Import base list gmap strings.
From Stdlib Require Import Strings.Byte NArith Lia.
From S2P Require Import Prelude Errors StdIo Buffered HttpApi Mpsc ReadQueue HttpBody Body.
From S2P Require Import Message Request Response Upgrade Tls Connection.

(** The reader of a request on a connection, and its body. *)
Abbreviation QReader C := (QueuedReader (BufReader C)).
Abbreviation IncomingBody C := (Body (ChunkedReader (QReader C)) (QReader C)).

(** [StatusCode::CONTINUE] *)
Definition STATUS_CONTINUE : N := 100%N.

(** [SystemTime::now()], in seconds *)
Class Clock (W : Type) := now : forall {E}, ST W E N.
#[export] Hint Mode Clock ! : typeclass_instances.

(** [trait MakeService], with services [A] *)
Class MakeService (W C A M : Type) := make_call : M -> C -> ST W io_error (A + boxed_error).
#[export] Hint Mode MakeService ! ! - ! : typeclass_instances.

(** [impl<F: Fn(&Connection) -> Result<S, Err>> MakeService for F] *)
#[export] Instance fn_make_service {W C A} :
    MakeService W C A (C -> ST W io_error (A + boxed_error)) :=
  fun f conn => f conn.

Section server.
Context `{!HttpApi} `{!Fuel} {W C A Hd : Type}.
Context `{!Conn W C} `{!HasStore W (BufReader C)} `{!UpgradeHandler W Hd C} `{!Clock W}.

Abbreviation IncomingRequest := (Request (IncomingBody C)).
Abbreviation OutgoingResponse B := (Response (UpgradeExtension Hd) C B).

(** [trait Service]: the service owns the request, and its error is boxed. *)
Class Service := {
  SBody : Type;
  service_body :: HttpBody W SBody;
  call : IncomingRequest -> ST (A * W) boxed_error (OutgoingResponse SBody);
  should_continue : forall {E}, IncomingRequest -> ST (A * W) E N;
}.

(** The provided [should_continue] *)
Definition default_should_continue {E} (_ : IncomingRequest) : ST (A * W) E N :=
  ret STATUS_CONTINUE.

(** ** One connection

    The locals of [serve] that live across the loop, with the service and the
    world. *)
Record conn_state := {
  cs_queue : ReadQueue (BufReader C);
  cs_writer : BufWriter C;
  cs_app : A;
  cs_world : W;
}.

Definition on_world {E X} (m : ST W E X) : ST conn_state E X :=
  zoom cs_world
    (fun w s => {| cs_queue := cs_queue s; cs_writer := cs_writer s;
                   cs_app := cs_app s; cs_world := w |}) m.
Definition on_queue {E X} (m : ST (ReadQueue (BufReader C) * W) E X) : ST conn_state E X :=
  zoom (fun s => (cs_queue s, cs_world s))
    (fun p s => {| cs_queue := p.1; cs_writer := cs_writer s;
                   cs_app := cs_app s; cs_world := p.2 |}) m.
Definition on_writer {E X} (m : ST (BufWriter C * W) E X) : ST conn_state E X :=
  zoom (fun s => (cs_writer s, cs_world s))
    (fun p s => {| cs_queue := cs_queue s; cs_writer := p.1;
                   cs_app := cs_app s; cs_world := p.2 |}) m.
Definition on_app {E X} (m : ST (A * W) E X) : ST conn_state E X :=
  zoom (fun s => (cs_app s, cs_world s))
    (fun p s => {| cs_queue := cs_queue s; cs_writer := cs_writer s;
                   cs_app := p.1; cs_world := p.2 |}) m.

(** *** Decisions made from the request and the response *)
Definition demands_close (version : Version) (headers : HeaderMap) : bool :=
  let asks_for_close := connection_has "close" headers in
  let asks_for_keep_alive := connection_has "keep-alive" headers in
  match version with
  | HTTP_09 => true
  | HTTP_10 => negb asks_for_keep_alive
  | _ => asks_for_close
  end.

Definition should_write_body (method : Method) (status : N) : bool :=
  match method with
  | HEAD => false
  | CONNECT => status_is_success status
  | _ => true
  end.

(** [connection: close] for HTTP/1.0 without keep-alive *)
Definition version_headers (version : Version) (asks_for_keep_alive : bool)
    (headers : HeaderMap) : HeaderMap :=
  if bool_decide (version = HTTP_10) && negb asks_for_keep_alive
  then hm_insert (b "connection") (b "close") headers else headers.

Definition set_date {E} (headers : HeaderMap) : ST W E HeaderMap :=
  if date_is_set headers then ret headers
  else let! time := now in ret (date_insert time headers).

(** The version of the request, the connection header and the date. *)
Definition prepare_response {B E} (version : Version) (asks_for_keep_alive : bool)
    (res : OutgoingResponse B) : ST W E (OutgoingResponse B) :=
  let! headers := set_date (version_headers version asks_for_keep_alive (res_headers res)) in
  ret (Build_Response (res_status res) version headers (res_extensions res) (res_body res)).

(** [Response::builder().status(status).body(()).unwrap()] *)
Definition status_response (status : N) : OutgoingResponse () :=
  Build_Response status HTTP_11 hm_new no_extensions tt.

(** *** The body of the loop *)

(** [if expects_continue { .. }]: whether to go on with the request. *)
Definition answer_expectation `{!Service} (req : IncomingRequest)
  : ST conn_state io_error bool :=
  if expect_is_continue (req_headers req)
  then
    let! status := on_app (should_continue req) in
    cleanup (on_world (drop_value (req_body req)))
      (on_writer (write_response (status_response status) true);;;
       on_writer flush);;;
    ret (status =? STATUS_CONTINUE)%N
  else ret true.

(** How the iteration ends: [continue] or the end of the body, [break], or the
    upgrade branch. *)
Inductive flow :=
| Again
| Leave
| Upgraded (upgrade : UpgradeExtension Hd).

(** From [app.call(req)] to the end of the arm. *)
Definition call_and_write `{!Service} (req : IncomingRequest) : ST conn_state io_error flow :=
  let version := req_version req in
  let method := req_method req in
  let asks_for_keep_alive := connection_has "keep-alive" (req_headers req) in
  let close := demands_close version (req_headers req) in
  let! res := map_err (IoError Other) (on_app (call req)) in
  let! res := on_world (prepare_response version asks_for_keep_alive res) in
  let! outcome :=
    on_writer (write_response res (should_write_body method (res_status res))) in
  match outcome with
  | KeepAlive => if close then ret Leave else on_writer flush;;; ret Again
  | Close => ret Leave
  | Upgrade upgrade => ret (Upgraded upgrade)
  end.

(** The arm [Ok(req)], after the next handle has been taken from the queue. *)
Definition answer_request `{!Service} (req : IncomingRequest)
  : ST conn_state io_error flow :=
  let! proceed := answer_expectation req in
  if negb proceed
  then on_world (drop_value (req_body req));;; ret Again
  else call_and_write req.

(** The destructors of the locals: the writer, then the reader unless it was
    moved, then the queue. *)
Definition leave {E} (reader : option (QReader C)) : ST conn_state E unit :=
  let! s := get_state in
  on_world
    (drop_value (cs_writer s);;;
     match reader with Some reader => drop_value reader | None => ret tt end;;;
     drop_value (cs_queue s)).

(** [drop(reader); drop(read_queue); upgrade.handler.handle(writer.into_inner()?)] *)
Definition hand_over (upgrade : UpgradeExtension Hd) (reader : QReader C)
  : ST conn_state io_error unit :=
  let! s := get_state in
  on_world
    (drop_value reader;;;
     drop_value (cs_queue s);;;
     let! stream := into_inner (cs_writer s) in
     handle (handler upgrade) stream).

(** One iteration: the reader of the next iteration, or [None] after a [break]. *)
Definition serve_step `{!Service} (reader : QReader C)
  : ST conn_state io_error (option (QReader C)) :=
  let! parsed := attempt (on_world (parse_request reader)) in
  match parsed with
  | inl req =>
      let! reader := on_queue enqueue in
      let! next := attempt (answer_request req) in
      match next with
      | inl Again => ret (Some reader)
      | inl Leave => leave (Some reader);;; ret None
      | inl (Upgraded upgrade) => hand_over upgrade reader;;; ret None
      | inr err => leave (Some reader);;; fail err
      end
  | inr ConnectionClosed => leave None;;; ret None
  | inr err => leave None;;; fail (IoError Other (BoxedParse err))
  end.

Fixpoint serve_loop `{!Service} (n : nat) (reader : QReader C)
  : ST conn_state io_error unit :=
  match n with
  | O => no_fuel
  | S n =>
      let! next := serve_step reader in
      match next with
      | Some reader => serve_loop n reader
      | None => ret tt
      end
  end.

(** [fn serve] *)
Definition serve `{!Service} (conn : C) : ST (A * W) io_error unit :=
  let! reader_conn := zoom_r (clone conn) in
  fun st =>
    let start := {| cs_queue := ReadQueue_new (BufReader_new reader_conn);
                    cs_writer := BufWriter_new conn;
                    cs_app := st.1; cs_world := st.2 |} in
    match (let! reader := on_queue enqueue in serve_loop fuel reader) start with
    | Ok _ s => Ok tt (cs_app s, cs_world s)
    | Err e s => Err e (cs_app s, cs_world s)
    | Panic => Panic | Block => Block | NoFuel => NoFuel
    end.

(** ** The server *)

(** [Iterator<Item = C>] with [C: Into<Connection>] *)
Class ConnSource (I : Type) := next_conn : forall {E}, ST (I * W) E (option C).

(** The [threadpool] crate: [execute] runs the job on some thread, later. *)
Class ThreadPool (P : Type) := {
  pool_new : forall {E}, N -> ST W E P;
  execute : forall {E}, P -> ST W io_error unit -> ST W E unit;
}.

(** [struct ServerBuilder] *)
Record ServerBuilder := {
  max_threads : N;
  read_timeout : option N;
  nodelay : bool;
}.

Definition ServerBuilder_default : ServerBuilder :=
  {| max_threads := 512; read_timeout := None; nodelay := false |}.
Definition with_max_threads (self : ServerBuilder) (n : N) : ServerBuilder :=
  {| max_threads := n; read_timeout := read_timeout self; nodelay := nodelay self |}.
Definition with_read_timeout (self : ServerBuilder) (timeout : option N) : ServerBuilder :=
  {| max_threads := max_threads self; read_timeout := timeout; nodelay := nodelay self |}.
Definition with_nodelay (self : ServerBuilder) (nodelay : bool) : ServerBuilder :=
  {| max_threads := max_threads self; read_timeout := read_timeout self;
     nodelay := nodelay |}.

(** [struct Server]: the thread pool and the boxed iterator, which is the source
    of connections with the options its filter sets. *)
Record Server (P I : Type) := {
  thread_pool : P;
  incoming : I;
  incoming_read_timeout : option N;
  incoming_nodelay : bool;
}.
Arguments thread_pool {P I} s.
Arguments incoming {P I} s.
Arguments incoming_read_timeout {P I} s.
Arguments incoming_nodelay {P I} s.

Definition from_connections {P I E} `{!ThreadPool P} (self : ServerBuilder) (conns : I)
  : ST W E (Server P I) :=
  let! pool := pool_new (max_threads self) in
  ret {| thread_pool := pool; incoming := conns;
         incoming_read_timeout := read_timeout self; incoming_nodelay := nodelay self |}.

(** The closure of [filter_map]: a connection whose options cannot be set is
    dropped. *)
Definition admit_conn {E} (timeout : option N) (nodelay : bool) (conn : C)
  : ST W E (option C) :=
  let! r := result_ok (conn_set_read_timeout timeout conn) in
  match r with
  | None => drop_value conn;;; ret None
  | Some _ =>
      let! r := result_ok (conn_set_nodelay nodelay conn) in
      match r with
      | None => drop_value conn;;; ret None
      | Some _ => ret (Some conn)
      end
  end.

(** [next] of [conns.into_iter().filter_map(..)] *)
Fixpoint incoming_next {I E} `{!ConnSource I} (n : nat) (timeout : option N) (nodelay : bool)
  : ST (I * W) E (option C) :=
  match n with
  | O => no_fuel
  | S n =>
      let! conn := next_conn in
      match conn with
      | None => ret None
      | Some conn =>
          let! conn := zoom_r (admit_conn timeout nodelay conn) in
          match conn with
          | Some conn => ret (Some conn)
          | None => incoming_next n timeout nodelay
          end
      end
  end.

(** [listener.accept()], converted to a connection *)
Class Listener (L : Type) := accept : L -> ST W io_error C.

(** [struct TcpAcceptor] and its [Iterator] *)
Record TcpAcceptor (L : Type) := { listener : L }.
Arguments listener {L} t.

#[export] Instance TcpAcceptor_next {L} `{!Listener L} : ConnSource (TcpAcceptor L) :=
  fun E st => zoom_r (result_ok (accept (listener st.1))) st.

(** [TcpListener::bind] *)
Class TcpBind (L Addr : Type) := tcp_bind : Addr -> ST W io_error L.

(** [ServerBuilder::try_bind], [ServerBuilder::bind], which unwraps its result,
    [Server::builder], [Server::bind] and [From<TcpListener> for Server] *)
Definition try_bind {P L Addr} `{!ThreadPool P} `{!TcpBind L Addr} (self : ServerBuilder)
    (addr : Addr) : ST W io_error (Server P (TcpAcceptor L)) :=
  let! listener := tcp_bind addr in
  from_connections self {| listener := listener |}.
Definition builder_bind {P L Addr E} `{!ThreadPool P} `{!TcpBind L Addr}
    (self : ServerBuilder) (addr : Addr) : ST W E (Server P (TcpAcceptor L)) :=
  unwrap_result (try_bind self addr).
Definition Server_builder : ServerBuilder := ServerBuilder_default.
Definition Server_bind {P L Addr E} `{!ThreadPool P} `{!TcpBind L Addr} (addr : Addr)
  : ST W E (Server P (TcpAcceptor L)) := builder_bind Server_builder addr.
Definition Server_from_listener {P L E} `{!ThreadPool P} (listener : L)
  : ST W E (Server P (TcpAcceptor L)) :=
  from_connections Server_builder {| listener := listener |}.

Definition over_incoming {P I X E} (m : ST (I * W) E X) : ST (Server P I * W) E X :=
  zoom (fun st => (incoming st.1, st.2))
    (fun p st => ({| thread_pool := thread_pool st.1; incoming := p.1;
                     incoming_read_timeout := incoming_read_timeout st.1;
                     incoming_nodelay := incoming_nodelay st.1 |}, p.2)) m.

Definition server_next {P I E} `{!ConnSource I} : ST (Server P I * W) E (option C) :=
  let! st := get_state in
  over_incoming (incoming_next fuel (incoming_read_timeout st.1) (incoming_nodelay st.1)).

(** A computation on the service next to the server. *)
Definition beside_server {T X E} (m : ST (A * W) E X) : ST (T * (A * W)) E X := zoom_r m.
Definition server_and_world {T X E} (m : ST (T * W) E X) : ST (T * (A * W)) E X :=
  zoom (fun st => (st.1, st.2.2)) (fun p st => (p.1, (st.2.1, p.2))) m.

(** [Server::serve_single_thread] *)
Fixpoint serve_single_thread `{!Service} {P I} `{!ConnSource I} (n : nat)
  : ST (Server P I * (A * W)) io_error unit :=
  match n with
  | O => no_fuel
  | S n =>
      let! conn := server_and_world server_next in
      match conn with
      | None => ret tt
      | Some conn =>
          let! _ := beside_server (result_ok (serve conn)) in
          serve_single_thread n
      end
  end.

(** The closure a worker runs: [serve(conn, &mut app).ok();] *)
Definition worker `{!Service} (conn : C) (app : A) : ST W io_error unit :=
  fun w =>
    match serve conn (app, w) with
    | Ok _ st | Err _ st => Ok tt st.2
    | Panic => Panic | Block => Block | NoFuel => NoFuel
    end.

(** [Server::serve]: [service_clone] is [Clone::clone] of the service. *)
Fixpoint serve_threads `{!Service} {P I} `{!ConnSource I} `{!ThreadPool P}
    (service_clone : A -> ST W io_error A) (service : A) (n : nat)
  : ST (Server P I * W) io_error unit :=
  match n with
  | O => no_fuel
  | S n =>
      let! conn := server_next in
      match conn with
      | None => ret tt
      | Some conn =>
          let! app := zoom_r (service_clone service) in
          let! st := get_state in
          zoom_r (execute (thread_pool st.1) (worker conn app));;;
          serve_threads service_clone service n
      end
  end.

(** [Server::make_service] *)
Fixpoint make_service `{!Service} {P I M} `{!ConnSource I} `{!ThreadPool P} `{!MakeService W C A M}
    (make : M) (n : nat)
  : ST (Server P I * W) io_error unit :=
  match n with
  | O => no_fuel
  | S n =>
      let! conn := server_next in
      match conn with
      | None => ret tt
      | Some conn =>
          let! handler := zoom_r (make_call make conn) in
          match handler with
          | inl handler =>
              let! st := get_state in
              zoom_r (execute (thread_pool st.1) (worker conn handler))
          | inr _ => zoom_r (drop_value conn)
          end;;;
          make_service make n
      end
  end.
End server.
Arguments thread_pool {P I} s.
Arguments incoming {P I} s.
Arguments incoming_read_timeout {P I} s.
Arguments incoming_nodelay {P I} s.
Arguments listener {L} t.
