(* ===== verification/Reference.v ===== *)
(** * Reference: what a server has to write, as a function of bytes

    [reference] computes, from the bytes a client sends on one connection, what the
    server writes on it and how it ends; a service is a function of the requests. *)
From stdpp Require Import base list gmap strings.
From Stdlib Require Import Strings.Byte NArith Lia.
From S2P Require Import Prelude Errors StdIo Buffered HttpApi Mpsc ReadQueue QueueLaws.
From S2P Require Import HttpBody Body BodyLaws Message MessageLaws ChunkedLaws Request.
From S2P Require Import RequestLaws Response ResponseLaws Upgrade Tls Connection ConnLaws.
From S2P Require Import Server.

(** ** The bodies of requests *)

(** The body of a request: of a length that was announced, with the bytes that came before
    the end of the stream, or in chunks. *)
Inductive incoming :=
| Announced (len : N) (bs : bytes)
| InChunks (cs : list bytes).

(** A body with all the bytes that were announced *)
Abbreviation Sized bs := (Announced (N.of_nat (length (A := Byte.byte) bs)) bs).

Definition in_bytes (body : incoming) : bytes :=
  match body with Announced _ bs => bs | InChunks cs => concat cs end.

(** ** The reference *)
Section reference.
Context `{!HttpApi} `{!Fuel} {A U C B : Type}.

(** The request at the front of a stream, with its body, what follows when the body
    was read whole, and what follows when it was dropped unread. *)
Inductive arrival :=
| Arrives (method : Method) (uri : Uri) (version : Version) (headers : HeaderMap)
          (body : incoming) (rest skipped : bytes)
| Refused (e : ParseError)
| Beyond.

(** The body in front of [all]. A body that is not buffered and is cut off by the end of
    the stream is taken for the whole, and so are the chunks in front of one that is cut
    off or malformed. Bodies that are cut off by a failure of the stream or cannot be
    allocated are beyond the reference. A chunked body that is dropped unread stays on the
    stream. *)
Definition body_split (fin : option io_error) (plan : body_plan) (all : bytes)
  : option (incoming * bytes * bytes) :=
  match plan with
  | PlanEmpty => Some (Sized [], all, all)
  | PlanBuffered len =>
      let rest := drop (N.to_nat len) all in
      if (len <=? N.of_nat (length all))%N && (len <=? isize_max)%N
      then Some (Announced len (take (N.to_nat len) all), rest, rest) else None
  | PlanStreamed len =>
      let rest := drop (N.to_nat len) all in
      if (len <=? isize_max)%N && ((len <=? N.of_nat (length all))%N || bool_decide (fin = None))
      then Some (Announced len (take (N.to_nat len) all), rest, rest) else None
  | PlanChunked => '(cs, rest) ← dechunk_all fuel all fin; Some (InChunks cs, rest, all)
  | PlanUntilClose => None
  end.

Definition cut_off (fin : option io_error) : ParseError :=
  Io (default (IoError UnexpectedEof (Message "failed to fill whole buffer")) fin).

Definition request_at (fin : option io_error) (bs : bytes) : arrival :=
  match split_head fuel [] bs fin with
  | inr e => Refused (Io e)
  | inl (head, rest) =>
      match request_head head with
      | inr e => Refused e
      | inl (method, uri, version, headers) =>
          match request_plan headers with
          | inr e => Refused e
          | inl plan =>
              match body_split fin plan rest, plan with
              | Some (body, rest, skipped), _ =>
                  Arrives method uri version headers body rest skipped
              | None, PlanBuffered _ => Refused (cut_off fin)
              | None, _ => Beyond
              end
          end
      end
  end.

(** A service as a function of the requests. Its response bodies are of any type [B],
    with a length and a text in each encoding. [app_reads]: the body of the request is
    read whole, by the service or while its response is written; otherwise it is dropped
    unread. *)
Record app_spec := {
  app_call : A -> Method -> Uri -> Version -> HeaderMap -> incoming ->
             A * (Response U C B + boxed_error);
  app_reads : A -> Method -> Uri -> Version -> HeaderMap -> incoming -> bool;
  app_continue : A -> Method -> Uri -> Version -> HeaderMap -> A * N;
  app_len : B -> option N;
  app_body : Encoding -> B -> bytes;
}.
Variable sp : app_spec.

(** The response to [Expect: 100-continue]. *)
Definition interim (status : N) : option bytes :=
  match response_framing HTTP_11 hm_new (Some 0%N) with
  | inl (FixedLength 0, headers) => Some (message_head (status_line HTTP_11 status) (hm_iter headers))
  | _ => None
  end.

Definition dated (time : N) (headers : HeaderMap) : HeaderMap :=
  if date_is_set headers then headers else date_insert time headers.

(** The response leaves the connection open. *)
Definition stays_open (encoding : Encoding) (headers : HeaderMap) : bool :=
  negb (bool_decide (encoding = CloseDelimited) || connection_has "close" headers).

(** What becomes of the connection after an answer: the next request, its end, or the
    handler of an upgrade *)
Inductive after_answer :=
| Continues
| Finishes
| Upgrades (upgrade : U).

Definition after_response (extensions : Extensions U C) (open : bool) : after_answer :=
  match ext_upgrade extensions with
  | Some upgrade => Upgrades upgrade
  | None => if open then Continues else Finishes
  end.

(** The answer of the service. *)
Definition respond (time : N) (app : A) (method : Method) (uri : Uri) (version : Version)
    (headers : HeaderMap) (body : incoming) : option (bytes * A * (after_answer + io_error)) :=
  match app_call sp app method uri version headers body with
  | (app, inr err) => Some ([], app, inr (IoError Other err))
  | (app, inl res) =>
      let keep := connection_has "keep-alive" headers in
      let sent := dated time (version_headers version keep (res_headers res)) in
      match response_framing version sent (app_len sp (res_body res)) with
      | inr e => Some ([], app, inr e)
      | inl (encoding, sent) =>
          Some (message_head (status_line version (res_status res)) (hm_iter sent) ++
                (if should_write_body method (res_status res)
                 then app_body sp encoding (res_body res) else []),
                app,
                inl (after_response (res_extensions res)
                       (stays_open encoding sent && negb (demands_close version headers))))
      end
  end.

(** With whether the body of the request was read. *)
Definition served (time : N) (app : A) (method : Method) (uri : Uri) (version : Version)
    (headers : HeaderMap) (body : incoming)
  : option (bytes * A * (after_answer + io_error) * bool) :=
  '(out, app', r) ← respond time app method uri version headers body;
  Some (out, app', r, app_reads sp app method uri version headers body).

Definition exchange (time : N) (app : A) (method : Method) (uri : Uri) (version : Version)
    (headers : HeaderMap) (body : incoming)
  : option (bytes * A * (after_answer + io_error) * bool) :=
  if expect_is_continue headers
  then
    let '(app, status) := app_continue sp app method uri version headers in
    text ← interim status;
    if (status =? STATUS_CONTINUE)%N
    then
      '(out, app, r, reads) ← served time app method uri version headers body;
      Some (text ++ out, app, r, reads)
    else Some (text, app, inl Continues, false)
  else served time app method uri version headers body.

(** The end of a connection: it is closed, fails, or goes to the handler of an upgrade with
    what is left of the stream. *)
Inductive ending :=
| Closed
| FailedWith (e : io_error)
| HandedOver (upgrade : U) (left : bytes).

(** All the bytes the server writes, how it ends, and the service after it. The
    clock shows [ts 0], [ts 1], .. at the answers. *)
Fixpoint reference (fin : option io_error) (n : nat) (ts : nat -> N) (app : A) (bs : bytes)
  : option (bytes * ending * A) :=
  match n with
  | O => None
  | S n =>
      match request_at fin bs with
      | Beyond => None
      | Refused ConnectionClosed => Some ([], Closed, app)
      | Refused e => Some ([], FailedWith (IoError Other (BoxedParse e)), app)
      | Arrives method uri version headers body rest skipped =>
          '(out, app, r, reads) ← exchange (ts 0) app method uri version headers body;
          let left := if reads : bool then rest else skipped in
          match r with
          | inr e => Some (out, FailedWith e, app)
          | inl Finishes => Some (out, Closed, app)
          | inl (Upgrades upgrade) => Some (out, HandedOver upgrade left, app)
          | inl Continues =>
              '(out', r, app) ← reference fin n (fun i => ts (S i)) app left;
              Some (out ++ out', r, app)
          end
      end
  end.
End reference.
Arguments after_answer : clear implicits.
Arguments Continues {U}.
Arguments Finishes {U}.
Arguments Upgrades {U} upgrade.
Arguments ending : clear implicits.
Arguments Closed {U}.
Arguments FailedWith {U} e.
Arguments HandedOver {U} upgrade left.
Arguments arrival : clear implicits.
Arguments arrival {_}.
Arguments app_spec {_} A U C B.
Arguments app_call {_ A U C B} a.
Arguments app_reads {_ A U C B} a.
Arguments app_continue {_ A U C B} a.
Arguments app_len {_ A U C B} a.
Arguments app_body {_ A U C B} a.

