(* ===== verification/StreamLaws.v ===== *)
(** * StreamLaws: the body of a request as the body of a response

    A body that is still on the stream, complete or cut off by the end of the stream: reading
    it whole, copying it and forwarding its chunks all leave the stream right behind it. *)
From stdpp Require Import base list gmap strings.
From Stdlib Require Import Strings.Byte NArith Lia.
From S2P Require Import Prelude Errors StdIo Buffered HttpApi Mpsc ReadQueue QueueLaws.
From S2P Require Import HttpBody Body BodyLaws Message MessageLaws ChunkedLaws Request.
From S2P Require Import RequestLaws Response ResponseLaws Upgrade Tls Connection ConnLaws.
From S2P Require Import Server Reference.

(** ** Copying by an invariant

    [P] says what is left to read, [Q] that the end was found. *)
Section copy_rule.
Context `{!HttpApi} {W R S : Type} `{!World W} `{!Read W R} `{!Write W S} `{!WriteLaws W S}.
Implicit Types (rd : R) (s : S) (w : W).

Definition reads_on (P : R -> W -> bytes -> Prop) (Q : R -> W -> Prop) : Prop :=
  forall rd w bs, P rd w bs ->
    wp (read DEFAULT_BUF_SIZE)
       (fun got '(rd', w') => rstep w w' /\
          match got with
          | [] => bs = [] /\ Q rd' w'
          | _ => exists rest, bs = got ++ rest /\ P rd' w' rest
          end) never (rd, w).

Lemma io_copy_rule (P : R -> W -> bytes -> Prop) (Q : R -> W -> Prop) n copied rd s w bs :
  reads_on P Q -> (forall rd w w' bs, P rd w bs -> wstep w w' -> P rd w' bs) ->
  P rd w bs -> length bs < n ->
  wp (io_copy n copied)
     (fun _ '(rd', (s', w')) => appended iostep s w bs s' w' /\ Q rd' w')
     (fun _ '(rd', (s', w')) => cut_short iostep s w bs s' w' /\ exists rest, P rd' w' rest)
     (rd, (s, w)).
Proof.
  intros Hread Hstable. revert copied rd s w bs.
  induction n as [|n IH]; intros copied rd s w bs HP Hn; [lia|].
  cbn [io_copy]. wp_step. apply wp_attempt, wp_zoom_rw.
  eapply wp_never_mono; [by apply Hread|]. intros got [rd1 w1] [Hw1 Hgot]. cbn [fst snd].
  pose proof (appended_rstep s w w1 Hw1) as Ha1. destruct got as [|x got].
  { destruct Hgot as [-> HQ]. apply wp_ret. by split. }
  destruct Hgot as (rest & -> & HP1). rewrite length_app in Hn. cbn [length] in Hn.
  wp_step. apply wp_zoom_r. eapply wp_mono; [apply write_all_appends| |].
  - intros [] [s2 w2] Ha2.
    pose proof (appended_trans iostep _ _ [] _ _ _ _ _ Ha1 (appended_io _ _ _ _ _ Ha2)) as Ha.
    eapply wp_mono; [apply (IH _ rd1 s2 w2 rest); [by eapply Hstable; [|apply Ha2]|lia]| |].
    + intros m [rd3 [s3 w3]] [Ha3 HQ]. split; [|done]. by eapply (appended_trans iostep).
    + intros e [rd3 [s3 w3]] [Hc3 HP3]. split; [|done]. by eapply (appended_cut_short iostep).
  - intros e [s2 w2] Hc2. split.
    + apply cut_short_app.
      by eapply (appended_cut_short iostep _ _ [] _ _ _ _ _ Ha1), cut_short_io.
    + exists rest. by eapply Hstable; [|apply Hc2].
Qed.
End copy_rule.

(** ** What is left of a body on its stream, in front of [rest] *)
Section streamed.
Context `{!HttpApi} `{!Fuel} {W R : Type} `{!World W} `{!BufRead W R} `{!Drop W R}
  `{!BufReadLaws W R}.
Implicit Types (w : W) (it : ChunkedReader R).
Variables (rest : bytes) (fin : option io_error).
Abbreviation chunks_left := (chunks_left rest fin).
Abbreviation chunks_done := (chunks_done rest fin).

(** *** Reading them with a [BodyReader] *)
Definition reader_left (rd : BodyReader (ChunkedReader R) R) w (bs : bytes) : Prop :=
  match rd with
  | BRIter it (Some cursor) => exists cs, chunks_left it w cs /\ S (length cs) < fuel /\
                                          bs = cursor_rest cursor ++ concat cs
  | BRIter it None => bs = [] /\ chunks_done it w /\ fuel <> 0
  | BRBuffered cursor => bs = cursor_rest cursor /\ passed R w rest fin
  | BRReader tk => tail_holds rest fin tk w bs None
  end.

Definition reader_done (rd : BodyReader (ChunkedReader R) R) w : Prop :=
  match rd with
  | BRIter it _ => chunks_done it w
  | BRBuffered _ => passed R w rest fin
  | BRReader tk => tail_holds rest fin tk w [] None
  end.

Lemma iter_read_left k n it cursor w cs :
  n <> 0 -> chunks_left it w cs -> S (length cs) < k ->
  wp (iter_read_loop k n (Some cursor))
     (fun '(got, leftover) '(it', w') => rstep w w' /\
        match got, leftover with
        | [], None => cursor_rest cursor ++ concat cs = [] /\ chunks_done it' w'
        | _ :: _, Some cursor' => exists cs', chunks_left it' w' cs' /\ length cs' <= length cs /\
            cursor_rest cursor ++ concat cs = got ++ cursor_rest cursor' ++ concat cs'
        | _, _ => False
        end) never (it, w).
Proof.
  intros Hn. revert it cursor w cs. induction k as [|k IH]; intros it cursor w cs Hit Hk; [lia|].
  cbn [iter_read_loop]. destruct (take n (cursor_rest cursor)) as [|x got] eqn:Hgot.
  - assert (cursor_rest cursor = []) as ->.
    { destruct n; [done|]. by destruct (cursor_rest cursor). }
    wp_step. eapply wp_never_mono; [by apply data_next_left|]. intros o [it1 w1] [Hw1 Ho].
    destruct cs as [|c cs]; destruct Ho as [-> Hit1].
    + destruct k as [|k]; [lia|]. by apply wp_ret.
    + cbn [length] in Hk. eapply wp_never_mono; [apply (IH it1 (Cursor_new c) w1 cs Hit1); lia|].
      intros [got leftover] [it2 w2] [Hw2 Hout]. split; [by etrans|].
      destruct got, leftover; try done. destruct Hout as (cs' & Hit2 & Hl & Heq).
      exists cs'. split; [done|]. split; [cbn; lia|done].
  - apply wp_ret. split; [done|]. exists cs. split_and!; [done|done|].
    rewrite <-Hgot, app_assoc. cbn [cursor_rest]. by rewrite take_drop.
Qed.

Lemma reader_reads_on : reads_on reader_left reader_done.
Proof.
  intros [cursor|it leftover|tk] w bs; cbn [reader_left].
  - intros [-> Hp]. unfold wp, read, BodyReader_read, read, Cursor_read. cbn [fst snd].
    destruct (take _ (cursor_rest cursor)) as [|x got] eqn:Hgot; split; [done| |done|].
    + split; [|done]. destruct (cursor_rest cursor); [done|]. by unfold DEFAULT_BUF_SIZE in Hgot.
    + exists (drop DEFAULT_BUF_SIZE (cursor_rest cursor)). rewrite <-Hgot, take_drop. by split.
  - intros Hl. assert (Hloop : wp (iter_read_loop fuel DEFAULT_BUF_SIZE leftover)
      (fun '(got, leftover') '(it', w') => rstep w w' /\
        match got with
        | [] => bs = [] /\ chunks_done it' w'
        | _ => exists rest, bs = got ++ rest /\ reader_left (BRIter it' leftover') w' rest
        end) never (it, w)).
    { destruct leftover as [cursor|].
      - destruct Hl as (cs & Hit & Hk & ->).
        eapply wp_never_mono; [by apply (iter_read_left fuel DEFAULT_BUF_SIZE it cursor w cs)|].
        intros [got leftover] [it' w'] [Hw Hout]. split; [done|].
        destruct got, leftover as [cursor'|]; try done.
        destruct Hout as (cs' & Hit' & Hl & ->). eexists. split; [done|]. exists cs'.
        split; [done|]. split; [lia|done].
      - destruct Hl as (-> & Hd & Hf). destruct fuel; [done|]. by apply wp_ret. }
    unfold wp, read, BodyReader_read in *.
    destruct (iter_read_loop _ _ _ _) as [[got l'] [it' w']|e [it' w']| | |]; [|done..].
    destruct Hloop as [Hw Hout]. split; [done|]. by destruct got.
  - intros Ht. pose proof (tail_read_holds rest fin tk w bs None DEFAULT_BUF_SIZE ltac:(done) Ht) as Hrd.
    unfold wp, read, BodyReader_read in *. unfold read in *.
    destruct (Take_read _ (tk, w)) as [got [tk' w']|e [tk' w']| | |]; [| |done..].
    + destruct Hrd as (Hw & rest' & -> & _ & Ht' & Hnil). split; [done|]. destruct got as [|x got].
      * destruct (Hnil eq_refl) as [Hr _]. cbn in Hr. subst rest'. by split.
      * by exists rest'.
    + by destruct Hrd as (_ & _ & ? & _).
Qed.

Lemma reader_left_wstep rd w w' bs :
  reader_left rd w bs -> wstep w w' -> reader_left rd w' bs.
Proof.
  destruct rd as [cursor|it [cursor|]|tk]; cbn [reader_left]; intros Hl Hw.
  - destruct Hl as [-> Hp]. split; [done|]. by eapply passed_wstep.
  - destruct Hl as (cs & Hit & Hl). exists cs. split; [by eapply chunks_left_wstep|done].
  - destruct Hl as (-> & Hd & Hf). split_and!; [done| |done].
    exact (holds_wstep (chunked_reader_0 it) w w' rest fin Hd Hw).
  - destruct Hl as (_ & Hr & Hl). split_and!; [done| |done].
    exact (holds_wstep (take_inner tk) w w' _ _ Hr Hw).
Qed.

(** A reader that is let go of passes its stream on. *)
Definition let_go w : Prop := exists bs, passed R w bs fin.

Lemma reader_done_drop E (rd : BodyReader (ChunkedReader R) R) w :
  reader_done rd w ->
  wp (drop_value (E := E) rd) (fun _ w' => rstep w w' /\ passed R w' rest fin) never w.
Proof.
  destruct rd as [cursor|[r] leftover|[r limit]]; cbn [reader_done].
  - intros Hp. by apply wp_ret.
  - exact (fun Hr => drop_holds E r w rest fin Hr).
  - intros (_ & Hr & _). exact (drop_holds E r w rest fin Hr).
Qed.

Lemma reader_left_drop E (rd : BodyReader (ChunkedReader R) R) w bs :
  reader_left rd w bs ->
  wp (drop_value (E := E) rd) (fun _ w' => rstep w w' /\ let_go w') never w.
Proof.
  assert (Hdrop : forall (r : R) all, holds r w all fin ->
    wp (drop_value (E := E) r) (fun _ w' => rstep w w' /\ let_go w') never w).
  { intros r all Hr. eapply wp_never_mono; [by apply (drop_holds E r w all fin)|].
    intros [] w' [Hw Hp]. split; [done|by exists all]. }
  destruct rd as [cursor|[r] [cursor|]|[r limit]]; cbn [reader_left].
  - intros [_ Hp]. apply wp_ret. split; [done|by exists rest].
  - intros (cs & (n & all & Hr & _) & _). by eapply Hdrop.
  - intros (_ & Hr & _). by eapply Hdrop.
  - intros (_ & Hr & _). by eapply Hdrop.
Qed.

(** *** Forwarding them *)
Lemma chunk_iterator_left it w cs :
  chunks_left it w cs ->
  wp (next (I := ChunkIterator (ChunkedReader R) R))
     (fun o '(ci, w') => rstep w w' /\
        match cs with
        | [] => o = None /\ ci = MkChunkIterator None /\ passed R w' rest fin
        | c :: cs => o = Some (inl (Data c)) /\ exists it',
            ci = MkChunkIterator (Some (CIIter it')) /\ chunks_left it' w' cs
        end) never (MkChunkIterator (Some (CIIter it)), w).
Proof.
  intros Hit. pose proof (next_left rest fin it w cs Hit) as Hn.
  unfold wp in *. unfold next at 1. cbn [ChunkIterator_iter chunk_iterator_next].
  unfold chunk_iterator_next. cbn [chunk_iterator_0].
  destruct (next (it, w)) as [o [it' w']|e [it' w']| | |]; [|done..].
  destruct Hn as [Hw Ho]. destruct cs as [|c cs]; destruct Ho as [-> Hit'].
  - destruct it' as [r]. pose proof (drop_holds io_error r w' rest fin Hit') as Hd.
    unfold zoom_r, bind, wp in *. cbn [fst snd] in *.
    change (drop_value (E := io_error) (MkChunkedReader r) w') with (drop_value (E := io_error) r w').
    destruct (drop_value r w') as [[] w''|e w''| | |]; [|done..]. cbn.
    destruct Hd as [Hw' Hp]. split_and!; [by etrans|done|done|done].
  - split; [done|]. split; [done|]. by exists it'.
Qed.

Context {S : Type} `{!Write W S} `{!WriteLaws W S}.
Implicit Types (s : S).

Lemma write_chunks_left n it trailers s w cs :
  chunks_left it w cs -> length cs < n ->
  wp (write_chunks n (MkChunkIterator (R := R) (Some (CIIter it))) trailers)
     (fun tr '(s', w') => tr = trailers /\
        appended iostep s w (chunks_text ((fun c => inl (Data c)) <$> cs)) s' w' /\
        passed R w' rest fin)
     (fun _ '(s', w') => cut_short iostep s w (chunks_text ((fun c => inl (Data c)) <$> cs)) s' w' /\
        let_go w') (s, w).
Proof.
  revert it s w cs. induction n as [|n IH]; intros it s w cs Hit Hn; [lia|].
  cbn [write_chunks]. wp_steps. eapply wp_never_mono; [by apply chunk_iterator_left|].
  intros o [ci w1] [Hw1 Ho]. pose proof (appended_rstep s w w1 Hw1) as Ha1. cbn [fst snd].
  destruct cs as [|c cs].
  { destruct Ho as (-> & -> & Hp). wp_steps. apply wp_ret. by split_and!. }
  destruct Ho as (-> & it1 & -> & Hit1). cbn [length] in Hn. wp_step. wp_step.
  eapply wp_mono; [apply write_chunk_spec| |].
  - intros [] [s2 w2] Ha2.
    pose proof (appended_trans iostep _ _ [] _ _ _ _ _ Ha1 (appended_io _ _ _ _ _ Ha2)) as Ha.
    eapply wp_mono; [apply (IH it1 s2 w2 cs); [by eapply chunks_left_wstep; [|apply Ha2]|lia]| |].
    + intros tr [s3 w3] (-> & Ha3 & Hp). split_and!; [done| |done].
      by eapply (appended_trans iostep).
    + intros e [s3 w3] [Hc3 Hl]. split; [|done]. by eapply (appended_cut_short iostep).
  - intros e [s2 w2] Hc2. wp_steps. pose proof Hc2 as (_ & Hw2 & _).
    destruct (chunks_left_wstep rest fin _ _ _ _ Hit1 Hw2) as (m & all & Hr & _). destruct it1 as [r].
    eapply wp_never_mono; [exact (drop_holds _ r w2 all fin Hr)|]. intros [] w3 [Hw3 Hp].
    split; [|by exists all]. eapply cut_short_rstep; [|exact Hw3]. apply cut_short_app.
    by eapply (appended_cut_short iostep _ _ [] _ _ _ _ _ Ha1), cut_short_io.
Qed.
End streamed.

(** ** The body that was made of one the reference knows *)
Section whole.
Context `{!HttpApi} `{!Fuel} {W R : Type} `{!World W} `{!BufRead W R} `{!Drop W R}
  `{!BufReadLaws W R}.
Implicit Types (w : W) (r : R) (b : Body (ChunkedReader R) R).
Variable (fin : option io_error).

(** [body] is in front of [rest] and, while it is unread, the stream is let go of in
    front of [skipped]. *)
Inductive whole (w : W) : Body (ChunkedReader R) R -> incoming -> bytes -> bytes -> Prop :=
| whole_empty rest :
    passed R w rest fin -> whole w Body_empty (Sized []) rest rest
| whole_buffered bs rest :
    passed R w rest fin -> (N.of_nat (length bs) <= isize_max)%N ->
    whole w (Body_from_vec bs) (Sized bs) rest rest
| whole_streamed r len bs rest :
    holds r w (bs ++ rest) fin -> (len <= isize_max)%N -> length bs <= N.to_nat len ->
    (length bs = N.to_nat len \/ (rest = [] /\ fin = None)) ->
    S (length (bs ++ rest)) < fuel ->
    whole w (Body_from_reader r (Some len)) (Announced len bs) rest rest
| whole_chunks r cs rest all :
    holds r w all fin -> S (length all) < fuel -> dechunk_all fuel all fin = Some (cs, rest) ->
    whole w (Body_from_iter (MkChunkedReader r)) (InChunks cs) rest all.

Lemma made_whole plan b w all body rest skipped :
  body_made plan b w all fin -> body_split fin plan all = Some (body, rest, skipped) ->
  S (length all) < fuel -> whole w b body rest skipped.
Proof.
  intros Hb Hs Hl. destruct plan as [|len|len| |]; cbn in Hs; try done.
  - destruct (dechunk_all _ _ _) as [[cs rest']|] eqn:Hdc; [|done]. injection Hs as <- <- <-.
    destruct Hb as (r & -> & Hr). by constructor.
  - destruct (N.leb_spec len (N.of_nat (length all))); [|done].
    destruct (N.leb_spec len isize_max); [|done]. injection Hs as <- <- <-.
    destruct Hb as (_ & -> & Hp).
    assert (Hlen : length (take (N.to_nat len) all) = N.to_nat len) by (rewrite length_take; lia).
    replace (Announced len (take (N.to_nat len) all)) with (Sized (take (N.to_nat len) all))
      by (rewrite Hlen; by rewrite N2Nat.id).
    constructor; [done|lia].
  - destruct (N.leb_spec len isize_max); [|done].
    destruct ((len <=? _)%N || _) eqn:Hor; [|done]. injection Hs as <- <- <-.
    destruct Hb as (r & -> & Hr). apply orb_prop in Hor.
    constructor; rewrite ?take_drop, ?length_take; [done|done|lia| |done].
    destruct (N.leb_spec len (N.of_nat (length all))) as [|Hlt]; [left; lia|].
    destruct Hor as [|Hfin]; [done|]. apply bool_decide_eq_true in Hfin.
    right. split; [apply drop_ge; lia|done].
  - injection Hs as <- <- <-. destruct Hb as (-> & Hp). by constructor.
Qed.

(** *** Dropping it passes the stream on behind it, or in front of its chunks *)
Lemma whole_drop E b w body rest skipped :
  whole w b body rest skipped ->
  wp (drop_value (E := E) b) (fun _ w' => rstep w w' /\ passed R w' skipped fin) never w.
Proof.
  destruct 1 as [rest Hp|bs rest Hp Hv|r len bs rest Hr Hm Hle Hor Hl|r cs rest all Hr Hl Hd].
  - by apply wp_ret.
  - by apply wp_ret.
  - unfold isize_max in Hm. rewrite length_app in Hl.
    eapply wp_never_mono.
    { apply (body_drop_reader_spec E r _ w (bs ++ rest) fin Hr); [lia| |rewrite length_app; lia].
      rewrite length_app. destruct Hor as [|[_ ?]]; [left; lia|by right]. }
    intros [] w' [Hw Hp]. split; [done|].
    destruct Hor as [Hlen|[-> _]]; [by rewrite <-Hlen, drop_app_length in Hp|].
    by rewrite app_nil_r, drop_ge in Hp by done.
  - exact (drop_holds E r w all fin Hr).
Qed.

(** *** The three ways to consume it pass the stream on behind it *)
Lemma tail_take (r : R) w len bs rest :
  holds r w (bs ++ rest) fin -> (len <= isize_max)%N -> length bs <= N.to_nat len ->
  (length bs = N.to_nat len \/ (rest = [] /\ fin = None)) ->
  tail_holds rest fin (Build_Take r (Some (wrap64 len))) w bs None.
Proof.
  intros Hr Hm Hle Hor. unfold isize_max in Hm. rewrite wrap64_id by lia.
  split_and!; [done|done|]. by eexists.
Qed.

Lemma whole_into_bytes b w body rest skipped :
  whole w b body rest skipped ->
  wp (body_into_bytes b)
     (fun got w' => rstep w w' /\ got = in_bytes body /\ passed R w' rest fin) never w.
Proof.
  destruct 1 as [rest Hp|bs rest Hp Hv|r len bs rest Hr Hm Hle Hor Hl|r cs rest all Hr Hl Hd].
  - by apply wp_ret.
  - by apply wp_ret.
  - unfold body_into_bytes, unwrap_inner, Body_from_reader. cbn [body_0 in_bytes]. wp_steps.
    apply wp_alloc_vec; [done|]. wp_steps. rewrite length_app in Hl.
    eapply wp_mono.
    + apply (read_to_end_spec (ReadLaws0 := Take_tail_laws rest fin) fuel _ w bs None);
        [by apply tail_take|lia].
    + intros got [tk w1] (Hw1 & _ & -> & Htk). wp_step.
      eapply wp_never_mono; [exact (drop_holds (ReadLaws := Take_tail_laws rest fin) _ tk w1 [] None Htk)|].
      intros [] w2 [Hw2 Hp]. apply wp_ret. by split; [etrans|].
    + by intros e [tk w1] (_ & _ & ?).
  - eapply chunked_body_passes; [exact Hr|lia|exact Hd].
Qed.

Lemma whole_into_reader b w body rest skipped :
  whole w b body rest skipped -> 1 < fuel ->
  wp (body_into_reader b)
     (fun rd w' => rstep w w' /\ reader_left rest fin rd w' (in_bytes body)) never w.
Proof.
  intros Hb Hf. destruct Hb as [rest Hp|bs rest Hp Hv|r len bs rest Hr Hm Hle Hor Hl|r cs rest all Hr Hl Hd].
  - by apply wp_ret.
  - by apply wp_ret.
  - apply wp_ret. split; [done|]. by apply tail_take.
  - unfold body_into_reader, unwrap_inner, Body_from_iter. cbn [body_0 in_bytes]. wp_steps.
    pose proof (dechunk_all_length _ _ _ _ _ Hd) as [_ Hcs].
    eapply wp_never_mono; [apply (data_next_left rest fin (MkChunkedReader r) w cs)|].
    { exists fuel, all. split_and!; [done|lia|done]. }
    intros o [it w1] [Hw1 Ho]. apply wp_ret. split; [done|].
    destruct cs as [|c cs]; destruct Ho as [-> Hit]; cbn.
    + split_and!; [done|done|lia].
    + exists cs. cbn [length] in Hcs. split_and!; [done|lia|done].
Qed.

(** *** It is the body of a message *)
Definition incoming_len (body : incoming) : option N :=
  match body with Announced len _ => Some len | InChunks _ => None end.

Lemma whole_len b w body rest skipped :
  whole w b body rest skipped -> body_len b = incoming_len body.
Proof.
  destruct 1 as [rest Hp|bs rest Hp Hv|r len bs rest Hr Hm Hle Hor Hl|r cs rest all Hr Hl Hd]; try done;
    cbn; unfold isize_max in *; by rewrite wrap64_id by lia.
Qed.

Definition incoming_text (encoding : Encoding) (body : incoming) : bytes :=
  match encoding with
  | Chunked => encode_chunks ((fun c => inl (Data c)) <$>
                 match body with Announced _ bs => [bs] | InChunks cs => cs end)
  | _ => in_bytes body
  end.

Context {S : Type} `{!Write W S} `{!WriteLaws W S}.
Implicit Types (s : S).

Lemma whole_copy b s w body rest skipped :
  whole w b body rest skipped -> length (in_bytes body) < fuel -> 1 < fuel ->
  wp (let! reader := zoom_r (into_reader b) in
      let! (_, reader) := borrow_beside (io_copy fuel 0) reader in
      zoom_r (drop_value reader))
     (fun _ '(s', w') => appended iostep s w (in_bytes body) s' w' /\ passed R w' rest fin)
     (fun _ '(s', w') => cut_short iostep s w (in_bytes body) s' w' /\ let_go (R := R) fin w') (s, w).
Proof.
  intros Hb Hl Hf. wp_steps. eapply wp_never_mono; [by eapply whole_into_reader|].
  intros rd w1 [Hw1 Hrd]. unfold borrow_beside. wp_steps.
  pose proof (appended_rstep s w w1 Hw1) as Ha1.
  eapply wp_mono.
  { apply (io_copy_rule (reader_left rest fin) (reader_done rest fin) fuel 0 rd s w1 (in_bytes body));
      [apply reader_reads_on|intros; by eapply reader_left_wstep|exact Hrd|exact Hl]. }
  - intros n [rd' [s' w']] [Ha Hd]. cbn [fst snd]. apply wp_zoom_r.
    eapply wp_never_mono; [by eapply reader_done_drop|]. intros [] w2 [Hw2 Hp]. split; [|done].
    rewrite <-(app_nil_r (in_bytes body)). eapply (appended_trans iostep); [|by apply appended_rstep].
    by eapply (appended_trans iostep _ _ [] _ _ _ _ _ Ha1).
  - intros e [rd' [s' w']] [Hc [left Hd]]. cbn [fst snd]. apply wp_zoom_r.
    eapply wp_never_mono; [by eapply reader_left_drop|]. intros [] w2 [Hw2 Hp]. split; [|done].
    eapply cut_short_rstep; [|exact Hw2]. by eapply (appended_cut_short iostep _ _ [] _ _ _ _ _ Ha1).
Qed.

Lemma items_no_trailers (cs : list bytes) :
  fold_left item_trailers ((fun c => inl (Data c)) <$> cs) hm_new = hm_new.
Proof. induction cs as [|c cs IH]; [done|exact IH]. Qed.

Lemma whole_written encoding b s w body rest skipped :
  whole w b body rest skipped -> length (in_bytes body) < fuel -> 1 < fuel ->
  (encoding = Chunked -> exists cs, body = InChunks cs) ->
  wp (write_body encoding b)
     (fun _ '(s', w') => appended iostep s w (incoming_text encoding body) s' w' /\
        passed R w' rest fin)
     (fun _ '(s', w') => cut_short iostep s w (incoming_text encoding body) s' w' /\
        let_go (R := R) fin w') (s, w).
Proof.
  intros Hb Hl Hf Hc. destruct encoding as [len| |]; [destruct (len <? 1024)%N eqn:Hlen| |].
  - unfold write_body. rewrite Hlen. wp_steps.
    eapply wp_never_mono; [by eapply whole_into_bytes|]. intros got w1 (Hw1 & -> & Hp).
    eapply wp_mono; [by apply (write_read_bytes (in_bytes body) s w w1)| |].
    + intros [] [s2 w2] [Ha Hw]. split; [done|]. by eapply passed_wstep.
    + intros e [s2 w2] [Ha Hw]. split; [done|]. exists rest. by eapply passed_wstep.
  - unfold write_body. rewrite Hlen. by eapply whole_copy.
  - destruct (Hc eq_refl) as [cs ->]. inversion Hb as [| | |r cs' rest' all Hr Hl' Hd]; subst.
    unfold write_body. wp_step. apply wp_zoom_r, wp_ret. wp_step.
    pose proof (dechunk_all_length _ _ _ _ _ Hd) as [_ Hcs].
    eapply wp_mono; [apply (write_chunks_left rest fin fuel (MkChunkedReader r) hm_new s w cs)| |].
    + exists fuel, skipped. split_and!; [done|lia|done].
    + lia.
    + intros tr [s2 w2] (-> & Ha & Hp). eapply wp_mono; [apply write_end_spec| |].
      * intros [] [s3 w3] Ha3. cbn [incoming_text]. rewrite encode_chunks_end, items_no_trailers.
        split; [by eapply (appended_trans iostep), appended_io|]. eapply passed_wstep; [exact Hp|apply Ha3].
      * intros e [s3 w3] Hc3. cbn [incoming_text]. rewrite encode_chunks_end, items_no_trailers.
        split; [by eapply (appended_cut_short iostep), cut_short_io|].
        exists rest. eapply passed_wstep; [exact Hp|apply Hc3].
    + intros e [s2 w2] [Hc2 Hg]. split; [|done]. cbn [incoming_text]. rewrite encode_chunks_end.
      by apply cut_short_app.
  - by eapply whole_copy.
Qed.
End whole.
