(* ===== verification/IncomingLaws.v ===== *)
(** * IncomingLaws: the body of a request, on its way through the read queue

    The body owns the handle of the reader. When it is dropped or was read whole, the
    handle has passed the reader on, at a known position. *)
From stdpp Require Import base list gmap strings.
From Stdlib Require Import Strings.Byte NArith Lia.
From S2P Require Import Prelude Errors StdIo Buffered HttpApi Mpsc ReadQueue QueueLaws.
From S2P Require Import HttpBody Body BodyLaws Message MessageLaws ChunkedLaws Request.
From S2P Require Import RequestLaws Response ResponseLaws Upgrade Tls Connection ConnLaws.
From S2P Require Import Server Reference StreamLaws.

Section incoming.
Context `{!HttpApi} `{!Fuel} {W C : Type}.
Context `{!World W} `{!Conn W C} `{!ConnLaws W C} `{!HasStore W (BufReader C)}
  `{!StoreWorld W (BufReader C)} `{!ConnStore W C}.
Abbreviation R := (BufReader C).
Implicit Types (w : W).

(** The body of a request that was read by the handle [k]: [body], and the handle is
    passed on, at the latest when the body is dropped, with [rest] to come when it was
    read, and [skipped] when not. *)
Definition incoming_body (k : nat) (b : IncomingBody C) (w : W) (body : incoming)
    (rest skipped : bytes) (fin : option io_error) : Prop :=
  exists plan all, body_split fin plan all = Some (body, rest, skipped) /\ S (length all) < fuel /\
    body_made (World0 := handle_world k) (BufReadLaws0 := queued_bufread_laws k) plan b w all fin.

(** The handle [k] did its reading and passed the reader on. *)
Definition handed (k : nat) (w w' : W) (rest : bytes) (fin : option io_error) : Prop :=
  hstep (R := R) k w w' /\ q_passed (R := R) k w' rest fin.

(** The handle [k] passed a reader on, wherever it stands. *)
Definition released (k : nat) w : Prop :=
  exists r : R, chan_at w k = Some (Build_chan [r] false true).

Lemma passed_released k w rest fin : q_passed (R := R) k w rest fin -> released k w.
Proof. intros (r & Hk & _). by exists r. Qed.

Lemma passed_wstep_q k w w' rest fin :
  q_passed (R := R) k w rest fin -> wstep w w' -> q_passed (R := R) k w' rest fin.
Proof. intros Hp. exact (passed_wstep (ReadLaws := queued_read_laws k) w w' rest fin Hp). Qed.

Lemma released_wstep k w w' : released k w -> wstep w w' -> released k w'.
Proof.
  intros (r & Hk) Hw. exists r. unfold chan_at, the_store in *. by rewrite (wstep_store w w').
Qed.

(** *** Splitting the stream *)
Lemma body_split_length fin plan all body rest skipped :
  body_split fin plan all = Some (body, rest, skipped) ->
  length (in_bytes body) + length rest <= length all /\ length skipped <= length all.
Proof.
  destruct plan as [|len|len| |]; cbn; try done.
  - destruct (dechunk_all fuel all fin) as [[cs rest']|] eqn:Hdc; [|done].
    intros [= <- <- <-]. apply dechunk_all_length in Hdc. cbn. lia.
  - destruct (_ && _); [|done]. intros [= <- <- <-]. cbn. rewrite length_take, length_drop. lia.
  - destruct (_ && _); [|done]. intros [= <- <- <-]. cbn. rewrite length_take, length_drop. lia.
  - intros [= <- <- <-]. cbn. lia.
Qed.

(** *** The channel of the next handle *)

(** Its own channel is fresh. *)
Definition waits (k : nat) w : Prop :=
  chan_at (R := R) w (S k) = Some (Build_chan [] true true) /\ chan_count (R := R) w = S (S k).

Lemma waits_hstep k w w' : waits k w -> hstep (R := R) k w w' -> waits k w'.
Proof. intros [Hk1 Hk2] (_ & Hi & Hc). split; [rewrite Hi by lia; done|by rewrite Hc]. Qed.

Lemma waits_wstep k w w' : waits k w -> wstep w w' -> waits k w'.
Proof.
  intros Hk Hw. unfold waits, chan_at, chan_count, the_store in *. by rewrite (wstep_store w w').
Qed.

(** The handle [k] reads while output is written. *)
Definition ostep (k : nat) : relation W := iostep (H := handle_world (R := R) k).

Lemma ostep_hstep k w w' : hstep (R := R) k w w' -> ostep k w w'.
Proof. intros Hw. by apply (rstep_io (H := handle_world k)). Qed.
Lemma ostep_wstep k w w' : wstep w w' -> ostep k w w'.
Proof. intros Hw. by apply (wstep_io (H := handle_world k)). Qed.

Lemma waits_ostep k w w' : waits k w -> ostep k w w' -> waits k w'.
Proof.
  intros Hk Hw. induction Hw as [|w1 w2 w3 [Hw|Hw] _ IH]; [done|..]; apply IH;
    [by eapply waits_hstep|by eapply waits_wstep].
Qed.

(** *** Steps that do not concern the handle *)
Lemma incoming_body_same k b w w' body rest skipped fin :
  (forall i, i <= k -> chan_at (R := R) w' i = chan_at w i) ->
  (forall (r : R) bs fin, holds r w bs fin -> holds r w' bs fin) ->
  incoming_body k b w body rest skipped fin -> incoming_body k b w' body rest skipped fin.
Proof.
  intros Hi Hh (plan & all & Hs & Hl & Hb). exists plan, all. split_and!; [done|done|].
  assert (Hpass : forall rest, q_passed (R := R) k w rest fin -> q_passed (R := R) k w' rest fin).
  { intros rest' (r & Hk & Hr). exists r. rewrite Hi by lia. auto. }
  assert (Hq : forall q, q_holds (R := R) k q w all fin -> q_holds (R := R) k q w' all fin).
  { intros q [[Hn Hk] Hrd]. split; [split; [done|by rewrite Hi by lia]|].
    unfold with_reader in *. destruct (qr_reader q) as [[r|c]|]; [auto| |done].
    destruct Hrd as (Hlt & r & a & Hc & Hr). split; [done|]. exists r, a.
    rewrite Hi by lia. auto. }
  destruct plan; cbn in *.
  - destruct Hb as (r & ? & ?). eauto.
  - destruct Hb as (? & ? & ?). eauto.
  - destruct Hb as (r & ? & ?). eauto.
  - destruct Hb as (r & ? & ?). eauto.
  - destruct Hb as (? & ?). eauto.
Qed.

Lemma incoming_body_wstep k b w w' body rest skipped fin :
  incoming_body k b w body rest skipped fin -> wstep w w' ->
  incoming_body k b w' body rest skipped fin.
Proof.
  intros Hb Hw. apply (incoming_body_same k b w w'); [| |done].
  - intros i _. unfold chan_at, the_store. by rewrite (wstep_store w w').
  - intros r bs fin' Hr. by apply (holds_wstep r w w').
Qed.

(** *** Consuming the body *)
Definition whole_at (k : nat) (fin : option io_error) w (b : IncomingBody C) (body : incoming)
    (rest skipped : bytes) : Prop :=
  whole (World0 := handle_world k) (BufReadLaws0 := queued_bufread_laws k) fin w b body rest skipped.

Lemma incoming_whole k (b : IncomingBody C) w body rest skipped fin :
  incoming_body k b w body rest skipped fin -> whole_at k fin w b body rest skipped.
Proof.
  intros (plan & all & Hs & Hl & Hb).
  by apply (made_whole (World0 := handle_world k) (BufReadLaws0 := queued_bufread_laws k) fin
              plan b w all).
Qed.

Lemma incoming_length k (b : IncomingBody C) w body rest skipped fin :
  incoming_body k b w body rest skipped fin -> length (in_bytes body) < fuel /\ 1 < fuel.
Proof.
  intros (plan & all & Hs & Hl & _). apply body_split_length in Hs. lia.
Qed.

(** Dropping a body passes the reader on behind it, or in front of its chunks. *)
Lemma drop_incoming E k (b : IncomingBody C) w body rest skipped fin :
  incoming_body k b w body rest skipped fin ->
  wp (drop_value (E := E) b) (fun _ w' => handed k w w' skipped fin) never w.
Proof.
  intros Hb. exact (whole_drop (World0 := handle_world k) (BufReadLaws0 := queued_bufread_laws k)
    fin E b w body rest skipped (incoming_whole _ _ _ _ _ _ _ Hb)).
Qed.

(** Reading a body whole passes the reader on behind it. *)
Lemma into_bytes_incoming k (b : IncomingBody C) w body rest skipped fin :
  incoming_body k b w body rest skipped fin ->
  wp (into_bytes b) (fun got w' => handed k w w' rest fin /\ got = in_bytes body) never w.
Proof.
  intros Hb%incoming_whole.
  eapply wp_never_mono; [exact (whole_into_bytes (World0 := handle_world k)
    (BufReadLaws0 := queued_bufread_laws k) fin b w body rest skipped Hb)|].
  by intros got w' (Hw & -> & Hp).
Qed.
End incoming.

(** ** What the body of a request does not touch

    Dropping it reads and closes the connection and uses the channels of the readers; any
    [I] that this keeps is kept. *)
Section keeps.
Context `{!HttpApi} `{!Fuel} {W C : Type} `{!Conn W C} `{!HasStore W (BufReader C)}.
Context (I : W -> Prop).
Hypothesis read_keeps : forall n, preserves (fun st => I st.2) (read (W := W) (R := C) n).
Hypothesis drop_keeps : forall E (c : C), preserves I (drop_value (E := E) c).
Hypothesis store_keeps : forall (s : store (BufReader C)) w, I w -> I (set_store s w).
Abbreviation R := (BufReader C).

(** A method of a reader *)
Definition keeps {T E A} (m : ST (T * W) E A) : Prop := preserves (fun st => I st.2) m.

Lemma keeps_zoom_r {T E A} (m : ST W E A) : preserves I m -> keeps (T := T) (zoom_r m).
Proof.
  intros Hm [t w] Hw. specialize (Hm w Hw). unfold zoom_r. cbn [fst snd]. by destruct (m w).
Qed.

Lemma buf_read_keeps_I n : keeps (read (R := R) n).
Proof.
  assert (Hin : forall n, keeps (read_inner (T := C) n)).
  { intros n' [r w] Hw. pose proof (read_keeps n' (br_inner r, w) Hw) as Hr.
    unfold read_inner. cbn [fst snd].
    by destruct (read n' (br_inner r, w)) as [got [c w']|e [c w']| | |]. }
  unfold read, BufReader_read. apply preserves_bind; [apply preserves_get_state|]. intros st.
  destruct (_ && _); [apply Hin|]. apply preserves_bind.
  - intros [r w] Hw. unfold buf_fill. cbn [fst]. destruct (br_buf r); [|done].
    specialize (Hin DEFAULT_BUF_SIZE (r, w) Hw).
    by destruct (read_inner _ (r, w)) as [got [c w']|e [c w']| | |].
  - intros avail. apply preserves_bind; [by intros [r w] Hw|]. intros _. apply preserves_ret.
Qed.

(** *** The channels *)
Lemma send_keeps E s (r : R) : preserves I (send (E := E) s r).
Proof.
  intros w Hw. unfold send. destruct (_ !! _) as [c|]; [|done].
  destruct (receiver_alive c); [|done]. by apply store_keeps.
Qed.

Lemma recv_unwrap_keeps E (c : Receiver R) : preserves I (recv_unwrap (E := E) c).
Proof.
  apply preserves_bind; [|intros [r|]; [apply preserves_ret|apply preserves_stuck]].
  intros w Hw. unfold recv. destruct (_ !! _) as [[[|v q] [] ?]|]; try done; by apply store_keeps.
Qed.

Lemma drop_sender_keeps E (s : Sender R) : preserves I (drop_sender (E := E) s).
Proof. intros w Hw. unfold drop_sender. destruct (_ !! _); [by apply store_keeps|done]. Qed.

Lemma drop_receiver_keeps E (c : Receiver R) : preserves I (drop_receiver (E := E) c).
Proof.
  intros w Hw. unfold drop_receiver. destruct (_ !! _) as [ch|]; [|done].
  assert (Hall : forall vs : list R, preserves I (drop_all (E := E) vs)).
  { induction vs as [|v vs IH]; [apply preserves_ret|]. apply preserves_bind; [|done].
    apply (drop_keeps E (br_inner v)). }
  by apply Hall, store_keeps.
Qed.

(** *** The handle and the body *)
Lemma on_current_keeps {E A} (m : ST (R * W) E A) r :
  keeps m -> keeps (on_current m r).
Proof.
  intros Hm [q w] Hw. specialize (Hm (r, w) Hw). unfold on_current.
  by destruct (m (r, w)) as [? [??]|? [??]| | |].
Qed.

Lemma queued_read_keeps n : keeps (read (R := QReader C) n).
Proof.
  unfold read, QueuedReader_read. apply preserves_bind; [apply preserves_get_state|]. intros st.
  destruct (qr_reader st.1) as [[r|c]|]; [|..].
  - apply on_current_keeps, buf_read_keeps_I.
  - apply preserves_bind; [by apply keeps_zoom_r, recv_unwrap_keeps|]. intros r.
    apply preserves_bind; [by apply preserves_attempt, on_current_keeps, buf_read_keeps_I|].
    intros res. apply preserves_bind; [by apply keeps_zoom_r, drop_receiver_keeps|].
    intros _. destruct res; [apply preserves_ret|apply preserves_fail].
  - apply preserves_stuck.
Qed.

Lemma queued_drop_keeps E (q : QReader C) : preserves I (drop_value (E := E) q).
Proof.
  assert (Hpass : forall s (r : R), preserves I (pass_on (E := E) s r)).
  { intros s r. apply preserves_bind; [apply send_keeps|]. intros [|r']; [apply preserves_ret|].
    apply (drop_keeps E (br_inner r')). }
  apply preserves_bind; [|intros _; apply drop_sender_keeps].
  destruct (qr_reader q) as [[r|c]|]; [apply Hpass| |apply preserves_ret].
  apply preserves_bind; [apply recv_unwrap_keeps|]. intros r.
  apply preserves_bind; [apply Hpass|intros _; apply drop_receiver_keeps].
Qed.

Lemma queued_take_keeps n : keeps (read (R := Take (QReader C)) n).
Proof.
  assert (Hq : forall m (q : QReader C) w, I w ->
    match read m (q, w) with Ok _ st | Err _ st => I st.2 | _ => True end).
  { intros m q w. exact (queued_read_keeps m (q, w)). }
  intros [[q limit] w] Hw. unfold read at 1, Take_read. cbn [take_limit take_inner].
  destruct limit as [[|p]|]; [done| |].
  - specialize (Hq (N.to_nat (N.min (N.of_nat n) (N.pos p))) q w Hw). by destruct (read _ (q, w)) as [? [??]|? [??]| | |].
  - specialize (Hq n q w Hw). by destruct (read _ (q, w)) as [? [??]|? [??]| | |].
Qed.

Lemma sink_copy_keeps n copied :
  preserves (fun st : Take (QReader C) * (Sink * W) => I st.2.2) (io_copy n copied).
Proof.
  revert copied. induction n as [|n IH]; intros copied; [by intros st|]. cbn [io_copy].
  apply preserves_bind.
  { apply preserves_attempt. intros [tk [s w]] Hw. pose proof (queued_take_keeps DEFAULT_BUF_SIZE (tk, w) Hw) as Hr.
    unfold zoom_rw. cbn [fst snd]. by destruct (read _ (tk, w)) as [? [??]|? [??]| | |]. }
  intros [[|c got]|e]; [apply preserves_ret| |].
  - apply preserves_bind; [by intros [tk [s w]] Hw|]. intros _. apply IH.
  - destruct (is_interrupted e); [apply IH|apply preserves_fail].
Qed.

Lemma incoming_drop_keeps E (body : IncomingBody C) : preserves I (drop_value (E := E) body).
Proof.
  assert (Hdrain : forall tk, preserves I (drain_and_drop (E := E) (R := QReader C) tk)).
  { intros tk w Hw. unfold drain_and_drop.
    pose proof (sink_copy_keeps fuel 0 (tk, (io_sink, w)) Hw) as Hc.
    destruct (io_copy _ _ _) as [? [tk' [??]]|? [tk' [??]]| | |]; try done;
      by apply (queued_drop_keeps E (take_inner tk')). }
  change (preserves I (body_drop_impl (E := E) body)). unfold body_drop_impl.
  destruct (body_0 body) as [[|v|chunks|stream [len|]]|];
    [intros w Hw; exact Hw|intros w Hw; exact Hw|exact (queued_drop_keeps E (chunked_reader_0 chunks))| | |intros w Hw; exact Hw];
    apply Hdrain.
Qed.
End keeps.
