(* ===== verification/ServiceLaws.v ===== *)
(** * ServiceLaws: the contract of a service

    What [serve] needs of the service behind it: how it uses the body of a request,
    and what becomes of the body of its response. A response body may own its bytes, or
    still be reading the request it answers. *)
From stdpp Require Import base list gmap strings.
From Stdlib Require Import Strings.Byte NArith Lia.
From S2P Require Import Prelude Errors StdIo Buffered HttpApi Mpsc ReadQueue QueueLaws.
From S2P Require Import HttpBody Body BodyLaws Message MessageLaws ChunkedLaws Request.
From S2P Require Import RequestLaws Response ResponseLaws Upgrade Tls Connection ConnLaws.
From S2P Require Import Server Reference StreamLaws IncomingLaws.

(** ** The writer of a connection

    It keeps its contract for code that reads less than the world allows. *)
Section writer.
Context `{!HttpApi} `{!Fuel} {W C : Type} `{!World W} `{!Conn W C} `{!ConnLaws W C}.
Context (rs : relation W) `{!PreOrder rs} (Hrs : forall w w', rs w w' -> rstep w w').

#[refine] Definition reading_raw_laws : RawWriteLaws W C (HW := reading_world rs) := {|
  raw_can_fail := raw_can_fail W C (RawWriteLaws := conn_write_laws);
  accepted := accepted (RawWriteLaws := conn_write_laws);
|}.
Proof.
  - intros t w w' Hw. by apply accepted_rstep, Hrs.
  - unfold reading_world. exact (raw_write_spec (RawWriteLaws := conn_write_laws)).
  - unfold reading_world. exact (raw_flush_spec (RawWriteLaws := conn_write_laws)).
Defined.

Definition reading_writer : WriteLaws W (BufWriter C) (HW := reading_world rs) :=
  BufWriter_laws (World0 := reading_world rs) (RawWriteLaws0 := reading_raw_laws).
End writer.

(** The bodies that own their bytes: reading them leaves the world as it is. *)
Definition still_world W `{!World W} : World W := reading_world eq.
Lemma eq_rstep `{!World W} (w w' : W) : w = w' -> rstep w w'.
Proof. by intros ->. Qed.
Definition still_writer `{!Fuel} {W C} `{!World W} `{!Conn W C} `{!ConnLaws W C} :
    WriteLaws W (BufWriter C) (HW := still_world W) := reading_writer eq eq_rstep.

Lemma still_io `{!World W} w w' : iostep (W := W) (H := still_world W) w w' -> wstep w w'.
Proof. induction 1 as [|w1 w2 w3 [->|Hw] _ IH]; [done|done|]. by etrans. Qed.

(** ** What was handed to the writer *)
Section answers.
Context `{!HttpApi} `{!Fuel} {W C : Type} `{!World W} `{!Conn W C} `{!ConnLaws W C}.
Implicit Types (bw : BufWriter C) (w : W) (rel : relation W).

(** The same connection, with [out] more bytes; [rel] relates the worlds. *)
Definition adds rel bw w (out : bytes) bw' w' : Prop :=
  rel w w' /\ bw_inner bw' = bw_inner bw /\ buf_written bw' w' = buf_written bw w ++ out.

Lemma adds_trans rel `{!PreOrder rel} bw w out bw1 w1 out' bw2 w2 :
  adds rel bw w out bw1 w1 -> adds rel bw1 w1 out' bw2 w2 -> adds rel bw w (out ++ out') bw2 w2.
Proof.
  intros (Hw & Hi & Ho) (Hw' & Hi' & Ho'). split_and!; [by etrans|by rewrite Hi'|].
  by rewrite Ho', Ho, app_assoc.
Qed.

(** A part of [out], because the connection failed. *)
Definition adds_part rel bw w (out : bytes) bw' w' : Prop :=
  raw_can_fail W C /\ exists p, p `prefix_of` out /\ adds rel bw w p bw' w'.

Lemma adds_part_after rel `{!PreOrder rel} bw w out bw1 w1 out' bw2 w2 :
  adds rel bw w out bw1 w1 -> adds_part rel bw1 w1 out' bw2 w2 ->
  adds_part rel bw w (out ++ out') bw2 w2.
Proof.
  intros Ha (Hc & p & Hp & Hq). split; [done|]. exists (out ++ p).
  split; [by apply prefix_app|]. by eapply adds_trans.
Qed.

Lemma adds_mono (rel rel' : relation W) bw w out bw' w' :
  (forall w w', rel w w' -> rel' w w') -> adds rel bw w out bw' w' -> adds rel' bw w out bw' w'.
Proof. intros Hr (Hw & Hrest). split; [by apply Hr|done]. Qed.

Lemma adds_part_mono (rel rel' : relation W) bw w out bw' w' :
  (forall w w', rel w w' -> rel' w w') ->
  adds_part rel bw w out bw' w' -> adds_part rel' bw w out bw' w'.
Proof. intros Hr (Hc & p & Hp & Ha). split; [done|]. exists p. split; [done|by eapply adds_mono]. Qed.

Lemma flushed bw w :
  wp flush (fun _ '(bw', w') => adds wstep bw w [] bw' w')
     (fun _ '(bw', w') => adds_part wstep bw w [] bw' w') (bw, w).
Proof.
  eapply wp_mono; [eapply wp_preserves; [apply (flush_keeps (bw_inner bw))|done|]|..].
  - apply (flush_spec (WriteLaws := still_writer)).
  - intros [] [bw' w'] (Hi & Hw & Hwr & _). split_and!; [done|done|]. by rewrite app_nil_r.
  - intros e [bw' w'] (Hi & Hc & Hw & Hwr). split; [done|]. exists []. split; [done|].
    split_and!; [done|done|]. by rewrite app_nil_r.
Qed.

(** [write_response] on the writer of a connection, by what writing and dropping its
    body do, while reading is [rs]. *)
Section response.
Context (rs : relation W) `{!PreOrder rs} (Hrs : forall w w', rs w w' -> rstep w w').
Context {U B : Type} `{!HttpBody W B}.
Implicit Types (res : Response U C B).
Abbreviation world := (reading_world rs).
Abbreviation io := (iostep (H := world)).

(** Writing the body writes [text] and ends with [Z], or with [Y] on a failure. *)
Definition body_writes encoding (body : B) w (text : bytes) (Z Y : W -> Prop) : Prop :=
  forall bw w1, wstep w w1 ->
    wp (write_body encoding body)
       (fun _ '(bw', w') => io w1 w' /\ buf_written bw' w' = buf_written bw w1 ++ text /\ Z w')
       (fun _ '(bw', w') => (raw_can_fail W C /\ io w1 w' /\
          exists p, p `prefix_of` text /\ buf_written bw' w' = buf_written bw w1 ++ p) /\ Y w')
       (bw, w1).

Lemma response_written res flag bw w encoding headers text (Z Y : W -> Prop) :
  response_framing (res_version res) (res_headers res) (len (W := W) (res_body res)) =
    inl (encoding, headers) ->
  drops_with (World0 := world) (res_body res) w (fun w' => Y w' /\ (flag = false -> Z w')) ->
  (flag = true -> body_writes encoding (res_body res) w text Z Y) ->
  let out := message_head (status_line (res_version res) (res_status res)) (hm_iter headers) ++
             (if flag : bool then text else []) in
  wp (write_response res flag)
     (fun outcome '(bw', w') => adds io bw w out bw' w' /\ Z w' /\
        outcome = response_outcome (res_extensions res) encoding headers)
     (fun _ '(bw', w') => adds_part io bw w out bw' w' /\ Y w') (bw, w).
Proof.
  intros Hf Hd Hb out.
  pose proof (write_response_with (World0 := world) (WriteLaws0 := reading_writer rs Hrs)
    res flag bw w encoding headers (eq (if flag then text else [])) Z Y Hf Hd) as Hwp.
  eapply wp_mono; [eapply wp_preserves|..].
  - apply (write_response_keeps (fun bw' => bw_inner bw' = bw_inner bw) res flag).
    + intros bs. apply (write_all_keeps bs (bw_inner bw)).
    + apply (flush_keeps (bw_inner bw)).
  - done.
  - apply Hwp; [by eexists|]. destruct flag; [|done]. intros bw' w' Hw'.
    eapply wp_mono; [by apply Hb| |].
    + intros [] [bw2 w2] (Hio & Ho & HZ). split; [|done]. by exists text.
    + intros e [bw2 w2] [(Hc & Hio & Ho) HY]. split; [|done]. by exists text.
  - intros o [bw' w'] (Hi & (out' & <- & Hio & Hw) & -> & HZ). by split_and!.
  - intros e [bw' w'] (Hi & (out' & <- & Hc & Hio & p & Hp & Hw) & HY).
    split; [|done]. split; [done|]. by exists p.
Qed.

Lemma response_not_written res flag bw w e (Y : W -> Prop) :
  drops_with (World0 := world) (res_body res) w Y ->
  response_framing (res_version res) (res_headers res) (len (W := W) (res_body res)) = inr e ->
  wp (write_response res flag) (fun _ _ => False)
     (fun e' '(bw', w') => e' = e /\ adds io bw w [] bw' w' /\ Y w') (bw, w).
Proof.
  intros Hd Hf.
  eapply wp_mono; [by apply (write_response_refused (World0 := world) res flag bw w e Y Hd)|done|].
  intros e' [bw' w'] (-> & -> & Hw & HY). split_and!; [done| |done].
  split_and!; [by apply (rstep_io (H := world))|done|]. rewrite app_nil_r. unfold buf_written.
  by rewrite (accepted_rstep _ w w') by by apply Hrs.
Qed.
End response.
End answers.

(** ** Response bodies whose reading changes no more than [rs] *)
Section lent.
Context `{!HttpApi} `{!Fuel} {W C B : Type} `{!World W} `{!Conn W C} `{!ConnLaws W C}.
Context (rs : relation W) `{!PreOrder rs} (Hrs : forall w w', rs w w' -> rstep w w').
Context `{!HttpBody W B} `{!HttpBodyLaws W B (HW := reading_world rs)}.
Implicit Types (w : W).
Abbreviation world := (reading_world rs).
Abbreviation io := (iostep (H := world)).

(** The body is going to be written as [text] in each encoding, and can be dropped. *)
Definition deliverable_in (body : B) w (text : Encoding -> bytes) : Prop :=
  droppable (World0 := world) body w /\
  forall encoding, sends (World0 := world) encoding body w (eq (text encoding)).

Lemma deliverable_in_writes (body : B) w text encoding (Z Y : W -> Prop) :
  deliverable_in body w text -> (forall w', io w w' -> Z w') -> (forall w', io w w' -> Y w') ->
  body_writes (C := C) rs encoding body w (text encoding) Z Y.
Proof.
  intros [_ Hs] HZ HY bw w1 Hw1.
  eapply wp_mono; [apply (write_body_spec (World0 := world) (WriteLaws0 := reading_writer rs Hrs)
                            encoding body bw w1 (eq (text encoding)))| |].
  - by apply (sends_wstep (World0 := world) _ _ w w1).
  - intros [] [bw' w'] (out & <- & Hw & Ho). split_and!; [done|done|].
    apply HZ. etrans; [exact (wstep_io (H := world) w w1 Hw1)|exact Hw].
  - intros e [bw' w'] (out & <- & Hc & Hw & Ho). split; [by split_and!|].
    apply HY. etrans; [exact (wstep_io (H := world) w w1 Hw1)|exact Hw].
Qed.

Lemma deliverable_in_drops (body : B) w text (Y : W -> Prop) :
  deliverable_in body w text -> (forall w', io w w' -> Y w') ->
  drops_with (World0 := world) body w Y.
Proof.
  intros [Hd _] HY E w' Hw. eapply wp_never_mono; [by apply Hd|].
  intros [] w'' Hw''. split; [done|]. apply HY.
  etrans; [exact (wstep_io (H := world) w w' Hw)|exact (rstep_io (H := world) w' w'' Hw'')].
Qed.
End lent.

(** With more reading allowed. *)
Lemma body_writes_mono `{!HttpApi} `{!Fuel} {W C B : Type} `{!World W} `{!Conn W C}
    `{!ConnLaws W C} `{!HttpBody W B} (rs rs' : relation W) `{!PreOrder rs} `{!PreOrder rs'}
    encoding (body : B) (w : W) text (Z Y : W -> Prop) :
  (forall w w', rs w w' -> rs' w w') ->
  body_writes (C := C) rs encoding body w text Z Y -> body_writes (C := C) rs' encoding body w text Z Y.
Proof.
  intros Hrs Hb bw w1 Hw1.
  assert (Hio : forall w w', iostep (H := reading_world rs) w w' -> iostep (H := reading_world rs') w w').
  { intros w2 w3. induction 1 as [|w2 w3 w4 [Hw|Hw] _ IH]; [done| |]; (etrans; [|exact IH]).
    - exact (rstep_io (H := reading_world rs') _ _ (Hrs _ _ Hw)).
    - exact (wstep_io (H := reading_world rs') _ _ Hw). }
  eapply wp_mono; [by apply Hb| |].
  - intros [] [bw' w'] (Hw & Ho). split; [by apply Hio|done].
  - intros e [bw' w'] [(Hc & Hw & Ho) HY]. split; [|done]. split_and!; [done|by apply Hio|done].
Qed.

(** ** Response bodies that own their bytes *)
Section owned.
Context `{!HttpApi} `{!Fuel} {W C B : Type} `{!World W} `{!Conn W C} `{!ConnLaws W C}.
Context `{!HttpBody W B} `{!HttpBodyLaws W B (HW := still_world W)}.
Implicit Types (w : W).

Definition deliverable (body : B) w (text : Encoding -> bytes) : Prop :=
  deliverable_in eq body w text.

(** A body of one piece, in each encoding *)
Definition owned_text (bs : bytes) (encoding : Encoding) : bytes :=
  match encoding with Chunked => encode_chunks [inl (Data bs)] | _ => bs end.

Lemma owned_deliverable (body : B) w bs :
  (forall E w', wp (drop_value (E := E) body) (fun _ w'' => w' = w'') never w') ->
  bytes_of (HW := still_world W) body w bs -> reader_of (HW := still_world W) body w bs ->
  chunks_of (HW := still_world W) body w (eq [inl (Data bs)]) ->
  length bs < fuel -> 1 < fuel -> deliverable body w (owned_text bs).
Proof.
  intros Hd Hb Hr Hc Hf H1. split; [intros E w' _; apply Hd|].
  intros [len| |]; cbn.
  - by destruct (len <? 1024)%N; exists bs.
  - exists (eq [inl (Data bs)]). split; [done|]. by intros items <-.
  - by exists bs.
Qed.

Lemma deliverable_writes (body : B) w text encoding (Z Y : W -> Prop) :
  deliverable body w text ->
  (forall w', wstep w w' -> Z w') -> (forall w', wstep w w' -> Y w') ->
  body_writes (C := C) eq encoding body w (text encoding) Z Y.
Proof.
  intros Hd HZ HY.
  apply (deliverable_in_writes eq (eq_rstep (W := W)) body w text encoding Z Y Hd);
    intros w' Hw; [apply HZ|apply HY]; by apply still_io.
Qed.

Lemma deliverable_drops (body : B) w text (Y : W -> Prop) :
  deliverable body w text -> (forall w', wstep w w' -> Y w') ->
  drops_with (World0 := still_world W) body w Y.
Proof.
  intros Hd HY. apply (deliverable_in_drops eq body w text Y Hd).
  intros w' Hw. by apply HY, still_io.
Qed.

Lemma owned_response_written {U} (res : Response U C B) flag (bw : BufWriter C) w encoding headers text :
  response_framing (res_version res) (res_headers res) (len (W := W) (res_body res)) =
    inl (encoding, headers) ->
  deliverable (res_body res) w text ->
  let out := message_head (status_line (res_version res) (res_status res)) (hm_iter headers) ++
             (if flag : bool then text encoding else []) in
  wp (write_response res flag)
     (fun outcome '(bw', w') => adds wstep bw w out bw' w' /\
        outcome = response_outcome (res_extensions res) encoding headers)
     (fun _ '(bw', w') => adds_part wstep bw w out bw' w') (bw, w).
Proof.
  intros Hf Hd out. eapply wp_mono.
  - apply (response_written eq (eq_rstep (W := W)) res flag bw w encoding headers (text encoding)
      (fun _ => True) (fun _ => True) Hf); [by eapply deliverable_drops|].
    intros _. by apply deliverable_writes.
  - intros o [bw' w'] (Ha & _ & ->). split; [|done]. by eapply adds_mono; [apply still_io|].
  - intros e [bw' w'] [Ha _]. by eapply adds_part_mono; [apply still_io|].
Qed.

End owned.

(** ** The contract of a service *)
Section service.
Context `{!HttpApi} `{!Fuel} {W C A Hd : Type}.
Context `{!World W} `{!Conn W C} `{!ConnLaws W C} `{!HasStore W (BufReader C)}
  `{!StoreWorld W (BufReader C)} `{!ConnStore W C}.
Abbreviation R := (BufReader C).
Implicit Types (w : W).

(** The body of a response, in the world [w] in which the service returned it to the
    request that the handle [k] reads. Dropping it releases the handle, with [rest] to
    come unless the body is to be written ([flag]). *)
Definition lets_go `{!HttpBody W B} (k : nat) (flag : bool) (body : B) w (rest : bytes)
    (fin : option io_error) : Prop :=
  drops_with (World0 := handle_world (R := R) k) body w (fun w' =>
    released k w' /\ (flag = false -> q_passed (R := R) k w' rest fin)).

(** Writing it writes [text], and passes the reader on with [rest] to come. *)
Definition goes_out `{!HttpBody W B} (k : nat) encoding (body : B) w (text rest : bytes)
    (fin : option io_error) : Prop :=
  body_writes (C := C) (hstep (R := R) k) encoding body w text
    (fun w' => q_passed (R := R) k w' rest fin) (released k).

(** The response [res] is [res0] of the specification, also in the encoding that is
    chosen for its body. *)
Definition answers_as `{!HttpBody W B} {D} (sp : app_spec A (UpgradeExtension Hd) C D) (k : nat)
    (req : Request (IncomingBody C)) (res : Response (UpgradeExtension Hd) C B)
    (res0 : Response (UpgradeExtension Hd) C D) w (rest : bytes) (fin : option io_error) : Prop :=
  let flag := should_write_body (req_method req) (res_status res) in
  let headers := version_headers (req_version req)
                   (connection_has "keep-alive" (req_headers req)) (res_headers res) in
  res_status res0 = res_status res /\ res_headers res0 = res_headers res /\
  res_extensions res0 = res_extensions res /\
  app_len sp (res_body res0) = len (W := W) (res_body res) /\
  lets_go k flag (res_body res) w rest fin /\
  forall time encoding sent, flag = true ->
    response_framing (req_version req) (dated time headers) (len (W := W) (res_body res)) =
      inl (encoding, sent) ->
    goes_out k encoding (res_body res) w (app_body sp encoding (res_body res0)) rest fin.

(** [sp] is the service as a function of the requests, over the bodies [D]. *)
Class ServiceLaws `{!Service (W := W) (C := C) (A := A) (Hd := Hd)} {D : Type}
    (sp : app_spec A (UpgradeExtension Hd) C D) := {
  call_spec k app w req body rest skipped fin :
    incoming_body k (req_body req) w body rest skipped fin ->
    let answer := app_call sp app (req_method req) (req_uri req) (req_version req)
                           (req_headers req) body in
    let reads := app_reads sp app (req_method req) (req_uri req) (req_version req)
                           (req_headers req) body in
    wp (call req)
       (fun res '(app', w') => hstep (R := R) k w w' /\
          exists res0, answer = (app', inl res0) /\
            answers_as sp k req res res0 w' (if reads then rest else skipped) fin)
       (fun e '(app', w') => hstep (R := R) k w w' /\ released k w' /\
          answer = (app', inr e)) (app, w);
  continue_spec E app w req :
    wp (should_continue (E := E) req)
       (fun status '(app', w') => w' = w /\
          app_continue sp app (req_method req) (req_uri req) (req_version req)
                       (req_headers req) = (app', status)) never (app, w);
}.

(** A response whose body is read beside the connection, when the request was read or
    dropped before. *)
Section lent_answers.
Context (rs : relation W) `{!PreOrder rs} `{!HttpBody W B}
  `{!HttpBodyLaws W B (HW := reading_world rs)}.

Lemma lent_answers {D} (sp : app_spec A (UpgradeExtension Hd) C D) k req
    (res : Response (UpgradeExtension Hd) C B) (d : D) w rest fin :
  (forall w w', rs w w' -> hstep (R := R) k w w') ->
  (forall w w', rs w w' -> q_passed (R := R) k w rest fin -> q_passed (R := R) k w' rest fin) ->
  app_len sp d = len (W := W) (res_body res) ->
  deliverable_in rs (res_body res) w (fun encoding => app_body sp encoding d) ->
  q_passed (R := R) k w rest fin ->
  answers_as sp k req res
    (Build_Response (res_status res) (res_version res) (res_headers res) (res_extensions res) d)
    w rest fin.
Proof.
  intros Hk Hkeep Hlen Hdel Hp.
  assert (Hp' : forall w', iostep (H := reading_world rs) w w' -> q_passed (R := R) k w' rest fin).
  { clear Hdel. intros w' Hw. induction Hw as [|w1 w2 w3 [Hw|Hw] _ IH]; [done|apply IH..].
    - by eapply Hkeep.
    - by eapply passed_wstep_q. }
  split_and!; [done..| |].
  - intros E w' Hw. eapply wp_never_mono.
    { apply (deliverable_in_drops rs _ w _ (fun w' => q_passed (R := R) k w' rest fin) Hdel Hp' E w' Hw). }
    intros [] w'' [Hw'' Hp'']. split; [by apply Hk|]. split; [by eapply passed_released|done].
  - intros time encoding headers _ _. apply (body_writes_mono rs (hstep (R := R) k)); [done|].
    apply (deliverable_in_writes rs (fun w w' Hw => proj1 (Hk w w' Hw)) (res_body res) w
      (fun encoding => app_body sp encoding d) encoding); [done|done|].
    intros w' Hw. by eapply passed_released, Hp'.
Qed.
End lent_answers.

(** A response whose body owns its bytes, when the request was read or dropped before. *)
Lemma owned_answers `{!HttpBody W B} `{!HttpBodyLaws W B (HW := still_world W)}
    (sp : app_spec A (UpgradeExtension Hd) C B) k req (res : Response (UpgradeExtension Hd) C B)
    w rest fin :
  app_len sp (res_body res) = len (W := W) (res_body res) ->
  deliverable (res_body res) w (fun encoding => app_body sp encoding (res_body res)) ->
  q_passed (R := R) k w rest fin -> answers_as sp k req res res w rest fin.
Proof.
  intros Hlen Hdel Hp.
  assert (Ha := lent_answers eq sp k req res (res_body res) w rest fin).
  destruct res. apply Ha; try done.
  - intros w1 w2 ->. by apply (reflexivity (R := hstep k)).
  - by intros w1 w2 ->.
Qed.

(** A response whose body is a [Body] that still holds the stream of the request, or
    owns its bytes after the stream was let go of. *)
Lemma whole_wstep k (b : IncomingBody C) w w' body rest skipped fin :
  whole_at k fin w b body rest skipped -> wstep w w' -> whole_at k fin w' b body rest skipped.
Proof.
  intros Hb Hw. destruct Hb as [rest Hp|bs rest Hp Hv|q len bs rest Hq Hm Hle Hor Hl|q cs rest all Hq Hl Hde].
  - constructor. exact (passed_wstep_q k w w' rest fin Hp Hw).
  - constructor; [|done]. exact (passed_wstep_q k w w' rest fin Hp Hw).
  - constructor; [|done..]. exact (holds_wstep (ReadLaws := queued_read_laws k) q w w' _ fin Hq Hw).
  - econstructor; [|done..]. exact (holds_wstep (ReadLaws := queued_read_laws k) q w w' _ fin Hq Hw).
Qed.

Lemma whole_answers (sp : app_spec A (UpgradeExtension Hd) C incoming) k req
    (res : Response (UpgradeExtension Hd) C (IncomingBody C)) body w rest skipped fin :
  let flag := should_write_body (req_method req) (res_status res) in
  whole_at k fin w (res_body res) body rest skipped ->
  length (in_bytes body) < fuel -> 1 < fuel ->
  (forall d, app_len sp d = incoming_len d) ->
  (forall time encoding headers len bs, body = Announced len bs ->
     response_framing (req_version req) (dated time (version_headers (req_version req)
       (connection_has "keep-alive" (req_headers req)) (res_headers res)))
       (incoming_len body) = inl (encoding, headers) -> encoding <> Chunked) ->
  (forall encoding, app_body sp encoding body = incoming_text encoding body) ->
  answers_as sp k req res
    (Build_Response (res_status res) (res_version res) (res_headers res) (res_extensions res) body)
    w (if flag then rest else skipped) fin.
Proof.
  intros flag Hb Hl Hf Hlen Henc Htext.
  split_and!; [done|done|done| | |].
  - cbn [res_body]. rewrite Hlen. symmetry. exact (whole_len (World0 := handle_world k) _ _ _ _ _ _ Hb).
  - intros E w1 Hw1. eapply wp_never_mono.
    { exact (whole_drop (World0 := handle_world k) (BufReadLaws0 := queued_bufread_laws k)
               fin E _ w1 body rest skipped (whole_wstep k _ w w1 _ _ _ fin Hb Hw1)). }
    intros [] w2 [Hw2 Hp]. change (q_passed (R := R) k w2 skipped fin) in Hp.
    split; [done|]. split; [by eapply passed_released|]. subst flag. by intros ->.
  - intros time encoding sent Hflag Hfr bw w1 Hw1. subst flag. rewrite Hflag.
    eapply wp_mono.
    + apply (whole_written (World0 := handle_world k) (BufReadLaws0 := queued_bufread_laws k)
        (WriteLaws0 := reading_writer (hstep (R := R) k) (fun w w' Hw => proj1 Hw))
        fin encoding (res_body res) bw w1 body rest skipped); [by eapply whole_wstep|done|done|].
      intros ->. destruct body as [n bs|cs]; [|by exists cs].
      exfalso. eapply (Henc time Chunked sent n bs); [done| |done]. rewrite <-Hfr. f_equal.
      symmetry. exact (whole_len (World0 := handle_world k) _ _ _ _ _ _ Hb).
    + intros [] [bw2 w2] [Ha Hp]. rewrite <-Htext in Ha. destruct Ha as [Ha Ho]. by split_and!.
    + intros e [bw2 w2] [(Hc & Hw & Ho) [bs Hp]]. rewrite <-Htext in Ho.
      split; [by split_and!|]. exact (passed_released k w2 bs fin Hp).
Qed.
End service.
