(* ===== verification/ServerLaws.v ===== *)
(** * ServerLaws: the loop [serve] refines the reference

    [serve_refines] states that [serve] writes what [reference] computes, over the
    buffers, the hand-off of the reader and the channels it uses. *)
From stdpp Require Import base list gmap strings.
From Stdlib Require Import Strings.Byte NArith Lia.
From S2P Require Import Prelude Errors StdIo Buffered HttpApi Mpsc ReadQueue QueueLaws.
From S2P Require Import HttpBody Body BodyLaws Message MessageLaws ChunkedLaws Request.
From S2P Require Import RequestLaws Response ResponseLaws Upgrade Tls Connection ConnLaws.
From S2P Require Import Server.
From S2P Require Import Reference IncomingLaws ServiceLaws.

(** ** One connection *)
Section serve.
Context `{!HttpApi} `{!Fuel} {W C A Hd : Type}.
Context `{!World W} `{!Conn W C} `{!ConnLaws W C} `{!HasStore W (BufReader C)}
  `{!StoreWorld W (BufReader C)} `{!ConnStore W C} `{!UpgradeHandler W Hd C} `{!Clock W}.

(** Reading the clock changes nothing. *)
Class ClockLaws := now_spec : forall E (w : W), wp (now (E := E)) (fun _ w' => w' = w) never w.

(** ** The steps of [serve] *)
Context `{!Service (W := W) (C := C) (A := A) (Hd := Hd)}
  {D : Type} (sp : app_spec A (UpgradeExtension Hd) C D) `{!ServiceLaws sp, !ClockLaws, !HttpApiLaws}.
Abbreviation R := (BufReader C).
Abbreviation state := (@conn_state W C A).
Implicit Types (w : W) (s : state).

(** *** The parser *)
Lemma short_cut rest fin len e :
  short_body rest fin len e -> body_split fin (PlanBuffered len) rest = None /\ e = cut_off fin.
Proof.
  intros [Hl ->]. split; [|done]. cbn.
  destruct (N.leb_spec len (N.of_nat (length rest))); [lia|done].
Qed.

Lemma request_plan_small headers len :
  request_plan headers = inl (PlanBuffered len) -> (len < 1024)%N.
Proof.
  unfold request_plan. destruct (te_try_get headers) as [[te|]|[]]; [by destruct (te_is_chunked te)| |done].
  destruct (cl_try_get headers) as [[n|]|[]]; [|done..].
  destruct (N.ltb_spec n 1024); [|done]. by intros [= <-].
Qed.

Lemma parse_spec k (q : QReader C) w bs fin :
  q_holds k q w bs fin -> S (length bs) < fuel ->
  wp (parse_request q)
     (fun req w' => hstep (R := R) k w w' /\
        match request_at fin bs with
        | Arrives method uri version headers body rest skipped =>
            method = req_method req /\ uri = req_uri req /\ version = req_version req /\
            headers = req_headers req /\
            incoming_body k (req_body req) w' body rest skipped fin
        | Refused _ => False
        | Beyond => True
        end)
     (fun e w' => hstep (R := R) k w w' /\ request_at fin bs = Refused e) w.
Proof.
  intros Hq Hf.
  eapply wp_mono.
  { apply (parse_request_on (World0 := handle_world k) (BufReadLaws0 := queued_bufread_laws k)
             q w bs fin Hq). lia. }
  - intros req w' (Hw & head & rest & plan & Hs & Hh & Hp & Hb). split; [exact Hw|].
    unfold request_at. rewrite Hs, Hh, Hp.
    pose proof (split_head_length _ _ _ _ _ _ Hs).
    destruct (body_split fin plan rest) as [[[body rest'] skipped]|] eqn:Hsp.
    + split_and!; [done..|]. exists plan, rest. split_and!; [done|lia|done].
    + destruct plan; try done. destruct Hb as (Hl & _). cbn in Hsp.
      destruct (N.leb_spec len (N.of_nat (length rest))); [|lia].
      apply request_plan_small in Hp. unfold isize_max in Hsp.
      destruct (N.leb_spec len (2 ^ 63 - 1)%N); [done|lia].
  - intros e w' [Hw He]. split; [exact Hw|]. unfold request_refused in He. unfold request_at.
    destruct (split_head fuel [] bs fin) as [[head rest]|e']; [|by subst].
    destruct (request_head head) as [[[[m u] v] h]|e']; [|by destruct He as [-> _]].
    destruct (request_plan h) as [plan|e']; [|by destruct He as [-> _]].
    destruct plan; try done. by apply short_cut in He as [-> ->].
Qed.

Lemma request_at_length fin bs m u v h body rest skipped :
  request_at fin bs = Arrives m u v h body rest skipped ->
  length rest <= length bs /\ length skipped <= length bs.
Proof.
  unfold request_at. destruct (split_head fuel [] bs fin) as [[head all]|] eqn:Hs; [|done].
  apply split_head_length in Hs. destruct (request_head head) as [[[[? ?] ?] h']|]; [|done].
  destruct (request_plan h') as [plan|]; [|done].
  destruct (body_split fin plan all) as [[[body' rest'] skipped']|] eqn:Hsp; [|by destruct plan].
  intros [= _ _ _ _ -> -> ->]. apply body_split_length in Hsp. lia.
Qed.

(** *** The hand-off *)

(** The reader of the next request, when the handle [k] reads the current one. *)
Definition next_reader (k : nat) : QReader C :=
  Build_QueuedReader (Some (Waiting (Build_Receiver k))) (Build_Sender (S k)).

Lemma next_reader_holds k w rest fin :
  waits k w -> q_passed (R := R) k w rest fin -> q_holds (S k) (next_reader k) w rest fin.
Proof.
  intros [Hk1 _] (r & Hk & Hr). split; [by split|]. split; [cbn; lia|]. by exists r, false.
Qed.

(** Taking the next handle from the queue. *)
Lemma enqueue_spec E k w :
  chan_count (R := R) w = S k ->
  wp (enqueue (E := E))
     (fun q '(queue, w') => q = next_reader k /\ queue = Next (Build_Receiver (S k)) /\
        waits k w' /\ rstep w w' /\ (forall i, i <= k -> chan_at (R := R) w' i = chan_at w i) /\
        forall (r : R) bs fin, holds r w bs fin -> holds r w' bs fin)
     never (Next (Build_Receiver k), w).
Proof.
  intros Hk. unfold chan_count in Hk. unfold wp, enqueue, channel, bind, zoom_r, get_state, zoom_l,
    put_state, ret. cbn [fst snd]. rewrite Hk. split_and!; [done|done| |apply set_store_rstep| |].
  - unfold waits, chan_at, chan_count, the_store. rewrite get_set. cbn.
    split; [apply lookup_insert_eq|done].
  - intros i Hi. unfold chan_at at 1, the_store. rewrite get_set. cbn.
    apply lookup_insert_ne. lia.
  - intros r bs fin Hr. exact (holds_store r w _ bs fin Hr).
Qed.

Lemma enqueue_first E (r : R) w :
  let k := chan_count (R := R) w in
  wp (enqueue (E := E))
     (fun q '(queue, w') => q = Build_QueuedReader (Some (Current r)) (Build_Sender k) /\
        queue = Next (Build_Receiver k) /\
        chan_at (R := R) w' k = Some (Build_chan [] true true) /\
        chan_count (R := R) w' = S k /\ rstep w w' /\
        forall (r : R) bs fin, holds r w bs fin -> holds r w' bs fin)
     never (Head r, w).
Proof.
  intros k. unfold wp, enqueue, channel, bind, zoom_r, get_state, zoom_l, put_state, ret.
  cbn [fst snd]. split_and!; [done|done| | |apply set_store_rstep|].
  - unfold chan_at, the_store. rewrite get_set. apply lookup_insert_eq.
  - unfold chan_count, the_store. by rewrite get_set.
  - intros r' bs fin Hr. exact (holds_store r' w _ bs fin Hr).
Qed.

(** *** The answer *)
Definition text_of s : bytes := buf_written (cs_writer s) (cs_world s).

(** The locals of the loop, while the handle [k] reads the request. *)
Definition intact (k : nat) s s' : Prop :=
  cs_queue s' = cs_queue s /\ bw_inner (cs_writer s') = bw_inner (cs_writer s) /\
  waits k (cs_world s').

(** The reader is on its way to the next request, with [rest] to come or anywhere. *)
Definition kept (k : nat) s s' rest fin : Prop :=
  intact k s s' /\ q_passed (R := R) k (cs_world s') rest fin.
Definition freed (k : nat) s s' : Prop := intact k s s' /\ released k (cs_world s').

(** [ex]: the reference's answer for every time of the clock. *)
Abbreviation answer_at := (N -> option (bytes * A * (after_answer (UpgradeExtension Hd) + io_error) * bool)).

(** How an iteration goes on after an answer *)
Definition flow_of (after : after_answer (UpgradeExtension Hd)) : @flow Hd :=
  match after with
  | Continues => Again
  | Finishes => Leave
  | Upgrades upgrade => Upgraded upgrade
  end.

Definition ok_answer (ex : answer_at) k s s' rest skipped fin (fl : @flow Hd) : Prop :=
  exists t out after reads,
    ex t = Some (out, cs_app s', inl after, reads) /\
    kept k s s' (if reads : bool then rest else skipped) fin /\
    fl = flow_of after /\ text_of s' = text_of s ++ out.

Definition err_answer (ex : answer_at) k s s' e : Prop :=
  freed k s s' /\ exists t out app' r reads,
    ex t = Some (out, app', r, reads) /\
    ((r = inr e /\ app' = cs_app s' /\ text_of s' = text_of s ++ out) \/
     (raw_can_fail W C /\ exists p, p `prefix_of` out /\ text_of s' = text_of s ++ p)).

Lemma prepare_spec {B E} version keep (res : Response (UpgradeExtension Hd) C B) w :
  wp (prepare_response (E := E) version keep res)
     (fun res' w' => w' = w /\ exists t, res' =
        Build_Response (res_status res) version
          (dated t (version_headers version keep (res_headers res)))
          (res_extensions res) (res_body res)) never w.
Proof.
  unfold prepare_response, set_date, dated. wp_step. destruct (date_is_set _).
  - apply wp_ret, wp_ret. split; [done|]. by exists 0%N.
  - wp_step. eapply wp_never_mono; [apply now_spec|]. intros t w' ->.
    apply wp_ret, wp_ret. split; [done|]. by exists t.
Qed.

Lemma text_hstep k (bw : BufWriter C) w w' :
  hstep (R := R) k w w' -> buf_written bw w' = buf_written bw w.
Proof. intros [Hw _]. unfold buf_written. by rewrite (accepted_rstep _ w w'). Qed.

(** Only the writer, the connection and the reader changed: [out] was written. *)
Definition wrote (rel : relation W) s (out : bytes) s' : Prop :=
  cs_queue s' = cs_queue s /\ cs_app s' = cs_app s /\
  adds rel (cs_writer s) (cs_world s) out (cs_writer s') (cs_world s').
Definition wrote_part (rel : relation W) s (out : bytes) s' : Prop :=
  raw_can_fail W C /\ exists p, p `prefix_of` out /\ wrote rel s p s'.

Lemma wrote_intact k s out s' :
  wrote (ostep k) s out s' -> waits k (cs_world s) ->
  intact k s s' /\ cs_app s' = cs_app s /\ text_of s' = text_of s ++ out.
Proof.
  intros (Hq & Ha & Hw & Hi & Ho) Hk. split_and!; [|done..].
  split_and!; [done|done|by eapply waits_ostep].
Qed.

(** [flush] at the end of an answer *)
Lemma flush_spec_state k s :
  wp (on_writer flush)
     (fun _ s' => wrote wstep s [] s' /\
        forall rest fin, q_passed (R := R) k (cs_world s) rest fin ->
                         q_passed (R := R) k (cs_world s') rest fin)
     (fun _ s' => wrote_part wstep s [] s' /\
        (released k (cs_world s) -> released k (cs_world s'))) s.
Proof.
  unfold on_writer. wp_step. cbn [fst snd]. eapply wp_mono; [apply flushed| |].
  - intros [] [bw w] Ha. split; [by split|]. intros rest fin Hp.
    eapply passed_wstep_q; [exact Hp|apply Ha].
  - intros e [bw w] (Hc & p & Hp & Ha). split; [split; [done|]; by exists p|]. intros Hr.
    eapply released_wstep; [exact Hr|apply Ha].
Qed.

(** Writing the response, and how the connection goes on. *)
Lemma write_and_go_spec (close : bool) (res : Response (UpgradeExtension Hd) C SBody) flag s text
    k rest fin :
  let framing := response_framing (res_version res) (res_headers res)
                                  (len (W := W) (res_body res)) in
  lets_go k flag (res_body res) (cs_world s) rest fin ->
  (forall encoding headers, flag = true -> framing = inl (encoding, headers) ->
     goes_out k encoding (res_body res) (cs_world s) (text encoding) rest fin) ->
  let out encoding headers :=
    message_head (status_line (res_version res) (res_status res)) (hm_iter headers) ++
    (if flag : bool then text encoding else []) in
  wp (let! outcome := on_writer (write_response res flag) in
      match outcome with
      | KeepAlive => if close then ret Leave else on_writer flush;;; ret Again
      | Close => ret Leave
      | Upgrade upgrade => ret (Upgraded upgrade)
      end)
     (fun fl s' => exists encoding headers, framing = inl (encoding, headers) /\
        wrote (ostep k) s (out encoding headers) s' /\
        q_passed (R := R) k (cs_world s') rest fin /\
        fl = flow_of (after_response (res_extensions res)
                        (stays_open encoding headers && negb close)))
     (fun e s' => match framing with
                  | inl (encoding, headers) => wrote_part (ostep k) s (out encoding headers) s'
                  | inr e' => e' = e /\ wrote (ostep k) s [] s'
                  end /\ released k (cs_world s')) s.
Proof.
  intros framing Hgo Hout out. wp_step. unfold on_writer at 1. wp_step. cbn [fst snd].
  pose proof (fun w w' (Hw : hstep (R := R) k w w') => proj1 Hw) as Hrs.
  destruct framing as [[encoding h]|e] eqn:Hf.
  2: { eapply wp_mono; [exact (response_not_written (hstep (R := R) k) Hrs res flag _ _ e _ Hgo Hf)|done|].
       intros e' [bw' w'] (-> & Ha & Hr & _). split; [|done]. split; [done|]. by split. }
  eapply wp_mono.
  { apply (response_written (hstep (R := R) k) Hrs res flag (cs_writer s) (cs_world s) encoding h
             (text encoding) (fun w' => q_passed (R := R) k w' rest fin) (released k) Hf Hgo).
    intros Hfl. by apply (Hout encoding h). }
  2: { intros e' [bw' w'] [(Hc & p & Hp & Ha) Hr]. split; [|done]. split; [done|]. by exists p. }
  intros outcome [bw' w'] (Ha & Hq & ->). unfold response_outcome, after_response, stays_open.
  fold (out encoding h) in Ha.
  destruct (ext_upgrade (res_extensions res)) as [upgrade|].
  { apply wp_ret. exists encoding, h. split; [done|]. by split; [by split|]. }
  destruct (bool_decide (encoding = CloseDelimited) || connection_has "close" h) eqn:Hcl;
    [|destruct close].
  1, 2: apply wp_ret; exists encoding, h; split; [done|]; split; [by split|];
        split; [done|]; by rewrite Hcl.
  wp_step. eapply wp_mono; [apply (flush_spec_state k)| |].
  - intros [] s2 [(Hq2 & Happ2 & Ha2) Hp2]. apply wp_ret. exists encoding, h. split; [done|].
    split; [|split; [by apply Hp2|by rewrite Hcl]].
    split; [done|]. split; [done|]. rewrite <-(app_nil_r (out _ _)).
    eapply (adds_trans (ostep k)); [exact Ha|]. by eapply adds_mono; [apply ostep_wstep|].
  - intros e' s2 [(Hc & p & Hp & Hq2 & Happ2 & Ha2) Hr2].
    split; [|by eapply Hr2, passed_released]. split; [done|]. apply prefix_nil_inv in Hp as ->.
    exists (out encoding h). split; [done|]. split; [done|]. split; [done|].
    rewrite <-(app_nil_r (out _ _)).
    eapply (adds_trans (ostep k)); [exact Ha|]. by eapply adds_mono; [apply ostep_wstep|].
Qed.

(** What the reference says of a request that is answered with [res0]. *)
Definition served_as (t : N) (app' : A) (res0 : Response (UpgradeExtension Hd) C D)
    (req : Request (IncomingBody C)) (reads : bool)
  : option (bytes * A * (after_answer (UpgradeExtension Hd) + io_error) * bool) :=
  let sent := dated t (version_headers (req_version req)
                (connection_has "keep-alive" (req_headers req)) (res_headers res0)) in
  match response_framing (req_version req) sent (app_len sp (res_body res0)) with
  | inr e => Some ([], app', inr e, reads)
  | inl (encoding, sent) =>
      Some (message_head (status_line (req_version req) (res_status res0)) (hm_iter sent) ++
            (if should_write_body (req_method req) (res_status res0)
             then app_body sp encoding (res_body res0) else []), app',
            inl (after_response (res_extensions res0)
                   (stays_open encoding sent && negb (demands_close (req_version req) (req_headers req)))),
            reads)
  end.

Lemma served_answer t app app' req res0 body :
  app_call sp app (req_method req) (req_uri req) (req_version req) (req_headers req) body =
    (app', inl res0) ->
  served sp t app (req_method req) (req_uri req) (req_version req) (req_headers req) body =
  served_as t app' res0 req (app_reads sp app (req_method req) (req_uri req) (req_version req)
                                       (req_headers req) body).
Proof.
  intros Ha. unfold served, respond, served_as. rewrite Ha. cbv zeta.
  by destruct (response_framing _ _ _) as [[encoding sent]|e].
Qed.

Lemma call_and_write_spec k s req body rest skipped fin :
  incoming_body k (req_body req) (cs_world s) body rest skipped fin -> waits k (cs_world s) ->
  let ex t := served sp t (cs_app s) (req_method req) (req_uri req) (req_version req)
                     (req_headers req) body in
  wp (call_and_write req) (fun fl s' => ok_answer ex k s s' rest skipped fin fl)
     (fun e s' => err_answer ex k s s' e) s.
Proof.
  intros Hb Hk ex. unfold call_and_write. wp_step. wp_step. unfold on_app. wp_step.
  set (reads := app_reads sp (cs_app s) (req_method req) (req_uri req) (req_version req)
                          (req_headers req) body).
  eapply wp_mono; [by apply (call_spec k (cs_app s) (cs_world s) req body rest skipped fin)| |].
  2: { intros e [app' w1] (Hw1 & Hr & Ha). split.
       - split; [|done]. by split_and!; [..|eapply waits_hstep].
       - exists 0%N, [], app', (inr (IoError Other e)), reads.
         split; [unfold ex, served, respond; by rewrite Ha|]. left. split_and!; [done|done|].
         rewrite app_nil_r. by apply (text_hstep k). }
  fold reads. set (rest' := if reads then rest else skipped).
  intros res [app' w1] (Hw1 & res0 & Ha & Hst & Hh & Hx & Hlen & Hgo & Hout). wp_step.
  unfold on_world. wp_step. eapply wp_never_mono; [apply prepare_spec|]. intros res' w2 [-> [t Hres']].
  cbn [cs_world cs_queue cs_writer cs_app fst snd].
  set (s1 := Build_conn_state _ _ _ _).
  assert (Hs1 : text_of s1 = text_of s) by by apply (text_hstep k).
  assert (Hk1 : waits k w1) by by eapply waits_hstep.
  assert (Hserved : ex t = served_as t app' res0 req reads) by by apply served_answer.
  eapply wp_mono.
  { apply (write_and_go_spec _ res' _ s1
      (fun encoding => app_body sp encoding (res_body res0)) k rest' fin); subst res'.
    - exact Hgo.
    - intros encoding h Hfl Hf. exact (Hout t encoding h Hfl Hf). }
  - intros fl s' (encoding & h & Hf & Hw & Hp & ->).
    destruct (wrote_intact k _ _ _ Hw Hk1) as (Hin & Happ & Ht).
    subst res'. cbn in Hf, Ht, Happ. rewrite <-Hh, <-Hlen in Hf.
    unfold served_as in Hserved. cbv zeta in Hserved. rewrite Hf, Hx in Hserved.
    do 4 eexists. split; [by rewrite Hserved, Happ|]. split; [done|]. split; [done|].
    by rewrite Ht, Hs1, Hst.
  - intros e s' [He Hr]. subst res'. cbn in He. rewrite <-Hh, <-Hlen in He.
    unfold served_as in Hserved. cbv zeta in Hserved.
    destruct (response_framing _ _ _) as [[encoding h]|e'] in Hserved, He.
    + destruct He as (Hcf & p & Hp & Hw).
      destruct (wrote_intact k _ _ _ Hw Hk1) as (Hin & Happ & Ht). split; [done|].
      do 5 eexists. split; [done|]. right. split; [done|]. exists p. rewrite Hst. by rewrite Ht, Hs1.
    + destruct He as [-> Hw]. destruct (wrote_intact k _ _ _ Hw Hk1) as (Hin & Happ & Ht).
      split; [done|]. do 5 eexists. split; [done|]. left. by rewrite Ht, Hs1, Happ.
Qed.

(** *** [Expect: 100-continue] *)
Definition with_app s (app : A) : state :=
  Build_conn_state (cs_queue s) (cs_writer s) app (cs_world s).

Lemma unit_deliverable w :
  0 < fuel ->
  deliverable tt w (fun encoding => match encoding with Chunked => encode_chunks [] | _ => [] end).
Proof.
  intros Hf. split; [by intros E w' _; apply wp_ret|].
  intros [len| |]; cbn.
  - by destruct (len <? 1024)%N; exists [].
  - exists (eq []). split; [done|]. by intros items <-.
  - by exists [].
Qed.

Lemma interim_spec status s text :
  interim status = Some text -> 0 < fuel ->
  wp (on_writer (write_response (status_response (C := C) (Hd := Hd) status) true);;; on_writer flush)
     (fun _ s' => wrote wstep s text s') (fun _ s' => wrote_part wstep s text s') s.
Proof.
  intros Hi Hf. unfold interim in Hi.
  destruct (response_framing HTTP_11 hm_new (Some 0%N)) as [[encoding h]|] eqn:Hfr; [|done].
  assert (encoding = FixedLength 0 /\
    text = message_head (status_line HTTP_11 status) (hm_iter h)) as [-> ->].
  { destruct encoding as [[|]| |]; naive_solver. }
  wp_step. unfold on_writer at 1. wp_step. cbn [fst snd].
  eapply wp_mono; [eapply (owned_response_written (status_response (Hd := Hd) (C := C) status) true);
    [done|by apply unit_deliverable]| |].
  - intros o [bw' w'] [Ha _]. cbn [res_version res_status status_response] in Ha.
    rewrite app_nil_r in Ha.
    eapply wp_mono; [apply (flush_spec_state 0)| |].
    + intros [] s2 [(Hq2 & Happ2 & Ha2) _]. split; [done|]. split; [done|].
      rewrite <-(app_nil_r (message_head _ _)). by eapply (adds_trans wstep).
    + intros e s2 [(Hc & p & Hp & Hq2 & Happ2 & Ha2) _]. split; [done|].
      apply prefix_nil_inv in Hp as ->. exists (message_head (status_line HTTP_11 status) (hm_iter h)).
      split; [done|]. split; [done|]. split; [done|].
      rewrite <-(app_nil_r (message_head _ _)). by eapply (adds_trans wstep).
  - intros e [bw' w'] Hc. cbn [res_version res_status status_response] in Hc.
    rewrite app_nil_r in Hc. destruct Hc as (Hc & p & Hp & Ha2).
    split; [done|]. exists p. by split.
Qed.

Lemma answer_expectation_spec k s req body rest skipped fin app status text :
  incoming_body k (req_body req) (cs_world s) body rest skipped fin -> waits k (cs_world s) ->
  app_continue sp (cs_app s) (req_method req) (req_uri req) (req_version req)
               (req_headers req) = (app, status) ->
  expect_is_continue (req_headers req) = true -> interim status = Some text ->
  wp (answer_expectation req)
     (fun go s' => go = (status =? STATUS_CONTINUE)%N /\ wrote wstep (with_app s app) text s')
     (fun _ s' => freed k s s' /\ raw_can_fail W C /\
        exists p, p `prefix_of` text /\ text_of s' = text_of s ++ p) s.
Proof.
  intros Hb Hk Hc He Hi. unfold answer_expectation. rewrite He. wp_step.
  assert (Hf : 0 < fuel) by (destruct Hb as (? & ? & _ & ? & _); lia).
  unfold on_app. wp_step. eapply wp_never_mono; [apply continue_spec|].
  intros status' [app' w'] [-> Hc']. rewrite Hc in Hc'. injection Hc' as <- <-.
  cbn [fst snd]. fold (with_app s app). wp_step. wp_step.
  eapply wp_mono; [by apply interim_spec| |].
  - intros [] s' Hw. by apply wp_ret.
  - intros e s' (Hcf & p & Hp & (Hq & Happ & Hw & Hin & Hout)). cbn in *.
    unfold on_world. wp_step.
    eapply wp_never_mono.
    { apply (drop_incoming _ k _ _ body rest skipped fin). by eapply incoming_body_wstep. }
    intros [] w2 Hh. split; [|split; [done|exists p; split; [done|]]].
    + split; [|eapply passed_released; apply Hh]. split_and!; [done|done|].
      eapply waits_hstep; [|apply Hh]. by eapply waits_wstep.
    + unfold text_of. cbn. rewrite <-Hout. by eapply text_hstep, (proj1 Hh).
Qed.

(** *** The whole arm *)
Lemma intact_from k s app text s1 s' :
  wrote wstep (with_app s app) text s1 -> intact k s1 s' -> intact k s s'.
Proof.
  intros (Hq1 & _ & _ & Hi1 & _) (Hq & Hi & Hr). split; [by rewrite Hq, Hq1|].
  by split; [rewrite Hi, Hi1|].
Qed.

(** The request goes on to the service after [text] was written. *)
Lemma proceed_spec k s req body rest skipped fin app text s1 (ex : answer_at) :
  incoming_body k (req_body req) (cs_world s) body rest skipped fin -> waits k (cs_world s) ->
  wrote wstep (with_app s app) text s1 ->
  (forall t, ex t = '(out, app, r, reads) ←
     served sp t app (req_method req) (req_uri req) (req_version req) (req_headers req) body;
     Some (text ++ out, app, r, reads)) ->
  wp (call_and_write req) (fun fl s' => ok_answer ex k s s' rest skipped fin fl)
     (fun e s' => err_answer ex k s s' e) s1.
Proof.
  intros Hb Hk Hwr Hexc. pose proof Hwr as (_ & Happ1 & Hw1 & _ & Ho1). cbn in Happ1, Hw1.
  assert (Ht1 : text_of s1 = text_of s ++ text) by done.
  eapply wp_mono.
  { apply (call_and_write_spec k s1 req body rest skipped fin).
    - by eapply incoming_body_wstep.
    - by eapply waits_wstep. }
  - intros fl s' (t & out & go & reads & Hr & Hkept & -> & Ho). rewrite Happ1 in Hr.
    exists t, (text ++ out), go, reads. rewrite Hexc, Hr. split; [done|].
    destruct Hkept as [Hin Hp].
    split; [split; [by eapply intact_from|done]|]. split; [done|]. by rewrite Ho, Ht1, app_assoc.
  - intros e s' ([Hin Hp] & t & out & app' & r & reads & Hr & Ho). rewrite Happ1 in Hr.
    split; [split; [by eapply intact_from|done]|].
    exists t, (text ++ out), app', r, reads. rewrite Hexc, Hr.
    split; [done|]. destruct Ho as [(-> & -> & ->)|(Hcf & p & Hpre & ->)]; rewrite Ht1, <-app_assoc.
    + by left.
    + right. split; [done|]. exists (text ++ p). split; [by apply prefix_app|done].
Qed.

Lemma unexpecting_spec k s req body rest skipped fin :
  expect_is_continue (req_headers req) = false ->
  incoming_body k (req_body req) (cs_world s) body rest skipped fin -> waits k (cs_world s) ->
  let ex t := exchange sp t (cs_app s) (req_method req) (req_uri req) (req_version req)
                       (req_headers req) body in
  wp (answer_request req) (fun fl s' => ok_answer ex k s s' rest skipped fin fl)
     (fun e s' => err_answer ex k s s' e) s.
Proof.
  intros He Hb Hk ex. unfold answer_request, answer_expectation. rewrite He.
  wp_step. apply wp_ret. cbn [negb].
  apply (proceed_spec k s req body rest skipped fin (cs_app s) [] s ex Hb Hk).
  - split; [done|]. split; [done|]. split_and!; [done|done|by rewrite app_nil_r].
  - intros t. unfold ex, exchange. rewrite He.
    by destruct (served _ _ _ _ _ _ _ _) as [[[[out app] r] reads]|].
Qed.

Lemma answer_request_spec k s req body rest skipped fin :
  incoming_body k (req_body req) (cs_world s) body rest skipped fin -> waits k (cs_world s) ->
  let ex t := exchange sp t (cs_app s) (req_method req) (req_uri req) (req_version req)
                       (req_headers req) body in
  (forall t, is_Some (ex t)) ->
  wp (answer_request req) (fun fl s' => ok_answer ex k s s' rest skipped fin fl)
     (fun e s' => err_answer ex k s s' e) s.
Proof.
  intros Hb Hk ex Hex.
  destruct (expect_is_continue (req_headers req)) eqn:He; [|by eapply unexpecting_spec].
  unfold answer_request. wp_step.
  destruct (app_continue sp (cs_app s) (req_method req) (req_uri req) (req_version req)
              (req_headers req)) as [app status] eqn:Hc.
  assert (Hexc : forall t, ex t = text ← interim status;
    if (status =? STATUS_CONTINUE)%N
    then '(out, app, r, reads) ← served sp t app (req_method req) (req_uri req)
                                        (req_version req) (req_headers req) body;
         Some (text ++ out, app, r, reads)
    else Some (text, app, inl Continues, false)) by (intros t; unfold ex, exchange; by rewrite He, Hc).
  destruct (interim status) as [text|] eqn:Hi.
  2: { destruct (Hex 0%N) as [x Hx]. by rewrite Hexc in Hx. }
  cbn [mbind option_bind] in Hexc.
  eapply wp_mono; [by eapply answer_expectation_spec| |].
  2: { intros e s' (Hkept & Hcf & p & Hp & Ht). split; [done|].
       destruct (Hex 0%N) as [[[[out app'] r] reads] Hr]. exists 0%N, out, app', r, reads.
       split; [done|]. right. split; [done|]. exists p. split; [|done]. rewrite Hexc in Hr.
       destruct (status =? STATUS_CONTINUE)%N; [|by injection Hr as <- _ _ _].
       destruct (served _ _ _ _ _ _ _ _) as [[[[out' app2] r'] reads']|]; [|done].
       injection Hr as <- _ _ _. etrans; [exact Hp|]. by apply prefix_app_r. }
  intros go s1 (-> & Hwr). destruct (status =? STATUS_CONTINUE)%N; cbn [negb].
  { by apply (proceed_spec k s req body rest skipped fin app text s1). }
  pose proof Hwr as (Hq1 & Happ1 & Hw1 & Hi1 & Ho1). cbn in Hq1, Happ1, Hw1, Hi1, Ho1.
  wp_step. unfold on_world. wp_step.
  eapply wp_never_mono; [eapply drop_incoming; by eapply incoming_body_wstep|].
  intros [] w2 Hh. apply wp_ret. exists 0%N, text, Continues, false. rewrite Hexc.
  split; [by rewrite Happ1|]. split; [|split; [done|]].
  - split; [|apply Hh]. split_and!; [done|done|].
    eapply waits_hstep; [|apply Hh]. by eapply waits_wstep.
  - etrans; [|exact Ho1]. by apply (text_hstep k (cs_writer s1)), (proj1 Hh).
Qed.

(** *** Leaving *)
Lemma drop_receiver_any E (c : Receiver R) w :
  wp (drop_receiver (E := E) c) (fun _ w' => rstep w w') never w.
Proof.
  assert (Hall : forall (vs : list R) w, wp (drop_all (E := E) vs) (fun _ w' => rstep w w') never w).
  { induction vs as [|v vs IH]; intros w1; [by apply wp_ret|]. cbn [drop_all]. wp_step.
    eapply wp_never_mono; [apply (conn_drop_any E (br_inner v))|]. intros [] w2 Hw2.
    eapply wp_never_mono; [apply IH|]. intros [] w3 Hw3. by etrans. }
  unfold wp at 1, drop_receiver. destruct (chans (the_store w) !! rx c) as [ch|]; [|done].
  set (w1 := update_chan _ _ w). pose proof (Hall (queue ch) w1) as Hda. unfold wp in Hda.
  destruct (drop_all (queue ch) w1); try done. etrans; [|exact Hda]. apply set_store_rstep.
Qed.

Definition can_drop (q : QReader C) w : Prop :=
  exists k, owns (R := R) k q w /\ with_reader k q w (fun _ => True).

Lemma leave_spec E s (reader : option (QReader C)) j :
  cs_queue s = Next j ->
  match reader with Some q => can_drop q (cs_world s) | None => True end ->
  wp (leave (E := E) reader)
     (fun _ s' => cs_app s' = cs_app s /\
        drained (bw_inner (cs_writer s)) (text_of s) (cs_world s')) never s.
Proof.
  intros Hq Hrd. unfold leave. wp_steps. unfold on_world. wp_steps.
  eapply wp_never_mono; [apply writer_drop_spec|]. intros [] w2 (w1 & Hw1 & Hdrop & Hw2 & Hdr).
  assert (Hst : get_store (T := R) w2 = get_store (cs_world s)).
  { rewrite <-(wstep_store _ _ Hw1). pose proof (conn_drop_keeps E (bw_inner (cs_writer s)) w1) as Hk.
    by rewrite Hdrop in Hk. }
  assert (Hqueue : forall w3, rstep w2 w3 ->
    wp (E := E) (drop_value (cs_queue s)) (fun _ w4 => rstep w2 w4) never w3).
  { intros w3 Hw3. rewrite Hq. eapply wp_never_mono; [apply drop_receiver_any|].
    intros [] w4 Hw4. by etrans. }
  wp_step. apply (wp_never_mono _ (fun _ w3 => rstep w2 w3)).
  - destruct reader as [q|]; [|by apply wp_ret].
    destruct Hrd as (k & [Hn Hc] & Hr).
    eapply wp_never_mono; [apply (q_drop_spec k q w2 [] None (fun _ => True))|].
    + split; [done|]. unfold chan_at, the_store in *. by rewrite Hst.
    + by eapply with_reader_mono.
    + by intros [] w3 [[Hw3 _] _].
  - intros [] w3 Hw3. eapply wp_never_mono; [by apply Hqueue|]. intros [] w4 Hw4.
    split; [done|]. by eapply drained_rstep.
Qed.

Lemma next_reader_can_drop k w :
  waits k w -> released k w -> can_drop (next_reader k) w.
Proof.
  intros [Hk1 _] (r & Hk). exists (S k). split; [by split|]. split; [cbn; lia|]. by exists r, false.
Qed.

(** *** The hand-over to the handler of an upgrade *)

(** [conn] is the connection of all the handles that read it: when one of them is dropped,
    [conn] stands where it stood. *)
Class ConnShared (conn : C) := conn_drop_shared E (c : C) w bs fin :
  holds c w bs fin ->
  wp (drop_value (E := E) c) (fun _ w' => rstep w w' /\ holds conn w' bs fin) never w.

(** What the handler reads: what is left of the stream, behind the [lost] bytes that the
    reader of the server had buffered, at most its buffer full. *)
Definition left_for (conn : C) (left : bytes) (fin : option io_error) w : Prop :=
  exists lost seen, left = lost ++ seen /\ length lost <= DEFAULT_BUF_SIZE /\ holds conn w seen fin.

(** What the handler finds: everything that was written is accepted, too. *)
Definition handed_to (conn : C) (left : bytes) (fin : option io_error) (out : bytes) w : Prop :=
  accepted conn w = out /\ (ConnShared conn -> left_for conn left fin w).

(** The last reader goes with the queue. *)
Lemma drop_queue_spec E k w left fin (conn : C) :
  q_passed (R := R) k w left fin ->
  wp (drop_receiver (E := E) (Build_Receiver (T := R) k))
     (fun _ w' => rstep w w' /\ (ConnShared conn -> left_for conn left fin w')) never w.
Proof.
  intros (r & Hk & Hr). unfold wp at 1, drop_receiver. unfold chan_at in Hk. cbn [rx]. rewrite Hk.
  cbn [queue drop_all]. set (w1 := update_chan _ _ w).
  assert (Hw1 : rstep w w1) by apply set_store_rstep.
  assert (Hr1 : holds r w1 left fin) by exact (holds_store r w _ left fin Hr).
  destruct Hr1 as (seen & -> & Hlen & Hin). unfold bind.
  pose proof (conn_drop_any E (br_inner r) w1) as Hany.
  pose proof (fun Hs : ConnShared conn => Hs E (br_inner r) w1 seen fin Hin) as Hshared.
  unfold wp in *. change (drop_value (E := E) r w1) with (drop_value (E := E) (br_inner r) w1).
  destruct (drop_value (br_inner r) w1) as [[] w2|e w2| | |]; [|done..]. cbn.
  split; [by etrans|]. intros Hs. exists (br_buf r), seen. split_and!; [done|done|]. by apply Hshared.
Qed.

Lemma hand_over_spec (upgrade : UpgradeExtension Hd) k s left fin (Q : W -> Prop) :
  waits k (cs_world s) -> q_passed (R := R) k (cs_world s) left fin ->
  cs_queue s = Next (Build_Receiver (S k)) ->
  let conn := bw_inner (cs_writer s) in
  (forall w', handed_to conn left fin (text_of s) w' ->
     wp (E := io_error) (handle (handler upgrade) conn) (fun _ w'' => Q w'') never w') ->
  wp (hand_over upgrade (next_reader k))
     (fun _ s' => cs_app s' = cs_app s /\ Q (cs_world s'))
     (fun _ s' => cs_app s' = cs_app s /\ raw_can_fail W C /\
        accepted conn (cs_world s') `prefix_of` text_of s) s.
Proof.
  intros Hk Hp Hq conn Hh. unfold hand_over, on_world. wp_steps. unfold into_inner.
  destruct (next_reader_holds k _ left fin Hk Hp) as [Ho Hrd].
  eapply wp_never_mono.
  { exact (drop_holds (ReadLaws := queued_read_laws (S k)) _ _ _ left fin (conj Ho Hrd)). }
  intros [] w1 [[Hw1 _] Hp1]. wp_step. rewrite Hq.
  eapply wp_never_mono; [exact (drop_queue_spec _ (S k) w1 left fin conn Hp1)|].
  intros [] w2 [Hw2 Hseen]. wp_step.
  assert (Hw : rstep (cs_world s) w2) by by etrans.
  assert (Ht : buf_written (cs_writer s) w2 = text_of s).
  { unfold text_of, buf_written. by rewrite (accepted_rstep _ (cs_world s) w2). }
  pose proof (flush_buf_spec (cs_writer s) w2) as Hf. pose proof (flush_buf_inner (cs_writer s) w2) as Hi.
  unfold wp at 1 in Hf. unfold wp at 1.
  destruct (flush_buf (cs_writer s, w2)) as [[] [bw w3]|e [bw w3]| | |]; [| |done..].
  - destruct Hf as (Hw3 & _ & Hacc). rewrite Hi in Hacc |- *.
    eapply wp_never_mono; [apply Hh|done]. split; [by rewrite <-Ht, <-Hacc|].
    intros Hs. destruct (Hseen Hs) as (lost & seen & Hl & Hlen & Hc). exists lost, seen.
    split_and!; [done|done|]. by eapply holds_wstep.
  - destruct Hf as (Hc & _ & Hacc).
    pose proof (writer_drop_spec io_error bw w3) as Hd'. unfold bind, wp in *.
    destruct (drop_value bw w3) as [[] w4|e' w4| | |]; [|done..].
    destruct Hd' as (w0 & _ & _ & _ & [Hpre _]). cbn. split; [done|]. split; [done|].
    unfold conn. by rewrite <-Hi, <-Ht, <-Hacc.
Qed.

(** *** One iteration and the loop

    Before an iteration: [q] is the handle of the channel [k], with [bs] to come;
    [text] was written so far. *)
Definition ready (k : nat) (q : QReader C) (conn : C) s (text bs : bytes)
    (fin : option io_error) : Prop :=
  cs_queue s = Next (Build_Receiver k) /\ chan_count (R := R) (cs_world s) = S k /\
  q_holds (R := R) k q (cs_world s) bs fin /\ bw_inner (cs_writer s) = conn /\ text_of s = text.

Abbreviation ref fin n ts app bs := (reference sp fin n ts app bs).

Section loop.
(** The handlers of upgrades end with [Q]. *)
Variable Q : W -> Prop.

Definition handlers_end fin n app (bs : bytes) (conn : C) (text : bytes) : Prop :=
  forall ts out upgrade left app',
    ref fin n ts app bs = Some (out, HandedOver upgrade left, app') ->
    forall w', handed_to conn left fin (text ++ out) w' ->
      wp (E := io_error) (handle (handler upgrade) conn) (fun _ w'' => Q w'') never w'.

(** The end of the connection, as the reference has it. *)
Definition ended fin n app (bs : bytes) (conn : C) (text : bytes) s' : Prop :=
  exists ts out r, ref fin n ts app bs = Some (out, r, cs_app s') /\
    match r with
    | Closed => drained conn (text ++ out) (cs_world s')
    | FailedWith _ => False
    | HandedOver _ _ => Q (cs_world s')
    end.

(** It ended early: with the error of the reference, or because the connection
    failed; what it accepted is then a part of the reference's output. *)
Definition broken fin n app (bs : bytes) (conn : C) (text : bytes) e s' : Prop :=
  exists ts out r app', ref fin n ts app bs = Some (out, r, app') /\
    accepted conn (cs_world s') `prefix_of` text ++ out /\
    ((r = FailedWith e /\ app' = cs_app s' /\ drained conn (text ++ out) (cs_world s')) \/
     raw_can_fail W C).

Lemma reference_exchange fin n ts app bs m u v h body rest skipped out app' r reads :
  request_at fin bs = Arrives m u v h body rest skipped ->
  exchange sp (ts 0) app m u v h body = Some (out, app', r, reads) ->
  let left := if reads : bool then rest else skipped in
  ref fin (S n) ts app bs =
  match r with
  | inr e => Some (out, FailedWith e, app')
  | inl Finishes => Some (out, Closed, app')
  | inl (Upgrades upgrade) => Some (out, HandedOver upgrade left, app')
  | inl Continues =>
      '(out', r, app) ← ref fin n (fun i => ts (S i)) app' left; Some (out ++ out', r, app)
  end.
Proof. intros Hr He. cbn [reference]. rewrite Hr, He. done. Qed.

Lemma exchange_defined fin n app bs m u v h body rest skipped :
  request_at fin bs = Arrives m u v h body rest skipped ->
  (forall ts, is_Some (ref fin (S n) ts app bs)) ->
  forall t, is_Some (exchange sp t app m u v h body).
Proof.
  intros Hr Hdef t. destruct (Hdef (fun _ => t)) as [x Hx]. cbn [reference] in Hx.
  rewrite Hr in Hx. by destruct (exchange _ _ _ _ _ _ _ _).
Qed.

(** A clock that shows [t] first *)
Definition clock_from (t : N) (ts : nat -> N) (i : nat) : N :=
  match i with O => t | S i => ts i end.

Definition step_next fin n app bs (conn : C) (text : bytes) (next : option (QReader C)) s' : Prop :=
  match next with
  | Some q =>
      exists k m u v h body rest skipped out t reads,
        request_at fin bs = Arrives m u v h body rest skipped /\
        exchange sp t app m u v h body = Some (out, cs_app s', inl Continues, reads) /\
        ready k q conn s' (text ++ out) (if reads : bool then rest else skipped) fin
  | None => ended fin (S n) app bs conn text s'
  end.

(** The arm [Ok(req)] of an iteration. *)
Lemma serve_arm_spec k s req m u v h body rest skipped conn text bs fin n :
  request_at fin bs = Arrives m u v h body rest skipped ->
  m = req_method req -> u = req_uri req -> v = req_version req -> h = req_headers req ->
  incoming_body k (req_body req) (cs_world s) body rest skipped fin -> waits k (cs_world s) ->
  cs_queue s = Next (Build_Receiver (S k)) -> bw_inner (cs_writer s) = conn ->
  text_of s = text -> (forall ts, is_Some (ref fin (S n) ts (cs_app s) bs)) ->
  handlers_end fin (S n) (cs_app s) bs conn text ->
  wp (let! next := attempt (answer_request req) in
      match next with
      | inl Again => ret (Some (next_reader k))
      | inl Leave => leave (Some (next_reader k));;; ret None
      | inl (Upgraded upgrade) => hand_over upgrade (next_reader k);;; ret None
      | inr err => leave (Some (next_reader k));;; fail err
      end)
     (step_next fin n (cs_app s) bs conn text)
     (broken fin (S n) (cs_app s) bs conn text) s.
Proof.
  intros Hreq -> -> -> -> Hb Hk Hq Hconn <- Hdef Hh.
  pose proof (exchange_defined _ _ _ _ _ _ _ _ _ _ _ Hreq Hdef) as Hex.
  wp_step. wp_step. eapply wp_mono; [by apply answer_request_spec| |].
  - intros fl s' (t & out & after & reads & Hx & ((Hq' & Hi' & Hk') & Hp') & -> & Ho).
    pose proof (fun ts => reference_exchange fin n (clock_from t ts) _ _ _ _ _ _ _ _ _ _ _ _ _ Hreq Hx) as Hrf.
    set (left := if reads then rest else skipped) in *. destruct after as [| |upgrade]; cbn [flow_of].
    + apply wp_ret. exists (S k), (req_method req), (req_uri req), (req_version req),
        (req_headers req), body, rest, skipped, out, t, reads.
      split_and!; [done|done|]. split_and!; [by rewrite Hq'|by destruct Hk'| |by rewrite Hi'|done].
      by apply next_reader_holds.
    + wp_step. eapply wp_never_mono.
      { eapply leave_spec; [by rewrite Hq'|by eapply next_reader_can_drop, passed_released]. }
      intros [] s2 [Happ Hdr]. apply wp_ret. exists (clock_from t (fun _ => t)), out, Closed.
      split; [by rewrite Hrf, Happ|]. by rewrite <-Ho, <-Hconn, <-Hi'.
    + wp_step. rewrite <-Hi' in Hconn. subst conn. eapply wp_mono.
      { apply (hand_over_spec upgrade k s' left fin Q Hk' Hp'); [by rewrite Hq'|]. rewrite Ho.
        exact (Hh _ _ _ _ _ (Hrf (fun _ => t))). }
      * intros [] s2 [Happ HQ]. apply wp_ret. exists (clock_from t (fun _ => t)), out, (HandedOver upgrade left).
        by rewrite Hrf, Happ.
      * intros e s2 (Happ & Hcf & Hpre). exists (clock_from t (fun _ => t)), out, (HandedOver upgrade left), (cs_app s').
        rewrite Hrf. split; [done|]. rewrite <-Ho. split; [done|by right].
  - intros e s' (((Hq' & Hi' & Hk') & Hp') & t & out & app' & r & reads & Hx & Ho). wp_step.
    eapply wp_never_mono.
    { eapply leave_spec; [by rewrite Hq'|by eapply next_reader_can_drop]. }
    intros [] s2 [Happ Hdr]. rewrite Hi', Hconn in Hdr. apply wp_fail.
    destruct (Hdef (fun _ => t)) as [[[out' r'] app2] Hrf].
    exists (fun _ => t), out', r', app2. split; [done|].
    rewrite (reference_exchange _ _ _ _ _ _ _ _ _ _ _ _ _ _ _ _ Hreq Hx) in Hrf.
    destruct Ho as [(-> & -> & Ho)|(Hcf & p & Hp & Ho)].
    + injection Hrf as <- <- <-. rewrite Ho in Hdr. split; [apply Hdr|]. left. by rewrite Happ.
    + split; [|by right]. rewrite Ho in Hdr. destruct Hdr as [Hdr _].
      assert (Hout : out `prefix_of` out').
      { destruct r as [[| |]|]; [|by simplify_eq..].
        destruct (reference _ _ _ _ _ _) as [[[out2 r2] app3]|]; [|done].
        injection Hrf as <- _ _. by apply prefix_app_r. }
      etrans; [exact Hdr|]. apply prefix_app. by etrans.
Qed.

Lemma serve_step_spec k q conn s text bs fin n :
  ready k q conn s text bs fin -> S (length bs) < fuel ->
  (forall ts, is_Some (ref fin (S n) ts (cs_app s) bs)) ->
  handlers_end fin (S n) (cs_app s) bs conn text ->
  wp (serve_step q) (step_next fin n (cs_app s) bs conn text)
     (broken fin (S n) (cs_app s) bs conn text) s.
Proof.
  intros (Hq & Hc & Hr & Hconn & Ht) Hf Hdef Hh. unfold serve_step. wp_step. wp_step.
  unfold on_world at 1. wp_step. eapply wp_mono; [by apply (parse_spec k q)| |].
  - intros req w1 [Hw1 Hreq]. destruct (Hdef (fun _ => 0%N)) as [x Hx]. cbn [reference] in Hx.
    destruct (request_at fin bs) as [m u v h body rest skipped| |] eqn:Hat; [|done..]. clear x Hx.
    destruct Hreq as (-> & -> & -> & -> & Hb).
    wp_step. unfold on_queue. wp_step. cbn [fst snd cs_queue cs_writer cs_app cs_world].
    rewrite Hq. eapply wp_never_mono; [apply enqueue_spec; by rewrite (proj2 (proj2 Hw1))|].
    intros q' [queue w2] (-> & -> & Hk & Hw2 & Hi & Hh2). cbn [fst snd].
    eapply (serve_arm_spec k (Build_conn_state (Next (Build_Receiver (S k))) (cs_writer s)
             (cs_app s) w2) req); try done.
    + by apply (incoming_body_same k _ w1 w2).
    + rewrite <-Ht. unfold text_of. rewrite <-(text_hstep k (cs_writer s) _ _ Hw1).
      unfold buf_written. cbn. by rewrite (accepted_rstep _ w1 w2).
  - intros e w1 [Hw1 Hat].
    assert (Hleave : forall E (P : unit -> state -> Prop) (X : E -> state -> Prop),
      (forall s', cs_app s' = cs_app s -> drained conn text (cs_world s') -> P tt s') ->
      wp (leave (E := E) None) P X
         (Build_conn_state (cs_queue s) (cs_writer s) (cs_app s) w1)).
    { intros E P X HP. eapply wp_never_mono; [by apply (leave_spec E _ None (Build_Receiver k))|].
      intros [] s' [Happ Hdr]. apply HP; [done|]. rewrite <-Hconn, <-Ht.
      unfold text_of. by rewrite <-(text_hstep k (cs_writer s) _ _ Hw1). }
    destruct e; try (wp_step; apply Hleave; intros s' Happ Hdr; apply wp_fail;
      exists (fun _ => 0%N), []; do 2 eexists; rewrite app_nil_r; cbn [reference]; rewrite Hat;
      split; [done|]; split; [apply Hdr|by left]).
    wp_step. apply Hleave. intros s' Happ Hdr. apply wp_ret. exists (fun _ => 0%N), [], Closed.
    rewrite app_nil_r. cbn [reference]. by rewrite Hat, Happ.
Qed.

Lemma serve_loop_spec k q conn s text bs fin n m :
  ready k q conn s text bs fin -> S (length bs) < fuel -> n <= m ->
  (forall ts, is_Some (ref fin n ts (cs_app s) bs)) ->
  handlers_end fin n (cs_app s) bs conn text ->
  wp (serve_loop m q) (fun _ s' => ended fin n (cs_app s) bs conn text s')
     (broken fin n (cs_app s) bs conn text) s.
Proof.
  revert k q s text bs m. induction n as [|n IH]; intros k q s text bs m Hrd Hf Hm Hdef Hh.
  { by destruct (Hdef (fun _ => 0%N)). }
  destruct m as [|m]; [lia|]. cbn [serve_loop]. wp_step.
  eapply wp_mono; [by apply (serve_step_spec k q conn s text bs fin n)| |done].
  intros [q'|] s' Hnext; [|by apply wp_ret].
  destruct Hnext as (k' & me & u & v & h & body & rest & skipped & out & t & reads & Hat & Hx & Hrd').
  set (next_bs := if reads then rest else skipped) in *.
  assert (Hcons : forall ts, ref fin (S n) (clock_from t ts) (cs_app s) bs =
    '(out', r, app) ← ref fin n ts (cs_app s') next_bs; Some (out ++ out', r, app)).
  { intros ts. by rewrite (reference_exchange fin n (clock_from t ts) _ _ _ _ _ _ _ _ _ _ _ _ _ Hat Hx). }
  assert (Hrest : length next_bs <= length bs).
  { apply request_at_length in Hat. subst next_bs. destruct reads; lia. }
  eapply wp_mono; [apply (IH k' q' s' (text ++ out) next_bs m Hrd'); [lia|lia|..]| |].
  - intros ts. destruct (Hdef (clock_from t ts)) as [x Hx'].
    rewrite Hcons in Hx'. by destruct (ref fin n ts (cs_app s') next_bs).
  - intros ts out' upgrade left app' Hrf. rewrite <-app_assoc. apply (Hh (clock_from t ts) _ _ left app').
    by rewrite Hcons, Hrf.
  - intros [] s2 (ts & out' & r & Hrf & Hdr). eexists (clock_from t ts), (out ++ out'), r. rewrite Hcons, Hrf.
    split; [done|]. by rewrite app_assoc.
  - intros e s2 (ts & out' & r & app' & Hrf & Hp & Ho).
    eexists (clock_from t ts), (out ++ out'), r, app'. rewrite Hcons, Hrf. rewrite app_assoc. by split_and!.
Qed.

Lemma serve_spec (conn : C) (app : A) w bs fin :
  holds conn w bs fin -> S (length bs) < fuel ->
  (forall ts, is_Some (ref fin (S (length bs)) ts app bs)) ->
  handlers_end fin (S (length bs)) app bs conn (accepted conn w) ->
  wp (serve conn)
     (fun _ '(app', w') => exists ts out r,
        ref fin (S (length bs)) ts app bs = Some (out, r, app') /\
        match r with
        | Closed => drained conn (accepted conn w ++ out) w'
        | FailedWith _ => False
        | HandedOver _ _ => Q w'
        end)
     (fun e '(app', w') => exists ts out r app2,
        ref fin (S (length bs)) ts app bs = Some (out, r, app2) /\
        accepted conn w' `prefix_of` accepted conn w ++ out /\
        ((r = FailedWith e /\ app2 = app' /\ drained conn (accepted conn w ++ out) w') \/
         raw_can_fail W C)) (app, w).
Proof.
  intros Hc Hf Hdef Hend. unfold serve. wp_step. wp_step.
  eapply wp_never_mono; [by apply (conn_clone io_error conn w bs fin)|].
  intros conn' w1 [Hw1 Hc1]. cbn [fst snd].
  set (start := Build_conn_state (ReadQueue_new (BufReader_new conn')) (BufWriter_new conn) app w1).
  assert (Hl : wp (let! reader := on_queue enqueue in serve_loop fuel reader)
     (fun _ s' => ended fin (S (length bs)) app bs conn (accepted conn w) s')
     (broken fin (S (length bs)) app bs conn (accepted conn w)) start).
  { wp_step. unfold on_queue. wp_step. cbn [fst snd start cs_queue cs_world].
    eapply wp_never_mono; [apply enqueue_first|].
    intros q [queue w2] (-> & -> & Hk & Hn & Hw2 & Hh). cbn [fst snd].
    eapply serve_loop_spec; [|done|lia|done|done]. split; [done|]. split; [done|].
    split; [|split; [done|]].
    - split; [by split|]. apply Hh. by apply buf_holds_new.
    - unfold text_of, buf_written. cbn. rewrite app_nil_r.
      rewrite (accepted_rstep _ w1 w2) by done. by rewrite (accepted_rstep _ w w1). }
  unfold wp in *. cbn [fst snd]. fold start.
  destruct ((let! reader := on_queue enqueue in serve_loop fuel reader) start);
    [exact Hl|exact Hl|done..].
Qed.

End loop.

(** A reference that is defined and does not hand the connection over *)
Definition stays_http (ref : option (bytes * ending (UpgradeExtension Hd) * A)) : Prop :=
  exists out r app', ref = Some (out, r, app') /\ forall upgrade left, r <> HandedOver upgrade left.

Lemma serve_reference (conn : C) (app : A) w bs fin :
  holds conn w bs fin -> S (length bs) < fuel ->
  (forall ts, stays_http (ref fin (S (length bs)) ts app bs)) ->
  wp (serve conn)
     (fun _ '(app', w') => exists ts out,
        ref fin (S (length bs)) ts app bs = Some (out, Closed, app') /\
        drained conn (accepted conn w ++ out) w')
     (fun e '(app', w') => exists ts out r app2,
        ref fin (S (length bs)) ts app bs = Some (out, r, app2) /\
        accepted conn w' `prefix_of` accepted conn w ++ out /\
        ((r = FailedWith e /\ app2 = app' /\ drained conn (accepted conn w ++ out) w') \/
         raw_can_fail W C)) (app, w).
Proof.
  intros Hc Hf Hdef. eapply wp_mono; [apply (serve_spec (fun _ => False) conn app w bs fin Hc Hf)|..].
  - intros ts. destruct (Hdef ts) as (out & r & app' & -> & _). by eexists.
  - intros ts out upgrade left app' Hr. destruct (Hdef ts) as (out2 & r & app2 & Hr2 & Hno).
    rewrite Hr in Hr2. injection Hr2 as <- <- <-. by destruct (Hno upgrade left).
  - intros [] [app' w'] (ts & out & [| |] & Hr & Ho); [|done..]. by exists ts, out.
  - done.
Qed.

(** The service does not upgrade. *)
Definition plain_service : Prop := forall app method uri version headers body app' res,
  app_call sp app method uri version headers body = (app', inl res) ->
  ext_upgrade (res_extensions res) = None.

Lemma plain_exchange t app m u v h body out app' upgrade reads :
  plain_service -> exchange sp t app m u v h body <> Some (out, app', inl (Upgrades upgrade), reads).
Proof.
  intros Hpl.
  assert (Hs : forall app out app' reads, served sp t app m u v h body <> Some (out, app', inl (Upgrades upgrade), reads)).
  { intros app1 out1 app2 reads1. unfold served, respond. pose proof (Hpl app1 m u v h body) as Hno.
    destruct (app_call sp app1 m u v h body) as [app3 [res|err]]; [|done].
    specialize (Hno app3 res eq_refl). unfold after_response. rewrite Hno.
    destruct (response_framing _ _ _) as [[encoding sent]|e]; [|done]. cbn. by destruct (_ && _). }
  unfold exchange. destruct (expect_is_continue h); [|apply Hs].
  destruct (app_continue sp app m u v h) as [app1 status]. destruct (interim status); [|done].
  cbn [mbind option_bind]. destruct (status =? STATUS_CONTINUE)%N; [|done].
  destruct (served _ _ _ _ _ _ _ _) as [[[[out1 app2] r] reads1]|] eqn:He; [|done].
  cbn [mbind option_bind]. intros [= <- -> -> ->]. by apply Hs in He.
Qed.

Lemma reference_stays fin n ts app bs :
  plain_service -> is_Some (ref fin n ts app bs) -> stays_http (ref fin n ts app bs).
Proof.
  intros Hpl. revert ts app bs. induction n as [|n IH]; intros ts app bs; [by intros []|].
  cbn [reference]. destruct (request_at fin bs) as [m u v h body rest skipped|e|]; [|by destruct e; intros _; do 3 eexists|by intros []].
  destruct (exchange sp (ts 0) app m u v h body) as [[[[out app'] r] reads]|] eqn:Hx; [|by intros []].
  cbn [mbind option_bind]. destruct r as [[| |upgrade]|e].
  - destruct (ref fin n (fun i => ts (S i)) app' (if reads then rest else skipped)) as [[[out' r'] app2]|] eqn:Hr;
      [|by intros []]. intros _. cbn [mbind option_bind].
    destruct (IH (fun i => ts (S i)) app' (if reads then rest else skipped)) as (o & r2 & a & Hr2 & Hno).
    { by rewrite Hr. }
    rewrite Hr in Hr2. injection Hr2 as <- <- <-. by do 3 eexists.
  - intros _. by do 3 eexists.
  - by apply plain_exchange in Hx.
  - intros _. by do 3 eexists.
Qed.

(** ** Properties *)

(** C1. On a connection with [bs] to come, [serve] writes what the reference computes
    from these bytes and ends as the reference does: it answers the requests in
    order, each by what the service returns, interim responses included, and closes,
    goes on or fails where the reference does. Where the reference hands the connection
    over, the handler of the upgrade is called with it, after everything was accepted and
    with the unread rest of the stream to come, less what was buffered of it. When the
    connection itself fails, what it accepted is a prefix of that. *)
Theorem serve_refines (Q : W -> Prop) (conn : C) (app : A) w bs fin :
  holds conn w bs fin -> S (length bs) < fuel ->
  (forall ts, is_Some (reference sp fin (S (length bs)) ts app bs)) ->
  (forall ts out upgrade left app',
     reference sp fin (S (length bs)) ts app bs = Some (out, HandedOver upgrade left, app') ->
     forall w', handed_to conn left fin (accepted conn w ++ out) w' ->
       wp (E := io_error) (handle (handler upgrade) conn) (fun _ w'' => Q w'') never w') ->
  wp (serve conn)
     (fun _ '(app', w') => exists ts out r,
        reference sp fin (S (length bs)) ts app bs = Some (out, r, app') /\
        match r with
        | Closed => drained conn (accepted conn w ++ out) w'
        | FailedWith _ => False
        | HandedOver _ _ => Q w'
        end)
     (fun e '(app', w') => exists ts out r app2,
        reference sp fin (S (length bs)) ts app bs = Some (out, r, app2) /\
        accepted conn w' `prefix_of` accepted conn w ++ out /\
        ((r = FailedWith e /\ app2 = app' /\ drained conn (accepted conn w ++ out) w') \/
         raw_can_fail W C)) (app, w).
Proof. apply serve_spec. Qed.

(** C34. A request with a small body is not answered before its body has arrived, not even
    by an interim response: when the client waits for one ([Expect: 100-continue]) until
    the read fails, [serve] writes nothing, calls nothing and ends with that failure. *)
Theorem small_body_unanswered (conn : C) (app : A) w bs fin head rest method uri version headers len :
  holds conn w bs fin -> S (length bs) < fuel ->
  split_head fuel [] bs fin = inl (head, rest) ->
  request_head head = inl (method, uri, version, headers) ->
  request_plan headers = inl (PlanBuffered len) -> (N.of_nat (length rest) < len)%N ->
  wp (serve conn) (fun _ _ => False)
     (fun e '(app', w') => accepted conn w' `prefix_of` accepted conn w /\
        ((e = IoError Other (BoxedParse (cut_off fin)) /\ app' = app) \/ raw_can_fail W C))
     (app, w).
Proof.
  intros Hc Hf Hs Hh Hp Hl.
  assert (Href : forall ts, reference sp fin (S (length bs)) ts app bs =
    Some ([], FailedWith (IoError Other (BoxedParse (cut_off fin))), app)).
  { intros ts. cbn [reference]. unfold request_at. rewrite Hs, Hh, Hp. cbn [body_split].
    by rewrite (proj2 (N.leb_gt _ _)) by lia. }
  eapply wp_mono; [apply (serve_reference conn app w bs fin Hc Hf)| |].
  - intros ts. rewrite Href. by do 3 eexists.
  - intros [] [app' w'] (ts & out & Hr & _). by rewrite Href in Hr.
  - intros e [app' w'] (ts & out & r & app2 & Hr & Ha & Ho). rewrite Href in Hr.
    injection Hr as <- <- <-. rewrite app_nil_r in Ha. split; [done|].
    destruct Ho as [(He & <- & _)|Hcf]; [left|by right]. by injection He as <-.
Qed.

End serve.

(** A client that speaks HTTP/1.0 without asking for [keep-alive] is told that the
    connection closes, and it is closed. *)
Theorem http10_response_closes `{!HttpApi} `{!HttpApiLaws} {A U C B}
    (sp : app_spec A U C B) time app method uri headers body out app' go :
  connection_has "keep-alive" headers = false ->
  respond sp time app method uri HTTP_10 headers body = Some (out, app', inl go) ->
  go <> Continues /\ exists status sent,
    message_head (status_line HTTP_10 status) (hm_iter sent) `prefix_of` out /\
    connection_has "close" sent = true.
Proof.
  intros Hka. unfold respond. destruct (app_call _ _ _ _ _ _ _) as [app1 [res|]]; [|done].
  rewrite Hka. unfold version_headers. rewrite bool_decide_true by done. cbn [andb negb].
  set (h0 := hm_insert _ _ (res_headers res)). set (sent := dated time h0).
  assert (Hclose : connection_has "close" sent = true).
  { etrans; [apply connection_has_get|apply (conn_insert_value_get (res_headers res))].
    unfold sent, dated. destruct (date_is_set h0); [done|].
    by destruct (date_insert_others time h0) as (_ & _ & ->). }
  unfold response_framing, response_encoding. rewrite Hclose. cbv zeta.
  rewrite (bool_decide_false (HTTP_10 = HTTP_11)), !andb_false_r by done.
  unfold demands_close. rewrite Hka. cbn [negb].
  assert (Hgo : after_response (res_extensions res) false <> Continues).
  { unfold after_response. by destruct (ext_upgrade _). }
  assert (Hstrip : forall h, conn_get h = conn_get sent ->
    connection_has "close" (strip_transfer_encoding HTTP_10 (has_chunked sent) h) = true).
  { intros h Hh. etrans; [apply connection_has_get|exact Hclose]. unfold strip_transfer_encoding.
    destruct (_ && _); [|done]. by destruct (te_remove_others h) as [_ ->]. }
  destruct (cl_get sent) as [n|], (app_len sp (res_body res)) as [m|].
  - destruct (n =? m)%N; [|done]. intros [= <- _ <-]. split; [by rewrite ?andb_false_r|].
    eexists _, _. split; [by apply prefix_app_r|by apply Hstrip].
  - intros [= <- _ <-]. split; [by rewrite ?andb_false_r|]. eexists _, _. split; [by apply prefix_app_r|by apply Hstrip].
  - intros [= <- _ <-]. split; [by rewrite ?andb_false_r|]. eexists _, _. split; [by apply prefix_app_r|].
    apply Hstrip. by destruct (cl_insert_others m sent).
  - intros [= <- _ <-]. split; [by rewrite ?andb_false_r|]. eexists _, _. split; [by apply prefix_app_r|by apply Hstrip].
Qed.

