(* ===== verification/Totality.v ===== *)
(** * Totality: [serve] returns on every stream that ends

    Malformed and cut-off input included: the only requests for which the reference says
    nothing announce more than can be allocated. *)
From stdpp Require Import base list gmap strings.
From Stdlib Require Import Strings.Byte NArith Lia.
From S2P Require Import Prelude Errors StdIo Buffered HttpApi Mpsc ReadQueue QueueLaws.
From S2P Require Import HttpBody Body BodyLaws Message MessageLaws ChunkedLaws Request.
From S2P Require Import RequestLaws Response ResponseLaws Upgrade Tls Connection ConnLaws.
From S2P Require Import Server Reference IncomingLaws ServiceLaws ServerLaws.

(** ** What follows a request is the end of its stream *)
Section suffixes.
Context `{!HttpApi} `{!Fuel}.

Lemma drop_suffix {T} n (l : list T) : drop n l `suffix_of` l.
Proof. exists (take n l). by rewrite take_drop. Qed.

Lemma next_line_suffix bs fin line rest :
  next_line bs fin = Some (line, rest) -> rest `suffix_of` bs.
Proof.
  intros Hl. exists (line_of LF bs). rewrite <-(line_after LF bs) at 1. f_equal. unfold next_line in Hl.
  by destruct (memchr LF bs), fin; simplify_eq.
Qed.

Lemma chunks_end_suffix n buf bs fin rest :
  chunks_end n buf bs fin = Some rest -> rest `suffix_of` bs.
Proof.
  revert buf bs. induction n as [|n IH]; intros buf bs; [done|]. cbn [chunks_end].
  destruct (next_line bs fin) as [[[|x line] rest']|] eqn:Hl; [| |done];
    apply next_line_suffix in Hl; [by intros [= <-]|].
  destruct (parse_chunk_size _) as [pos [|p]| |]; [by intros [= <-]| | |by intros [= <-]].
  - destruct (_ <? _)%N; [done|]. destruct (_ <? _)%N; [|done]. destruct fin; [done|].
    intros [= <-]. apply suffix_nil.
  - intros Hr%IH. by etrans.
Qed.

Lemma dechunk_next_suffix n buf bs fin c rest :
  dechunk_next n buf bs fin = Some (Some (c, rest)) -> rest `suffix_of` bs.
Proof.
  revert buf bs. induction n as [|n IH]; intros buf bs; [done|]. cbn [dechunk_next].
  destruct (next_line bs fin) as [[[|x line] r1]|] eqn:Hl; [done| |done].
  apply next_line_suffix in Hl. destruct (parse_chunk_size _) as [pos [|p]| |]; try done.
  - destruct (isize_max <? _)%N; [done|]. destruct (_ <? _)%N; [done|].
    destruct (next_line (drop _ r1) fin) as [[l3 r3]|] eqn:Hl3; [|done]. intros [= <- <-].
    apply next_line_suffix in Hl3. etrans; [done|]. etrans; [apply drop_suffix|done].
  - intros Hr%IH. by etrans.
Qed.

Lemma dechunk_all_suffix n bs fin cs rest :
  dechunk_all n bs fin = Some (cs, rest) -> rest `suffix_of` bs.
Proof.
  revert bs cs. induction n as [|n IH]; intros bs cs; [done|]. cbn [dechunk_all].
  destruct (chunks_end fuel [] bs fin) as [r|] eqn:Hl.
  - intros [= <- <-]. by eapply chunks_end_suffix.
  - destruct (dechunk_next fuel [] bs fin) as [[[c rest1]|]|] eqn:Hn; [|done..].
    destruct (dechunk_all n rest1 fin) as [[cs' e]|] eqn:Hd; [|done].
    intros [= <- <-]. etrans; [by eapply IH|by eapply dechunk_next_suffix].
Qed.

Lemma body_split_suffix fin plan all body rest skipped :
  body_split fin plan all = Some (body, rest, skipped) ->
  rest `suffix_of` all /\ skipped `suffix_of` all.
Proof.
  destruct plan as [|len|len| |]; cbn; try done.
  - destruct (dechunk_all fuel all fin) as [[cs rest']|] eqn:Hdc; [|done].
    intros [= <- <- <-]. split; [by eapply dechunk_all_suffix|done].
  - destruct (_ && _); [|done]. intros [= <- <- <-]. split; apply drop_suffix.
  - destruct (_ && _); [|done]. intros [= <- <- <-]. split; apply drop_suffix.
  - by intros [= <- <- <-].
Qed.

Lemma split_head_app n acc bs fin head rest :
  split_head n acc bs fin = inl (head, rest) -> head ++ rest = acc ++ bs.
Proof.
  revert acc bs. induction n as [|n IH]; intros acc bs; cbn [split_head]; [by intros [= <- <-]|].
  assert (Hgo : (if (length (line_of LF bs) =? 0) || head_complete (acc ++ line_of LF bs)
                 then inl (acc ++ line_of LF bs, after_line LF bs)
                 else split_head n (acc ++ line_of LF bs) (after_line LF bs) fin) =
                inl (head, rest) -> head ++ rest = acc ++ bs).
  { destruct (_ || _); [intros [= <- <-]|intros ->%IH]; by rewrite <-app_assoc, line_after. }
  by destruct (memchr LF bs), fin.
Qed.

(** A request takes at least a byte. *)
Lemma request_at_suffix fin bs m u v h body rest skipped :
  request_at fin bs = Arrives m u v h body rest skipped ->
  (rest `suffix_of` bs /\ length rest < length bs) /\
  (skipped `suffix_of` bs /\ length skipped < length bs).
Proof.
  unfold request_at. destruct (split_head fuel [] bs fin) as [[head all]|] eqn:Hs; [|done].
  apply split_head_app in Hs. cbn [app] in Hs. subst bs.
  destruct (request_head head) as [[[[? ?] ?] h']|] eqn:Hh; [|done].
  assert (Hne : head <> []) by by intros ->.
  destruct (request_plan h') as [plan|]; [|done].
  destruct (body_split fin plan all) as [[[body' rest'] skipped']|] eqn:Hsp; [|by destruct plan].
  intros [= _ _ _ _ -> -> ->]. apply body_split_suffix in Hsp as [Hr Hsk].
  assert (Hall : forall s, s `suffix_of` all -> s `suffix_of` head ++ all /\ length s < length (head ++ all)).
  { intros s Hsuf. split; [by apply suffix_app_r|]. apply suffix_length in Hsuf.
    rewrite length_app. destruct head; [done|]. cbn. lia. }
  by split; apply Hall.
Qed.

(** ** What the reference leaves open on a stream that ends *)
Lemma chunks_end_defined n buf bs :
  dechunk_next n buf bs None = Some None -> is_Some (chunks_end n buf bs None).
Proof.
  revert buf bs. induction n as [|n IH]; intros buf bs; [done|]. cbn [dechunk_next chunks_end].
  destruct (next_line bs None) as [[[|x line] rest]|] eqn:Hl; [done| |].
  2: { unfold next_line in Hl. by destruct (memchr LF bs). }
  destruct (parse_chunk_size _) as [pos [|p]| |]; [done| |apply IH|done].
  destruct (isize_max <? _)%N; [done|]. destruct (_ <? _)%N; [done|].
  unfold next_line. by destruct (memchr LF (drop _ rest)).
Qed.

Lemma dechunk_all_beyond n bs :
  length bs < n -> dechunk_all n bs None = None ->
  exists s, s `suffix_of` bs /\ dechunk_next fuel [] s None = None.
Proof.
  revert bs. induction n as [|n IH]; intros bs Hn; [lia|]. cbn [dechunk_all].
  destruct (chunks_end fuel [] bs None) as [r|] eqn:Hc; [done|].
  destruct (dechunk_next fuel [] bs None) as [[[c rest]|]|] eqn:Hd.
  - pose proof (dechunk_next_length _ _ _ _ _ _ Hd). apply dechunk_next_suffix in Hd.
    destruct (dechunk_all n rest None) as [[cs e]|] eqn:Hall; [done|]. intros _.
    destruct (IH rest ltac:(lia) Hall) as (s & Hs & Hnone). exists s. split; [by etrans|done].
  - apply chunks_end_defined in Hd as [r Hr]. by rewrite Hr in Hc.
  - by exists bs.
Qed.

(** Only requests that announce more than can be allocated: as their length, or as the size
    of a chunk. *)
Lemma beyond_overlong bs :
  length bs < fuel -> request_at None bs = Beyond ->
  exists head all method uri version headers,
    split_head fuel [] bs None = inl (head, all) /\
    request_head head = inl (method, uri, version, headers) /\
    ((exists len, request_plan headers = inl (PlanStreamed len) /\ (isize_max < len)%N) \/
     (request_plan headers = inl PlanChunked /\
      exists s, s `suffix_of` all /\ dechunk_next fuel [] s None = None)).
Proof.
  intros Hf. unfold request_at. destruct (split_head fuel [] bs None) as [[head all]|] eqn:Hs; [|done].
  pose proof (split_head_length _ _ _ _ _ _ Hs) as Hl.
  destruct (request_head head) as [[[[m u] v] h]|] eqn:Hh; [|done].
  destruct (request_plan h) as [plan|] eqn:Hp; [|done].
  destruct (body_split None plan all) as [[[body rest] skipped]|] eqn:Hsp; [done|].
  intros Hb. exists head, all, m, u, v, h. split_and!; [done|done|].
  destruct plan as [|len|len| |]; cbn in Hsp; try done.
  - right. split; [done|].
    destruct (dechunk_all fuel all None) as [[cs rest]|] eqn:Hd; [done|].
    apply (dechunk_all_beyond fuel); [lia|done].
  - left. exists len. split; [done|]. destruct (N.leb_spec len isize_max); [|done].
    cbn in Hsp. by rewrite orb_true_r in Hsp.
  - unfold request_plan in Hp. destruct (te_try_get h) as [[te|]|[]]; [by destruct (te_is_chunked te)| |done].
    destruct (cl_try_get h) as [[n|]|[]]; [by destruct (_ <? _)%N|done..].
Qed.

(** A check of all the suffixes of a stream *)
Definition answerable (bs : bytes) : bool :=
  match request_at None bs with Beyond => false | _ => true end.

Lemma suffixes_answerable bs :
  forallb (fun n => answerable (drop n bs)) (seq 0 (S (length bs))) = true ->
  forall s, s `suffix_of` bs -> request_at None s <> Beyond.
Proof.
  intros Hall s [p ->] Hb. rewrite forallb_forall in Hall.
  specialize (Hall (length p)). rewrite in_seq, drop_app_length in Hall. unfold answerable in Hall.
  rewrite Hb, length_app in Hall. discriminate Hall. lia.
Qed.

Lemma request_at_end : 0 < fuel -> request_at None [] = Refused ConnectionClosed.
Proof. intros Hf. unfold request_at. destruct fuel; [lia|]. done. Qed.
End suffixes.

(** ** The reference of such a stream is defined *)
Section defined.
Context `{!HttpApi} `{!HttpApiLaws} `{!Fuel} {A U C B : Type}.
Variable sp : app_spec A U C B.

Lemma interim_defined status : is_Some (interim status).
Proof.
  unfold interim, response_framing, response_encoding. destruct hm_new_framing as [Hte Hcl].
  rewrite cl_get_try, Hcl, has_chunked_try, Hte. cbn. by eexists.
Qed.

Lemma served_total time app m u v h body : is_Some (served sp time app m u v h body).
Proof.
  unfold served, respond. destruct (app_call sp app m u v h body) as [app' [res|err]]; [|by eexists].
  destruct (response_framing _ _ _) as [[encoding sent]|e]; by eexists.
Qed.

Lemma exchange_total time app m u v h body : is_Some (exchange sp time app m u v h body).
Proof.
  unfold exchange. destruct (expect_is_continue h); [|apply served_total].
  destruct (app_continue sp app m u v h) as [app' status].
  destruct (interim_defined status) as [text ->]. cbn [mbind option_bind].
  destruct (status =? STATUS_CONTINUE)%N; [|by eexists].
  destruct (served_total time app' m u v h body) as [[[[out app2] r] reads] ->]. by eexists.
Qed.

Lemma reference_defined n ts app bs :
  length bs < n -> (forall s, s `suffix_of` bs -> request_at None s <> Beyond) ->
  is_Some (reference sp None n ts app bs).
Proof.
  revert ts app bs. induction n as [|n IH]; intros ts app bs Hn Hok; [lia|]. cbn [reference].
  destruct (request_at None bs) as [m u v h body rest skipped|e|] eqn:Hat.
  - apply request_at_suffix in Hat as [[Hr Hlr] [Hs Hls]].
    destruct (exchange_total (ts 0) app m u v h body) as [[[[out app'] r] reads] ->].
    cbn [mbind option_bind]. destruct r as [[| |upgrade]|e]; [|by eexists..].
    set (left := if reads then rest else skipped).
    assert (Hleft : left `suffix_of` bs /\ length left < length bs) by (subst left; by destruct reads).
    destruct (IH (fun i => ts (S i)) app' left) as [[[out' r'] app2] ->]; [lia| |by eexists].
    intros s Hsuf. apply Hok. etrans; [done|apply Hleft].
  - destruct e; by eexists.
  - by destruct (Hok bs (reflexivity _)).
Qed.
End defined.

(** ** [serve] returns *)
Section returns.
Context `{!HttpApi} `{!HttpApiLaws} `{!Fuel} {W C A Hd : Type}.
Context `{!World W} `{!Conn W C} `{!ConnLaws W C} `{!HasStore W (BufReader C)}
  `{!StoreWorld W (BufReader C)} `{!ConnStore W C} `{!UpgradeHandler W Hd C} `{!Clock W}.
Context `{!Service (W := W) (C := C) (A := A) (Hd := Hd)}
  {D : Type} (sp : app_spec A (UpgradeExtension Hd) C D) `{!ServiceLaws sp, !ClockLaws (W := W)}.
Implicit Types (w : W).

(** C2. [serve] returns on every stream that ends, whatever its bytes are: requests that are
    malformed, cut off, or framed in contradictory ways make it neither panic nor wait,
    provided that no suffix of the stream, read as a request, announces more than
    [isize::MAX] bytes as its length or as the size of a chunk ([beyond_overlong]), and that
    the handlers of upgrades return. *)
Theorem serve_returns (conn : C) (app : A) w bs :
  holds conn w bs None -> S (length bs) < fuel ->
  (forall s, s `suffix_of` bs -> request_at None s <> Beyond) ->
  (forall (upgrade : UpgradeExtension Hd) left out w', handed_to conn left None (accepted conn w ++ out) w' ->
     wp (E := io_error) (handle (handler upgrade) conn) (fun _ _ => True) never w') ->
  wp (serve conn) (fun _ _ => True) (fun _ _ => True) (app, w).
Proof.
  intros Hc Hf Hok Hh.
  eapply wp_mono; [apply (serve_spec sp (fun _ => True) conn app w bs None Hc Hf)|done..].
  - intros ts. apply reference_defined; [lia|done].
  - intros ts out upgrade left app' _ w' Hw'. by apply (Hh upgrade left out).
Qed.
End returns.
