(* ===== verification/AcceptLaws.v ===== *)
(** * AcceptLaws: the server around [serve]

    The three ways to run a [Server] on its source of connections: on one thread, on
    a pool with clones of a service, and on a pool with a service per connection. *)
From stdpp Require Import base list gmap strings.
From Stdlib Require Import Strings.Byte NArith Lia.
From S2P Require Import Prelude Errors StdIo Buffered HttpApi Mpsc ReadQueue QueueLaws.
From S2P Require Import HttpBody Body BodyLaws Message MessageLaws ChunkedLaws Request.
From S2P Require Import RequestLaws Response ResponseLaws Upgrade Tls Connection ConnLaws.
From S2P Require Import Server.

(** ** The loop over the connections *)
Section connections.
Context `{!HttpApi} `{!Fuel} {W C A Hd P I : Type}.
Context `{!Conn W C} `{!HasStore W (BufReader C)} `{!UpgradeHandler W Hd C} `{!Clock W}.
Context `{!Service (W := W) (C := C) (A := A) (Hd := Hd)} `{!ConnSource (W := W) (C := C) I}.

(** What is left to hold with the source [i], the service and the world. *)
Variable inv : I -> A -> W -> Prop.
(** What holds when the source has ended. *)
Variable over : I -> A -> W -> Prop.
(** How many connections the source still has. *)
Variable left : I -> nat.
Variables (timeout : option N) (nodelay : bool).

(** A connection that was taken from the source and has its options set. *)
Variable taken : C -> I -> A -> W -> Prop.

Hypothesis next_taken : forall E i app w, inv i app w ->
  wp (next_conn (E := E))
     (fun o '(i', w') => match o with
        | None => over i' app w'
        | Some conn => left i' < left i /\
            wp (E := E) (admit_conn timeout nodelay conn)
               (fun o w'' => match o with
                  | Some conn' => taken conn' i' app w''
                  | None => inv i' app w''
                  end) never w'
        end) never (i, w).
Hypothesis serve_taken : forall conn i app w, taken conn i app w ->
  wp (serve (Hd := Hd) conn) (fun _ '(app', w') => inv i app' w')
     (fun _ '(app', w') => inv i app' w') (app, w).

Lemma incoming_next_spec E n i app w :
  inv i app w -> left i < n ->
  wp (incoming_next (E := E) n timeout nodelay)
     (fun o '(i', w') => match o with
        | None => over i' app w'
        | Some conn => left i' < left i /\ taken conn i' app w'
        end) never (i, w).
Proof.
  revert i w. induction n as [|n IH]; intros i w Hi Hl; [lia|]. cbn [incoming_next].
  wp_step. eapply wp_never_mono; [by apply (next_taken E i app w)|].
  intros [conn|] [i1 w1]; [|intros Hi1; by apply wp_ret]. intros [Hl1 Hadm]. wp_steps.
  eapply wp_never_mono; [exact Hadm|]. intros [conn'|] w2 Ht; [by apply wp_ret|].
  eapply wp_never_mono; [apply IH; [exact Ht|lia]|].
  intros [conn2|] [i3 w3]; [|done]. intros [Hl3 Ht3]. split; [lia|done].
Qed.

(** C30. The single-threaded server serves every connection its source yields, in order,
    whatever the outcome of each: it ends, without an error, when the source does. *)
Theorem single_thread_serves_all n (srv : Server P I) app w :
  inv (incoming srv) app w -> left (incoming srv) < n -> left (incoming srv) < fuel ->
  incoming_read_timeout srv = timeout -> incoming_nodelay srv = nodelay ->
  wp (serve_single_thread (Hd := Hd) n)
     (fun _ '(srv', (app', w')) => over (incoming srv') app' w') never (srv, (app, w)).
Proof.
  revert srv app w. induction n as [|n IH]; intros srv app w Hi Hl Hf Ht Hn; [lia|].
  cbn [serve_single_thread]. wp_step. unfold server_and_world. wp_step. cbn [fst snd].
  unfold server_next. wp_steps. unfold over_incoming. wp_step. cbn [fst snd]. rewrite Ht, Hn.
  eapply wp_never_mono; [by apply incoming_next_spec|].
  intros [conn|] [i w1]; [|by intros; apply wp_ret]. cbn [fst snd]. intros [Hl1 Htk].
  wp_step. unfold beside_server. wp_step. wp_step.
  assert (Hgo : forall app' w', inv i app' w' ->
    wp (serve_single_thread (Hd := Hd) n)
     (fun _ '(srv', (app', w')) => over (incoming srv') app' w') never
     (Build_Server P I (thread_pool srv) i timeout nodelay,
      (app', w'))).
  { intros app' w' Hinv. apply IH; cbn; try done; lia. }
  eapply wp_mono; [by apply (serve_taken conn i app w1)| |]; intros x [app' w'] Hinv; exact (Hgo app' w' Hinv).
Qed.
End connections.

(** ** The thread pool

    [served l w]: [w] is a world in which the pool was given one job for each connection
    and service of [l], in this order. Taking a connection from its source, setting its
    options, closing it, cloning a service and making one leave that alone; the pool runs
    the jobs at times of its own choosing. *)
Section threads.
Context `{!HttpApi} `{!Fuel} {W C A Hd P I : Type}.
Context `{!Conn W C} `{!HasStore W (BufReader C)} `{!UpgradeHandler W Hd C} `{!Clock W}.
Context `{!Service (W := W) (C := C) (A := A) (Hd := Hd)} `{!ConnSource (W := W) (C := C) I}.
Context `{!ThreadPool (W := W) P}.

Variables (served : list (C * A) -> W -> Prop) (accepted_from : I -> list C).
Variables (timeout_set : option N -> C -> bool) (nodelay_set : bool -> C -> bool).

Hypothesis next_spec : forall (E : Type) (i : I) l (w : W), served l w ->
  wp (next_conn (E := E))
     (fun o '(i', w') => served l w' /\ match o with
        | None => accepted_from i = []
        | Some conn => accepted_from i = conn :: accepted_from i'
        end) never (i, w).
Hypothesis timeout_spec : forall timeout (conn : C) l (w : W), served l w ->
  wp (conn_set_read_timeout timeout conn)
     (fun _ w' => timeout_set timeout conn = true /\ served l w')
     (fun _ w' => timeout_set timeout conn = false /\ served l w') w.
Hypothesis nodelay_spec : forall nodelay (conn : C) l (w : W), served l w ->
  wp (conn_set_nodelay nodelay conn)
     (fun _ w' => nodelay_set nodelay conn = true /\ served l w')
     (fun _ w' => nodelay_set nodelay conn = false /\ served l w') w.
Hypothesis drop_spec : forall (E : Type) (conn : C) l (w : W), served l w ->
  wp (E := E) (drop_value conn) (fun _ => served l) never w.
Hypothesis execute_spec : forall (E : Type) (pool : P) conn app l (w : W), served l w ->
  wp (E := E) (execute pool (worker (Hd := Hd) conn app))
     (fun _ => served (l ++ [(conn, app)])) never w.

(** The connections whose options could be set, in the order of their arrival. *)
Definition admitted (timeout : option N) (nodelay : bool) (conns : list C) : list C :=
  filter (fun conn => timeout_set timeout conn && nodelay_set nodelay conn = true) conns.

Lemma admit_conn_spec E timeout nodelay conn l w :
  served l w ->
  wp (E := E) (admit_conn timeout nodelay conn)
     (fun o w' => served l w' /\
        o = if timeout_set timeout conn && nodelay_set nodelay conn
            then Some conn else None) never w.
Proof.
  intros Hw. unfold admit_conn. wp_steps. eapply wp_mono; [by apply timeout_spec|..].
  - intros [] w1 [-> Hw1]. wp_steps. eapply wp_mono; [by apply nodelay_spec|..].
    + intros [] w2 [-> Hw2]. by wp_steps.
    + intros e w2 [-> Hw2]. wp_steps. eapply wp_never_mono; [by apply drop_spec|].
      intros [] w3 Hw3. by wp_steps.
  - intros e w1 [-> Hw1]. wp_steps. eapply wp_never_mono; [by apply drop_spec|].
    intros [] w2 Hw2. by wp_steps.
Qed.

Lemma incoming_next_served E n timeout nodelay i l w :
  served l w -> length (accepted_from i) < n ->
  wp (incoming_next (E := E) n timeout nodelay)
     (fun o '(i', w') => served l w' /\ match o with
        | None => admitted timeout nodelay (accepted_from i) = []
        | Some conn => length (accepted_from i') < length (accepted_from i) /\
            admitted timeout nodelay (accepted_from i) =
            conn :: admitted timeout nodelay (accepted_from i')
        end) never (i, w).
Proof.
  revert i w. induction n as [|n IH]; intros i w Hw Hn; [lia|]. cbn [incoming_next].
  wp_step. eapply wp_never_mono; [by apply next_spec|].
  intros [conn|] [i1 w1] [Hw1 Hi]; [|apply wp_ret; by rewrite Hi].
  rewrite Hi in *. cbn [length] in Hn. wp_steps.
  eapply wp_never_mono; [by apply admit_conn_spec|].
  unfold admitted. rewrite filter_cons. intros o w2 [Hw2 ->].
  destruct (timeout_set timeout conn && nodelay_set nodelay conn) eqn:Hset.
  - apply wp_ret. rewrite decide_True by done. cbn [length]. split; [done|]. split; [lia|done].
  - rewrite decide_False by done.
    eapply wp_never_mono; [apply IH; [done|lia]|]. cbn [length]. intros o [i3 w3] [Hw3 Ho].
    split; [done|]. destruct o; [|done]. destruct Ho. split; [lia|done].
Qed.

(** The connections a server will serve. *)
Definition to_serve (srv : Server P I) : list C :=
  admitted (incoming_read_timeout srv) (incoming_nodelay srv) (accepted_from (incoming srv)).

Lemma server_next_served E (srv : Server P I) l w :
  served l w -> length (accepted_from (incoming srv)) < fuel ->
  wp (server_next (E := E))
     (fun o '(srv', w') => served l w' /\ match o with
        | None => to_serve srv = []
        | Some conn => length (accepted_from (incoming srv')) <
                         length (accepted_from (incoming srv)) /\
                       to_serve srv = conn :: to_serve srv'
        end) never (srv, w).
Proof.
  intros Hw Hf. unfold server_next. wp_steps. unfold over_incoming. wp_step. cbn [fst snd].
  eapply wp_never_mono; [by apply incoming_next_served|].
  intros [conn|] [i' w'] [Hw' Ho]; by split.
Qed.

(** C31. The threaded server ends without an error when the source of connections ends,
    and by then it has given the pool one job for each connection whose options could
    be set, in the order of arrival: to serve it with a clone of the service. *)
Theorem threads_serve_all service_clone service copy n (srv : Server P I) l w :
  (forall l w, served l w ->
     wp (service_clone service) (fun app w' => app = copy /\ served l w') never w) ->
  served l w ->
  length (accepted_from (incoming srv)) < n -> length (accepted_from (incoming srv)) < fuel ->
  wp (serve_threads (Hd := Hd) service_clone service n)
     (fun _ '(_, w') => served (l ++ map (fun conn => (conn, copy)) (to_serve srv)) w')
     never (srv, w).
Proof.
  intros Hclone. revert srv l w. induction n as [|n IH]; intros srv l w Hw Hn Hf; [lia|].
  cbn [serve_threads]. wp_step. eapply wp_never_mono; [by apply server_next_served|].
  intros [conn|] [srv1 w1] [Hw1 Ho]; [|apply wp_ret; by rewrite Ho, app_nil_r].
  destruct Ho as [Hl ->]. wp_steps. eapply wp_never_mono; [by apply Hclone|].
  intros app w2 [-> Hw2]. wp_steps. eapply wp_never_mono; [by apply execute_spec|].
  intros [] w3 Hw3. cbn [map]. rewrite cons_middle, app_assoc. apply IH; [done|lia..].
Qed.

(** [make_service] gives the pool, in the order of arrival, one job for each
    connection a handler could be made for: to serve it with that handler. It closes
    the others, and ends without an error when the source of connections ends. *)
Theorem make_service_serves_all {M} `{!MakeService W C A M} (make : M) (made : C -> A + boxed_error) n
    (srv : Server P I) l w :
  (forall conn l w, served l w ->
     wp (make_call make conn) (fun r w' => r = made conn /\ served l w') never w) ->
  served l w ->
  length (accepted_from (incoming srv)) < n -> length (accepted_from (incoming srv)) < fuel ->
  wp (make_service (Hd := Hd) make n)
     (fun _ '(_, w') =>
        served (l ++ omap (fun conn => match made conn with
                                       | inl handler => Some (conn, handler)
                                       | inr _ => None
                                       end) (to_serve srv)) w')
     never (srv, w).
Proof.
  intros Hmake. revert srv l w. induction n as [|n IH]; intros srv l w Hw Hn Hf; [lia|].
  cbn [make_service]. wp_step. eapply wp_never_mono; [by apply server_next_served|].
  intros [conn|] [srv1 w1] [Hw1 Ho]; [|apply wp_ret; by rewrite Ho, app_nil_r].
  destruct Ho as [Hl ->]. wp_steps. eapply wp_never_mono; [by apply Hmake|].
  intros r w2 [-> Hw2]. cbn [omap list_omap]. wp_step.
  destruct (made conn) as [handler|err]; wp_steps.
  - eapply wp_never_mono; [by apply execute_spec|]. intros [] w3 Hw3.
    rewrite cons_middle, app_assoc. apply IH; [done|lia..].
  - eapply wp_never_mono; [by apply drop_spec|]. intros [] w3 Hw3. apply IH; [done|lia..].
Qed.
End threads.

Section accept.
Context `{!HttpApi} `{!Fuel} {W C A Hd P L : Type}.
Context `{!Conn W C} `{!HasStore W (BufReader C)} `{!UpgradeHandler W Hd C} `{!Clock W}.
Context `{!Service (W := W) (C := C) (A := A) (Hd := Hd)} `{!Listener (W := W) (C := C) L}.

(** One failing [accept] ends the server: no later connection is accepted, and the
    caller is not told. *)
Theorem accept_error_ends_server n (srv : Server P (TcpAcceptor L)) app w e w' :
  0 < fuel -> accept (listener (incoming srv)) w = Err e w' ->
  serve_single_thread (Hd := Hd) (S n) (srv, (app, w)) = Ok tt (srv, (app, w')).
Proof.
  intros Hf He. cbn [serve_single_thread]. unfold bind at 1, server_and_world, zoom at 1. cbn [fst snd].
  unfold server_next, bind at 1, get_state, over_incoming, zoom at 1. cbn [fst snd].
  destruct fuel as [|f]; [lia|]. cbn [incoming_next]. unfold bind at 1, next_conn, TcpAcceptor_next.
  unfold zoom_r, result_ok, bind, attempt. cbn [fst snd]. rewrite He. by destruct srv.
Qed.
End accept.
