(* ===== verification/Echo.v ===== *)
(** * Echo: an echo service on a connection in memory

    The smallest environment in which the theorems about the server and the client
    apply: a connection whose input is given and whose output is collected, a clock
    that stands still, and a service that answers every request with its body. *)
From stdpp Require Import base list gmap strings.
From Stdlib Require Import Strings.Byte NArith Lia.
From S2P Require Import Prelude Errors StdIo Buffered HttpApi Mpsc ReadQueue QueueLaws.
From S2P Require Import HttpBody Body BodyLaws Message MessageLaws ChunkedLaws Request.
From S2P Require Import RequestLaws Response ResponseLaws Upgrade Tls Connection ConnLaws.
From S2P Require Import Server Reference IncomingLaws ServiceLaws ServerLaws.

(** ** The service *)
Section echo.
Context `{!HttpApi} `{!Fuel} {W C Hd : Type}.
Context `{!World W} `{!Conn W C} `{!ConnLaws W C} `{!HasStore W (BufReader C)}
  `{!StoreWorld W (BufReader C)} `{!ConnStore W C}.

Definition echo_response (bs : bytes) : Response (UpgradeExtension Hd) C VecU8 :=
  Build_Response 200%N HTTP_11 hm_new no_extensions {| vec_bytes := bs |}.

(** The service counts its requests. *)
#[export] Instance echo_service : Service (W := W) (C := C) (A := nat) (Hd := Hd) := {|
  SBody := VecU8;
  call req :=
    zoom_l (modify S);;;
    let! bs := zoom_r (map_err BoxedIo (into_bytes (req_body req))) in
    ret (echo_response bs);
  should_continue := fun E => default_should_continue;
|}.

Definition echo_spec : app_spec nat (UpgradeExtension Hd) C VecU8 := {|
  app_call app _ _ _ _ body := (S app, inl (echo_response (in_bytes body)));
  app_reads _ _ _ _ _ _ := true;
  app_continue app _ _ _ _ := (app, STATUS_CONTINUE);
  app_len := vec_len;
  app_body encoding body := owned_text (vec_bytes body) encoding;
|}.

Lemma vec_deliverable (bs : bytes) (w : W) :
  length bs < fuel -> 1 < fuel -> deliverable {| vec_bytes := bs |} w (owned_text bs).
Proof. intros Hf H1. apply owned_deliverable; [by intros; apply wp_ret|done..]. Qed.

#[export] Instance echo_laws : ServiceLaws echo_spec.
Proof.
  split.
  - intros k app w req body rest skipped fin Hb. unfold call, echo_service. wp_step. wp_step. wp_step.
    wp_steps. eapply wp_never_mono; [by eapply (into_bytes_incoming k)|].
    intros got w' [[Hw Hp] ->]. apply wp_ret. split; [done|]. eexists. split; [done|].
    apply (owned_answers (HttpBodyLaws0 := vec_body_laws (World0 := still_world W)) echo_spec);
      [done| |done].
    apply incoming_length in Hb as [Hl Hf]. by apply vec_deliverable.
  - intros E app w req. by apply wp_ret.
Qed.
End echo.

(** ** The connection *)
Inductive sock := Sock.

Record wire := {
  wire_store : store (BufReader sock);
  wire_in : bytes;
  wire_out : bytes;
}.

#[export, refine] Instance wire_world : World wire := {|
  rstep w w' := wire_out w' = wire_out w;
  wstep w w' := wire_in w' = wire_in w /\ wire_store w' = wire_store w;
|}.
Proof.
  - split; [done|]. intros w1 w2 w3 Hw Hw'. by rewrite Hw'.
  - split; [done|]. intros w1 w2 w3 [Hi Hs] [Hi' Hs']. by rewrite Hi', Hs'.
Defined.

#[export] Instance wire_has_store : HasStore wire (BufReader sock) := {|
  get_store := wire_store;
  set_store s w := {| wire_store := s; wire_in := wire_in w; wire_out := wire_out w |};
|}.

#[local] Instance sock_read : Read wire sock := fun n st =>
  Ok (take n (wire_in st.2))
     (st.1, {| wire_store := wire_store st.2; wire_in := drop n (wire_in st.2);
               wire_out := wire_out st.2 |}).
#[local] Instance sock_drop : Drop wire sock := fun E _ => ret tt.
#[local] Instance sock_write : RawWrite wire sock := {|
  raw_write bs := fun st =>
    Ok (length bs) (st.1, {| wire_store := wire_store st.2; wire_in := wire_in st.2;
                             wire_out := wire_out st.2 ++ bs |});
  raw_flush := ret tt;
|}.
#[export] Instance sock_conn : Conn wire sock := {|
  clone := fun E c => ret c;
  conn_set_read_timeout _ _ := ret tt;
  conn_set_nodelay _ _ := ret tt;
|}.

#[local, refine] Instance sock_read_laws : ReadLaws wire sock := {|
  holds _ w bs fin := wire_in w = bs /\ fin = None;
  alive _ _ := True;
  passed _ _ _ := True;
|}.
Proof.
  - done.
  - done.
  - intros E r w _. by apply wp_ret.
  - done.
  - intros E r w bs fin _. by apply wp_ret.
  - intros r w w' bs fin [<- ->] [Hi _]. by split.
  - by intros r w bs e [_ ?].
  - intros r w bs fin n Hn [<- ->]. split; [done|]. exists (drop n (wire_in w)).
    split_and!; simpl; [by rewrite take_drop|rewrite length_take; lia|done|done|].
    intros Hnil. split; [|done]. destruct n; [done|]. by destruct (wire_in w).
Defined.

#[local, refine] Instance sock_write_laws : RawWriteLaws wire sock := {|
  raw_can_fail := False;
  accepted _ w := wire_out w;
|}.
Proof.
  - intros t w w' Hw. exact Hw.
  - intros t w bs. unfold wp. cbn. split_and!; [done|done|done| |by rewrite firstn_all].
    intros Hl. left. by destruct bs.
  - intros t w. unfold wp. by cbn.
Defined.

#[export] Instance sock_laws : ConnLaws wire sock.
Proof.
  refine (Build_ConnLaws wire sock wire_world sock_conn sock_read_laws sock_write_laws _ _ _ _).
  all: done.
Defined.

#[export] Instance wire_store_world : StoreWorld wire (BufReader sock).
Proof. split; [done|done|]. by intros w w' [_ Hs]. Qed.

#[export] Instance sock_store : ConnStore wire sock.
Proof. by split. Qed.

#[export] Instance wire_clock : Clock wire := fun E => ret 0%N.
#[export] Instance wire_clock_laws : ClockLaws (W := wire).
Proof. intros E w. by apply wp_ret. Qed.

#[export] Instance wire_upgrade : UpgradeHandler wire unit sock := fun E _ _ => ret tt.
