(* ===== verification/Examples.v ===== *)
(** * Examples: services of src/examples/

    hello-world.rs, unix-socket.rs, tls.rs (a fixed text), single-thread.rs,
    connection.rs (a counter) and expect-continue.rs (which decides by the
    content-length). Each keeps the contract of a service, so that the theorems about
    the server apply to it. *)
From stdpp Require Import base list gmap strings.
From Stdlib Require Import Strings.Byte NArith ZArith Lia.
From S2P Require Import Prelude Errors StdIo Buffered HttpApi Mpsc ReadQueue QueueLaws.
From S2P Require Import HttpBody Body BodyLaws Message MessageLaws ChunkedLaws Request.
From S2P Require Import RequestLaws Response ResponseLaws Upgrade Tls Connection ConnLaws.
From S2P Require Import Server Reference IncomingLaws ServiceLaws ServerLaws.

(** [StatusCode::OK] and [StatusCode::EXPECTATION_FAILED] *)
Definition STATUS_OK : N := 200%N.
Definition STATUS_EXPECTATION_FAILED : N := 417%N.

(** [counter += 1] on an [i32], which wraps without overflow checks, and its [Display] *)
Definition wrap_i32 (z : Z) : Z := ((z + 2 ^ 31) mod 2 ^ 32 - 2 ^ 31)%Z.
Definition show_i32 (z : Z) : bytes :=
  if (z <? 0)%Z then b "-" ++ dec (Z.to_N (- z)) else dec (Z.to_N z).

Section examples.
Context `{!HttpApi} `{!Fuel} {W C Hd : Type}.
Context `{!Conn W C} `{!HasStore W (BufReader C)}.

(** [Response::builder().status(StatusCode::OK).body(body)] *)
Definition ok_body {B} (body : B) : Response (UpgradeExtension Hd) C B :=
  Build_Response STATUS_OK HTTP_11 hm_new no_extensions body.

(** A closure that does not look at its request, which is dropped when it returns:
    [f] updates its captured state and makes the response. *)
Definition closure_call {A B} (f : A -> A * Response (UpgradeExtension Hd) C B)
    (req : Request (IncomingBody C))
  : ST (A * W) boxed_error (Response (UpgradeExtension Hd) C B) :=
  let! st := get_state in
  zoom_l (put_state (f st.1).1);;;
  zoom_r (drop_value (req_body req));;;
  ret (f st.1).2.

(** The closure of hello-world.rs, unix-socket.rs and tls.rs *)
Definition text_app (text : string) (_ : unit) : unit * Response (UpgradeExtension Hd) C Str :=
  (tt, ok_body {| str_bytes := b text |}).
Definition hello_world := text_app "Hello, world!".
Definition unix_socket := text_app "Hello from Unix socket!".
Definition tls_hello := text_app "Hello from TLS".

(** The closures of single-thread.rs and connection.rs *)
Definition counter_app (prefix : string) (counter : Z)
  : Z * Response (UpgradeExtension Hd) C RString :=
  let counter := wrap_i32 (counter + 1) in
  (counter, ok_body {| string_utf8 := b prefix ++ show_i32 counter |}).
Definition single_thread := counter_app "Request count: ".
Definition connection_counter := counter_app "Requests on this connection: ".

(** [MakeService] of connection.rs: a fresh counter for each connection *)
Definition connection_make (_ : C) : ST W io_error (Z + boxed_error) := ret (inl 0%Z).

(** [struct UploadService] of expect-continue.rs, by its [max_length] *)
Definition upload_call (max_length : N) : N * Response (UpgradeExtension Hd) C Str :=
  (max_length, ok_body {| str_bytes := b "Thanks for the info!" |}).
Definition upload_should_continue (max_length : N) (headers : HeaderMap) : N :=
  match cl_get headers with
  | Some len => if (len <=? max_length)%N then STATUS_CONTINUE else STATUS_EXPECTATION_FAILED
  | None => STATUS_EXPECTATION_FAILED
  end.

(** A closure as a service *)
Definition closure_service {A B} `{!HttpBody W B}
    (f : A -> A * Response (UpgradeExtension Hd) C B)
  : Service (W := W) (C := C) (A := A) (Hd := Hd) := {|
  SBody := B;
  call := closure_call f;
  should_continue := fun E => default_should_continue;
|}.

(** [impl Service for UploadService] *)
Definition upload_service : Service (W := W) (C := C) (A := N) (Hd := Hd) := {|
  SBody := Str;
  call := closure_call upload_call;
  should_continue := fun E req =>
    let! st := get_state in
    ret (upload_should_continue st.1 (req_headers req));
|}.
End examples.

(** ** They keep the contract of a service *)
Section laws.
Context `{!HttpApi} `{!Fuel} {W C Hd : Type}.
Context `{!World W} `{!Conn W C} `{!ConnLaws W C} `{!HasStore W (BufReader C)}
  `{!StoreWorld W (BufReader C)} `{!ConnStore W C}.

(** A closure as a function of the requests *)
Definition closure_spec {A B} (f : A -> A * Response (UpgradeExtension Hd) C B)
    (continue : A -> HeaderMap -> N) (body_len : B -> option N) (body_text : B -> bytes)
  : app_spec A (UpgradeExtension Hd) C B := {|
  app_call app _ _ _ _ _ := ((f app).1, inl (f app).2);
  app_reads _ _ _ _ _ _ := false;
  app_continue app _ _ _ headers := (app, continue app headers);
  app_len := body_len;
  app_body encoding body := owned_text (body_text body) encoding;
|}.

(** It keeps the contract when the bodies it makes can be sent. *)
Lemma closure_laws {A B} `{!HttpBody W B} `{!HttpBodyLaws W B (HW := still_world W)}
    (f : A -> A * Response (UpgradeExtension Hd) C B) (body_text : B -> bytes)
    k (app : A) (w : W) req body rest skipped fin continue :
  (forall app (w : W), deliverable (res_body (f app).2) w (owned_text (body_text (res_body (f app).2)))) ->
  incoming_body k (req_body req) w body rest skipped fin ->
  wp (closure_call f req)
     (fun res '(app', w') => hstep (R := BufReader C) k w w' /\
        exists res0, ((f app).1, inl (B := boxed_error) (f app).2) = (app', inl res0) /\
          answers_as (closure_spec f continue (len (W := W)) body_text) k req res res0 w' skipped fin)
     (fun e '(app', w') => hstep (R := BufReader C) k w w' /\ released (C := C) k w' /\
        ((f app).1, inl (f app).2) = (app', inr e)) (app, w).
Proof.
  intros Hd' Hb. unfold closure_call. wp_steps.
  eapply wp_never_mono; [by eapply (drop_incoming _ k)|]. intros [] w' [Hw Hp]. wp_steps.
  split; [done|]. exists (f app).2. split; [done|].
  apply (owned_answers (closure_spec f continue (len (W := W)) body_text)); [done|apply Hd'|done].
Qed.

Lemma str_deliverable (s : Str) (w : W) :
  length (str_bytes s) < fuel -> 1 < fuel -> deliverable s w (owned_text (str_bytes s)).
Proof. intros Hf H1. apply owned_deliverable; [by intros; apply wp_ret|done..]. Qed.

Lemma string_deliverable (s : RString) (w : W) :
  length (string_utf8 s) < fuel -> 1 < fuel -> deliverable s w (owned_text (string_utf8 s)).
Proof. intros Hf H1. apply owned_deliverable; [by intros; apply wp_ret|done..]. Qed.

Definition text_spec (text : string) : app_spec unit (UpgradeExtension Hd) C Str :=
  closure_spec (text_app text) (fun _ _ => STATUS_CONTINUE) str_len str_bytes.

Definition text_laws (text : string) (Hf : length (b text) < fuel) (H1 : 1 < fuel) :
    ServiceLaws (W := W) (Service0 := closure_service (W := W) (text_app text)) (text_spec text).
Proof.
  split.
  - intros k app w req body rest skipped fin Hb.
    apply (closure_laws (HttpBodyLaws0 := str_body_laws (World0 := still_world W))
      (text_app text) str_bytes k app w req body rest); [|done].
    intros. by apply str_deliverable.
  - intros E app w req. by apply wp_ret.
Defined.

(** The text of a counter is short. *)
Lemma show_i32_length z : (- 2 ^ 31 <= z < 2 ^ 31)%Z -> length (show_i32 z) <= 34.
Proof.
  assert (Hdec : forall n, (n <= 2 ^ 31)%N -> length (dec n) <= 33).
  { intros n Hn. etrans; [apply length_digits|].
    assert (N.size n <= 32)%N; [|lia]. destruct (decide (n = 0%N)) as [->|Hn0]; [done|].
    rewrite N.size_log2 by done. pose proof (N.log2_le_mono n (2 ^ 31) Hn) as Hl.
    rewrite N.log2_pow2 in Hl by lia. lia. }
  intros Hz. unfold show_i32. destruct (Z.ltb_spec z 0).
  - rewrite length_app. pose proof (Hdec (Z.to_N (- z)) ltac:(lia)). simpl. lia.
  - pose proof (Hdec (Z.to_N z) ltac:(lia)). lia.
Qed.

Lemma wrap_i32_range z : (- 2 ^ 31 <= wrap_i32 z < 2 ^ 31)%Z.
Proof. unfold wrap_i32. pose proof (Z.mod_pos_bound (z + 2 ^ 31) (2 ^ 32)). lia. Qed.

Definition counter_spec (prefix : string) : app_spec Z (UpgradeExtension Hd) C RString :=
  closure_spec (counter_app prefix) (fun _ _ => STATUS_CONTINUE) string_len string_utf8.

Definition counter_laws (prefix : string) (Hf : length (b prefix) + 34 < fuel) :
    ServiceLaws (W := W) (Service0 := closure_service (W := W) (counter_app prefix)) (counter_spec prefix).
Proof.
  split.
  - intros k app w req body rest skipped fin Hb.
    apply (closure_laws (HttpBodyLaws0 := string_body_laws (World0 := still_world W))
      (counter_app prefix) string_utf8 k app w req body rest); [|done].
    intros app' w'. apply string_deliverable; [|lia]. cbn [counter_app snd ok_body res_body string_utf8].
    rewrite length_app. pose proof (show_i32_length _ (wrap_i32_range (app' + 1))). lia.
  - intros E app w req. by apply wp_ret.
Defined.

Definition upload_spec : app_spec N (UpgradeExtension Hd) C Str :=
  closure_spec upload_call upload_should_continue str_len str_bytes.

Definition upload_laws (Hf : 20 < fuel) :
    ServiceLaws (W := W) (Service0 := upload_service (W := W)) upload_spec.
Proof.
  split.
  - intros k app w req body rest skipped fin Hb.
    apply (closure_laws (HttpBodyLaws0 := str_body_laws (World0 := still_world W))
      upload_call str_bytes k app w req body rest); [|done].
    intros. apply str_deliverable; [exact Hf|lia].
  - intros E app w req. unfold should_continue, upload_service. wp_steps. by split.
Defined.
End laws.

(** ** The upload service behind the server *)
Section upload.
Context `{!HttpApi} `{!HttpApiLaws} `{!Fuel} {W C Hd : Type}.
Context `{!World W} `{!Conn W C} `{!ConnLaws W C} `{!HasStore W (BufReader C)}
  `{!StoreWorld W (BufReader C)} `{!ConnStore W C} `{!UpgradeHandler W Hd C} `{!Clock W}.
Context `{!ClockLaws (W := W)}.

Abbreviation upload_reference := (reference (upload_spec (Hd := Hd) (C := C))).

Lemma upload_plain : plain_service (upload_spec (Hd := Hd) (C := C)).
Proof. by intros app m u v h body app' res [= _ <-]. Qed.

(** What is left to answer after an upload that was refused *)
Lemma upload_reference_refused fin n ts max bs method uri version headers body rest skipped out r max' :
  request_at fin bs = Arrives method uri version headers body rest skipped ->
  expect_is_continue headers = true ->
  (forall len, cl_get headers = Some len -> (max < len)%N) ->
  upload_reference fin (S n) ts max bs = Some (out, r, max') ->
  exists text out', interim STATUS_EXPECTATION_FAILED = Some text /\ out = text ++ out' /\
    upload_reference fin n (fun i => ts (S i)) max skipped = Some (out', r, max').
Proof.
  intros Hat Hex Hlen. cbn [reference]. rewrite Hat. unfold exchange. rewrite Hex.
  cbn [upload_spec closure_spec app_continue].
  assert (Hst : upload_should_continue max headers = STATUS_EXPECTATION_FAILED).
  { unfold upload_should_continue. destruct (cl_get headers) as [len|]; [|done].
    specialize (Hlen len eq_refl). by destruct (N.leb_spec len max); [lia|]. }
  rewrite Hst. destruct (interim _) as [text|]; [|done]. cbn [mbind option_bind].
  change (STATUS_EXPECTATION_FAILED =? STATUS_CONTINUE)%N with false. cbn [mbind option_bind].
  destruct (reference _ _ _ _ _ _) as [[[out' r'] m']|]; [|done]. cbn [mbind option_bind].
  intros [= <- -> ->]. by exists text, out'.
Qed.

(** C39. expect-continue.rs behind the server: an upload that expects 100-continue and is
    longer than the limit, or does not say how long it is, is answered with 417 and
    nothing else; the server goes on with the request behind it. *)
Theorem upload_refused (conn : C) (max : N) (w : W) bs fin method uri version headers body rest skipped :
  holds conn w bs fin -> S (length bs) < fuel -> 20 < fuel ->
  (forall ts, is_Some (upload_reference fin (S (length bs)) ts max bs)) ->
  request_at fin bs = Arrives method uri version headers body rest skipped ->
  expect_is_continue headers = true ->
  (forall len, cl_get headers = Some len -> (max < len)%N) ->
  wp (serve (H1 := upload_service (Hd := Hd)) conn)
     (fun _ '(max', w') => exists ts text out,
        interim STATUS_EXPECTATION_FAILED = Some text /\
        upload_reference fin (length bs) ts max skipped = Some (out, Closed, max') /\
        drained conn (accepted conn w ++ text ++ out) w')
     (fun e '(max', w') => exists ts text out r max2,
        interim STATUS_EXPECTATION_FAILED = Some text /\
        upload_reference fin (length bs) ts max skipped = Some (out, r, max2) /\
        accepted conn w' `prefix_of` accepted conn w ++ text ++ out /\
        (r = FailedWith e \/ raw_can_fail W C)) (max, w).
Proof.
  intros Hc Hf H20 Hdef Hat Hex Hlen.
  eapply wp_mono; [apply (serve_reference (Service0 := upload_service) (ServiceLaws0 := upload_laws H20)
                            upload_spec conn max w bs fin Hc Hf
                            (fun ts => reference_stays _ _ _ _ _ _ upload_plain (Hdef ts)))|..].
  - intros [] [max' w'] (ts & out & Hr & Hd').
    destruct (upload_reference_refused fin _ ts max bs method uri version headers body rest skipped
                out _ max' Hat Hex Hlen Hr) as (text & out' & Hi & -> & Hr').
    by exists (fun i => ts (S i)), text, out'.
  - intros e [max' w'] (ts & out & r & max2 & Hr & Hp & Ho).
    destruct (upload_reference_refused fin _ ts max bs method uri version headers body rest skipped
                out _ max2 Hat Hex Hlen Hr) as (text & out' & Hi & -> & Hr').
    exists (fun i => ts (S i)), text, out', r, max2. split_and!; [done..|].
    destruct Ho as [[Hre _]|Hcf]; [by left|by right].
Qed.
End upload.
