(* ===== verification/Routes.v ===== *)
(** * Routes: the services of src/examples/echo.rs and src/examples/routes.rs

    Their responses have a [Body], which may be the body of the request: it is read from
    the connection while the response is written to it. *)
From stdpp Require Import base list gmap strings.
From Stdlib Require Import Strings.Byte NArith Lia.
From S2P Require Import Prelude Utf8 Errors StdIo Buffered HttpApi Mpsc ReadQueue QueueLaws.
From S2P Require Import HttpBody Body BodyLaws Message MessageLaws ChunkedLaws Request.
From S2P Require Import RequestLaws Response ResponseLaws Upgrade Tls Connection ConnLaws.
From S2P Require Import Server Reference StreamLaws IncomingLaws ServiceLaws ServerLaws Examples.
From S2P Require Import Totality.

(** ** The services *)
Definition STATUS_BAD_REQUEST : N := 400%N.
Definition STATUS_NOT_FOUND : N := 404%N.

Section services.
Context `{!HttpApi} `{!Fuel} {W C Hd : Type}.
Context `{!Conn W C} `{!HasStore W (BufReader C)}.

Abbreviation BodyResponse := (Response (UpgradeExtension Hd) C (IncomingBody C)).

(** [Response::builder().status(status).body(body)] *)
Definition status_body {B} (status : N) (body : B) : Response (UpgradeExtension Hd) C B :=
  Build_Response status HTTP_11 hm_new no_extensions body.

(** The closure of echo.rs *)
Definition echo_call (req : Request (IncomingBody C)) : ST (unit * W) boxed_error BodyResponse :=
  ret (ok_body (req_body req)).

Definition stream_service : Service (W := W) (C := C) (A := unit) (Hd := Hd) := {|
  SBody := IncomingBody C;
  call := echo_call;
  should_continue := fun E => default_should_continue;
|}.

(** The closure of routes.rs. The request, less what was moved out of it, is dropped when
    the closure returns. *)
Definition usage : bytes := b "Usage: curl -d hello localhost:4444/echo" ++ [LF].

Definition reverse_response (body : bytes) : BodyResponse :=
  match from_utf8 body with
  | inl message => status_body STATUS_OK (Body_from_vec (reverse_chars message))
  | inr err => status_body STATUS_BAD_REQUEST (Body_from_vec (Utf8Error_display err))
  end.

Definition routes_call (req : Request (IncomingBody C)) : ST (unit * W) boxed_error BodyResponse :=
  let path := uri_path (req_uri req) in
  if bool_decide (path = b "/")
  then
    zoom_r (drop_value (req_body req));;;
    ret (status_body STATUS_OK (Body_from_vec usage))
  else if bool_decide (req_method req = POST /\ path = b "/echo")
  then ret (status_body STATUS_OK (req_body req))
  else if bool_decide (req_method req = POST /\ path = b "/reverse")
  then
    let! body := zoom_r (attempt (into_bytes (req_body req))) in
    ret (reverse_response (match body with inl bs => bs | inr _ => [] end))
  else
    zoom_r (drop_value (req_body req));;;
    ret (status_body STATUS_NOT_FOUND Body_empty).

Definition routes_service : Service (W := W) (C := C) (A := unit) (Hd := Hd) := {|
  SBody := IncomingBody C;
  call := routes_call;
  should_continue := fun E => default_should_continue;
|}.
End services.

(** ** As functions of the requests

    The body of a response is [incoming]: bytes of a known length, or chunks. *)
Section specs.
Context `{!HttpApi} `{!Fuel} {C Hd : Type}.
Abbreviation spec := (app_spec unit (UpgradeExtension Hd) C incoming).

Definition body_spec (answer : Method -> Uri -> incoming -> N * incoming)
    (reads : Method -> Uri -> bool) : spec := {|
  app_call app method uri _ _ body :=
    let '(status, body) := answer method uri body in
    (app, inl (status_body (Hd := Hd) (C := C) status body));
  app_reads _ method uri _ _ _ := reads method uri;
  app_continue app _ _ _ _ := (app, STATUS_CONTINUE);
  app_len := incoming_len;
  app_body := incoming_text;
|}.

(** A closure that looks at the head of its request only, whose body it drops *)
Definition head_spec (answer : Method -> Uri -> Response (UpgradeExtension Hd) C incoming) : spec := {|
  app_call app method uri _ _ _ := (app, inl (answer method uri));
  app_reads _ _ _ _ _ _ := false;
  app_continue app _ _ _ _ := (app, STATUS_CONTINUE);
  app_len := incoming_len;
  app_body := incoming_text;
|}.

Definition stream_spec : spec :=
  body_spec (fun _ _ body => (STATUS_OK, body)) (fun method _ => should_write_body method STATUS_OK).

Definition reverse_answer (body : bytes) : N * bytes :=
  match from_utf8 body with
  | inl message => (STATUS_OK, reverse_chars message)
  | inr err => (STATUS_BAD_REQUEST, Utf8Error_display err)
  end.

Definition routes_answer (method : Method) (uri : Uri) (body : incoming) : N * incoming :=
  if bool_decide (uri_path uri = b "/") then (STATUS_OK, Sized usage)
  else if bool_decide (method = POST /\ uri_path uri = b "/echo") then (STATUS_OK, body)
  else if bool_decide (method = POST /\ uri_path uri = b "/reverse")
  then let '(status, text) := reverse_answer (in_bytes body) in (status, Sized text)
  else (STATUS_NOT_FOUND, Sized []).

Definition routes_reads (method : Method) (uri : Uri) : bool :=
  bool_decide (method = POST /\ (uri_path uri = b "/echo" \/ uri_path uri = b "/reverse")).

Definition routes_spec : spec := body_spec routes_answer routes_reads.
End specs.

(** ** They keep the contract of a service *)
Section laws.
Context `{!HttpApi} `{!HttpApiLaws} `{!Fuel} {W C Hd : Type}.
Context `{!World W} `{!Conn W C} `{!ConnLaws W C} `{!HasStore W (BufReader C)}
  `{!StoreWorld W (BufReader C)} `{!ConnStore W C}.
Implicit Types (w : W).

(** A body of a known length is not chunked when the headers do not ask for it. *)
Definition unframed (h : HeaderMap) : Prop := te_try_get h = inl None /\ cl_try_get h = inl None.

Lemma unframed_new : unframed hm_new.
Proof. exact hm_new_framing. Qed.

Lemma unframed_insert name value :
  name <> b "transfer-encoding" -> name <> b "content-length" -> unframed (hm_insert name value hm_new).
Proof.
  intros Hte Hcl. destruct (hm_insert_others name value hm_new) as (Ht & Hc & _).
  unfold unframed. rewrite (Ht Hte), (Hc Hcl). exact hm_new_framing.
Qed.

Lemma unframed_fixed_of version time keep h n :
  unframed h ->
  response_framing version (dated time (version_headers version keep h)) (Some n) =
  inl (FixedLength n, cl_insert n (dated time (version_headers version keep h))).
Proof.
  intros Hu. set (h1 := version_headers version keep h). set (h2 := dated time h1).
  assert (Hh : te_try_get h2 = inl None /\ cl_try_get h2 = inl None).
  { assert (Hh1 : te_try_get h1 = inl None /\ cl_try_get h1 = inl None).
    { unfold h1, version_headers. destruct (_ && _); [|exact Hu].
      destruct (conn_insert_value_others h) as [-> ->]. exact Hu. }
    unfold h2, dated. destruct (date_is_set h1); [done|].
    by destruct (date_insert_others time h1) as (-> & -> & _). }
  destruct Hh as [Hte Hcl]. unfold response_framing, response_encoding.
  rewrite has_chunked_try, cl_get_try, Hte, Hcl. cbn [andb].
  unfold strip_transfer_encoding. by rewrite andb_false_r.
Qed.

Lemma unframed_fixed version time keep n :
  response_framing version (dated time (version_headers version keep hm_new)) (Some n) =
  inl (FixedLength n, cl_insert n (dated time (version_headers version keep hm_new))).
Proof. apply unframed_fixed_of, unframed_new. Qed.

(** A body of its own, when the request was read or dropped before *)
Lemma sized_answers (sp : app_spec unit (UpgradeExtension Hd) C incoming) k req
    (res : Response (UpgradeExtension Hd) C (IncomingBody C)) bs w rest fin :
  (forall d, app_len sp d = incoming_len d) ->
  (forall encoding d, app_body sp encoding d = incoming_text encoding d) ->
  unframed (res_headers res) -> q_passed (R := BufReader C) k w rest fin ->
  res_body res = Body_from_vec bs \/ (res_body res = Body_empty /\ bs = []) ->
  (N.of_nat (length bs) <= isize_max)%N -> length bs < fuel -> 1 < fuel ->
  answers_as sp k req res
    (Build_Response (res_status res) (res_version res) (res_headers res) (res_extensions res) (Sized bs))
    w rest fin.
Proof.
  intros Hlen Htext Hu Hp Hb Hm Hl Hf.
  assert (Hw : whole_at k fin w (res_body res) (Sized bs) rest rest).
  { destruct Hb as [->|[-> ->]]; by constructor. }
  pose proof (whole_answers sp k req res (Sized bs) w rest rest fin Hw Hl Hf Hlen) as Ha.
  assert (Hif : forall flag : bool, (if flag then rest else rest) = rest) by by intros [].
  cbv zeta in Ha. rewrite Hif in Ha. apply Ha; [|done].
  intros time encoding headers len bs' _ Hfr. cbn [incoming_len] in Hfr.
  rewrite unframed_fixed_of in Hfr by done. by injection Hfr as <- _.
Qed.

Lemma body_answers k req (status : N) (b : IncomingBody C) body w rest skipped fin answer reads :
  whole_at k fin w b body rest skipped -> length (in_bytes body) < fuel -> 1 < fuel ->
  answers_as (Hd := Hd) (body_spec answer reads) k req (status_body status b)
    (status_body status body) w
    (if should_write_body (req_method req) status then rest else skipped) fin.
Proof.
  intros Hb Hl Hf.
  apply (whole_answers (body_spec answer reads) k req (status_body status b) body w rest skipped fin);
    try done.
  intros time encoding headers len bs -> Hfr. cbn [incoming_len status_body res_headers] in Hfr.
  rewrite unframed_fixed in Hfr. by injection Hfr as <- _.
Qed.

Lemma own_answers k req (status : N) (bs : bytes) w rest fin answer reads :
  q_passed (R := BufReader C) k w rest fin -> (N.of_nat (length bs) <= isize_max)%N ->
  length bs < fuel -> 1 < fuel ->
  answers_as (Hd := Hd) (body_spec answer reads) k req
    (status_body status (Body_from_vec bs : IncomingBody C)) (status_body status (Sized bs)) w rest fin.
Proof.
  intros Hp Hm Hl Hf. apply (sized_answers (body_spec answer reads) k req); try done.
  - exact unframed_new.
  - by left.
Qed.

Lemma head_call_spec answer k (app : unit) w req body rest skipped fin
    (res : Response (UpgradeExtension Hd) C (IncomingBody C)) bs :
  incoming_body k (req_body req) w body rest skipped fin ->
  unframed (res_headers res) ->
  res_body res = Body_from_vec bs \/ (res_body res = Body_empty /\ bs = []) ->
  (N.of_nat (length bs) <= isize_max)%N -> length bs < fuel ->
  answer (req_method req) (req_uri req) =
    Build_Response (res_status res) (res_version res) (res_headers res) (res_extensions res) (Sized bs) ->
  wp (zoom_r (drop_value (req_body req));;; ret res)
     (fun res' '(app', w') => hstep (R := BufReader C) k w w' /\
        exists res0, (app, inl (B := boxed_error) (answer (req_method req) (req_uri req))) = (app', inl res0) /\
          answers_as (head_spec answer) k req res' res0 w' skipped fin)
     (fun (e : boxed_error) '(app', w') => hstep (R := BufReader C) k w w' /\ released (C := C) k w' /\
        (app, inl (answer (req_method req) (req_uri req))) = (app', inr e)) (app, w).
Proof.
  intros Hb Hu Hbody Hm Hl ->. pose proof (incoming_length _ _ _ _ _ _ _ Hb) as [_ Hf].
  wp_steps. eapply wp_never_mono; [by eapply (drop_incoming _ k)|]. intros [] w' [Hw Hp].
  apply wp_ret. split; [done|]. eexists. split; [done|].
  by apply (sized_answers (head_spec answer) k req).
Qed.

Lemma stream_laws : ServiceLaws (W := W) (Service0 := stream_service (Hd := Hd)) stream_spec.
Proof.
  split.
  - intros k app w req body rest skipped fin Hb. unfold call, stream_service, echo_call.
    apply wp_ret. split; [by apply (reflexivity (R := hstep k))|]. eexists. split; [by destruct app|].
    pose proof (incoming_length _ _ _ _ _ _ _ Hb) as [Hl Hf].
    apply (body_answers k req STATUS_OK (req_body req) body w rest skipped); [|done..].
    by apply incoming_whole.
  - intros E app w req. by apply wp_ret.
Qed.

(** The answer of routes.rs to "/reverse" *)
Lemma reverse_answers k req (bs : bytes) w rest fin answer reads :
  q_passed (R := BufReader C) k w rest fin -> length bs < fuel -> 120 < fuel ->
  (N.of_nat fuel <= isize_max)%N ->
  let '(status, text) := reverse_answer bs in
  answers_as (Hd := Hd) (body_spec answer reads) k req (reverse_response (C := C) bs)
    (status_body status (Sized text)) w rest fin.
Proof.
  intros Hp Hl H120 Hmax. unfold reverse_answer, reverse_response.
  destruct (from_utf8 bs) as [message|e] eqn:Hu; unfold from_utf8 in Hu.
  - destruct (utf8_loop_inl _ _ _ _ Hu ltac:(done)) as [Hc _].
    assert (Hlen : length (reverse_chars message) = length bs).
    { rewrite <-Hc. apply reverse_chars_length. }
    apply own_answers; [done|lia..].
  - pose proof (Utf8Error_display_length _ _ _ Hu) as He. unfold isize_max in *.
    specialize (He ltac:(lia)). apply own_answers; [done|unfold isize_max; lia|lia..].
Qed.

(** It keeps the contract as long as the fuel, and with it a request, is not larger than
    the largest allocation. *)
Lemma routes_laws (H120 : 120 < fuel) (Hmax : (N.of_nat fuel <= isize_max)%N) :
  ServiceLaws (W := W) (Service0 := routes_service (Hd := Hd)) routes_spec.
Proof.
  split.
  - intros k [] w req body rest skipped fin Hb.
    pose proof (incoming_length _ _ _ _ _ _ _ Hb) as [Hl Hf].
    unfold call, routes_service, routes_call. cbn [routes_spec body_spec app_call app_reads].
    unfold routes_answer, routes_reads. case_bool_decide as Hroot.
    { rewrite bool_decide_false by (rewrite Hroot; by intros [_ [|]]).
      wp_steps. eapply wp_never_mono; [by eapply (drop_incoming _ k)|]. intros [] w' [Hw Hp].
      apply wp_ret. split; [done|]. eexists. split; [done|]. apply own_answers; [done|done|cbn; lia|done]. }
    case_bool_decide as Hecho.
    { destruct Hecho as [Hpost Hecho]. rewrite bool_decide_true by auto.
      apply wp_ret. split; [by apply (reflexivity (R := hstep k))|]. eexists. split; [done|].
      assert (Hflag : should_write_body (req_method req) STATUS_OK = true) by by rewrite Hpost.
      pose proof (body_answers k req STATUS_OK (req_body req) body w rest skipped fin routes_answer
        routes_reads (incoming_whole _ _ _ _ _ _ _ Hb) Hl Hf) as Ha. by rewrite Hflag in Ha. }
    case_bool_decide as Hrev.
    { rewrite bool_decide_true by (destruct Hrev; auto). wp_steps.
      eapply wp_never_mono; [by eapply (into_bytes_incoming k)|]. intros got w' [[Hw Hp] ->].
      apply wp_ret. split; [done|].
      pose proof (reverse_answers k req (in_bytes body) w' rest fin routes_answer routes_reads Hp Hl H120 Hmax) as Ha.
      destruct (reverse_answer (in_bytes body)) as [status text]. by eexists. }
    rewrite bool_decide_false by (by intros [? [?|?]]; [apply Hecho|apply Hrev]).
    wp_steps. eapply wp_never_mono; [by eapply (drop_incoming _ k)|]. intros [] w' [Hw Hp].
    apply wp_ret. split; [done|]. eexists. split; [done|].
    assert (Hwh : whole_at k fin w' (Body_empty : IncomingBody C) (Sized []) skipped skipped) by by constructor.
    pose proof (body_answers k req STATUS_NOT_FOUND _ _ w' skipped skipped fin routes_answer
      routes_reads Hwh ltac:(cbn; lia) Hf) as Ha. by destruct (should_write_body _ _).
  - intros E app w req. by apply wp_ret.
Qed.
End laws.

(** ** Answers with a body of a known length *)
Section sized.
Context `{!HttpApi} `{!HttpApiLaws} `{!Fuel} {C Hd : Type}.

Definition sized_text (time status : N) (bs : bytes) : bytes :=
  message_head (status_line HTTP_11 status)
    (hm_iter (cl_insert (N.of_nat (length bs)) (dated time hm_new))) ++ bs.

Lemma sized_respond answer reads time method (uri : Uri) h body status bs :
  answer method uri body = (status, Sized bs) ->
  connection_has "close" h = false -> should_write_body method status = true ->
  respond (body_spec (C := C) (Hd := Hd) answer reads) time tt method uri HTTP_11 h body =
    Some (sized_text time status bs, tt, inl Continues).
Proof.
  intros Ha Hclose Hflag. unfold respond. cbn [body_spec app_call app_len app_body]. rewrite Ha.
  cbn [status_body res_extensions res_headers res_status res_body]. cbv zeta.
  change (ext_upgrade no_extensions) with (@None (UpgradeExtension Hd)). cbn [incoming_len].
  rewrite unframed_fixed, Hflag. unfold demands_close. rewrite Hclose.
  change (version_headers HTTP_11 (connection_has "keep-alive" h) hm_new) with hm_new.
  unfold stays_open, connection_has.
  destruct (cl_insert_others (N.of_nat (length bs)) (dated time hm_new)) as [_ ->].
  assert (conn_get (dated time hm_new) = None) as ->; [|done].
  unfold dated. destruct (date_is_set hm_new); [by rewrite hm_new_conn|].
  destruct (date_insert_others time hm_new) as (_ & _ & ->). by rewrite hm_new_conn.
Qed.
End sized.

(** ** routes.rs behind the server *)
Section routes.
Context `{!HttpApi} `{!HttpApiLaws} `{!Fuel} {W C Hd : Type}.
Context `{!World W} `{!Conn W C} `{!ConnLaws W C} `{!HasStore W (BufReader C)}
  `{!StoreWorld W (BufReader C)} `{!ConnStore W C} `{!UpgradeHandler W Hd C} `{!Clock W}.
Context `{!ClockLaws (W := W)}.

Abbreviation routes_reference := (reference (routes_spec (C := C) (Hd := Hd))).

Lemma routes_plain : plain_service (routes_spec (C := C) (Hd := Hd)).
Proof.
  intros app m u v h body app' res. cbn. destruct (routes_answer m u body). by intros [= _ <-].
Qed.

Lemma routes_reference_reverse fin n ts bs uri h body rest skipped :
  request_at fin bs = Arrives POST uri HTTP_11 h body rest skipped ->
  uri_path uri = b "/reverse" -> expect_is_continue h = false -> connection_has "close" h = false ->
  let '(status, text) := reverse_answer (in_bytes body) in
  routes_reference fin (S n) ts tt bs =
    '(out, r, app) ← routes_reference fin n (fun i => ts (S i)) tt rest;
    Some (sized_text (ts 0) status text ++ out, r, app).
Proof.
  intros Hat Hpath Hex Hclose. cbn [reference]. rewrite Hat. unfold exchange, served. rewrite Hex.
  assert (Hans : exists status text, reverse_answer (in_bytes body) = (status, text) /\
            routes_answer POST uri body = (status, Sized text)).
  { unfold routes_answer. rewrite Hpath.
    rewrite (bool_decide_false (b "/reverse" = b "/")) by done.
    rewrite (bool_decide_false (_ /\ b "/reverse" = b "/echo")) by by intros [_ ?].
    rewrite bool_decide_true by done. destruct (reverse_answer (in_bytes body)) as [status text].
    by exists status, text. }
  destruct Hans as (status & text & Hrev & Hans). rewrite Hrev. unfold routes_spec.
  rewrite (sized_respond routes_answer routes_reads (ts 0) POST uri h body status text Hans Hclose) by done.
  cbn [mbind option_bind body_spec app_reads]. unfold routes_reads.
  by rewrite bool_decide_true by auto.
Qed.

(** C40. A POST to "/reverse" of src/examples/routes.rs is answered by its text with the
    characters in reverse order, or with 400 and the position of the first byte that is
    not UTF-8; the request behind it is the next that is answered. *)
Theorem routes_reverse (conn : C) (w : W) bs fin uri h body rest skipped :
  120 < fuel -> (N.of_nat fuel <= isize_max)%N ->
  holds conn w bs fin -> S (length bs) < fuel ->
  (forall ts, is_Some (routes_reference fin (S (length bs)) ts tt bs)) ->
  request_at fin bs = Arrives POST uri HTTP_11 h body rest skipped ->
  uri_path uri = b "/reverse" -> expect_is_continue h = false -> connection_has "close" h = false ->
  let '(status, text) := reverse_answer (in_bytes body) in
  wp (serve (H1 := routes_service (Hd := Hd)) conn)
     (fun _ '(_, w') => exists ts out,
        routes_reference fin (length bs) (fun i => ts (S i)) tt rest = Some (out, Closed, tt) /\
        drained conn (accepted conn w ++ sized_text (ts 0) status text ++ out) w')
     (fun e '(_, w') => exists ts out r,
        routes_reference fin (length bs) (fun i => ts (S i)) tt rest = Some (out, r, tt) /\
        accepted conn w' `prefix_of` accepted conn w ++ sized_text (ts 0) status text ++ out /\
        (r = FailedWith e \/ raw_can_fail W C)) (tt, w).
Proof.
  intros H120 Hmax Hc Hf Hdef Hat Hpath Hex Hclose.
  destruct (reverse_answer (in_bytes body)) as [status text] eqn:Hrev.
  assert (Hsplit : forall ts out r app,
    routes_reference fin (S (length bs)) ts tt bs = Some (out, r, app) ->
    exists out', out = sized_text (ts 0) status text ++ out' /\
      routes_reference fin (length bs) (fun i => ts (S i)) tt rest = Some (out', r, tt)).
  { intros ts out r [] Hr.
    pose proof (routes_reference_reverse fin (length bs) ts bs uri h body rest skipped Hat Hpath Hex
      Hclose) as Hs. rewrite Hrev, Hr in Hs.
    destruct (routes_reference fin (length bs) _ tt rest) as [[[out' r'] []]|]; [|done].
    injection Hs as -> ->. by exists out'. }
  eapply wp_mono; [apply (serve_reference (ServiceLaws0 := routes_laws H120 Hmax)
                            routes_spec conn tt w bs fin Hc Hf
                            (fun ts => reference_stays _ _ _ _ _ _ routes_plain (Hdef ts)))|..].
  - intros [] [app' w'] (ts & out & Hr & Hdr). destruct (Hsplit ts out _ _ Hr) as (out' & -> & Hr').
    by exists ts, out'.
  - intros e [app' w'] (ts & out & r & app2 & Hr & Hp & Ho).
    destruct (Hsplit ts out _ _ Hr) as (out' & -> & Hr'). exists ts, out', r.
    split_and!; [done|done|]. destruct Ho as [[Hre _]|Hcf]; [by left|by right].
Qed.

(** C35. An upload whose client ends its direction of the connection too early is taken for
    complete: a POST to "/reverse" that announces at least 1024 bytes and is cut off is
    answered like one with the bytes that came, although fewer than its content-length. *)
Theorem truncated_upload_answered (conn : C) (w : W) bs head sent uri h len :
  120 < fuel -> (N.of_nat fuel <= isize_max)%N ->
  holds conn w bs None -> S (length bs) < fuel ->
  split_head fuel [] bs None = inl (head, sent) ->
  request_head head = inl (POST, uri, HTTP_11, h) -> request_plan h = inl (PlanStreamed len) ->
  (N.of_nat (length sent) < len <= isize_max)%N ->
  uri_path uri = b "/reverse" -> expect_is_continue h = false -> connection_has "close" h = false ->
  let '(status, text) := reverse_answer sent in
  wp (serve (H1 := routes_service (Hd := Hd)) conn)
     (fun _ '(_, w') => exists time, drained conn (accepted conn w ++ sized_text time status text) w')
     (fun _ _ => raw_can_fail W C) (tt, w).
Proof.
  intros H120 Hmax Hc Hf Hs Hh Hp [Hcut Hlen] Hpath Hex Hclose.
  assert (Hat : request_at None bs = Arrives POST uri HTTP_11 h (Announced len sent) [] []).
  { unfold request_at. rewrite Hs, Hh, Hp. cbn [body_split].
    rewrite (proj2 (N.leb_le _ _) Hlen), bool_decide_true, orb_true_r by done. cbn [andb].
    by rewrite take_ge, drop_ge by lia. }
  destruct (reverse_answer sent) as [status text] eqn:Hrev.
  assert (Href : forall ts, routes_reference None (S (length bs)) ts tt bs =
                            Some (sized_text (ts 0) status text, Closed, tt)).
  { intros ts. pose proof (routes_reference_reverse None (length bs) ts bs uri h _ [] [] Hat Hpath Hex
      Hclose) as Hstep. cbn [in_bytes] in Hstep. rewrite Hrev in Hstep. rewrite Hstep.
    assert (Hn : length bs <> 0) by (apply request_at_suffix in Hat; lia).
    destruct (length bs) as [|n]; [done|]. cbn [reference].
    rewrite request_at_end by lia. cbn [mbind option_bind]. by rewrite app_nil_r. }
  eapply wp_mono; [apply (serve_reference (ServiceLaws0 := routes_laws H120 Hmax)
                            routes_spec conn tt w bs None Hc Hf)|..].
  - intros ts. rewrite Href. by do 3 eexists.
  - intros [] [app' w'] (ts & out & Hr & Hdr). rewrite Href in Hr. injection Hr as <- <-. by exists (ts 0).
  - intros e [app' w'] (ts & out & r & app2 & Hr & _ & Ho). rewrite Href in Hr. injection Hr as _ <- _.
    by destruct Ho as [[? _]|Hcf].
Qed.
End routes.
