(* ===== verification/LineProtocol.v ===== *)
(** * LineProtocol: the upgrade of src/examples/upgrade.rs

    The server answers every request with [101 Switching Protocols]; the handler of the
    upgrade then echoes the lines it reads on the connection until "quit". *)
From stdpp Require Import base list gmap strings.
From Stdlib Require Import Strings.Byte NArith Lia.
From S2P Require Import Prelude Utf8 Errors StdIo Buffered HttpApi Mpsc ReadQueue QueueLaws.
From S2P Require Import HttpBody Body BodyLaws Message MessageLaws ChunkedLaws Request.
From S2P Require Import RequestLaws Response ResponseLaws Upgrade Tls Connection ConnLaws.
From S2P Require Import Server Reference StreamLaws IncomingLaws ServiceLaws ServerLaws.
From S2P Require Import Examples Routes.

Definition STATUS_SWITCHING_PROTOCOLS : N := 101%N.

(** ** [BufRead::lines] *)
Section lines.
Context `{!Fuel} {W R : Type} `{!BufRead W R}.

(** A line without its end *)
Definition chomp (line : bytes) : bytes :=
  match rev line with
  | x0a :: x0d :: rest => rev rest
  | x0a :: rest => rev rest
  | _ => line
  end.

Definition invalid_utf8 : io_error :=
  IoError InvalidData (Message "stream did not contain valid UTF-8").

(** [Lines::next]: the end of the stream, a line, or an error *)
Definition lines_next : ST (R * W) io_error (option bytes) :=
  let! raw := read_until fuel LF in
  match raw with
  | [] => ret None
  | _ =>
      match from_utf8 raw with
      | inl _ => ret (Some (chomp raw))
      | inr _ => fail invalid_utf8
      end
  end.

(** ** The closure of [upgrade] *)
Context {S : Type} `{!Write W S}.

(** One iteration of the loop over the lines: whether to go on. A write that fails
    panics. *)
Definition line_step {E} : ST (R * (S * W)) E bool :=
  let! line := attempt (zoom_rw lines_next) in
  match line with
  | inl (Some line) =>
      if bool_decide (line = b "quit") then ret false
      else
        zoom_r (unwrap_result (write_all (line ++ [LF])));;;
        zoom_r (unwrap_result flush);;;
        ret true
  | inl None => ret false
  | inr _ => ret false
  end.

Fixpoint line_loop {E} (n : nat) : ST (R * (S * W)) E unit :=
  match n with
  | O => no_fuel
  | Datatypes.S n =>
      let! go := line_step in
      if go : bool then line_loop n else ret tt
  end.
End lines.

Section upgrade_service.
Context `{!HttpApi} `{!Fuel} {W C : Type}.
Context `{!Conn W C} `{!HasStore W (BufReader C)}.

(** The reader is dropped after the loop, the writer when the closure returns. *)
Definition line_protocol {E} (stream : C) : ST W E unit :=
  let! reader := clone stream in
  fun w =>
    match line_loop (E := E) fuel (BufReader_new reader, (BufWriter_new stream, w)) with
    | Ok _ (reader, (writer, w)) => (drop_value reader;;; drop_value writer) w
    | Err e (reader, (writer, w)) => (drop_value reader;;; drop_value writer;;; fail e) w
    | Panic => Panic | Block => Block | NoFuel => NoFuel
    end.

(** The type of the closure, as a handler of upgrades *)
Inductive LineHandler := LineProtocol.
#[export] Instance line_handler : UpgradeHandler W LineHandler C :=
  fun E _ stream => line_protocol stream.

(** The closure of [serve] *)
Definition switching_response {B} (body : B) : Response (UpgradeExtension LineHandler) C B :=
  upgrade (Build_Response STATUS_SWITCHING_PROTOCOLS HTTP_11
             (hm_insert (b "upgrade") (b "line-protocol") hm_new) no_extensions body)
          LineProtocol.

Definition upgrade_call (req : Request (IncomingBody C))
  : ST (unit * W) boxed_error (Response (UpgradeExtension LineHandler) C (IncomingBody C)) :=
  zoom_r (drop_value (req_body req));;;
  ret (switching_response Body_empty).

Definition upgrade_service : Service (W := W) (C := C) (A := unit) (Hd := LineHandler) := {|
  SBody := IncomingBody C;
  call := upgrade_call;
  should_continue := fun E => default_should_continue;
|}.
End upgrade_service.

(** ** What the handler writes, as a function of what it reads *)
Fixpoint line_echo (fin : option io_error) (n : nat) (bs : bytes) : bytes :=
  match n with
  | O => []
  | S n =>
      let raw := line_of LF bs in
      if bool_decide (raw = []) || (bool_decide (LF ∉ bs) && bool_decide (is_Some fin)) then []
      else
        match from_utf8 raw with
        | inr _ => []
        | inl _ =>
            if bool_decide (chomp raw = b "quit") then []
            else (chomp raw ++ [LF]) ++ line_echo fin n (after_line LF bs)
        end
  end.

Section laws.
Context `{!Fuel} {W R S : Type} `{!World W} `{!BufRead W R} `{!Drop W R} `{!BufReadLaws W R}
  `{!Write W S} `{!WriteLaws W S}.
Implicit Types (r : R) (s : S) (w : W).

(** The next line, when there is one *)
Lemma lines_next_spec r w bs fin :
  holds r w bs fin -> length bs < fuel ->
  wp lines_next
     (fun o '(r', w') => rstep w w' /\ holds r' w' (after_line LF bs) fin /\
        ((LF ∈ bs) \/ fin = None) /\
        match o with
        | None => line_of LF bs = []
        | Some line => line_of LF bs <> [] /\ (exists cs, from_utf8 (line_of LF bs) = inl cs) /\
                       line = chomp (line_of LF bs)
        end)
     (fun _ '(r', w') => rstep w w' /\ alive r' w' /\
        ((LF ∉ bs /\ is_Some fin) \/ (line_of LF bs <> [] /\ exists e, from_utf8 (line_of LF bs) = inr e)))
     (r, w).
Proof.
  intros Hr Hf. unfold lines_next. wp_step. eapply wp_mono; [by apply read_until_spec| |].
  - intros raw [r' w'] (Hw & -> & Hr' & Hd). destruct (line_of LF bs) as [|c raw] eqn:Hl.
    { by apply wp_ret. }
    destruct (from_utf8 (c :: raw)) as [cs|e] eqn:Hu.
    + apply wp_ret. split_and!; [done..|by eexists|done].
    + apply wp_fail. split_and!; [done|by eapply holds_alive|right; split; [done|by eexists]].
  - intros e [r' w'] (Hw & Hal & Hnl & ->). split_and!; [done|done|left; by split].
Qed.

Lemma after_line_shorter bs : line_of LF bs <> [] -> length (after_line LF bs) < length bs.
Proof.
  unfold line_of, after_line. destruct (memchr LF bs) as [i|].
  - destruct bs; [by rewrite take_nil|]. intros _. rewrite length_drop. cbn. lia.
  - destruct bs; [done|]. cbn. lia.
Qed.

(** The loop writes the echo; it does not fail, because no write fails. *)
Lemma line_loop_spec {E} n m r s w bs fin :
  (can_fail W S -> False) -> holds r w bs fin -> length bs < n -> length bs < m -> length bs < fuel ->
  wp (line_loop (E := E) n)
     (fun _ '(r', (s', w')) => alive r' w' /\ appended iostep s w (line_echo fin m bs) s' w')
     never (r, (s, w)).
Proof.
  intros Hcf. revert m r s w bs. induction n as [|n IH]; intros m r s w bs Hr Hn Hm Hf; [lia|].
  destruct m as [|m]; [lia|]. cbn [line_loop line_echo]. unfold line_step. wp_steps.
  apply wp_zoom_rw. eapply wp_mono; [by apply (lines_next_spec r w bs fin)| |].
  - intros [line|] [r1 w1] (Hw1 & Hr1 & Hd & Hline); cbn [fst snd];
      pose proof (appended_rstep s w w1 Hw1) as Ha1.
    2: { apply wp_ret, wp_ret. split; [by eapply holds_alive|].
         by rewrite bool_decide_true. }
    destruct Hline as (Hne & (cs & Hu) & ->).
    assert (Hcond : bool_decide (line_of LF bs = []) ||
      (bool_decide (LF ∉ bs) && bool_decide (is_Some fin)) = false).
    { rewrite bool_decide_false by done. cbn. destruct Hd as [Hin| ->].
      - by rewrite bool_decide_false by (by intros ?).
      - by rewrite andb_false_r. }
    rewrite Hcond, Hu. destruct (bool_decide (chomp _ = _)).
    { apply wp_ret, wp_ret. split; [by eapply holds_alive|done]. }
    wp_steps. unfold unwrap_result. wp_steps.
    eapply wp_mono; [apply write_all_appends| |by intros e [s2 w2] [? _]].
    intros [] [s2 w2] Ha2. wp_steps. eapply wp_mono; [apply flush_appends| |by intros e [s3 w3] [? _]].
    intros [] [s3 w3] Ha3. wp_steps.
    pose proof (appended_trans wstep _ _ _ _ _ _ _ _ Ha2 Ha3) as Ha23. rewrite app_nil_r in Ha23.
    pose proof (appended_trans iostep _ _ [] _ _ _ _ _ Ha1 (appended_io _ _ _ _ _ Ha23)) as Ha.
    pose proof (after_line_shorter bs Hne) as Hlt.
    eapply wp_never_mono; [apply (IH m r1 s3 w3 (after_line LF bs)); [|lia..]|].
    + eapply holds_wstep; [exact Hr1|]. apply Ha23.
    + intros [] [r4 [s4 w4]] [Hal Ha4]. split; [done|]. by eapply (appended_trans iostep).
  - intros e [r1 w1] (Hw1 & Hal & Hbad). cbn [fst snd].
    pose proof (appended_rstep s w w1 Hw1) as Ha1. apply wp_ret, wp_ret. split; [done|].
    destruct Hbad as [[Hnl Hfin]|[Hne [e' Hu]]].
    + rewrite (bool_decide_true (LF ∉ bs)), (bool_decide_true (is_Some fin)) by done.
      by rewrite orb_true_r.
    + rewrite Hu. by destruct (_ || _).
Qed.
End laws.

(** ** The handler on a connection *)
Section handler.
Context `{!Fuel} {W C : Type} `{!World W} `{!Conn W C} `{!ConnLaws W C}.

(** The writer stays around the same connection. *)
Lemma line_loop_keeps {E} n (conn : C) :
  preserves (fun st : BufReader C * (BufWriter C * W) => inner_is conn st.2) (line_loop (E := E) n).
Proof.
  assert (Hio : forall m : ST (BufWriter C * W) io_error unit, preserves (inner_is conn) m ->
    preserves (fun st : BufReader C * (BufWriter C * W) => inner_is conn st.2)
      (zoom_r (unwrap_result (E := E) m))).
  { intros m Hm [r st] Hs. specialize (Hm st Hs). unfold zoom_r, unwrap_result, bind, attempt. cbn [fst snd].
    by destruct (m st) as [? ?|? ?| | |]. }
  induction n as [|n IH]; [by intros st|]. cbn [line_loop]. apply preserves_bind.
  - unfold line_step. apply preserves_bind.
    + apply preserves_attempt. intros [r [bw w]] Hs. unfold zoom_rw. cbn [fst snd].
      by destruct (lines_next (r, w)) as [? [??]|? [??]| | |].
    + intros [[line|]|e]; [|apply preserves_ret..]. destruct (bool_decide _); [apply preserves_ret|].
      apply preserves_bind; [apply Hio, (write_all_keeps (line ++ [LF]) conn)|]. intros _.
      apply preserves_bind; [apply Hio, (flush_keeps conn)|]. intros _. apply preserves_ret.
  - intros [|]; [done|apply preserves_ret].
Qed.

(** The handler of upgrade.rs writes, for each line that the other side sends, this
    line and a line feed, and stops at "quit", at bytes that are not UTF-8 and at the end
    of the stream or its first error. *)
Theorem line_protocol_echoes {E} (conn : C) (w : W) bs fin :
  (raw_can_fail W C -> False) -> holds conn w bs fin -> length bs < fuel ->
  wp (line_protocol (E := E) conn)
     (fun _ w' => accepted conn w' = accepted conn w ++ line_echo fin (S (length bs)) bs) never w.
Proof.
  intros Hcf Hc Hf. unfold line_protocol. wp_step.
  eapply wp_never_mono; [by apply conn_clone|]. intros reader w1 [Hw1 Hr].
  assert (Hr1 : holds (BufReader_new reader) w1 bs fin) by by apply buf_holds_new.
  pose proof (wp_preserves _ _ _ _ (BufReader_new reader, (BufWriter_new conn, w1))
    (line_loop_keeps (E := E) fuel conn) eq_refl
    (line_loop_spec fuel (S (length bs)) (BufReader_new reader) (BufWriter_new conn) w1 bs fin
       Hcf Hr1 Hf (Nat.lt_succ_diag_r _) Hf)) as Hl.
  unfold wp at 1 in Hl. unfold wp at 1.
  destruct (line_loop fuel _) as [[] [r2 [bw2 w2]]|e [r2 [bw2 w2]]| | |]; [|by destruct Hl as [_ ?]|done..].
  destruct Hl as (Hi & Hal & _ & Hout). unfold inner_is in Hi. cbn in Hi. subst conn.
  change (wp (drop_value (E := E) r2;;; drop_value bw2)
    (fun _ w' => accepted (bw_inner bw2) w' = accepted (bw_inner bw2) w ++ line_echo fin (S (length bs)) bs)
    never w2).
  wp_step. eapply wp_never_mono; [by apply drop_alive|]. intros [] w3 Hw3.
  eapply wp_never_mono; [apply writer_drop_spec|]. intros [] w4 (_ & _ & _ & _ & _ & [Hacc|Hno]); [|done].
  rewrite Hacc. change (buf_written ?bw ?w) with (written bw w).
  rewrite (written_rstep bw2 w2 w3) by done. rewrite Hout.
  change (written (BufWriter_new (bw_inner bw2)) w1) with (accepted (bw_inner bw2) w1 ++ []).
  by rewrite (accepted_rstep (bw_inner bw2) w w1), app_nil_r by done.
Qed.
End handler.

(** ** upgrade.rs behind the server *)
Section upgraded.
Context `{!HttpApi} `{!HttpApiLaws} `{!Fuel} {W C : Type}.
Context `{!World W} `{!Conn W C} `{!ConnLaws W C} `{!HasStore W (BufReader C)}
  `{!StoreWorld W (BufReader C)} `{!ConnStore W C} `{!Clock W} `{!ClockLaws (W := W)}.

Definition upgrade_spec : app_spec unit (UpgradeExtension LineHandler) C incoming :=
  head_spec (fun _ _ => switching_response (Sized [])).

Lemma unframed_switching : unframed (res_headers (switching_response (C := C) ())).
Proof. by apply unframed_insert. Qed.

#[export] Instance upgrade_laws : ServiceLaws (W := W) (Service0 := upgrade_service) upgrade_spec.
Proof.
  split.
  - intros k app w req body rest skipped fin Hb.
    apply (head_call_spec (fun _ _ => switching_response (Sized [])) k app w req body rest skipped fin
             (switching_response Body_empty) []); try done.
    + exact unframed_switching.
    + by right.
    + cbn. apply incoming_length in Hb. lia.
  - intros E app w req. by apply wp_ret.
Qed.

(** The head of the answer *)
Definition switching_text (time : N) (version : Version) (h : HeaderMap) : bytes :=
  message_head (status_line version STATUS_SWITCHING_PROTOCOLS)
    (hm_iter (cl_insert 0 (dated time (version_headers version (connection_has "keep-alive" h)
                             (hm_insert (b "upgrade") (b "line-protocol") hm_new))))).

Lemma upgrade_reference fin n ts bs m u v h body rest skipped :
  request_at fin bs = Arrives m u v h body rest skipped -> expect_is_continue h = false ->
  reference upgrade_spec fin (S n) ts tt bs =
    Some (switching_text (ts 0) v h, HandedOver (MkUpgradeExtension LineProtocol) skipped, tt).
Proof.
  intros Hat Hex. cbn [reference]. rewrite Hat. unfold exchange, served, respond. rewrite Hex.
  cbn [upgrade_spec head_spec app_call app_len app_body app_reads incoming_len switching_response upgrade
       res_headers res_body res_status res_extensions length].
  rewrite unframed_fixed_of by exact unframed_switching. unfold switching_text.
  by destruct (should_write_body _ _); cbn; rewrite app_nil_r.
Qed.

(** C3. upgrade.rs from end to end: whatever a client requests, [serve] answers with 101 and
    then echoes the lines that the client sends behind the request, as [line_echo] has it: up
    to "quit", bytes that are not UTF-8 or the end of the stream. The first bytes behind the
    request can be [lost]: those that were read ahead with it go with the reader of the
    server, at most its buffer full. All the others, [seen], get to the handler. *)
Theorem upgrade_served (conn : C) (w : W) bs fin m u v h body rest skipped :
  (raw_can_fail W C -> False) -> ConnShared (W := W) conn ->
  holds conn w bs fin -> S (length bs) < fuel ->
  request_at fin bs = Arrives m u v h body rest skipped -> expect_is_continue h = false ->
  wp (serve (H1 := upgrade_service) conn)
     (fun _ '(_, w') => exists time lost seen, skipped = lost ++ seen /\ length lost <= DEFAULT_BUF_SIZE /\
        accepted conn w' = accepted conn w ++ switching_text time v h ++ line_echo fin (S (length seen)) seen)
     (fun _ _ => False) (tt, w).
Proof.
  intros Hcf Hsh Hc Hf Hat Hex. pose proof (request_at_length _ _ _ _ _ _ _ _ _ Hat) as [_ Hsk].
  pose proof (fun ts => upgrade_reference fin (length bs) ts bs m u v h body rest skipped Hat Hex) as Href.
  eapply wp_mono; [apply (serve_spec (Service0 := upgrade_service) upgrade_spec
    (fun w' => exists time lost seen, skipped = lost ++ seen /\ length lost <= DEFAULT_BUF_SIZE /\
       accepted conn w' = accepted conn w ++ switching_text time v h ++ line_echo fin (S (length seen)) seen)
    conn tt w bs fin Hc Hf)|..].
  - intros ts. rewrite Href. by eexists.
  - intros ts out up left app' Hr w' [Hacc Hseen]. rewrite Href in Hr. injection Hr as <- <- <-.
    destruct (Hseen Hsh) as (lost & seen & -> & Hlost & Hh). rewrite length_app in Hsk.
    eapply wp_never_mono; [apply (line_protocol_echoes conn w' seen fin Hcf Hh); lia|].
    intros [] w2 Hout. exists (ts 0), lost, seen. split_and!; [done|done|]. by rewrite Hout, Hacc, app_assoc.
  - intros [] [app' w'] (ts & out & r & Hr & Ho). rewrite Href in Hr. by injection Hr as <- <-.
  - intros e [app' w'] (ts & out & r & app2 & Hr & _ & Ho). rewrite Href in Hr. injection Hr as <- <-.
    by destruct Ho as [[Hno _]|Ho].
Qed.
End upgraded.
