(* ===== verification/Chat.v ===== *)
(** * Chat: src/examples/sse-chat.rs

    Users that are connected by server-sent events: a map from their ids to channels of
    events, a thread for each of them that forwards its events to the body of its
    response, and requests that send a message to all others. *)
From stdpp Require Import base list gmap strings.
From Stdlib Require Import Strings.Byte NArith Lia.
From S2P Require Import Prelude Utf8 Errors StdIo Buffered HttpApi Mpsc ReadQueue.
From S2P Require Import HttpBody Body Message Request Response Upgrade Tls Connection Server.
From S2P Require Import Examples Routes.

(** ** Events *)

(** [enum Event] *)
Inductive Event :=
| User (id : N)
| Message (user_id : N) (text : bytes).

Definition quoted (text : bytes) : bytes := [x22] ++ text ++ [x22].

(** The two [formatdoc!]s *)
Definition format_event (event : Event) : bytes :=
  match event with
  | User id =>
      b "event: user" ++ [LF] ++
      b "data: {" ++ quoted (b "id") ++ b ": " ++ quoted (dec id) ++ b "}" ++ [LF; LF]
  | Message user_id text =>
      b "event: message" ++ [LF] ++
      b "data: {" ++ quoted (b "userId") ++ b ": " ++ dec user_id ++ b ", " ++
      quoted (b "message") ++ b ": " ++ quoted text ++ b "}" ++ [LF; LF]
  end.

#[export] Instance Event_drop {W} : Drop W Event := fun E _ => ret tt.

(** [str::parse::<usize>] *)
Definition parse_usize (s : bytes) : option N :=
  let digits := match s with x2b :: rest => rest | _ => s end in
  match digits with
  | [] => None
  | _ => n ← read_digits 10 digits 0; if (n <? 2 ^ 64)%N then Some n else None
  end.

(** ** The state of the program *)

Section state.
Context `{!HttpApi}.

(** A thread: the receiver of its events and the channel of the body it feeds *)
Record forwarder := {
  fw_events : Receiver Event;
  fw_channel : BodyChannel;
}.

(** [users], [NEXT_USER_ID] and the threads, [None] when they have ended *)
Record chat := {
  users : gmap N (Sender Event);
  next_user_id : N;
  forwarders : list (option forwarder);
}.

Class HasChat (W : Type) := {
  get_chat : W -> chat;
  set_chat : chat -> W -> W;
}.
End state.
Arguments forwarder {_}.
Arguments chat {_}.
Arguments HasChat {_} W.
#[export] Hint Mode HasChat - ! : typeclass_instances.

Section ops.
Context `{!HttpApi} {W : Type} `{!HasStore W Event} `{!HasStore W (Chunk + io_error)} `{!HasChat W}.
Abbreviation BodyReceiver := (Receiver (Chunk + io_error)).

Definition modify_chat {E} (f : chat -> chat) : ST W E unit :=
  modify (fun w => set_chat (f (get_chat w)) w).

(** [NEXT_USER_ID.fetch_add(1, Ordering::Relaxed)] *)
Definition fetch_add {E} : ST W E N :=
  let! w := get_state in
  let id := next_user_id (get_chat w) in
  modify_chat (fun c => Build_chat (users c) (wrap64 (id + 1)) (forwarders c));;;
  ret id.

(** *** "/messages" with another method than POST *)

(** Up to [users.lock()]: an id, and a channel with its first event *)
Definition join_take {E} : ST W E (N * Sender Event * Receiver Event) :=
  let! id := fetch_add in
  let! (tx, rx) := channel in
  let! sent := send tx (User id) in
  match sent with
  | inl _ => ret (id, tx, rx)
  | inr _ => panic
  end.

(** [users.lock().unwrap().insert(user_id, tx)]: a sender that was there is dropped. *)
Definition insert_user {E} (id : N) (tx : Sender Event) : ST W E unit :=
  let! w := get_state in
  modify_chat (fun c => Build_chat (<[id := tx]> (users c)) (next_user_id c) (forwarders c));;;
  match users (get_chat w) !! id with
  | Some old => drop_sender old
  | None => ret tt
  end.

(** From there: the body, and the thread that feeds it *)
Definition join_enter {E R} (id : N) (tx : Sender Event) (rx : Receiver Event)
  : ST W E (Body BodyReceiver R) :=
  insert_user id tx;;;
  let! (sender, body) := Body_channel in
  modify_chat (fun c => Build_chat (users c) (next_user_id c)
                          (forwarders c ++ [Some (Build_forwarder rx sender)]));;;
  ret body.

Definition join {E R} : ST W E (Body BodyReceiver R) :=
  let! (id, tx, rx) := join_take in
  join_enter id tx rx.

(** *** POST to "/messages" *)

(** [retain(|id, tx| ..)] over the entries in the order of the map; [skip] are the ids that
    are kept without sending to them. *)
Fixpoint retain_users {E} (skip : N -> bool) (event : Event) (entries : list (N * Sender Event))
  : ST W E (list (N * Sender Event)) :=
  match entries with
  | [] => ret []
  | (id, tx) :: entries =>
      let! keep :=
        if skip id then ret true
        else let! sent := send tx event in ret (match sent with inl _ => true | inr _ => false end) in
      (if keep : bool then ret tt else drop_sender tx);;;
      let! kept := retain_users skip event entries in
      ret (if keep then (id, tx) :: kept else kept)
  end.

(** [users.lock().unwrap().retain(..)]; the order of a [HashMap] is not specified. *)
Definition publish {E} (skip : N -> bool) (event : Event) (entries : list (N * Sender Event))
  : ST W E unit :=
  let! kept := retain_users skip event entries in
  modify_chat (fun c => Build_chat (list_to_map kept) (next_user_id c) (forwarders c)).

(** *** The threads *)

(** The thread ends: first its receiver is dropped, then its channel. *)
Definition forward_end {E} (k : nat) (f : forwarder) : ST W E unit :=
  drop_receiver (fw_events f);;;
  channel_drop (fw_channel f);;;
  modify_chat (fun c => Build_chat (users c) (next_user_id c) (<[k := None]> (forwarders c))).

(** One iteration of [for event in rx] in the thread [k] *)
Definition forward_step {E} (k : nat) : ST W E unit :=
  let! w := get_state in
  match forwarders (get_chat w) !! k with
  | Some (Some f) =>
      let! event := recv (fw_events f) in
      match event with
      | None => forward_end k f
      | Some event =>
          let! sent := attempt (channel_send (fw_channel f) (format_event event)) in
          match sent with
          | inl _ => ret tt
          | inr _ => forward_end k f
          end
      end
  | _ => ret tt
  end.
End ops.

(** ** The closure *)
Definition STATUS_CREATED : N := 201%N.
Definition STATUS_UNAUTHORIZED : N := 401%N.

Section service.
Context `{!HttpApi} `{!Fuel} {W C Hd : Type} `{!Conn W C} `{!HasStore W (BufReader C)}.
Context `{!HasStore W Event} `{!HasStore W (Chunk + io_error)} `{!HasChat W}.
(** The order in which the map is visited, and the text of sse-chat.html *)
Context (visit : gmap N (Sender Event) -> list (N * Sender Event)) (html : bytes).

Abbreviation ChatBody := (Body (Receiver (Chunk + io_error)) Cursor).
Abbreviation ChatResponse := (Response (UpgradeExtension Hd) C ChatBody).

Definition post_message (user_id : N) (text : bytes) : ST W boxed_error unit :=
  let! w := get_state in
  publish (fun id => (user_id =? id)%N) (Message user_id text) (visit (users (get_chat w))).

Definition sender_id (headers : HeaderMap) : option N :=
  value ← hm_get headers (b "x-user-id") : option bytes;
  user_id ← header_to_str value;
  parse_usize user_id.

Definition post_messages (req : Request (IncomingBody C)) : ST W boxed_error ChatResponse :=
  match sender_id (req_headers req) with
  | Some user_id =>
      let! text := attempt (into_bytes (req_body req)) in
      let text := match text with inl bs => bs | inr _ => [] end in
      let text := match from_utf8 text with inl _ => text | inr _ => [] end in
      post_message user_id text;;;
      ret (status_body STATUS_CREATED Body_empty)
  | None =>
      drop_value (req_body req);;;
      ret (status_body STATUS_UNAUTHORIZED (Body_from_vec (b "Missing x-user-id header")))
  end.

(** [users.clone()] only counts references. *)
Definition chat_call (req : Request (IncomingBody C)) : ST (unit * W) boxed_error ChatResponse :=
  let path := uri_path (req_uri req) in
  zoom_r (
    if bool_decide (path = b "/messages") && bool_decide (req_method req = POST)
    then post_messages req
    else if bool_decide (path = b "/messages")
    then
      let! body := join in
      drop_value (req_body req);;;
      ret (Build_Response STATUS_OK HTTP_11
             (hm_insert (b "connection") (b "close")
                (hm_insert (b "content-type") (b "text/event-stream") hm_new))
             no_extensions body)
    else if bool_decide (path = b "/")
    then
      drop_value (req_body req);;;
      ret (Build_Response STATUS_OK HTTP_11 (hm_insert (b "content-type") (b "text/html") hm_new)
             no_extensions (Body_from_vec html))
    else
      drop_value (req_body req);;;
      ret (status_body STATUS_NOT_FOUND Body_empty)).

Definition chat_service : Service (W := W) (C := C) (A := unit) (Hd := Hd) := {|
  SBody := ChatBody;
  call := chat_call;
  should_continue := fun E => default_should_continue;
|}.
End service.
