(* ===== verification/ChatLaws.v ===== *)
(** * ChatLaws: what the users of sse-chat.rs receive

    The users that join, the threads that forward, the requests that post and the
    connections that read the bodies, as a transition system over the operations of Chat;
    every user gets what the others posted, in the order in which it was posted. *)
From stdpp Require Import base list gmap strings.
From Stdlib Require Import Strings.Byte NArith Lia.
From S2P Require Import Prelude Errors HttpApi Mpsc HttpBody Body BodyLaws Chat.

(** ** The text of the events

    [text] is put between quotes as it is. *)
Definition forged_user (id : N) : bytes :=
  [x22] ++ b "}" ++ [LF; LF] ++ b "event: user" ++ [LF] ++
  b "data: {" ++ quoted (b "id") ++ b ": " ++ [x22] ++ dec id.

(** The text of a message is not escaped: a message whose text goes on after a quote is
    rendered as two events, and the second is the one that tells a user its own id. *)
Theorem chat_forgery (from id : N) (text : bytes) :
  format_event (Message from (text ++ forged_user id)) =
  format_event (Message from text) ++ format_event (User id).
Proof.
  unfold format_event, forged_user, quoted. by rewrite <-!app_assoc.
Qed.

#[local] Arguments format_event : simpl never.

Section hub.
Context `{!HttpApi}.
Abbreviation item := (Chunk + io_error)%type.

(** ** The state *)

(** What the threads of the program share *)
Record room := {
  r_chat : chat;
  r_events : store Event;
  r_bodies : store item;
}.

#[export] Instance room_events : HasStore room Event := {|
  get_store := r_events;
  set_store s r := Build_room (r_chat r) s (r_bodies r);
|}.
#[export] Instance room_bodies : HasStore room item := {|
  get_store := r_bodies;
  set_store s r := Build_room (r_chat r) (r_events r) s;
|}.
#[export] Instance room_chat : HasChat room := {|
  get_chat := r_chat;
  set_chat c r := Build_room c (r_events r) (r_bodies r);
|}.

(** A request for "/messages": the channel it made, then the thread that forwards to the
    body of its response while the connection reads it, then without the connection *)
Inductive phase :=
| Joining (tx : Sender Event) (rx : Receiver Event)
| Reading (k : nat) (body : Receiver item)
| Away (k : nat).

(** What the connection got from the body; how many messages had been posted when the user
    was inserted *)
Record session := {
  s_user : N;
  s_phase : phase;
  s_got : list bytes;
  s_since : nat;
}.

(** With the messages that were posted: who posted, and the text *)
Record hub := {
  h_room : room;
  h_sessions : list session;
  h_log : list (N * bytes);
}.

Definition new_hub : hub := {|
  h_room := {|
    r_chat := {| users := ∅; next_user_id := 1; forwarders := [] |};
    r_events := {| next_chan := 0; chans := ∅ |};
    r_bodies := {| next_chan := 0; chans := ∅ |};
  |};
  h_sessions := [];
  h_log := [];
|}.

(** ** The steps *)
Inductive hub_step : hub -> hub -> Prop :=
| step_take r r' ss log id tx rx :
    join_take (E := boxed_error) r = Ok (id, tx, rx) r' ->
    hub_step (Build_hub r ss log)
             (Build_hub r' (ss ++ [Build_session id (Joining tx rx) [] 0]) log)
| step_enter r r' ss log i id tx rx got since body :
    ss !! i = Some (Build_session id (Joining tx rx) got since) ->
    join_enter (E := boxed_error) (R := Empty_set) id tx rx r = Ok (MkBody (Some (Iter body))) r' ->
    hub_step (Build_hub r ss log)
             (Build_hub r' (<[i := Build_session id (Reading (length (forwarders (r_chat r))) body)
                                     got (length log)]> ss) log)
| step_post r r' ss log user_id text entries :
    entries ≡ₚ map_to_list (users (r_chat r)) ->
    publish (E := boxed_error) (fun id => (user_id =? id)%N) (Message user_id text) entries r = Ok tt r' ->
    hub_step (Build_hub r ss log) (Build_hub r' ss (log ++ [(user_id, text)]))
| step_forward r r' ss log k :
    forward_step (E := boxed_error) k r = Ok tt r' ->
    hub_step (Build_hub r ss log) (Build_hub r' ss log)
| step_receive r r' ss log i id k body got since data :
    ss !! i = Some (Build_session id (Reading k body) got since) ->
    recv (E := boxed_error) body r = Ok (Some (inl (Data data))) r' ->
    hub_step (Build_hub r ss log)
             (Build_hub r' (<[i := Build_session id (Reading k body) (got ++ [data]) since]> ss) log)
| step_leave r r' ss log i id k body got since :
    ss !! i = Some (Build_session id (Reading k body) got since) ->
    drop_receiver (E := boxed_error) body r = Ok tt r' ->
    hub_step (Build_hub r ss log)
             (Build_hub r' (<[i := Build_session id (Away k) got since]> ss) log).

Definition reachable (h : hub) : Prop := rtc hub_step new_hub h.

(** What a user is meant to get *)
Definition message_to (id : N) (m : N * bytes) : list bytes :=
  if (m.1 =? id)%N then [] else [format_event (Message m.1 m.2)].
Definition expected (id : N) (log : list (N * bytes)) : list bytes :=
  format_event (User id) :: log ≫= message_to id.

Lemma expected_snoc id log m : expected id (log ++ [m]) = expected id log ++ message_to id m.
Proof. unfold expected. by rewrite bind_app, bind_singleton. Qed.

(** ** What the operations do to the room *)
Lemma join_take_eq E r :
  join_take (E := E) r =
  let id := next_user_id (r_chat r) in
  let c := next_chan (r_events r) in
  Ok (id, Build_Sender c, Build_Receiver c)
     (Build_room (Build_chat (users (r_chat r)) (wrap64 (id + 1)) (forwarders (r_chat r)))
        (Build_store (S c) (<[c := Build_chan [User id] true true]> (chans (r_events r))))
        (r_bodies r)).
Proof.
  unfold join_take, fetch_add, modify_chat, modify, bind, get_state, ret, channel, send, update_chan, the_store.
  cbn. rewrite lookup_insert_eq. cbn. by rewrite insert_insert_eq.
Qed.

(** The user was not there yet. *)
Lemma join_enter_eq E R id tx rx r :
  users (r_chat r) !! id = None ->
  join_enter (E := E) (R := R) id tx rx r =
  let c := next_chan (r_bodies r) in
  Ok (MkBody (Some (Iter (Build_Receiver c))))
     (Build_room
        (Build_chat (<[id := tx]> (users (r_chat r))) (next_user_id (r_chat r))
           (forwarders (r_chat r) ++ [Some (Build_forwarder rx {| body_channel_0 := Build_Sender c |})]))
        (r_events r)
        (Build_store (S c) (<[c := Build_chan [] true true]> (chans (r_bodies r))))).
Proof.
  intros Hid. unfold join_enter, insert_user, Body_channel, modify_chat, modify, bind, get_state, ret,
    channel, the_store. cbn. by rewrite Hid.
Qed.

(** *** A message to all others *)
Section publish.
Context (skip : N -> bool) (event : Event).

Definition posted (id : N) (c : chan Event) : chan Event :=
  if skip id then c
  else if receiver_alive c then Build_chan (queue c ++ [event]) (sender_alive c) true
  else Build_chan (queue c) false false.

(** The user stays in the map. *)
Definition stays (chans : gmap nat (chan Event)) (e : N * Sender Event) : bool :=
  skip e.1 || match chans !! tx e.2 with Some c => receiver_alive c | None => false end.

(** Only channels of events changed, in their messages and their senders. *)
Definition same_but_chans r r' : Prop :=
  r_chat r' = r_chat r /\ r_bodies r' = r_bodies r /\ next_chan (r_events r') = next_chan (r_events r).

Lemma retain_one E id t entries r :
  exists r1, retain_users (E := E) skip event ((id, t) :: entries) r =
      (let! kept := retain_users skip event entries in
       ret (if stays (chans (r_events r)) (id, t) then (id, t) :: kept else kept)) r1 /\
    same_but_chans r r1 /\
    chans (r_events r1) !! tx t = posted id <$> chans (r_events r) !! tx t /\
    (forall c, c <> tx t -> chans (r_events r1) !! c = chans (r_events r) !! c).
Proof.
  unfold same_but_chans, posted, stays. cbn [retain_users fst snd].
  unfold bind at 1. destruct (skip id); cbn [orb].
  { exists r. split_and!; try done. by destruct (_ !! _). }
  unfold send, drop_sender, update_chan, bind, ret, the_store. cbn.
  destruct (chans (r_events r) !! tx t) as [[q a []]|] eqn:Hc; cbn.
  - eexists. split; [done|]. cbn. split_and!; try done; [by rewrite lookup_insert_eq|].
    intros c Hne. by rewrite lookup_insert_ne.
  - rewrite Hc. eexists. split; [done|]. cbn. split_and!; try done; [by rewrite lookup_insert_eq|].
    intros c Hne. by rewrite lookup_insert_ne.
  - rewrite Hc. exists r. split_and!; try done.
Qed.

Lemma retain_users_spec E entries r :
  NoDup ((fun e => tx e.2) <$> entries) ->
  exists r', retain_users (E := E) skip event entries r =
               Ok (filter (stays (chans (r_events r))) entries) r' /\
    same_but_chans r r' /\
    (forall id t, (id, t) ∈ entries ->
       chans (r_events r') !! tx t = posted id <$> chans (r_events r) !! tx t) /\
    (forall c, c ∉ (fun e => tx e.2) <$> entries ->
       chans (r_events r') !! c = chans (r_events r) !! c).
Proof.
  revert r. induction entries as [|[id t] entries IH]; intros r Hnd.
  { exists r. split_and!; try done. by intros id t Hin%elem_of_nil. }
  cbn in Hnd. apply NoDup_cons in Hnd as [Hnot Hnd].
  destruct (retain_one E id t entries r) as (r1 & -> & (Hc1 & Hb1 & Hn1) & Ht1 & Ho1).
  destruct (IH r1 Hnd) as (r' & Hr' & (Hc' & Hb' & Hn') & Ht' & Ho').
  exists r'. unfold bind. rewrite Hr'. unfold ret. split_and!.
  - f_equal. rewrite filter_cons. 
    assert (filter (stays (chans (r_events r1))) entries = filter (stays (chans (r_events r))) entries) as ->.
    { clear -Hnot Ho1. induction entries as [|[id' t'] entries IH]; [done|]. cbn in Hnot.
      apply not_elem_of_cons in Hnot as [Hne Hnot]. rewrite !filter_cons.
      assert (stays (chans (r_events r1)) (id', t') = stays (chans (r_events r)) (id', t')) as ->.
      { unfold stays. cbn [snd fst]. by rewrite (Ho1 (tx t')) by congruence. }
      by rewrite IH. }
    by destruct (stays _ _).
  - unfold same_but_chans. by rewrite Hc', Hb', Hn'.
  - intros id' t' [[= -> ->]|Hin]%elem_of_cons.
    + by rewrite Ho'.
    + rewrite (Ht' id' t' Hin), Ho1; [done|]. intros Heq. apply Hnot. apply list_elem_of_fmap.
      exists (id', t'). by split.
  - intros c Hc. apply not_elem_of_cons in Hc as [Hne Hc]. by rewrite Ho', Ho1.
Qed.

Definition senders_distinct (us : gmap N (Sender Event)) : Prop :=
  forall id id' t, us !! id = Some t -> us !! id' = Some t -> id = id'.

Lemma users_NoDup us entries :
  entries ≡ₚ map_to_list us -> senders_distinct us -> NoDup ((fun e => tx e.2) <$> entries).
Proof.
  intros Hp Hd. apply NoDup_fmap_2_strong.
  - intros [id t] [id' t'] Hin Hin' Heq. rewrite Hp in Hin, Hin'.
    apply elem_of_map_to_list in Hin, Hin'. destruct t as [c], t' as [c']. cbn in Heq. subst c'.
    by rewrite (Hd id id' _ Hin Hin').
  - rewrite Hp. apply NoDup_map_to_list.
Qed.

(** The users whose channel is closed are removed; all others, but those that are skipped,
    have the event at the end of their channel. *)
Lemma publish_spec E entries r :
  entries ≡ₚ map_to_list (users (r_chat r)) -> senders_distinct (users (r_chat r)) ->
  exists us events, publish (E := E) skip event entries r =
      Ok tt (Build_room (Build_chat us (next_user_id (r_chat r)) (forwarders (r_chat r))) events (r_bodies r)) /\
    next_chan events = next_chan (r_events r) /\
    us = filter (stays (chans (r_events r))) (users (r_chat r)) /\
    (forall id t, users (r_chat r) !! id = Some t ->
       chans events !! tx t = posted id <$> chans (r_events r) !! tx t) /\
    (forall c, (forall id, users (r_chat r) !! id <> Some (Build_Sender c)) ->
       chans events !! c = chans (r_events r) !! c).
Proof.
  intros Hp Hd. pose proof (users_NoDup _ _ Hp Hd) as Hnd.
  destruct (retain_users_spec E entries r Hnd) as (r' & Hr & (Hc & Hb & Hn) & Ht & Ho).
  unfold publish, bind. rewrite Hr. unfold modify_chat, modify. cbn [set_chat get_chat room_chat].
  rewrite Hc, Hb. do 2 eexists. split_and!; [done|done| | |].
  - apply map_eq. intros id. apply option_eq. intros t.
    rewrite map_lookup_filter_Some, <-elem_of_list_to_map.
    + rewrite list_elem_of_filter, Hp, elem_of_map_to_list. tauto.
    + apply (sublist_NoDup _ entries.*1); [rewrite Hp; apply NoDup_fst_map_to_list|].
      apply fmap_sublist, sublist_filter.
  - intros id t Hid. apply Ht. by rewrite Hp, elem_of_map_to_list.
  - intros c Hno. apply Ho. intros ([id [c']] & -> & Hin)%list_elem_of_fmap. cbn in Hno.
    rewrite Hp in Hin. apply elem_of_map_to_list in Hin. by apply (Hno id).
Qed.
End publish.

(** *** A thread that forwards *)
Lemma drop_events_eq {W E} (vs : list Event) (w : W) : drop_all (E := E) vs w = Ok tt w.
Proof. induction vs as [|v vs IH]; [done|]. cbn [drop_all]. unfold bind. exact IH. Qed.

Section forward.
Context (k : nat) (f : forwarder) (r : room).
Context (Hf : forwarders (r_chat r) !! k = Some (Some f)).
Abbreviation ev := (rx (fw_events f)).
Abbreviation bd := (tx (body_channel_0 (fw_channel f))).

Lemma forward_one E e q a q' a' :
  chans (r_events r) !! ev = Some (Build_chan (e :: q) a true) ->
  chans (r_bodies r) !! bd = Some (Build_chan q' a' true) ->
  forward_step (E := E) k r = Ok tt (Build_room (r_chat r)
    (Build_store (next_chan (r_events r)) (<[ev := Build_chan q a true]> (chans (r_events r))))
    (Build_store (next_chan (r_bodies r))
       (<[bd := Build_chan (q' ++ [inl (Data (format_event e))]) a' true]> (chans (r_bodies r))))).
Proof.
  intros He Hb. unfold forward_step, bind, get_state, recv, update_chan, the_store. cbn [get_chat room_chat].
  rewrite Hf. cbn. rewrite He. cbn. unfold attempt, channel_send, send_item, send, bind, update_chan, the_store.
  cbn. rewrite Hb. done.
Qed.

(** Nothing to forward, and more can come: it waits. *)
Lemma forward_waits E : chans (r_events r) !! ev = Some (Build_chan [] true true) ->
  forward_step (E := E) k r = Block.
Proof.
  intros He. unfold forward_step, bind, get_state, recv, the_store. cbn [get_chat room_chat].
  rewrite Hf. cbn. by rewrite He.
Qed.

End forward.

Lemma forward_end_eq E k f r q a l q' a' :
  chans (r_events r) !! rx (fw_events f) = Some (Build_chan q a l) ->
  chans (r_bodies r) !! tx (body_channel_0 (fw_channel f)) = Some (Build_chan q' a' false) ->
  exists ce cb, forward_end (E := E) k f r = Ok tt (Build_room
    (Build_chat (users (r_chat r)) (next_user_id (r_chat r)) (<[k := None]> (forwarders (r_chat r))))
    (Build_store (next_chan (r_events r)) (<[rx (fw_events f) := ce]> (chans (r_events r))))
    (Build_store (next_chan (r_bodies r))
       (<[tx (body_channel_0 (fw_channel f)) := cb]> (chans (r_bodies r))))) /\
    receiver_alive ce = false /\ receiver_alive cb = false.
Proof.
  intros He Hb. unfold forward_end, drop_receiver, channel_drop, drop_sender, update_chan, the_store, bind.
  cbn. rewrite He, drop_events_eq. cbn. rewrite Hb. by do 2 eexists.
Qed.

(** The body is not read any more: the thread can only wait or end. *)
Lemma forward_gone E k f r q a q' a' r' :
  forwarders (r_chat r) !! k = Some (Some f) ->
  chans (r_events r) !! rx (fw_events f) = Some (Build_chan q a true) ->
  chans (r_bodies r) !! tx (body_channel_0 (fw_channel f)) = Some (Build_chan q' a' false) ->
  forward_step (E := E) k r = Ok tt r' ->
  exists ce cb, r' = Build_room
    (Build_chat (users (r_chat r)) (next_user_id (r_chat r)) (<[k := None]> (forwarders (r_chat r))))
    (Build_store (next_chan (r_events r)) (<[rx (fw_events f) := ce]> (chans (r_events r))))
    (Build_store (next_chan (r_bodies r))
       (<[tx (body_channel_0 (fw_channel f)) := cb]> (chans (r_bodies r)))) /\
    receiver_alive ce = false /\ receiver_alive cb = false.
Proof.
  intros Hf He Hb. unfold forward_step, bind at 1, get_state. cbn [get_chat room_chat]. rewrite Hf.
  unfold bind at 1, recv, the_store. cbn [get_store room_events]. rewrite He. cbn [queue sender_alive receiver_alive].
  destruct q as [|e q]; [destruct a; [done|]|]; intros Hr.
  - destruct (forward_end_eq E k f r _ _ _ _ _ He Hb) as (ce & cb & Hend & Hdead).
    rewrite Hend in Hr. injection Hr as <-. by exists ce, cb.
  - set (r1 := update_chan _ _ r) in Hr.
    assert (channel_send (fw_channel f) (format_event e) r1 = Err (io_other "body closed") r1) as Hs.
    { unfold channel_send, send_item, send, bind, the_store. cbn. by rewrite Hb. }
    unfold bind, attempt in Hr. rewrite Hs in Hr.
    destruct (forward_end_eq E k f r1 q a true q' a') as (ce & cb & Hend & Hdead); [|done|].
    { cbn. by rewrite lookup_insert_eq. }
    rewrite Hend in Hr. injection Hr as <-. exists ce, cb. cbn. by rewrite insert_insert_eq.
Qed.

(** ** The invariant

    Session [i] has the user [i + 1] and the channel [i] of events; the [k]-th of those that
    got their response has the thread [k] and the body [k]. *)
Definition id_of (i : nat) : N := N.of_nat (S i).
Definition forwards (i k : nat) : forwarder :=
  Build_forwarder (Build_Receiver i) {| body_channel_0 := Build_Sender k |}.

Definition thread_of (s : session) : option nat :=
  match s_phase s with Joining _ _ => None | Reading k _ | Away k => Some k end.

(** All that the user is meant to get is in its hands, in its body, or in its channel. *)
Definition phase_ok (r : room) (log : list (N * bytes)) (i : nat) (s : session) : Prop :=
  match s_phase s with
  | Joining t rx =>
      t = Build_Sender i /\ rx = Build_Receiver i /\ s_got s = [] /\
      chans (r_events r) !! i = Some (Build_chan [User (id_of i)] true true) /\
      users (r_chat r) !! id_of i = None
  | Reading k body =>
      body = Build_Receiver k /\ users (r_chat r) !! id_of i = Some (Build_Sender i) /\
      forwarders (r_chat r) !! k = Some (Some (forwards i k)) /\
      exists q items,
        chans (r_events r) !! i = Some (Build_chan q true true) /\
        chans (r_bodies r) !! k = Some (Build_chan ((fun d => inl (Data d)) <$> items) true true) /\
        s_got s ++ items ++ (format_event <$> q) = expected (id_of i) (drop (s_since s) log)
  | Away k =>
      (exists later, s_got s ++ later = expected (id_of i) (drop (s_since s) log)) /\
      (exists q a, chans (r_bodies r) !! k = Some (Build_chan q a false)) /\
      exists q a l, chans (r_events r) !! i = Some (Build_chan q a l) /\
        forwarders (r_chat r) !! k = Some (if l then Some (forwards i k) else None)
  end.

Definition session_ok (r : room) (log : list (N * bytes)) (i : nat) (s : session) : Prop :=
  s_user s = id_of i /\ s_since s <= length log /\ phase_ok r log i s.

Record hub_ok (h : hub) : Prop := {
  ok_next : next_user_id (r_chat (h_room h)) = wrap64 (N.of_nat (S (length (h_sessions h))));
  ok_events : next_chan (r_events (h_room h)) = length (h_sessions h);
  ok_bodies : next_chan (r_bodies (h_room h)) = length (forwarders (r_chat (h_room h)));
  ok_users id t : users (r_chat (h_room h)) !! id = Some t ->
    exists i, i < length (h_sessions h) /\ id = id_of i /\ t = Build_Sender i;
  ok_sessions i s : h_sessions h !! i = Some s -> session_ok (h_room h) (h_log h) i s;
  ok_threads k f : forwarders (r_chat (h_room h)) !! k = Some (Some f) ->
    exists i s, h_sessions h !! i = Some s /\ thread_of s = Some k;
  ok_distinct i j s s' k : h_sessions h !! i = Some s -> h_sessions h !! j = Some s' ->
    thread_of s = Some k -> thread_of s' = Some k -> i = j;
}.

Lemma id_of_inj i j : id_of i = id_of j -> i = j.
Proof. unfold id_of. lia. Qed.

Lemma users_distinct h : hub_ok h -> senders_distinct (users (r_chat (h_room h))).
Proof.
  intros Hok id id' t Hid Hid'. destruct (ok_users _ Hok _ _ Hid) as (i & _ & -> & ->).
  destruct (ok_users _ Hok _ _ Hid') as (j & _ & -> & [= ->]). done.
Qed.

(** A session only depends on its user, its thread and its channels. *)
Definition same_for (r r' : room) (i : nat) (s : session) : Prop :=
  users (r_chat r') !! id_of i = users (r_chat r) !! id_of i /\
  chans (r_events r') !! i = chans (r_events r) !! i /\
  forall k, thread_of s = Some k ->
    forwarders (r_chat r') !! k = forwarders (r_chat r) !! k /\
    chans (r_bodies r') !! k = chans (r_bodies r) !! k.

Lemma session_frame r r' log i s :
  same_for r r' i s -> session_ok r log i s -> session_ok r' log i s.
Proof.
  intros (Hu & He & Hk) (Hid & Hsince & Hp). split_and!; [done..|].
  unfold phase_ok, thread_of in *. destruct (s_phase s) as [t rx|k body|k].
  - by rewrite Hu, He.
  - destruct (Hk k eq_refl) as [-> ->]. by rewrite Hu, He.
  - destruct (Hk k eq_refl) as [-> ->]. by rewrite He.
Qed.

Lemma session_thread r log i s k :
  session_ok r log i s -> thread_of s = Some k -> is_Some (forwarders (r_chat r) !! k).
Proof.
  intros (_ & _ & Hp) Hk. unfold phase_ok, thread_of in *. destruct (s_phase s) as [t rx|k' body|k'];
    [done|injection Hk as ->..].
  - destruct Hp as (_ & _ & -> & _). by eexists.
  - destruct Hp as (_ & _ & q & a & l & _ & ->). by eexists.
Qed.

(** *** Every step keeps it *)
Lemma take_ok r r' ss log id t rx :
  hub_ok (Build_hub r ss log) -> (N.of_nat (S (length ss)) < 2 ^ 64)%N ->
  join_take (E := boxed_error) r = Ok (id, t, rx) r' ->
  hub_ok (Build_hub r' (ss ++ [Build_session id (Joining t rx) [] 0]) log).
Proof.
  intros Hok Hlen. rewrite join_take_eq. cbn. intros [= <- <- <- <-].
  pose proof (ok_next _ Hok) as Hn. pose proof (ok_events _ Hok) as He. cbn in Hn, He.
  rewrite wrap64_id in Hn by done. rewrite Hn, He.
  assert (Hnew : users (r_chat r) !! id_of (length ss) = None).
  { destruct (_ !! _) as [t|] eqn:Ht; [|done]. destruct (ok_users _ Hok _ _ Ht) as (i & Hi & Heq & _).
    cbn in Hi. apply id_of_inj in Heq. lia. }
  split; cbn.
  - rewrite length_app. cbn. f_equal. lia.
  - rewrite length_app. cbn. lia.
  - apply (ok_bodies _ Hok).
  - intros id' t' Ht. destruct (ok_users _ Hok _ _ Ht) as (i & Hi & Heq). exists i.
    rewrite length_app. cbn in *. split; [lia|done].
  - intros i s [[Hi Hs]|[-> <-]]%lookup_snoc_Some.
    + eapply session_frame; [|by apply (ok_sessions _ Hok)]. split_and!; cbn; [done| |done].
      rewrite lookup_insert_ne; [done|lia].
    + split_and!; [done|cbn; lia|]. cbn. by rewrite lookup_insert_eq.
  - intros k f Hk. destruct (ok_threads _ Hok _ _ Hk) as (i & s & Hs & Ht). exists i, s.
    split; [by apply lookup_app_l_Some|done].
  - intros i j s s' k [[Hi Hs]|[-> <-]]%lookup_snoc_Some
      [[Hj Hs']|[-> <-]]%lookup_snoc_Some; [|done..].
    by apply (ok_distinct _ Hok).
Qed.

(** A session changes: the others are as they were, and nobody else has its thread. *)
Lemma sessions_change r r' ss log i s s1 :
  hub_ok (Build_hub r ss log) -> ss !! i = Some s ->
  (forall k, thread_of s1 = Some k ->
     thread_of s = Some k \/ length (forwarders (r_chat r)) = k) ->
  (forall k, thread_of s = Some k -> thread_of s1 = Some k) ->
  session_ok r' log i s1 ->
  (forall j s', ss !! j = Some s' -> i <> j -> same_for r r' j s') ->
  (forall j s', <[i := s1]> ss !! j = Some s' -> session_ok r' log j s') /\
  (forall j j' s s' k, <[i := s1]> ss !! j = Some s -> <[i := s1]> ss !! j' = Some s' ->
     thread_of s = Some k -> thread_of s' = Some k -> j = j').
Proof.
  intros Hok Hs Hk Hk' Hs1 Hsame. split.
  - intros j s' [(<- & <- & _)|[Hne Hj]]%list_lookup_insert_Some; [done|].
    eapply session_frame; [by apply Hsame|by apply (ok_sessions _ Hok)].
  - assert (Hold : forall j s' k, ss !! j = Some s' -> i <> j ->
      thread_of s1 = Some k -> thread_of s' = Some k -> False).
    { intros j s' k Hj Hne Hk1 Hkj. destruct (Hk k Hk1) as [Hki|<-].
      - by apply Hne, (ok_distinct _ Hok i j s s' k).
      - destruct (session_thread r log j s' _ (ok_sessions _ Hok j s' Hj) Hkj) as [o Ho].
        apply lookup_lt_Some in Ho. lia. }
    intros j j' u u' k [(<- & <- & _)|[Hne Hj]]%list_lookup_insert_Some
      [(<- & <- & _)|[Hne' Hj']]%list_lookup_insert_Some Hu Hu'; [done| | |].
    + by destruct (Hold j' u' k).
    + by destruct (Hold j u k).
    + by apply (ok_distinct _ Hok j j' u u' k).
Qed.

Lemma enter_ok r r' ss log i id t rx got since body :
  hub_ok (Build_hub r ss log) ->
  ss !! i = Some (Build_session id (Joining t rx) got since) ->
  join_enter (E := boxed_error) (R := Empty_set) id t rx r = Ok (MkBody (Some (Iter body))) r' ->
  hub_ok (Build_hub r' (<[i := Build_session id (Reading (length (forwarders (r_chat r))) body)
                                   got (length log)]> ss) log).
Proof.
  intros Hok Hi. pose proof (ok_sessions _ Hok _ _ Hi) as (Hid & _ & -> & -> & Hgot & Hc & Hu).
  cbn in Hid, Hgot, Hc, Hu. subst id got. rewrite join_enter_eq by done. cbn. intros [= <- <-].
  pose proof (ok_bodies _ Hok) as Hb. cbn in Hb. rewrite Hb. set (k := length (forwarders (r_chat r))).
  set (s1 := Build_session _ _ _ _). set (r1 := Build_room _ _ _).
  destruct (sessions_change r r1 ss log i _ s1 Hok Hi) as [Hss Hdist]; [..|split]; cbn.
  - intros k' [= <-]. by right.
  - done.
  - split_and!; [done|done|]. cbn. rewrite !lookup_insert_eq.
    split_and!; [done|done|by apply list_lookup_middle|]. exists [User (id_of i)], [].
    rewrite drop_ge by done. by rewrite Hc.
  - intros j s' Hj Hne. split_and!; cbn.
    + rewrite lookup_insert_ne; [done|]. by intros ?%id_of_inj.
    + done.
    + intros k' Hk'. destruct (session_thread r log j s' k' (ok_sessions _ Hok j s' Hj) Hk') as [o Ho].
      apply lookup_lt_Some in Ho as Hlt. rewrite lookup_app_l, lookup_insert_ne by lia. done.
  - rewrite length_insert. apply (ok_next _ Hok).
  - rewrite length_insert. apply (ok_events _ Hok).
  - rewrite length_app. cbn. lia.
  - intros id' t' [[<- <-]|[_ Ht]]%lookup_insert_Some; rewrite length_insert.
    + exists i. split; [by eapply lookup_lt_Some|done].
    + by apply (ok_users _ Hok).
  - exact Hss.
  - intros k' f [[Hlt Hk]|[-> [= <-]]]%lookup_snoc_Some.
    + destruct (ok_threads _ Hok _ _ Hk) as (j & s & Hs & Ht). exists j, s. cbn in Hs.
      rewrite list_lookup_insert_ne; [done|]. intros ->. rewrite Hi in Hs. by injection Hs as <-.
    + exists i, s1. rewrite list_lookup_insert_eq by by eapply lookup_lt_Some. done.
  - exact Hdist.
Qed.

(** The sessions, when the threads, and what the messages are sent with, stay *)
Lemma post_ok r r' ss log user_id text entries :
  hub_ok (Build_hub r ss log) ->
  entries ≡ₚ map_to_list (users (r_chat r)) ->
  publish (E := boxed_error) (fun id => (user_id =? id)%N) (Message user_id text) entries r = Ok tt r' ->
  hub_ok (Build_hub r' ss (log ++ [(user_id, text)])).
Proof.
  intros Hok Hp. pose proof (users_distinct _ Hok) as Hd. cbn in Hd.
  destruct (publish_spec (fun id => (user_id =? id)%N) (Message user_id text) boxed_error entries r Hp Hd)
    as (us & events & -> & Hnext & Hus & Hsent & Hother).
  intros [= <-]. split; cbn; [apply (ok_next _ Hok)| |apply (ok_bodies _ Hok)| | |
    apply (ok_threads _ Hok)|apply (ok_distinct _ Hok)].
  - rewrite Hnext. apply (ok_events _ Hok).
  - subst us. intros id t [Ht _]%map_lookup_filter_Some. by apply (ok_users _ Hok).
  - intros i s Hi. destruct (ok_sessions _ Hok _ _ Hi) as (Hid & Hsince & Hs). cbn in Hs, Hsince.
    split_and!; [done|rewrite length_app; lia|]. unfold phase_ok in *.
    assert (Hnot : users (r_chat r) !! id_of i = None -> chans events !! i = chans (r_events r) !! i).
    { intros Hnone. apply Hother. intros id Hu. destruct (ok_users _ Hok _ _ Hu) as (j & _ & -> & [= <-]).
      cbn in Hu. by rewrite Hnone in Hu. }
    assert (Hin : forall t, users (r_chat r) !! id_of i = Some t ->
      chans events !! i = posted (fun id => (user_id =? id)%N) (Message user_id text) (id_of i) <$>
                          chans (r_events r) !! i).
    { intros t Hu. destruct (ok_users _ Hok _ _ Hu) as (j & _ & <-%id_of_inj & ->).
      exact (Hsent _ _ Hu). }
    destruct (s_phase s) as [t rx|k body|k]; cbn.
    + destruct Hs as (-> & -> & Hgot & Hc & Hu). rewrite Hnot by done. split_and!; try done.
      subst us. by apply map_lookup_filter_None_2; left.
    + destruct Hs as (-> & Hu & Hk & q & items & Hc & Hb & Hgot). split_and!; [done| |done|].
      * subst us. apply map_lookup_filter_Some_2; [done|]. unfold stays. cbn. rewrite Hc.
        by rewrite orb_true_r.
      * rewrite drop_app_le, expected_snoc, (Hin _ Hu), Hc, <-Hgot by done. unfold posted, message_to. cbn.
        destruct (user_id =? id_of i)%N; cbn.
        -- exists q, items. by rewrite app_nil_r.
        -- exists (q ++ [Message user_id text]), items. rewrite fmap_app. split_and!; [done..|].
           by rewrite <-!app_assoc.
    + destruct Hs as ((later & Hl) & Hb & Hk). rewrite drop_app_le, expected_snoc, <-Hl by done.
      split_and!; [eexists; rewrite <-app_assoc; reflexivity|done|].
      destruct Hk as (q & a & l & Hc & Hk).
      destruct (users (r_chat r) !! id_of i) as [t|] eqn:Hu; [|rewrite Hnot by done; eauto].
      rewrite (Hin t), Hc by done. unfold posted. destruct (_ =? _)%N, l; cbn; eauto.
Qed.

(** One session and the room change, but for the users and for what the other sessions
    depend on. *)
Lemma hub_change r r' ss log i s s1 k :
  hub_ok (Build_hub r ss log) -> ss !! i = Some s ->
  thread_of s = Some k -> thread_of s1 = Some k -> session_ok r' log i s1 ->
  users (r_chat r') = users (r_chat r) -> next_user_id (r_chat r') = next_user_id (r_chat r) ->
  next_chan (r_events r') = next_chan (r_events r) -> next_chan (r_bodies r') = next_chan (r_bodies r) ->
  length (forwarders (r_chat r')) = length (forwarders (r_chat r)) ->
  (forall j, j <> i -> chans (r_events r') !! j = chans (r_events r) !! j) ->
  (forall k', k' <> k -> forwarders (r_chat r') !! k' = forwarders (r_chat r) !! k' /\
                         chans (r_bodies r') !! k' = chans (r_bodies r) !! k') ->
  hub_ok (Build_hub r' (<[i := s1]> ss) log).
Proof.
  intros Hok Hi Hk Hk1 Hs1 Hu Hn He Hb Hl Hev Hth.
  destruct (sessions_change r r' ss log i s s1 Hok Hi) as [Hss Hdist];
    [by left; congruence|congruence|done| |split; cbn; rewrite ?length_insert].
  - intros j s' Hj Hne. split_and!; [by rewrite Hu|by apply Hev|].
    intros k' Hk'. apply Hth. intros ->. by apply Hne, (ok_distinct _ Hok i j s s' k).
  - rewrite Hn. apply (ok_next _ Hok).
  - rewrite He. apply (ok_events _ Hok).
  - rewrite Hb, Hl. apply (ok_bodies _ Hok).
  - rewrite Hu. apply (ok_users _ Hok).
  - exact Hss.
  - intros k' f Hf. destruct (decide (k' = k)) as [->|Hne].
    + exists i, s1. by rewrite list_lookup_insert_eq by by eapply lookup_lt_Some.
    + destruct (Hth k' Hne) as [Heq _]. rewrite Heq in Hf.
      destruct (ok_threads _ Hok _ _ Hf) as (j & s' & Hs' & Hj). exists j, s'. cbn in Hs'.
      rewrite list_lookup_insert_ne; [done|]. intros <-. congruence.
  - exact Hdist.
Qed.

(** A thread forwards an event to its body, or ends when the body was dropped. *)
Lemma forward_ok r r' ss log k :
  hub_ok (Build_hub r ss log) -> forward_step (E := boxed_error) k r = Ok tt r' ->
  hub_ok (Build_hub r' ss log).
Proof.
  intros Hok Hr. destruct (forwarders (r_chat r) !! k) as [[f|]|] eqn:Hk.
  2, 3: unfold forward_step, bind, get_state in Hr; cbn in Hr; rewrite Hk in Hr; by injection Hr as <-.
  destruct (ok_threads _ Hok _ _ Hk) as (i & s & Hi & Ht). cbn in Hi.
  pose proof (ok_sessions _ Hok _ _ Hi) as (Hid & Hsince & Hs).
  rewrite <-(list_insert_id ss i s Hi). unfold phase_ok, thread_of in Hs, Ht. cbn in Hs.
  destruct (s_phase s) as [|k' body|k'] eqn:Hp; [done|injection Ht as ->..].
  - destruct Hs as (Hbody & Hu & Hf & q & items & Hc & Hb & Hgot). rewrite Hk in Hf. injection Hf as ->.
    destruct q as [|e q].
    { by rewrite (forward_waits k (forwards i k) r Hk boxed_error Hc) in Hr. }
    rewrite (forward_one k (forwards i k) r Hk boxed_error e q true _ true Hc Hb) in Hr.
    injection Hr as <-. apply (hub_change r _ ss log i s s k); cbn; try done;
      [unfold thread_of; by rewrite Hp..| | |].
    + split_and!; [done..|]. unfold phase_ok. rewrite Hp. cbn. rewrite !lookup_insert_eq.
      split_and!; [done..|]. exists q, (items ++ [format_event e]). rewrite fmap_app, <-Hgot.
      split_and!; [done..|]. by rewrite <-!app_assoc.
    + intros j Hne. by rewrite lookup_insert_ne.
    + intros k' Hne. by rewrite lookup_insert_ne.
  - destruct Hs as (Hl & (qb & ab & Hb) & q & a & l & Hc & Hf).
    rewrite Hk in Hf. destruct l; [injection Hf as ->|done].
    destruct (forward_gone boxed_error k (forwards i k) r q a qb ab r' Hk Hc Hb Hr)
      as ([qe ae le] & [q' a' l'] & -> & Hce & Hcb). cbn in Hce, Hcb. subst le l'. cbn.
    apply (hub_change r _ ss log i s s k); cbn; try done; [unfold thread_of; by rewrite Hp..| | | |].
    + split_and!; [done..|]. unfold phase_ok. rewrite Hp. cbn. rewrite !lookup_insert_eq.
      split_and!; [done|by do 2 eexists|]. exists qe, ae, false. split; [done|].
      apply list_lookup_insert_eq. by eapply lookup_lt_Some.
    + apply length_insert.
    + intros j Hne. by rewrite lookup_insert_ne.
    + intros k' Hne. by rewrite list_lookup_insert_ne, lookup_insert_ne.
Qed.

(** The connection of a user reads its body, or drops it. *)
Lemma receive_ok r r' ss log i id k body got since data :
  hub_ok (Build_hub r ss log) ->
  ss !! i = Some (Build_session id (Reading k body) got since) ->
  recv (E := boxed_error) body r = Ok (Some (inl (Data data))) r' ->
  hub_ok (Build_hub r' (<[i := Build_session id (Reading k body) (got ++ [data]) since]> ss) log).
Proof.
  intros Hok Hi. pose proof (ok_sessions _ Hok _ _ Hi) as (Hid & Hsince & Hbody & Hu & Hk & q & items & Hc & Hb & Hgot).
  cbn in *. subst body id. unfold recv, the_store. cbn. rewrite Hb.
  destruct items as [|d items]; [done|]. cbn. intros [= <- <-].
  eapply (hub_change r _ ss log i _ _ k); [exact Hok|exact Hi|..]; cbn; try done.
  - split_and!; [done..|]. cbn. rewrite lookup_insert_eq. split_and!; [done..|].
    exists q, items. split_and!; [done..|]. by rewrite <-app_assoc.
  - intros k' Hne. by rewrite lookup_insert_ne.
Qed.

Lemma leave_ok r r' ss log i id k body got since :
  hub_ok (Build_hub r ss log) ->
  ss !! i = Some (Build_session id (Reading k body) got since) ->
  drop_receiver (E := boxed_error) body r = Ok tt r' ->
  hub_ok (Build_hub r' (<[i := Build_session id (Away k) got since]> ss) log).
Proof.
  intros Hok Hi. pose proof (ok_sessions _ Hok _ _ Hi) as (Hid & Hsince & Hbody & Hu & Hk & q & items & Hc & Hb & Hgot).
  cbn in *. subst body id. unfold drop_receiver, the_store. cbn. rewrite Hb, drop_all_items.
  intros [= <-]. eapply (hub_change r _ ss log i _ _ k); [exact Hok|exact Hi|..]; cbn; try done.
  - split_and!; [done..|]. cbn. rewrite lookup_insert_eq. split_and!; [by eexists|by do 2 eexists|].
    by exists q, true, true.
  - intros k' Hne. by rewrite lookup_insert_ne.
Qed.

Lemma hub_step_ok h h' :
  hub_step h h' -> (N.of_nat (length (h_sessions h')) < 2 ^ 64)%N -> hub_ok h -> hub_ok h'.
Proof.
  intros Hstep Hlen Hok. destruct Hstep; cbn in Hlen.
  - eapply take_ok; [done| |done]. rewrite length_app, Nat.add_1_r in Hlen. done.
  - by eapply enter_ok.
  - by eapply post_ok.
  - by eapply forward_ok.
  - by eapply receive_ok.
  - by eapply leave_ok.
Qed.

Lemma hub_step_sessions h h' : hub_step h h' -> length (h_sessions h) <= length (h_sessions h').
Proof. intros []; cbn; rewrite ?length_insert, ?length_app; lia. Qed.

Lemma new_hub_ok : hub_ok new_hub.
Proof. by split. Qed.

Lemma reachable_ok h :
  reachable h -> (N.of_nat (length (h_sessions h)) < 2 ^ 64)%N -> hub_ok h.
Proof.
  intros Hr. revert h Hr.
  refine (rtc_ind_r (fun h => (N.of_nat (length (h_sessions h)) < 2 ^ 64)%N -> hub_ok h) new_hub _ _);
    [intros _; apply new_hub_ok|]. intros h h' _ Hstep IH Hlen. eapply hub_step_ok; [done..|]. apply IH.
  apply hub_step_sessions in Hstep. lia.
Qed.

(** C8. What a user gets is, in every interleaving of the requests, the threads and the
    connections, a prefix of what it is meant to get: its own id, then every message that
    others posted since it joined, in the order in which they were posted, and once. *)
Theorem chat_in_order h i s :
  reachable h -> (N.of_nat (length (h_sessions h)) < 2 ^ 64)%N -> h_sessions h !! i = Some s ->
  exists later, s_got s ++ later = expected (s_user s) (drop (s_since s) (h_log h)).
Proof.
  intros Hr Hlen Hi. destruct (ok_sessions _ (reachable_ok h Hr Hlen) i s Hi) as (-> & _ & Hs).
  unfold phase_ok in Hs. destruct (s_phase s) as [t rx|k body|k].
  - destruct Hs as (_ & _ & -> & _). by eexists.
  - destruct Hs as (_ & _ & _ & q & items & _ & _ & <-). by eexists.
  - apply Hs.
Qed.

(** *** Nothing is lost *)

(** The next step of the thread or of the connection of a user to whom something is to be
    delivered *)
Lemma deliver_one r ss log i id k body got since q items :
  ss !! i = Some (Build_session id (Reading k body) got since) ->
  body = Build_Receiver k -> forwarders (r_chat r) !! k = Some (Some (forwards i k)) ->
  chans (r_events r) !! i = Some (Build_chan q true true) ->
  chans (r_bodies r) !! k = Some (Build_chan ((fun d => inl (Data d)) <$> items) true true) ->
  match items, q with
  | d :: _, _ => exists r', hub_step (Build_hub r ss log)
      (Build_hub r' (<[i := Build_session id (Reading k body) (got ++ [d]) since]> ss) log) /\
      r_chat r' = r_chat r /\ chans (r_events r') !! i = Some (Build_chan q true true) /\
      chans (r_bodies r') !! k = Some (Build_chan ((fun d => inl (Data d)) <$> tail items) true true)
  | [], e :: q => exists r', hub_step (Build_hub r ss log) (Build_hub r' ss log) /\
      r_chat r' = r_chat r /\ chans (r_events r') !! i = Some (Build_chan q true true) /\
      chans (r_bodies r') !! k = Some (Build_chan [inl (Data (format_event e))] true true)
  | [], [] => True
  end.
Proof.
  intros Hi -> Hk Hc Hb. destruct items as [|d items]; [destruct q as [|e q]; [done|]|].
  - eexists. split; [eapply step_forward, (forward_one k (forwards i k) r Hk); done|].
    cbn. by rewrite !lookup_insert_eq.
  - eexists. split; [eapply step_receive; [done|]; unfold recv, the_store; cbn; by rewrite Hb|].
    cbn. by rewrite lookup_insert_eq.
Qed.

Lemma delivers n r ss log i id k got since q items :
  ss !! i = Some (Build_session id (Reading k (Build_Receiver k)) got since) ->
  forwarders (r_chat r) !! k = Some (Some (forwards i k)) ->
  chans (r_events r) !! i = Some (Build_chan q true true) ->
  chans (r_bodies r) !! k = Some (Build_chan ((fun d => inl (Data d)) <$> items) true true) ->
  2 * length q + length items <= n ->
  exists r', rtc hub_step (Build_hub r ss log)
    (Build_hub r' (<[i := Build_session id (Reading k (Build_Receiver k))
                            (got ++ items ++ (format_event <$> q)) since]> ss) log).
Proof.
  revert r ss got q items. induction n as [n IH] using lt_wf_ind. intros r ss got q items Hi Hk Hc Hb Hn.
  pose proof (deliver_one r ss log i id k _ got since q items Hi eq_refl Hk Hc Hb) as Hd.
  destruct items as [|d items]; [destruct q as [|e q]|].
  - exists r. cbn. rewrite app_nil_r, list_insert_id by done. apply rtc_refl.
  - destruct Hd as (r1 & Hstep & Hr1 & Hc1 & Hb1). cbn in Hn.
    destruct (IH (n - 1) ltac:(lia) r1 ss got q [format_event e]) as (r' & Hr');
      [done|by rewrite Hr1|done|done|cbn; lia|].
    exists r'. eapply rtc_l; [exact Hstep|]. exact Hr'.
  - destruct Hd as (r1 & Hstep & Hr1 & Hc1 & Hb1). cbn in Hn.
    set (s1 := Build_session id (Reading k (Build_Receiver k)) (got ++ [d]) since) in Hstep.
    destruct (IH (n - 1) ltac:(lia) r1 (<[i := s1]> ss) (got ++ [d]) q items) as (r' & Hr');
      [apply list_lookup_insert_eq; by eapply lookup_lt_Some|by rewrite Hr1|done|done|cbn; lia|].
    rewrite list_insert_insert_eq, <-app_assoc in Hr'. exists r'. eapply rtc_l; [exact Hstep|].
    exact Hr'.
Qed.

(** C9. Nothing is lost, and nothing waits for more: from every state that the program
    reaches, a user that is still connected gets all that was posted for it by steps of its
    own thread and its own connection. *)
Theorem chat_delivers h i id k body got since :
  reachable h -> (N.of_nat (length (h_sessions h)) < 2 ^ 64)%N ->
  h_sessions h !! i = Some (Build_session id (Reading k body) got since) ->
  exists r', rtc hub_step h
    (Build_hub r' (<[i := Build_session id (Reading k body) (expected id (drop since (h_log h))) since]>
                     (h_sessions h)) (h_log h)).
Proof.
  intros Hr Hlen Hi. destruct h as [r ss log].
  destruct (ok_sessions _ (reachable_ok _ Hr Hlen) i _ Hi)
    as (Hid & _ & Hbody & _ & Hk & q & items & Hc & Hb & Hgot). cbn in *. subst id body.
  rewrite <-Hgot. by eapply delivers.
Qed.

(** *** Who is left *)

(** A post removes from the map the users whose threads have ended, and no others. *)
Theorem chat_removes_gone h user_id text entries :
  reachable h -> (N.of_nat (length (h_sessions h)) < 2 ^ 64)%N ->
  entries ≡ₚ map_to_list (users (r_chat (h_room h))) ->
  exists r', publish (E := boxed_error) (fun id => (user_id =? id)%N) (Message user_id text) entries (h_room h) =
      Ok tt r' /\
    forall i s, h_sessions h !! i = Some s -> s_user s <> user_id ->
      (is_Some (users (r_chat r') !! s_user s) <->
       is_Some (users (r_chat (h_room h)) !! s_user s) /\
       forall k, thread_of s = Some k -> forwarders (r_chat (h_room h)) !! k <> Some None).
Proof.
  intros Hr Hlen Hp. pose proof (reachable_ok _ Hr Hlen) as Hok. destruct h as [r ss log]. cbn in *.
  destruct (publish_spec (fun id => (user_id =? id)%N) (Message user_id text) boxed_error entries r Hp
    (users_distinct _ Hok)) as (us & events & -> & _ & -> & _). eexists. split; [done|].
  intros i s Hi Hne. destruct (ok_sessions _ Hok _ _ Hi) as (Hid & _ & Hs). cbn in *. rewrite Hid in *.
  assert (Hstays : forall t, users (r_chat r) !! id_of i = Some t ->
    (stays (fun id => (user_id =? id)%N) (chans (r_events r)) (id_of i, t) <->
     forall k, thread_of s = Some k -> forwarders (r_chat r) !! k <> Some None)).
  { intros t Hu. destruct (ok_users _ Hok _ _ Hu) as (j & _ & <-%id_of_inj & ->).
    unfold stays. cbn. rewrite (proj2 (N.eqb_neq user_id (id_of i))) by congruence. cbn.
    unfold phase_ok, thread_of in *. destruct (s_phase s) as [t rx|k body|k].
    - destruct Hs as (_ & _ & _ & _ & Hno). by rewrite Hno in Hu.
    - destruct Hs as (_ & _ & Hk & q & items & -> & _). cbn. split; [|done].
      intros _ k' [= <-]. by rewrite Hk.
    - destruct Hs as (_ & _ & q & a & l & -> & Hk). cbn. split.
      + intros Hl k' [= <-]. rewrite Hk. by destruct l.
      + intros Hno. specialize (Hno k eq_refl). rewrite Hk in Hno. by destruct l. }
  split.
  - intros [t [Hu Hst]%map_lookup_filter_Some]. split; [by eexists|]. by apply (Hstays t Hu).
  - intros [[t Hu] Hk]. exists t. apply map_lookup_filter_Some. split; [done|]. by apply (Hstays t Hu).
Qed.
End hub.
