(* ===== verification/Client.v ===== *)
(** * Client: src/src/client.rs

    [send_request] performs one exchange on a connection; [Client] keeps the
    connections that may be used again, by authority. *)
From stdpp Require Import base list gmap strings.
From Stdlib Require Import Strings.Byte NArith Lia.
From S2P Require Import Prelude Errors StdIo Buffered HttpApi Mpsc HttpBody Body Message.
From S2P Require Import Request Response Upgrade Tls Connection.

(** [StatusCode::SWITCHING_PROTOCOLS] *)
Definition STATUS_SWITCHING_PROTOCOLS : N := 101%N.

(** [enum RequestError] *)
Inductive RequestError :=
| InvalidUri
| UnsupportedScheme
| ReqUnsupportedHttpVersion (version : N)
| RequestIo (err : io_error)
| InvalidRequest (err : RequestError).

(** [enum ConnectionOutcome] *)
Inductive ConnectionOutcome (C : Type) :=
| ConnClose
| ConnKeepAlive (conn : C)
| ConnUpgrade (conn : C).
Arguments ConnClose {C}.
Arguments ConnKeepAlive {C} conn.
Arguments ConnUpgrade {C} conn.

Definition closed {C} (self : ConnectionOutcome C) : bool :=
  match self with ConnClose => true | _ => false end.

(** [ConnectionOutcome::unwrap] *)
Definition outcome_unwrap {W C E} (self : ConnectionOutcome C) : ST W E C :=
  match self with
  | ConnClose => panic
  | ConnKeepAlive conn | ConnUpgrade conn => ret conn
  end.

(** [ConnectionOutcome::into_inner] *)
Definition outcome_into_inner {C} (self : ConnectionOutcome C) : C + ConnectionOutcome C :=
  match self with
  | ConnKeepAlive conn | ConnUpgrade conn => inl conn
  | ConnClose => inr self
  end.

(** The body of a response on a connection *)
Abbreviation ResponseBody C := (Body (ChunkedReader (BufReader C)) (BufReader C)).

Section client.
Context `{!HttpApi} `{!Fuel} {W C U : Type} `{!Conn W C}.

Abbreviation ClientResponse := (Response U C (ResponseBody C)).

(** The choice of the outcome, before the stream is taken out of the writer. *)
Inductive persistence := Closes | Persists | Switches.
Definition response_persistence (headers : HeaderMap) (status : N) : persistence :=
  if connection_has "close" headers then Closes
  else if (status =? STATUS_SWITCHING_PROTOCOLS)%N then Switches
  else Persists.

(** Working on the [BufWriter] next to the [BufReader] that is still owned: when
    [?] leaves, the writer is dropped, then the reader. *)
Definition write_to {T} (m : ST (BufWriter C * W) io_error T) (writer : BufWriter C)
    (reader : BufReader C) : ST W io_error (T * BufWriter C) :=
  cleanup (drop_value reader) (borrow m writer).

Definition send_request {B} `{!HttpBody W B} (conn : C) (req : Request B)
  : ST W io_error (ConnectionOutcome C * ClientResponse) :=
  let! reader_conn := clone conn in
  let reader := BufReader_new reader_conn in
  let writer := BufWriter_new conn in
  let! (_, writer) := write_to (write_request req) writer reader in
  let! (_, writer) := write_to flush writer reader in
  let! res := cleanup (drop_value writer)
                (map_err (fun err => IoError Other (BoxedParse err)) (parse_response reader)) in
  let drop_response := drop_value (res_body res) in
  match response_persistence (res_headers res) (res_status res) with
  | Closes => drop_value writer;;; ret (ConnClose, res)
  | Switches =>
      let! conn := cleanup drop_response (into_inner writer) in
      ret (ConnUpgrade conn, res)
  | Persists =>
      let! conn := cleanup drop_response (into_inner writer) in
      ret (ConnKeepAlive conn, res)
  end.

(** [struct Client]: the map by what identifies an [Authority]. *)
Record Client := { connections : gmap bytes C }.

Definition Client_new : Client := {| connections := ∅ |}.

(** [HashMap::insert]: the value it replaces is dropped. *)
Definition pool_insert {E} (k : bytes) (conn : C) : ST (Client * W) E unit :=
  fun st =>
    let m := connections st.1 in
    zoom_r (match m !! k with Some old => drop_value old | None => ret tt end)
      ({| connections := <[k := conn]> m |}, st.2).

(** [format!("{host}:{port}")] *)
Definition socket_text (host : bytes) (port : N) : bytes := host ++ b ":" ++ dec port.

(** [self.connections.remove(&authority)], or [TcpStream::connect(..)?.into()] *)
Definition take_connection (connect : bytes -> ST W io_error C) (authority : Authority)
  : ST (Client * W) io_error C :=
  let host := authority_host authority in
  let port := default 80%N (authority_port_u16 authority) in
  let! st := get_state in
  let m := connections st.1 in
  match m !! authority_key authority with
  | Some conn =>
      zoom_l (put_state {| connections := delete (authority_key authority) m |});;;
      ret conn
  | None => zoom_r (connect (socket_text host port))
  end.

(** [req.headers_mut().insert(HOST, host.as_str().try_into().unwrap())] *)
Definition set_host {B S E} (host : bytes) (req : Request B) : ST S E (Request B) :=
  if header_value_ok host
  then ret (Build_Request (req_method req) (req_uri req) (req_version req)
              (hm_insert (b "host") host (req_headers req)) (req_body req))
  else panic.

(** [Client::request] *)
Definition client_request {B} `{!HttpBody W B} (connect : bytes -> ST W io_error C)
    (req : Request B) : ST (Client * W) RequestError ClientResponse :=
  match uri_authority (req_uri req) with
  | None => zoom_r (drop_value (req_body req));;; fail InvalidUri
  | Some authority =>
      let host := authority_host authority in
      let! conn :=
        map_err RequestIo
          (cleanup (zoom_r (drop_value (req_body req))) (take_connection connect authority)) in
      let! req := set_host host req in
      let! (outcome, res) := map_err RequestIo (zoom_r (send_request conn req)) in
      match outcome with
      | ConnClose => ret res
      | ConnUpgrade conn =>
          ret (Build_Response (res_status res) (res_version res) (res_headers res)
                 (Build_Extensions (ext_upgrade (res_extensions res)) (Some conn))
                 (res_body res))
      | ConnKeepAlive conn =>
          pool_insert (authority_key authority) conn;;;
          ret res
      end
  end.
End client.
