(* ===== verification/ClientLaws.v ===== *)
(** * ClientLaws: requests on the wire and the client's connections

    What [write_request] puts on the stream and announces, what one exchange on a
    connection writes and returns, and which connections the pool of a [Client]
    holds afterwards. *)
From stdpp Require Import base list gmap strings.
From Stdlib Require Import Strings.Byte NArith Lia.
From S2P Require Import Prelude Errors StdIo Buffered HttpApi Mpsc ReadQueue QueueLaws.
From S2P Require Import HttpBody Body BodyLaws Message MessageLaws ChunkedLaws Request.
From S2P Require Import RequestLaws Response ResponseLaws Upgrade Tls Connection ConnLaws.
From S2P Require Import Server Reference IncomingLaws ServiceLaws ServerLaws Client.

(** ** [write_request] *)
Section write_request_laws.
Context `{!HttpApi} `{!Fuel} {W S B : Type} `{!World W} `{!Write W S} `{!WriteLaws W S}
  `{!HttpBody W B} `{!HttpBodyLaws W B}.
Implicit Types (req : Request B) (s : S) (w : W).

(** The head that [write_request] sends with the encoding it chose, or its error. *)
Definition request_framing (req : Request B) : (Encoding * HeaderMap * bytes) + io_error :=
  match request_encoding (req_method req) (req_version req) (req_headers req)
                         (len (W := W) (req_body req)),
        version_text (req_version req) with
  | inr e, _ => inr e
  | inl _, None => inr unsupported_version
  | inl (encoding, headers), Some version =>
      inl (encoding, headers,
           message_head (request_line (req_method req) (req_uri req) version) (hm_iter headers))
  end.

Lemma write_request_refused req s w e :
  droppable (req_body req) w -> request_framing req = inr e ->
  wp (write_request req) (fun _ _ => False)
     (fun e' '(s', w') => e' = e /\ s' = s /\ rstep w w') (s, w).
Proof.
  intros Hd He. unfold request_framing, write_request in *.
  assert (Hdrop : wp (zoom_r (drop_value (req_body req));;; fail e) (fun (_ : unit) _ => False)
    (fun e' '(s', w') => e' = e /\ s' = s /\ rstep w w') (s, w)).
  { wp_steps. eapply wp_never_mono; [apply (Hd io_error w); reflexivity|].
    intros [] w' Hw'. by apply wp_fail. }
  destruct (request_encoding _ _ _ _) as [[enc h]|e']; [|by simplify_eq].
  destruct (version_text _); [done|by simplify_eq].
Qed.

Lemma write_request_on req s w encoding headers head (O : bytes -> Prop) :
  request_framing req = inl (encoding, headers, head) ->
  droppable (req_body req) w -> sends encoding (req_body req) w O ->
  wp (write_request req)
     (fun _ '(s', w') => exists out, O out /\ appended iostep s w (head ++ out) s' w')
     (fun _ '(s', w') => exists out, O out /\ cut_short iostep s w (head ++ out) s' w') (s, w).
Proof.
  intros Hf Hd Hs. unfold request_framing, write_request in *.
  destruct (request_encoding _ _ _ _) as [[enc h]|e']; [|done].
  destruct (version_text _) as [version|]; [|done]. injection Hf as -> -> <-.
  eapply wp_mono.
  { apply (write_message_spec _ _ _ _ s w O (fun _ _ _ => True) (fun _ => True)).
    - by apply droppable_with.
    - by eapply sends_inhabited.
    - intros s1 w1 Hw1.
      eapply wp_mono; [apply (write_body_spec encoding (req_body req) s1 w1 O)| |].
      + by eapply sends_wstep.
      + intros [] [s2 w2] Ha. by split.
      + by intros e [s2 w2] Hc. }
  - by intros [] [s' w'] [? _].
  - by intros e [s' w'] [? _].
Qed.

(** The headers announce the encoding. *)
Lemma request_framing_announced `{!HttpApiLaws} req encoding headers head :
  req_version req = HTTP_11 -> plain_framing (req_headers req) ->
  (forall n, len (W := W) (req_body req) = Some n -> (n < 2 ^ 64)%N) ->
  request_framing req = inl (encoding, headers, head) ->
  announced encoding headers /\ encoding <> CloseDelimited.
Proof.
  intros Hv [Hte Hcl] Hlen. unfold request_framing, request_encoding. rewrite Hv. cbv zeta.
  rewrite bool_decide_true by done. cbn [version_text]. rewrite !andb_true_r.
  destruct (has_chunked (req_headers req)) eqn:Hc.
  { intros [= <- <- _]. by split. }
  destruct Hte as [Hte|Hte]; [|done].
  destruct (cl_get (req_headers req)) as [n|] eqn:Hcg,
    (len (req_body req)) as [m|] eqn:Hm.
  - destruct (N.eqb_spec n m); [|done]. intros [= <- <- _]. split; [|done]. split; [done|].
    by rewrite Hcl.
  - intros [= <- <- _]. split; [|done]. split; [done|]. by rewrite Hcl.
  - intros [= <- <- _]. split; [|done]. destruct (cl_insert_others m (req_headers req)) as [Hti _].
    split; [by rewrite Hti|]. by apply cl_insert_get, Hlen.
  - destruct (_ && _); [|done]. intros [= <- <- _]. split; [|done]. apply has_chunked_insert.
Qed.
End write_request_laws.

(** [write_request] keeps what the methods of its stream keep. *)
Lemma write_request_keeps `{!HttpApi} `{!Fuel} {W S B : Type} `{!Write W S}
    `{!HttpBody W B} (P : S -> Prop) (req : Request B) :
  (forall bs, preserves (fun st => P st.1) (write_all (W := W) (S := S) bs)) ->
  preserves (fun st => P st.1) (flush (W := W) (S := S)) ->
  preserves (fun st => P st.1) (write_request (W := W) req).
Proof.
  intros Hw Hf. unfold write_request.
  assert (Hdrop : forall e, preserves (fun st : S * W => P st.1)
    (zoom_r (drop_value (req_body req));;; fail (E := io_error) (A := unit) e)).
  { intros e. apply preserves_bind; [apply preserves_zoom_r|]. intros _. apply preserves_fail. }
  destruct (request_encoding _ _ _ _) as [[enc h]|e]; [|apply Hdrop].
  destruct (version_text _); [|apply Hdrop].
  apply preserves_bind; [|intros _; by apply write_body_keeps].
  apply preserves_cleanup; [apply preserves_zoom_r|].
  apply preserves_bind; [done|]. intros _.
  apply preserves_bind; [by apply write_headers_keeps|done].
Qed.

(** ** One exchange *)
Section exchange.
Context `{!HttpApi} `{!HttpApiLaws} `{!Fuel} {W C U B : Type} `{!World W} `{!Conn W C}
  `{!ConnLaws W C}.
Context `{!HttpBody W B} `{!HttpBodyLaws W B (HW := still_world W)}.
Implicit Types (bw : BufWriter C) (w : W) (req : Request B).

Lemma request_written req bw w encoding headers head text :
  request_framing (W := W) req = inl (encoding, headers, head) ->
  deliverable (req_body req) w text ->
  wp (write_request req)
     (fun _ '(bw', w') => adds wstep bw w (head ++ text encoding) bw' w')
     (fun _ '(bw', w') => adds_part wstep bw w (head ++ text encoding) bw' w') (bw, w).
Proof.
  intros Hf [Hd Hs].
  pose proof (write_request_on (World0 := still_world W) (WriteLaws0 := still_writer)
    req bw w encoding headers head (eq (text encoding)) Hf Hd (Hs encoding)) as Hwp.
  eapply wp_mono; [eapply wp_preserves|..].
  - apply (write_request_keeps (fun bw' => bw_inner bw' = bw_inner bw) req).
    + intros bs. apply (write_all_keeps bs (bw_inner bw)).
    + apply (flush_keeps (bw_inner bw)).
  - done.
  - exact Hwp.
  - intros [] [bw' w'] (Hi & out' & <- & Hio & Hw). split_and!; [by apply still_io|done|done].
  - intros e [bw' w'] (Hi & out' & <- & Hc & Hio & p & Hp & Hw). split; [done|].
    exists p. split_and!; [done|]. split_and!; [by apply still_io|done|done].
Qed.

Lemma flushed_empty bw w :
  wp flush (fun _ '(bw', w') => adds wstep bw w [] bw' w' /\ bw_buf bw' = [])
     (fun _ '(bw', w') => adds_part wstep bw w [] bw' w') (bw, w).
Proof.
  eapply wp_mono; [eapply wp_preserves; [apply (flush_keeps (bw_inner bw))|done|]|..].
  - apply (flush_spec (WriteLaws := still_writer)).
  - intros [] [bw' w'] (Hi & Hw & Hwr & Hsent). split.
    + split_and!; [done|done|]. by rewrite app_nil_r.
    + cbn in Hsent. unfold buf_written in Hsent.
      rewrite <-(app_nil_r (accepted _ _)) in Hsent at 1. by apply app_inv_head in Hsent.
  - intros e [bw' w'] (Hi & Hc & Hw & Hwr). split; [done|]. exists []. split; [done|].
    split_and!; [done|done|]. by rewrite app_nil_r.
Qed.

(** A part of [out] reached the connection, which failed, or all of it. *)
Definition sent_part (conn : C) w (out : bytes) w' : Prop :=
  raw_can_fail W C /\ accepted conn w' `prefix_of` accepted conn w ++ out.

Lemma drop_both_spec E (reader : BufReader C) bw w :
  wp (drop_value (E := E) bw;;; drop_value reader)
     (fun _ w' => drained (bw_inner bw) (buf_written bw w) w') never w.
Proof.
  wp_step. eapply wp_never_mono; [apply writer_drop_spec|].
  intros [] w1 (w0 & _ & _ & _ & Hd). eapply wp_never_mono; [apply (conn_drop_any E (br_inner reader))|].
  intros [] w2 Hw2. by eapply drained_rstep.
Qed.

(** A failed step of writing: both ends are dropped. *)
Lemma write_to_spec {T} (m : ST (BufWriter C * W) io_error T) bw reader w out
    (Q : T -> BufWriter C -> W -> Prop) :
  wp m (fun a '(bw', w') => Q a bw' w') (fun _ '(bw', w') => adds_part wstep bw w out bw' w') (bw, w) ->
  wp (write_to m bw reader)
     (fun '(a, bw') w' => Q a bw' w')
     (fun _ w' => raw_can_fail W C /\
        accepted (bw_inner bw) w' `prefix_of` buf_written bw w ++ out) w.
Proof.
  intros Hm. unfold write_to. wp_steps. eapply wp_mono; [exact Hm|by intros a [bw' w']|].
  intros e [bw' w1] (Hc & p & Hp & _ & Hi & Ho). cbn [fst snd].
  pose proof (drop_both_spec io_error reader bw' w1) as Hd. apply wp_bind_inv in Hd.
  eapply wp_never_mono; [exact Hd|]. intros [] w2 Hw2. cbn beta.
  eapply wp_never_mono; [exact Hw2|]. intros [] w3 [Hdr _]. rewrite Hi, Ho in Hdr.
  split; [done|]. etrans; [exact Hdr|]. by apply prefix_app.
Qed.

(** The exchange took place: [out] was written, and the response is the one in front
    of [bs]; the connection comes back unless the response closes it. *)
Definition exchanged (conn : C) w (out bs : bytes) (fin : option io_error)
    (outcome : ConnectionOutcome C) (res : Response U C (ResponseBody C)) w' : Prop :=
  accepted conn w' = accepted conn w ++ out /\
  match response_persistence (res_headers res) (res_status res) with
  | Closes =>
      outcome = ConnClose /\ exists w1,
        response_taken (R := BufReader C) bs fin res w1 /\
        drop_value (E := io_error) conn w1 = Ok tt w'
  | Switches => outcome = ConnUpgrade conn /\ response_taken (R := BufReader C) bs fin res w'
  | Persists => outcome = ConnKeepAlive conn /\ response_taken (R := BufReader C) bs fin res w'
  end.

(** It failed: the connection did, or the response cannot be parsed. *)
Definition exchange_failed (conn : C) w (out bs : bytes) (fin : option io_error)
    (e : io_error) w' : Prop :=
  sent_part conn w out w' \/
  accepted conn w' = accepted conn w ++ out /\ exists err w1,
    e = IoError Other (BoxedParse err) /\ response_refused (R := BufReader C) bs fin err w1.

Lemma into_inner_empty bw w : bw_buf bw = [] -> into_inner bw w = Ok (bw_inner bw) w.
Proof. intros Hb. unfold into_inner, flush_buf. by rewrite Hb. Qed.

Lemma writer_drop_empty E bw w :
  bw_buf bw = [] -> drop_value (E := E) bw w = drop_value (E := E) (bw_inner bw) w.
Proof. intros Hb. unfold drop_value, BufWriter_drop, flush_buf. by rewrite Hb. Qed.

(** Dropping a writer without unwritten bytes only drops the connection. *)
Lemma drop_empty_spec E bw w :
  bw_buf bw = [] ->
  wp (drop_value (E := E) bw)
     (fun _ w' => drop_value (E := E) (bw_inner bw) w = Ok tt w' /\
        accepted (bw_inner bw) w' = accepted (bw_inner bw) w) never w.
Proof.
  intros Hb. pose proof (conn_drop_any E (bw_inner bw) w) as Hd. unfold wp in *.
  rewrite writer_drop_empty by done.
  destruct (drop_value (bw_inner bw) w) as [[] w'|e w'| | |]; try done.
  split; [done|]. by apply accepted_rstep.
Qed.

Lemma send_request_on (conn : C) req w bs fin encoding headers head text :
  holds conn w bs fin -> length bs < fuel ->
  request_framing (W := W) req = inl (encoding, headers, head) ->
  (forall w', rstep w w' -> deliverable (req_body req) w' text) ->
  wp (send_request conn req)
     (fun '(outcome, res) w' => exchanged conn w (head ++ text encoding) bs fin outcome res w')
     (fun e w' => exchange_failed conn w (head ++ text encoding) bs fin e w') w.
Proof.
  intros Hc Hf Hfr Hdel. unfold send_request. wp_step.
  eapply wp_never_mono; [by apply (conn_clone io_error conn w bs fin)|].
  intros conn' w1 [Hw1 Hc1]. set (out := head ++ text encoding).
  assert (Hnew : forall out, buf_written (BufWriter_new conn) w1 ++ out = accepted conn w ++ out).
  { intros out'. unfold buf_written. cbn. by rewrite app_nil_r, (accepted_rstep _ w w1). }
  wp_step. eapply wp_mono.
  { apply (write_to_spec _ (BufWriter_new conn) _ w1 out
      (fun _ bw' w' => adds wstep (BufWriter_new conn) w1 out bw' w')). by eapply request_written, Hdel. }
  2: { intros e w' [Hcf Hp]. left. split; [done|]. by rewrite Hnew in Hp. }
  intros [[] bw2] w2 Ha2. wp_step. eapply wp_mono.
  { apply (write_to_spec _ bw2 _ w2 []
      (fun _ bw' w' => adds wstep bw2 w2 [] bw' w' /\ bw_buf bw' = [])). apply flushed_empty. }
  2: { intros e w' [Hcf Hp]. left. split; [done|]. destruct Ha2 as (_ & Hi2 & Ho2).
       rewrite Ho2, Hnew, app_nil_r in Hp. by rewrite Hi2 in Hp. }
  intros [[] bw3] w3 [Ha3 Hempty].
  pose proof (adds_trans wstep _ _ _ _ _ _ _ _ Ha2 Ha3) as (Hw3 & Hi3 & Ho3).
  rewrite app_nil_r, Hnew in Ho3. cbn in Hi3. unfold buf_written in Ho3.
  rewrite Hempty, app_nil_r, Hi3 in Ho3.
  assert (Hr3 : holds (BufReader_new conn') w3 bs fin).
  { apply buf_holds_new. by apply (holds_wstep conn' w1 w3). }
  wp_step. wp_step. wp_step. eapply wp_mono; [apply (parse_response_on (BufRead0 := BufReader_bufread)
    (BufReadLaws0 := BufReader_bufread_laws) (BufReader_new conn') w3 bs fin);
    [exact Hr3|done]| |].
  2: { intros err w4 [Hw4 Hrf]. eapply wp_never_mono; [by apply drop_empty_spec|].
       intros [] w5 [_ Hacc]. right. rewrite Hi3, (accepted_rstep _ w3 w4), Ho3 in Hacc by done.
       split; [done|]. by exists err, w4. }
  intros res w4 [Hw4 Htaken].
  assert (Hacc : accepted conn w4 = accepted conn w ++ out).
  { by rewrite (accepted_rstep _ w3 w4). }
  destruct (response_persistence (res_headers res) (res_status res)) eqn:Hp.
  - wp_step. eapply wp_never_mono; [by apply drop_empty_spec|].
    intros [] w5 [Hdr Hacc5]. rewrite Hi3 in Hdr, Hacc5. apply wp_ret.
    split; [by rewrite Hacc5|]. rewrite Hp. split; [done|]. by exists w4.
  - wp_step. wp_step. eapply wp_ok_intro; [by apply into_inner_empty|]. apply wp_ret.
    split; [done|]. rewrite Hp, Hi3. done.
  - wp_step. wp_step. eapply wp_ok_intro; [by apply into_inner_empty|]. apply wp_ret.
    split; [done|]. rewrite Hp, Hi3. done.
Qed.

(** ** The pool *)
Definition with_host (host : bytes) (req : Request B) : Request B :=
  Build_Request (req_method req) (req_uri req) (req_version req)
    (hm_insert (b "host") host (req_headers req)) (req_body req).

(** A connection on which the request can be sent, with the response to come. *)
Definition can_exchange (req : Request B) (out bs : bytes) (fin : option io_error)
    (conn : C) w : Prop :=
  holds conn w bs fin /\ length bs < fuel /\
  exists encoding headers head text,
    request_framing (W := W) req = inl (encoding, headers, head) /\
    out = head ++ text encoding /\
    forall w', rstep w w' -> deliverable (req_body req) w' text.

(** The pool after an exchange on [conn]. *)
Definition pool_after (key : bytes) (conn : C) (res : Response U C (ResponseBody C))
    (pool : gmap bytes C) : gmap bytes C :=
  match response_persistence (res_headers res) (res_status res) with
  | Persists => <[key := conn]> pool
  | Closes | Switches => pool
  end.

(** The request was answered with the response in front of [bs]. *)
Definition answered (conn : C) (bs : bytes) (fin : option io_error)
    (res : Response U C (ResponseBody C)) : Prop :=
  exists res' w1, response_taken (R := BufReader C) (U := U) (C := C) bs fin res' w1 /\
    res_status res = res_status res' /\ res_headers res = res_headers res' /\
    res_body res = res_body res' /\
    ext_connection (res_extensions res) =
      match response_persistence (res_headers res') (res_status res') with
      | Switches => Some conn
      | _ => ext_connection (res_extensions res')
      end.

Lemma client_request_on (connect : bytes -> ST W io_error C) (authority : Authority) req (cl : Client (C := C)) w (out bs : bytes)
    (fin : option io_error) (pool : gmap bytes C) (P : C -> W -> Prop) (X : io_error -> Client * W -> Prop) :
  uri_authority (req_uri req) = Some authority ->
  header_value_ok (authority_host authority) = true ->
  wp (cleanup (zoom_r (drop_value (req_body req))) (take_connection connect authority))
     (fun conn '(cl', w') => connections cl' = pool /\ P conn w' /\
        can_exchange (with_host (authority_host authority) req) out bs fin conn w')
     X (cl, w) ->
  pool !! authority_key authority = None ->
  wp (client_request (U := U) connect req)
     (fun res '(cl', w') => exists conn w0, P conn w0 /\ answered conn bs fin res /\
        connections cl' = pool_after (authority_key authority) conn res pool /\
        accepted conn w' = accepted conn w0 ++ out)
     (fun e '(cl', w') =>
        (exists e', e = RequestIo e' /\ X e' (cl', w')) \/
        connections cl' = pool /\ exists e' conn w0,
          e = RequestIo e' /\ P conn w0 /\ exchange_failed conn w0 out bs fin e' w') (cl, w).
Proof.
  intros Hau Hhost Htake Hpool. unfold client_request. rewrite Hau. wp_step. wp_step.
  eapply wp_mono; [exact Htake| |].
  2: { intros e [cl' w'] HX. left. eauto. }
  intros conn [cl1 w1] (Hcl & HP & Hc & Hf & enc & h & head & text & Hfr & -> & Hdel).
  unfold set_host. rewrite Hhost. wp_step. apply wp_ret.
  fold (with_host (authority_host authority) req). wp_step. wp_step. wp_step.
  eapply wp_mono; [by eapply send_request_on| |].
  2: { intros e w' He. right. split; [done|]. by exists e, conn, w1. }
  intros [outcome res] w' [Hacc Hex]. unfold pool_after.
  destruct (response_persistence (res_headers res) (res_status res)) eqn:Hp.
  - destruct Hex as (-> & w2 & Ht & _). apply wp_ret. exists conn, w1. rewrite Hp.
    split_and!; [done| |done|done]. exists res, w2. by rewrite Hp.
  - destruct Hex as (-> & Ht). wp_step. unfold pool_insert, wp at 1. cbn [fst snd].
    rewrite Hcl, Hpool. unfold zoom_r. cbn.
    apply wp_ret. exists conn, w1. rewrite Hp. split_and!; [done| |done|done].
    exists res, w'. by rewrite Hp.
  - destruct Hex as (-> & Ht). apply wp_ret. exists conn, w1. cbn. rewrite Hp.
    split_and!; [done| |done|done]. exists res, w'. cbn. by rewrite Hp.
Qed.
End exchange.

(** ** Properties *)
Section write_properties.
Context `{!HttpApi} `{!HttpApiLaws} `{!Fuel} {W S B : Type} `{!World W} `{!Write W S}
  `{!WriteLaws W S} `{!HttpBody W B} `{!HttpBodyLaws W B}.
Implicit Types (req : Request B) (s : S) (w : W).

(** [write_request] hands exactly the request line, the headers with the framing
    they need, an empty line and the encoded body to the stream, in this order; it
    only fails when the stream does, and then what it was handed is a prefix of
    this. *)
Theorem write_request_output req s w encoding headers head (O : bytes -> Prop) :
  request_framing (W := W) req = inl (encoding, headers, head) ->
  droppable (req_body req) w -> sends encoding (req_body req) w O ->
  wp (write_request req)
     (fun _ '(s', w') => exists out, O out /\ written s' w' = written s w ++ head ++ out)
     (fun _ '(s', w') => can_fail W S /\ exists out p, O out /\
        written s' w' = written s w ++ p /\ p `prefix_of` head ++ out) (s, w).
Proof.
  intros Hf Hd Hs. eapply wp_mono; [by eapply write_request_on| |].
  - intros [] [s' w'] (out & HO & _ & Hw). by exists out.
  - intros e [s' w'] (out & HO & Hcf & _ & p & Hp & Hw). split; [done|]. by exists out, p.
Qed.

(** For HTTP/1.1 the headers of a request announce the encoding of its body:
    [transfer-encoding: chunked] for chunks, [content-length] alone otherwise; a
    request whose body the server could not delimit is refused. *)
Theorem request_framing_sound req encoding headers head :
  req_version req = HTTP_11 -> plain_framing (req_headers req) ->
  (forall n, len (W := W) (req_body req) = Some n -> (n < 2 ^ 64)%N) ->
  request_framing (W := W) req = inl (encoding, headers, head) ->
  announced encoding headers /\ encoding <> CloseDelimited.
Proof. apply request_framing_announced. Qed.

(** An HTTP/1.0 request that carries [transfer-encoding: chunked] and a body of
    known length is sent with that length, but the header stays: [parse_request]
    takes the body for chunks. *)
Theorem http10_request_keeps_chunked req n :
  req_version req = HTTP_10 -> has_chunked (req_headers req) = true ->
  cl_get (req_headers req) = None -> len (W := W) (req_body req) = Some n ->
  exists headers head,
    request_framing (W := W) req = inl (FixedLength n, headers, head) /\
    request_plan headers = inl PlanChunked.
Proof.
  intros Hv Hc Hcg Hm. unfold request_framing, request_encoding. cbv zeta.
  rewrite Hv, Hcg, Hm. rewrite bool_decide_false, andb_false_r by done. cbn [version_text].
  eexists _, _. split; [done|]. unfold request_plan.
  destruct (cl_insert_others n (req_headers req)) as [-> _]. rewrite has_chunked_try in Hc.
  destruct (te_try_get (req_headers req)) as [[te|]|]; try done. by rewrite Hc.
Qed.
End write_properties.

Section client_properties.
Context `{!HttpApi} `{!HttpApiLaws} `{!Fuel} {W C U B : Type} `{!World W} `{!Conn W C}
  `{!ConnLaws W C}.
Context `{!HttpBody W B} `{!HttpBodyLaws W B (HW := still_world W)}.
Implicit Types (w : W) (req : Request B) (conn : C).

(** C25. [send_request] writes exactly the request, flushes it, and returns the
    response in front of the stream; the connection comes back for further use, or
    for an upgrade on 101, unless the response says [close]. It fails only when the
    connection fails or the response cannot be parsed. *)
Theorem send_request_exchange conn req w bs fin encoding headers head text :
  holds conn w bs fin -> length bs < fuel ->
  request_framing (W := W) req = inl (encoding, headers, head) ->
  (forall w', rstep w w' -> deliverable (req_body req) w' text) ->
  wp (send_request (U := U) conn req)
     (fun '(outcome, res) w' => exchanged conn w (head ++ text encoding) bs fin outcome res w')
     (fun e w' => exchange_failed conn w (head ++ text encoding) bs fin e w') w.
Proof. apply send_request_on. Qed.

(** C26. A request to an authority in the pool uses the pooled connection and opens
    none; afterwards the authority is in the pool again exactly when the response
    leaves the connection open, and the rest of the pool is as it was. *)
Theorem client_reuses connect (authority : Authority) req (cl : Client (C := C)) w conn out bs fin :
  uri_authority (req_uri req) = Some authority ->
  header_value_ok (authority_host authority) = true ->
  connections cl !! authority_key authority = Some conn ->
  can_exchange (with_host (authority_host authority) req) out bs fin conn w ->
  let pool := delete (authority_key authority) (connections cl) in
  wp (client_request (U := U) connect req)
     (fun res '(cl', w') => answered (W := W) conn bs fin res /\
        connections cl' = pool_after (authority_key authority) conn res pool /\
        accepted conn w' = accepted conn w ++ out)
     (fun e '(cl', w') => connections cl' = pool /\ exists e',
        e = RequestIo e' /\ exchange_failed conn w out bs fin e' w') (cl, w).
Proof.
  intros Hau Hhost Hin Hx pool. eapply wp_mono.
  { apply (client_request_on connect authority req cl w out bs fin pool
             (fun c w' => c = conn /\ w' = w) (fun _ _ => False)); [done|done| |].
    - unfold take_connection. wp_steps. cbn [fst]. rewrite Hin. wp_steps. by split_and!.
    - apply lookup_delete_eq. }
  - intros res [cl' w'] (c & w0 & [-> ->] & Ha & Hp & Hacc). done.
  - intros e [cl' w'] [(e' & _ & [])|(Hp & e' & c & w0 & -> & [-> ->] & He)].
    split; [done|]. by exists e'.
Qed.

(** C27. A request to an authority that is not in the pool connects to its host, on the
    port it names or on 80, and is exchanged on the connection that this gives, which
    [opened] stands for; an error of connecting is reported and changes nothing. *)
Theorem client_connects connect (authority : Authority) req (cl : Client (C := C)) w out bs fin
    (opened : C -> W -> Prop) (X : io_error -> W -> Prop) :
  uri_authority (req_uri req) = Some authority ->
  header_value_ok (authority_host authority) = true ->
  connections cl !! authority_key authority = None ->
  (forall w', wp (E := io_error) (drop_value (req_body req)) (fun _ w'' => w'' = w') never w') ->
  wp (connect (socket_text (authority_host authority)
                 (default 80%N (authority_port_u16 authority))))
     (fun conn w' => opened conn w' /\ can_exchange (with_host (authority_host authority) req) out bs fin conn w')
     X w ->
  wp (client_request (U := U) connect req)
     (fun res '(cl', w') => exists conn w0, opened conn w0 /\ answered (W := W) conn bs fin res /\
        connections cl' = pool_after (authority_key authority) conn res (connections cl) /\
        accepted conn w' = accepted conn w0 ++ out)
     (fun e '(cl', w') => connections cl' = connections cl /\ exists e', e = RequestIo e' /\
        (X e' w' \/ exists conn w0, opened conn w0 /\ exchange_failed conn w0 out bs fin e' w')) (cl, w).
Proof.
  intros Hau Hhost Hin Hdrop Hx. eapply wp_mono.
  { apply (client_request_on connect authority req cl w out bs fin (connections cl)
             (fun c w0 => opened c w0) (fun e st => connections st.1 = connections cl /\ X e st.2));
      [done|done| |done].
    unfold take_connection. wp_step. wp_steps. cbn [fst]. rewrite Hin. wp_step.
    eapply wp_mono; [exact Hx| |].
    - intros conn w' [Ho Hc]. by split_and!.
    - intros e w' HX. wp_steps. eapply wp_never_mono; [apply Hdrop|]. by intros [] w'' ->. }
  - intros res [cl' w'] (c & w0 & Ho & Ha & Hp & Hacc). by exists c, w0.
  - intros e [cl' w'] [(e' & -> & Hp & HX)|(Hp & e' & c & w0 & -> & Ho & He)].
    + split; [done|]. eauto.
    + split; [done|]. exists e'. split; [done|]. right. by exists c, w0.
Qed.
End client_properties.
