(* ===== verification/RoundTrip.v ===== *)
(** * RoundTrip: messages that are written are read back

    A response that [write_response] wrote is what [parse_response] makes of the same
    bytes, and likewise for requests: the head, the framing and the body together.
    [HttpHeadLaws] states what is documented of the printing and parsing of heads. *)
From stdpp Require Import base list gmap strings.
From Stdlib Require Import Strings.Byte NArith Lia.
From S2P Require Import Prelude Errors StdIo HttpApi Mpsc HttpBody Body BodyLaws Message.
From S2P Require Import MessageLaws ChunkedLaws Request RequestLaws Response ResponseLaws.
From S2P Require Import ConnLaws Server Reference IncomingLaws ServiceLaws ServerLaws Client.
From S2P Require Import ClientLaws.

(** ** Heads *)
Section heads.
Context `{!HttpApi}.

(** What the crate looks up is the same in both maps. *)
Definition same_headers (h h' : HeaderMap) : Prop :=
  te_try_get h' = te_try_get h /\ cl_try_get h' = cl_try_get h /\
  conn_get h' = conn_get h /\ expect_is_continue h' = expect_is_continue h /\
  hm_iter h' ≡ₚ hm_iter h.

(** One line of text *)
Definition plain_line (l : bytes) : Prop := LF ∉ l /\ l <> [].

(** Documented behaviour of http and httparse: heads made of the values their types
    admit are parsed into the same values. The headers fill the first slots of the
    parser, the others stay [EMPTY_HEADER]. *)
Class HttpHeadLaws := {
  (** names and values as [HeaderName] and [HeaderValue] admit them, without
      surrounding blanks, and not more of them than the parser has slots *)
  sendable : HeaderMap -> Prop;
  sendable_uri : Uri -> Prop;
  sendable_method : Method -> Prop;
  sendable_lines h : sendable h -> Forall (fun kv => plain_line (kv.1 ++ b ": " ++ kv.2)) (hm_iter h);
  sendable_slots h n : sendable h ->
    filled_headers (hm_iter h ++ replicate n ([], [])) = hm_iter h;
  sendable_fold h : sendable h ->
    exists h', fold_headers (hm_iter h) (Some hm_new) = Some h' /\ same_headers h h';
  version_shown version : version = HTTP_10 \/ version = HTTP_11 ->
    version_text version = Some (version_debug version);
  status_shown status : status_from_u16 status = Some status -> LF ∉ status_display status;
  method_shown method : sendable_method method ->
    LF ∉ method_display method /\ method_from_bytes (method_display method) = Some method;
  uri_shown uri : sendable_uri uri ->
    LF ∉ uri_display uri /\ uri_parse (uri_display uri) = Some uri;
  httparse_response_head n version status h :
    convert_version n = inl version -> status_from_u16 status = Some status -> sendable h ->
    exists slots, httparse_response (message_head (status_line version status) (hm_iter h)) =
      inl (Build_ParsedHead None None (Some n) (Some status)
             (hm_iter h ++ replicate slots ([], [])));
  httparse_request_head n version method uri h :
    convert_version n = inl version -> sendable_method method -> sendable_uri uri -> sendable h ->
    exists slots, httparse_request
        (message_head (request_line method uri (version_debug version)) (hm_iter h)) =
      inl (Build_ParsedHead (Some (method_display method)) (Some (uri_display uri)) (Some n) None
             (hm_iter h ++ replicate slots ([], [])));
}.

Lemma message_head_lines line hs :
  message_head (line ++ CRLF) hs = head_text (line :: ((fun kv => kv.1 ++ b ": " ++ kv.2) <$> hs)).
Proof.
  unfold message_head, head_text, headers_text. cbn [fmap list_fmap concat]. rewrite <-!app_assoc.
  f_equal. f_equal. induction hs as [|kv hs IH]; [done|]. cbn [fmap list_fmap concat].
  unfold header_line at 1. by rewrite <-!app_assoc, IH.
Qed.

Context `{!HttpHeadLaws} `{!Fuel}.

Lemma split_message_head line h rest fin :
  plain_line line -> sendable h ->
  length (message_head (line ++ CRLF) (hm_iter h) ++ rest) < fuel ->
  split_head fuel [] (message_head (line ++ CRLF) (hm_iter h) ++ rest) fin =
    inl (message_head (line ++ CRLF) (hm_iter h), rest).
Proof.
  intros Hl Hs Hf. rewrite message_head_lines in *. apply split_head_text; [| |by left].
  - eapply Nat.le_lt_trans; [|exact Hf]. rewrite length_app.
    etrans; [apply head_text_lines|]. lia.
  - constructor; [done|]. apply Forall_fmap. by apply sendable_lines.
Qed.

Lemma version_plain version :
  version = HTTP_10 \/ version = HTTP_11 -> LF ∉ version_debug version.
Proof.
  intros Hv. pose proof (version_shown version Hv) as Hs.
  destruct Hv as [->| ->]; injection Hs as <-; set_solver.
Qed.

Lemma status_line_text version status :
  status_line version status = (version_debug version ++ b " " ++ status_display status) ++ CRLF.
Proof. unfold status_line. by rewrite <-!app_assoc. Qed.

Lemma status_plain version status :
  version = HTTP_10 \/ version = HTTP_11 -> status_from_u16 status = Some status ->
  plain_line (version_debug version ++ b " " ++ status_display status).
Proof.
  intros Hv Hst. pose proof (version_plain version Hv). pose proof (status_shown status Hst).
  split; [set_solver|]. by destruct (version_debug version).
Qed.

Lemma request_line_text method uri version :
  request_line method uri version =
  (method_display method ++ b " " ++ uri_display uri ++ b " " ++ version) ++ CRLF.
Proof. unfold request_line. by rewrite <-!app_assoc. Qed.

Lemma request_plain version method uri :
  version = HTTP_10 \/ version = HTTP_11 -> sendable_method method -> sendable_uri uri ->
  plain_line (method_display method ++ b " " ++ uri_display uri ++ b " " ++ version_debug version).
Proof.
  intros Hv Hm Hu. pose proof (version_plain version Hv). destruct (method_shown method Hm) as [? _].
  destruct (uri_shown uri Hu) as [? _]. split; [set_solver|]. by destruct (method_display method).
Qed.

Lemma version_number version :
  version = HTTP_10 \/ version = HTTP_11 -> exists n, convert_version n = inl version.
Proof. intros [->| ->]; [by exists 0%N|by exists 1%N]. Qed.

Lemma response_head_written version status h :
  version = HTTP_10 \/ version = HTTP_11 -> status_from_u16 status = Some status -> sendable h ->
  exists h', response_head (message_head (status_line version status) (hm_iter h)) =
               inl (status, version, h') /\ same_headers h h'.
Proof.
  intros Hv Hst Hs. destruct (version_number version Hv) as [n Hn].
  destruct (httparse_response_head n version status h Hn Hst Hs) as [slots Hp].
  destruct (sendable_fold h Hs) as (h' & Hfold & Hsame). exists h'. split; [|done].
  unfold response_head. rewrite bool_decide_false.
  - rewrite Hp. cbn [hp_code hp_version hp_headers mbind option_bind].
    by rewrite Hst, Hn, sendable_slots, Hfold.
  - unfold message_head, status_line. destruct (version_debug version); [|done]. done.
Qed.

Lemma request_head_written version method uri h :
  version = HTTP_10 \/ version = HTTP_11 -> sendable_method method -> sendable_uri uri ->
  sendable h ->
  exists h', request_head (message_head (request_line method uri (version_debug version)) (hm_iter h)) =
               inl (method, uri, version, h') /\ same_headers h h'.
Proof.
  intros Hv Hm Hu Hs. destruct (version_number version Hv) as [n Hn].
  destruct (httparse_request_head n version method uri h Hn Hm Hu Hs) as [slots Hp].
  destruct (sendable_fold h Hs) as (h' & Hfold & Hsame). exists h'. split; [|done].
  unfold request_head. rewrite bool_decide_false.
  - rewrite Hp. cbn [hp_method hp_path hp_version hp_headers].
    destruct (method_shown method Hm) as [_ ->], (uri_shown uri Hu) as [_ ->].
    by rewrite Hn, sendable_slots, Hfold.
  - unfold message_head, request_line. by destruct (method_display method).
Qed.
End heads.

(** ** Bodies *)
Section bodies.
Context `{!HttpApi} `{!HttpApiLaws} `{!Fuel}.

Lemma announced_same encoding h h' :
  same_headers h h' -> announced encoding h -> announced encoding h'.
Proof.
  intros (Hte & Hcl & Hconn & _). destruct encoding as [n| |]; cbn.
  - by rewrite Hte, Hcl.
  - by rewrite !has_chunked_try, Hte.
  - rewrite Hte, Hcl. by rewrite (connection_has_get _ h' h).
Qed.

(** The plan a reader makes of the announcement. *)
Lemma announced_plan encoding h :
  announced encoding h ->
  response_plan h = inl match encoding with
                        | FixedLength n => if (n <? 1024)%N then PlanBuffered n else PlanStreamed n
                        | Chunked => PlanChunked
                        | CloseDelimited => PlanUntilClose
                        end.
Proof.
  unfold response_plan, request_plan. destruct encoding as [n| |]; cbn.
  - intros [-> ->]. by destruct (n <? 1024)%N.
  - rewrite has_chunked_try. destruct (te_try_get h) as [[te|]|]; [|done..]. by intros ->.
  - by intros (-> & -> & ->).
Qed.

Lemma request_plan_response h plan :
  response_plan h = inl plan -> plan <> PlanUntilClose -> request_plan h = inl plan.
Proof.
  unfold response_plan. destruct (request_plan h) as [[]|]; try done.
  by destruct (connection_has "close" h); intros [= <-].
Qed.

Context {W R : Type} `{!World W} `{!BufRead W R} `{!Drop W R} `{!BufReadLaws W R}.

(** The body that was planned delivers what was encoded. *)
Lemma planned_body_bytes encoding h bs out rest fin plan (body : Body (ChunkedReader R) R) (w : W) :
  announced encoding h -> response_plan h = inl plan -> encoded encoding bs out ->
  body_made plan body w (out ++ rest) fin -> length (out ++ rest) < fuel ->
  (N.of_nat (length bs) <= isize_max)%N ->
  (encoding = CloseDelimited -> rest = [] /\ fin = None) ->
  body_bytes_of body w bs.
Proof.
  intros Ha Hp He Hb Hf Hmax Hclose. rewrite (announced_plan _ _ Ha) in Hp.
  destruct encoding as [n| |]; cbn in He.
  - destruct He as [-> Hn]. rewrite length_app in Hf. destruct (n <? 1024)%N; injection Hp as <-.
    + destruct Hb as (_ & -> & _). cbn. rewrite take_app_le by lia. by rewrite take_ge by lia.
    + destruct Hb as (r & -> & Hr). eapply streamed_body_bytes; [exact Hr|lia|done|by subst n].
  - injection Hp as <-. destruct He as (items & Hi & Hl & -> & <-). destruct Hb as (r & -> & Hr).
    by eapply chunked_body_bytes.
  - injection Hp as <-. destruct (Hclose eq_refl) as [-> ->]. rewrite app_nil_r in *. subst out.
    destruct Hb as (r & -> & Hr). split_and!; [exact Hr|done|done].
Qed.

(** A short body is never cut off. *)
Lemma encoded_long encoding h bs out rest fin len e :
  announced encoding h -> response_plan h = inl (PlanBuffered len) -> encoded encoding bs out ->
  short_body (out ++ rest) fin len e -> False.
Proof.
  intros Ha Hp He [Hl _]. rewrite (announced_plan _ _ Ha) in Hp. rewrite length_app in Hl.
  destruct encoding as [n| |]; [|done..]. destruct (n <? 1024)%N; [|done].
  injection Hp as ->. destruct He as [-> Hn]. lia.
Qed.
End bodies.

(** ** Messages *)
Section reading.
Context `{!HttpApi} `{!HttpApiLaws} `{!HttpHeadLaws} `{!Fuel}.
Context {W R : Type} `{!World W} `{!BufRead W R} `{!Drop W R} `{!BufReadLaws W R}.
Implicit Types (r : R) (w : W).

(** Reading a message that stands at the front of a stream: its head and its body. *)
Definition response_with_bytes {U C} (r : R)
  : ST W ParseError (Response U C (Body (ChunkedReader R) R) * bytes) :=
  let! res := parse_response r in
  let! got := map_err Io (into_bytes (res_body res)) in
  ret (res, got).

Definition request_with_bytes (r : R)
  : ST W ParseError (Request (Body (ChunkedReader R) R) * bytes) :=
  let! req := parse_request r in
  let! got := map_err Io (into_bytes (req_body req)) in
  ret (req, got).

Lemma response_found {U C} r w version status h encoding bs out rest fin :
  version = HTTP_10 \/ version = HTTP_11 -> status_from_u16 status = Some status -> sendable h ->
  announced encoding h -> encoded encoding bs out ->
  let text := message_head (status_line version status) (hm_iter h) ++ out in
  holds r w (text ++ rest) fin -> length (text ++ rest) < fuel ->
  (N.of_nat (length bs) <= isize_max)%N ->
  (encoding = CloseDelimited -> rest = [] /\ fin = None) ->
  wp (response_with_bytes (U := U) (C := C) r)
     (fun '(res, got) _ => res_status res = status /\ res_version res = version /\
        same_headers h (res_headers res) /\ got = bs) never w.
Proof.
  intros Hv Hst Hs Ha He text Hr Hf Hmax Hclose. unfold response_with_bytes.
  destruct (response_head_written version status h Hv Hst Hs) as (h' & Hhead & Hsame).
  pose proof (announced_same _ _ _ Hsame Ha) as Ha'.
  pose proof (announced_plan _ _ Ha') as Hplan.
  subst text. rewrite <-app_assoc in Hr, Hf.
  assert (Hsplit : split_head fuel []
      (message_head (status_line version status) (hm_iter h) ++ out ++ rest) fin =
      inl (message_head (status_line version status) (hm_iter h), out ++ rest)).
  { rewrite status_line_text in *. apply split_message_head; [by apply status_plain|done|done]. }
  rewrite length_app in Hf. wp_step. eapply wp_mono; [apply (parse_response_on r w _ fin Hr); rewrite length_app; lia| |].
  - intros res w1 (_ & head & rest1 & plan & Hsp & Hh & Hp & Hb). rewrite Hsplit in Hsp.
    injection Hsp as <- <-. rewrite Hhead in Hh. injection Hh as Hst' Hv' Hh'. subst h'.
    wp_steps. eapply wp_never_mono.
    { apply (into_bytes_spec (res_body res) w1 bs).
      eapply (planned_body_bytes encoding (res_headers res) bs out rest fin plan);
        try done. lia. }
    intros got w2 [_ ->]. by apply wp_ret.
  - intros e w1 (_ & Href). unfold response_refused in Href. rewrite Hsplit, Hhead in Href.
    destruct (response_plan h') as [[]|] eqn:Hp in Href; [done| |done..|by rewrite Hplan in Hp].
    by eapply encoded_long.
Qed.

Lemma request_found r w version method uri h encoding bs out rest fin :
  version = HTTP_10 \/ version = HTTP_11 -> sendable_method method -> sendable_uri uri ->
  sendable h -> announced encoding h -> encoding <> CloseDelimited -> encoded encoding bs out ->
  let text := message_head (request_line method uri (version_debug version)) (hm_iter h) ++ out in
  holds r w (text ++ rest) fin -> length (text ++ rest) < fuel ->
  (N.of_nat (length bs) <= isize_max)%N ->
  wp (request_with_bytes r)
     (fun '(req, got) _ => req_method req = method /\ req_uri req = uri /\
        req_version req = version /\ same_headers h (req_headers req) /\ got = bs) never w.
Proof.
  intros Hv Hm Hu Hs Ha Hne He text Hr Hf Hmax. unfold request_with_bytes.
  destruct (request_head_written version method uri h Hv Hm Hu Hs) as (h' & Hhead & Hsame).
  pose proof (announced_same _ _ _ Hsame Ha) as Ha'.
  assert (Hplan : exists plan, response_plan h' = inl plan /\ request_plan h' = inl plan).
  { eexists. split; [by apply announced_plan|]. apply request_plan_response; [by apply announced_plan|].
    destruct encoding as [n| |]; [by destruct (n <? 1024)%N|done|done]. }
  destruct Hplan as (plan0 & Hres & Hreq). subst text. rewrite <-app_assoc in Hr, Hf.
  assert (Hsplit : split_head fuel []
      (message_head (request_line method uri (version_debug version)) (hm_iter h) ++ out ++ rest) fin =
      inl (message_head (request_line method uri (version_debug version)) (hm_iter h), out ++ rest)).
  { rewrite request_line_text in *. apply split_message_head; [by apply request_plain|done|done]. }
  rewrite length_app in Hf. wp_step.
  eapply wp_mono; [apply (parse_request_on r w _ fin Hr); rewrite length_app; lia| |].
  - intros req w1 (_ & head & rest1 & plan & Hsp & Hh & Hp & Hb). rewrite Hsplit in Hsp.
    injection Hsp as <- <-. rewrite Hhead in Hh. injection Hh as Hm' Hu' Hv' Hh'. subst h'.
    rewrite Hreq in Hp. injection Hp as <-.
    wp_steps. eapply wp_never_mono.
    { apply (into_bytes_spec (req_body req) w1 bs).
      eapply (planned_body_bytes encoding (req_headers req) bs out rest fin plan0);
        try done. lia. }
    intros got w2 [_ ->]. by apply wp_ret.
  - intros e w1 (_ & Href). unfold request_refused in Href. rewrite Hsplit, Hhead, Hreq in Href.
    destruct plan0; try done. by eapply encoded_long.
Qed.
End reading.

(** ** Properties *)
Section properties.
Context `{!HttpApi} `{!HttpApiLaws} `{!HttpHeadLaws} `{!Fuel}.
Context {W S B : Type} `{!World W} `{!Write W S} `{!WriteLaws W S} `{!HttpBody W B}
  `{!HttpBodyLaws W B}.
Context {V R : Type} `{!World V} `{!BufRead V R} `{!Drop V R} `{!BufReadLaws V R}.
Implicit Types (s : S) (w : W) (r : R) (v : V).

(** C19. A response that [write_response] wrote is read back by [parse_response], from any
    stream that delivers the bytes and whatever follows them: the same status and
    version, headers in which the crate finds the same values as in those that were
    sent, and a body with the bytes of the body that was written. A body that is
    delimited by the end of the connection needs that end. *)
Theorem response_round_trip {U C} (res : Response U C B) s w encoding headers bs :
  res_version res = HTTP_10 \/ res_version res = HTTP_11 ->
  status_from_u16 (res_status res) = Some (res_status res) ->
  plain_framing (res_headers res) ->
  (forall n, len (W := W) (res_body res) = Some n -> (n < 2 ^ 64)%N) ->
  response_framing (res_version res) (res_headers res) (len (W := W) (res_body res)) =
    inl (encoding, headers) ->
  sendable headers -> droppable (res_body res) w ->
  sends encoding (res_body res) w (encoded encoding bs) -> (N.of_nat (length bs) <= isize_max)%N ->
  wp (write_response res true)
     (fun _ '(s', w') => exists text, written s' w' = written s w ++ text /\
        forall r v rest fin, holds r v (text ++ rest) fin -> length (text ++ rest) < fuel ->
          (encoding = CloseDelimited -> rest = [] /\ fin = None) ->
          wp (response_with_bytes (U := U) (C := C) r)
             (fun '(res', got) _ => res_status res' = res_status res /\
                res_version res' = res_version res /\
                same_headers headers (res_headers res') /\ got = bs) never v)
     (fun _ _ => can_fail W S) (s, w).
Proof.
  intros Hv Hst Hpl Hlen Hf Hsend Hd Hs Hmax.
  assert (Ha : announced encoding headers) by (by eapply response_framing_announced).
  eapply wp_mono; [by eapply (write_response_on res true)| |].
  - intros o [s' w'] ((out & He & _ & Hw) & _). eexists. split; [exact Hw|].
    intros r v rest fin Hr Hfu Hclose. by eapply response_found.
  - by intros e [s' w'] (out & _ & Hc & _).
Qed.

(** C33. An HTTP/1.1 request that [write_request] wrote is read back by [parse_request], whatever
    follows it on the stream: the same method, target and version, headers in which
    the crate finds the same values, and a body with the same bytes. *)
Theorem request_round_trip (req : Request B) s w encoding headers head bs :
  req_version req = HTTP_11 -> sendable_method (req_method req) -> sendable_uri (req_uri req) ->
  plain_framing (req_headers req) ->
  (forall n, len (W := W) (req_body req) = Some n -> (n < 2 ^ 64)%N) ->
  request_framing (W := W) req = inl (encoding, headers, head) ->
  sendable headers -> droppable (req_body req) w ->
  sends encoding (req_body req) w (encoded encoding bs) -> (N.of_nat (length bs) <= isize_max)%N ->
  wp (write_request req)
     (fun _ '(s', w') => exists text, written s' w' = written s w ++ text /\
        forall r v rest fin, holds r v (text ++ rest) fin -> length (text ++ rest) < fuel ->
          wp (request_with_bytes r)
             (fun '(req', got) _ => req_method req' = req_method req /\
                req_uri req' = req_uri req /\ req_version req' = req_version req /\
                same_headers headers (req_headers req') /\ got = bs) never v)
     (fun _ _ => can_fail W S) (s, w).
Proof.
  intros Hv Hm Hu Hpl Hlen Hf Hsend Hd Hs Hmax.
  destruct (request_framing_announced req encoding headers head Hv Hpl Hlen Hf) as [Ha Hne].
  assert (Hhead : head = message_head (request_line (req_method req) (req_uri req)
                    (version_debug (req_version req))) (hm_iter headers)).
  { unfold request_framing in Hf. destruct (request_encoding _ _ _ _) as [[enc h]|]; [|done].
    rewrite version_shown in Hf by auto. by injection Hf as _ -> <-. }
  eapply wp_mono; [by eapply (write_request_on req)| |].
  - intros o [s' w'] (out & He & _ & Hw). eexists. split; [exact Hw|].
    intros r v rest fin Hr Hfu. subst head. eapply request_found; eauto.
  - by intros e [s' w'] (out & _ & Hc & _).
Qed.
End properties.
