(* ===== verification/HeadModel.v ===== *)
(** * HeadModel: [HttpHeadLaws] hold for the small instance of [HttpApi]

    The parsers of HttpModel.v read the heads that the crate prints. *)
From stdpp Require Import base list gmap strings.
From Stdlib Require Import Strings.Byte NArith Lia.
From S2P Require Import Prelude Errors HttpApi HttpModel Message MessageLaws Request.
From S2P Require Import RequestLaws Response RoundTrip.

(** ** Lines *)
Lemma cut_app c l t : c ∉ l -> cut c (l ++ c :: t) = (l, Some t).
Proof.
  intros Hl. unfold cut. rewrite memchr_app by done. rewrite take_app_length.
  rewrite (app_assoc l [c] t : l ++ c :: t = (l ++ [c]) ++ t).
  replace (S (length l)) with (length (l ++ [c])) by (rewrite length_app; simpl; lia).
  by rewrite drop_app_length.
Qed.

Lemma split_lines n lines t :
  Forall plain_line lines -> length lines <= n ->
  split_on n LF (concat ((fun l => l ++ CRLF) <$> lines) ++ t) =
  ((fun l => l ++ [CR]) <$> lines) ++ split_on (n - length lines) LF t.
Proof.
  intros Hall. revert n. induction Hall as [|l lines [Hl _] _ IH]; intros n Hn; cbn in Hn.
  { by rewrite Nat.sub_0_r. }
  destruct n as [|n]; [lia|]. cbn [fmap list_fmap concat split_on].
  replace ((l ++ CRLF) ++ concat ((fun l0 => l0 ++ CRLF) <$> lines)) with
    ((l ++ [CR]) ++ LF :: concat ((fun l0 => l0 ++ CRLF) <$> lines)) by (by rewrite <-!app_assoc).
  rewrite <-app_assoc. cbn [app]. rewrite cut_app by set_solver.
  rewrite IH by lia. done.
Qed.

Lemma m_lines_text lines :
  Forall plain_line lines -> lines <> [] -> m_lines (head_text lines) = lines.
Proof.
  intros Hall Hne. unfold m_lines, head_text.
  rewrite split_lines; [|done|].
  2: { etrans; [apply head_text_lines|]. done. }
  assert (Hrest : exists m, length (concat ((fun l => l ++ CRLF) <$> lines) ++ CRLF) - length lines = S m).
  { exists (length (concat ((fun l => l ++ CRLF) <$> lines) ++ CRLF) - length lines - 1).
    rewrite length_app. cbn [length CRLF].
    assert (length lines <= length (concat ((fun l => l ++ CRLF) <$> lines))); [|lia].
    clear. induction lines as [|l lines IH]; cbn; [lia|]. rewrite !length_app. cbn in *. lia. }
  destruct Hrest as [m ->]. rewrite fmap_app, filter_app.
  replace (filter _ (strip_cr <$> split_on (S m) LF CRLF)) with (@nil bytes).
  2: { by destruct m. }
  rewrite app_nil_r, <-list_fmap_compose. clear Hne.
  induction Hall as [|l lines [_ Hl] _ IH]; [done|]. cbn [fmap list_fmap compose].
  rewrite strip_cr_app, filter_cons_True by done. by f_equal.
Qed.

(** ** Headers *)
Definition header_ok (kv : bytes * bytes) : Prop :=
  kv.1 <> [] /\ lower kv.1 = kv.1 /\ x3a ∉ kv.1 /\ LF ∉ kv.1 /\ LF ∉ kv.2 /\ trim kv.2 = kv.2.

Definition header_text (kv : bytes * bytes) : bytes := kv.1 ++ b ": " ++ kv.2.

Lemma header_text_plain kv : header_ok kv -> plain_line (header_text kv).
Proof.
  intros (Hn & _ & _ & Hl & Hv & _). unfold header_text. split; [set_solver|].
  by destruct kv.1.
Qed.

Lemma m_headers_text h : Forall header_ok h -> m_headers (header_text <$> h) = Some h.
Proof.
  unfold m_headers. induction 1 as [|[k v] h (Hn & Hlow & Hc & _ & _ & Ht) _ IH]; [done|].
  cbn [fmap list_fmap mapM]. cbn [fst snd] in Hn, Hlow, Hc, Ht.
  replace (m_header_line (header_text (k, v))) with (Some (k, v)).
  - cbn. by rewrite IH.
  - unfold m_header_line, header_text. cbn [fst snd].
    change (k ++ b ": " ++ v) with (k ++ x3a :: (SP :: v)). rewrite cut_app by done.
    rewrite Hlow. unfold trim in *. cbn [trim_left]. by rewrite bool_decide_true, Ht.
Qed.

Lemma m_append_all h acc :
  Forall header_ok h ->
  fold_headers (H := model_api) h (Some acc) = Some (acc ++ h).
Proof.
  intros Hh. revert acc. induction Hh as [|[k v] h (Hn & Hlow & _) _ IH]; intros acc.
  { by rewrite app_nil_r. }
  unfold fold_headers in *. cbn [fold_left fst snd mbind option_bind hm_try_append model_api].
  cbn [fst snd] in Hn, Hlow. rewrite bool_decide_false by done. rewrite Hlow.
  etrans; [apply IH|]. by rewrite <-app_assoc.
Qed.

Lemma m_slots h n :
  Forall header_ok h -> filled_headers (h ++ replicate n ([], [])) = h.
Proof.
  induction 1 as [|[k v] h (Hn & _) _ IH]; cbn [app filled_headers].
  - by destruct n.
  - unfold hp_is_empty_header at 1. rewrite bool_decide_false; [by f_equal|]. by intros [? _].
Qed.

(** ** Start lines *)
Lemma m_version_debug n version :
  convert_version n = inl version ->
  m_version (version_debug (HttpApi := model_api) version) = Some n /\
  SP ∉ version_debug (HttpApi := model_api) version /\
  LF ∉ version_debug (HttpApi := model_api) version.
Proof.
  unfold convert_version. destruct n as [|[|p|]]; try done;
    intros [= <-]; split_and!; try done; vm_compute; set_solver.
Qed.

Lemma m_reason_plain code : LF ∉ m_reason code.
Proof.
  unfold m_reason. apply (bool_decide_unpack _).
  repeat (destruct code as [|code]; try by vm_compute); repeat (case_match; try by vm_compute).
Qed.

Lemma dec_plain n c : digit_value c = None -> c ∉ dec n.
Proof. intros Hc. apply not_in_digits; [lia|done]. Qed.

Lemma m_status_line version n status :
  convert_version n = inl version ->
  split_on 2 SP (version_debug (HttpApi := model_api) version ++ b " " ++
                 status_display (HttpApi := model_api) status) =
    [version_debug (HttpApi := model_api) version; dec status; m_reason status].
Proof.
  intros Hn. destruct (m_version_debug n version Hn) as (_ & Hsp & _).
  change (status_display (HttpApi := model_api) status) with (dec status ++ SP :: m_reason status).
  change (b " ") with [SP]. cbn [split_on app]. rewrite cut_app by done.
  rewrite cut_app by (by apply dec_plain). done.
Qed.

Lemma m_response_head n version status h :
  convert_version n = inl version -> Forall header_ok h ->
  m_response (head_text ((version_debug (HttpApi := model_api) version ++ b " " ++
                          status_display (HttpApi := model_api) status) :: (header_text <$> h))) =
    inl (Build_ParsedHead None None (Some n) (Some status) h).
Proof.
  intros Hn Hh. destruct (m_version_debug n version Hn) as (Hv & _ & Hlf).
  unfold m_response. rewrite m_lines_text; [|constructor|done].
  - rewrite (m_status_line version n) by done. rewrite Hv.
    unfold dec. rewrite read_digits_digits by lia. by rewrite m_headers_text.
  - split; [|by destruct version].
    change (status_display (HttpApi := model_api) status) with (dec status ++ SP :: m_reason status).
    pose proof (dec_plain status LF eq_refl). pose proof (m_reason_plain status). set_solver.
  - apply Forall_fmap. eapply Forall_impl; [exact Hh|]. apply header_text_plain.
Qed.

(** A number as a value *)
Lemma trim_plain l : SP ∉ l -> trim l = l.
Proof.
  assert (Hl : forall l, SP ∉ l -> trim_left l = l).
  { intros [|c l']; [done|]. intros Hc. cbn [trim_left]. rewrite bool_decide_false; [done|set_solver]. }
  intros Hs. unfold trim. rewrite (Hl l), Hl; [by rewrite rev_involutive| |done].
  rewrite list_elem_of_In, <-in_rev, <-list_elem_of_In. done.
Qed.

Lemma header_ok_number name n :
  name <> [] -> lower name = name -> x3a ∉ name -> LF ∉ name -> header_ok (name, dec n).
Proof.
  intros. split_and!; [done..|by apply dec_plain|]. by apply trim_plain, dec_plain.
Qed.

(** A method or target that stands between blanks *)
Definition token_ok (l : bytes) : Prop := l <> [] /\ SP ∉ l /\ LF ∉ l.

Lemma m_request_head n version method uri h :
  convert_version n = inl version -> token_ok (m_method_display method) -> token_ok uri ->
  Forall header_ok h ->
  m_request (head_text ((m_method_display method ++ b " " ++ uri ++ b " " ++
                         version_debug (HttpApi := model_api) version) :: (header_text <$> h))) =
    inl (Build_ParsedHead (Some (m_method_display method)) (Some uri) (Some n) None h).
Proof.
  intros Hn (Hm & Hms & Hml) (Hu & Hus & Hul) Hh.
  destruct (m_version_debug n version Hn) as (Hv & _ & Hlf).
  unfold m_request. rewrite m_lines_text; [|constructor|done].
  - change (b " ") with [SP]. cbn [app]. rewrite cut_app, cut_app by done. rewrite Hv.
    by rewrite m_headers_text.
  - split; [set_solver|]. by destruct (m_method_display method).
  - apply Forall_fmap. eapply Forall_impl; [exact Hh|]. apply header_text_plain.
Qed.

(** ** The laws *)
#[export, refine] Instance model_head_laws : @HttpHeadLaws model_api := {|
  sendable := Forall header_ok;
  sendable_uri := token_ok;
  sendable_method method := token_ok (m_method_display method) /\
                            m_method (m_method_display method) = Some method;
|}.
Proof.
  - intros h Hh. eapply Forall_impl; [exact Hh|]. apply header_text_plain.
  - intros h n. apply m_slots.
  - intros h Hh. exists h. split; [by apply (m_append_all h [])|]. by split_and!.
  - by intros version [->| ->].
  - intros status _. change (LF ∉ dec status ++ SP :: m_reason status).
    pose proof (dec_plain status LF eq_refl). pose proof (m_reason_plain status). set_solver.
  - by intros method ((_ & _ & ?) & ?).
  - intros uri (Hu & _ & Hl). split; [done|]. cbn. by rewrite bool_decide_false.
  - intros n version status h Hn _ Hh. exists 0. rewrite app_nil_r, status_line_text.
    rewrite message_head_lines. by apply m_response_head.
  - intros n version method uri h Hn [Hm _] Hu Hh. exists 0. rewrite app_nil_r, request_line_text.
    rewrite message_head_lines. by apply m_request_head.
Defined.
