(* ===== verification/EndToEnd.v ===== *)
(** * EndToEnd: a request of the client, answered by the server

    The two sides put together: the text that [write_request] writes reaches the
    service as the same request, and the text that [serve] answers with is read by
    [parse_response] as the response of the service. *)
From stdpp Require Import base list gmap strings.
From Stdlib Require Import Strings.Byte NArith Lia.
From S2P Require Import Prelude Errors StdIo Buffered HttpApi Mpsc ReadQueue QueueLaws.
From S2P Require Import HttpBody Body BodyLaws Message MessageLaws ChunkedLaws Request.
From S2P Require Import RequestLaws Response ResponseLaws Upgrade Tls Connection ConnLaws.
From S2P Require Import Server Reference IncomingLaws ServiceLaws ServerLaws.
From S2P Require Import Totality.
From S2P Require Import Client ClientLaws RoundTrip.

(** ** The request reaches the reference *)
Section arrival.
Context `{!HttpApi} `{!HttpApiLaws} `{!HttpHeadLaws} `{!Fuel}.

Lemma split_fixed encoding bs out rest fin n :
  encoding = FixedLength n -> encoded encoding bs out -> (N.of_nat (length bs) <= isize_max)%N ->
  body_split fin (if (n <? 1024)%N then PlanBuffered n else PlanStreamed n) (out ++ rest) =
    Some (Sized bs, rest, rest).
Proof.
  intros -> [-> Hn] Hmax.
  assert (Hl : (n <=? N.of_nat (length (bs ++ rest)))%N = true).
  { rewrite length_app. apply N.leb_le. lia. }
  assert (Hm : (n <=? isize_max)%N = true) by (apply N.leb_le; lia).
  replace (body_split fin _ (bs ++ rest)) with
    (Some (Announced n (take (N.to_nat n) (bs ++ rest)), drop (N.to_nat n) (bs ++ rest),
           drop (N.to_nat n) (bs ++ rest))).
  - rewrite take_app_le, drop_app_le, take_ge, drop_ge by lia. by rewrite Hn.
  - by destruct (n <? 1024)%N; cbn [body_split]; rewrite Hl, Hm.
Qed.

(** A request of known length stands at the front of the stream. *)
Lemma request_at_written version method uri h bs out n rest fin :
  version = HTTP_10 \/ version = HTTP_11 -> sendable_method method -> sendable_uri uri ->
  sendable h -> announced (FixedLength n) h -> encoded (FixedLength n) bs out ->
  let text := message_head (request_line method uri (version_debug version)) (hm_iter h) ++ out in
  length (text ++ rest) < fuel -> (N.of_nat (length bs) <= isize_max)%N ->
  exists h', same_headers h h' /\
    request_at fin (text ++ rest) = Arrives method uri version h' (Sized bs) rest rest.
Proof.
  intros Hv Hm Hu Hs Ha He text Hf Hmax.
  destruct (request_head_written version method uri h Hv Hm Hu Hs) as (h' & Hhead & Hsame).
  exists h'. split; [done|]. pose proof (announced_same _ _ _ Hsame Ha) as Ha'.
  assert (Hplan : request_plan h' = inl (if (n <? 1024)%N then PlanBuffered n else PlanStreamed n)).
  { apply request_plan_response; [by apply (announced_plan (FixedLength n))|].
    by destruct (n <? 1024)%N. }
  subst text. rewrite <-app_assoc in *. unfold request_at.
  replace (split_head fuel [] _ fin) with
    (inl (B := io_error) (message_head (request_line method uri (version_debug version)) (hm_iter h),
          out ++ rest)).
  - rewrite Hhead, Hplan. by rewrite (split_fixed (FixedLength n) bs out rest fin n).
  - rewrite request_line_text in *. symmetry.
    apply split_message_head; [by apply request_plain|done|done].
Qed.

End arrival.

(** ** The response of the reference is read back *)
Section answer.
Context `{!HttpApi} `{!HttpApiLaws} `{!HttpHeadLaws} `{!Fuel} {A U C B : Type}.
Variable sp : app_spec A U C B.

Lemma plain_framing_same h h' :
  te_try_get h' = te_try_get h -> cl_try_get h' = cl_try_get h -> plain_framing h -> plain_framing h'.
Proof.
  unfold plain_framing. rewrite !has_chunked_try, !cl_get_try. by intros -> ->.
Qed.

Lemma plain_framing_sent time version keep h :
  plain_framing h -> plain_framing (dated time (version_headers version keep h)).
Proof.
  intros Hp. set (h1 := version_headers version keep h).
  assert (Hp1 : plain_framing h1).
  { unfold h1, version_headers. destruct (_ && _); [|done].
    by eapply plain_framing_same; [apply conn_insert_value_others..|]. }
  unfold dated. destruct (date_is_set h1); [done|].
  by eapply plain_framing_same; [apply date_insert_others..|].
Qed.

(** The service answers this request with [status] and the body [answer], in a response
    that can be sent: it does not switch protocols, what it says about its framing is
    consistent, and its body is written as [answer] in each encoding. *)
Definition answers_with (app : A) (method : Method) (uri : Uri) (version : Version)
    (headers : HeaderMap) (body : incoming) (status : N) (answer : bytes) : Prop :=
  status_from_u16 status = Some status /\
  exists app' res,
    app_call sp app method uri version headers body = (app', inl res) /\
    res_status res = status /\ ext_upgrade (res_extensions res) = None /\
    plain_framing (res_headers res) /\
    (forall n, app_len sp (res_body res) = Some n -> (n < 2 ^ 64)%N) /\
    forall time keep, exists encoding sent,
      response_framing version (dated time (version_headers version keep (res_headers res)))
                       (app_len sp (res_body res)) = inl (encoding, sent) /\
      sendable sent /\ encoded encoding answer (app_body sp encoding (res_body res)).

(** [text] is a response with this status and body, on every stream that delivers it. *)
Definition reads_as {V R} `{!World V} `{!BufRead V R} `{!Drop V R} `{!BufReadLaws V R}
    (version : Version) (status : N) (answer text : bytes) : Prop :=
  forall (r : R) (v : V), holds r v text None -> length text < fuel ->
    wp (response_with_bytes (U := U) (C := C) r)
       (fun '(res, got) _ => res_status res = status /\ res_version res = version /\ got = answer)
       never v.

Lemma respond_reads_as {V R} `{!World V} `{!BufRead V R} `{!Drop V R} `{!BufReadLaws V R}
    time app method uri version headers body status answer :
  version = HTTP_10 \/ version = HTTP_11 -> should_write_body method status = true ->
  answers_with app method uri version headers body status answer ->
  (N.of_nat (length answer) <= isize_max)%N ->
  exists text app' (open : bool),
    respond sp time app method uri version headers body =
      Some (text, app', inl (if open then Continues else Finishes)) /\
    reads_as (V := V) (R := R) version status answer text.
Proof.
  intros Hv Hw (Hst & app' & res & Hcall & Hs & Hup & Hpl & Hlen & Hframe) Hmax.
  destruct (Hframe time (connection_has "keep-alive" headers)) as (encoding & sent & Hf & Hsend & He).
  unfold respond, after_response. rewrite Hcall, Hup, Hs, Hw. cbv zeta. rewrite Hf.
  do 3 eexists. split; [done|]. intros r v Hr Hfu.
  eapply wp_never_mono.
  - apply (response_found (U := U) (C := C) r v version status sent encoding answer
             (app_body sp encoding (res_body res)) [] None); try done.
    + eapply response_framing_announced; [done| |done|exact Hf]. by apply plain_framing_sent.
    + by rewrite app_nil_r.
    + by rewrite app_nil_r.
  - intros [res' got] v' (? & ? & _ & ?). done.
Qed.
End answer.

(** ** One exchange *)
Section reference.
Context `{!HttpApi} `{!HttpApiLaws} `{!HttpHeadLaws} `{!Fuel} {A U C B V R : Type}.
Context `{!World V} `{!BufRead V R} `{!Drop V R} `{!BufReadLaws V R}.
Variable sp : app_spec A U C B.

Lemma reference_once ts app text n method uri version h body status answer :
  request_at None text = Arrives method uri version h body [] [] -> 0 < fuel ->
  version = HTTP_10 \/ version = HTTP_11 -> should_write_body method status = true ->
  expect_is_continue h = false ->
  answers_with sp app method uri version h body status answer ->
  (N.of_nat (length answer) <= isize_max)%N ->
  exists out app', reference sp None (S (S n)) ts app text = Some (out, Closed, app') /\
    reads_as (U := U) (C := C) (V := V) (R := R) version status answer out.
Proof.
  intros Hat Hf Hv Hw Hex Hans Hmax.
  destruct (respond_reads_as (V := V) (R := R) sp (ts 0) app method uri version h body status answer
              Hv Hw Hans Hmax) as (out & app' & open & Hr & Hread).
  exists out, app'. split; [|done]. cbn [reference]. rewrite Hat.
  unfold exchange, served. rewrite Hex, Hr. cbn [mbind option_bind].
  destruct open; [|done].
  replace (if app_reads sp app method uri version h body then [] else []) with (@nil byte)
    by (by destruct (app_reads _ _ _ _ _ _ _)).
  rewrite request_at_end by done. cbn [mbind option_bind]. by rewrite app_nil_r.
Qed.
End reference.

Section end_to_end.
Context `{!HttpApi} `{!HttpApiLaws} `{!HttpHeadLaws} `{!Fuel}.
(** The client writes a request with a body of type [B] to the stream [S]. *)
Context {W S B : Type} `{!World W} `{!Write W S} `{!WriteLaws W S} `{!HttpBody W B}
  `{!HttpBodyLaws W B}.
(** The server serves it on the connection [C]. *)
Context {X C A Hd : Type} `{!World X} `{!Conn X C} `{!ConnLaws X C} `{!HasStore X (BufReader C)}
  `{!StoreWorld X (BufReader C)} `{!ConnStore X C} `{!UpgradeHandler X Hd C} `{!Clock X}.
Context `{!Service (W := X) (C := C) (A := A) (Hd := Hd)}
  {D : Type} (sp : app_spec A (UpgradeExtension Hd) C D) `{!ServiceLaws sp} `{!ClockLaws (W := X)}.
(** The client reads the response from the stream [R]. *)
Context {V R : Type} `{!World V} `{!BufRead V R} `{!Drop V R} `{!BufReadLaws V R}.

(** C4. From end to end: an HTTP/1.1 request with a body of known length that [write_request]
    wrote reaches the service of a server that reads these bytes, with the same
    method, target, headers and body; and what [serve] writes on the connection is
    read by [parse_response] as the response of the service, with its status and
    the bytes of its body. Nothing fails unless a connection does. *)
Theorem request_answered (req : Request B) (s : S) (w : W) n headers head bs status answer :
  req_version req = HTTP_11 -> sendable_method (req_method req) -> sendable_uri (req_uri req) ->
  plain_framing (req_headers req) ->
  (forall n, len (W := W) (req_body req) = Some n -> (n < 2 ^ 64)%N) ->
  request_framing (W := W) req = inl (FixedLength n, headers, head) ->
  sendable headers -> expect_is_continue headers = false ->
  droppable (req_body req) w ->
  sends (FixedLength n) (req_body req) w (encoded (FixedLength n) bs) ->
  (N.of_nat (length bs) <= isize_max)%N -> (N.of_nat (length answer) <= isize_max)%N ->
  should_write_body (req_method req) status = true ->
  wp (write_request (W := W) (S := S) req)
     (fun _ '(s', w') => exists text, written (W := W) s' w' = written (W := W) s w ++ text /\
        forall (conn : C) (x : X) (app : A),
          holds conn x text None -> Datatypes.S (length text) < fuel ->
          (forall h, same_headers headers h ->
             answers_with sp app (req_method req) (req_uri req) HTTP_11 h (Sized bs) status answer) ->
          wp (serve conn)
             (fun _ '(_, x') => exists out, drained conn (accepted conn x ++ out) x' /\
                reads_as (U := UpgradeExtension Hd) (C := C) (V := V) (R := R)
                         HTTP_11 status answer out)
             (fun _ _ => raw_can_fail X C) (app, x))
     (fun _ _ => can_fail W S) (s, w).
Proof.
  intros Hv Hm Hu Hpl Hlen Hf Hsend Hexp Hd' Hs Hmax Hmax' Hsw.
  destruct (request_framing_announced req (FixedLength n) headers head Hv Hpl Hlen Hf) as [Ha _].
  assert (Hhead : head = message_head (request_line (req_method req) (req_uri req)
                    (version_debug HTTP_11)) (hm_iter headers)).
  { unfold request_framing in Hf. rewrite Hv in Hf.
    destruct (request_encoding _ _ _ _) as [[enc h]|]; [|done].
    rewrite version_shown in Hf by auto. by injection Hf as _ -> <-. }
  eapply wp_mono; [by eapply (write_request_on req)| |].
  2: by intros e [s' w'] (out & _ & Hc & _).
  intros o [s' w'] (out & He & _ & Hw). eexists. split; [exact Hw|].
  intros conn x app Hconn Hfu Hans. rewrite Hhead in *.
  destruct (request_at_written HTTP_11 (req_method req) (req_uri req) headers bs out n [] None)
    as (h & Hsame & Hat); try done; [by right|by rewrite app_nil_r; lia|]. rewrite app_nil_r in Hat.
  set (text := message_head _ _ ++ out) in *.
  assert (Href : forall ts, exists out' app',
    reference sp None (Datatypes.S (length text)) ts app text = Some (out', Closed, app') /\
    reads_as (U := UpgradeExtension Hd) (C := C) (V := V) (R := R) HTTP_11 status answer out').
  { intros ts. assert (Hpos : exists m, length text = Datatypes.S m).
    { subst text. unfold message_head, request_line. destruct (method_display _); by eexists. }
    destruct Hpos as [m Hpos]. rewrite Hpos.
    eapply reference_once; [exact Hat|lia|by right|done| |by apply Hans|done].
    destruct Hsame as (_ & _ & _ & He' & _). by rewrite He'. }
  eapply wp_mono; [apply (serve_reference sp conn app x text None Hconn Hfu)| |].
  - intros ts. destruct (Href ts) as (? & ? & -> & _). by do 3 eexists.
  - intros [] [app' x'] (ts & out' & Hr & Hdr). exists out'. split; [done|].
    destruct (Href ts) as (out2 & app2 & Hr2 & Hread). rewrite Hr in Hr2. by injection Hr2 as -> _.
  - intros e [app' x'] (ts & out' & r & app2 & Hr & _ & [(-> & _)|Hcf]); [|done].
    destruct (Href ts) as (out3 & app3 & Hr3 & _). by rewrite Hr in Hr3.
Qed.
End end_to_end.
