(* ===== verification/Pipeline.v ===== *)
(** * Pipeline: requests behind one another, answered by the service of echo.rs

    The service streams: while it writes a response it is still reading the request, and
    the reader of the connection reaches the next request only when that is done. *)
From stdpp Require Import base list gmap strings.
From Stdlib Require Import Strings.Byte NArith Lia.
From S2P Require Import Prelude Errors StdIo Buffered HttpApi Mpsc ReadQueue QueueLaws.
From S2P Require Import HttpBody Body BodyLaws Message MessageLaws ChunkedLaws Request.
From S2P Require Import RequestLaws Response ResponseLaws Upgrade Tls Connection ConnLaws.
From S2P Require Import Server Reference StreamLaws IncomingLaws ServiceLaws ServerLaws Client.
From S2P Require Import Totality.
From S2P Require Import ClientLaws RoundTrip EndToEnd Examples Routes.

Section pipeline.
Context `{!HttpApi} `{!HttpApiLaws} `{!HttpHeadLaws} `{!Fuel}.
Context {W C Hd : Type} `{!World W} `{!Conn W C} `{!ConnLaws W C} `{!HasStore W (BufReader C)}
  `{!StoreWorld W (BufReader C)} `{!ConnStore W C} `{!UpgradeHandler W Hd C} `{!Clock W}.
Context `{!ClockLaws (W := W)}.
(** The client reads the responses from the stream [R]. *)
Context {V R : Type} `{!World V} `{!BufRead V R} `{!Drop V R} `{!BufReadLaws V R}.
(** The headers of the responses, a date and a length, can be sent. *)
Hypothesis (sendable_answer : forall time n, sendable (cl_insert n (dated time hm_new))).

Abbreviation spec := (stream_spec (C := C) (Hd := Hd)).

(** A request with its method, target, headers and body *)
Record post := { post_method : Method; post_uri : Uri; post_headers : HeaderMap; post_body : bytes }.
Implicit Types (p : post).

Definition post_text p : bytes :=
  message_head (request_line (post_method p) (post_uri p) (version_debug HTTP_11))
               (hm_iter (post_headers p)) ++ post_body p.

(** Its headers announce the length of the body, and neither end the connection nor wait
    for an interim response; the answer to its method has a body. *)
Definition echoable p : Prop :=
  sendable_method (post_method p) /\ sendable_uri (post_uri p) /\ sendable (post_headers p) /\
  announced (FixedLength (N.of_nat (length (post_body p)))) (post_headers p) /\
  (N.of_nat (length (post_body p)) <= isize_max)%N /\
  connection_has "close" (post_headers p) = false /\
  expect_is_continue (post_headers p) = false /\
  should_write_body (post_method p) STATUS_OK = true.

Lemma echo_respond time method (uri : Uri) h bs :
  connection_has "close" h = false -> should_write_body method STATUS_OK = true ->
  respond spec time tt method uri HTTP_11 h (Sized bs) = Some (sized_text time STATUS_OK bs, tt, inl Continues).
Proof. intros Hclose Hflag. by apply sized_respond. Qed.

(** The service answers such a request with its body. *)
Lemma echo_answers_with method uri h bs :
  status_from_u16 STATUS_OK = Some STATUS_OK -> (N.of_nat (length bs) <= isize_max)%N ->
  answers_with spec tt method uri HTTP_11 h (Sized bs) STATUS_OK bs.
Proof.
  intros Hst Hm. split; [done|]. exists tt, (status_body STATUS_OK (Sized bs)).
  split_and!; [done|done|done| | |].
  - destruct hm_new_framing as [Hte Hcl]. split; [by left|]. cbn. by rewrite cl_get_try, Hcl.
  - intros n [= <-]. unfold isize_max in Hm. lia.
  - intros time keep. cbn [status_body res_headers res_body app_len spec stream_spec body_spec incoming_len].
    rewrite unframed_fixed. do 2 eexists. split; [done|]. split; [by apply sendable_answer|done].
Qed.

Abbreviation echoed := (reads_as (U := UpgradeExtension Hd) (C := C) (V := V) (R := R) HTTP_11 STATUS_OK).

Lemma echo_reads_as time method (uri : Uri) h bs :
  connection_has "close" h = false -> should_write_body method STATUS_OK = true ->
  status_from_u16 STATUS_OK = Some STATUS_OK -> (N.of_nat (length bs) <= isize_max)%N ->
  echoed bs (sized_text time STATUS_OK bs).
Proof.
  intros Hclose Hflag Hst Hm.
  destruct (respond_reads_as (V := V) (R := R) spec time tt method uri HTTP_11 h (Sized bs)
    STATUS_OK bs) as (text & app' & go & Hr & Hread); [by right|done|by apply echo_answers_with|done|].
  rewrite echo_respond in Hr by done. by injection Hr as <- _ _.
Qed.

(** *** The reference *)
Lemma request_at_post p rest :
  echoable p -> length (post_text p ++ rest) < fuel ->
  exists h, same_headers (post_headers p) h /\
    request_at None (post_text p ++ rest) =
      Arrives (post_method p) (post_uri p) HTTP_11 h (Sized (post_body p)) rest rest.
Proof.
  intros (Hm & Hu & Hs & Ha & Hmax & _) Hf.
  by apply (request_at_written HTTP_11 (post_method p) (post_uri p) (post_headers p) (post_body p)
    (post_body p) (N.of_nat (length (post_body p))) rest None); [right|..].
Qed.

Lemma reference_echo n ts ps :
  Forall echoable ps -> length ps < n -> length (concat (post_text <$> ps)) < fuel ->
  exists outs, reference spec None n ts tt (concat (post_text <$> ps)) = Some (concat outs, Closed, tt) /\
    Forall2 (fun p out => echoable p /\ exists time, out = sized_text time STATUS_OK (post_body p)) ps outs.
Proof.
  intros Hps. revert n ts. induction Hps as [|p ps Hp _ IH]; intros n ts Hn Hf.
  { destruct n as [|n]; [lia|]. exists []. split; [|done]. cbn [fmap list_fmap concat reference].
    by rewrite request_at_end by (cbn in Hf; lia). }
  destruct n as [|n]; [lia|]. cbn [fmap list_fmap concat length] in *.
  destruct (request_at_post p (concat (post_text <$> ps)) Hp Hf) as (h & Hsame & Hat).
  rewrite length_app in Hf. destruct (IH n (fun i => ts (S i))) as (outs & Href & Hall); [lia..|].
  exists (sized_text (ts 0) STATUS_OK (post_body p) :: outs).
  split; [|by constructor; [split; [|eexists]|]]. cbn [reference]. rewrite Hat.
  destruct Hp as (_ & _ & _ & _ & _ & Hclose & Hexp & Hflag), Hsame as (_ & _ & Hconn & Hexp' & _).
  unfold exchange, served. rewrite Hexp', Hexp, echo_respond by
    (unfold connection_has in *; by rewrite ?Hconn).
  cbn [mbind option_bind spec stream_spec body_spec app_reads]. rewrite Hflag.
  by rewrite Href.
Qed.

Lemma length_posts ps : Forall echoable ps -> length ps <= length (concat (post_text <$> ps)).
Proof.
  induction 1 as [|p ps Hp _ IH]; [done|]. cbn [fmap list_fmap concat length].
  rewrite length_app. assert (1 <= length (post_text p)); [|lia].
  unfold post_text, message_head. rewrite !length_app. change (length CRLF) with 2. lia.
Qed.

(** C5. The echo service of src/examples/echo.rs answers requests that were sent behind one
    another, without waiting, in order and each with its own body, although it streams:
    it is still reading a request while it writes the response to it. Nothing fails
    unless the connection does. *)
Theorem echo_pipeline ps (conn : C) (w : W) :
  status_from_u16 STATUS_OK = Some STATUS_OK -> Forall echoable ps ->
  holds conn w (concat (post_text <$> ps)) None -> S (length (concat (post_text <$> ps))) < fuel ->
  wp (serve (H1 := stream_service (Hd := Hd)) conn)
     (fun _ '(_, w') => exists outs, Forall2 echoed (post_body <$> ps) outs /\
        drained conn (accepted conn w ++ concat outs) w')
     (fun _ _ => raw_can_fail W C) (tt, w).
Proof.
  intros Hst Hps Hc Hf. pose proof (length_posts ps Hps) as Hn.
  assert (Href : forall ts, exists outs,
    reference spec None (S (length (concat (post_text <$> ps)))) ts tt (concat (post_text <$> ps)) =
      Some (concat outs, Closed, tt) /\ Forall2 echoed (post_body <$> ps) outs).
  { intros ts. destruct (reference_echo (S (length (concat (post_text <$> ps)))) ts ps Hps) as
      (outs & Hr & Hall); [lia..|]. exists outs. split; [done|].
    apply Forall2_fmap_l. eapply Forall2_impl; [exact Hall|].
    intros p out [(_ & _ & _ & _ & Hmax & Hclose & _ & Hflag) [time ->]].
    by apply (echo_reads_as time (post_method p) (post_uri p) (post_headers p)). }
  eapply wp_mono; [apply (serve_reference (ServiceLaws0 := stream_laws) spec conn tt w _ None Hc Hf)| |].
  - intros ts. destruct (Href ts) as (outs & -> & _). by do 3 eexists.
  - intros [] [app' w'] (ts & out & Hr & Hdr). destruct (Href ts) as (outs & Hr2 & Hall).
    rewrite Hr in Hr2. injection Hr2 as -> _. by exists outs.
  - intros e [app' w'] (ts & out & r & app2 & Hr & _ & [(-> & _)|Hcf]); [|done].
    destruct (Href ts) as (outs & Hr2 & _). by rewrite Hr in Hr2.
Qed.
End pipeline.
