(* ===== verification/Compress.v ===== *)
(** * Compress: the body of src/examples/compress.rs

    A body around another body whose bytes go through a gzip encoder while they are read;
    the encoder is a parameter. *)
From stdpp Require Import base list gmap strings.
From Stdlib Require Import Strings.Byte NArith Lia.
From S2P Require Import Prelude Errors StdIo Buffered HttpApi HttpBody Body BodyLaws.
From S2P Require Import Message MessageLaws ChunkedLaws Request RequestLaws Response.
From S2P Require Import ResponseLaws Upgrade Tls Connection Server Client ClientLaws RoundTrip Examples.

(** ** [flate2::read::GzEncoder]

    [GzEncoder::new(reader, Compression::fast())] is a reader around a reader. *)
Class Gzip := {
  GzEncoder : Type -> Type;
  gz_new {R} : R -> GzEncoder R;
  gz_read {W R} `{!Read W R} :: Read W (GzEncoder R);
  gz_drop {W R} `{!Drop W R} :: Drop W (GzEncoder R);
}.

(** The format: what it compresses, it decompresses to the same bytes. *)
Class GzipFormat := {
  gzip : bytes -> bytes;
  gunzip : bytes -> option bytes;
  gunzip_gzip bs : gunzip (gzip bs) = Some bs;
}.

(** Around a reader that delivers some bytes and ends, the encoder delivers them compressed
    and ends. *)
Class GzipLaws `{!Gzip} `{!GzipFormat} (W : Type) `{!World W} := {
  gz_laws {R} `{!Read W R} `{!Drop W R} `{!ReadLaws W R} :: ReadLaws W (GzEncoder R);
  gz_new_holds {R} `{!Read W R} `{!Drop W R} `{!ReadLaws W R} (r : R) (w : W) bs :
    holds r w bs None -> holds (gz_new r) w (gzip bs) None;
}.
#[export] Hint Mode GzipLaws - - ! - : typeclass_instances.

(** [struct Compressed] *)
Record Compressed (B : Type) := { compressed_0 : B }.
Arguments compressed_0 {B} c.
Arguments Build_Compressed {B} compressed_0.

Section body.
Context `{!Gzip} `{!HttpApi} `{!Fuel} {W B : Type} `{!HttpBody W B}.

#[export] Instance Compressed_drop : Drop W (Compressed B) := fun E body => drop_value (compressed_0 body).

Definition compressed_len (body : Compressed B) : option N := None.

Definition compressed_into_reader (body : Compressed B) : ST W io_error (GzEncoder (BReader (W := W) (B := B))) :=
  let! reader := into_reader (compressed_0 body) in
  ret (gz_new reader).

Definition compressed_into_chunks (body : Compressed B)
  : ST W io_error (ChunkIterator IterVec (GzEncoder (BReader (W := W) (B := B)))) :=
  let! reader := compressed_into_reader body in
  ret (ChunkIterator_from_reader reader None).

(** The provided [into_bytes] *)
Definition compressed_into_bytes (body : Compressed B) : ST W io_error bytes :=
  alloc_vec (wrap64 (default 1024%N (compressed_len body)));;;
  let! reader := compressed_into_reader body in
  let! (buf, reader) := borrow (read_to_end fuel) reader in
  drop_value reader;;;
  ret buf.

(** [impl HttpBody for Compressed<Body>] *)
#[export] Instance Compressed_http_body : HttpBody W (Compressed B) := {|
  BReader := GzEncoder (BReader (W := W) (B := B));
  BChunks := ChunkIterator IterVec (GzEncoder (BReader (W := W) (B := B)));
  len := compressed_len;
  into_reader := compressed_into_reader;
  into_bytes := compressed_into_bytes;
  into_chunks := compressed_into_chunks;
|}.
End body.

(** [into_bytes] is the provided method. *)
Lemma compressed_into_bytes_default `{!Gzip} `{!HttpApi} `{!Fuel} {W B : Type} `{!HttpBody W B}
    (body : Compressed B) : into_bytes (W := W) body = default_into_bytes body.
Proof. done. Qed.

(** The response of the closure; [source] is the text of compress.rs. *)
Definition compress_response `{!HttpApi} {U C} (source : bytes) : Response U C (Compressed Slice) :=
  Build_Response 200%N HTTP_11
    (hm_insert (b "content-encoding") (b "gzip") (hm_insert (b "content-type") (b "text/plain") hm_new))
    no_extensions (Build_Compressed {| slice_bytes := source |}).

(** The closure *)
Definition compress_app `{!HttpApi} {C Hd} (source : bytes) (_ : unit)
  : unit * Response (UpgradeExtension Hd) C (Compressed Slice) := (tt, compress_response source).

(** ** It is a lawful body *)
Section laws.
Context `{!Gzip} `{!GzipFormat} `{!HttpApi} `{!Fuel} {W B : Type} `{!World W} `{!GzipLaws W}
  `{!HttpBody W B} `{!HttpBodyLaws W B}.
Implicit Types (w : W).

Definition compresses (body : Compressed B) w (z : bytes) : Prop :=
  exists bs, reader_of (compressed_0 body) w bs /\ z = gzip bs.

Lemma compressed_reader_spec body w z :
  compresses body w z ->
  wp (compressed_into_reader body) (fun rd w' => rstep w w' /\ holds rd w' z None) never w.
Proof.
  intros (bs & Hr & ->). unfold compressed_into_reader. wp_step.
  eapply wp_never_mono; [by apply into_reader_spec|]. intros rd w' [Hw Hrd].
  apply wp_ret. split; [done|]. by apply gz_new_holds.
Qed.

#[export] Instance Compressed_laws : HttpBodyLaws W (Compressed B).
Proof.
  refine (Build_HttpBodyLaws W (Compressed B) _ Compressed_http_body gz_laws ChunkIterator_laws
    (fun body w z => compresses body w z /\ length z < fuel)
    compresses
    (fun body w P => exists z, compresses body w z /\ forall items, reader_items None z None items -> P items)
    _ _ _ _ _ _).
  - intros body w w' z [(bs & Hr & Hz) Hl] Hw. split; [|done]. exists bs. split; [|done].
    by eapply reader_of_wstep.
  - intros body w w' z (bs & Hr & Hz) Hw. exists bs. split; [|done]. by eapply reader_of_wstep.
  - intros body w w' P (z & (bs & Hr & Hz) & HP) Hw. exists z. split; [|done]. exists bs.
    split; [|done]. by eapply reader_of_wstep.
  - intros body w z [Hc Hl]. cbn. unfold compressed_into_bytes. wp_step.
    apply wp_alloc_vec; [by vm_compute|]. wp_steps.
    eapply wp_never_mono; [by apply compressed_reader_spec|]. intros rd w1 [Hw1 Hrd]. wp_steps.
    eapply wp_mono; [by apply (read_to_end_spec fuel rd w1 z None)| |].
    + intros got [rd' w2] (Hw2 & _ & -> & Hrd'). wp_step.
      eapply wp_never_mono; [by eapply (drop_alive _ rd' w2), holds_alive|].
      intros [] w3 Hw3. apply wp_ret. split; [|done]. etrans; [done|]. by etrans.
    + by intros e [rd' w2] (_ & _ & ?).
  - intros body w z Hc. by apply compressed_reader_spec.
  - intros body w P (z & Hc & HP). cbn. unfold compressed_into_chunks. wp_step.
    eapply wp_never_mono; [by apply compressed_reader_spec|]. intros rd w1 [Hw1 Hrd].
    apply wp_ret. split; [done|]. by exists z, None.
Defined.

(** Its chunks are sound. *)
Lemma reader_items_sound z items :
  reader_items None z None items -> (N.of_nat (length z) <= isize_max)%N -> Forall sound_item items.
Proof.
  intros Hi. remember None as l eqn:Hl in Hi. remember None as f eqn:Hf in Hi. revert Hl Hf.
  induction Hi as [|l e|l bs rest f items Hbs Hlen Hi IH|]; intros Hl Hf Hmax;
    [constructor|done|subst l|done].
  rewrite length_app in Hmax. constructor; [split; [done|lia]|]. apply IH; [done|done|lia].
Qed.

Lemma compressed_sends encoding (body : Compressed B) w bs :
  reader_of (compressed_0 body) w bs -> S (length (gzip bs)) < fuel ->
  (N.of_nat (length (gzip bs)) <= isize_max)%N ->
  match encoding with FixedLength _ => False | _ => True end ->
  sends encoding body w (encoded encoding (gzip bs)).
Proof.
  intros Hr Hl Hmax He. assert (Hc : compresses body w (gzip bs)) by by exists bs.
  destruct encoding as [n| |]; [done| |].
  - exists (reader_items None (gzip bs) None). split; [by exists (gzip bs)|]. intros items Hi.
    destruct (reader_items_data _ _ _ _ Hi) as [_ Hlen].
    split_and!; [lia|by eapply reader_items_no_error|]. exists items.
    split_and!; [by eapply reader_items_sound|lia|done|].
    by eapply (reader_items_payload None).
  - exists (gzip bs). split_and!; [done|lia|done].
Qed.
End laws.

(** ** What a client gets *)
Section properties.
Context `{!Gzip} `{!GzipFormat} `{!HttpApi} `{!HttpApiLaws} `{!HttpHeadLaws} `{!Fuel}.
Context {W S B : Type} `{!World W} `{!GzipLaws W} `{!Write W S} `{!WriteLaws W S}
  `{!HttpBody W B} `{!HttpBodyLaws W B}.
Context {V R : Type} `{!World V} `{!BufRead V R} `{!Drop V R} `{!BufReadLaws V R}.
Implicit Types (s : S) (w : W) (r : R) (v : V).

(** C37. A response with a compressed body, as in compress.rs, is read by [parse_response]
    with a body that decompresses to the bytes of the body inside; its length is not known
    when it is written, so it is sent in chunks, or to the end of an HTTP/1.0
    connection. *)
Theorem compressed_round_trip {U C} (res : Response U C (Compressed B)) s w encoding headers bs :
  res_version res = HTTP_10 \/ res_version res = HTTP_11 ->
  status_from_u16 (res_status res) = Some (res_status res) ->
  plain_framing (res_headers res) -> cl_get (res_headers res) = None ->
  response_framing (res_version res) (res_headers res) None = inl (encoding, headers) ->
  sendable headers -> droppable (res_body res) w ->
  reader_of (compressed_0 (res_body res)) w bs -> Datatypes.S (length (gzip bs)) < fuel ->
  (N.of_nat (length (gzip bs)) <= isize_max)%N ->
  wp (write_response res true)
     (fun _ '(s', w') => exists text, written s' w' = written s w ++ text /\
        forall r v, holds r v text None -> length text < fuel ->
          wp (response_with_bytes (U := U) (C := C) r)
             (fun '(res', got) _ => res_status res' = res_status res /\
                same_headers headers (res_headers res') /\ gunzip got = Some bs) never v)
     (fun _ _ => can_fail W S) (s, w).
Proof.
  intros Hv Hst Hpl Hcl Hf Hsend Hd Hr Hfu Hmax.
  assert (Ha : announced encoding headers).
  { eapply response_framing_announced; [exact Hv|exact Hpl| |exact Hf]; done. }
  assert (He : match encoding with FixedLength _ => False | _ => True end).
  { unfold response_framing, response_encoding in Hf. rewrite Hcl in Hf.
    by destruct (_ && _); [|destruct (_ && _)]; injection Hf as <- _. }
  eapply wp_mono; [eapply (write_response_on res true); [exact Hf|exact Hd|by apply compressed_sends]| |].
  - intros o [s' w'] ((out & Ho & _ & Hw) & _). eexists. split; [exact Hw|].
    intros r v Hrd Hlt. eapply wp_never_mono.
    + eapply (response_found r v _ _ headers encoding (gzip bs) out [] None); rewrite ?app_nil_r; done.
    + intros [res' got] v' (? & _ & ? & ->). split_and!; [done|done|apply gunzip_gzip].
  - by intros e [s' w'] (out & _ & Hc & _).
Qed.
End properties.
