(* ===== verification/Files.v ===== *)
(** * Files: the service of src/examples/file.rs

    It opens a file for each request and answers with it. *)
From stdpp Require Import base list gmap strings.
From Stdlib Require Import Strings.Byte NArith Lia.
From S2P Require Import Prelude Errors StdIo Buffered HttpApi Mpsc ReadQueue QueueLaws.
From S2P Require Import HttpBody Body BodyLaws Message MessageLaws ChunkedLaws Request.
From S2P Require Import RequestLaws Response ResponseLaws Upgrade Tls Connection ConnLaws.
From S2P Require Import Server Reference IncomingLaws ServiceLaws ServerLaws Examples Routes.

(** [File::open] and [File::metadata]: what the path leads to at the time of the call, and
    whether it is a file, with its length *)
Class FileSystem (W F : Type) := {
  file_read :: Read W F;
  file_drop :: Drop W F;
  open_file : forall {E}, ST W E ((F * ((bool * N) + io_error)) + io_error);
}.
#[export] Hint Mode FileSystem ! ! : typeclass_instances.

Section service.
Context `{!HttpApi} `{!Fuel} {W F C Hd : Type} `{!FileSystem W F}.
Context `{!Conn W C} `{!HasStore W (BufReader C)}.

Abbreviation FileBody := (Body IterVec F).

(** The two arms of the closure *)
Definition file_response (file : FileBody + io_error) : Response (UpgradeExtension Hd) C FileBody :=
  match file with
  | inl file => status_body STATUS_OK file
  | inr _ => status_body STATUS_NOT_FOUND Body_empty
  end.

(** The closure. A file that is not used is closed at once, the request at the end. *)
Definition file_call (req : Request (IncomingBody C))
  : ST (unit * W) boxed_error (Response (UpgradeExtension Hd) C FileBody) :=
  let! opened := zoom_r open_file in
  let file := Body_try_from_path opened in
  zoom_r (match opened, file with
          | inl (f, _), inr _ => drop_value f
          | _, _ => ret tt
          end);;;
  zoom_r (drop_value (req_body req));;;
  ret (file_response file).

Definition file_service : Service (W := W) (C := C) (A := unit) (Hd := Hd) := {|
  SBody := FileBody;
  call := file_call;
  should_continue := fun E => default_should_continue;
|}.
End service.

Section laws.
Context `{!HttpApi} `{!Fuel} {W F C Hd : Type} `{!World W} `{!FileSystem W F} `{!ReadLaws W F}.
Context `{!Conn W C} `{!HasStore W (BufReader C)}.
Implicit Types (w : W).

(** What the response of file.rs is, by what the path leads to: the file with its
    length, all of whose bytes are read from the body; or 404 without a body, for a
    directory and for what cannot be opened or examined. *)
Theorem file_served (opened : (F * ((bool * N) + io_error)) + io_error) w :
  match opened with
  | inl (f, inl (true, n)) => (n < 2 ^ 63)%N /\ N.to_nat n < fuel /\
      exists bs, holds f w bs None /\ N.of_nat (length bs) = n
  | _ => True
  end ->
  let res := file_response (C := C) (Hd := Hd) (Body_try_from_path opened) in
  match opened with
  | inl (f, inl (true, n)) =>
      res_status res = STATUS_OK /\ len (W := W) (res_body res) = Some n /\
      wp (into_bytes (res_body res)) (fun got _ => holds f w got None /\ N.of_nat (length got) = n) never w
  | _ => res_status res = STATUS_NOT_FOUND /\ len (W := W) (res_body res) = Some 0%N
  end.
Proof.
  destruct opened as [[f [[[] n]|e]]|e]; [|done..]. intros (Hn & Hf & bs & Hr & Hl).
  cbn. assert (Hw : wrap64 n = n) by (apply wrap64_id; lia). rewrite !Hw.
  split_and!; [done|done|].
  eapply wp_never_mono; [apply (body_into_bytes_spec _ w bs)|].
  - cbn. unfold isize_max. split_and!; [|lia|lia]. exists bs, None. rewrite Hw, take_ge by lia.
    split_and!; [done..|]. by destruct (n <=? _)%N.
  - intros got w' [_ ->]. by split.
Qed.
End laws.
