(* ===== verification/WebSocket.v ===== *)
(** * WebSocket: the service of src/examples/websocket.rs

    It answers the handshake of a WebSocket and echoes its text messages. The protocol is
    that of the crate tungstenite, a parameter. *)
From stdpp Require Import base list gmap strings.
From Stdlib Require Import Strings.Byte NArith Lia.
From S2P Require Import Prelude Errors StdIo Buffered HttpApi Mpsc ReadQueue.
From S2P Require Import HttpBody Body Message Request Response Upgrade Tls Connection Server.

(** [tungstenite::{WebSocket, Message}] on connections [C]: [create_response] makes a
    response without a body from the head of a request. *)
Class Tungstenite `{!HttpApi} (W C : Type) := {
  WebSocket : Type;
  WsMessage : Type;
  ws_drop :: Drop W WebSocket;
  create_response : Method -> Uri -> Version -> HeaderMap -> (N * HeaderMap) + boxed_error;
  from_raw_socket : forall {E}, C -> ST W E WebSocket;
  ws_read : forall {E}, ST (WebSocket * W) E (WsMessage + boxed_error);
  ws_send : forall {E}, WsMessage -> ST (WebSocket * W) E (unit + boxed_error);
  is_text : WsMessage -> bool;
}.
#[export] Hint Mode Tungstenite - ! ! : typeclass_instances.

Section service.
Context `{!HttpApi} `{!Fuel} {W C : Type} `{!Tungstenite W C}.
Context `{!Conn W C} `{!HasStore W (BufReader C)}.
Abbreviation Ws := (WebSocket (W := W) (C := C)).

(** [while let Ok(msg) = ws.read()] *)
Fixpoint ws_echo_loop {E} (n : nat) : ST (Ws * W) E unit :=
  match n with
  | O => no_fuel
  | S n =>
      let! msg := ws_read in
      match msg with
      | inr _ => ret tt
      | inl msg =>
          let! sent := if is_text msg then ws_send msg else ret (inl tt) in
          match sent with
          | inl _ => ws_echo_loop n
          | inr _ => ret tt
          end
      end
  end.

(** The closure of [upgrade] *)
Definition ws_echo {E} (stream : C) : ST W E unit :=
  let! ws := from_raw_socket stream in
  let! (_, ws) := borrow (ws_echo_loop fuel) ws in
  drop_value ws.

Inductive EchoHandler := WsEcho.
#[export] Instance echo_handler : UpgradeHandler W EchoHandler C := fun E _ stream => ws_echo stream.

(** The closure of [serve]: [req.map(|_| ())] drops the body, and [map] keeps the head of
    the response around the empty body of [upgrade]. *)
Definition websocket_call (req : Request (IncomingBody C))
  : ST (unit * W) boxed_error (Response (UpgradeExtension EchoHandler) C unit) :=
  zoom_r (drop_value (req_body req));;;
  match create_response (W := W) (C := C) (req_method req) (req_uri req) (req_version req) (req_headers req) with
  | inl (status, headers) =>
      ret (upgrade (Build_Response status HTTP_11 headers no_extensions tt) WsEcho)
  | inr e => fail e
  end.

Definition websocket_service : Service (W := W) (C := C) (A := unit) (Hd := EchoHandler) := {|
  SBody := unit;
  call := websocket_call;
  should_continue := fun E => default_should_continue;
|}.
End service.

(** ** What is echoed

    [ws_incoming] are the messages that are still to come before a read fails, [ws_sent]
    those that were sent; a send can only fail when [ws_can_fail]. *)
Class TungsteniteLaws `{!HttpApi} (W C : Type) `{!Tungstenite W C} := {
  ws_can_fail : Prop;
  ws_incoming : WebSocket (C := C) -> W -> list (WsMessage (W := W) (C := C));
  ws_sent : WebSocket (C := C) -> W -> list (WsMessage (W := W) (C := C));
  ws_read_spec E (ws : WebSocket (C := C)) (w : W) :
    wp (ws_read (E := E))
       (fun r '(ws', w') => ws_sent ws' w' = ws_sent ws w /\
          match ws_incoming ws w with
          | [] => exists e, r = inr e
          | msg :: msgs => r = inl msg /\ ws_incoming ws' w' = msgs
          end) never (ws, w);
  ws_send_spec E (ws : WebSocket (C := C)) (w : W) (msg : WsMessage (C := C)) :
    wp (ws_send (E := E) msg)
       (fun r '(ws', w') =>
          match r with
          | inl _ => ws_sent ws' w' = ws_sent ws w ++ [msg] /\ ws_incoming ws' w' = ws_incoming ws w
          | inr _ => ws_can_fail /\ ws_sent ws' w' = ws_sent ws w
          end) never (ws, w);
}.
#[export] Hint Mode TungsteniteLaws - ! ! - : typeclass_instances.

Section laws.
Context `{!HttpApi} {W C : Type} `{!Tungstenite W C} `{!TungsteniteLaws W C}.
Abbreviation Ws := (WebSocket (W := W) (C := C)).

(** The handler sends the text messages that it reads back, in order and nothing else; it
    stops when the other side ends, or with the first message that cannot be sent. *)
Theorem ws_echo_texts {E} n (ws : Ws) (w : W) :
  length (ws_incoming ws w) < n ->
  wp (ws_echo_loop (E := E) n)
     (fun _ '(ws', w') => exists echoed, ws_sent ws' w' = ws_sent ws w ++ echoed /\
        echoed `prefix_of` filter is_text (ws_incoming ws w) /\
        (echoed = filter is_text (ws_incoming ws w) \/ ws_can_fail (W := W) (C := C))) never (ws, w).
Proof.
  revert ws w. induction n as [|n IH]; intros ws w Hn; [lia|]. cbn [ws_echo_loop]. wp_step.
  eapply wp_never_mono; [apply ws_read_spec|]. intros r [ws1 w1] [Hs1 Hr].
  destruct (ws_incoming ws w) as [|msg msgs]; [destruct Hr as [e ->]|destruct Hr as [-> Hin]].
  { apply wp_ret. exists []. rewrite app_nil_r. split_and!; [done|done|by left]. }
  rewrite filter_cons. destruct (is_text msg) eqn:Ht; cbn [decide].
  - rewrite decide_True by done. wp_step. eapply wp_never_mono; [apply ws_send_spec|].
    intros [[]|e] [ws2 w2].
    + intros [Hs2 Hin2]. eapply wp_never_mono; [apply IH; rewrite Hin2, Hin; cbn in Hn; lia|].
      intros [] [ws3 w3] (echoed & Hs3 & Hp & Hall). exists (msg :: echoed). rewrite Hin2, Hin in *. split_and!.
      * by rewrite Hs3, Hs2, Hs1, <-app_assoc.
      * by apply prefix_cons.
      * destruct Hall as [->|Hf]; [by left|by right].
    + intros [Hf Hs2]. apply wp_ret. exists []. rewrite Hs2, Hs1, app_nil_r.
      split_and!; [done|apply prefix_nil|by right].
  - rewrite decide_False by (by intros []). wp_steps.
    eapply wp_never_mono; [apply IH; rewrite Hin; cbn in Hn; lia|].
    intros [] [ws3 w3] (echoed & Hs3 & Hp & Hall). exists echoed. rewrite Hs3, Hs1, <-Hin. by split_and!.
Qed.
End laws.
