(* ===== verification/WsChat.v ===== *)
(** * WsChat: src/examples/websocket-chat.rs

    The chat of Chat.v over WebSockets: a user that joins and a message that is posted are
    told to everybody, the one who joins or posts included. Each connection has a thread
    that writes the events of its channel and a thread that reads messages; its handler waits
    for both. *)
From stdpp Require Import base list gmap strings.
From Stdlib Require Import Strings.Byte NArith Lia.
From S2P Require Import Prelude Errors StdIo HttpApi Mpsc HttpBody Body BodyLaws Buffered ReadQueue.
From S2P Require Import Message Request Response Upgrade Tls Connection Server Examples.
From S2P Require Import Chat WebSocket.

Section ops.
Context `{!HttpApi} {W : Type} `{!HasStore W Event} `{!HasChat W}.
(** The order in which the map is visited *)
Context (visit : gmap N (Sender Event) -> list (N * Sender Event)).

(** [users.retain(|_id, tx| tx.send(event.clone()).is_ok())] *)
Definition broadcast {E} (event : Event) : ST W E unit :=
  let! w := get_state in
  publish (fun _ => false) event (visit (users (get_chat w))).

(** The start of the handler: a new user, inserted and announced under one lock *)
Definition ws_join {E} : ST W E (N * Receiver Event) :=
  let! id := fetch_add in
  let! (tx, rx) := channel in
  insert_user id tx;;;
  broadcast (User id);;;
  ret (id, rx).

Context {C : Type} `{!Tungstenite W C}.
Abbreviation Ws := (WebSocket (W := W) (C := C)).
Abbreviation WsMsg := (WsMessage (W := W) (C := C)).
(** [serde_json::to_string] as a text message, and [Message::to_text] *)
Context (to_message : Event -> WsMsg) (to_text : WsMsg -> bytes + boxed_error).

(** One iteration of the thread that writes: whether it goes on *)
Definition ws_write_step {E} (rx : Receiver Event) : ST (Ws * W) E bool :=
  let! event := zoom_r (recv rx) in
  match event with
  | None => ret false
  | Some event =>
      let! sent := ws_send (to_message event) in
      ret (match sent with inl _ => true | inr _ => false end)
  end.

(** One iteration of the thread that reads *)
Definition ws_read_step {E} (id : N) : ST (Ws * W) E bool :=
  let! msg := ws_read in
  match msg with
  | inr _ => ret false
  | inl msg =>
      match to_text msg with
      | inl text => zoom_r (broadcast (Message id text));;; ret true
      | inr _ => ret false
      end
  end.

(** What the handler of a connection has made: the id of its user, the receiver of its
    events, and the WebSockets of its two threads, [None] when they have ended *)
Record ws_session := {
  ws_id : N;
  ws_rx : Receiver Event;
  ws_writer : option Ws;
  ws_reader : option Ws;
}.

Context `{!Conn W C}.

(** The handler up to the first [join] *)
Definition ws_handler_start {E} (stream : C) : ST W E ws_session :=
  let! (id, rx) := ws_join in
  let! cloned := clone stream in
  let! read_ws := from_raw_socket cloned in
  let! write_ws := from_raw_socket stream in
  ret (Build_ws_session id rx (Some write_ws) (Some read_ws)).

(** The thread that writes: an iteration; when the loop ends, its receiver and its WebSocket
    are dropped. *)
Definition ws_write_thread {E} (s : ws_session) : ST W E ws_session :=
  match ws_writer s with
  | None => ret s
  | Some ws =>
      let! (more, ws) := borrow (ws_write_step (ws_rx s)) ws in
      if more : bool
      then ret (Build_ws_session (ws_id s) (ws_rx s) (Some ws) (ws_reader s))
      else
        drop_receiver (ws_rx s);;;
        drop_value ws;;;
        ret (Build_ws_session (ws_id s) (ws_rx s) None (ws_reader s))
  end.

(** The thread that reads *)
Definition ws_read_thread {E} (s : ws_session) : ST W E ws_session :=
  match ws_reader s with
  | None => ret s
  | Some ws =>
      let! (more, ws) := borrow (ws_read_step (ws_id s)) ws in
      if more : bool
      then ret (Build_ws_session (ws_id s) (ws_rx s) (ws_writer s) (Some ws))
      else
        drop_value ws;;;
        ret (Build_ws_session (ws_id s) (ws_rx s) (ws_writer s) None)
  end.

(** [write_ws.join().unwrap(); read_ws.join().unwrap();]: the handler returns when both
    threads have ended. *)
Definition ws_joined (s : ws_session) : bool :=
  match ws_writer s, ws_reader s with None, None => true | _, _ => false end.

(** *** The closure *)
Inductive WsChatHandler := WsChat.

(** [typed_get::<headers::Upgrade>().is_some()], and the text of websocket-chat.html *)
Context `{!Fuel} `{!HasStore W (BufReader C)} (has_upgrade : HeaderMap -> bool) (html : bytes).

Definition ws_chat_call (req : Request (IncomingBody C))
  : ST (unit * W) boxed_error (Response (UpgradeExtension WsChatHandler) C (IncomingBody C)) :=
  zoom_r (drop_value (req_body req));;;
  if has_upgrade (req_headers req)
  then
    match create_response (W := W) (C := C) (req_method req) (req_uri req) (req_version req) (req_headers req) with
    | inl (status, headers) =>
        ret (upgrade (Build_Response status HTTP_11 headers no_extensions Body_empty) WsChat)
    | inr e => fail e
    end
  else
    ret (Build_Response STATUS_OK HTTP_11 (hm_insert (b "content-type") (b "text/html") hm_new)
           no_extensions (Body_from_vec html)).

Definition ws_chat_service : Service (W := W) (C := C) (A := unit) (Hd := WsChatHandler) := {|
  SBody := IncomingBody C;
  call := ws_chat_call;
  should_continue := fun E => default_should_continue;
|}.
End ops.
Arguments ws_session {_} W C {_}.
Arguments Build_ws_session {_ W C _} _ _ _ _.
Arguments ws_id {_ W C _} _.
Arguments ws_rx {_ W C _} _.
Arguments ws_writer {_ W C _} _.
Arguments ws_reader {_ W C _} _.
Arguments ws_joined {_ W C _} _.
