(* ===== verification/WsChatLaws.v ===== *)
(** * WsChatLaws: what websocket-chat.rs promises

    The transition system of all that can happen to the handlers of websocket-chat.rs, their
    threads and their connections, in every interleaving. *)
From stdpp Require Import base list gmap strings.
From Stdlib Require Import Strings.Byte NArith Lia.
From S2P Require Import Prelude Errors StdIo HttpApi Mpsc HttpBody Body BodyLaws Buffered ReadQueue.
From S2P Require Import Message Request Response Upgrade Tls Connection Server Examples.
From S2P Require Import Chat ChatLaws WebSocket WsChat.

(** ** A user joins *)
Section join.
Context `{!HttpApi}.
Context (visit : gmap N (Sender Event) -> list (N * Sender Event)).
Hypothesis visit_all : forall us, visit us ≡ₚ map_to_list us.

(** Who is told: every user that still listens has the event at the end of its channel, the
    others are removed. *)
Definition told (event : Event) (us : gmap N (Sender Event)) (events events' : store Event)
    (us' : gmap N (Sender Event)) : Prop :=
  forall id t, us !! id = Some t ->
    match chans events !! tx t with
    | Some (Build_chan q a true) =>
        us' !! id = Some t /\ chans events' !! tx t = Some (Build_chan (q ++ [event]) a true)
    | _ => us' !! id = None
    end.

Lemma broadcast_spec {E} event (r : room) :
  senders_distinct (users (r_chat r)) ->
  exists us events, broadcast visit (E := E) event r =
      Ok tt (Build_room (Build_chat us (next_user_id (r_chat r)) (forwarders (r_chat r))) events (r_bodies r)) /\
    us ⊆ users (r_chat r) /\ told event (users (r_chat r)) (r_events r) events us.
Proof.
  intros Hd.
  destruct (publish_spec (fun _ => false) event E (visit (users (r_chat r))) r (visit_all _) Hd)
    as (us & events & Hp & _ & Hus & Hin & _).
  exists us, events. split; [exact Hp|]. subst us. split; [apply map_filter_subseteq|].
  intros id t Ht. pose proof (Hin id t Ht) as Hc.
  destruct (chans (r_events r) !! tx t) as [[q a []]|] eqn:Hch; [split| |].
  - apply map_lookup_filter_Some_2; [done|]. unfold stays. cbn. by rewrite Hch.
  - exact Hc.
  - apply map_lookup_filter_None_2. right. intros t' Ht'. rewrite Ht in Ht'. injection Ht' as <-.
    unfold stays. cbn. rewrite Hch. by intros [].
  - apply map_lookup_filter_None_2. right. intros t' Ht'. rewrite Ht in Ht'. injection Ht' as <-.
    unfold stays. cbn. rewrite Hch. by intros [].
Qed.

(** Joining websocket-chat.rs: everybody who still listens is told the new id, the new
    user as its first event. *)
Theorem ws_join_told {E} (r : room) :
  senders_distinct (users (r_chat r)) -> users (r_chat r) !! next_user_id (r_chat r) = None ->
  (forall id t, users (r_chat r) !! id = Some t -> tx t < next_chan (r_events r)) ->
  let id := next_user_id (r_chat r) in
  exists r', ws_join visit (E := E) r = Ok (id, Build_Receiver (next_chan (r_events r))) r' /\
    users (r_chat r') !! id = Some (Build_Sender (next_chan (r_events r))) /\
    chans (r_events r') !! next_chan (r_events r) = Some (Build_chan [User id] true true) /\
    told (User id) (users (r_chat r)) (r_events r) (r_events r') (users (r_chat r')).
Proof.
  intros Hd Hfresh Hold id. set (c := next_chan (r_events r)).
  set (r1 := Build_room (Build_chat (<[id := Build_Sender c]> (users (r_chat r))) (wrap64 (id + 1)) (forwarders (r_chat r)))
    (Build_store (S c) (<[c := Build_chan [] true true]> (chans (r_events r)))) (r_bodies r)).
  assert (Hrun : ws_join visit (E := E) r =
    (broadcast visit (User id);;; ret (id, Build_Receiver c)) r1).
  { unfold ws_join, fetch_add, insert_user, modify_chat, modify, bind, get_state, ret, channel, the_store.
    cbn. by rewrite Hfresh. }
  destruct (broadcast_spec (E := E) (User id) r1) as (us & events & Hb & Hsub & Htold).
  { intros i j t. cbn. intros [[<- <-]|[Hne Hi]]%lookup_insert_Some [[<- Ht]|[Hne' Hj]]%lookup_insert_Some.
    - done.
    - apply Hold in Hj. cbn in Hj. unfold c in Hj. lia.
    - subst t. apply Hold in Hi. cbn in Hi. unfold c in Hi. lia.
    - by apply (Hd i j t). }
  eexists. split; [rewrite Hrun; unfold bind; by rewrite Hb|]. cbn.
  pose proof (Htold id (Build_Sender c)) as Hnew. cbn in Hnew. rewrite !lookup_insert_eq in Hnew.
  destruct (Hnew eq_refl) as [Hu Hc]. split_and!; [exact Hu|exact Hc|].
  intros i t Hi. assert (i <> id) by (intros ->; unfold id in Hi; by rewrite Hfresh in Hi).
  specialize (Htold i t). cbn in Htold. rewrite lookup_insert_ne in Htold by done.
  specialize (Htold Hi). rewrite lookup_insert_ne in Htold; [done|].
  apply Hold in Hi. unfold c. lia.
Qed.
End join.

(** ** The program *)
Section hub.
Context `{!HttpApi} {Net C : Type}.

(** The map and the channels, and the connections *)
Abbreviation W := (room * Net)%type.
#[local] Instance world_events : HasStore W Event := {|
  get_store w := r_events w.1;
  set_store s w := (Build_room (r_chat w.1) s (r_bodies w.1), w.2);
|}.
#[local] Instance world_chat : HasChat W := {|
  get_chat w := r_chat w.1;
  set_chat c w := (Build_room c (r_events w.1) (r_bodies w.1), w.2);
|}.

Context `{!Conn W C} `{!Tungstenite W C}.
Context (to_message : Event -> WsMessage (W := W) (C := C))
  (to_text : WsMessage (W := W) (C := C) -> bytes + boxed_error).
Abbreviation Ws := (WebSocket (W := W) (C := C)).
Abbreviation session := (ws_session W C).

(** The connections do not touch the map and the channels. *)
Class NetworkOnly := {
  clone_room E (c c' : C) (w w' : W) : clone (E := E) c w = Ok c' w' -> w'.1 = w.1;
  raw_room E (c : C) (ws : Ws) (w w' : W) : from_raw_socket (E := E) c w = Ok ws w' -> w'.1 = w.1;
  read_room E (ws ws' : Ws) (w w' : W) x : ws_read (E := E) (ws, w) = Ok x (ws', w') -> w'.1 = w.1;
  send_room E (ws ws' : Ws) (w w' : W) msg x :
    ws_send (E := E) msg (ws, w) = Ok x (ws', w') -> w'.1 = w.1;
  drop_room E (ws : Ws) (w w' : W) : drop_value (E := E) ws w = Ok tt w' -> w'.1 = w.1;
}.

(** *** Its state

    With the events that were sent to the user, and how many there had been when it joined;
    and all events, in the order in which they were told to the users of the map. *)
Record ws_entry := {
  e_session : session;
  e_got : list Event;
  e_since : nat;
}.
Record ws_hub := {
  wh_world : W;
  wh_entries : list ws_entry;
  wh_log : list Event;
}.

Definition new_ws_hub (net : Net) : ws_hub := {|
  wh_world := ({|
    r_chat := {| users := ∅; next_user_id := 1; forwarders := [] |};
    r_events := {| next_chan := 0; chans := ∅ |};
    r_bodies := {| next_chan := 0; chans := ∅ |} |}, net);
  wh_entries := [];
  wh_log := [];
|}.

(** *** Its steps *)

(** The event that the writing thread takes and ws_sends; the event that the reading thread
    ws_tells the users *)
Definition ws_sends (s : session) (w : W) : list Event :=
  match ws_writer s, recv (E := boxed_error) (ws_rx s) w with
  | Some ws, Ok (Some event) w' =>
      match ws_send (E := boxed_error) (to_message event) (ws, w') with
      | Ok (inl _) _ => [event]
      | _ => []
      end
  | _, _ => []
  end.
Definition ws_tells (s : session) (w : W) : list Event :=
  match ws_reader s with
  | Some ws =>
      match ws_read (E := boxed_error) (ws, w) with
      | Ok (inl msg) _ => match to_text msg with inl text => [Message (ws_id s) text] | inr _ => [] end
      | _ => []
      end
  | None => []
  end.

(** The map may be visited in another order at each step, and the connections change on
    their own. *)
Inductive ws_hub_step : ws_hub -> ws_hub -> Prop :=
| ws_step_join visit stream w w' es log s :
    (forall us, visit us ≡ₚ map_to_list us) ->
    ws_handler_start visit (E := boxed_error) stream w = Ok s w' ->
    ws_hub_step (Build_ws_hub w es log)
                (Build_ws_hub w' (es ++ [Build_ws_entry s [] (length log)]) (log ++ [User (ws_id s)]))
| ws_step_write w w' es log i s s' got since :
    es !! i = Some (Build_ws_entry s got since) ->
    ws_write_thread to_message (E := boxed_error) s w = Ok s' w' ->
    ws_hub_step (Build_ws_hub w es log)
                (Build_ws_hub w' (<[i := Build_ws_entry s' (got ++ ws_sends s w) since]> es) log)
| ws_step_read visit w w' es log i s s' got since :
    (forall us, visit us ≡ₚ map_to_list us) ->
    es !! i = Some (Build_ws_entry s got since) ->
    ws_read_thread visit to_text (E := boxed_error) s w = Ok s' w' ->
    ws_hub_step (Build_ws_hub w es log)
                (Build_ws_hub w' (<[i := Build_ws_entry s' got since]> es) (log ++ ws_tells s w))
| ws_step_net r net net' es log :
    ws_hub_step (Build_ws_hub (r, net) es log) (Build_ws_hub (r, net') es log).

Definition ws_reachable (net : Net) (h : ws_hub) : Prop := rtc ws_hub_step (new_ws_hub net) h.

(** *** What the operations do to the map and the channels *)

(** An operation of the program leaves the connections alone. *)
Definition beside {E T} (net : Net) (o : outcome room E T) : outcome W E T :=
  match o with
  | Ok x r => Ok x (r, net)
  | Err e r => Err e (r, net)
  | Panic => Panic
  | Block => Block
  | NoFuel => NoFuel
  end.

(** [m] on the whole world is [m'] on the map and the channels. *)
Definition lifts {E T} (m : ST W E T) (m' : ST room E T) : Prop :=
  forall r net, m (r, net) = beside net (m' r).

Lemma lifts_ret {E T} (x : T) : lifts (E := E) (ret x) (ret x).
Proof. done. Qed.

Lemma lifts_bind {E T U} (m : ST W E T) m' (k : T -> ST W E U) k' :
  lifts m m' -> (forall x, lifts (k x) (k' x)) -> lifts (bind m k) (bind m' k').
Proof.
  intros Hm Hk r net. unfold bind. rewrite Hm. destruct (m' r) as [x r'|e r'| | |]; [apply Hk|done..].
Qed.

Lemma lifts_send {E} (t : Sender Event) event : lifts (E := E) (send t event) (send t event).
Proof.
  intros r net. unfold send, the_store. cbn.
  by destruct (chans (r_events r) !! tx t) as [[q a []]|].
Qed.

Lemma lifts_drop_sender {E} (t : Sender Event) : lifts (E := E) (drop_sender t) (drop_sender t).
Proof. intros r net. unfold drop_sender, the_store. cbn. by destruct (chans (r_events r) !! tx t). Qed.

Lemma lifts_retain_users {E} skip event entries :
  lifts (E := E) (retain_users skip event entries) (retain_users skip event entries).
Proof.
  induction entries as [|[id t] entries IH]; [apply lifts_ret|]. cbn [retain_users].
  apply lifts_bind.
  - destruct (skip _); [apply lifts_ret|]. apply lifts_bind; [apply lifts_send|intros x; apply lifts_ret].
  - intros keep. apply lifts_bind; [destruct keep; [apply lifts_ret|apply lifts_drop_sender]|].
    intros _. apply lifts_bind; [exact IH|]. intros kept. apply lifts_ret.
Qed.

Lemma lifts_publish {E} skip event entries :
  lifts (E := E) (publish skip event entries) (publish skip event entries).
Proof. apply lifts_bind; [apply lifts_retain_users|]. by intros kept r net. Qed.

Lemma broadcast_world {E} visit event r net :
  (forall us, visit us ≡ₚ map_to_list us) -> senders_distinct (users (r_chat r)) ->
  exists us events, broadcast visit (W := W) (E := E) event (r, net) =
      Ok tt (Build_room (Build_chat us (next_user_id (r_chat r)) (forwarders (r_chat r))) events (r_bodies r), net) /\
    next_chan events = next_chan (r_events r) /\
    us = filter (stays (fun _ => false) (chans (r_events r))) (users (r_chat r)) /\
    (forall id t, users (r_chat r) !! id = Some t ->
       chans events !! tx t = posted (fun _ => false) event id <$> chans (r_events r) !! tx t) /\
    (forall c, (forall id, users (r_chat r) !! id <> Some (Build_Sender c)) ->
       chans events !! c = chans (r_events r) !! c).
Proof.
  intros Hv Hd.
  destruct (publish_spec (fun _ => false) event E (visit (users (r_chat r))) r (Hv _) Hd)
    as (us & events & Hp & Hfacts).
  exists us, events. split; [|exact Hfacts]. unfold broadcast, bind, get_state.
  cbn [get_chat world_chat fst]. by rewrite lifts_publish, Hp.
Qed.

(** *** The invariant

    The [i]-th connection has the user [i + 1] and the channel [i]. *)
Record room_ok (r : room) (n : nat) : Prop := {
  room_next : next_user_id (r_chat r) = wrap64 (N.of_nat (S n));
  room_chan : next_chan (r_events r) = n;
  room_users id t : users (r_chat r) !! id = Some t ->
    exists i, i < n /\ id = id_of i /\ t = Build_Sender i;
}.

(** All that the user was told since it joined has been sent or is in its channel, as long as
    its writing thread runs; then what was sent is a prefix of it. *)
Definition ws_entry_ok (r : room) (log : list Event) (i : nat) (e : ws_entry) : Prop :=
  ws_id (e_session e) = id_of i /\ ws_rx (e_session e) = Build_Receiver i /\ e_since e <= length log /\
  exists q a l, chans (r_events r) !! i = Some (Build_chan q a l) /\
    match ws_writer (e_session e) with
    | Some _ => l = true /\ a = true /\ users (r_chat r) !! id_of i = Some (Build_Sender i) /\
                e_got e ++ q = drop (e_since e) log
    | None => l = false /\ e_got e `prefix_of` drop (e_since e) log
    end.

Record ws_hub_ok (h : ws_hub) : Prop := {
  hub_room : room_ok (wh_world h).1 (length (wh_entries h));
  hub_entries i e : wh_entries h !! i = Some e ->
    ws_entry_ok (wh_world h).1 (wh_log h) i e /\ wh_log h !! e_since e = Some (User (ws_id (e_session e)));
}.

Lemma room_distinct r n : room_ok r n -> senders_distinct (users (r_chat r)).
Proof.
  intros Hok id id' t Hid Hid'. destruct (room_users _ _ Hok _ _ Hid) as (i & _ & -> & ->).
  destruct (room_users _ _ Hok _ _ Hid') as (j & _ & -> & [= ->]). done.
Qed.

(** An event that is told to the users *)
Lemma tell_ok {E} visit event r net n log :
  (forall us, visit us ≡ₚ map_to_list us) -> room_ok r n ->
  exists r', broadcast visit (W := W) (E := E) event (r, net) = Ok tt (r', net) /\ room_ok r' n /\
    forall i e, ws_entry_ok r log i e -> ws_entry_ok r' (log ++ [event]) i e.
Proof.
  intros Hv Hok.
  destruct (broadcast_world (E := E) visit event r net Hv (room_distinct _ _ Hok))
    as (us & events & Hb & Hnext & Hus & Hin & Hout).
  eexists. split; [exact Hb|]. split.
  - split; cbn; [apply (room_next _ _ Hok)|by rewrite Hnext; apply (room_chan _ _ Hok)|].
    intros id t. rewrite Hus. intros [Ht _]%map_lookup_filter_Some. by apply (room_users _ _ Hok).
  - intros i e (Hid & Hrx & Hs & q & a & l & Hc & Hw). unfold ws_entry_ok. cbn.
    rewrite length_app, drop_app_le by done. split_and!; [done|done|cbn; lia|].
    destruct (ws_writer (e_session e)) as [ws|].
    + destruct Hw as (-> & -> & Hu & Hgot). pose proof (Hin _ _ Hu) as Hc'. cbn in Hc'. rewrite Hc in Hc'.
      exists (q ++ [event]), true, true. split_and!; [done|done|done| |by rewrite app_assoc, Hgot].
      rewrite Hus. apply map_lookup_filter_Some_2; [done|]. unfold stays. cbn. by rewrite Hc.
    + destruct Hw as [-> Hp]. assert (Hdead : exists a', chans events !! i = Some (Build_chan q a' false)).
      { destruct (users (r_chat r) !! id_of i) as [t|] eqn:Hu.
        - destruct (room_users _ _ Hok _ _ Hu) as (j & _ & <-%id_of_inj & ->).
          pose proof (Hin _ _ Hu) as Hc'. cbn in Hc'. rewrite Hc in Hc'. by exists false.
        - exists a. rewrite Hout; [done|]. intros id Hid'.
          destruct (room_users _ _ Hok _ _ Hid') as (j & _ & -> & [= <-]). congruence. }
      destruct Hdead as [a' Hc']. exists q, a', false. split_and!; [done|done|].
      by apply prefix_app_r.
Qed.

Lemma ws_entry_same r r' log i e :
  chans (r_events r') !! i = chans (r_events r) !! i ->
  users (r_chat r') !! id_of i = users (r_chat r) !! id_of i ->
  ws_entry_ok r log i e -> ws_entry_ok r' log i e.
Proof. intros Hc Hu (? & ? & ? & q & a & l & Hq & Hw). split_and!; [done..|]. exists q, a, l. by rewrite Hc, Hu. Qed.

(** *** Every step keeps it *)
Context `{!NetworkOnly}.

Lemma bind_ok_inv {S E T U} (m : ST S E T) (k : T -> ST S E U) s y s' :
  bind m k s = Ok y s' -> exists x s1, m s = Ok x s1 /\ k x s1 = Ok y s'.
Proof. unfold bind. destruct (m s) as [x s1|e s1| | |]; [|done..]. intros Hk. by exists x, s1. Qed.

Lemma borrow_ok_inv {E T} (m : ST (Ws * W) E T) (ws : Ws) w x ws' w' :
  borrow m ws w = Ok (x, ws') w' -> m (ws, w) = Ok x (ws', w').
Proof.
  unfold borrow. destruct (m (ws, w)) as [y [ws1 w1]|e [ws1 w1]| | |]; [|intros Hb|done..].
  - by intros [= <- <- <-].
  - apply bind_ok_inv in Hb as (? & ? & _ & ?). done.
Qed.

(** A connection is opened: all users, the new one included, are told. *)
Lemma start_ok visit stream r net s w' n log :
  (forall us, visit us ≡ₚ map_to_list us) -> room_ok r n -> (N.of_nat (S n) < 2 ^ 64)%N ->
  ws_handler_start visit (E := boxed_error) stream (r, net) = Ok s w' ->
  ws_id s = id_of n /\ room_ok w'.1 (S n) /\
  (forall i e, i < n -> ws_entry_ok r log i e -> ws_entry_ok w'.1 (log ++ [User (id_of n)]) i e) /\
  ws_entry_ok w'.1 (log ++ [User (id_of n)]) n (Build_ws_entry s [] (length log)).
Proof.
  intros Hv Hok Hn Hrun. pose proof (room_next _ _ Hok) as Hid. pose proof (room_chan _ _ Hok) as Hc.
  rewrite wrap64_id in Hid by done. change (N.of_nat (S n)) with (id_of n) in Hid.
  assert (Hnew : users (r_chat r) !! id_of n = None).
  { destruct (_ !! _) as [t|] eqn:Ht; [|done].
    destruct (room_users _ _ Hok _ _ Ht) as (i & Hi & Heq%id_of_inj & _). lia. }
  set (r1 := Build_room (Build_chat (<[id_of n := Build_Sender n]> (users (r_chat r)))
      (wrap64 (id_of n + 1)) (forwarders (r_chat r)))
    (Build_store (S n) (<[n := Build_chan [] true true]> (chans (r_events r)))) (r_bodies r)).
  assert (Hjoin : ws_join visit (E := boxed_error) (r, net) =
    (broadcast visit (User (id_of n));;; ret (id_of n, Build_Receiver n)) (r1, net)).
  { unfold ws_join, fetch_add, insert_user, modify_chat, modify, bind, get_state, ret, channel, the_store.
    cbn. rewrite Hid, Hc, Hnew. done. }
  assert (Hok1 : room_ok r1 (S n)).
  { split; cbn; [f_equal; unfold id_of; lia|done|].
    intros id t [[<- <-]|[_ Ht]]%lookup_insert_Some; [exists n; split_and!; [lia|done|done]|].
    destruct (room_users _ _ Hok _ _ Ht) as (i & Hi & Hit). exists i. split; [lia|done]. }
  destruct (tell_ok (E := boxed_error) visit (User (id_of n)) r1 net (S n) log Hv Hok1)
    as (r2 & Hb & Hok2 & Hent).
  apply bind_ok_inv in Hrun as ([id rx] & w1 & Hj & Hrun).
  rewrite Hjoin in Hj. unfold bind in Hj. rewrite Hb in Hj. injection Hj as <- <- <-.
  apply bind_ok_inv in Hrun as (cloned & w2 & Hcl%clone_room & Hrun).
  apply bind_ok_inv in Hrun as (rws & w3 & Hraw%raw_room & Hrun).
  apply bind_ok_inv in Hrun as (wws & w4 & Hraw'%raw_room & [= <- <-]).
  rewrite Hraw', Hraw, Hcl. cbn [fst]. split_and!; [done|done| |].
  - intros i e Hi He. apply Hent. eapply ws_entry_same; [..|exact He]; cbn.
    + rewrite lookup_insert_ne; [done|lia].
    + rewrite lookup_insert_ne; [done|]. intros Heq%id_of_inj. lia.
  - apply Hent. split_and!; [done|done|done|]. exists [], true, true. cbn.
    by rewrite !lookup_insert_eq, drop_ge by done.
Qed.

(** A thread that writes takes the oldest event; it ends with one that it cannot send. *)
Lemma write_thread_inv s ws w s' w' i q :
  ws_writer s = Some ws -> ws_rx s = Build_Receiver i ->
  chans (r_events w.1) !! i = Some (Build_chan q true true) ->
  ws_write_thread to_message (E := boxed_error) s w = Ok s' w' ->
  ws_id s' = ws_id s /\ ws_rx s' = ws_rx s /\ exists e q' c, q = e :: q' /\
    w'.1 = Build_room (r_chat w.1) (Build_store (next_chan (r_events w.1)) (<[i := c]> (chans (r_events w.1))))
             (r_bodies w.1) /\
    match ws_writer s' with
    | Some _ => c = Build_chan q' true true /\ ws_sends s w = [e]
    | None => c = Build_chan [] true false
    end.
Proof.
  intros Hws Hrx Hc Hrun. unfold ws_write_thread, ws_sends in *. rewrite Hws, Hrx in *.
  apply bind_ok_inv in Hrun as ([more ws1] & w1 & Hstep%borrow_ok_inv & Hrun).
  unfold ws_write_step, zoom_r, recv, the_store, update_chan in *. unfold bind at 1 in Hstep.
  cbn in Hstep. cbn [get_store world_events rx]. rewrite Hc in *. destruct q as [|e q]; [done|].
  cbn in *. apply bind_ok_inv in Hstep as (sent & [ws2 w2] & Hsend & [= <- -> ->]).
  pose proof (send_room _ _ _ _ _ _ _ Hsend) as Hroom. cbn in Hroom. rewrite Hsend.
  destruct sent as [[]|err].
  - injection Hrun as <- <-. split_and!; [done..|]. exists e, q, (Build_chan q true true). by split_and!.
  - apply bind_ok_inv in Hrun as ([] & w3 & Hdrop & Hrun).
    apply bind_ok_inv in Hrun as ([] & w4 & Hd%drop_room & [= <- <-]).
    split_and!; [done..|]. exists e, q, (Build_chan [] true false). cbn. split_and!; [done| |done].
    unfold drop_receiver, update_chan, the_store in Hdrop. cbn in Hdrop.
    rewrite Hroom in Hdrop. cbn in Hdrop. rewrite lookup_insert_eq, drop_events_eq in Hdrop.
    injection Hdrop as <-. rewrite Hd. cbn. by rewrite insert_insert_eq.
Qed.

(** A thread that reads ws_tells the users at most one event. *)
Lemma read_thread_inv visit s ws w s' w' :
  ws_reader s = Some ws ->
  ws_read_thread visit to_text (E := boxed_error) s w = Ok s' w' ->
  ws_id s' = ws_id s /\ ws_rx s' = ws_rx s /\ ws_writer s' = ws_writer s /\
  ((ws_tells s w = [] /\ w'.1 = w.1) \/
   exists event net w1, ws_tells s w = [event] /\
     broadcast visit (E := boxed_error) event (w.1, net) = Ok tt w1 /\ w'.1 = w1.1).
Proof.
  intros Hws Hrun. unfold ws_read_thread, ws_tells in *. rewrite Hws in *.
  apply bind_ok_inv in Hrun as ([more ws1] & w1 & Hstep%borrow_ok_inv & Hrun).
  apply bind_ok_inv in Hstep as (msg & [ws2 w2] & Hread & Hstep). rewrite Hread.
  pose proof (read_room _ _ _ _ _ _ Hread) as Hroom.
  assert (Hend : more = false -> w'.1 = w1.1 /\ ws_id s' = ws_id s /\ ws_rx s' = ws_rx s /\ ws_writer s' = ws_writer s).
  { intros ->. by apply bind_ok_inv in Hrun as ([] & w3 & Hd%drop_room & [= <- <-]). }
  destruct msg as [msg|err]; [destruct (to_text msg) as [text|err]|].
  - apply bind_ok_inv in Hstep as ([] & [ws3 w3] & Hb & [= <- -> ->]). injection Hrun as <- <-.
    split_and!; [done..|]. right. unfold zoom_r in Hb. cbn in Hb.
    destruct (broadcast _ _ w2) as [[] w3|e w3| | |] eqn:Hbr; [|done..]. injection Hb as -> <-.
    exists (Message (ws_id s) text), w2.2, w3. rewrite <-Hroom, <-surjective_pairing. by split_and!.
  - injection Hstep as <- -> ->. destruct (Hend eq_refl) as (-> & ? & ? & ?). split_and!; [done..|by left].
  - injection Hstep as <- -> ->. destruct (Hend eq_refl) as (-> & ? & ? & ?). split_and!; [done..|by left].
Qed.

Lemma join_step_ok visit stream w w' es log s :
  (forall us, visit us ≡ₚ map_to_list us) -> ws_hub_ok (Build_ws_hub w es log) ->
  (N.of_nat (S (length es)) < 2 ^ 64)%N ->
  ws_handler_start visit (E := boxed_error) stream w = Ok s w' ->
  ws_hub_ok (Build_ws_hub w' (es ++ [Build_ws_entry s [] (length log)]) (log ++ [User (ws_id s)])).
Proof.
  intros Hv [Hroom Hent] Hn Hrun. destruct w as [r net]. cbn in *.
  destruct (start_ok visit stream r net s w' (length es) log Hv Hroom Hn Hrun) as (Hid & Hroom' & Hold & Hnew).
  split; cbn; [by rewrite length_app, Nat.add_1_r|]. rewrite Hid.
  intros i e [[Hi He]|[-> <-]]%lookup_snoc_Some.
  - destruct (Hent i e He) as [Hok Hs]. split; [by apply Hold|]. by apply lookup_app_l_Some.
  - split; [exact Hnew|]. cbn [e_session e_since]. by rewrite Hid, list_lookup_middle.
Qed.

(** The entry of a connection changes, and its channel. *)
Lemma write_step_ok w w' es log i s s' got since :
  ws_hub_ok (Build_ws_hub w es log) -> es !! i = Some (Build_ws_entry s got since) ->
  ws_write_thread to_message (E := boxed_error) s w = Ok s' w' ->
  ws_hub_ok (Build_ws_hub w' (<[i := Build_ws_entry s' (got ++ ws_sends s w) since]> es) log).
Proof.
  intros Hok Hi Hrun. pose proof Hok as [Hroom Hent]. destruct (Hent i _ Hi) as [Hentry Hlog].
  pose proof Hentry as (Hid & Hrx & Hs & q & a & l & Hc & Hw). cbn in *.
  destruct (ws_writer s) as [ws|] eqn:Hws.
  - destruct Hw as (-> & -> & Hu & Hgot).
    destruct (write_thread_inv s ws w s' w' i q Hws Hrx Hc Hrun) as (Hid' & Hrx' & e & q' & c & -> & Hw' & Hcase).
    split; cbn.
    + rewrite length_insert, Hw'. split; cbn; apply Hroom.
    + intros j e' [(<- & <- & _)|[Hne Hj]]%list_lookup_insert_Some.
      * cbn. rewrite Hid'. split; [|done]. split_and!; cbn; [congruence|congruence|done|].
        destruct (ws_writer s'); rewrite Hw'; cbn; rewrite lookup_insert_eq.
        -- destruct Hcase as [-> ->]. exists q', true, true. split_and!; try done. by rewrite <-app_assoc.
        -- subst c. exists [], true, false. split_and!; [done|done|]. rewrite <-Hgot.
           unfold ws_sends. rewrite Hws, Hrx. unfold recv, the_store. cbn. rewrite Hc. cbn.
           destruct (ws_send _ _) as [[]| | | |]; rewrite ?app_nil_r; try by apply prefix_app_r.
           apply prefix_app, prefix_cons, prefix_nil.
      * destruct (Hent j e' Hj) as [He' Hl']. split; [|done]. eapply ws_entry_same; [..|exact He']; rewrite Hw'; cbn; [|done].
        by rewrite lookup_insert_ne.
  - unfold ws_write_thread in Hrun. rewrite Hws in Hrun. injection Hrun as <- <-.
    unfold ws_sends. rewrite Hws, app_nil_r, list_insert_id by done. exact Hok.
Qed.

Lemma read_step_ok visit w w' es log i s s' got since :
  (forall us, visit us ≡ₚ map_to_list us) ->
  ws_hub_ok (Build_ws_hub w es log) -> es !! i = Some (Build_ws_entry s got since) ->
  ws_read_thread visit to_text (E := boxed_error) s w = Ok s' w' ->
  ws_hub_ok (Build_ws_hub w' (<[i := Build_ws_entry s' got since]> es) (log ++ ws_tells s w)).
Proof.
  intros Hv Hok Hi Hrun. pose proof Hok as [Hroom Hent]. cbn in *.
  destruct (ws_reader s) as [ws|] eqn:Hws.
  2: { unfold ws_read_thread in Hrun. rewrite Hws in Hrun. injection Hrun as <- <-.
       unfold ws_tells. by rewrite Hws, app_nil_r, list_insert_id. }
  destruct (read_thread_inv visit s ws w s' w' Hws Hrun) as (Hid & Hrx & Hwr & Htold).
  assert (Hall : room_ok w'.1 (length es) /\
    forall j e, ws_entry_ok w.1 log j e -> ws_entry_ok w'.1 (log ++ ws_tells s w) j e).
  { destruct Htold as [[-> ->]|(event & net & w1 & -> & Hb & ->)]; [by rewrite app_nil_r|].
    destruct (tell_ok (E := boxed_error) visit event w.1 net (length es) log Hv Hroom) as (r' & Hb' & Hr' & He').
    rewrite Hb in Hb'. by injection Hb' as ->. }
  destruct Hall as [Hroom' Hent']. split; cbn; [by rewrite length_insert|].
  intros j e [(<- & <- & _)|[Hne Hj]]%list_lookup_insert_Some.
  - destruct (Hent i _ Hi) as [He Hl]. split; [|cbn; rewrite Hid; by apply lookup_app_l_Some].
    apply Hent' in He. unfold ws_entry_ok in *. cbn in *. by rewrite Hid, Hrx, Hwr.
  - destruct (Hent j e Hj) as [He Hl]. split; [by apply Hent'|by apply lookup_app_l_Some].
Qed.

Lemma ws_step_ok h h' :
  ws_hub_step h h' -> (N.of_nat (length (wh_entries h')) < 2 ^ 64)%N -> ws_hub_ok h -> ws_hub_ok h'.
Proof.
  intros Hstep Hlen Hok. destruct Hstep; cbn in Hlen.
  - rewrite length_app, Nat.add_1_r in Hlen. by eapply join_step_ok.
  - by eapply write_step_ok.
  - by eapply read_step_ok.
  - split; apply Hok.
Qed.

Lemma ws_step_grows h h' :
  ws_hub_step h h' -> length (wh_entries h) <= length (wh_entries h') /\ wh_log h `prefix_of` wh_log h'.
Proof.
  intros []; cbn; rewrite ?length_insert, ?length_app; (split; [lia|]); first [done|by apply prefix_app_r].
Qed.

Lemma ws_reachable_ok net h :
  ws_reachable net h -> (N.of_nat (length (wh_entries h)) < 2 ^ 64)%N -> ws_hub_ok h.
Proof.
  intros Hr. revert h Hr.
  refine (rtc_ind_r (fun h => (N.of_nat (length (wh_entries h)) < 2 ^ 64)%N -> ws_hub_ok h) (new_ws_hub net) _ _).
  - intros _. split; [by split|done].
  - intros h h' _ Hstep IH Hlen. eapply ws_step_ok; [done..|]. apply IH.
    apply ws_step_grows in Hstep as [Hl _]. lia.
Qed.

(** C10. What the user of a WebSocket is sent is, in every interleaving of the connections and
    their threads, a prefix of all that was told since it joined, its own joining and its own
    messages included, in the order in which the users of the map were told; and as long as
    its writing thread runs, what has not been sent waits in its channel. *)
Theorem ws_chat_in_order net h i e :
  ws_reachable net h -> (N.of_nat (length (wh_entries h)) < 2 ^ 64)%N -> wh_entries h !! i = Some e ->
  let told := drop (e_since e) (wh_log h) in
  e_got e `prefix_of` told /\ head told = Some (User (ws_id (e_session e))) /\
  (is_Some (ws_writer (e_session e)) -> exists c,
     chans (r_events (wh_world h).1) !! rx (ws_rx (e_session e)) = Some c /\ e_got e ++ queue c = told).
Proof.
  intros Hr Hlen Hi told. destruct (hub_entries _ (ws_reachable_ok _ _ Hr Hlen) i e Hi)
    as [(_ & Hrx & _ & q & a & l & Hc & Hw) Hlog].
  split_and!.
  - destruct (ws_writer (e_session e)); [|apply Hw]. destruct Hw as (_ & _ & _ & Hgot).
    subst told. rewrite <-Hgot. by apply prefix_app_r.
  - subst told. by rewrite <-Hlog, head_lookup, lookup_drop, Nat.add_0_r.
  - intros [ws Hws]. rewrite Hws in Hw. destruct Hw as (_ & _ & _ & Hgot).
    rewrite Hrx. cbn. eexists. split; [exact Hc|done].
Qed.

(** *** A user whose client has gone *)

(** Its reading thread has ended, its writing thread runs, and everything was sent. *)
Definition gone_quiet (log : list Event) (e : ws_entry) : Prop :=
  ws_reader (e_session e) = None /\ is_Some (ws_writer (e_session e)) /\
  e_got e = drop (e_since e) log.

Lemma gone_channel h i e :
  ws_hub_ok h -> wh_entries h !! i = Some e -> gone_quiet (wh_log h) e ->
  chans (r_events (wh_world h).1) !! i = Some (Build_chan [] true true) /\
  ws_rx (e_session e) = Build_Receiver i /\
  is_Some (users (r_chat (wh_world h).1) !! ws_id (e_session e)).
Proof.
  intros Hok Hi (_ & [ws Hws] & Hall).
  destruct (hub_entries _ Hok i e Hi) as [(Hid & Hrx & _ & q & a & l & Hc & Hw) _].
  rewrite Hws in Hw. destruct Hw as (-> & -> & Hu & Hgot). rewrite <-Hall in Hgot.
  rewrite <-(app_nil_r (e_got e)) in Hgot at 2. apply (inj (app _)) in Hgot. subst q.
  split_and!; [done|done|]. rewrite Hid, Hu. by eexists.
Qed.

Lemma gone_step h h' i e :
  ws_hub_ok h -> wh_entries h !! i = Some e -> gone_quiet (wh_log h) e ->
  ws_hub_step h h' -> wh_log h' = wh_log h ->
  wh_entries h' !! i = Some e /\ length (wh_entries h') = length (wh_entries h).
Proof.
  intros Hok Hi Hgone Hstep. pose proof (gone_channel h i e Hok Hi Hgone) as (Hc & Hrx & _).
  destruct Hgone as (Hrd & [ws Hws] & _).
  destruct Hstep as [visit stream w w' es log s _ _|w w' es log j s s' got since Hj Hrun
    |visit w w' es log j s s' got since _ Hj Hrun|]; cbn in *; intros Hlog; [| | |done].
  - apply (f_equal length) in Hlog. rewrite length_app in Hlog. cbn in Hlog. lia.
  - rewrite length_insert. split; [|done]. destruct (decide (j = i)) as [->|Hne];
      [|by rewrite list_lookup_insert_ne]. rewrite Hi in Hj. injection Hj as ->. cbn in *.
    destruct (write_thread_inv s ws w s' w' i [] Hws Hrx Hc Hrun) as (_ & _ & ? & ? & ? & ? & _). done.
  - rewrite length_insert. split; [|done]. destruct (decide (j = i)) as [->|Hne];
      [|by rewrite list_lookup_insert_ne]. rewrite Hi in Hj. injection Hj as ->. cbn in *.
    unfold ws_read_thread in Hrun. rewrite Hrd in Hrun. injection Hrun as <- _.
    by rewrite list_insert_id.
Qed.

Lemma ws_log_grows h h' : rtc ws_hub_step h h' -> wh_log h `prefix_of` wh_log h'.
Proof. induction 1 as [|h h1 h' Hstep _ IH]; [done|]. etrans; [by apply ws_step_grows|done]. Qed.

Lemma gone_steps h h' i e :
  rtc ws_hub_step h h' -> (N.of_nat (length (wh_entries h)) < 2 ^ 64)%N ->
  ws_hub_ok h -> wh_entries h !! i = Some e -> gone_quiet (wh_log h) e -> wh_log h' = wh_log h ->
  ws_hub_ok h' /\ wh_entries h' !! i = Some e.
Proof.
  induction 1 as [h'|h h1 h' Hstep Hrest IH]; [done|]. intros Hlen Hok Hi Hgone Hlog.
  assert (Hlog1 : wh_log h1 = wh_log h).
  { symmetry. apply prefix_length_eq; [by apply ws_step_grows|]. rewrite <-Hlog.
    by apply prefix_length, ws_log_grows. }
  destruct (gone_step h h1 i e Hok Hi Hgone Hstep Hlog1) as [Hi1 Hl1].
  apply IH; [by rewrite Hl1|eapply ws_step_ok; [done|by rewrite Hl1|done]|done|by rewrite Hlog1|by rewrite Hlog1].
Qed.

(** C11. A user whose client has gone stays: when its reading thread has ended and everything was
    sent, its writing thread waits for the next event, its handler has not returned and it is
    in the map, whatever else happens, until another event is told. *)
Theorem ws_gone_user_lingers net h h' i e :
  ws_reachable net h -> (N.of_nat (length (wh_entries h)) < 2 ^ 64)%N -> wh_entries h !! i = Some e ->
  ws_reader (e_session e) = None -> is_Some (ws_writer (e_session e)) ->
  e_got e = drop (e_since e) (wh_log h) ->
  rtc ws_hub_step h h' -> wh_log h' = wh_log h ->
  wh_entries h' !! i = Some e /\ ws_joined (e_session e) = false /\
  ws_write_thread to_message (E := boxed_error) (e_session e) (wh_world h') = Block /\
  is_Some (users (r_chat (wh_world h').1) !! ws_id (e_session e)).
Proof.
  intros Hr Hlen Hi Hrd Hws Hall Hrtc Hlog. assert (Hgone : gone_quiet (wh_log h) e) by done.
  destruct (gone_steps h h' i e Hrtc Hlen (ws_reachable_ok _ _ Hr Hlen) Hi Hgone Hlog) as [Hok' Hi'].
  rewrite <-Hlog in Hgone. destruct (gone_channel h' i e Hok' Hi' Hgone) as (Hc & Hrx & Hu).
  destruct Hws as [ws Hws]. split_and!; [done|by unfold ws_joined; rewrite Hws| |done].
  unfold ws_write_thread, borrow, ws_write_step, zoom_r, recv, the_store, bind. rewrite Hws, Hrx. cbn.
  by rewrite Hc.
Qed.
End hub.
