(* ===== verification/Tunnel.v ===== *)
(** * Tunnel: src/examples/tunnel.rs

    The service that answers CONNECT, its handler, and the two threads that copy between
    the sockets of the client and of the server, as a transition system in which the
    kernel and the other sides take part. *)
From stdpp Require Import base list gmap strings relations.
From Stdlib Require Import Strings.Byte NArith Lia.
From S2P Require Import Prelude Errors StdIo Buffered HttpApi Mpsc ReadQueue.
From S2P Require Import HttpBody Body Message Request Response Upgrade Tls Connection Server.
From S2P Require Import Examples Routes.

(** ** A socket, as the two threads share it by their handles

    All bytes that have arrived, how many of them were read, whether the other side has
    ended its direction, what was accepted for the other side, whether this side was shut
    down, and whether the connection is broken. *)
Record socket := {
  s_in : bytes;
  s_pos : nat;
  s_ended : bool;
  s_out : bytes;
  s_shut : bool;
  s_broken : bool;
}.

Definition unread (s : socket) : bytes := drop (s_pos s) (s_in s).

Definition fresh_socket : socket := Build_socket [] 0 false [] false false.

(** What the system answers to a call of a thread *)
Inductive answer :=
| Got (bs : bytes)
| EndOfStream
| Wrote (n : nat)
| IsShut
| Failed (e : io_error).

(** [read]: some of what has arrived. After [shutdown] it can also return 0 bytes at once,
    whatever has arrived. *)
Definition sys_got (bs : bytes) (s : socket) : option socket :=
  if bool_decide (bs <> []) && bool_decide (take (length bs) (unread s) = bs)
  then Some (Build_socket (s_in s) (s_pos s + length bs) (s_ended s) (s_out s) (s_shut s) (s_broken s))
  else None.
Definition sys_end_of_stream (s : socket) : bool :=
  s_shut s || s_ended s && bool_decide (unread s = []).

(** [write]: some of the bytes are accepted, none after [shutdown]. A thread whose write
    waits for the other side to read is one that takes no step meanwhile. *)
Definition sys_wrote (buf : bytes) (n : nat) (s : socket) : option socket :=
  if bool_decide (0 < n <= length buf) && negb (s_shut s)
  then Some (Build_socket (s_in s) (s_pos s) (s_ended s) (s_out s ++ take n buf) (s_shut s) (s_broken s))
  else None.

(** [shutdown(Shutdown::Both)] *)
Definition sys_shut (s : socket) : socket :=
  Build_socket (s_in s) (s_pos s) (s_ended s) (s_out s) true (s_broken s).

(** ** The threads

    Where a thread is: in the [read] of [io::copy], in its [write_all], in the call of
    [shutdown], or at its end. [total] is the count of [io::copy] when it reads next. *)
Inductive copier :=
| InRead (total : N)
| InWrite (rest : bytes) (total : N)
| InShutdown (total : N)
| Returned (result : N + io_error).

(** One call of a thread that copies [from] one socket [to] the other; [None] when the
    system does not give this answer. *)
Definition copy_step (a : answer) (from to : socket) (c : copier)
  : option (socket * socket * copier) :=
  match c, a with
  | InRead total, Got bs =>
      from ← sys_got bs from; Some (from, to, InWrite bs (total + N.of_nat (length bs)))
  | InRead total, EndOfStream =>
      if sys_end_of_stream from then Some (from, to, InShutdown total) else None
  | InRead _, Failed e => if s_broken from then Some (from, to, Returned (inr e)) else None
  | InWrite rest total, Wrote n =>
      to ← sys_wrote rest n to;
      Some (from, to, match drop n rest with [] => InRead total | rest => InWrite rest total end)
  | InWrite _ _, Failed e =>
      if s_broken to || s_shut to then Some (from, to, Returned (inr e)) else None
  | InShutdown total, IsShut => Some (from, sys_shut to, Returned (inl total))
  | InShutdown _, Failed e => if s_broken to then Some (from, to, Returned (inr e)) else None
  | _, _ => None
  end.

(** ** A tunnel: the sockets and the threads *)
Record tunnel_state := {
  client : socket;
  server : socket;
  client_to_server : copier;
  server_to_client : copier;
}.

Definition tunnel_start : tunnel_state :=
  Build_tunnel_state fresh_socket fresh_socket (InRead 0) (InRead 0).

(** The two directions are the same but for the names. *)
Definition flip (t : tunnel_state) : tunnel_state :=
  Build_tunnel_state (server t) (client t) (server_to_client t) (client_to_server t).

Definition c2s_step (a : answer) (t : tunnel_state) : option tunnel_state :=
  '(from, to, c) ← copy_step a (client t) (server t) (client_to_server t);
  Some (Build_tunnel_state from to c (server_to_client t)).
Definition s2c_step (a : answer) (t : tunnel_state) : option tunnel_state :=
  '(from, to, c) ← copy_step a (server t) (client t) (server_to_client t);
  Some (Build_tunnel_state to from (client_to_server t) c).

(** [Ok((client_to_server.join().unwrap()?, server_to_client.join().unwrap()?))]: [None]
    while it waits. The second thread is not joined when the first has failed. *)
Definition tunnel_result (t : tunnel_state) : option ((N * N) + io_error) :=
  match client_to_server t with
  | Returned (inr e) => Some (inr e)
  | Returned (inl w) =>
      match server_to_client t with
      | Returned (inr e) => Some (inr e)
      | Returned (inl r) => Some (inl (w, r))
      | _ => None
      end
  | _ => None
  end.

(** ** [fn tunnel] and the service

    The closure of [upgrade], by the address it was made with; the service takes
    [Display for Authority] as a parameter. *)
Inductive TunnelHandler := TunnelTo (address : bytes).

Section service.
Context `{!HttpApi} `{!Fuel} {W Tcp Unix Tls : Type}.
Context `{!TcpSocket W Tcp} `{!NetStream W Unix} `{!TcpSocket W Tls} `{!HasArcs W Tls}.

(** The tunnels of the program, with the handles that their threads own *)
Record tunnel_threads := {
  tt_client : Tcp;
  tt_server_writer : Tcp;
  tt_server : Tcp;
  tt_client_writer : Tcp;
  tt_state : tunnel_state;
}.

Class HasTunnels := {
  get_tunnels : W -> list tunnel_threads;
  set_tunnels : list tunnel_threads -> W -> W;
}.
Context `{!HasTunnels}.

(** The two [thread::spawn]s *)
Definition spawn_tunnel {E} (client server_writer server client_writer : Tcp) : ST W E nat :=
  let! w := get_state in
  modify (fun w => set_tunnels (get_tunnels w ++
    [Build_tunnel_threads client server_writer server client_writer tunnel_start]) w);;;
  ret (length (get_tunnels w)).

(** The two [join]s *)
Definition join_tunnel (id : nat) : ST W io_error (N * N) := fun w =>
  match get_tunnels w !! id ≫= (fun t => tunnel_result (tt_state t)) with
  | Some (inl r) => Ok r w
  | Some (inr e) => Err e w
  | None => Block
  end.

(** [fn tunnel]: with the first [?] that fails, the handles are dropped. *)
Definition tunnel (client server : Tcp) : ST W io_error (N * N) :=
  let drop_both := drop_value server;;; drop_value client in
  let! client_writer := cleanup drop_both (stream_try_clone client) in
  let! server_writer := cleanup (drop_value client_writer;;; drop_both) (stream_try_clone server) in
  let! id := spawn_tunnel client server_writer server client_writer in
  join_tunnel id.

(** [TcpStream::connect] *)
Context (connect : bytes -> ST W io_error Tcp).

(** The closure of [upgrade]: what it prints is left out. *)
Definition tunnel_to {E} (address : bytes) (conn : Connection Tcp Unix Tls) : ST W E unit :=
  let! server := attempt (connect address) in
  match server with
  | inl server =>
      let! client := downcast OfTcp conn in
      match client with
      | inl client => let! _ := attempt (tunnel client server) in ret tt
      | inr _ => panic
      end
  | inr _ => drop_value conn
  end.

#[export] Instance tunnel_handler : UpgradeHandler W TunnelHandler (Connection Tcp Unix Tls) :=
  fun E h conn => match h with TunnelTo address => tunnel_to address conn end.

End service.

(** The closure of [serve], by the bodies [Body::empty()] and [Body::from(..)] *)
Definition STATUS_METHOD_NOT_ALLOWED : N := 405%N.

Section closure.
Context `{!HttpApi} `{!Fuel} {W C : Type} `{!Conn W C} `{!HasStore W (BufReader C)}.
Context (authority_display : Authority -> bytes).

Definition tunnel_answer {B} (empty : B) (from : bytes -> B) (method : Method) (uri : Uri)
  : Response (UpgradeExtension TunnelHandler) C B :=
  if bool_decide (method <> CONNECT)
  then Build_Response STATUS_METHOD_NOT_ALLOWED HTTP_11
         (hm_insert (b "allow") (b "connect") hm_new) no_extensions empty
  else
    match authority_display <$> uri_authority uri with
    | Some address => upgrade (status_body STATUS_OK empty) (TunnelTo address)
    | None => status_body STATUS_BAD_REQUEST (from (b "Invalid address"))
    end.

Definition tunnel_call (req : Request (IncomingBody C))
  : ST (unit * W) boxed_error (Response (UpgradeExtension TunnelHandler) C (IncomingBody C)) :=
  zoom_r (drop_value (req_body req));;;
  ret (tunnel_answer Body_empty Body_from_vec (req_method req) (req_uri req)).

Definition tunnel_service : Service (W := W) (C := C) (A := unit) (Hd := TunnelHandler) := {|
  SBody := IncomingBody C;
  call := tunnel_call;
  should_continue := fun E => default_should_continue;
|}.
End closure.
