(* ===== verification/TunnelLaws.v ===== *)
(** * TunnelLaws: what tunnel.rs copies, and when it ends

    The threads of Tunnel.v beside two other sides that send, end and break their
    connections at any time: what each side gets is what the other has sent, in order, and
    the first direction that ends well ends the other one too. *)
From stdpp Require Import base list gmap strings relations.
From Stdlib Require Import Strings.Byte NArith Lia.
From S2P Require Import Prelude Errors StdIo Buffered HttpApi Mpsc ReadQueue QueueLaws.
From S2P Require Import HttpBody Body BodyLaws Message MessageLaws ChunkedLaws Request.
From S2P Require Import RequestLaws Response ResponseLaws Upgrade Tls Connection ConnLaws.
From S2P Require Import Server Reference StreamLaws IncomingLaws ServiceLaws ServerLaws.
From S2P Require Import Examples Routes Tunnel.

(** ** The other sides, and the steps of the whole *)
Definition arriving (bs : bytes) (s : socket) : socket :=
  Build_socket (s_in s ++ bs) (s_pos s) (s_ended s) (s_out s) (s_shut s) (s_broken s).

Inductive peer_step : socket -> socket -> Prop :=
| peer_sends bs s : s_ended s = false -> peer_step s (arriving bs s)
| peer_ends s :
    peer_step s (Build_socket (s_in s) (s_pos s) true (s_out s) (s_shut s) (s_broken s))
| peer_breaks s :
    peer_step s (Build_socket (s_in s) (s_pos s) (s_ended s) (s_out s) (s_shut s) true).

Inductive tunnel_step : tunnel_state -> tunnel_state -> Prop :=
| step_c2s a t t' : c2s_step a t = Some t' -> tunnel_step t t'
| step_s2c a t t' : s2c_step a t = Some t' -> tunnel_step t t'
| step_client c c' s t1 t2 :
    peer_step c c' -> tunnel_step (Build_tunnel_state c s t1 t2) (Build_tunnel_state c' s t1 t2)
| step_server c s s' t1 t2 :
    peer_step s s' -> tunnel_step (Build_tunnel_state c s t1 t2) (Build_tunnel_state c s' t1 t2).

Definition tunnel_reachable (t : tunnel_state) : Prop := rtc tunnel_step tunnel_start t.

(** *** The two directions are alike *)
Lemma flip_flip t : flip (flip t) = t.
Proof. by destruct t. Qed.

Lemma s2c_flip a t : s2c_step a t = flip <$> c2s_step a (flip t).
Proof.
  unfold s2c_step, c2s_step, flip. cbn. by destruct (copy_step _ _ _ _) as [[[from to] c]|].
Qed.

Lemma c2s_flip a t : c2s_step a t = flip <$> s2c_step a (flip t).
Proof.
  rewrite s2c_flip, flip_flip. destruct (c2s_step a t) as [t'|]; [|done]. cbn. by rewrite flip_flip.
Qed.

Lemma tunnel_step_flip t t' : tunnel_step t t' -> tunnel_step (flip t) (flip t').
Proof.
  destruct 1 as [a t t' Ht|a t t' Ht|c c' s t1 t2 Hp|c s s' t1 t2 Hp].
  - apply (step_s2c a). by rewrite s2c_flip, flip_flip, Ht.
  - apply (step_c2s a). by rewrite c2s_flip, flip_flip, Ht.
  - by apply step_server.
  - by apply step_client.
Qed.

Lemma tunnel_reachable_flip t : tunnel_reachable t -> tunnel_reachable (flip t).
Proof.
  exact (rtc_congruence flip _ tunnel_start t tunnel_step_flip).
Qed.

(** ** One direction *)

(** What is read and not written yet *)
Definition pending (c : copier) : bytes := match c with InWrite rest _ => rest | _ => [] end.

(** The count of what was written, unless the thread has failed *)
Definition counted (c : copier) : option N :=
  match c with
  | InRead n | InShutdown n | Returned (inl n) => Some n
  | InWrite rest n => Some (n - N.of_nat (length rest))%N
  | Returned (inr _) => None
  end.

Definition copied (c : copier) : bool :=
  match c with InShutdown _ | Returned (inl _) => true | _ => false end.
Definition ended_well (c : copier) : bool :=
  match c with Returned (inl _) => true | _ => false end.

(** Everything that was read is written or about to be, in order; the socket is shut down
    exactly when the thread has ended well. *)
Record flows (from to : socket) (c : copier) : Prop := {
  flows_pos : s_pos from <= length (s_in from);
  flows_out : exists lost, s_out to ++ pending c ++ lost = take (s_pos from) (s_in from) /\
                           (lost <> [] -> counted c = None);
  flows_count : forall n, counted c = Some n -> n = N.of_nat (length (s_out to));
  flows_shut : s_shut to = ended_well c;
  flows_writing : forall rest n, c = InWrite rest n ->
    rest <> [] /\ (N.of_nat (length rest) <= n)%N;
}.

(** Everything that the side [from] has sent was written to the side [to]. *)
Definition delivered (from to : socket) : Prop :=
  s_ended from = true /\ s_out to = s_in from.

Lemma flows_prefix from to c : flows from to c -> s_out to `prefix_of` s_in from.
Proof.
  intros [_ (lost & Hout & _) _ _ _]. trans (take (s_pos from) (s_in from)); [|apply prefix_take].
  rewrite <-Hout. by eexists.
Qed.

Lemma sys_got_spec bs s s' :
  sys_got bs s = Some s' -> s_pos s <= length (s_in s) ->
  bs <> [] /\ s' = Build_socket (s_in s) (s_pos s + length bs) (s_ended s) (s_out s) (s_shut s) (s_broken s) /\
  take (s_pos s') (s_in s) = take (s_pos s) (s_in s) ++ bs /\ s_pos s' <= length (s_in s).
Proof.
  unfold sys_got, unread. case_bool_decide as Hne; [|done]. case_bool_decide as Ht; [|done].
  cbn. intros [= <-] Hpos. cbn. split_and!; [done|done| |].
  - by rewrite <-take_take_drop, Ht.
  - apply (f_equal length) in Ht. rewrite length_take, length_drop in Ht. lia.
Qed.

Lemma sys_wrote_spec buf n s s' :
  sys_wrote buf n s = Some s' ->
  0 < n <= length buf /\ s_shut s = false /\
  s' = Build_socket (s_in s) (s_pos s) (s_ended s) (s_out s ++ take n buf) (s_shut s) (s_broken s).
Proof.
  unfold sys_wrote. case_bool_decide as Hn; [|done]. destruct (s_shut s); [done|].
  by intros [= <-].
Qed.

(** The thread of a direction keeps it, and tells the other one nothing but the shutdown
    of the socket. *)
Lemma copy_step_flows a from to c from' to' c' :
  copy_step a from to c = Some (from', to', c') -> flows from to c ->
  flows from' to' c' /\
  (s_in from' = s_in from /\ s_ended from' = s_ended from /\ s_out from' = s_out from /\
   s_shut from' = s_shut from) /\
  (s_in to' = s_in to /\ s_ended to' = s_ended to /\ s_pos to' = s_pos to).
Proof.
  intros Hs [Hpos (lost & Hout & Hlost) Hcount Hshut Hwr].
  destruct c as [total|rest total|total|r], a as [bs| |n| |e]; cbn in Hs; try done.
  - destruct (sys_got bs from) as [from1|] eqn:Hg; [|done]. injection Hs as <- <- <-.
    destruct (sys_got_spec _ _ _ Hg Hpos) as (Hne & -> & Htake & Hle). cbn in *.
    assert (lost = []) as -> by (destruct lost; [done|by specialize (Hlost ltac:(done))]).
    rewrite app_nil_r in Hout. split; [|done]. split; cbn; [done| | |done|].
    + exists []. rewrite app_nil_r, Hout. by split.
    + intros n [= <-]. specialize (Hcount total eq_refl). lia.
    + intros rest n [= <- <-]. split; [done|lia].
  - destruct (sys_end_of_stream from); [|done]. injection Hs as <- <- <-. split; [|done].
    split; cbn in *; [done|by exists lost|done|done|done].
  - destruct (s_broken from); [|done]. injection Hs as <- <- <-. split; [|done].
    split; cbn in *; [done|by exists lost|done|done|done].
  - destruct (sys_wrote rest n to) as [to1|] eqn:Hw; [|done]. injection Hs as <- <- <-.
    destruct (sys_wrote_spec _ _ _ _ Hw) as (Hn & Hns & ->). split; [|done].
    destruct (Hwr rest total eq_refl) as [_ Hle]. specialize (Hcount _ eq_refl).
    cbn [pending counted] in *.
    assert (lost = []) as -> by (destruct lost; [done|by specialize (Hlost ltac:(done))]).
    assert (Hl : length (take n rest) + length (drop n rest) = length rest)
      by by rewrite <-length_app, take_drop.
    destruct (drop n rest) as [|x rest'] eqn:Hd.
    + split; cbn in *; [done| |intros m [= <-]; rewrite length_app; lia|done|done].
      exists []. rewrite <-Hout, !app_nil_r. rewrite (take_ge rest n) by (apply (f_equal length) in Hd; rewrite length_drop in Hd; cbn in Hd; lia). done.
    + split; cbn in *; [done| |intros m [= <-]; rewrite length_app; lia|done|].
      * exists []. by rewrite <-Hout, !app_nil_r, <-Hd, <-app_assoc, take_drop.
      * intros r' m [= <- <-]. split; [done|]. cbn. lia.
  - destruct (_ || _); [|done]. injection Hs as <- <- <-. split; [|done].
    split; cbn in *; [done| |done|done|done]. exists (rest ++ lost). by rewrite Hout.
  - injection Hs as <- <- <-. split; [|done]. split; cbn in *; [done|by exists lost|done|done|done].
  - destruct (s_broken to); [|done]. injection Hs as <- <- <-. split; [|done].
    split; cbn in *; [done|by exists lost|done|done|done].
Qed.

Lemma flows_frame from to c from' to' :
  flows from to c -> s_in from' = s_in from -> s_pos from' = s_pos from ->
  s_out to' = s_out to -> s_shut to' = s_shut to -> flows from' to' c.
Proof. intros [H1 H2 H3 H4 H5] Hi Hp Ho Hs. by split; rewrite ?Hi, ?Hp, ?Ho, ?Hs. Qed.

Lemma flows_peer from to c from' :
  peer_step from from' -> flows from to c -> flows from' to c.
Proof.
  intros Hp Hf. destruct Hp as [bs from He|from|from]; [|by apply (flows_frame from to)..].
  destruct Hf as [H1 H2 H3 H4 H5]. split; [|..|done|done|done]; cbn.
  - rewrite length_app. lia.
  - by rewrite take_app_le.
Qed.

Lemma delivered_peer from to from' : peer_step from from' -> delivered from to -> delivered from' to.
Proof. unfold delivered. destruct 1 as [bs from He|from|from]; cbn; intros [Hd Ho]; [congruence|done..]. Qed.

Lemma delivered_frame from to from' to' :
  delivered from to -> s_in from' = s_in from -> s_ended from' = s_ended from -> s_out to' = s_out to ->
  delivered from' to'.
Proof. unfold delivered. intros [He Ho] -> -> ->. done. Qed.

(** *** The invariant of the tunnel *)

(** A direction that has copied all delivered it, or was ended by the other one, which
    delivered all. *)
Definition ends_for (from to : socket) (c other : copier) : Prop :=
  copied c = true -> delivered from to \/ (ended_well other = true /\ delivered to from).

Record tunnel_ok (t : tunnel_state) : Prop := {
  ok_c2s : flows (client t) (server t) (client_to_server t);
  ok_s2c : flows (server t) (client t) (server_to_client t);
  ok_c2s_end : ends_for (client t) (server t) (client_to_server t) (server_to_client t);
  ok_s2c_end : ends_for (server t) (client t) (server_to_client t) (client_to_server t);
}.

Lemma tunnel_ok_flip t : tunnel_ok t -> tunnel_ok (flip t).
Proof. by intros [H1 H2 H3 H4]. Qed.

Lemma tunnel_ok_start : tunnel_ok tunnel_start.
Proof.
  assert (flows fresh_socket fresh_socket (InRead 0)) as Hf.
  { split; cbn; [lia|by exists []|by intros n [= <-]|done|done]. }
  by split.
Qed.

(** When a thread has copied all *)
Lemma copy_step_ends a from to c other from' to' c' :
  copy_step a from to c = Some (from', to', c') -> flows from to c -> flows to from other ->
  ends_for from to c other -> ends_for to from other c ->
  ends_for from' to' c' other /\ ends_for to' from' other c'.
Proof.
  intros Hs Hf Ho He He'. pose proof (copy_step_flows _ _ _ _ _ _ _ Hs Hf) as (_ & (Hi & Hd & Hout & _) & Hi' & Hd' & _).
  assert (Hback : delivered to from -> delivered to' from') by (by intros; eapply delivered_frame).
  destruct c as [total|rest total|total|r]; [| | |by destruct a].
  - assert (Hother : copied other = true -> delivered to' from').
    { intros Hc. destruct (He' Hc) as [Hdel|[? _]]; [by apply Hback|done]. }
    split; [|intros Hc; left; by apply Hother].
    intros Hc. destruct a as [bs| |n| |e]; cbn in Hs; try done.
    + destruct (sys_got bs from); [|done]. by injection Hs as <- <- <-.
    + destruct (sys_end_of_stream from) eqn:Hend; [|done]. injection Hs as <- <- <-.
      apply orb_true_iff in Hend as [Hsh|Hall].
      * right. rewrite (flows_shut _ _ _ Ho) in Hsh. split; [done|]. apply Hother. by destruct other as [| | |[]].
      * left. apply andb_true_iff in Hall as [Hended Hun]. apply bool_decide_eq_true in Hun.
        split; [done|]. destruct (flows_out _ _ _ Hf) as ([|x lost] & Htake & Hno); [|by specialize (Hno ltac:(done))].
        cbn in Htake. rewrite app_nil_r in Htake. rewrite Htake.
        unfold unread in Hun. rewrite <-(take_drop (s_pos from) (s_in from)) at 2. by rewrite Hun, app_nil_r.
    + destruct (s_broken from); [|done]. by injection Hs as <- <- <-.
  - split.
    + intros Hc. destruct a as [bs| |n| |e]; cbn in Hs; try done.
      * destruct (sys_wrote rest n to); [|done]. injection Hs as <- <- <-. by destruct (drop n rest).
      * destruct (_ || _); [|done]. by injection Hs as <- <- <-.
    + intros Hc. destruct (He' Hc) as [Hdel|[? _]]; [left; by apply Hback|done].
  - assert (Hfwd : delivered from to -> s_out to' = s_out to -> delivered from' to')
      by (by intros; eapply delivered_frame).
    destruct a as [bs| |n| |e]; cbn in Hs; try done.
    + injection Hs as <- <- <-. destruct (He eq_refl) as [Hdel|[Hw Hdel]].
      * split; [intros _; left; by apply Hfwd|intros _; right; split; [done|by apply Hfwd]].
      * split; [intros _; right; split; [done|by apply Hback]|intros _; left; by apply Hback].
    + destruct (s_broken to); [|done]. injection Hs as <- <- <-. split; [done|].
      intros Hc. destruct (He' Hc) as [Hdel|[? _]]; [by left|done].
Qed.

Lemma c2s_step_ok a t t' : c2s_step a t = Some t' -> tunnel_ok t -> tunnel_ok t'.
Proof.
  unfold c2s_step. destruct (copy_step _ _ _ _) as [[[from to] c]|] eqn:Hs; [|done].
  cbn. intros [= <-] [H1 H2 H3 H4].
  pose proof (copy_step_flows _ _ _ _ _ _ _ Hs H1) as (Hf & (Hi & Hd & Ho & Hsh) & Hi' & Hd' & Hp').
  pose proof (copy_step_ends _ _ _ _ _ _ _ _ Hs H1 H2 H3 H4) as [He He'].
  split; cbn; [done|by apply (flows_frame (server t) (client t))|done|done].
Qed.

Lemma peer_ok c c' s t1 t2 :
  peer_step c c' -> tunnel_ok (Build_tunnel_state c s t1 t2) -> tunnel_ok (Build_tunnel_state c' s t1 t2).
Proof.
  intros Hp [H1 H2 H3 H4]. cbn in *.
  assert (Hout : s_out c' = s_out c /\ s_shut c' = s_shut c) by by destruct Hp. destruct Hout as [Hout Hsh].
  assert (Hback : delivered s c -> delivered s c') by (by intros; eapply delivered_frame).
  pose proof (fun Hd => delivered_peer c s c' Hp Hd) as Hfwd.
  split; cbn; [by eapply flows_peer|by apply (flows_frame s c)| |].
  - intros Hc. destruct (H3 Hc) as [Hd|[Hw Hd]]; [left; by apply Hfwd|right; split; [done|by apply Hback]].
  - intros Hc. destruct (H4 Hc) as [Hd|[Hw Hd]]; [left; by apply Hback|right; split; [done|by apply Hfwd]].
Qed.

Lemma tunnel_step_ok t t' : tunnel_step t t' -> tunnel_ok t -> tunnel_ok t'.
Proof.
  destruct 1 as [a t t' Ht|a t t' Ht|c c' s t1 t2 Hp|c s s' t1 t2 Hp]; intros Hok.
  - by eapply c2s_step_ok.
  - rewrite s2c_flip in Ht. destruct (c2s_step a (flip t)) as [t1|] eqn:Hs; [|done].
    injection Ht as <-. apply tunnel_ok_flip. by eapply c2s_step_ok, tunnel_ok_flip.
  - by eapply peer_ok.
  - apply (tunnel_ok_flip (Build_tunnel_state s' c t2 t1)). eapply peer_ok; [done|].
    by apply tunnel_ok_flip in Hok.
Qed.

Lemma tunnel_reachable_ok t : tunnel_reachable t -> tunnel_ok t.
Proof.
  intros Ht. refine (rtc_ind_r (fun t => tunnel_ok t) tunnel_start tunnel_ok_start _ t Ht).
  intros t1 t2 _ Hs Hok. by eapply tunnel_step_ok.
Qed.

(** ** In order, and all of it *)

(** C12. In every interleaving of the two threads, the other sides and their failures, what
    tunnel.rs has written to one side is a prefix of what the other side has sent. When
    [tunnel] returns counts, they are the bytes that were written, and at least one
    direction was copied to its end. *)
Theorem tunnel_in_order t :
  tunnel_reachable t ->
  s_out (server t) `prefix_of` s_in (client t) /\ s_out (client t) `prefix_of` s_in (server t) /\
  forall w r, tunnel_result t = Some (inl (w, r)) ->
    w = N.of_nat (length (s_out (server t))) /\ r = N.of_nat (length (s_out (client t))) /\
    (delivered (client t) (server t) \/ delivered (server t) (client t)).
Proof.
  intros [Hf Hf' He He']%tunnel_reachable_ok. split_and!; [by eapply flows_prefix..|].
  intros w r Hr. unfold tunnel_result in Hr.
  pose proof (flows_count _ _ _ Hf) as Hw. pose proof (flows_count _ _ _ Hf') as Hn.
  destruct (client_to_server t) as [| | |[w'|]]; try done.
  destruct (server_to_client t) as [| | |[r'|]]; try done. injection Hr as -> ->.
  split_and!; [by apply Hw|by apply Hn|]. destruct (He eq_refl) as [Hd|[_ Hd]]; [by left|by right].
Qed.

(** ** The end *)
Inductive direction := ToServer | ToClient.

Definition opposite (d : direction) : direction :=
  match d with ToServer => ToClient | ToClient => ToServer end.
Definition thread_of (d : direction) (t : tunnel_state) : copier :=
  match d with ToServer => client_to_server t | ToClient => server_to_client t end.
Definition source_of (d : direction) (t : tunnel_state) : socket :=
  match d with ToServer => client t | ToClient => server t end.
Definition direction_step (d : direction) : answer -> tunnel_state -> option tunnel_state :=
  match d with ToServer => c2s_step | ToClient => s2c_step end.

(** A step of anything else: the other thread, or one of the other sides *)
Inductive others_step (d : direction) : tunnel_state -> tunnel_state -> Prop :=
| others_thread a t t' : direction_step (opposite d) a t = Some t' -> others_step d t t'
| others_client c c' s t1 t2 :
    peer_step c c' -> others_step d (Build_tunnel_state c s t1 t2) (Build_tunnel_state c' s t1 t2)
| others_server c s s' t1 t2 :
    peer_step s s' -> others_step d (Build_tunnel_state c s t1 t2) (Build_tunnel_state c s' t1 t2).

(** A run, with the number of the calls that the thread makes in it *)
Inductive run_calls (d : direction) : nat -> tunnel_state -> tunnel_state -> Prop :=
| run_stop t : run_calls d 0 t t
| run_call n a t1 t2 t3 :
    direction_step d a t1 = Some t2 -> run_calls d n t2 t3 -> run_calls d (S n) t1 t3
| run_others n t1 t2 t3 : others_step d t1 t2 -> run_calls d n t2 t3 -> run_calls d n t1 t3.

(** How many calls a thread has left when nothing more arrives: a read and a write for each
    byte that it can still read, a write for each that it has, and two at the end. *)
Definition calls_left (from : socket) (c : copier) : nat :=
  match c with
  | InRead _ => 2 * length (unread from) + 2
  | InWrite rest _ => 2 * length (unread from) + length rest + 2
  | InShutdown _ => 1
  | Returned _ => 0
  end.

(** The next call of the thread is answered. A [write] is when the other side takes some of
    the bytes; the others at once. At its end [tunnel] has its result. *)
Definition goes_on (d : direction) (t : tunnel_state) : Prop :=
  match thread_of d t with
  | InRead _ => is_Some (direction_step d EndOfStream t)
  | InWrite rest _ =>
      rest <> [] /\ forall k, 0 < k <= length rest -> is_Some (direction_step d (Wrote k) t)
  | InShutdown _ => is_Some (direction_step d IsShut t)
  | Returned _ => is_Some (tunnel_result t)
  end.

Lemma copy_step_calls a from to c from' to' c' :
  copy_step a from to c = Some (from', to', c') -> flows from to c ->
  calls_left from' c' < calls_left from c.
Proof.
  intros Hs [Hpos _ _ _ Hwr].
  destruct c as [total|rest total|total|r], a as [bs| |n| |e]; cbn in Hs; try done.
  - destruct (sys_got bs from) as [from1|] eqn:Hg; [|done]. injection Hs as <- <- <-.
    destruct (sys_got_spec _ _ _ Hg Hpos) as (Hne & -> & _ & Hle). cbn in *. unfold unread.
    cbn. rewrite !length_drop. destruct bs; [done|]. cbn in *. lia.
  - destruct (sys_end_of_stream from); [|done]. injection Hs as <- <- <-. cbn. lia.
  - destruct (s_broken from); [|done]. injection Hs as <- <- <-. cbn. lia.
  - destruct (sys_wrote rest n to) as [to1|] eqn:Hw; [|done]. injection Hs as <- <- <-.
    destruct (sys_wrote_spec _ _ _ _ Hw) as (Hn & _ & ->).
    pose proof (length_drop rest n) as Hl. destruct (drop n rest); cbn in *; lia.
  - destruct (_ || _); [|done]. injection Hs as <- <- <-. cbn. lia.
  - injection Hs as <- <- <-. cbn. lia.
  - destruct (s_broken to); [|done]. injection Hs as <- <- <-. cbn. lia.
Qed.

(** A thread that reads from a socket that was shut down does not wait. *)
Lemma copy_step_goes from to c :
  flows from to c -> s_shut from = true ->
  match c with
  | InRead _ => is_Some (copy_step EndOfStream from to c)
  | InWrite rest _ =>
      rest <> [] /\ forall k, 0 < k <= length rest -> is_Some (copy_step (Wrote k) from to c)
  | InShutdown _ => is_Some (copy_step IsShut from to c)
  | Returned _ => True
  end.
Proof.
  intros [_ _ _ Hshut Hwr] Hs. destruct c as [total|rest total|total|r]; cbn.
  - unfold sys_end_of_stream. rewrite Hs. by eexists.
  - destruct (Hwr rest total eq_refl) as [Hne _]. split; [done|]. intros k Hk.
    unfold sys_wrote. cbn in Hshut. rewrite Hshut, bool_decide_true by done. by eexists.
  - by eexists.
  - done.
Qed.

(** *** The thread that copies to the server, when the other one has ended well *)

(** What the steps of the whole keep *)
Definition after_other (t : tunnel_state) : Prop :=
  tunnel_ok t /\ ended_well (server_to_client t) = true.

Lemma after_other_goes t : after_other t -> goes_on ToServer t.
Proof.
  intros [Hok He]. pose proof (copy_step_goes _ _ _ (ok_c2s _ Hok)) as Hg.
  rewrite (flows_shut _ _ _ (ok_s2c _ Hok)) in Hg. specialize (Hg He).
  unfold goes_on, thread_of, direction_step, c2s_step.
  destruct (client_to_server t) as [| | |r] eqn:Hc.
  - by destruct Hg as [[[from to] c] ->]; eexists.
  - destruct Hg as [Hne Hg]. split; [done|]. intros k Hk. by destruct (Hg k Hk) as [[[from to] c] ->]; eexists.
  - by destruct Hg as [[[from to] c] ->]; eexists.
  - unfold tunnel_result. rewrite Hc. destruct r as [w|e]; [|by eexists].
    by destruct (server_to_client t) as [| | |[r|]].
Qed.

Lemma c2s_call a t t' :
  c2s_step a t = Some t' -> after_other t ->
  after_other t' /\ s_in (client t') = s_in (client t) /\
  calls_left (client t') (client_to_server t') < calls_left (client t) (client_to_server t).
Proof.
  intros Ha [Hok He]. pose proof (c2s_step_ok _ _ _ Ha Hok) as Hok'. unfold c2s_step in Ha.
  destruct (copy_step _ _ _ _) as [[[from to] c]|] eqn:Hs; [|done]. cbn in Ha. injection Ha as <-.
  pose proof (copy_step_flows _ _ _ _ _ _ _ Hs (ok_c2s _ Hok)) as (_ & (Hi & _) & _).
  split; [by split|]. split; [done|]. cbn. eapply copy_step_calls; [done|apply Hok].
Qed.

Lemma calls_left_frame from from' c :
  s_in from' = s_in from -> s_pos from' = s_pos from -> calls_left from' c = calls_left from c.
Proof. intros Hi Hp. unfold calls_left, unread. by rewrite Hi, Hp. Qed.

(** A peer that sends [k] bytes gives the thread at most [2 * k] more calls. *)
Lemma calls_left_peer from from' c :
  peer_step from from' -> s_pos from <= length (s_in from) ->
  length (s_in from) <= length (s_in from') /\
  calls_left from' c <= calls_left from c + 2 * (length (s_in from') - length (s_in from)).
Proof.
  destruct 1 as [bs from He|from|from]; intros Hp; unfold calls_left;
    [|split; [done|unfold unread; cbn [s_in s_pos]; destruct c; lia]..].
  unfold unread. cbn [arriving s_in s_pos]. rewrite length_app, !length_drop, length_app.
  destruct c; lia.
Qed.

Lemma c2s_others t t' :
  others_step ToServer t t' -> after_other t ->
  after_other t' /\ length (s_in (client t)) <= length (s_in (client t')) /\
  calls_left (client t') (client_to_server t') <=
    calls_left (client t) (client_to_server t) +
    2 * (length (s_in (client t')) - length (s_in (client t))).
Proof.
  intros Hs [Hok He]. destruct Hs as [a t t' Hs|c c' s t1 t2 Hp|c s s' t1 t2 Hp]; cbn in *.
  - unfold s2c_step in Hs. by destruct (server_to_client t) as [| | |[r|]], a.
  - split; [split; [by eapply peer_ok|done]|]. apply calls_left_peer; [done|].
    exact (flows_pos _ _ _ (ok_c2s _ Hok)).
  - split; [|lia]. split; [|done].
    apply (tunnel_step_ok (Build_tunnel_state c s t1 t2)); [by apply step_server|done].
Qed.

Lemma c2s_run n t t' :
  run_calls ToServer n t t' -> after_other t ->
  after_other t' /\ length (s_in (client t)) <= length (s_in (client t')) /\
  n + calls_left (client t') (client_to_server t') <=
    calls_left (client t) (client_to_server t) +
    2 * (length (s_in (client t')) - length (s_in (client t))).
Proof.
  induction 1 as [t|n a t1 t2 t3 Ha _ IH|n t1 t2 t3 Ho _ IH]; intros Ht; [split; [done|lia]|..].
  - destruct (c2s_call _ _ _ Ha Ht) as (Ht2 & Hi & Hl). destruct (IH Ht2) as (Ht3 & Hi3 & Hl3).
    rewrite Hi in *. split; [done|lia].
  - destruct (c2s_others _ _ Ho Ht) as (Ht2 & Hi & Hl). destruct (IH Ht2) as (Ht3 & Hi3 & Hl3).
    split; [done|lia].
Qed.

Lemma direction_flip d a t : direction_step d a (flip t) = flip <$> direction_step (opposite d) a t.
Proof.
  destruct d; cbn; [by rewrite c2s_flip, flip_flip|by rewrite s2c_flip, flip_flip].
Qed.

Lemma run_calls_flip n t t' : run_calls ToClient n t t' -> run_calls ToServer n (flip t) (flip t').
Proof.
  induction 1 as [t|n a t1 t2 t3 Ha _ IH|n t1 t2 t3 Ho _ IH]; [constructor|..].
  - apply (run_call _ n a (flip t1) (flip t2)); [|done]. rewrite direction_flip. cbn in *. by rewrite Ha.
  - apply (run_others _ n (flip t1) (flip t2)); [|done].
    destruct Ho as [a t t' Ha|c c' s u1 u2 Hp|c s s' u1 u2 Hp]; cbn.
    + apply (others_thread _ a). rewrite direction_flip. cbn in *. by rewrite Ha.
    + by apply others_server.
    + by apply others_client.
Qed.

Lemma goes_on_flip t : goes_on ToServer (flip t) -> ended_well (client_to_server t) = true -> goes_on ToClient t.
Proof.
  unfold goes_on. cbn [thread_of flip client_to_server].
  assert (Hs : forall a, is_Some (direction_step ToServer a (flip t)) -> is_Some (direction_step ToClient a t)).
  { intros a. rewrite direction_flip. cbn. by destruct (s2c_step a t). }
  destruct (server_to_client t) as [| | |r] eqn:Hc; intros Hg He; [by apply Hs| |by apply Hs|].
  - destruct Hg as [Hne Hg]. split; [done|]. intros k Hk. by apply Hs, Hg.
  - unfold tunnel_result. rewrite Hc. destruct (client_to_server t) as [| | |[w|]]; try done. by destruct r.
Qed.

(** C13. Once one direction of a tunnel has ended well, the thread of the other one cannot get
    stuck, and its calls are bounded, whatever the other sides do in between: in every run it
    makes at most as many calls as it had left ([calls_left]: two for each byte that it can still read, one for
    each that it has to write, and two), and two more for each byte that arrives meanwhile;
    it never waits for a [read] again, only for the other side to take what it writes; and
    when it has returned, so does [tunnel]. *)
Theorem tunnel_ends d n t t' :
  tunnel_reachable t -> ended_well (thread_of (opposite d) t) = true -> run_calls d n t t' ->
  n + calls_left (source_of d t') (thread_of d t') <=
    calls_left (source_of d t) (thread_of d t) +
    2 * (length (s_in (source_of d t')) - length (s_in (source_of d t))) /\
  goes_on d t'.
Proof.
  intros Hok%tunnel_reachable_ok He Hn. destruct d; cbn [opposite thread_of source_of] in *.
  - destruct (c2s_run n t t' Hn (conj Hok He)) as (Ht & _ & Hl). split; [done|by apply after_other_goes].
  - destruct (c2s_run n (flip t) (flip t') (run_calls_flip _ _ _ Hn) (conj (tunnel_ok_flip _ Hok) He))
      as (Ht & _ & Hl). split; [done|]. apply goes_on_flip; [by apply after_other_goes|by destruct Ht].
Qed.

(** *** A side that ends only its own direction *)

(** C14. Each direction shuts its socket down for reading too. A client that sends its
    request, ends its direction and waits for the response can get nothing of it,
    although [tunnel] returns without an error. *)
Theorem tunnel_half_close (req resp : bytes) :
  req <> [] ->
  exists t, tunnel_reachable t /\
    s_in (client t) = req /\ s_ended (client t) = true /\ s_broken (client t) = false /\
    s_out (server t) = req /\ s_in (server t) = resp /\ s_ended (server t) = true /\
    s_out (client t) = [] /\ tunnel_result t = Some (inl (N.of_nat (length req), 0%N)).
Proof.
  intros Hne. set (l := length req). assert (Hl : 0 < l) by (unfold l; destruct req; [done|cbn; lia]).
  set (c0 := Build_socket req l true [] true false). set (s0 := Build_socket resp 0 true req true false).
  exists (Build_tunnel_state c0 s0 (Returned (inl (N.of_nat l))) (Returned (inl 0%N))).
  split; [|by split_and!]. unfold tunnel_reachable.
  eapply rtc_l; [by apply (step_client fresh_socket (arriving req fresh_socket)), peer_sends|].
  eapply rtc_l; [apply (step_client (arriving req fresh_socket)), peer_ends|].
  eapply rtc_l; [apply (step_c2s (Got req))|].
  { unfold c2s_step, copy_step, sys_got, unread. cbn. rewrite drop_0, firstn_all.
    by rewrite !bool_decide_true. }
  eapply rtc_l; [apply (step_c2s (Wrote l))|].
  { unfold c2s_step, copy_step, sys_wrote. cbn. rewrite bool_decide_true by (unfold l; lia). cbn.
    unfold l. by rewrite skipn_all, firstn_all. }
  eapply rtc_l; [apply (step_c2s EndOfStream)|].
  { unfold c2s_step, copy_step, sys_end_of_stream, unread. cbn. rewrite skipn_all. done. }
  eapply rtc_l; [by apply (step_c2s IsShut)|].
  eapply rtc_l; [by apply (step_s2c EndOfStream)|].
  eapply rtc_l; [by apply (step_s2c IsShut)|].
  eapply rtc_l; [by eapply step_server, (peer_sends resp)|].
  eapply rtc_l; [by eapply step_server, peer_ends|]. apply rtc_refl.
Qed.

(** ** The service behind the server *)
Section service.
Context `{!HttpApi} `{!HttpApiLaws} `{!Fuel} {W Tcp Unix Tls : Type}.
Context `{!TcpSocket W Tcp} `{!NetStream W Unix} `{!TcpSocket W Tls} `{!HasArcs W Tls}.
Context `{!HasTunnels (W := W) (Tcp := Tcp)}.
Context (connect : bytes -> ST W io_error Tcp) (authority_display : Authority -> bytes).
(** [Server::bind] accepts TCP connections only. *)
#[local] Existing Instance tcp_conn.
Context `{!World W} `{!ConnLaws W Tcp} `{!HasStore W (BufReader Tcp)}
  `{!StoreWorld W (BufReader Tcp)} `{!ConnStore W Tcp} `{!Clock W} `{!ClockLaws (W := W)}.
#[local] Instance tunnel_handler_tcp : UpgradeHandler W TunnelHandler Tcp := fun E h conn =>
  tunnel_handler (Unix := Unix) (Tls := Tls) connect E h (from_tcp conn).

Definition tunnel_spec : app_spec unit (UpgradeExtension TunnelHandler) Tcp incoming :=
  head_spec (tunnel_answer authority_display (Sized []) (fun bs => Sized bs)).

Definition tunnel_laws (H15 : 15 < fuel) :
  ServiceLaws (W := W) (Service0 := tunnel_service authority_display) tunnel_spec.
Proof.
  split.
  - intros k app w req body rest skipped fin Hb. pose proof (incoming_length _ _ _ _ _ _ _ Hb) as [_ Hf].
    unfold call, tunnel_service, tunnel_call.
    set (answer := tunnel_answer (C := Tcp) authority_display (Sized []) (fun bs => Sized bs)).
    assert (Hcase : exists bs (res : Response (UpgradeExtension TunnelHandler) Tcp (IncomingBody Tcp)),
      tunnel_answer authority_display Body_empty Body_from_vec (req_method req) (req_uri req) = res /\
      unframed (res_headers res) /\ (res_body res = Body_from_vec bs \/ res_body res = Body_empty /\ bs = []) /\
      length bs <= 15 /\
      answer (req_method req) (req_uri req) = Build_Response (res_status res) (res_version res)
        (res_headers res) (res_extensions res) (Sized bs)).
    { unfold answer, tunnel_answer. case_bool_decide.
      - exists []. eexists. split; [done|]. split_and!; [by apply unframed_insert|by right|cbn; lia|done].
      - destruct (authority_display <$> uri_authority (req_uri req)) as [address|].
        + exists []. eexists. split; [done|]. split_and!; [exact unframed_new|by right|cbn; lia|done].
        + exists (b "Invalid address"). eexists. split; [done|].
          split_and!; [exact unframed_new|by left|cbn; lia|done]. }
    destruct Hcase as (bs & res & -> & Hu & Hbody & Hl & Ha).
    apply (head_call_spec answer k app w req body rest skipped fin res bs); try done; [|lia].
    unfold isize_max. lia.
  - intros E app w req. by apply wp_ret.
Defined.

(** What is written for a CONNECT with an authority *)
Definition connected_text (time : N) (version : Version) (h : HeaderMap) : bytes :=
  message_head (status_line version STATUS_OK)
    (hm_iter (cl_insert 0 (dated time (version_headers version (connection_has "keep-alive" h) hm_new)))).

Lemma tunnel_reference fin n ts bs u a v h body rest skipped :
  request_at fin bs = Arrives CONNECT u v h body rest skipped -> expect_is_continue h = false ->
  uri_authority u = Some a ->
  reference tunnel_spec fin (S n) ts tt bs =
    Some (connected_text (ts 0) v h,
          HandedOver (MkUpgradeExtension (TunnelTo (authority_display a))) skipped, tt).
Proof.
  intros Hat Hex Ha. cbn [reference]. rewrite Hat. unfold exchange, served, respond. rewrite Hex.
  cbn [tunnel_spec head_spec app_call app_len app_body app_reads]. unfold tunnel_answer.
  rewrite bool_decide_false by (by intros ?). rewrite Ha.
  cbn [fmap option_fmap option_map upgrade status_body res_headers res_body res_status res_extensions incoming_len length].
  rewrite unframed_fixed_of by exact unframed_new. unfold connected_text.
  by destruct (should_write_body _ _); cbn; rewrite app_nil_r.
Qed.

(** C15. tunnel.rs answers a CONNECT with 200 before it connects. When the address cannot be
    reached, the handler has tried it and then drops its connection, which [closed] stands
    for: the client has got the 200 of an established tunnel, the connection is closed behind
    it, and nothing else was written. *)
Theorem tunnel_unreachable (conn : Tcp) (w : W) (tried closed : W -> Prop) bs fin u a v h body rest skipped :
  (raw_can_fail W Tcp -> False) -> 15 < fuel ->
  (forall w', wp (connect (authority_display a)) (fun _ _ => False)
                 (fun _ w'' => tried w'' /\ accepted conn w'' = accepted conn w') w') ->
  (forall w', tried w' -> wp (drop_value (E := io_error) conn) (fun _ w'' => closed w'') never w') ->
  holds conn w bs fin -> S (length bs) < fuel ->
  request_at fin bs = Arrives CONNECT u v h body rest skipped -> expect_is_continue h = false ->
  uri_authority u = Some a ->
  wp (serve (H1 := tunnel_service authority_display) conn)
     (fun _ '(_, w') => closed w' /\
        exists time, accepted conn w' = accepted conn w ++ connected_text time v h)
     (fun _ _ => False) (tt, w).
Proof.
  intros Hcf H15 Hconn Hdrop Hc Hf Hat Hex Ha.
  pose proof (fun ts => tunnel_reference fin (length bs) ts bs u a v h body rest skipped Hat Hex Ha) as Href.
  eapply wp_mono; [apply (serve_spec
    (Service0 := tunnel_service authority_display) (ServiceLaws0 := tunnel_laws H15) tunnel_spec
    (fun w' => closed w' /\ exists time, accepted conn w' = accepted conn w ++ connected_text time v h)
    conn tt w bs fin Hc Hf)|..].
  - intros ts. rewrite Href. by eexists.
  - intros ts out up left app' Hr w' [Hacc _]. rewrite Href in Hr. injection Hr as <- <- <-.
    unfold handle, tunnel_handler_tcp, tunnel_handler. cbn [handler]. unfold tunnel_to. wp_steps.
    eapply wp_mono; [exact (Hconn w')|done|]. intros e w1 [Htried Hacc1].
    eapply wp_never_mono; [exact (wp_both _ _ _ _ (Hdrop w1 Htried) (conn_drop_any _ conn w1))|].
    intros [] w2 [Hclosed Hw2]. split; [done|]. exists (ts 0).
    by rewrite (accepted_rstep conn w1 w2), Hacc1, Hacc.
  - intros [] [app' w'] (ts & out & r & Hr & Ho). rewrite Href in Hr. by injection Hr as <- <-.
  - intros e [app' w'] (ts & out & r & app2 & Hr & _ & Ho). rewrite Href in Hr. injection Hr as <- <-.
    by destruct Ho as [[Hno _]|Ho].
Qed.
End service.
