(* ===== verification/Streaming.v ===== *)
(** * Streaming: the services of chunked.rs, trailers.rs and sse.rs

    Each answers with a body whose chunks another thread sends while the connection
    writes them (src/examples/). *)
From stdpp Require Import base list gmap strings.
From Stdlib Require Import Strings.Byte NArith Lia.
From S2P Require Import Prelude Errors StdIo Buffered HttpApi Mpsc ReadQueue QueueLaws.
From S2P Require Import HttpBody Body BodyLaws Threads Message MessageLaws ChunkedLaws Request.
From S2P Require Import RequestLaws Response ResponseLaws Upgrade Tls Connection ConnLaws.
From S2P Require Import Server Reference StreamLaws IncomingLaws ServiceLaws ServerLaws Client.
From S2P Require Import Totality.
From S2P Require Import ClientLaws RoundTrip EndToEnd Examples Routes.

(** [str::contains] *)
Fixpoint str_contains (pattern s : bytes) : bool :=
  bool_decide (take (length pattern) s = pattern) ||
  match s with [] => false | _ :: s => str_contains pattern s end.

(** ** The threads *)

(** chunked.rs *)
Definition chunked_calls : list channel_call :=
  [CallSend (b "chunk1"); CallSleep 1; CallSend (b "chunk2"); CallSleep 1; CallSend (b "chunk3")].

(** trailers.rs: [digest] is the MD5 digest of what was consumed, in base 64. *)
Definition trailers_calls `{!HttpApi} (digest : bytes -> bytes) : list channel_call :=
  let chunks := [b "chunk1"; b "chunk2"; b "chunk3"] in
  let value := digest (concat chunks) in
  (CallSend <$> chunks) ++
  [CallTrailer (inl (b "content-md5"))
     (if header_value_ok value then inl value
      else inr (BoxedApp "failed to parse header value"))].

(** sse.rs *)
Definition sse_connect : bytes :=
  b "event: userconnect" ++ [LF] ++ b "data: {" ++ [x22] ++ b "name" ++ [x22] ++ b ": " ++
  [x22] ++ b "sasha" ++ [x22] ++ b "}" ++ [LF; LF].
Definition sse_message : bytes :=
  b "event: usermessage" ++ [LF] ++ b "data: {" ++ [x22] ++ b "name" ++ [x22] ++ b ": " ++
  [x22] ++ b "sasha" ++ [x22] ++ b ", " ++ [x22] ++ b "message" ++ [x22] ++ b ": " ++
  [x22] ++ b "message" ++ [x22] ++ b "}" ++ [LF; LF].
Definition sse_disconnect : bytes :=
  b "event: userdisconnect" ++ [LF] ++ b "data: {" ++ [x22] ++ b "name" ++ [x22] ++ b ": " ++
  [x22] ++ b "sasha" ++ [x22] ++ b "}" ++ [LF; LF].

Definition sse_calls : list channel_call :=
  [CallSend sse_connect] ++
  concat (repeat [CallSleep 1; CallSend sse_message] 9) ++
  [CallSleep 1; CallSend sse_disconnect].

(** ** The services *)
Section services.
Context `{!HttpApi} `{!Fuel} {W C Hd : Type}.
Context `{!Conn W C} `{!HasStore W (BufReader C)} `{!HasStreams W}.

(** The body of the responses: of [Body::channel], or owned. *)
Abbreviation StreamBody := (Body ThreadReceiver Cursor).
Abbreviation StreamResponse := (Response (UpgradeExtension Hd) C StreamBody).

(** [Response::builder().status(StatusCode::OK).header(name, value).body(body)] *)
Definition with_header (name value : bytes) (body : StreamBody) : StreamResponse :=
  Build_Response STATUS_OK HTTP_11 (hm_insert name value hm_new) no_extensions body.

(** A closure that spawns a thread for its body. Its request is dropped at the end. *)
Definition spawning_call (calls : list channel_call) (name value : bytes) (req : Request (IncomingBody C))
  : ST (unit * W) boxed_error StreamResponse :=
  let! body := zoom_r (streamed_body calls) in
  zoom_r (drop_value (req_body req));;;
  ret (with_header name value body).

(** The closure of chunked.rs *)
Definition chunked_call := spawning_call chunked_calls (b "x-content-type-options") (b "nosniff").

(** The closure of trailers.rs *)
Definition trailers_call (digest : bytes -> bytes) :=
  spawning_call (trailers_calls digest) (b "trailers") (b "content-md5").

(** The closure of sse.rs; [html] is the text of sse.html. *)
Definition accepts_events (headers : HeaderMap) : bool :=
  match hm_get headers (b "accept") ≫= header_to_str with
  | Some accept => str_contains (b "text/event-stream") accept
  | None => false
  end.

Definition sse_call (html : bytes) (req : Request (IncomingBody C))
  : ST (unit * W) boxed_error StreamResponse :=
  if accepts_events (req_headers req)
  then spawning_call sse_calls (b "content-type") (b "text/event-stream") req
  else
    zoom_r (drop_value (req_body req));;;
    ret (with_header (b "content-type") (b "text/html") (Body_from_vec html)).

Definition spawning_service
    (f : Request (IncomingBody C) -> ST (unit * W) boxed_error StreamResponse)
  : Service (W := W) (C := C) (A := unit) (Hd := Hd) := {|
  SBody := StreamBody;
  call := f;
  should_continue := fun E => default_should_continue;
|}.

Definition chunked_service := spawning_service chunked_call.
Definition trailers_service (digest : bytes -> bytes) := spawning_service (trailers_call digest).
Definition sse_service (html : bytes) := spawning_service (sse_call html).
End services.

(** ** As functions of the requests

    A response body is the items a thread sends, or bytes. *)
Section specs.
Context `{!HttpApi} `{!Fuel} {C Hd : Type}.
Abbreviation reply := (list (Chunk + io_error) + bytes)%type.
Abbreviation spec := (app_spec unit (UpgradeExtension Hd) C reply).

Definition reply_len (d : reply) : option N :=
  match d with inl _ => None | inr bs => Some (wrap64 (N.of_nat (length bs))) end.
Definition reply_text (encoding : Encoding) (d : reply) : bytes :=
  match d, encoding with
  | inl items, Chunked => encode_chunks items
  | inl items, _ => payload items
  | inr bs, _ => owned_text bs encoding
  end.

Definition reply_spec (answer : HeaderMap -> (bytes * bytes) * reply) : spec := {|
  app_call app _ _ _ headers _ :=
    let '((name, value), d) := answer headers in
    (app, inl (Build_Response STATUS_OK HTTP_11 (hm_insert name value hm_new) no_extensions d));
  app_reads _ _ _ _ _ _ := false;
  app_continue app _ _ _ _ := (app, STATUS_CONTINUE);
  app_len := reply_len;
  app_body := reply_text;
|}.

(** A closure that always spawns the same thread, as those of chunked.rs and trailers.rs *)
Definition spawning_spec (calls : list channel_call) (name value : bytes) : spec :=
  reply_spec (fun _ => ((name, value), inl (thread_items calls))).
Definition sse_answer (html : bytes) (headers : HeaderMap) : (bytes * bytes) * reply :=
  if accepts_events headers
  then ((b "content-type", b "text/event-stream"), inl (thread_items sse_calls))
  else ((b "content-type", b "text/html"), inr html).
Definition sse_spec (html : bytes) : spec := reply_spec (sse_answer html).
End specs.

(** ** They keep the contract of a service

    The threads have nothing to do with the connections and the readers of requests. *)
Class StreamConn `{!HttpApi} (W C : Type) `{!World W} `{!Conn W C} `{!ConnLaws W C}
    `{!HasStore W (BufReader C)} `{!HasStreams W} := {
  set_streams_readers (s : streams) (w : W) :
    get_store (T := BufReader C) (set_streams s w) = get_store w;
  set_streams_holds (c : C) (s : streams) (w : W) bs fin :
    holds c w bs fin -> holds c (set_streams s w) bs fin;
  set_store_streams (s : store (BufReader C)) (w : W) :
    get_streams (set_store s w) = get_streams w;
  read_streams n s :
    preserves (fun st => get_streams (W := W) st.2 = s) (read (W := W) (R := C) n);
  drop_streams E (c : C) s :
    preserves (fun w => get_streams (W := W) w = s) (drop_value (W := W) (E := E) c);
}.
#[export] Hint Mode StreamConn - ! ! - - - - - : typeclass_instances.

Section laws.
Context `{!HttpApi} `{!Fuel} {W C Hd : Type}.
Context `{!World W} `{!Conn W C} `{!ConnLaws W C} `{!HasStore W (BufReader C)}
  `{!StoreWorld W (BufReader C)} `{!ConnStore W C} `{!HasStreams W} `{!StreamWorld W}
  `{!StreamConn W C}.
Abbreviation item := (Chunk + io_error)%type.
Abbreviation R := (BufReader C).
Implicit Types (w : W).

Lemma aside_hstep k w w' : aside w w' -> hstep (R := R) k w w'.
Proof.
  intros [s ->]. apply hstep_store; [apply set_streams_rstep|apply set_streams_readers].
Qed.

Lemma aside_passed k w w' rest fin :
  aside w w' -> q_passed (R := R) k w rest fin -> q_passed (R := R) k w' rest fin.
Proof.
  intros [s ->] (r & Hk & (rest' & -> & Hl & Hr)). exists r. split.
  - unfold chan_at, the_store in *. by rewrite set_streams_readers.
  - exists rest'. split_and!; [done|done|]. by apply set_streams_holds.
Qed.

Lemma payload_no_errors (items : list item) :
  first_error items = None -> payload (ok_prefix (skip_first_error items)) = payload items.
Proof.
  induction items as [|[[d|t]|e] items IH]; [done| |exact IH|done]. cbn [skip_first_error].
  intros He. by rewrite first_error_None.
Qed.

Lemma stream_deliverable (r : ThreadReceiver) w calls :
  stream_at (rx (thread_rx r)) (get_streams w) (thread_items calls) ->
  S (length (thread_items calls)) < fuel -> length (payload (thread_items calls)) < fuel ->
  deliverable_in (B := Body ThreadReceiver Cursor) aside (MkBody (Some (Iter r))) w
    (fun encoding => reply_text encoding (inl (thread_items calls))).
Proof.
  intros Hs Hl Hp. destruct (thread_items_ok calls) as [Hok He]. split.
  { intros E w' _. apply thread_drop_spec. }
  assert (Hit : produces (HW := reading_world aside) r w (eq (thread_items calls))) by by eexists.
  assert (Hb : bytes_of (HW := reading_world aside)
    (MkBody (Some (Iter r)) : Body ThreadReceiver Cursor) w (payload (thread_items calls))).
  { exists (eq (thread_items calls)). split; [done|]. intros items <-. rewrite Hok. split_and!; [lia|done|done]. }
  assert (Hr : reader_of (HW := reading_world aside)
    (MkBody (Some (Iter r)) : Body ThreadReceiver Cursor) w (payload (thread_items calls))).
  { exists (eq (thread_items calls)). split; [done|]. intros items <-. by rewrite payload_no_errors. }
  intros [n| |]; cbn [sends reply_text].
  - destruct (n <? 1024)%N; eauto.
  - exists (eq (thread_items calls)). split.
    + eexists. split; [exact Hit|]. by intros items <-.
    + intros items <-. split_and!; [lia|done|done].
  - eauto.
Qed.

(** *** The closures *)
Lemma incoming_body_aside k (b : IncomingBody C) w w' body rest skipped fin :
  aside w w' -> incoming_body k b w body rest skipped fin ->
  incoming_body k b w' body rest skipped fin.
Proof.
  intros [s ->]. apply incoming_body_same.
  - intros i _. unfold chan_at, the_store. by rewrite set_streams_readers.
  - intros r bs fin' (rest' & -> & Hl & Hr). exists rest'.
    split_and!; [done|done|]. by apply set_streams_holds.
Qed.

(** Dropping the request leaves the threads alone. *)
Lemma drop_request E k (b : IncomingBody C) w body rest skipped fin :
  incoming_body k b w body rest skipped fin ->
  wp (drop_value (E := E) b)
     (fun _ w' => handed k w w' skipped fin /\ get_streams w' = get_streams w) never w.
Proof.
  intros Hb. eapply wp_mono.
  - apply (wp_preserves (fun w' => get_streams w' = get_streams w)); [|done|by eapply drop_incoming].
    apply incoming_drop_keeps.
    + intros n. apply read_streams.
    + intros E' c. by apply drop_streams.
    + intros s w'. by rewrite set_store_streams.
  - by intros [] w' [Hs Hh].
  - by intros e w' [_ Hno].
Qed.

Lemma reply_answers answer k (app : unit) req (res : Response (UpgradeExtension Hd) C
    (Body ThreadReceiver Cursor)) w skipped fin name value (d : list item + bytes) :
  answer (req_headers req) = ((name, value), d) ->
  res = with_header name value (res_body res) -> reply_len d = len (W := W) (res_body res) ->
  deliverable_in aside (res_body res) w (fun encoding => reply_text encoding d) ->
  q_passed (R := R) k w skipped fin ->
  exists res0, app_call (reply_spec (C := C) (Hd := Hd) answer) app (req_method req) (req_uri req) (req_version req)
                 (req_headers req) (Sized []) = (app, inl res0) /\
    answers_as (reply_spec answer) k req res res0 w skipped fin.
Proof.
  intros Ha Hres Hlen Hd' Hp. cbn [reply_spec app_call]. rewrite Ha. eexists. split; [done|].
  rewrite Hres. apply (lent_answers aside (reply_spec answer) k req
    (with_header name value (res_body res)) d w skipped fin); [|intros w1 w2; apply aside_passed|done..].
  intros w1 w2. apply aside_hstep.
Qed.

Lemma spawning_answers calls answer k (app : unit) w req body rest skipped fin name value :
  incoming_body k (req_body req) w body rest skipped fin ->
  answer (req_headers req) = ((name, value), inl (thread_items calls)) ->
  S (length (thread_items calls)) < fuel -> length (payload (thread_items calls)) < fuel ->
  wp (spawning_call calls name value req)
     (fun res '(app', w') => hstep (R := R) k w w' /\
        exists res0, app_call (reply_spec (C := C) (Hd := Hd) answer) app (req_method req) (req_uri req)
                       (req_version req) (req_headers req) body = (app', inl res0) /\
          answers_as (reply_spec answer) k req res res0 w' skipped fin)
     (fun e '(app', w') => hstep (R := R) k w w' /\ released (C := C) k w' /\
        app_call (reply_spec (C := C) (Hd := Hd) answer) app (req_method req) (req_uri req)
          (req_version req) (req_headers req) body = (app', inr e)) (app, w).
Proof.
  intros Hb Ha Hl Hp. unfold spawning_call. wp_steps.
  eapply wp_never_mono; [apply streamed_body_spec|]. intros tb w1 (Hw1 & r & -> & Hr). wp_steps.
  eapply wp_never_mono.
  { eapply drop_request. by eapply incoming_body_aside. }
  intros [] w2 [[Hw2 Hq] Hs2]. apply wp_ret. cbn [fst snd].
  split; [etrans; [by apply aside_hstep|done]|].
  eapply (reply_answers answer k app req (with_header name value (MkBody (Some (Iter r)))) w2 skipped fin);
    [exact Ha|done|done| |done].
  apply stream_deliverable; [by rewrite Hs2|done|done].
Qed.

Lemma spawning_laws calls name value :
  S (length (thread_items calls)) < fuel -> length (payload (thread_items calls)) < fuel ->
  ServiceLaws (W := W) (Service0 := spawning_service (Hd := Hd) (spawning_call calls name value))
    (spawning_spec calls name value).
Proof.
  intros Hl Hp. split.
  - intros k app w req body rest skipped fin Hb.
    by apply (spawning_answers calls (fun _ => ((name, value), inl (thread_items calls)))
      k app w req body rest).
  - intros E app w req. by apply wp_ret.
Qed.

Lemma owned_text_deliverable bs w :
  length bs < fuel -> 1 < fuel ->
  deliverable_in (B := Body ThreadReceiver Cursor) aside (Body_from_vec bs) w
    (fun encoding => reply_text encoding (inr bs)).
Proof.
  intros Hl Hf. split; [intros E w' _; apply wp_ret; by apply (reflexivity (R := aside))|].
  intros [n| |]; cbn [sends reply_text owned_text].
  - by destruct (n <? 1024)%N; exists bs.
  - exists (eq [inl (Data bs)]). split; [done|]. by intros items <-.
  - by exists bs.
Qed.

Lemma sse_laws html : 1000 < fuel -> length html < fuel ->
  ServiceLaws (W := W) (Service0 := sse_service (Hd := Hd) html) (sse_spec html).
Proof.
  intros Hf Hl.
  assert (Hs : length (thread_items sse_calls) = 11 /\ length (payload (thread_items sse_calls)) <= 900)
    by (vm_compute; lia).
  split.
  - intros k app w req body rest skipped fin Hb. cbn [app_reads sse_spec reply_spec]. cbv zeta.
    unfold call, sse_service, spawning_service, sse_call.
    destruct (accepts_events (req_headers req)) eqn:Hacc.
    + apply (spawning_answers sse_calls (sse_answer html) k app w req body rest); [done| |lia..].
      unfold sse_answer. by rewrite Hacc.
    + wp_steps. eapply wp_never_mono; [by eapply (drop_incoming _ k)|]. intros [] w' [Hw Hp].
      apply wp_ret. split; [done|].
      apply (reply_answers (sse_answer html) k app req _ w' skipped fin (b "content-type") (b "text/html") (inr html));
        [by unfold sse_answer; rewrite Hacc|done|done|apply owned_text_deliverable; [done|lia]|done].
  - intros E app w req. by apply wp_ret.
Qed.
End laws.

(** ** A client reads what the thread sent *)
Section streamed.
Context `{!HttpApi} `{!HttpApiLaws} `{!HttpHeadLaws} `{!Fuel}.
Context {W C Hd : Type} `{!World W} `{!Conn W C} `{!ConnLaws W C} `{!HasStore W (BufReader C)}
  `{!StoreWorld W (BufReader C)} `{!ConnStore W C} `{!HasStreams W} `{!StreamWorld W}
  `{!StreamConn W C} `{!UpgradeHandler W Hd C} `{!Clock W} `{!ClockLaws (W := W)}.
(** The client reads the response from the stream [R]. *)
Context {V R : Type} `{!World V} `{!BufRead V R} `{!Drop V R} `{!BufReadLaws V R}.
Variables (calls : list channel_call) (name value : bytes).
(** The header does not interfere with the framing, and the headers can be sent. *)
Hypothesis other_header :
  name <> b "transfer-encoding" /\ name <> b "content-length" /\ name <> b "connection".
Hypothesis sendable_answer :
  forall time, sendable (te_insert_chunked (dated time (hm_insert name value hm_new))).

Lemma streamed_headers time :
  te_try_get (dated time (hm_insert name value hm_new)) = inl None /\
  cl_try_get (dated time (hm_insert name value hm_new)) = inl None /\
  conn_get (dated time (hm_insert name value hm_new)) = None.
Proof.
  destruct hm_new_framing as [Hte Hcl], other_header as (Hn1 & Hn2 & Hn3).
  destruct (hm_insert_others name value hm_new) as (Hte' & Hcl' & Hconn').
  rewrite <-Hte, <-Hcl, <-hm_new_conn, <-Hte', <-Hcl', <-Hconn' by done.
  unfold dated. destruct (date_is_set _); [done|]. apply date_insert_others.
Qed.

Lemma streamed_framing time keep :
  response_framing HTTP_11 (dated time (version_headers HTTP_11 keep (hm_insert name value hm_new))) None =
  inl (Chunked, te_insert_chunked (dated time (hm_insert name value hm_new))).
Proof.
  change (version_headers HTTP_11 keep ?h) with h.
  destruct (streamed_headers time) as (Hte & Hcl & Hconn).
  unfold response_framing, response_encoding. rewrite has_chunked_try, cl_get_try, Hte, Hcl.
  cbn [andb]. unfold connection_has. by rewrite Hconn.
Qed.

Lemma streamed_answers method uri h body :
  status_from_u16 STATUS_OK = Some STATUS_OK -> Forall sound_item (thread_items calls) ->
  length (thread_items calls) < fuel ->
  answers_with (spawning_spec (C := C) (Hd := Hd) calls name value) tt method uri HTTP_11 h body
    STATUS_OK (payload (thread_items calls)).
Proof.
  intros Hst Hsound Hl. split; [done|]. do 2 eexists. split; [done|]. cbn [res_status res_extensions res_headers res_body].
  split_and!; [done|done| |done|].
  - destruct hm_new_framing as [Hte Hcl], other_header as (Hn1 & Hn2 & Hn3).
    destruct (hm_insert_others name value hm_new) as (Hte' & Hcl' & _).
    unfold plain_framing. rewrite cl_get_try, Hte', Hcl', Hte, Hcl by done. split; [by left|done].
  - intros time keep. do 2 eexists. split; [apply streamed_framing|]. split; [done|].
    exists (thread_items calls). by split_and!.
Qed.

(** What is written at the time [time]: the head, every chunk as it was sent, the last chunk,
    and behind it the lines of the trailers. *)
Definition streamed_text (time : N) : bytes :=
  message_head (status_line HTTP_11 STATUS_OK)
    (hm_iter (te_insert_chunked (dated time (hm_insert name value hm_new)))) ++
  encode_chunks (thread_items calls).

Lemma streamed_reference ts n text method uri h body :
  request_at None text = Arrives method uri HTTP_11 h body [] [] -> 0 < fuel ->
  expect_is_continue h = false -> should_write_body method STATUS_OK = true ->
  reference (spawning_spec (C := C) (Hd := Hd) calls name value) None (S (S n)) ts tt text =
  Some (streamed_text (ts 0), Closed, tt).
Proof.
  intros Hat Hf Hexp Hw. cbn [reference]. rewrite Hat. unfold exchange, served, respond. rewrite Hexp.
  cbn [spawning_spec reply_spec app_call app_len app_body app_reads res_status res_extensions res_headers
       res_body reply_len reply_text].
  cbv zeta. rewrite streamed_framing, Hw. unfold after_response. cbn [ext_upgrade no_extensions].
  cbn [mbind option_bind]. fold (streamed_text (ts 0)).
  destruct (_ && _); [|done]. rewrite request_at_end by done. cbn [mbind option_bind].
  by rewrite app_nil_r.
Qed.

(** C6. A response whose body another thread sends, as in src/examples/chunked.rs and
    trailers.rs, whatever the interleaving of that thread with the connection that writes
    the response: what is written is the head, each chunk that the thread sent, in order, and
    the trailers that it sent behind the last one ([streamed_text]). A client that reads it
    with [parse_response] gets the data of all chunks; trailers are not for it. *)
Theorem streamed_response_read (conn : C) (w : W) text method uri h body :
  status_from_u16 STATUS_OK = Some STATUS_OK -> Forall sound_item (thread_items calls) ->
  S (length (thread_items calls)) < fuel -> length (payload (thread_items calls)) < fuel ->
  (N.of_nat (length (payload (thread_items calls))) <= isize_max)%N ->
  holds conn w text None -> S (length text) < fuel ->
  request_at None text = Arrives method uri HTTP_11 h body [] [] ->
  expect_is_continue h = false -> should_write_body method STATUS_OK = true ->
  wp (serve (H1 := spawning_service (Hd := Hd) (spawning_call calls name value)) conn)
     (fun _ '(_, w') => exists time, drained conn (accepted conn w ++ streamed_text time) w' /\
        reads_as (U := UpgradeExtension Hd) (C := C) (V := V) (R := R) HTTP_11 STATUS_OK
          (payload (thread_items calls)) (streamed_text time))
     (fun _ _ => raw_can_fail W C) (tt, w).
Proof.
  intros Hst Hsound Hl Hp Hmax Hc Hf Hat Hexp Hflag.
  set (sp := spawning_spec (C := C) (Hd := Hd) calls name value).
  assert (Href : forall ts, reference sp None (S (length text)) ts tt text =
      Some (streamed_text (ts 0), Closed, tt) /\
    reads_as (U := UpgradeExtension Hd) (C := C) (V := V) (R := R) HTTP_11 STATUS_OK
      (payload (thread_items calls)) (streamed_text (ts 0))).
  { intros ts. destruct (length text) as [|n] eqn:Hn.
    { destruct text; [|done]. rewrite request_at_end in Hat by lia. done. }
    pose proof (streamed_reference ts n text method uri h body Hat ltac:(lia) Hexp Hflag) as Hr.
    split; [done|].
    destruct (reference_once (V := V) (R := R) sp ts tt text n method uri HTTP_11 h body STATUS_OK
      (payload (thread_items calls)) Hat ltac:(lia) (or_intror eq_refl) Hflag Hexp) as (out & app' & Hr2 & Hread);
      [apply streamed_answers; [done|done|lia]|done|].
    unfold sp in Hr2. rewrite Hr in Hr2. by injection Hr2 as <- _. }
  eapply wp_mono; [apply (serve_reference (ServiceLaws0 := spawning_laws calls name value Hl Hp)
                            sp conn tt w text None Hc Hf)|..].
  - intros ts. destruct (Href ts) as [-> _]. by do 3 eexists.
  - intros [] [app' w'] (ts & out & Hr & Hdr). destruct (Href ts) as [Hr2 Hread].
    rewrite Hr in Hr2. injection Hr2 as -> _. by exists (ts 0).
  - intros e [app' w'] (ts & out & r & app2 & Hr & _ & [(-> & _)|Hcf]); [|done].
    destruct (Href ts) as [Hr2 _]. by rewrite Hr in Hr2.
Qed.
End streamed.
