(* ===== verification/Witnesses.v ===== *)
(** * Witnesses: every property at a concrete input

    The libraries are [model_api]; streams are cursors over bytes or the connection
    in memory of Echo.v. *)
From stdpp Require Import base list gmap strings.
From Stdlib Require Import Strings.Byte NArith Lia.
From S2P Require Import Prelude Errors StdIo Buffered HttpApi HttpModel Mpsc ReadQueue.
From S2P Require Import QueueLaws HttpBody Body BodyLaws Message MessageLaws ChunkedLaws.
From S2P Require Import Request RequestLaws Response ResponseLaws Upgrade Tls Connection.
From S2P Require Import TlsLaws ConnLaws Server Reference IncomingLaws ServiceLaws ServerLaws.
From S2P Require Import Totality.
From S2P Require Import Echo Client ClientLaws.
From S2P Require Import RoundTrip HeadModel EndToEnd Utf8 Examples AcceptLaws Routes Pipeline.

#[local] Existing Instance model_api.
#[local] Existing Instance model_api_laws.
#[local] Instance small_fuel : Fuel := 200.

Definition two_requests : bytes :=
  b "POST / HTTP/1.1" ++ CRLF ++ b "content-length: 5" ++ CRLF ++ CRLF ++ b "hello" ++
  b "GET /x HTTP/1.0" ++ CRLF ++ CRLF.

Definition start_wire (bs : bytes) : wire := {| wire_store := Build_store 0 ∅; wire_in := bs; wire_out := [] |}.

(** Three requests, the second with a body in chunks. *)
Definition three_requests : bytes :=
  b "POST / HTTP/1.1" ++ CRLF ++ b "content-length: 5" ++ CRLF ++ CRLF ++ b "hello" ++
  b "PUT /y HTTP/1.1" ++ CRLF ++ b "transfer-encoding: chunked" ++ CRLF ++ CRLF ++
  b "3" ++ CRLF ++ b "abc" ++ CRLF ++ b "0" ++ CRLF ++ CRLF ++
  b "GET /x HTTP/1.0" ++ CRLF ++ CRLF.

(** All requests are answered, the last one closes the connection. *)
Lemma serve_refines_witness :
  wp (serve (Hd := unit) Sock) (fun _ '(app, w) => app = 3)
     (fun _ _ => False) (0, start_wire three_requests).
Proof.
  assert (Href : forall ts, exists out,
    reference (echo_spec (C := sock) (Hd := unit)) None (S (length three_requests)) ts 0 three_requests = Some (out, Closed, 3)).
  { intros ts. eexists. vm_compute. reflexivity. }
  eapply wp_mono; [apply (serve_refines (Service0 := echo_service)
    (echo_spec (C := sock) (Hd := unit)) (fun _ => False) Sock 0 (start_wire three_requests)
    three_requests None)| |].
  - by split.
  - vm_compute. lia.
  - intros ts. eexists. vm_compute. reflexivity.
  - intros ts out up left app' Hr. destruct (Href ts) as [out' Hr'].
    pose proof (eq_trans (eq_sym Hr) Hr') as Heq. discriminate Heq.
  - intros [] [app w] (ts & out & r & Hr & _). destruct (Href ts) as [out' Hr'].
    pose proof (eq_trans (eq_sym Hr) Hr') as Heq. by injection Heq.
  - intros e [app w] (ts & out & r & app2 & Hr & _ & Ho). destruct (Href ts) as [out' Hr'].
    pose proof (eq_trans (eq_sym Hr) Hr') as Heq. injection Heq as _ -> _. destruct Ho as [[Hno _]|Ho]; [discriminate Hno|exact Ho].
Defined.

(** A chunked request with a line that is no chunk size, and another request behind it; then
    one that the stream cuts off. *)
Definition malformed_requests : bytes :=
  b "POST / HTTP/1.1" ++ CRLF ++ b "transfer-encoding: chunked" ++ CRLF ++ CRLF ++
  b "3" ++ CRLF ++ b "abc" ++ CRLF ++ b "zz" ++ CRLF ++
  b "PUT / HTTP/1.1" ++ CRLF ++ b "transfer-encoding: chunked" ++ CRLF ++ CRLF ++
  b "3" ++ CRLF ++ b "a".

Lemma serve_returns_witness :
  wp (serve (Hd := unit) Sock) (fun _ _ => True) (fun _ _ => True) (0, start_wire malformed_requests).
Proof.
  apply (serve_returns (Service0 := echo_service) (echo_spec (C := sock) (Hd := unit))
    Sock 0 (start_wire malformed_requests) malformed_requests).
  - by split.
  - vm_compute. lia.
  - apply suffixes_answerable. vm_compute. reflexivity.
  - intros up left out w' _. by apply wp_ret.
Defined.

(** ** The read queue *)
Section queue.
#[local] Instance cursor_local : LocalReader (R := Cursor).
Proof. split; [intros n r w; left; by eexists _, _|done]. Defined.

Definition hello : Cursor := Cursor_new (b "hello").

(** Two handles, the first of them not dropped. *)
Definition reading : QueuedReader Cursor :=
  Build_QueuedReader (Some (Current hello)) (Build_Sender 0).
Definition waiting : QueuedReader Cursor :=
  Build_QueuedReader (Some (Waiting (Build_Receiver 0))) (Build_Sender 1).
Definition two_handles : system (R := Cursor) := {|
  sys_queue := Some (Next (Build_Receiver 1));
  sys_handles := [Some reading; Some waiting];
  sys_store := Build_store 2 (<[1 := Build_chan [] true true]>
                                (<[0 := Build_chan [] true true]> ∅));
|}.

Lemma two_handles_reachable : reachable hello two_handles.
Proof.
  eapply rtc_l; [by apply (step_enqueue (ReadQueue_new hello))|].
  eapply rtc_l; [by apply step_enqueue|]. apply rtc_refl.
Qed.

Lemma queued_read_waits_witness :
  read 3 (waiting, sys_store two_handles) = Block.
Proof.
  apply (queued_read_waits_for_earlier hello two_handles 1 waiting 3 two_handles_reachable eq_refl).
  exists 0, reading. split; [lia|reflexivity].
Defined.

Lemma queued_read_exclusive_witness : ~ (read 3 (waiting, sys_store two_handles) <> Block).
Proof.
  intros Hread. enough (Heq : 0 = 1) by discriminate.
  apply (queued_read_exclusive hello two_handles 0 1 reading waiting 3 3
           two_handles_reachable eq_refl eq_refl).
  - vm_compute. discriminate.
  - exact Hread.
Defined.

Lemma queued_never_panics_witness : read 3 (reading, sys_store two_handles) <> Panic.
Proof.
  apply (queued_never_panics hello two_handles 0 reading 3 two_handles_reachable eq_refl).
Defined.
End queue.

(** On the connection in memory: the handle of channel 0 has the reader, the handle
    of channel 1 waits for it. *)
Definition handed_wire (bs : bytes) : wire := {|
  wire_store := Build_store 2 (<[1 := Build_chan [] true true]>
                                 (<[0 := Build_chan [] true true]> ∅));
  wire_in := bs; wire_out := [];
|}.
Definition first_handle : QReader sock :=
  Build_QueuedReader (Some (Current (BufReader_new Sock))) (Build_Sender 0).

Definition second_handle : QReader sock :=
  Build_QueuedReader (Some (Waiting (Build_Receiver 0))) (Build_Sender 1).

Lemma first_handle_holds bs : q_holds 0 first_handle (handed_wire bs) bs None.
Proof. split; [by split|]. by apply buf_holds_new. Qed.

Lemma drop_hands_over_witness :
  wp (drop_value (E := io_error) first_handle)
     (fun _ w' => q_holds 1 second_handle w' (b "hello") None)
     never (handed_wire (b "hello")).
Proof.
  apply (drop_hands_over 0 1 first_handle (handed_wire (b "hello")) (b "hello") None).
  - lia.
  - apply first_handle_holds.
  - reflexivity.
Defined.

Lemma handle_reads_through_witness :
  wp (read_to_end 6) (fun got _ => got = b "hello") never (first_handle, handed_wire (b "hello")).
Proof.
  eapply wp_never_mono.
  - apply (handle_reads_through 0 first_handle (handed_wire (b "hello")) (b "hello") 6).
    + apply first_handle_holds.
    + vm_compute. lia.
  - intros got [q w] [Hgot _]. exact Hgot.
Defined.

(** ** Bodies

    A chunked sequence with trailers in between, and streams that hold [hello] and
    more. *)
Definition chunks : list (Chunk + io_error) :=
  [inl (Data (b "he")); inl (Trailers hm_new); inl (Data (b "llo"))].

Abbreviation VecBody := (Body (list (Chunk + io_error)) Cursor).

(** A body in chunks, and one of five bytes on a longer stream. *)
Definition five_of_stream : VecBody := Body_from_reader (Cursor_new (b "hello world")) (Some 5%N).

Lemma body_views_agree_witness :
  wp (all_chunks (W := unit) (MkBody (Some (Iter chunks)) : VecBody)) (fun got _ => got = b "hello") never tt /\
  wp (into_bytes (W := unit) five_of_stream) (fun got _ => got = b "hello") never tt.
Proof.
  split.
  - apply (body_views_agree (W := unit) (MkBody (Some (Iter chunks)) : VecBody) tt (b "hello") [] None).
    + vm_compute. lia.
    + vm_compute. lia.
    + split; [reflexivity|]. split; [reflexivity|]. exists (eq chunks). split; [reflexivity|].
      intros items <-. split; [vm_compute; lia|by split].
    + reflexivity.
    + reflexivity.
  - refine (proj1 (body_views_agree (W := unit) five_of_stream tt (b "hello") (b " world") None _ _ _)).
    + vm_compute. lia.
    + vm_compute. lia.
    + split; [split; reflexivity|]. split; [vm_compute; lia|].
      split; [vm_compute; discriminate|]. split; [vm_compute; discriminate|]. right. reflexivity.
Defined.

Lemma body_into_bytes_first_error_witness :
  wp (into_bytes (MkBody (Some (Iter (chunks ++ [inr (io_other "bad"); inl (Data [])]))) : VecBody))
     (fun _ _ => False) (fun e _ => e = io_other "bad") tt.
Proof.
  eapply wp_mono.
  - apply (body_into_bytes_first_error (W := unit) (R := Cursor)
      (chunks ++ [inr (io_other "bad"); inl (Data [])]) tt
      (eq (chunks ++ [inr (io_other "bad"); inl (Data [])])) (b "hello") (Some (io_other "bad"))).
    + reflexivity.
    + intros items <-. split; [vm_compute; lia|by split].
  - intros got w [Hno _]. discriminate Hno.
  - intros e w He. by injection He.
Defined.

(** Eight bytes, of which the body is the first five. *)
Lemma chunks_overrun_witness :
  wp (body_into_bytes (Body_from_reader (I := IterVec) (Cursor_new (b "hello...")) (Some 5%N)))
     (fun got _ => got = b "hello") never tt /\
  wp (all_chunks (Body_from_reader (I := IterVec) (Cursor_new (b "hello...")) (Some 5%N)))
     (fun got _ => got = b "hello...") never tt.
Proof.
  apply (chunks_overrun (W := unit) (I := IterVec) tt (b "hello...") 5).
  - vm_compute. by split.
  - unfold DEFAULT_BUF_SIZE. cbn. lia.
  - vm_compute. lia.
Defined.

(** The stream of the connection, of which the body is the first five bytes. *)
Lemma body_drop_skips_witness :
  wp (body_drop_impl (E := io_error)
        (Body_from_reader (I := ChunkedReader (QReader sock)) first_handle (Some 5%N)))
     (fun _ w' => q_passed (R := BufReader sock) 0 w' (b "GET") None) never
     (handed_wire (b "helloGET")).
Proof.
  apply (body_drop_skips (World0 := handle_world 0) (ReadLaws0 := queued_read_laws 0)
           first_handle 5 (handed_wire (b "helloGET")) (b "helloGET") None).
  - apply first_handle_holds.
  - lia.
  - left. vm_compute. lia.
  - vm_compute. lia.
Defined.

Lemma channel_streams_witness :
  wp (let! (channel, body) := Body_channel in
      send_all channel [b "he"; b "llo"];;;
      channel_drop channel;;;
      body_into_bytes (R := Cursor) body)
     (fun got _ => got = b "hello") never (Build_store 0 ∅).
Proof. apply (channel_streams [b "he"; b "llo"] (Build_store 0 ∅)). vm_compute. lia. Defined.

Lemma channel_abort_fails_witness :
  wp (let! (channel, body) := Body_channel in
      send_all channel [b "he"; b "llo"];;;
      channel_abort channel;;;
      body_into_bytes (R := Cursor) body)
     (fun _ _ => False) (fun e _ => e = io_other "aborted") (Build_store 0 ∅).
Proof. apply (channel_abort_fails [b "he"; b "llo"] (Build_store 0 ∅)). vm_compute. lia. Defined.

Lemma channel_closed_body_witness :
  wp (body_drop_impl (E := io_error) (R := Cursor)
        (MkBody (Some (Iter (Build_Receiver 0))));;;
      channel_send (Build_BodyChannel (Build_Sender 0)) (b "late"))
     (fun _ _ => False) (fun e _ => e = io_other "body closed")
     (Build_store 1 (<[0 := Build_chan [] true true]> ∅)).
Proof.
  apply (channel_closed_body (Build_BodyChannel (Build_Sender 0)) (b "late")
           (Build_store 1 (<[0 := Build_chan [] true true]> ∅)) (Build_chan [] true true)).
  reflexivity.
Defined.

(** ** Chunks *)
Lemma chunks_sound : Forall sound_item chunks.
Proof. repeat constructor; try discriminate; vm_compute; discriminate. Qed.

Lemma chunked_round_trip_witness :
  wp (body_into_bytes (W := unit) (R := Cursor)
        (Body_from_iter (MkChunkedReader (Cursor_new (encode_chunks chunks ++ b "GET")))))
     (fun got _ => got = b "hello") never tt.
Proof.
  eapply wp_never_mono.
  - apply (chunked_round_trip (Cursor_new (encode_chunks chunks ++ b "GET")) tt chunks (b "GET") None).
    + apply chunks_sound.
    + by split.
    + vm_compute. lia.
    + vm_compute. lia.
  - intros got w' [Hgot _]. exact Hgot.
Defined.

Lemma malformed_chunk_ends_body_witness :
  wp (body_into_bytes (W := unit) (R := Cursor)
        (Body_from_iter (MkChunkedReader
          (Cursor_new (concat (chunk_text <$> chunks) ++ b "zz" ++ LF :: b "GET")))))
     (fun got _ => got = b "hello") never tt.
Proof.
  eapply wp_never_mono.
  - apply (malformed_chunk_ends_body (Cursor_new (concat (chunk_text <$> chunks) ++ b "zz" ++ LF :: b "GET"))
      tt chunks (b "zz") (b "GET") None).
    + apply chunks_sound.
    + apply memchr_None. reflexivity.
    + reflexivity.
    + by split.
    + vm_compute. lia.
    + vm_compute. lia.
  - intros got w' [Hgot _]. exact Hgot.
Defined.

Lemma empty_chunk_truncates_witness :
  wp (body_into_bytes (W := unit) (R := Cursor)
        (Body_from_iter (MkChunkedReader
          (Cursor_new (encode_chunks (chunks ++ inl (Data []) :: [inl (Data (b "lost"))]) ++ [])))))
     (fun got _ => got = b "hello") never tt.
Proof.
  apply (empty_chunk_truncates
    (Cursor_new (encode_chunks (chunks ++ inl (Data []) :: [inl (Data (b "lost"))]) ++ []))
    tt chunks [inl (Data (b "lost"))] [] None).
  - apply chunks_sound.
  - by split.
  - vm_compute. lia.
  - vm_compute. lia.
Defined.

Lemma chunked_next_total_witness :
  wp (chunked_next (W := unit)) (fun got _ => got = None) never (Cursor_new (b "zz" ++ CRLF), tt).
Proof.
  eapply wp_never_mono.
  - apply (chunked_next_total (Cursor_new (b "zz" ++ CRLF)) tt (b "zz" ++ CRLF) None None).
    + by split.
    + vm_compute. lia.
    + vm_compute. reflexivity.
  - intros got [r w] Hgot. exact Hgot.
Defined.

Lemma huge_chunk_panics_witness :
  chunked_next (W := unit) (Cursor_new (hex (2 ^ 63) ++ CRLF ++ b "x"), tt) = Panic.
Proof.
  apply (huge_chunk_panics (Cursor_new (hex (2 ^ 63) ++ CRLF ++ b "x")) tt (2 ^ 63) (b "x") None).
  - by split.
  - by split.
  - vm_compute. lia.
Defined.

(** ** Requests *)
Lemma parse_request_takes_witness :
  wp (parse_request (W := unit) (Cursor_new two_requests))
     (fun req w' => request_taken two_requests None req w')
     (fun e w' => request_refused (R := Cursor) two_requests None e w') tt.
Proof.
  apply (parse_request_takes (Cursor_new two_requests) tt two_requests None).
  - by split.
  - vm_compute. lia.
Defined.

Lemma read_head_stops_witness :
  wp (read_head (W := unit))
     (fun head '(r, _) => head = head_text [b "GET / HTTP/1.1"; b "host: x"] /\
                          cursor_rest r = b "rest")
     never (Cursor_new (head_text [b "GET / HTTP/1.1"; b "host: x"] ++ b "rest"), tt).
Proof.
  eapply wp_never_mono.
  - apply (read_head_stops (W := unit)
      (Cursor_new (head_text [b "GET / HTTP/1.1"; b "host: x"] ++ b "rest")) tt
      [b "GET / HTTP/1.1"; b "host: x"] (b "rest") None).
    + repeat constructor; try discriminate; set_solver.
    + discriminate.
    + by split.
    + vm_compute. lia.
  - intros head [r w] [Hh [Hr _]]. by split.
Defined.

Lemma connection_closed_witness :
  wp (parse_request (W := unit) (Cursor_new [])) (fun _ _ => False)
     (fun e _ => e = ConnectionClosed) tt.
Proof.
  eapply wp_mono.
  - apply (connection_closed_iff (Cursor_new []) tt [] None); [by split|vm_compute; lia].
  - intros req w Hne. by apply Hne.
  - intros e w He. by apply He.
Defined.

(** ** Responses *)
Definition ok_response {U C} (headers : HeaderMap) (bs : bytes) : Response U C VecU8 :=
  Build_Response 200%N HTTP_11 headers no_extensions {| vec_bytes := bs |}.
Definition fresh_writer : BufWriter sock := BufWriter_new Sock.

Lemma vec_droppable (bs : bytes) (w : wire) : droppable {| vec_bytes := bs |} w.
Proof. intros E w' _. apply wp_ret. reflexivity. Qed.

Lemma write_response_output_witness :
  wp (write_response (ok_response (U := unit) (C := sock) hm_new (b "hello")) true)
     (fun outcome '(s, w) => outcome = KeepAlive /\
        written s w = b "HTTP/1.1 200 OK" ++ CRLF ++ b "content-length: 5" ++ CRLF ++ CRLF ++ b "hello")
     (fun _ _ => False) (fresh_writer, start_wire []).
Proof.
  eapply wp_mono.
  - apply (write_response_output (ok_response (U := unit) (C := sock) hm_new (b "hello")) true
      fresh_writer (start_wire []) (FixedLength 5) (cl_insert 5 hm_new) (eq (b "hello"))).
    + reflexivity.
    + apply vec_droppable.
    + exists (b "hello"). by split.
  - intros outcome [s w] (-> & out & <- & ->). by split.
  - intros e [s w] [Hno _]. exact Hno.
Defined.

Lemma write_response_mismatch_witness :
  wp (write_response (ok_response (U := unit) (C := sock) (cl_insert 3 hm_new) (b "hello")) true)
     (fun _ _ => False) (fun e '(s, w) => e = length_mismatch /\ written s w = [])
     (fresh_writer, start_wire []).
Proof.
  eapply wp_mono.
  - apply (write_response_mismatch
      (ok_response (U := unit) (C := sock) (cl_insert 3 hm_new) (b "hello")) true
      fresh_writer (start_wire []) 3 5); [reflexivity..| |].
    + discriminate.
    + apply vec_droppable.
  - done.
  - intros e [s w] (-> & -> & ->). by split.
Defined.

Lemma response_framing_sound_witness :
  announced (FixedLength 5) (cl_insert 5 hm_new).
Proof.
  apply (response_framing_sound (W := wire)
    (ok_response (U := unit) (C := sock) hm_new (b "hello")) (FixedLength 5) (cl_insert 5 hm_new)).
  - by right.
  - split; [by left|reflexivity].
  - intros n Hn. injection Hn as <-. lia.
  - reflexivity.
Defined.

Lemma keep_alive_delimited_witness : connection_has "close" (cl_insert 5 hm_new) = false.
Proof.
  apply (keep_alive_delimited (W := wire)
    (ok_response (U := unit) (C := sock) hm_new (b "hello")) (FixedLength 5) (cl_insert 5 hm_new)).
  - by right.
  - split; [by left|reflexivity].
  - intros n Hn. injection Hn as <-. lia.
  - reflexivity.
  - reflexivity.
Defined.

Definition ok_bytes : bytes :=
  b "HTTP/1.1 200 OK" ++ CRLF ++ b "content-length: 2" ++ CRLF ++ CRLF ++ b "ok".

Lemma parse_response_takes_witness :
  wp (parse_response (W := unit) (U := unit) (C := unit) (Cursor_new ok_bytes))
     (fun res w' => response_taken ok_bytes None res w')
     (fun e w' => response_refused (R := Cursor) ok_bytes None e w') tt.
Proof.
  apply (parse_response_takes (Cursor_new ok_bytes) tt ok_bytes None).
  - by split.
  - vm_compute. lia.
Defined.

(** ** The client *)
Definition post (version : Version) (headers : HeaderMap) (bs : bytes) : Request VecU8 :=
  Build_Request POST (b "http://host:81/x") version headers {| vec_bytes := bs |}.

Lemma write_request_output_witness :
  wp (write_request (post HTTP_11 hm_new (b "hello")))
     (fun _ '(s, w) => written s w =
        b "POST http://host:81/x HTTP/1.1" ++ CRLF ++ b "content-length: 5" ++ CRLF ++ CRLF ++ b "hello")
     (fun _ _ => False) (fresh_writer, start_wire []).
Proof.
  eapply wp_mono.
  - apply (write_request_output (post HTTP_11 hm_new (b "hello")) fresh_writer (start_wire [])
      (FixedLength 5) (cl_insert 5 hm_new)
      (b "POST http://host:81/x HTTP/1.1" ++ CRLF ++ b "content-length: 5" ++ CRLF ++ CRLF)
      (eq (b "hello"))).
    + reflexivity.
    + apply vec_droppable.
    + exists (b "hello"). by split.
  - intros u [s w] (out & <- & ->). reflexivity.
  - intros e [s w] [Hno _]. exact Hno.
Defined.

Lemma request_framing_sound_witness : announced (FixedLength 5) (cl_insert 5 hm_new).
Proof.
  eapply (request_framing_sound (W := wire) (post HTTP_11 hm_new (b "hello"))
            (FixedLength 5) (cl_insert 5 hm_new)).
  - reflexivity.
  - split; [by left|reflexivity].
  - intros n Hn. injection Hn as <-. lia.
  - reflexivity.
Defined.

Lemma http10_request_keeps_chunked_witness :
  exists headers head,
    request_framing (W := wire) (post HTTP_10 (te_insert_chunked hm_new) (b "hello")) =
      inl (FixedLength 5, headers, head) /\
    request_plan headers = inl PlanChunked.
Proof.
  apply (http10_request_keeps_chunked (post HTTP_10 (te_insert_chunked hm_new) (b "hello")) 5);
    reflexivity.
Defined.

Lemma hello_deliverable (w : wire) :
  deliverable (B := VecU8) {| vec_bytes := b "hello" |} w (owned_text (b "hello")).
Proof. apply (vec_deliverable (b "hello") w); vm_compute; lia. Qed.

Definition post_head : bytes :=
  b "POST http://host:81/x HTTP/1.1" ++ CRLF ++ b "content-length: 5" ++ CRLF ++ CRLF.

Lemma send_request_exchange_witness :
  wp (send_request (U := unit) Sock (post HTTP_11 hm_new (b "hello")))
     (fun '(outcome, res) w => accepted Sock w = post_head ++ b "hello")
     (fun e w => exchange_failed Sock (start_wire ok_bytes) (post_head ++ b "hello") ok_bytes None e w)
     (start_wire ok_bytes).
Proof.
  eapply wp_mono.
  - apply (send_request_exchange Sock (post HTTP_11 hm_new (b "hello")) (start_wire ok_bytes)
      ok_bytes None (FixedLength 5) (cl_insert 5 hm_new) post_head (owned_text (b "hello"))).
    + by split.
    + vm_compute. lia.
    + reflexivity.
    + intros w' _. apply hello_deliverable.
  - intros [outcome res] w [Hacc _]. exact Hacc.
  - intros e w He. exact He.
Defined.

(** The request with its [host] header, and the pool that has a connection. *)
Definition hosted_head : bytes :=
  b "POST http://host:81/x HTTP/1.1" ++ CRLF ++ b "host: host" ++ CRLF ++
  b "content-length: 5" ++ CRLF ++ CRLF.
Definition host_authority : Authority := b "host:81".

Lemma hosted_exchange (w : wire) :
  wire_in w = ok_bytes ->
  can_exchange (with_host (authority_host host_authority) (post HTTP_11 hm_new (b "hello")))
    (hosted_head ++ b "hello") ok_bytes None Sock w.
Proof.
  intros Hw. split; [by split|]. split; [vm_compute; lia|].
  exists (FixedLength 5), (cl_insert 5 (hm_insert (b "host") (b "host") hm_new)), hosted_head,
    (owned_text (b "hello")).
  split_and!; [reflexivity|reflexivity|]. intros w' _. apply hello_deliverable.
Qed.

Lemma client_reuses_witness :
  wp (client_request (U := unit) (fun _ => panic) (post HTTP_11 hm_new (b "hello")))
     (fun res '(cl, w) => wire_out w = hosted_head ++ b "hello")
     (fun e '(cl, w) => connections cl = delete (authority_key host_authority)
                                          {[ authority_key host_authority := Sock ]})
     ({| connections := {[ authority_key host_authority := Sock ]} |}, start_wire ok_bytes).
Proof.
  eapply wp_mono.
  - apply (client_reuses (fun _ => panic) host_authority (post HTTP_11 hm_new (b "hello"))
      {| connections := {[ authority_key host_authority := Sock ]} |} (start_wire ok_bytes)
      Sock (hosted_head ++ b "hello") ok_bytes None); [reflexivity..|].
    by apply hosted_exchange.
  - intros res [cl w] (_ & _ & Hacc). exact Hacc.
  - intros e [cl w] [Hp _]. exact Hp.
Defined.

(** [connect] checks the address it is given. *)
Definition connect_host (addr : bytes) : ST wire io_error sock :=
  if bool_decide (addr = b "host:81") then ret Sock else fail (io_other "unknown host").

Lemma client_connects_witness :
  wp (client_request (U := unit) connect_host (post HTTP_11 hm_new (b "hello")))
     (fun res '(cl, w) => wire_out w = hosted_head ++ b "hello")
     (fun e '(cl, w) => connections cl = ∅)
     (Client_new, start_wire ok_bytes).
Proof.
  eapply wp_mono.
  - apply (client_connects connect_host host_authority (post HTTP_11 hm_new (b "hello"))
      Client_new (start_wire ok_bytes) (hosted_head ++ b "hello") ok_bytes None
      (fun c w => w = start_wire ok_bytes) (fun _ _ => False)); [reflexivity..| |].
    + intros w. by apply wp_ret.
    + unfold connect_host. rewrite bool_decide_true by reflexivity. apply wp_ret.
      split; [reflexivity|by apply hosted_exchange].
  - intros res [cl w] (conn & w0 & Hw0 & _ & _ & Hacc). rewrite Hw0 in Hacc. exact Hacc.
  - intros e [cl w] [Hp _]. exact Hp.
Defined.

(** ** TLS handles *)
Section tls.
#[local] Instance session_arcs : HasArcs (arcs nat) nat :=
  {| get_arcs w := w; set_arcs a _ := a |}.
#[local] Instance session_drop : Drop (arcs nat) nat := fun E _ => ret tt.
#[local] Instance session_world : ArcsWorld (arcs nat) nat.
Proof. split; [done|]. by intros E t w. Defined.
#[local] Instance session_net : NetStream (arcs nat) nat := {|
  stream_read := fun n => ret [];
  stream_write := {| raw_write bs := ret (length bs); raw_flush := ret tt |};
  stream_try_clone t := ret t;
  stream_set_read_timeout _ _ := ret tt;
|}.

Definition shared : RustlsConnection nat := MkRustls 0.

Lemma shared_twice :
  rtc tls_step ([], Build_arcs 0 ∅) ([shared; shared], Build_arcs 1 {[ 0 := Build_arc 2 false 7 ]}).
Proof.
  eapply rtc_l; [by apply (step_from 7)|].
  eapply rtc_l; [apply (step_clone [shared] shared); [by left|reflexivity]|].
  apply rtc_refl.
Qed.

Lemma tls_strong_count_witness :
  counted ([shared; shared], Build_arcs 1 {[ 0 := Build_arc 2 false 7 ]}).
Proof.
  apply (tls_strong_count [shared; shared] (Build_arcs 0 ∅)
           (Build_arcs 1 {[ 0 := Build_arc 2 false 7 ]})).
  - reflexivity.
  - apply shared_twice.
Defined.

Lemma two_counted : counted ([shared; shared], Build_arcs 1 {[ 0 := Build_arc 2 false 7 ]}).
Proof.
  split.
  - intros [|id]; cbn [fst snd]; [vm_compute; by split_and!; [|lia|]|].
    unfold the_arcs. cbn. by rewrite lookup_singleton_ne.
  - intros [|id] Hle; cbn in *; [lia|]. by rewrite lookup_singleton_ne.
Qed.

(** A stream of bytes, in a world that collects what is written *)
Record tape := { tape_left : bytes }.
#[local] Instance tape_socket : TcpSocket bytes tape := {|
  tcp_stream := {|
    stream_read := fun n st => Ok (take n (tape_left st.1)) (Build_tape (drop n (tape_left st.1)), st.2);
    stream_write := {| raw_write bs st := Ok (length bs) (st.1, st.2 ++ bs); raw_flush := ret tt |};
    stream_drop := fun E _ => ret tt;
    stream_try_clone t := ret t;
    stream_set_read_timeout _ _ := ret tt;
  |};
  tcp_set_nodelay _ _ := ret tt;
  tcp_peer_addr _ := ret (b "peer");
  tcp_local_addr _ := ret (b "local");
|}.

(** Two handles read in turns; the first one is dropped, the other gives out the stream. *)
Definition two_readers : list tls_event :=
  [Calls 0 (CallRead 2); Clones 0; Calls 1 (CallRead 2); Calls 0 (CallWrite (b "ok"));
   Calls 1 CallPeerAddr; Drops 0; Calls 1 CallFlush; Calls 0 (CallRead 5)].

Lemma tls_shared_as_owned_witness :
  match tls_session (V := bytes) (E := io_error) two_readers (Build_tape (b "hello, all")) (Build_arcs 0 ∅, []) with
  | Ok (rs, r) (_, written) =>
      rs = inl <$> [GotBytes (b "he"); GotBytes (b "ll"); TookBytes 2; GotAddr (b "peer"); GotBytes (b "o, al")] /\
      r = inl (Build_tape (b "l")) /\ written = b "ok"
  | _ => False
  end.
Proof.
  pose proof (tls_shared_as_owned (V := bytes) (E := io_error) two_readers 1
    (Build_tape (b "hello, all")) [] (Build_arcs 0 ∅) eq_refl) as Hs.
  destruct (tls_session two_readers (Build_tape (b "hello, all")) (Build_arcs 0 ∅, []))
    as [[rs r] [a written]|e s| | |]; [|exact Hs..].
  destruct Hs as (Hrs & Hw & Hr). rewrite Hrs, Hw, Hr. split_and!; reflexivity.
Defined.

(** The shared stream is not given out. *)
Lemma downcast_stream_witness :
  wp (downcast (E := io_error) (Tcp := nat) (Unix := nat) OfTls (MkConnection (RustlsConn shared)))
     (fun r w => match r with
                 | inl _ => False
                 | inr c => stream_kind c = OfTls
                 end) never (Build_arcs 1 {[ 0 := Build_arc 2 false 7 ]}).
Proof.
  eapply wp_never_mono.
  - apply (downcast_stream (Tcp := nat) (Unix := nat) OfTls (MkConnection (RustlsConn shared))
      [shared; shared] [shared] (Build_arcs 1 {[ 0 := Build_arc 2 false 7 ]})).
    intros h Hh. injection Hh as <-. split; [apply two_counted|reflexivity].
  - intros [s|c] w.
    + intros (_ & _ & Hno). discriminate (Hno shared eq_refl).
    + intros [Hk _]. exact Hk.
Defined.
End tls.

(** ** The server *)

(** The answer to "GET / HTTP/1.0". *)
Definition old_spec := echo_spec (C := sock) (Hd := unit).
Definition root_uri : Uri (HttpApi := model_api) := b "/".
Definition old_answer : bytes :=
  match respond old_spec 7 0 GET root_uri HTTP_10 hm_new (Sized []) with
  | Some (out, _, _) => out
  | None => []
  end.

Lemma http10_response_closes_witness :
  exists status sent,
    message_head (status_line HTTP_10 status) (hm_iter sent) `prefix_of` old_answer /\
    connection_has "close" sent = true.
Proof.
  apply (http10_response_closes old_spec 7 0 GET root_uri hm_new (Sized []) old_answer 1 Finishes);
    reflexivity.
Defined.

(** One connection, then the source ends. *)
#[local] Instance list_source : ConnSource (W := wire) (C := sock) (list sock) := fun E st =>
  match st.1 with
  | [] => Ok None st
  | conn :: conns => Ok (Some conn) (conns, st.2)
  end.

Lemma single_thread_serves_all_witness :
  wp (serve_single_thread (Hd := unit) 2)
     (fun _ '(_, (app, w)) => app = 2)
     never (Build_Server unit (list sock) tt [Sock] None false, (0, start_wire two_requests)).
Proof.
  eapply wp_never_mono.
  - apply (single_thread_serves_all
      (fun i app w => i = [Sock] /\ app = 0 /\ w = start_wire two_requests \/ i = [] /\ app = 2)
      (fun i app w => app = 2) length None false
      (fun conn i app w => conn = Sock /\ i = [] /\ app = 0 /\ w = start_wire two_requests)).
    + intros E i app w [(-> & -> & ->)|[-> ->]].
      * split; [cbn; lia|]. by apply wp_ret.
      * by cbn.
    + intros conn i app w (-> & -> & -> & ->). vm_compute. by right.
    + by left.
    + cbn. lia.
    + vm_compute. lia.
    + reflexivity.
    + reflexivity.
  - intros u [srv [app w]] Happ. exact Happ.
Defined.

(** A pool with one thread, which is always ready: a job that panics or blocks takes
    its thread with it and nothing else. *)
Definition after (job : ST wire io_error unit) (w : wire) : wire :=
  match job w with Ok _ w' | Err _ w' => w' | _ => w end.
#[local] Instance ready_pool : ThreadPool (W := wire) unit := {|
  pool_new := fun E _ => ret tt;
  execute := fun E _ job w => Ok tt (after job w);
|}.

(** The world in which the connections of [l] were served in turn. *)
Definition serve_job (w : wire) (job : sock * nat) : wire :=
  after (worker (Hd := unit) job.1 job.2) w.
Definition served_from (w : wire) (l : list (sock * nat)) : wire := foldl serve_job w l.
Lemma served_from_snoc w conn app l :
  serve_job (served_from w l) (conn, app) = served_from w (l ++ [(conn, app)]).
Proof. symmetry. apply (foldl_snoc serve_job). Qed.
Lemma execute_serves w E pool conn app l w' :
  w' = served_from w l ->
  wp (E := E) (execute pool (worker (Hd := unit) conn app))
     (fun _ w'' => w'' = served_from w (l ++ [(conn, app)])) never w'.
Proof.
  intros ->. rewrite <- served_from_snoc. unfold execute, ready_pool, wp, serve_job.
  cbn [fst snd]. reflexivity.
Qed.

Definition list_server (conns : list sock) : Server unit (list sock) :=
  Build_Server unit (list sock) tt conns (Some 10%N) true.

Lemma threads_serve_all_witness :
  wp (serve_threads (Hd := unit) (fun app => ret app) 0 3)
     (fun _ '(_, w) => w = served_from (start_wire two_requests) [(Sock, 0); (Sock, 0)])
     never (list_server [Sock; Sock], start_wire two_requests).
Proof.
  eapply wp_never_mono.
  - apply (threads_serve_all (fun l w => w = served_from (start_wire two_requests) l)
      (fun conns => conns) (fun _ _ => true) (fun _ _ => true)) with (copy := 0) (l := []).
    + intros E [|conn conns] l w ->; by split.
    + intros. by apply wp_ret.
    + intros. by apply wp_ret.
    + intros. by apply wp_ret.
    + apply execute_serves.
    + intros l w Hw. by apply wp_ret.
    + reflexivity.
    + cbn. lia.
    + vm_compute. lia.
  - intros [] [srv w] Hw. exact Hw.
Defined.

Lemma make_service_serves_all_witness :
  wp (make_service (Hd := unit) (M := sock -> ST wire io_error (nat + boxed_error)) (fun _ => ret (inl 7)) 3)
     (fun _ '(_, w) => w = served_from (start_wire two_requests) [(Sock, 7); (Sock, 7)])
     never (list_server [Sock; Sock], start_wire two_requests).
Proof.
  eapply wp_never_mono.
  - apply (make_service_serves_all (fun l w => w = served_from (start_wire two_requests) l)
      (fun conns => conns) (fun _ _ => true) (fun _ _ => true)) with (made := fun _ => inl 7) (l := []).
    + intros E [|conn conns] l w ->; by split.
    + intros. by apply wp_ret.
    + intros. by apply wp_ret.
    + intros. by apply wp_ret.
    + apply execute_serves.
    + intros conn l w Hw. by apply wp_ret.
    + reflexivity.
    + cbn. lia.
    + vm_compute. lia.
  - intros [] [srv w] Hw. exact Hw.
Defined.

(** A client that waits for the interim response with its small body. *)
Definition waiting_upload : bytes :=
  b "POST / HTTP/1.1" ++ CRLF ++ b "expect: 100-continue" ++ CRLF ++
  b "content-length: 5" ++ CRLF ++ CRLF.
Definition upload_headers : HeaderMap (HttpApi := model_api) :=
  [(b "expect", b "100-continue"); (b "content-length", b "5")].

Lemma small_body_unanswered_witness :
  expect_is_continue upload_headers = true /\
  wp (serve (Hd := unit) Sock) (fun _ _ => False)
     (fun e '(_, w) => wire_out w `prefix_of` []) (0, start_wire waiting_upload).
Proof.
  split; [reflexivity|]. eapply wp_mono.
  - apply (small_body_unanswered (Service0 := echo_service) (echo_spec (C := sock) (Hd := unit))
      Sock 0 (start_wire waiting_upload) waiting_upload None waiting_upload [] POST root_uri
      HTTP_11 upload_headers 5).
    + by split.
    + vm_compute. lia.
    + reflexivity.
    + reflexivity.
    + reflexivity.
    + reflexivity.
  - intros u st Hno. exact Hno.
  - intros e [app w] [Hp _]. exact Hp.
Defined.

(** An upload of 1500 bytes to a service that takes 1024, and nothing behind it. *)
Definition big_upload : bytes :=
  b "POST / HTTP/1.1" ++ CRLF ++ b "expect: 100-continue" ++ CRLF ++
  b "content-length: 1500" ++ CRLF ++ CRLF ++ repeat x41 1500.
Definition big_headers : HeaderMap (HttpApi := model_api) :=
  [(b "expect", b "100-continue"); (b "content-length", b "1500")].

Section upload.
#[local] Instance large_fuel : Fuel := 3000.

Lemma upload_refused_witness :
  wp (serve (H1 := upload_service (Hd := unit)) Sock)
     (fun _ '(_, w) => wire_out w = b "HTTP/1.1 417 Expectation Failed" ++ CRLF ++
                                    b "content-length: 0" ++ CRLF ++ CRLF)
     (fun _ _ => False) (1024%N, start_wire big_upload).
Proof.
  assert (Href : forall ts, reference (upload_spec (Hd := unit) (C := sock)) None (length big_upload)
                              ts 1024%N [] = Some ([], Closed, 1024%N)) by reflexivity.
  eapply wp_mono.
  - apply (upload_refused (Hd := unit) Sock 1024 (start_wire big_upload) big_upload None POST root_uri
             HTTP_11 big_headers (Sized (repeat x41 1500)) [] []).
    + by split.
    + vm_compute. lia.
    + vm_compute. lia.
    + intros ts. eexists. vm_compute. reflexivity.
    + vm_cast_no_check (eq_refl (request_at None big_upload)).
    + reflexivity.
    + intros len Hlen. vm_compute in Hlen. injection Hlen as <-. lia.
  - intros [] [m w] (ts & text & out & Hi & Hr & _ & [Hacc|[]]).
    rewrite Href in Hr. injection Hr as <- _. vm_compute in Hi. injection Hi as <-.
    etrans; [exact Hacc|reflexivity].
  - intros e [m w] (ts & text & out & r & m2 & Hi & Hr & _ & [Hre|[]]).
    rewrite Href in Hr. injection Hr as _ <- _. discriminate Hre.
Defined.
End upload.

(** A text with a character of two bytes, sent to "/reverse" of routes.rs *)
Definition to_reverse : bytes :=
  b "POST /reverse HTTP/1.1" ++ CRLF ++ b "content-length: 6" ++ CRLF ++ CRLF ++
  b "h" ++ [xc3; xa9] ++ b "llo".
Definition reversed : bytes := b "oll" ++ [xc3; xa9] ++ b "h".

Lemma routes_reverse_witness :
  wp (serve (H1 := routes_service (Hd := unit)) Sock)
     (fun _ '(_, w) => exists time, wire_out w = sized_text time STATUS_OK reversed)
     (fun _ _ => False) (tt, start_wire to_reverse).
Proof.
  assert (Href : forall ts, reference (routes_spec (C := sock) (Hd := unit)) None (length to_reverse) ts tt []
                            = Some ([], Closed, tt)) by reflexivity.
  eapply wp_mono.
  - apply (routes_reverse (Hd := unit) Sock (start_wire to_reverse) to_reverse None
             (b "/reverse" : Uri (HttpApi := model_api)) [(b "content-length", b "6")]
             (Sized (b "h" ++ [xc3; xa9] ++ b "llo")) [] []).
    + vm_compute. lia.
    + vm_compute. discriminate.
    + by split.
    + vm_compute. lia.
    + intros ts. eexists. vm_compute. reflexivity.
    + vm_cast_no_check (eq_refl (request_at None to_reverse)).
    + reflexivity.
    + reflexivity.
    + reflexivity.
  - intros [] [app w] (ts & out & Hr & _ & [Hacc|[]]). rewrite Href in Hr. injection Hr as <-.
    exists (ts 0). etrans; [exact Hacc|]. apply app_nil_r.
  - intros e [app w] (ts & out & r & Hr & _ & [Hre|[]]).
    rewrite Href in Hr. injection Hr as _ <-. discriminate Hre.
Defined.

(** A text that is announced to be longer than what comes, sent to "/reverse" *)
Definition cut_off_head : bytes :=
  b "POST /reverse HTTP/1.1" ++ CRLF ++ b "content-length: 1500" ++ CRLF ++ CRLF.

Lemma truncated_upload_answered_witness :
  wp (serve (H1 := routes_service (Hd := unit)) Sock)
     (fun _ '(_, w) => exists time, wire_out w = sized_text time STATUS_OK (b "olleh"))
     (fun _ _ => False) (tt, start_wire (cut_off_head ++ b "hello")).
Proof.
  eapply wp_mono.
  - apply (truncated_upload_answered (Hd := unit) Sock (start_wire (cut_off_head ++ b "hello"))
             (cut_off_head ++ b "hello") cut_off_head (b "hello")
             (b "/reverse" : Uri (HttpApi := model_api)) [(b "content-length", b "1500")] 1500).
    + vm_compute. lia.
    + vm_compute. discriminate.
    + by split.
    + vm_compute. lia.
    + reflexivity.
    + reflexivity.
    + reflexivity.
    + split; vm_compute; [reflexivity|discriminate].
    + reflexivity.
    + reflexivity.
    + reflexivity.
  - intros [] [app w] (time & _ & [Hacc|[]]). exists time. exact Hacc.
  - intros e [app w] [].
Defined.

#[local] Instance broken_listener : Listener (W := wire) (C := sock) unit := fun _ =>
  fail (io_other "too many open files").

Lemma accept_error_ends_server_witness :
  serve_single_thread (Hd := unit) 1
    (Build_Server unit (TcpAcceptor unit) tt {| listener := tt |} None false,
     (0, start_wire two_requests)) =
  Ok tt (Build_Server unit (TcpAcceptor unit) tt {| listener := tt |} None false,
         (0, start_wire two_requests)).
Proof.
  apply (accept_error_ends_server 0
    (Build_Server unit (TcpAcceptor unit) tt {| listener := tt |} None false) 0
    (start_wire two_requests) (io_other "too many open files") (start_wire two_requests)).
  - vm_compute. lia.
  - reflexivity.
Defined.

(** ** From end to end *)
Lemma five_sendable : sendable (cl_insert 5 hm_new).
Proof.
  change (Forall header_ok [(b "content-length", b "5")]).
  constructor; [|constructor]. unfold header_ok. cbn [fst snd].
  split_and!; [done|done|vm_compute; set_solver..|done].
Qed.

Lemma hello_sends (w : wire) :
  sends (FixedLength 5) {| vec_bytes := b "hello" |} w (encoded (FixedLength 5) (b "hello")).
Proof. exists (b "hello"). by split. Qed.

Lemma hello_len n : len (W := wire) {| vec_bytes := b "hello" |} = Some n -> (n < 2 ^ 64)%N.
Proof. intros Hn. vm_compute in Hn. injection Hn as <-. reflexivity. Qed.

(** The run that is read back *)
Definition wrote_ok {T} (m : ST (BufWriter sock * wire) io_error T) (P : bytes -> Prop) : Prop :=
  match m (fresh_writer, start_wire []) with
  | Ok _ (s, w) => P (written s w)
  | _ => False
  end.

Lemma response_round_trip_witness :
  wrote_ok (write_response (ok_response (U := unit) (C := sock) hm_new (b "hello")) true)
    (fun text =>
       wp (response_with_bytes (U := unit) (C := sock) (Cursor_new text))
          (fun '(res, got) _ => res_status res = 200%N /\ got = b "hello") never tt).
Proof.
  pose proof (response_round_trip (V := unit) (R := Cursor)
      (ok_response (U := unit) (C := sock) hm_new (b "hello"))
      fresh_writer (start_wire []) (FixedLength 5) (cl_insert 5 hm_new) (b "hello")
      (or_intror eq_refl) eq_refl (conj (or_introl eq_refl) eq_refl)
      hello_len eq_refl five_sendable
      (vec_droppable _ _) (hello_sends _) ltac:(vm_compute; discriminate)) as Hwp.
  unfold wp at 1 in Hwp. unfold wrote_ok.
  assert (Hlen : match write_response (ok_response (U := unit) (C := sock) hm_new (b "hello")) true
                         (fresh_writer, start_wire []) with
                 | Ok _ (s, w) => length (written s w) < 200 | _ => True end)
    by (vm_compute; lia).
  destruct (write_response _ _ _) as [o [s w]|e [s w]| | |]; [|exact Hwp..].
  destruct Hwp as (text & Hw & Hread). cbn [app written] in Hw. rewrite Hw in *.
  eapply wp_never_mono.
  - apply (Hread (Cursor_new text) tt [] None).
    + rewrite app_nil_r. by split.
    + rewrite app_nil_r. exact Hlen.
    + discriminate.
  - intros [res got] u (? & _ & _ & ?). by split.
Defined.

Lemma token_POST : sendable_method POST.
Proof. split; [split_and!; [done|vm_compute; set_solver..]|reflexivity]. Qed.

Lemma token_uri : sendable_uri (req_uri (post HTTP_11 hm_new (b "hello"))).
Proof. split_and!; [done|vm_compute; set_solver..]. Qed.

Lemma request_round_trip_witness :
  wrote_ok (write_request (post HTTP_11 hm_new (b "hello")))
    (fun text =>
       wp (request_with_bytes (Cursor_new text))
          (fun '(req, got) _ => req_method req = POST /\ got = b "hello") never tt).
Proof.
  pose proof (request_round_trip (V := unit) (R := Cursor) (post HTTP_11 hm_new (b "hello"))
      fresh_writer (start_wire []) (FixedLength 5) (cl_insert 5 hm_new) post_head (b "hello")
      eq_refl token_POST token_uri (conj (or_introl eq_refl) eq_refl)
      hello_len eq_refl five_sendable (vec_droppable _ _) (hello_sends _)
      ltac:(vm_compute; discriminate)) as Hwp.
  unfold wp at 1 in Hwp. unfold wrote_ok.
  assert (Hlen : match write_request (post HTTP_11 hm_new (b "hello")) (fresh_writer, start_wire []) with
                 | Ok _ (s, w) => length (written s w) < 200 | _ => True end)
    by (vm_compute; lia).
  destruct (write_request _ _) as [o [s w]|e [s w]| | |]; [|exact Hwp..].
  destruct Hwp as (text & Hw & Hread). cbn [app written] in Hw. rewrite Hw in *.
  eapply wp_never_mono.
  - apply (Hread (Cursor_new text) tt [] None).
    + rewrite app_nil_r. by split.
    + rewrite app_nil_r. exact Hlen.
  - intros [res got] u (? & _ & _ & _ & ?). by split.
Defined.

(** *** Requests behind one another *)
Definition post_of (h : HeaderMap) (bs : bytes) : Pipeline.post :=
  Build_post POST (req_uri (post HTTP_11 hm_new [])) h bs.
Definition two_posts : list Pipeline.post :=
  [post_of (cl_insert 5 hm_new) (b "hello"); post_of (cl_insert 3 hm_new) (b "bye")].

Lemma length_sendable n : sendable (cl_insert n hm_new).
Proof.
  change (Forall header_ok [(b "content-length", dec n)]).
  repeat constructor; apply header_ok_number; first [done|vm_compute; set_solver].
Qed.

Lemma dated_sendable time n : sendable (cl_insert n (dated time hm_new)).
Proof.
  change (Forall header_ok [(b "date", dec time); (b "content-length", dec n)]).
  repeat constructor; apply header_ok_number; first [done|vm_compute; set_solver].
Qed.

Lemma two_posts_echoable : Forall echoable two_posts.
Proof.
  constructor; [|constructor; [|constructor]].
  all: unfold echoable; cbn [post_of post_method post_uri post_headers post_body]; split_and!.
  all: first [apply token_POST|apply token_uri|apply length_sendable|reflexivity
             |by split|vm_compute; discriminate].
Qed.

(** Both responses come back, each with the body of its request. *)
Lemma echo_pipeline_witness :
  wp (serve (H1 := stream_service (Hd := unit)) Sock)
     (fun _ '(_, w) => exists one two, wire_out w = one ++ two /\
        reads_as (U := UpgradeExtension unit) (C := sock) (V := unit) (R := Cursor)
          HTTP_11 200 (b "hello") one /\
        reads_as (U := UpgradeExtension unit) (C := sock) (V := unit) (R := Cursor)
          HTTP_11 200 (b "bye") two)
     (fun _ _ => False) (tt, start_wire (concat (post_text <$> two_posts))).
Proof.
  eapply wp_mono.
  - apply (echo_pipeline (V := unit) (R := Cursor) dated_sendable two_posts Sock
      (start_wire (concat (post_text <$> two_posts)))).
    + reflexivity.
    + apply two_posts_echoable.
    + by split.
    + vm_compute. lia.
  - intros [] [app w] (outs & Hall & [_ [Hout|Hno]]); [|destruct Hno].
    cbn [two_posts post_of post_body fmap list_fmap] in Hall.
    inversion Hall as [|? one ? outs1 H1 Hall1]; subst.
    inversion Hall1 as [|? two ? outs2 H2 Hall2]; subst. inversion Hall2; subst.
    exists one, two. split; [|by split]. etrans; [exact Hout|]. cbn. by rewrite app_nil_r.
  - intros e [app w] Hno. exact Hno.
Defined.

(** The echo service answers 200 with the body of the request. *)
Lemma echo_answers app method uri h :
  answers_with (echo_spec (C := sock) (Hd := unit)) app method uri HTTP_11 h (Sized (b "hello"))
    200 (b "hello").
Proof.
  split; [reflexivity|]. exists (S app), (echo_response (b "hello")).
  split_and!; [done|done|done|by split; [left|]| |].
  - intros n Hn. vm_compute in Hn. injection Hn as <-. reflexivity.
  - intros time keep. exists (FixedLength 5), [(b "date", dec time); (b "content-length", dec 5)].
    split_and!; [reflexivity| |by split].
    change (Forall header_ok [(b "date", dec time); (b "content-length", dec 5)]).
    repeat constructor; apply header_ok_number; first [done|vm_compute; set_solver].
Qed.

Lemma request_answered_witness :
  wrote_ok (write_request (post HTTP_11 hm_new (b "hello")))
    (fun text =>
       wp (serve (Hd := unit) Sock)
          (fun _ '(_, w) => reads_as (U := UpgradeExtension unit) (C := sock) (V := unit) (R := Cursor)
                              HTTP_11 200 (b "hello") (wire_out w))
          (fun _ _ => False) (0, start_wire text)).
Proof.
  pose proof (request_answered (V := unit) (R := Cursor) (Service0 := echo_service) (echo_spec (C := sock) (Hd := unit))
      (post HTTP_11 hm_new (b "hello"))
      fresh_writer (start_wire []) 5 (cl_insert 5 hm_new) post_head (b "hello") 200 (b "hello")
      eq_refl token_POST token_uri (conj (or_introl eq_refl) eq_refl)
      hello_len eq_refl five_sendable eq_refl (vec_droppable _ _) (hello_sends _)
      ltac:(vm_compute; discriminate) ltac:(vm_compute; discriminate) eq_refl) as Hwp.
  unfold wp at 1 in Hwp. unfold wrote_ok.
  assert (Hlen : match write_request (post HTTP_11 hm_new (b "hello")) (fresh_writer, start_wire []) with
                 | Ok _ (s, w) => S (length (written s w)) < 200 | _ => True end)
    by (vm_compute; lia).
  destruct (write_request _ _) as [o [s w]|e [s w]| | |]; [|exact Hwp..].
  destruct Hwp as (text & Hw & Hserve). cbn [app written] in Hw. rewrite Hw in *.
  eapply wp_mono.
  - apply (Hserve Sock (start_wire text) 0).
    + by split.
    + exact Hlen.
    + intros h _. apply echo_answers.
  - intros u [app w'] (out & [_ [Hout|Hno]] & Hread); [|destruct Hno].
    cbn in Hout. rewrite Hout. exact Hread.
  - intros e [app w'] Hno. exact Hno.
Defined.
