(* ===== verification/StreamWitnesses.v ===== *)
(** * StreamWitnesses: the theorems about threads, upgrades and the chat at concrete inputs

    The connection in memory of Echo.v, in a world that also has threads. *)
From stdpp Require Import base list gmap strings.
From Stdlib Require Import Strings.Byte NArith Lia.
From S2P Require Import Prelude Errors StdIo Buffered HttpApi HttpModel Mpsc ReadQueue QueueLaws.
From S2P Require Import HttpBody Body BodyLaws Threads Message MessageLaws ChunkedLaws Request.
From S2P Require Import RequestLaws Response ResponseLaws Upgrade Tls Connection ConnLaws.
From S2P Require Import Server Reference IncomingLaws ServiceLaws ServerLaws Echo Examples.
From S2P Require Import LineProtocol Chat ChatLaws RoundTrip HeadModel EndToEnd Streaming Compress.
From S2P Require Import Tunnel TunnelLaws WebSocket WsChat WsChatLaws.

#[local] Existing Instance model_api.
#[local] Existing Instance model_api_laws.
#[local] Instance small_fuel : Fuel := 200.

(** ** A connection in memory, and threads *)
Record stage := {
  stage_wire : wire;
  stage_streams : streams;
}.

Definition on_wire {A E} (m : ST (sock * wire) E A) : ST (sock * stage) E A := fun st =>
  let put := fun w => Build_stage w (stage_streams st.2) in
  match m (st.1, stage_wire st.2) with
  | Ok a (c, w) => Ok a (c, put w)
  | Err e (c, w) => Err e (c, put w)
  | Panic => Panic | Block => Block | NoFuel => NoFuel
  end.

#[local, refine] Instance stage_world : World stage := {|
  rstep w w' := rstep (stage_wire w) (stage_wire w');
  wstep w w' := wstep (stage_wire w) (stage_wire w') /\ stage_streams w' = stage_streams w;
|}.
Proof.
  - split; [done|]. intros w1 w2 w3 Hw Hw'. by etrans.
  - split; [done|]. intros w1 w2 w3 [Hw Hs] [Hw' Hs']. split; [by etrans|by rewrite Hs', Hs].
Defined.

#[local] Instance stage_store : HasStore stage (BufReader sock) := {|
  get_store w := get_store (stage_wire w);
  set_store s w := Build_stage (set_store s (stage_wire w)) (stage_streams w);
|}.
#[local] Instance stage_has_streams : HasStreams stage := {|
  get_streams := stage_streams;
  set_streams s w := Build_stage (stage_wire w) s;
|}.

#[local] Instance stage_conn : Conn stage sock := {|
  conn_read := fun n => on_wire (read n);
  conn_write := {| raw_write bs := on_wire (raw_write bs); raw_flush := on_wire raw_flush |};
  conn_drop := fun E _ => ret tt;
  clone := fun E c => ret c;
  conn_set_read_timeout _ _ := ret tt;
  conn_set_nodelay _ _ := ret tt;
|}.

#[local, refine] Instance stage_read_laws : ReadLaws stage sock := {|
  holds _ w bs fin := wire_in (stage_wire w) = bs /\ fin = None;
  alive _ _ := True;
  passed _ _ _ := True;
|}.
Proof.
  - done.
  - done.
  - intros E r w _. by apply wp_ret.
  - done.
  - intros E r w bs fin _. by apply wp_ret.
  - intros r w w' bs fin [<- ->] [[Hi _] _]. by split.
  - by intros r w bs e [_ ?].
  - intros r w bs fin n Hn [<- ->]. split; [done|]. exists (drop n (wire_in (stage_wire w))).
    split_and!; simpl; [by rewrite take_drop|rewrite length_take; lia|done|done|].
    intros Hnil. split; [|done]. destruct n; [done|]. by destruct (wire_in (stage_wire w)).
Defined.

#[local, refine] Instance stage_write_laws : RawWriteLaws stage sock := {|
  raw_can_fail := False;
  accepted c w := accepted c (stage_wire w);
|}.
Proof.
  - intros t w w' Hw. exact Hw.
  - intros t w bs. unfold wp. cbn. split_and!; [done..| |by rewrite firstn_all].
    intros Hl. left. by destruct bs.
  - intros t w. unfold wp. by cbn.
Defined.

#[local] Instance stage_laws : ConnLaws stage sock.
Proof.
  refine (Build_ConnLaws stage sock stage_world stage_conn stage_read_laws stage_write_laws _ _ _ _).
  all: done.
Defined.

#[local] Instance stage_store_world : StoreWorld stage (BufReader sock).
Proof. split; [done|done|]. by intros w w' [[_ Hs] _]. Qed.
#[local] Instance stage_conn_store : ConnStore stage sock.
Proof. by split. Qed.
#[local] Instance stage_stream_world : StreamWorld stage.
Proof. split; [done|done|by intros []|done|]. by intros w w' [_ Hs]. Qed.
#[local] Instance stage_stream_conn : StreamConn stage sock.
Proof.
  split; try done.
  - intros n s [c w] Hs. done.
  - intros E c s w Hs. done.
Qed.
#[local] Instance stage_clock : Clock stage := fun E => ret 0%N.
#[local] Instance stage_clock_laws : ClockLaws (W := stage).
Proof. intros E w. by apply wp_ret. Qed.
#[local] Instance stage_upgrade : UpgradeHandler stage unit sock := fun E _ _ => ret tt.

(** A schedule in which the thread runs ahead, then not at all *)
Definition start_stage (bs : bytes) : stage := {|
  stage_wire := Build_wire (Build_store 0 ∅) bs [];
  stage_streams := Build_streams (Build_store 0 ∅) ∅ [[0; 0; 0]; []; [0]];
|}.

Lemma streamed_into_bytes_witness :
  wp (let! body := streamed_body chunked_calls in body_into_bytes (R := Cursor) body)
     (fun got _ => got = b "chunk1chunk2chunk3") never (start_stage []).
Proof. apply (streamed_into_bytes chunked_calls (start_stage [])). vm_compute. lia. Defined.

(** The receiver of the body was dropped while the thread sleeps. *)
Definition dropped_stage : stage := {|
  stage_wire := Build_wire (Build_store 0 ∅) [] [];
  stage_streams := Build_streams (Build_store 1 {[ 0 := Build_chan [] true false ]})
                     {[ 0 := drop 1 chunked_calls ]} [];
|}.
Lemma abandoned_thread_ends_witness :
  exists s, threads_step (E := io_error) (repeat 0 2) dropped_stage = Ok tt (set_streams s dropped_stage) /\
            gone 0 s.
Proof.
  apply (abandoned_thread_ends 0 2 (drop 1 chunked_calls) dropped_stage).
  - by do 2 eexists.
  - reflexivity.
  - cbn. lia.
Defined.

(** *** The service of trailers.rs, with a digest that is always the same *)
Definition get_request : bytes := b "GET / HTTP/1.1" ++ CRLF ++ CRLF.
Definition some_digest (bs : bytes) : bytes := b "1B2M2Y8AsgTpgAmY7PhCfg==".

Lemma trailers_sendable time :
  sendable (te_insert_chunked (dated time (hm_insert (b "trailers") (b "content-md5") hm_new))).
Proof.
  change (Forall header_ok [(b "trailers", b "content-md5"); (b "date", dec time);
                            (b "transfer-encoding", b "chunked")]).
  repeat constructor; cbn [fst snd]; try done; try (vm_compute; set_solver).
  all: try (by apply dec_plain). by apply trim_plain, dec_plain.
Qed.

Lemma trailers_other :
  b "trailers" <> b "transfer-encoding" /\ b "trailers" <> b "content-length" /\
  b "trailers" <> b "connection".
Proof. by split_and!. Qed.

Definition trailers_body : bytes :=
  b "6" ++ CRLF ++ b "chunk1" ++ CRLF ++ b "6" ++ CRLF ++ b "chunk2" ++ CRLF ++
  b "6" ++ CRLF ++ b "chunk3" ++ CRLF ++ b "0" ++ CRLF ++
  b "content-md5: 1B2M2Y8AsgTpgAmY7PhCfg==" ++ CRLF ++ CRLF.

Lemma trailers_text : encode_chunks (thread_items (trailers_calls some_digest)) = trailers_body.
Proof. vm_compute. reflexivity. Qed.

Lemma streamed_response_read_witness :
  wp (serve (H1 := trailers_service (Hd := unit) some_digest) Sock)
     (fun _ '(_, w) => exists head, wire_out (stage_wire w) = head ++ trailers_body /\
        reads_as (U := UpgradeExtension unit) (C := sock) (V := unit) (R := Cursor)
          HTTP_11 200 (b "chunk1chunk2chunk3") (wire_out (stage_wire w)))
     (fun _ _ => False) (tt, start_stage get_request).
Proof.
  eapply wp_mono.
  - apply (streamed_response_read (V := unit) (R := Cursor) (trailers_calls some_digest)
      (b "trailers") (b "content-md5") trailers_other trailers_sendable
      Sock (start_stage get_request) get_request GET (b "/") hm_new (Sized [])).
    + reflexivity.
    + repeat constructor; try discriminate; vm_compute; discriminate.
    + vm_compute. lia.
    + vm_compute. lia.
    + vm_compute. discriminate.
    + by split.
    + vm_compute. lia.
    + reflexivity.
    + reflexivity.
    + reflexivity.
  - intros [] [app w] (time & [_ [Hout|Hno]] & Hread); [|destruct Hno].
    change (wire_out (stage_wire w) =
      streamed_text (trailers_calls some_digest) (b "trailers") (b "content-md5") time) in Hout.
    unfold streamed_text in Hout, Hread. rewrite trailers_text in Hout, Hread.
    rewrite Hout. eexists. split; [reflexivity|exact Hread].
  - intros e [app w] Hno. exact Hno.
Defined.

(** ** The line protocol *)
Lemma line_protocol_echoes_witness :
  wp (line_protocol (E := io_error) Sock)
     (fun _ w => wire_out w = b "hello" ++ [LF] ++ b "bye" ++ [LF]) never
     (Build_wire (Build_store 0 ∅) (b "hello" ++ [CR; LF] ++ b "bye" ++ [LF] ++ b "quit" ++ [LF] ++ b "more") []).
Proof.
  eapply wp_never_mono.
  - apply (line_protocol_echoes Sock
      (Build_wire (Build_store 0 ∅) (b "hello" ++ [CR; LF] ++ b "bye" ++ [LF] ++ b "quit" ++ [LF] ++ b "more") [])
      (b "hello" ++ [CR; LF] ++ b "bye" ++ [LF] ++ b "quit" ++ [LF] ++ b "more") None).
    + intros Hno. exact Hno.
    + by split.
    + vm_compute. lia.
  - intros [] w Hout. cbn in Hout. rewrite Hout. vm_compute. reflexivity.
Defined.

(** *** From the request on *)
#[local] Instance wire_shared : ConnShared (W := wire) Sock.
Proof. intros E c w bs fin Hr. by apply wp_ret. Qed.

(** A client that does not wait for the 101: it sends more empty lines behind its request
    than the buffer of the reader holds, and then "hello". *)
Section long.
#[local] Instance long_fuel : Fuel | 0 := 9000.

Definition early_lines : bytes := repeat LF DEFAULT_BUF_SIZE ++ b "hello" ++ [LF].
Definition early_wire : wire := Build_wire (Build_store 0 ∅) (get_request ++ early_lines) [].

Lemma early_suffix k lost seen :
  repeat LF k ++ b "hello" ++ [LF] = lost ++ seen -> length lost <= k ->
  exists j, seen = repeat LF j ++ b "hello" ++ [LF].
Proof.
  revert lost. induction k as [|k IH]; intros [|c lost] Heq Hl; cbn in Hl; [|lia|..].
  - by exists 0.
  - by exists (S k).
  - injection Heq as _ Heq. apply (IH lost); [done|lia].
Qed.

Lemma early_echo n j :
  j + 2 <= n -> line_echo None n (repeat LF j ++ b "hello" ++ [LF]) = repeat LF j ++ b "hello" ++ [LF].
Proof.
  revert n. induction j as [|j IH]; intros [|[|n]] Hn; [lia..|destruct n; reflexivity|lia|lia|].
  change (repeat LF (S j) ++ ?l) with (LF :: (repeat LF j ++ l)).
  change (line_echo None (S (S n)) (LF :: ?l)) with (LF :: line_echo None (S n) l).
  by rewrite IH by lia.
Qed.

Lemma upgrade_served_witness :
  wp (serve (H1 := upgrade_service) Sock)
     (fun _ '(_, w) => exists time k,
        wire_out w = switching_text time HTTP_11 hm_new ++ repeat LF k ++ b "hello" ++ [LF])
     (fun _ _ => False) (tt, early_wire).
Proof.
  eapply wp_mono.
  - apply (upgrade_served Sock early_wire (get_request ++ early_lines) None GET
      (b "/" : Uri (HttpApi := model_api)) HTTP_11 hm_new (Sized []) early_lines early_lines).
    + intros Hno. exact Hno.
    + exact wire_shared.
    + by split.
    + apply Nat.ltb_lt. vm_compute. reflexivity.
    + reflexivity.
    + reflexivity.
  - intros [] [app w] (time & lost & seen & Hs & Hl & Hout).
    destruct (early_suffix DEFAULT_BUF_SIZE lost seen Hs Hl) as [k ->].
    exists time, k. rewrite early_echo in Hout; [exact Hout|].
    rewrite !length_app, repeat_length. cbn. lia.
  - intros e [app w] Hno. exact Hno.
Defined.
End long.

(** ** The tunnel

    The client has sent "GET" and ended its direction, which was copied to its end. *)
Definition half_closed : tunnel_state :=
  Build_tunnel_state (Build_socket (b "GET") 3 true [] false false)
    (Build_socket [] 0 false (b "GET") true false) (Returned (inl 3%N)) (InRead 0).

Lemma half_closed_reachable : tunnel_reachable half_closed.
Proof.
  unfold tunnel_reachable.
  eapply rtc_l; [by apply (step_client fresh_socket (arriving (b "GET") fresh_socket)), peer_sends|].
  eapply rtc_l; [apply (step_client (arriving (b "GET") fresh_socket)), peer_ends|].
  eapply rtc_l; [by apply (step_c2s (Got (b "GET")))|].
  eapply rtc_l; [by apply (step_c2s (Wrote 2))|]. eapply rtc_l; [by apply (step_c2s (Wrote 1))|].
  eapply rtc_l; [by apply (step_c2s EndOfStream)|]. eapply rtc_l; [by apply (step_c2s IsShut)|].
  apply rtc_refl.
Qed.

Lemma tunnel_in_order_witness :
  s_out (server half_closed) `prefix_of` s_in (client half_closed) /\
  s_out (client half_closed) `prefix_of` s_in (server half_closed).
Proof.
  destruct (tunnel_in_order half_closed half_closed_reachable) as (Hs & Hc & _). split; [exact Hs|exact Hc].
Defined.

(** The server sends a response after all, which the other thread copies; the client goes
    away in between. *)
Definition both_closed : tunnel_state :=
  Build_tunnel_state (Build_socket (b "GET") 3 true (b "200") true true)
    (Build_socket (b "200") 3 false (b "GET") true false) (Returned (inl 3%N)) (Returned (inl 3%N)).

Lemma half_closed_run : run_calls ToClient 4 half_closed both_closed.
Proof.
  eapply run_others; [apply others_server, (peer_sends (b "200")); reflexivity|].
  eapply (run_call _ _ (Got (b "200"))); [reflexivity|].
  eapply (run_call _ _ (Wrote 3)); [reflexivity|].
  eapply run_others; [apply others_client, peer_breaks|].
  eapply (run_call _ _ EndOfStream); [reflexivity|]. eapply (run_call _ _ IsShut); [reflexivity|].
  apply run_stop.
Qed.

Lemma tunnel_ends_witness :
  4 <= calls_left (source_of ToClient half_closed) (thread_of ToClient half_closed) + 6 /\
  is_Some (tunnel_result both_closed).
Proof.
  destruct (tunnel_ends ToClient 4 half_closed both_closed half_closed_reachable eq_refl half_closed_run)
    as [Hn Hr].
  split; [exact Hn|exact Hr].
Defined.

Lemma tunnel_half_close_witness :
  exists t, tunnel_reachable t /\ s_in (client t) = b "GET" /\ s_in (server t) = b "200" /\
            s_out (client t) = [] /\ tunnel_result t = Some (inl (3%N, 0%N)).
Proof.
  destruct (tunnel_half_close (b "GET") (b "200")) as (t & Hr & Hreq & _ & _ & _ & Hresp & _ & Hout & Hres).
  - discriminate.
  - exists t. split_and!; [exact Hr|exact Hreq|exact Hresp|exact Hout|exact Hres].
Defined.

(** *** An address that cannot be reached

    TCP streams are [sock]; there are no streams of the other kinds. The world notes which
    address was tried, and when a handle is dropped. *)
Inductive note := Tried (address : bytes) | Dropped.

Record noted := {
  noted_wire : wire;
  noted_log : list note;
}.

Definition noting {E} (n : note) : ST noted E unit :=
  modify (fun w => Build_noted (noted_wire w) (noted_log w ++ [n])).
Definition at_wire {A E} (m : ST (sock * wire) E A) : ST (sock * noted) E A := fun st =>
  let put := fun w => Build_noted w (noted_log st.2) in
  match m (st.1, noted_wire st.2) with
  | Ok a (c, w) => Ok a (c, put w)
  | Err e (c, w) => Err e (c, put w)
  | Panic => Panic | Block => Block | NoFuel => NoFuel
  end.

#[local, refine] Instance noted_world : World noted := {|
  rstep w w' := rstep (noted_wire w) (noted_wire w');
  wstep w w' := wstep (noted_wire w) (noted_wire w');
|}.
Proof.
  - split; [done|]. intros w1 w2 w3 Hw Hw'. by etrans.
  - split; [done|]. intros w1 w2 w3 Hw Hw'. by etrans.
Defined.
#[local] Instance noted_store : HasStore noted (BufReader sock) := {|
  get_store w := get_store (noted_wire w);
  set_store s w := Build_noted (set_store s (noted_wire w)) (noted_log w);
|}.
#[local] Instance noted_store_world : StoreWorld noted (BufReader sock).
Proof. split; [done|done|]. by intros w w' [_ Hs]. Qed.
#[local] Instance noted_clock : Clock noted := fun E => ret 0%N.
#[local] Instance noted_clock_laws : ClockLaws (W := noted).
Proof. intros E w. by apply wp_ret. Qed.

#[local] Instance noted_tcp : TcpSocket noted sock := {|
  tcp_stream := {|
    stream_read := fun n => at_wire (read n);
    stream_write := {| raw_write bs := at_wire (raw_write bs); raw_flush := at_wire raw_flush |};
    stream_drop := fun E _ => noting Dropped;
    stream_try_clone c := ret c; stream_set_read_timeout _ _ := ret tt |};
  tcp_set_nodelay _ _ := ret tt; tcp_peer_addr _ := ret []; tcp_local_addr _ := ret [];
|}.
#[local] Instance no_stream : NetStream noted Empty_set := {|
  stream_read := fun n (st : Empty_set * noted) => match fst st with end;
  stream_write := {|
    raw_write := fun bs (st : Empty_set * noted) => match fst st with end;
    raw_flush := fun st : Empty_set * noted => match fst st with end |};
  stream_drop := fun E (s : Empty_set) => match s with end;
  stream_try_clone := fun s : Empty_set => match s with end;
  stream_set_read_timeout := fun _ (s : Empty_set) => match s with end;
|}.
#[local] Instance no_socket : TcpSocket noted Empty_set := {|
  tcp_set_nodelay := fun _ (s : Empty_set) => match s with end;
  tcp_peer_addr := fun s : Empty_set => match s with end;
  tcp_local_addr := fun s : Empty_set => match s with end;
|}.
#[local] Instance no_arcs : HasArcs noted Empty_set := {|
  get_arcs _ := Build_arcs 0 ∅; set_arcs _ w := w;
|}.
#[local] Instance no_tunnels : HasTunnels (W := noted) (Tcp := sock) := {|
  get_tunnels _ := []; set_tunnels _ w := w;
|}.

Section tcp.
#[local] Existing Instance tcp_conn | 0.

#[local, refine] Instance noted_read_laws : ReadLaws noted sock := {|
  holds _ w bs fin := wire_in (noted_wire w) = bs /\ fin = None;
  alive _ _ := True;
  passed _ _ _ := True;
|}.
Proof.
  - done.
  - done.
  - done.
  - done.
  - done.
  - intros r w w' bs fin [<- ->] [Hi _]. by split.
  - by intros r w bs e [_ ?].
  - intros r w bs fin n Hn [<- ->]. split; [done|]. exists (drop n (wire_in (noted_wire w))).
    split_and!; simpl; [by rewrite take_drop|rewrite length_take; lia|done|done|].
    intros Hnil. split; [|done]. destruct n; [done|]. by destruct (wire_in (noted_wire w)).
Defined.
#[local, refine] Instance noted_write_laws : RawWriteLaws noted sock := {|
  raw_can_fail := False;
  accepted _ w := wire_out (noted_wire w);
|}.
Proof.
  - intros t w w' Hw. exact Hw.
  - intros t w bs. unfold wp. cbn. split_and!; [done..| |by rewrite firstn_all].
    intros Hl. left. by destruct bs.
  - intros t w. unfold wp. by cbn.
Defined.
#[local] Instance noted_laws : ConnLaws noted sock.
Proof.
  refine (Build_ConnLaws noted sock noted_world tcp_conn noted_read_laws noted_write_laws _ _ _ _).
  all: done.
Defined.
#[local] Instance noted_conn_store : ConnStore noted sock.
Proof. by split. Qed.

Definition refused (address : bytes) : ST noted io_error sock :=
  noting (Tried address);;; fail (io_other "Connection refused").
#[local] Instance tcp_handler : UpgradeHandler noted TunnelHandler sock :=
  tunnel_handler_tcp (Unix := Empty_set) (Tls := Empty_set) refused.

Definition connect_request : bytes := b "CONNECT http://host:1 HTTP/1.1" ++ CRLF ++ CRLF.
Definition host_authority : Authority (HttpApi := model_api) := b "host:1".
Definition connect_world : noted := Build_noted (Build_wire (Build_store 0 ∅) connect_request []) [].

Lemma tunnel_unreachable_witness :
  wp (serve (H1 := tunnel_service authority_key) Sock)
     (fun _ '(_, w) => (exists log, noted_log w = log ++ [Tried (authority_key host_authority); Dropped]) /\
        exists time, wire_out (noted_wire w) = connected_text time HTTP_11 hm_new)
     (fun _ _ => False) (tt, connect_world).
Proof.
  eapply wp_mono.
  - apply (tunnel_unreachable (Unix := Empty_set) (Tls := Empty_set) refused authority_key
      Sock connect_world
      (fun w => exists log, noted_log w = log ++ [Tried (authority_key host_authority)])
      (fun w => exists log, noted_log w = log ++ [Tried (authority_key host_authority); Dropped])
      connect_request None (b "http://host:1" : Uri (HttpApi := model_api))
      host_authority HTTP_11 hm_new (Sized []) [] []).
    + intros Hno. exact Hno.
    + vm_compute. lia.
    + intros w. split; [exists (noted_log w)|]; reflexivity.
    + intros w [log Hlog]. exists log. cbn. by rewrite Hlog, <-app_assoc.
    + by split.
    + vm_compute. lia.
    + reflexivity.
    + reflexivity.
    + reflexivity.
  - intros [] [app w] Hout. exact Hout.
  - intros e [app w] Hno. exact Hno.
Defined.
End tcp.

(** ** The chat

    Two users have joined, the second has posted, the first got its id so far. *)
Definition first_user : session :=
  Build_session 1 (Reading 0 (Build_Receiver 0)) [format_event (User 1)] 0.
Definition second_user : session := Build_session 2 (Reading 1 (Build_Receiver 1)) [] 0.

(** The room after an operation *)
Definition after_op {A} (m : ST room boxed_error A) (r : room) : room :=
  match m r with Ok _ r' => r' | _ => r end.

Definition hi_from_second : ST room boxed_error unit :=
  publish (fun id => (2 =? id)%N) (Message 2 (b "hi")) [(2%N, Build_Sender 1); (1%N, Build_Sender 0)].
Definition room2 : room := after_op join_take (after_op join_take (h_room new_hub)).
Definition room3 : room :=
  after_op (join_enter (R := Empty_set) 1 (Build_Sender 0) (Build_Receiver 0)) room2.
Definition room4 : room :=
  after_op (join_enter (R := Empty_set) 2 (Build_Sender 1) (Build_Receiver 1)) room3.
Definition room5 : room := after_op hi_from_second room4.
Definition room6 : room := after_op (forward_step 0) room5.
Definition room7 : room := after_op (recv (T := Chunk + io_error) (Build_Receiver 0)) room6.

Definition talk : hub := Build_hub room7 [first_user; second_user] [(2%N, b "hi")].

Ltac by_run := match goal with |- _ = ?v => vm_cast_no_check (eq_refl v) end.

Lemma talk_reached : reachable talk.
Proof.
  set (r1 := after_op join_take (h_room new_hub)).
  set (new i := Build_session (N.of_nat (S i)) (Joining (Build_Sender i) (Build_Receiver i)) [] 0).
  set (read i got := Build_session (N.of_nat (S i)) (Reading i (Build_Receiver i)) got 0).
  eapply rtc_l; [apply (step_take (h_room new_hub) r1 [] [] 1%N); by_run|].
  eapply rtc_l; [apply (step_take r1 room2 [new 0] [] 2%N); by_run|].
  eapply rtc_l; [apply (step_enter room2 room3 [new 0; new 1] [] 0 1%N (Build_Sender 0)
    (Build_Receiver 0) [] 0 (Build_Receiver 0)); by_run|].
  eapply rtc_l; [apply (step_enter room3 room4 [read 0 []; new 1] [] 1 2%N (Build_Sender 1)
    (Build_Receiver 1) [] 0 (Build_Receiver 1)); by_run|].
  eapply rtc_l; [apply (step_post room4 room5 [read 0 []; read 1 []] [] 2%N (b "hi")
    [(2%N, Build_Sender 1); (1%N, Build_Sender 0)]); [|by_run]|].
  { reflexivity. }
  eapply rtc_l; [apply (step_forward room5 room6 [read 0 []; read 1 []] [(2%N, b "hi")] 0); by_run|].
  eapply rtc_l; [apply (step_receive room6 room7 [read 0 []; read 1 []] [(2%N, b "hi")] 0 1%N 0
    (Build_Receiver 0) [] 0 (format_event (User 1))); by_run|].
  apply rtc_refl.
Qed.

Lemma chat_in_order_witness :
  exists later, [format_event (User 1)] ++ later =
    [format_event (User 1); format_event (Message 2 (b "hi"))].
Proof.
  apply (chat_in_order talk 0 first_user talk_reached).
  - vm_compute. reflexivity.
  - reflexivity.
Defined.

Lemma chat_delivers_witness :
  exists r', rtc hub_step talk
    (Build_hub r' [first_user;
                   Build_session 2 (Reading 1 (Build_Receiver 1)) [format_event (User 2)] 0]
               [(2%N, b "hi")]).
Proof.
  apply (chat_delivers talk 1 2 1 (Build_Receiver 1) [] 0 talk_reached).
  - vm_compute. reflexivity.
  - reflexivity.
Defined.

(** Both users are still there after a post. *)
Lemma chat_removes_gone_witness :
  exists r', publish (E := boxed_error) (fun id => (7 =? id)%N) (Message 7 (b "to all"))
      (map_to_list (users (r_chat room7))) room7 = Ok tt r' /\
    is_Some (users (r_chat r') !! 1%N).
Proof.
  destruct (chat_removes_gone talk 7 (b "to all") (map_to_list (users (r_chat room7))) talk_reached)
    as (r' & Hr & Hleft); [vm_compute; reflexivity|done|].
  exists r'. split; [exact Hr|]. apply (Hleft 0 first_user); [reflexivity|discriminate|].
  split; [by eexists|]. intros k Hk. injection Hk as <-. discriminate.
Defined.

(** ** What arrives with the request of an upgrade

    A client that sends the first line of the new protocol together with its request gets
    no answer to this line: the reader of the server has it already, and is dropped. *)
Definition switching_head : bytes :=
  b "HTTP/1.1 101 Switching Protocols" ++ CRLF ++ b "upgrade: line-protocol" ++ CRLF ++
  b "date: 0" ++ CRLF ++ b "content-length: 0" ++ CRLF ++ CRLF.

Definition served (bs : bytes) : option (bytes * bytes) :=
  match serve (H1 := upgrade_service (W := wire) (C := sock)) Sock (tt, Build_wire (Build_store 0 ∅) bs []) with
  | Ok _ (_, w) => Some (wire_out w, wire_in w)
  | _ => None
  end.

(** "hello" is not echoed, and is not on the connection any more. *)
Theorem upgrade_loses_buffered :
  served (get_request ++ b "hello" ++ [LF]) = Some (switching_head, []).
Proof. vm_compute. reflexivity. Qed.

(** A client that waits: what it sends arrives packet by packet. *)
Record paced := {
  paced_store : store (BufReader sock);
  paced_in : list bytes;
  paced_out : bytes;
}.
#[local] Instance paced_has_store : HasStore paced (BufReader sock) := {|
  get_store := paced_store;
  set_store s w := Build_paced s (paced_in w) (paced_out w);
|}.
#[local] Instance paced_conn : Conn paced sock := {|
  conn_read := fun n st =>
    match paced_in st.2 with
    | [] => Ok [] st
    | p :: ps =>
        let left := match drop n p with [] => ps | p => p :: ps end in
        Ok (take n p) (st.1, Build_paced (paced_store st.2) left (paced_out st.2))
    end;
  conn_write := {|
    raw_write bs := fun st =>
      Ok (length bs) (st.1, Build_paced (paced_store st.2) (paced_in st.2) (paced_out st.2 ++ bs));
    raw_flush := ret tt |};
  conn_drop := fun E _ => ret tt;
  clone := fun E c => ret c;
  conn_set_read_timeout _ _ := ret tt;
  conn_set_nodelay _ _ := ret tt;
|}.
#[local] Instance paced_clock : Clock paced := fun E => ret 0%N.

(** When the lines come behind the packet of the request, all of them are echoed. *)
Theorem upgrade_echoes_paced :
  match serve (H1 := upgrade_service (W := paced) (C := sock)) Sock
      (tt, Build_paced (Build_store 0 ∅)
             [get_request; b "hel"; b "lo" ++ [LF] ++ b "bye"; [CR; LF] ++ b "quit" ++ [LF] ++ b "more"] []) with
  | Ok _ (_, w) => paced_out w = switching_head ++ b "hello" ++ [LF] ++ b "bye" ++ [LF]
  | _ => False
  end.
Proof. vm_compute. reflexivity. Qed.

(** ** A compressed body

    The encoder puts the magic number of gzip in front of the bytes. *)
Record Prefixed (R : Type) := MkPrefixed { prefix_left : bytes; prefixed : R }.
Arguments MkPrefixed {R} prefix_left prefixed.
Arguments prefix_left {R} p.
Arguments prefixed {R} p.

#[local] Instance Prefixed_read {W R} `{!Read W R} : Read W (Prefixed R) := fun n st =>
  match prefix_left st.1 with
  | [] =>
      match read n (prefixed st.1, st.2) with
      | Ok got (r, w) => Ok got (MkPrefixed [] r, w)
      | Err e (r, w) => Err e (MkPrefixed [] r, w)
      | Panic => Panic | Block => Block | NoFuel => NoFuel
      end
  | magic => Ok (take n magic) (MkPrefixed (drop n magic) (prefixed st.1), st.2)
  end.
#[local] Instance Prefixed_drop {W R} `{!Drop W R} : Drop W (Prefixed R) := fun E p =>
  drop_value (prefixed p).

Definition magic_number : bytes := [x1f; x8b].
#[local] Instance magic_gzip : Gzip := {|
  GzEncoder := Prefixed;
  gz_new := fun R r => MkPrefixed magic_number r;
  gz_read := fun W R _ => Prefixed_read;
  gz_drop := fun W R _ => Prefixed_drop;
|}.
#[local, refine] Instance magic_format : GzipFormat := {|
  gzip bs := magic_number ++ bs;
  gunzip z := if bool_decide (take 2 z = magic_number) then Some (drop 2 z) else None;
|}.
Proof. done. Defined.

#[local, refine] Instance Prefixed_laws {W R} `{!World W} `{!Read W R} `{!Drop W R} `{!ReadLaws W R} :
    ReadLaws W (Prefixed R) := {|
  holds p w bs fin := exists rest, bs = prefix_left p ++ rest /\ holds (prefixed p) w rest fin;
  alive p w := alive (prefixed p) w;
  passed w bs fin := exists rest, passed R w rest fin;
|}.
Proof.
  - intros p w bs fin (rest & _ & Hr). by eapply holds_alive.
  - intros p w w' Ha Hw. by eapply alive_wstep.
  - intros E p w Ha. by apply (drop_alive E (prefixed p) w).
  - intros w w' bs fin (rest & Hp) Hw. exists rest. by eapply passed_wstep.
  - intros E p w bs fin (rest & _ & Hr). eapply wp_never_mono; [by apply (drop_holds E (prefixed p) w)|].
    intros [] w' [Hw Hp]. split; [done|by eexists].
  - intros p w w' bs fin (rest & -> & Hr) Hw. exists rest. split; [done|]. by eapply holds_wstep.
  - intros p w bs e (rest & _ & Hr). by eapply fin_not_interrupted.
  - intros [[|c magic] r] w bs fin n Hn (rest & -> & Hr); unfold wp, read, Prefixed_read; cbn [fst snd prefix_left prefixed app].
    + pose proof (read_holds r w rest fin n Hn Hr) as Hrd. unfold wp in Hrd.
      unfold read in Hrd |- *. destruct (Read0 n (r, w)) as [got [r' w']|e [r' w']| | |]; try done.
      destruct Hrd as (Hw & rest' & -> & Hl & Hr' & Hnil). split; [done|]. exists rest'.
      split_and!; [done|done|by exists rest'|done].
    + split; [done|]. exists (drop n (c :: magic) ++ rest).
      split_and!; [by rewrite app_assoc, take_drop|rewrite length_take; lia|by exists rest|].
      by destruct n.
Defined.

#[local] Instance magic_laws {W} `{!World W} : GzipLaws W.
Proof.
  refine (Build_GzipLaws _ _ W _ (fun R _ _ _ => Prefixed_laws) _).
  intros R Hrd Hd Hl r w bs Hr. exists bs. by split.
Defined.

Definition gzip_response : Response unit sock (Compressed Slice) := compress_response (b "fn main").
Definition gzip_headers : HeaderMap := te_insert_chunked (res_headers gzip_response).

Lemma gzip_sendable : sendable gzip_headers.
Proof.
  change (Forall header_ok [(b "content-type", b "text/plain"); (b "content-encoding", b "gzip");
                            (b "transfer-encoding", b "chunked")]).
  repeat constructor; cbn [fst snd]; try done; try (vm_compute; set_solver).
Qed.

Lemma slice_droppable (body : Compressed Slice) (w : wire) : droppable body w.
Proof. intros E w' _. apply wp_ret. reflexivity. Qed.

Definition gzip_writer : BufWriter sock := BufWriter_new Sock.
Definition gzip_world : wire := Build_wire (Build_store 0 ∅) [] [].

Lemma gzip_framing :
  response_framing (res_version gzip_response) (res_headers gzip_response) None = inl (Chunked, gzip_headers).
Proof. reflexivity. Qed.
Lemma gzip_plain : plain_framing (res_headers gzip_response) /\ cl_get (res_headers gzip_response) = None.
Proof. split; [by split; [left|]|reflexivity]. Qed.
(** What is known of a run, and what is seen in it *)
Definition seen {S E A} (m : ST S E A) s (P : A -> S -> Prop) : Prop :=
  match m s with Ok a s' => P a s' | _ => True end.
Lemma wp_seen {S E A} (m : ST S E A) s Q R (P : A -> S -> Prop) :
  wp m Q R s -> seen m s P ->
  wp m (fun a s' => Q a s' /\ P a s') R s.
Proof. unfold wp, seen. by destruct (m s). Qed.

Lemma gzip_short :
  seen (write_response gzip_response true) (gzip_writer, gzip_world)
    (fun _ s => length (written s.1 s.2) < 200).
Proof. vm_compute. lia. Qed.

(** What was written is read back, and decompressed. *)
Lemma compressed_round_trip_witness :
  wp (write_response gzip_response true)
     (fun _ '(s, w) => wp (response_with_bytes (U := unit) (C := sock) (Cursor_new (written s w)))
         (fun '(_, got) _ => gunzip got = Some (b "fn main")) never tt)
     never (gzip_writer, gzip_world).
Proof.
  destruct gzip_plain as [Hp Hcl].
  assert (Hl : S (length (gzip (b "fn main"))) < fuel) by (vm_compute; lia).
  assert (Hmax : (N.of_nat (length (gzip (b "fn main"))) <= isize_max)%N) by (vm_compute; discriminate).
  assert (Hr : reader_of (compressed_0 (res_body gzip_response)) gzip_world (b "fn main")) by reflexivity.
  pose proof (wp_seen _ _ _ _ (fun _ s => length (written s.1 s.2) < 200)
    (compressed_round_trip (V := unit) (R := Cursor) gzip_response
      gzip_writer gzip_world Chunked gzip_headers (b "fn main")
      (or_intror eq_refl) eq_refl Hp Hcl gzip_framing gzip_sendable
      (slice_droppable _ _) Hr Hl Hmax) gzip_short) as Hwp.
  eapply wp_mono; [exact Hwp| |].
  - intros o [s w] [(text & Hw & Hread) Hlen]. cbn [fst snd] in Hlen. rewrite Hw in *. cbn [app] in *.
    eapply wp_never_mono; [apply (Hread (Cursor_new text) tt); [split; reflexivity|exact Hlen]|].
    intros [res got] u (_ & _ & Hgot). exact Hgot.
  - intros e [s w] Hno. exact Hno.
Defined.

(** ** The chat over WebSockets

    A connection is what its client sends before it goes: texts. Every text is sent. *)
Section ws_chat.
Abbreviation ws_world := (room * unit)%type.
#[local] Existing Instance world_events.
#[local] Existing Instance world_chat.

#[local] Instance client_read : Read ws_world (list bytes) := fun _ => ret [].
#[local] Instance client_write : RawWrite ws_world (list bytes) := {|
  raw_write bs := ret (length bs);
  raw_flush := ret tt;
|}.
#[local] Instance client_drop : Drop ws_world (list bytes) := fun E _ => ret tt.
#[local] Instance client_conn : Conn ws_world (list bytes) := {|
  clone := fun E c => ret c;
  conn_set_read_timeout _ _ := ret tt;
  conn_set_nodelay _ _ := ret tt;
|}.
#[local] Instance client_ws : Tungstenite ws_world (list bytes) := {|
  WebSocket := list bytes;
  WsMessage := bytes;
  create_response _ _ _ _ := inl (101%N, hm_new);
  from_raw_socket E c := ret c;
  ws_read E := fun '(ws, w) =>
    match ws with
    | text :: ws => Ok (inl text) (ws, w)
    | [] => Ok (inr (Errors.Message "closed")) ([], w)
    end;
  ws_send E _ := ret (inl tt);
  is_text _ := true;
|}.
#[local] Instance client_network : NetworkOnly (Net := unit) (C := list bytes).
Proof.
  split.
  - by intros E c c' w w' [= <- <-].
  - by intros E c ws w w' [= <- <-].
  - intros E ws ws' w w' x. cbn. destruct ws; by intros [= <- <- <-].
  - by intros E ws ws' w w' msg x [= <- <- <-].
  - by intros E ws w w' [= <-].
Qed.

Definition ws_text : WsMessage (W := ws_world) (C := list bytes) -> bytes + boxed_error := inl.
Definition ws_show : Event -> WsMessage (W := ws_world) (C := list bytes) := format_event.
Definition one_text : list bytes := [b "hi"].
Definition in_order : gmap N (Sender Event) -> list (N * Sender Event) := map_to_list.
Definition ws_user writer reader : ws_session ws_world (list bytes) :=
  Build_ws_session 1 (Build_Receiver 0) writer reader.
Definition ws_one writer reader got : list (ws_entry (Net := unit) (C := list bytes)) :=
  [Build_ws_entry (ws_user writer reader) got 0].
Definition ws_run {A} (m : ST ws_world boxed_error A) (w : ws_world) : ws_world :=
  match m w with Ok _ w' => w' | _ => w end.

(** The client joins, says "hi" and goes; both events are sent to it. *)
Definition ws_world0 : ws_world := wh_world (new_ws_hub (Net := unit) (C := list bytes) tt).
Definition ws_world1 := ws_run (ws_handler_start in_order one_text) ws_world0.
Definition ws_world2 :=
  ws_run (ws_read_thread (W := ws_world) (C := list bytes) in_order ws_text (ws_user (Some one_text) (Some one_text))) ws_world1.
Definition ws_write_one reader := ws_write_thread (E := boxed_error) (W := ws_world) (C := list bytes) ws_show (ws_user (Some one_text) reader).
Definition ws_world3 := ws_run (ws_write_one None) ws_world2.
Definition ws_world4 := ws_run (ws_write_one None) ws_world3.
Definition ws_log : list Event := [User 1; Message 1 (b "hi")].
Definition ws_quiet : ws_hub (Net := unit) (C := list bytes) :=
  Build_ws_hub ws_world4 (ws_one (Some one_text) None ws_log) ws_log.

Lemma ws_quiet_reached : ws_reachable (Net := unit) (C := list bytes) ws_show ws_text tt ws_quiet.
Proof.
  assert (Hv : forall us : gmap N (Sender Event), in_order us ≡ₚ map_to_list us) by done.
  eapply (rtc_l _ _ (Build_ws_hub ws_world1 (ws_one (Some one_text) (Some one_text) []) [User 1])).
  { apply (ws_step_join (Net := unit) (C := list bytes) ws_show ws_text in_order one_text ws_world0 ws_world1 [] []
      (ws_user (Some one_text) (Some one_text)) Hv). by_run. }
  eapply (rtc_l _ _ (Build_ws_hub ws_world2 (ws_one (Some one_text) (Some []) []) ws_log)).
  { apply (ws_step_read (Net := unit) (C := list bytes) ws_show ws_text in_order ws_world1 ws_world2
      (ws_one (Some one_text) (Some one_text) []) [User 1] 0 (ws_user (Some one_text) (Some one_text))
      (ws_user (Some one_text) (Some [])) [] 0 Hv eq_refl). by_run. }
  eapply (rtc_l _ _ (Build_ws_hub ws_world2 (ws_one (Some one_text) None []) ws_log)).
  { apply (ws_step_read (Net := unit) (C := list bytes) ws_show ws_text in_order ws_world2 ws_world2
      (ws_one (Some one_text) (Some []) []) ws_log 0 (ws_user (Some one_text) (Some []))
      (ws_user (Some one_text) None) [] 0 Hv eq_refl). by_run. }
  eapply (rtc_l _ _ (Build_ws_hub ws_world3 (ws_one (Some one_text) None [User 1]) ws_log)).
  { apply (ws_step_write (Net := unit) (C := list bytes) ws_show ws_text ws_world2 ws_world3
      (ws_one (Some one_text) None []) ws_log 0 (ws_user (Some one_text) None)
      (ws_user (Some one_text) None) [] 0 eq_refl). by_run. }
  eapply rtc_l; [|apply rtc_refl].
  apply (ws_step_write (Net := unit) (C := list bytes) ws_show ws_text ws_world3 ws_world4
    (ws_one (Some one_text) None [User 1]) ws_log 0 (ws_user (Some one_text) None)
    (ws_user (Some one_text) None) [User 1] 0 eq_refl). by_run.
Qed.

Lemma ws_chat_in_order_witness :
  exists c, chans (r_events (wh_world ws_quiet).1) !! 0 = Some c /\ ws_log ++ queue c = ws_log.
Proof.
  assert (Hlen : (N.of_nat (length (wh_entries ws_quiet)) < 2 ^ 64)%N) by (vm_compute; reflexivity).
  destruct (ws_chat_in_order (Net := unit) (C := list bytes) ws_show ws_text tt ws_quiet 0
    (Build_ws_entry (ws_user (Some one_text) None) ws_log 0) ws_quiet_reached Hlen eq_refl) as (_ & _ & Hw).
  apply Hw. by eexists.
Defined.

Lemma ws_gone_user_lingers_witness :
  ws_write_one None ws_world4 = Block /\ is_Some (users (r_chat ws_world4.1) !! 1%N).
Proof.
  assert (Hlen : (N.of_nat (length (wh_entries ws_quiet)) < 2 ^ 64)%N) by (vm_compute; reflexivity).
  destruct (ws_gone_user_lingers (Net := unit) (C := list bytes) ws_show ws_text tt ws_quiet ws_quiet 0
    (Build_ws_entry (ws_user (Some one_text) None) ws_log 0) ws_quiet_reached Hlen eq_refl eq_refl
    (ex_intro _ _ eq_refl) eq_refl (rtc_refl _ _) eq_refl) as (_ & _ & Hw & Hu).
  split; [exact Hw|exact Hu].
Defined.
End ws_chat.
