(* ===== verification/Tests.v ===== *)
(** * Tests: the unit tests of the crate, run on the model

    Each definition is the test of the same name: it builds the message with the
    builders, writes or parses it, and panics where an [unwrap] or an assertion of
    the test does. A spawned thread is run to its end where it is spawned: its sends
    do not wait, so this is one of its schedules. The tests of the client are
    in ClientTests.v. *)
From stdpp Require Import base list gmap strings.
From Stdlib Require Import Strings.Byte NArith Lia.
From S2P Require Import Prelude Errors StdIo HttpApi HttpModel Mpsc HttpBody Body Message.
From S2P Require Import Request Response Upgrade.

(** ** The harness *)

(** [Cursor<Vec<u8>>] that was made with an empty vector and only written to *)
Record Output := { output : bytes }.
#[export] Instance Output_write {W} : Write W Output := {|
  write_all bs := zoom_l (modify (fun out => {| output := output out ++ bs |}));
  flush := ret tt;
|}.

Section tests.
Context `{!HttpApi} `{!Fuel}.

(** The world of a test: the channels of its bodies. *)
Abbreviation world := (store (Chunk + io_error)).
(** A test ends or panics. *)
Abbreviation test := (ST world Empty_set unit).

Definition unwrap {E F A} (m : ST world E A) : ST world F A :=
  let! r := attempt m in
  match r with inl a => ret a | inr _ => panic end.
Definition is_err {E F A} (m : ST world E A) : ST world F bool :=
  let! r := attempt m in
  ret (match r with inl _ => false | inr _ => true end).
Definition assert {E} (c : bool) : ST world E unit := if c then ret tt else panic.
Definition assert_eq {E T} `{!EqDecision T} (x y : T) : ST world E unit :=
  assert (bool_decide (x = y)).

(** [Response::builder().status(..).version(..).header(..).body(..).unwrap()] *)
Abbreviation Res B := (Response (UpgradeExtension unit) unit B).
Definition build {E B} (status : N) (version : Version) (headers : list (string * string))
    (body : B) : ST world E (Res B) :=
  match fold_left (fun h kv => h ≫= fun h => hm_try_append h (b kv.1) (b kv.2))
                  headers (Some hm_new) with
  | Some h => ret (Build_Response status version h no_extensions body)
  | None => panic
  end.
Definition ok {E B} (headers : list (string * string)) (body : B) : ST world E (Res B) :=
  build 200 HTTP_11 headers body.

(** [write_response(res, &mut output, flag)] on an empty output *)
Definition write {B} `{!HttpBody world B} (res : Res B) (flag : bool)
  : ST world io_error (Outcome (UpgradeExtension unit) * bytes) :=
  fun w =>
    match write_response res flag ({| output := [] |}, w) with
    | Ok outcome (out, w) => Ok (outcome, output out) w
    | Err e (_, w) => Err e w
    | Panic => Panic | Block => Block | NoFuel => NoFuel
    end.

Definition is_close {U} (outcome : Outcome U) : bool :=
  match outcome with Close => true | _ => false end.
Definition is_keep_alive {U} (outcome : Outcome U) : bool :=
  match outcome with KeepAlive => true | _ => false end.
Definition is_upgrade {U} (outcome : Outcome U) : bool :=
  match outcome with Upgrade _ => true | _ => false end.

(** The lines of a text, each with its line end *)
Definition lines (ls : list string) : bytes := concat ((fun l => b l ++ CRLF) <$> ls).

Abbreviation VecBody := (Body (list (Chunk + io_error)) Cursor).
Abbreviation ChannelBody := (Body (Receiver (Chunk + io_error)) Cursor).
Definition from_iter (chunks : list bytes) : VecBody :=
  Body_from_iter ((fun c => inl (Chunk_from c)) <$> chunks).
Definition from_reader (bs : bytes) (length : option N) : VecBody :=
  Body_from_reader (Cursor_new bs) length.

(** ** src/src/response.rs: writing *)
Definition writes_responses_without_bodies : test :=
  let! res := ok [] (Body_empty : VecBody) in
  let! (outcome, output) := unwrap (write res true) in
  assert_eq output (lines ["HTTP/1.1 200 OK"; "content-length: 0"; ""]);;;
  assert (is_keep_alive outcome).

Definition writes_responses_with_bodies : test :=
  let! res := ok [] {| str_bytes := b "lol" |} in
  let! (outcome, output) := unwrap (write res true) in
  assert_eq output (lines ["HTTP/1.1 200 OK"; "content-length: 3"; ""] ++ b "lol");;;
  assert (is_keep_alive outcome).

Definition allows_to_skip_body_writing : test :=
  let! res := ok [] {| str_bytes := b "lol" |} in
  let! (outcome, output) := unwrap (write res false) in
  assert_eq output (lines ["HTTP/1.1 200 OK"; "content-length: 3"; ""]);;;
  assert (is_keep_alive outcome).

Definition fails_when_the_informed_content_length_does_not_match_the_body_length : test :=
  let! res := ok [("content-length", "5")] {| str_bytes := b "lol" |} in
  let! failed := is_err (write res true) in
  assert failed.

Definition writes_chunked_responses : test :=
  let! res := ok [("transfer-encoding", "chunked")] (from_iter [b "chunk1"; b "chunk2"]) in
  let! (outcome, output) := unwrap (write res true) in
  assert_eq output (lines ["HTTP/1.1 200 OK"; "transfer-encoding: chunked"; "";
                           "6"; "chunk1"; "6"; "chunk2"; "0"; ""]);;;
  assert (is_keep_alive outcome).

Definition writes_chunked_responses_with_trailers : test :=
  let! (sender, body) := Body_channel in
  unwrap (channel_send sender (b "lol"));;;
  unwrap (channel_send sender (b "wut"));;;
  unwrap (channel_send_trailer sender (inl (b "content-length")) (inl (b "6")));;;
  channel_drop sender;;;
  let! res := ok [("trailers", "content-length")] (body : ChannelBody) in
  let! (outcome, output) := unwrap (write res true) in
  assert_eq output (lines ["HTTP/1.1 200 OK"; "trailers: content-length";
                           "transfer-encoding: chunked"; ""; "3"; "lol"; "3"; "wut"; "0";
                           "content-length: 6"; ""]);;;
  assert (is_keep_alive outcome).

Definition writes_responses_from_reader_with_known_size : test :=
  let! res := ok [] (from_reader (b "lol") (Some 3%N)) in
  let! (outcome, output) := unwrap (write res true) in
  assert_eq output (lines ["HTTP/1.1 200 OK"; "content-length: 3"; ""] ++ b "lol");;;
  assert (is_keep_alive outcome).

Definition limits_the_from_reader_response_body_size : test :=
  let! res := ok [] (from_reader (b "lolwut") (Some 3%N)) in
  let! (outcome, output) := unwrap (write res true) in
  assert_eq output (lines ["HTTP/1.1 200 OK"; "content-length: 3"; ""] ++ b "lol");;;
  assert (is_keep_alive outcome).

Definition uses_chunked_transfer_when_the_reader_size_is_undefined : test :=
  let! res := ok [] (from_reader (b "lolwut") None) in
  let! (outcome, output) := unwrap (write res true) in
  assert_eq output (lines ["HTTP/1.1 200 OK"; "transfer-encoding: chunked"; "";
                           "6"; "lolwut"; "0"; ""]);;;
  assert (is_keep_alive outcome).

Definition does_not_use_chunked_encoding_when_the_reader_size_is_undefined_and_connection_is_close
  : test :=
  let! res := ok [("connection", "close")] (from_reader (b "lolwut") None) in
  let! (outcome, output) := unwrap (write res true) in
  assert_eq output (lines ["HTTP/1.1 200 OK"; "connection: close"; ""] ++ b "lolwut");;;
  assert (is_close outcome).

Definition supports_channel_response_bodies : test :=
  let! (sender, body) := Body_channel in
  unwrap (channel_send sender (b "lol"));;;
  unwrap (channel_send sender (b "wut"));;;
  channel_drop sender;;;
  let! res := ok [("connection", "close")] (body : ChannelBody) in
  let! (outcome, output) := unwrap (write res true) in
  assert_eq output (lines ["HTTP/1.1 200 OK"; "connection: close"; ""] ++ b "lolwut");;;
  assert (is_close outcome).

Definition returns_a_close_connection_outcome_when_informed_an_explicit_close_connection_header
  : test :=
  let! res := ok [("connection", "close")] (Body_empty : VecBody) in
  let! (outcome, _) := unwrap (write res true) in
  assert (is_close outcome).

Definition returns_a_close_keep_alive_outcome_when_no_close_connection_is_informed : test :=
  let! res := ok [] (Body_empty : VecBody) in
  let! (outcome, _) := unwrap (write res true) in
  assert (is_keep_alive outcome).

Definition returns_upgrade_outcome : test :=
  match upgrade_builder (Err := unit) (inl no_extensions) tt with
  | inl extensions =>
      let res : Res VecBody := Build_Response 101%N HTTP_11 hm_new extensions Body_empty in
      let! (outcome, _) := unwrap (write res true) in
      assert (is_upgrade outcome)
  | inr _ => panic
  end.

Definition writes_http_10_responses : test :=
  let! res := build 200 HTTP_10 [] {| str_bytes := b "lol" |} in
  let! (outcome, output) := unwrap (write res true) in
  assert_eq output (lines ["HTTP/1.0 200 OK"; "content-length: 3"; ""] ++ b "lol");;;
  assert (is_keep_alive outcome).

Definition removes_chunked_transfer_encoding_from_http_10_responses : test :=
  let! res := build 200 HTTP_10 [("transfer-encoding", "chunked")] (from_iter [b "lol"]) in
  let! (outcome, output) := unwrap (write res true) in
  assert_eq output (lines ["HTTP/1.0 200 OK"; "connection: close"; ""] ++ b "lol");;;
  assert (is_close outcome).

(** ** src/src/response.rs: parsing *)
Definition parse_res {E} (text : bytes)
  : ST world E (Res (Body (ChunkedReader Cursor) Cursor)) :=
  unwrap (parse_response (Cursor_new text)).

Definition parse_response_without_body : test :=
  let! res := parse_res (lines ["HTTP/1.1 200 OK"; "date: Mon, 25 Jul 2022 21:34:35 GMT"; ""]) in
  assert_eq HTTP_11 (res_version res);;;
  assert_eq 200%N (res_status res);;;
  assert_eq (Some (b "Mon, 25 Jul 2022 21:34:35 GMT")) (hm_get (res_headers res) (b "date")).

Definition res_body_is (text body : bytes) : test :=
  let! res := parse_res text in
  let! got := unwrap (into_bytes (res_body res)) in
  assert_eq got body.

Definition parse_response_with_content_length_body : test :=
  res_body_is (lines ["HTTP/1.1 200 OK"; "content-length: 6"; ""] ++ b "lolwut ignored")
              (b "lolwut").
Definition parse_response_with_chunked_body : test :=
  res_body_is (lines ["HTTP/1.1 200 OK"; "transfer-encoding: chunked"; "";
                      "3"; "lol"; "3"; "wut"; "0"; ""])
              (b "lolwut").
Definition parse_response_with_chunked_body_and_extensions : test :=
  res_body_is (lines ["HTTP/1.1 200 OK"; "transfer-encoding: chunked"; "";
                      "3;extension"; "lol"; "3"; "wut"; "0"; ""])
              (b "lolwut").
Definition parse_response_with_streaming_body : test :=
  let body := repeat x41 2048 in
  res_body_is (lines ["HTTP/1.1 200 OK"; "content-length: 2048"; ""] ++ body) body.
Definition parse_response_with_close_delimited_body : test :=
  res_body_is (lines ["HTTP/1.1 200 OK"; "connection: close"; ""] ++ b "lolwut") (b "lolwut").

(** ** src/src/request.rs *)
Definition parse_req {E} (text : bytes)
  : ST world E (Request (Body (ChunkedReader Cursor) Cursor)) :=
  unwrap (parse_request (Cursor_new text)).

Definition parse_request_without_body : test :=
  let! req := parse_req (lines ["GET /lolwut HTTP/1.1"; "Host: lol.com"; ""]) in
  assert_eq HTTP_11 (req_version req);;;
  assert_eq (b "/lolwut") (uri_path (req_uri req));;;
  assert_eq (Some (b "lol.com")) (hm_get (req_headers req) (b "host")).

Definition req_body_is (text body : bytes) : test :=
  let! req := parse_req text in
  let! got := unwrap (into_bytes (req_body req)) in
  assert_eq got body.

Definition parse_request_with_content_length_body : test :=
  req_body_is (lines ["POST /lol HTTP/1.1"; "Host: lol.com"; "Content-Length: 6"; ""] ++
               b "lolwut ignored") (b "lolwut").
Definition parse_request_with_chunked_body : test :=
  req_body_is (lines ["POST /lol HTTP/1.1"; "Host: lol.com"; "Transfer-Encoding: chunked"; "";
                      "3"; "lol"; "3"; "wut"; "0"; ""]) (b "lolwut").
Definition parse_request_with_chunked_body_and_extensions : test :=
  req_body_is (lines ["POST /lol HTTP/1.1"; "Host: lol.com"; "Transfer-Encoding: chunked"; "";
                      "3;extension"; "lol"; "3"; "wut"; "0"; ""]) (b "lolwut").
Definition parse_request_with_streaming_body : test :=
  let body := repeat x41 2048 in
  req_body_is (lines ["POST /lol HTTP/1.1"; "Host: lol.com"; "Content-Length: 2048"; ""] ++ body)
              body.
Definition fails_to_parse_incomplete_request : test :=
  let! r := attempt (parse_request (Cursor_new (b "POST /lol"))) in
  assert (match r with inr IncompleteRequest => true | _ => false end).

(** ** src/src/body.rs *)
Section reads.
Context {R : Type} `{!Read world R}.

(** [reader.read_exact(&mut buf).unwrap(); assert_eq!(buf, expected)] *)
Definition reads (expected : bytes) : ST (R * world) Empty_set unit :=
  let! r := attempt (read_exact fuel (length expected)) in
  match r with
  | inl buf => zoom_r (assert_eq buf expected)
  | inr _ => panic
  end.

Definition reads_to_end (expected : bytes) : ST (R * world) Empty_set unit :=
  let! r := attempt (read_to_end fuel) in
  match r with
  | inl buf => zoom_r (assert_eq buf expected)
  | inr _ => panic
  end.
End reads.

(** [let mut reader = body.into_reader();] and what the test does with it *)
Definition with_reader {I} `{!ChunkIter world I} (body : Body I Cursor)
    (m : ST (BodyReader I Cursor * world) Empty_set unit) : test :=
  let! reader := unwrap (into_reader body) in
  let! (_, reader) := borrow m reader in
  drop_value reader.

Definition one_to_ten : bytes := [x01; x02; x03; x04; x05; x06; x07; x08; x09; x0a].
Definition in_three_reads {R} `{!Read world R} : ST (R * world) Empty_set unit :=
  reads [x01; x02; x03; x04];;; reads [x05];;; reads [x06; x07; x08; x09; x0a].

Definition test_body_reader_buffered : test :=
  with_reader (Body_from_vec one_to_ten : VecBody) in_three_reads.
Definition test_body_reader_chunked : test :=
  with_reader (from_iter [[x01; x02; x03]; [x04; x05; x06]; [x07]; [x08; x09]; [x0a]])
    in_three_reads.
Definition test_body_reader_with_unknown_size : test :=
  with_reader (from_reader one_to_ten None) in_three_reads.
Definition test_body_reader_with_known_size : test :=
  with_reader (from_reader (one_to_ten ++ [x0b; x0c; x0d; x0e; x0f]) (Some 10%N))
    (in_three_reads;;; reads_to_end []).

Definition test_chunk_with_errors : test :=
  let! (channel, body) := Body_channel in
  unwrap (channel_send channel (b "123"));;;
  unwrap (channel_send channel (b "456"));;;
  channel_drop channel;;;
  let! got := unwrap (into_bytes (body : ChannelBody)) in
  assert_eq got (b "123456");;;
  let! (channel, body) := Body_channel in
  unwrap (channel_send channel (b "123"));;;
  unwrap (channel_send channel (b "456"));;;
  channel_abort channel;;;
  let! failed := is_err (into_bytes (body : ChannelBody)) in
  assert failed.

Definition all_tests : list test :=
  [writes_responses_without_bodies; writes_responses_with_bodies; allows_to_skip_body_writing;
   fails_when_the_informed_content_length_does_not_match_the_body_length;
   writes_chunked_responses; writes_chunked_responses_with_trailers;
   writes_responses_from_reader_with_known_size; limits_the_from_reader_response_body_size;
   uses_chunked_transfer_when_the_reader_size_is_undefined;
   does_not_use_chunked_encoding_when_the_reader_size_is_undefined_and_connection_is_close;
   supports_channel_response_bodies;
   returns_a_close_connection_outcome_when_informed_an_explicit_close_connection_header;
   returns_a_close_keep_alive_outcome_when_no_close_connection_is_informed;
   returns_upgrade_outcome; writes_http_10_responses;
   removes_chunked_transfer_encoding_from_http_10_responses;
   parse_response_without_body; parse_response_with_content_length_body;
   parse_response_with_chunked_body; parse_response_with_chunked_body_and_extensions;
   parse_response_with_streaming_body; parse_response_with_close_delimited_body;
   parse_request_without_body; parse_request_with_content_length_body;
   parse_request_with_chunked_body; parse_request_with_chunked_body_and_extensions;
   parse_request_with_streaming_body; fails_to_parse_incomplete_request;
   test_body_reader_buffered; test_body_reader_chunked; test_body_reader_with_unknown_size;
   test_body_reader_with_known_size; test_chunk_with_errors].

Definition passes (t : test) : bool :=
  match t (Build_store 0 ∅) with Ok _ _ => true | _ => false end.
End tests.

(** ** The tests pass *)
#[local] Instance test_fuel : Fuel := 3000.

(** With the libraries of HttpModel.v every unit test of request.rs, response.rs
    and body.rs passes on the model. *)
Theorem unit_tests_pass : forallb passes (all_tests (H := model_api)) = true.
Proof. vm_compute. reflexivity. Qed.
