(* ===== verification/ClientTests.v ===== *)
(** * ClientTests: the unit tests of src/src/client.rs, run on the model

    The tests start a server in a thread and talk to it. Here the other end of the
    connection is a function of the bytes the client has sent so far: what [serve]
    writes when these are all there is to read. The client of the tests reads only
    after it has sent whole requests, so it cannot tell the difference. *)
From stdpp Require Import base list gmap strings.
From Stdlib Require Import Strings.Byte NArith Lia.
From S2P Require Import Prelude Errors StdIo Buffered HttpApi HttpModel Mpsc ReadQueue.
From S2P Require Import HttpBody Body Message Request Response Upgrade Tls Tests Connection.
From S2P Require Import Server Echo Client.

(** ** The harness *)
Record net := { net_sent : bytes; net_taken : nat }.
Inductive peer := Peer.

(** The server at the other end *)
Class Remote := remote : bytes -> bytes.

#[export] Instance peer_read `{!Remote} : Read net peer := fun n st =>
  let got := take n (drop (net_taken st.2) (remote (net_sent st.2))) in
  Ok got (st.1, {| net_sent := net_sent st.2; net_taken := net_taken st.2 + length got |}).
#[export] Instance peer_drop : Drop net peer := fun E _ => ret tt.
#[export] Instance peer_write : RawWrite net peer := {|
  raw_write bs := fun st =>
    Ok (length bs) (st.1, {| net_sent := net_sent st.2 ++ bs; net_taken := net_taken st.2 |});
  raw_flush := ret tt;
|}.
#[export] Instance peer_conn `{!Remote} : Conn net peer := {|
  clone := fun E c => ret c;
  conn_set_read_timeout _ _ := ret tt;
  conn_set_nodelay _ _ := ret tt;
|}.

Section tests.
Context `{!HttpApi} `{!Fuel}.

(** [Server::from(listener).serve(service)] on the connection of the test *)
Definition served_by (service : Service (W := wire) (C := sock) (A := unit) (Hd := unit))
  : Remote :=
  fun sent =>
    let start := {| wire_store := Build_store 0 ∅; wire_in := sent; wire_out := [] |} in
    match serve (H1 := service) Sock (tt, start) with
    | Ok _ (_, w) | Err _ (_, w) => wire_out w
    | Panic | Block | NoFuel => []
    end.

(** A service from a closure on requests *)
Definition closure {B} {HB : HttpBody wire B}
    (f : Request (IncomingBody sock) -> Response (UpgradeExtension unit) sock B)
  : Service (W := wire) (C := sock) (A := unit) (Hd := unit) := {|
  SBody := B;
  call req := ret (f req);
  should_continue := fun E => default_should_continue;
|}.

(** [http::Response::builder().header(..).body(..)], a header map that is given *)
Definition respond_with {B} (headers : HeaderMap) (body : B)
  : Response (UpgradeExtension unit) sock B :=
  Build_Response 200%N HTTP_11 headers no_extensions body.

Definition echo : Remote := served_by (closure (fun req => respond_with hm_new (req_body req))).

(** [http::Request::builder()..body(..).unwrap()] *)
Definition request {B} (method : Method) (uri : Uri) (version : Version)
    (headers : HeaderMap) (body : B) : Request B :=
  Build_Request method uri version headers body.

(** A test on a fresh connection ends or panics. *)
Abbreviation test := (ST net Empty_set unit).
Definition must {S E F A} (m : ST S E A) : ST S F A :=
  let! r := attempt m in
  match r with inl a => ret a | inr _ => panic end.
Definition check {S E} (c : bool) : ST S E unit := if c then ret tt else panic.

(** [assert_eq!(res.into_body().into_bytes().unwrap(), expected)] *)
Definition body_is `{!Remote} {U} (res : Response U peer (ResponseBody peer))
    (expected : bytes) : test :=
  let! got := must (into_bytes (res_body res)) in
  check (bool_decide (got = expected)).

Variables (root local_uri : Uri).

Definition test_client : test :=
  let _ := echo in
  let connect := fun _ => ret Peer in
  let post := fun text => request POST local_uri HTTP_11 hm_new {| str_bytes := b text |} in
  fun w =>
    match (let! res := must (client_request (U := unit) connect (post "Hello world")) in
           zoom_r (body_is res (b "Hello world"));;;
           let! res := must (client_request (U := unit) connect (post "Bye world")) in
           zoom_r (body_is res (b "Bye world"))) (Client_new, w) with
    | Ok u (_, w) => Ok u w
    | Err e (_, w) => Err e w
    | Panic => Panic | Block => Block | NoFuel => NoFuel
    end.

Definition test_send_request : test :=
  let _ := echo in
  let get := fun text => request GET root HTTP_11 hm_new {| str_bytes := b text |} in
  let! (conn, res) := must (send_request (U := unit) Peer (get "Hello world")) in
  body_is res (b "Hello world");;;
  let! conn := outcome_unwrap conn in
  let! (conn, res) := must (send_request (U := unit) conn (get "Bye world")) in
  body_is res (b "Bye world");;;
  let! conn := outcome_unwrap conn in
  let! (conn, res) := must (send_request (U := unit) conn (request GET root HTTP_11 hm_new tt)) in
  body_is res [];;;
  let! conn := outcome_unwrap conn in
  let! (conn, res) :=
    must (send_request (U := unit) conn
            (request GET root HTTP_11 (hm_insert (b "transfer-encoding") (b "chunked") hm_new)
               (from_iter [b "lol"; b "wut"]))) in
  body_is res (b "lolwut").

Definition correctly_handles_closing_connections : test :=
  let _ := served_by (closure (fun _ =>
    respond_with (hm_insert (b "connection") (b "close") hm_new) (from_reader (b "lolwut") None))) in
  let! (conn, res) := must (send_request (U := unit) Peer (request GET root HTTP_11 hm_new tt)) in
  body_is res (b "lolwut");;;
  check (closed conn).

Definition keep_http_10_connection_alive_when_asked_to : test :=
  let _ := served_by (closure (fun _ => respond_with hm_new {| str_bytes := b "lolwut" |})) in
  let keep_alive := hm_insert (b "connection") (b "keep-alive") hm_new in
  let! (conn, res) :=
    must (send_request (U := unit) Peer (request GET root HTTP_10 keep_alive tt)) in
  body_is res (b "lolwut");;;
  check (match conn with ConnKeepAlive _ => true | _ => false end);;;
  let! conn := outcome_unwrap conn in
  let! (conn, res) := must (send_request (U := unit) conn (request GET root HTTP_10 hm_new tt)) in
  body_is res (b "lolwut");;;
  check (match conn with ConnClose => true | _ => false end).

Definition client_tests : list test :=
  [test_client; test_send_request; correctly_handles_closing_connections;
   keep_http_10_connection_alive_when_asked_to].

Definition succeeds (t : test) : bool :=
  match t {| net_sent := []; net_taken := 0 |} with Ok _ _ => true | _ => false end.
End tests.

(** ** The tests pass *)
#[local] Instance test_fuel : Fuel := 1000.

(** With the libraries of HttpModel.v the four tests of client.rs pass: the client
    and the server of the model, joined by a connection, exchange their messages. *)
Theorem client_tests_pass :
  forallb succeeds
    (client_tests (H := model_api) (b "/") (b "http://127.0.0.1:4444/")) = true.
Proof. vm_compute. reflexivity. Qed.
